(* ===== verification/_CoqProject ===== *)
-Q . S2P
Prelude.v
RingBuffer.v
NetPacket.v
PacketTypes.v
Text.v
Protocol.v
ObjectPool.v
TaggedStack.v
MemoryPool.v
MemoryPoolTLS.v
MemoryPoolTLSInv.v
MemoryPoolTLSProps.v
LockFreeStack.v
LockFreeQueue.v
QueueInterleaving.v
QueueLinear.v
QueueConsumer.v
LockFreedom.v
ServerState.v
NetServer.v
RunLogic.v
ReceiveLoop.v
SendPath.v
SendStream.v
SessionLogic.v
PacketLogic.v
HistoryLogic.v
SessionSound.v
SessionThreads.v
SessionSafety.v
SessionProps.v
PacketProps.v
SessionStack.v
Lifecycle.v
CrashDump.v
DBConnector.v
LoginServer.v
LoginProps.v
