(* ===== verification/Prelude.v ===== *)
(** * A verification library for LoginServer_Chat

    [LoginServer_Chat] is a Windows login server in C++: a completion-port network
    engine, the containers and memory pools under it, and a login service on top that
    asks MySQL for the account, publishes the session key in Redis and answers. This
    library models the program's own code under [src/LoginServer_Chat/] and proves
    what makes its parts correct, and where they are not.

    ** The program and its model

    A client connects; [CNetServer::AcceptThread] takes a slot off the free stack and
    posts a receive. Worker threads take completions: a receive moves bytes through the
    session's [CRingBuffer], cuts them into [CNetPacket]s and gives each to
    [LoginServer::OnRecv]; a send completion frees the packets sent and sends the next
    batch. [ioCount] and [releaseFlag] decide when a slot may be released. Packets,
    characters, nodes and chunks come from [MemoryPoolTLS].

    - [Prelude]: faults and the [outcome] monad, [w]-bit integers as [Z] with their
      wrap-around ([uint], [sint]), objects in memory as byte lists with checked reads
      and writes, [memcpy_s], lemmas on lists.
    - [RingBuffer] (CRingBuffer.h, CRingBuffer.cpp): [CRingBuffer], every member
      function, and the bounded byte queue [ByteQueue] it refines.
    - [NetPacket] (CNetPacket.h, CNetPacket.cpp): [CNetPacket], layout, stream
      operators, [Encode] and [Decode], reference counts. [PacketTypes]: its object
      invariant and the typing of its operations.
    - [Text]: literals and decimal text. [Protocol] (CommonProtocol.h): the enumerations
      and the layouts of the documented messages.
    - [ObjectPool]: the interface [PoolOps]/[PoolLaws] between pools and their clients.
      [TaggedStack] (the free stacks of MemoryPool.h and MemoryPoolTLS.h, interleaved),
      [MemoryPool] (MemoryPool.h), [MemoryPoolTLS], its invariant [MemoryPoolTLSInv] and
      [MemoryPoolTLSProps] (MemoryPoolTLS.h), with constructors and destructors.
    - [LockFreeStack] (CLockFreeStack.h), [LockFreeQueue] (CLockFreeQueue.h): every
      access to shared memory is a step of a thread. [QueueInterleaving] lets any number
      of threads loose on a queue whose pool of nodes other queues share, and
      [QueueLinear] has the invariant; [QueueConsumer] is about a consumer that is alone,
      as the thread with the send flag is. [LockFreedom] counts the accesses of schedules.
    - [ServerState] and [NetServer] (CNetServer.h, CNetServer.cpp): the shared state, the
      atomic actions on it ([act]), and the member functions as programs ([prog]) over
      them: [SendPacket], [Disconnect], [SendPost], [RecvPost], the receive loop,
      [IOCPWorkerThread], [AcceptThread], [MonitorThread], [ReleaseSession]. [Lifecycle]:
      [Start], [Stop], [InitSettings] and main.cpp.
    - [RunLogic] reasons about a function that runs alone, [SessionLogic] about
      interleaved ones: tokens for the counts of sessions and packets, a weakest
      precondition, and an invariant of the sessions; [PacketLogic] adds the invariant of
      the packets, [HistoryLogic] that of what was queued and sent over a run, and
      [SessionSound] shows that every atomic action keeps the three.
      [SessionThreads] follows every member function with it; [SessionSafety] is the step
      relation of the whole server, and [SessionStack] runs it on the [CLockFreeStack] of
      free slots, access by access.
    - [CrashDump] (CrashDump.h, CrashDump.cpp), [DBConnector] (DBConnector.h,
      DBConnector.cpp), [LoginServer] (LoginServer.h, LoginServer.cpp): the handlers over
      the character map, the per-thread connections and the counters; what they ask of
      the engine is a list of [command]s that [run_commands] runs on it.

    A fault is a value of [fault]: an access outside an object, a null or freed pointer,
    a call of the invalid parameter handler, an uncaught exception, a deliberate crash.
    A function that can fault returns [outcome].

    ** What the theorems show

    - Sessions ([SessionProps], for every reachable configuration of worker, accept and
      application threads and the operating system, whatever becomes of the contents of
      the send queues): [io_only_on_live_sessions],
      [owner_is_exclusive], [receive_side_exclusive], [send_side_exclusive],
      [count_covers_outstanding], [free_stack_sound], [no_session_forgotten], [session_ids_name_slots], [Disconnect_never_marks].
      [server_on_lock_free_stack] carries them to the server on its lock-free stack.
    - Packets ([PacketProps], for every interleaving of the same threads in which the send
      queues are reliable): [packets_used_are_live], [packet_freed_by_last_user],
      [no_packet_forgotten] and [sends_in_queue_order]; [packet_left_behind] is a race in
      which [SendPost] leaves a packet in the queue, and [stale_packet_used] what happens
      when a queue refuses a packet it has counted.
    - The byte streams: [stream_reassembly], [RecvPost_segments], [bad_code_disconnects],
      [oversized_header_overruns] in [ReceiveLoop]; [wire_carries_queue_in_order],
      [SendPacket_queues_frame], [send_turns_return] in [SendStream].
    - The login service ([LoginProps]): [characters_follow_sessions], [login_outcome],
      [response_is_documented], [other_messages_dropped], and
      [login_server_keeps_protocol], which makes the session theorems hold with these
      handlers.
    - Data: [ring_buffer_refines_queue] and the behaviour at its edges;
      [Encode_Decode_roundtrip], [Decode_accepts_encodings_only], [stream_roundtrip],
      [packet_operations_typed].
    - Pools and containers: [tagged_stack_linearizable] and [tag_wraps_around],
      [pool_refines_set], [tls_pool_refines_set] and [other_thread_faults],
      [stack_linearizable], [stack_lock_free]; [queue_linearizable], with
      [enqueue_to_private_node] for what its hypothesis excludes, [queue_lock_free],
      [counted_elements_delivered], and [queue_fifo_alone].
    - Start and end: [Start_all_or_nothing], which also says what a failed start leaves
      open, [failed_start_duplicates_slots], [Stop_uses_deleted_array],
      [main_prints_or_exits]; [dumps_are_distinct] within one process, and
      [processes_share_names].

    ** Bounds and fuel

    Numbers keep their width and wrap where the code's do. [run] takes fuel for loops
    that spin; [twp_run] gives, for every environment, an amount that is enough. A loop
    of [destroy] takes one turn more than there are nodes ([destroy_all]). A call of the
    lock-free queue that is not disturbed takes at most eleven accesses ([alone 11]);
    disturbed ones are paid for by what took effect ([LockFreedom]). A
    tagged pointer has 47 bits of address and 17 of tag, so [tagged_stack_linearizable]
    asks that fewer than [2^17] pops happen inside one [Pop], and [queue_linearizable]
    the same for the changes of [_head] and [_tail]; the stack of [LockFreeStack] has a
    counter of 64 bits and asks for fewer than [2^64].
    [tls_pool_refines_set] allows as many calls as the limit has chunks, each of which
    may need a new one. Both pool theorems assume that memory is granted, and that [Free]
    is given blocks of the pool or readable memory without its code
    ([Free_reads_outside]).

    The session and packet theorems assume that no [ioCount] reaches [2^32], that no
    packet gets [2^31] references, and that no session is given an identifier that was
    known before, which [_sessionCnt] with its 48 bits makes true until it wraps around
    ([no_overflow]). Application threads use identifiers that [OnClientJoin] has given
    them, and send packets they have allocated and free afterwards ([send_new]), as the
    login server does; handlers keep [HandlerOk]. The server starts with no packet in use
    and empty send queues ([initial]).

    ** Parameters

    What is not under [src/] is an argument: the answers of the operating system to each
    call, the content of fresh memory, the addresses allocators return, [rand()], the
    sizes the compiler gives a block, what a pool finds when it reads the codes at an
    address that is no block of it ([MemoryPool.Memory]); MySQL ([MySQL], with [AccountDB] for what a client
    of it may rely on), Redis ([Redis]) and [MultiByteToWideChar] ([WideChars]) are
    classes with sample instances under the witnesses. [LoginServer.h] does not declare
    the members [_id] and [_nickname] that [LoginServer.cpp] uses; they are taken to be
    the [WCHAR[20]] the documented message has.

    ** Simplifications

    In the session model the free stack and the send queues are atomic. For the stack
    [SessionStack] shows that this loses nothing. For the queues it does lose something:
    [CLockFreeQueue] can lose sight of elements and then refuses a [Dequeue] although it
    has counted them ([enqueue_to_private_node]). So [SessionSafety] has two step
    relations. In [step], the one of [reachable], the contents of a send queue may become
    any list at any moment ([step_queue]), and nothing in [SessionProps] depends on them.
    In an [orderly] run [Enqueue] appends, [Dequeue] takes the first element and refuses
    only when there is none, and the size a thread reads may lag behind the contents
    ([step_lag]). That is what [CLockFreeQueue] does for the server as long as no
    [Enqueue] meets a recycled node and no tag wraps around inside a call: then it is a
    first-in first-out list ([queue_linearizable]), and the one consumer, the thread with
    the send flag ([send_side_exclusive]), which takes no more than it counted, is never
    refused ([counted_elements_delivered]); a release empties a queue that nobody is in.
    The theorems of [PacketProps] are about orderly runs. A thread that finds a
    pool of the containers without a node waits. The pools are
    modelled by call, the interleaving of their free stacks in [TaggedStack]. The pool
    interface asks that [Free] of a live object never faults; [MemoryPool] discharges
    it, [MemoryPoolTLS] does as long as a chunk object can be had ([Free_ok] in
    [MemoryPoolTLSProps]). A [float] is its bit pattern.

    ** Not modelled

    The MySQL and OpenSSL headers under [include/] and the Redis client under
    [cpp_redis/] and [tacopie/] are third-party code the program only calls. Console
    output and the content of a dump file are effects without content. The part of
    CommonProtocol.h for messages between servers is commented out in the source.
    [CLockFreeQueue(int, int)] does not compile.

    ** Plan

    Next: the send queue of a session over [LockFreeQueue] access by access, to have
    [orderly] as a theorem about the runs [queue_linearizable] allows. The
    Redis client comes as headers; its reply parser and command builder are in a
    library that is not under [src/], so their wire format cannot be modelled. *)
From stdpp Require Import prelude gmap list list_numbers.
From Stdlib Require Import ZArith Lia.

Open Scope Z_scope.

(** ** Faults and outcomes *)

(** What a C++ expression of the program does when it is not defined: an access
    outside an object, a call of the invalid parameter handler (which
    [CrashDump] turns into a crash), a use of a null pointer, and an explicit
    [CrashDump::Crash]. *)
Inductive fault :=
  | OutOfBounds
  | InvalidParameter
  | NullDeref
  | UseAfterFree
  | UncaughtException
  | Crash.

#[export] Instance fault_eq_dec : EqDecision fault.
Proof. solve_decision. Defined.

Inductive outcome (A : Type) :=
  | Ok (a : A)
  | Fault (f : fault).
Arguments Ok {A} a.
Arguments Fault {A} f.

#[export] Instance outcome_ret : MRet outcome := fun A a => Ok a.
#[export] Instance outcome_bind : MBind outcome := fun A B k m =>
  match m with Ok a => k a | Fault f => Fault f end.

Definition is_Ok {A} (m : outcome A) : Prop := exists a, m = Ok a.

Lemma bind_Ok {A B} (k : A -> outcome B) a : (Ok a ≫= k) = k a.
Proof. reflexivity. Qed.
Lemma bind_Fault {A B} (k : A -> outcome B) f : (Fault f ≫= k) = Fault f.
Proof. reflexivity. Qed.
Lemma bind_Ok_inv {A B} (m : outcome A) (k : A -> outcome B) b :
  m ≫= k = Ok b -> exists a, m = Ok a /\ k a = Ok b.
Proof. destruct m as [a|f]; cbn; [eauto | discriminate]. Qed.

(** ** Tactics *)

(** Turn the boolean conditions of the context into propositions, and solve
    linear arithmetic after that. *)
Ltac b2p :=
  repeat match goal with
  | H : _ && _ = true |- _ => apply andb_true_iff in H; destruct H
  | H : _ && _ = false |- _ => apply andb_false_iff in H; destruct H
  | H : _ || _ = true |- _ => apply orb_true_iff in H; destruct H
  | H : _ || _ = false |- _ => apply orb_false_iff in H; destruct H
  | H : negb _ = true |- _ => apply negb_true_iff in H
  | H : negb _ = false |- _ => apply negb_false_iff in H
  | H : (_ <=? _) = true |- _ => apply Z.leb_le in H
  | H : (_ <=? _) = false |- _ => apply Z.leb_gt in H
  | H : (_ <? _) = true |- _ => apply Z.ltb_lt in H
  | H : (_ <? _) = false |- _ => apply Z.ltb_ge in H
  | H : (_ =? _) = true |- _ => apply Z.eqb_eq in H
  | H : (_ =? _) = false |- _ => apply Z.eqb_neq in H
  end.
Ltac zlia := solve [lia | exfalso; b2p; lia | b2p; lia].

(** Split the conditions of the goal and of the hypotheses into cases and
    close the arithmetically impossible ones. *)
Ltac split_ifs :=
  repeat match goal with
  | |- context [if ?b then _ else _] =>
      let E := fresh "E" in destruct b eqn:E; try zlia
  | H : context [if ?b then _ else _] |- _ =>
      let E := fresh "E" in destruct b eqn:E; try zlia
  end.

(** Invert the sequence of binds of a hypothesis [m = Ok a]. *)
Ltac inv_ok :=
  repeat match goal with
  | H : (_ ≫= _) = Ok _ |- _ =>
      let a := fresh "a" in let E := fresh "E" in
      apply bind_Ok_inv in H; destruct H as (a & E & H)
  | H : Ok _ = Ok _ |- _ => injection H as H; subst
  | H : Fault _ = Ok _ |- _ => discriminate H
  | H : (_, _) = (_, _) |- _ => injection H as H; subst
  end.

(** ** Lists of threads

    What the threads of a list own together, and what changes with one of them. *)
Lemma concat_fmap_insert {A B} (f : A -> list B) ts i t :
  ts !! i = Some t ->
  exists rest, concat (f <$> ts) ≡ₚ f t ++ rest /\
    (forall t', concat (f <$> <[i := t']> ts) ≡ₚ f t' ++ rest) /\
    forall j u, j <> i -> ts !! j = Some u -> f u ⊆ rest.
Proof.
  revert i. induction ts as [|x ts IH]; intros [|i] Hi; try done.
  - injection Hi as ->. exists (concat (f <$> ts)). split; [done|]. split; [done|].
    intros [|j] u Hj Hu; [done|]. intros y Hy. apply list_elem_of_In, in_concat. exists (f u).
    split; apply list_elem_of_In; [|done]. apply list_elem_of_fmap. exists u. split; [done|].
    apply (list_elem_of_lookup_2 _ j). done.
  - destruct (IH i Hi) as (rest & E & E' & Ho). exists (f x ++ rest). cbn.
    split; [rewrite E, !app_assoc, (Permutation_app_comm (f x)); done|].
    split; [intros t'; rewrite E', !app_assoc, (Permutation_app_comm (f x)); done|].
    intros [|j] u Hj Hu y Hy; apply elem_of_app; [injection Hu as ->; auto|].
    right. apply (Ho j u); [congruence|done|done].
Qed.

(** ** Machine integers

    A [w]-bit integer is a [Z]; [uint w] and [sint w] are the conversions of C++ to
    the unsigned and to the signed [w]-bit type (two's complement). *)
Definition uint (w z : Z) : Z := z mod 2 ^ w.
Definition sint (w z : Z) : Z := (z + 2 ^ (w - 1)) mod 2 ^ w - 2 ^ (w - 1).

Abbreviation u8 := (uint 8).
Abbreviation u16 := (uint 16).
Abbreviation u32 := (uint 32).
Abbreviation u64 := (uint 64).
Abbreviation i8 := (sint 8).
Abbreviation i32 := (sint 32).
Abbreviation i64 := (sint 64).

Lemma u_range w z : 0 <= w -> 0 <= uint w z < 2 ^ w.
Proof. intros. apply Z.mod_pos_bound. lia. Qed.

Lemma s_range w z : 0 < w -> - 2 ^ (w - 1) <= sint w z < 2 ^ (w - 1).
Proof.
  intros. unfold sint. pose proof (Z.mod_pos_bound (z + 2 ^ (w - 1)) (2 ^ w)) as B.
  assert (2 ^ w = 2 * 2 ^ (w - 1)) as E.
  { rewrite <- Z.pow_succ_r by lia. f_equal. lia. }
  lia.
Qed.

Lemma u_small w z : 0 <= z < 2 ^ w -> uint w z = z.
Proof. apply Z.mod_small. Qed.

Lemma s_small w z : 0 < w -> - 2 ^ (w - 1) <= z < 2 ^ (w - 1) -> sint w z = z.
Proof.
  intros. unfold sint.
  assert (2 ^ w = 2 * 2 ^ (w - 1)) as E.
  { rewrite <- Z.pow_succ_r by lia. f_equal. lia. }
  rewrite Z.mod_small by lia. lia.
Qed.

Lemma u_u w z : uint w (uint w z) = uint w z.
Proof. apply Zmod_mod. Qed.

Lemma u_s w z : uint w (sint w z) = uint w z.
Proof.
  unfold uint, sint. rewrite Zminus_mod_idemp_l. f_equal. lia.
Qed.

Lemma u_add w a b : uint w (uint w a + uint w b) = uint w (a + b).
Proof. unfold uint. rewrite <- Zplus_mod. reflexivity. Qed.

Lemma u_add_l w a b : uint w (uint w a + b) = uint w (a + b).
Proof. unfold uint. apply Zplus_mod_idemp_l. Qed.

Lemma u_add_r w a b : uint w (a + uint w b) = uint w (a + b).
Proof. unfold uint. apply Zplus_mod_idemp_r. Qed.

Lemma u_sub_l w a b : uint w (uint w a - b) = uint w (a - b).
Proof. unfold uint. apply Zminus_mod_idemp_l. Qed.

Lemma u_lxor w a b : 0 <= w -> uint w (Z.lxor a b) = Z.lxor (uint w a) (uint w b).
Proof.
  intros Hw. unfold uint. rewrite <- !Z.land_ones by done.
  apply Z.bits_inj'. intros n Hn.
  rewrite Z.land_spec, !Z.lxor_spec, !Z.land_spec.
  destruct (Z.testbit (Z.ones w) n); rewrite ?andb_true_r, ?andb_false_r; done.
Qed.

Lemma s_congr w a b : uint w a = uint w b -> sint w a = sint w b.
Proof.
  intros E. unfold sint, uint in *. rewrite <- (Zplus_mod_idemp_l a), E.
  rewrite Zplus_mod_idemp_l. reflexivity.
Qed.

Lemma s_inj_u w a b : sint w a = sint w b -> uint w a = uint w b.
Proof. intros E. rewrite <- (u_s w a), E. apply u_s. Qed.

(** [(BYTE)(x % 256)] with the truncating [%] of C++. *)
Lemma u8_rem x : uint 8 (Z.rem x 256) = uint 8 x.
Proof.
  rewrite Z.rem_eq by done. unfold uint. change (2 ^ 8) with 256.
  replace (x - 256 * Z.quot x 256) with (x + (- Z.quot x 256) * 256) by lia.
  apply Z_mod_plus_full.
Qed.

Create HintDb machine.
Create Rewrite HintDb machine.
#[export] Hint Rewrite u_u u_s u_add_l u_add_r : machine.

(** A byte of memory, as its unsigned value. *)
Definition is_byte (b : Z) : Prop := 0 <= b < 256.

Lemma is_byte_u8 z : is_byte (u8 z).
Proof. apply (u_range 8). lia. Qed.

Lemma u8_byte b : is_byte b -> u8 b = b.
Proof. apply (u_small 8). Qed.

#[export] Hint Resolve is_byte_u8 : machine.

(** Little-endian representation of an integer in [n] bytes. *)
Fixpoint le_bytes (n : nat) (z : Z) : list Z :=
  match n with
  | O => []
  | S n => u8 z :: le_bytes n (z / 256)
  end.

Fixpoint le_num (bs : list Z) : Z :=
  match bs with
  | [] => 0
  | b :: bs => b + 256 * le_num bs
  end.

Lemma length_le_bytes n z : length (le_bytes n z) = n.
Proof. revert z; induction n; intros; cbn; auto. Qed.

Lemma le_bytes_byte n z : Forall is_byte (le_bytes n z).
Proof. revert z; induction n; intros; cbn; auto with machine. Qed.

Lemma le_num_bytes n z : le_num (le_bytes n z) = uint (8 * Z.of_nat n) z.
Proof.
  revert z; induction n as [|n IH]; intros z; [cbn; symmetry; apply Z.mod_1_r|].
  cbn [le_bytes le_num]. rewrite IH. unfold uint.
  replace (8 * Z.of_nat (S n)) with (8 + 8 * Z.of_nat n) by lia.
  rewrite Z.pow_add_r by lia. change (2 ^ 8) with 256.
  rewrite Z.rem_mul_r by lia. lia.
Qed.

Lemma le_bytes_num bs : Forall is_byte bs -> le_bytes (length bs) (le_num bs) = bs.
Proof.
  induction 1 as [|b bs Hb _ IH]; [done|]. cbn [le_num length le_bytes].
  unfold is_byte in Hb. f_equal.
  - unfold uint. change (2 ^ 8) with 256.
    rewrite Z.mul_comm, Z.mod_add, Z.mod_small by lia. done.
  - rewrite Z.add_comm, Z.mul_comm, Z.div_add_l, Z.div_small, Z.add_0_r by lia. done.
Qed.

Lemma le_num_range bs : Forall is_byte bs -> 0 <= le_num bs < 2 ^ (8 * Z.of_nat (length bs)).
Proof.
  induction 1 as [|b bs Hb _ IH]; [done|]. cbn [le_num length]. unfold is_byte in Hb.
  replace (8 * Z.of_nat (S (length bs))) with (8 + 8 * Z.of_nat (length bs)) by lia.
  rewrite Z.pow_add_r by lia. lia.
Qed.
#[export] Hint Rewrite length_le_bytes : machine.

(** ** Memory

    An allocated object is the list of its bytes; an address into it is an
    offset. Reading or writing outside the object is a fault. *)
Definition mem_read (m : list Z) (off n : Z) : outcome (list Z) :=
  if (0 <=? off) && (0 <=? n) && (off + n <=? Z.of_nat (length m))
  then Ok (take (Z.to_nat n) (drop (Z.to_nat off) m))
  else Fault OutOfBounds.

Definition mem_write (m : list Z) (off : Z) (bs : list Z) : outcome (list Z) :=
  if (0 <=? off) && (off + Z.of_nat (length bs) <=? Z.of_nat (length m))
  then Ok (take (Z.to_nat off) m ++ bs ++ drop (Z.to_nat off + length bs) m)
  else Fault OutOfBounds.

(** [memcpy_s(dst + doff, destsz, src + soff, count)]: a [destsz] smaller than
    [count] calls the invalid parameter handler. A negative [int] passed as
    [count] becomes a huge [size_t], which no object satisfies. *)
Definition memcpy_s (dst : list Z) (doff destsz : Z) (src : list Z) (soff count : Z)
    : outcome (list Z) :=
  if destsz <? count then Fault InvalidParameter
  else bs ← mem_read src soff count; mem_write dst doff bs.

Lemma mem_read_ok m off n :
  0 <= off -> 0 <= n -> off + n <= Z.of_nat (length m) ->
  mem_read m off n = Ok (take (Z.to_nat n) (drop (Z.to_nat off) m)).
Proof. intros. unfold mem_read. split_ifs. done. Qed.

Lemma mem_read_all m : mem_read m 0 (Z.of_nat (length m)) = Ok m.
Proof.
  rewrite mem_read_ok by lia. rewrite Nat2Z.id, drop_0, firstn_all. done.
Qed.

Lemma mem_write_ok m off bs :
  0 <= off -> off + Z.of_nat (length bs) <= Z.of_nat (length m) ->
  mem_write m off bs = Ok (take (Z.to_nat off) m ++ bs ++ drop (Z.to_nat off + length bs) m).
Proof. intros. unfold mem_write. split_ifs. done. Qed.

Lemma mem_write_inv m off bs m' :
  mem_write m off bs = Ok m' ->
  0 <= off /\ off + Z.of_nat (length bs) <= Z.of_nat (length m) /\
  m' = take (Z.to_nat off) m ++ bs ++ drop (Z.to_nat off + length bs) m.
Proof. unfold mem_write. intros H. split_ifs; inv_ok. repeat split; lia. Qed.

Lemma mem_read_inv m off n bs :
  mem_read m off n = Ok bs ->
  0 <= off /\ 0 <= n /\ off + n <= Z.of_nat (length m) /\
  bs = take (Z.to_nat n) (drop (Z.to_nat off) m).
Proof. unfold mem_read. intros H. split_ifs; inv_ok. repeat split; lia. Qed.

Lemma length_mem_read m off n bs :
  mem_read m off n = Ok bs -> Z.of_nat (length bs) = n.
Proof.
  intros (?&?&?&->)%mem_read_inv. rewrite length_take, length_drop. lia.
Qed.

Lemma length_mem_write m off bs m' :
  mem_write m off bs = Ok m' -> length m' = length m.
Proof.
  intros (?&?&->)%mem_write_inv.
  rewrite !length_app, length_take, length_drop. lia.
Qed.

Lemma mem_write_nil m off :
  0 <= off <= Z.of_nat (length m) -> mem_write m off [] = Ok m.
Proof.
  intros. rewrite mem_write_ok by (cbn; lia). cbn.
  rewrite Nat.add_0_r, take_drop. done.
Qed.

(** The bytes of [m'] after a write: the written ones inside, the old ones
    outside. *)
Lemma mem_write_lookup_in m off bs m' i :
  mem_write m off bs = Ok m' ->
  off <= Z.of_nat i < off + Z.of_nat (length bs) ->
  m' !! i = bs !! (i - Z.to_nat off)%nat.
Proof.
  intros (?&?&->)%mem_write_inv Hi.
  rewrite lookup_app_r by (rewrite length_take; lia).
  rewrite length_take, Nat.min_l by lia.
  rewrite lookup_app_l by lia. done.
Qed.

Lemma mem_write_lookup_out m off bs m' i :
  mem_write m off bs = Ok m' ->
  Z.of_nat i < off \/ off + Z.of_nat (length bs) <= Z.of_nat i ->
  m' !! i = m !! i.
Proof.
  intros (?&?&->)%mem_write_inv [Hi|Hi].
  - rewrite lookup_app_l by (rewrite length_take; lia).
    rewrite lookup_take_lt by lia. done.
  - rewrite lookup_app_r by (rewrite length_take; lia).
    rewrite length_take, Nat.min_l by lia.
    rewrite lookup_app_r by lia. rewrite lookup_drop. f_equal. lia.
Qed.

Lemma mem_read_write m off bs m' :
  mem_write m off bs = Ok m' ->
  mem_read m' off (Z.of_nat (length bs)) = Ok bs.
Proof.
  intros H. pose proof (length_mem_write _ _ _ _ H) as L.
  apply mem_write_inv in H as (?&?&->).
  rewrite mem_read_ok by (rewrite ?L; lia). f_equal.
  rewrite drop_app_length' by (rewrite length_take; lia).
  rewrite Nat2Z.id, take_app_length. done.
Qed.

(** Two adjacent writes are one write, faults included. *)
Lemma mem_write_seq m off a b :
  0 <= off ->
  (m' ← mem_write m off a; mem_write m' (off + Z.of_nat (length a)) b) =
  mem_write m off (a ++ b).
Proof.
  intros. destruct (mem_write m off a) as [m'|f] eqn:E; cbn [mbind outcome_bind].
  - pose proof (length_mem_write _ _ _ _ E) as L.
    apply mem_write_inv in E as (?&?&->). unfold mem_write.
    rewrite !L, length_app, Nat2Z.inj_add.
    replace (0 <=? off + Z.of_nat (length a)) with true by lia.
    replace (0 <=? off) with true by lia. cbn [andb].
    rewrite Z.add_assoc. destruct (_ <=? _) eqn:E; [|done]. f_equal.
    rewrite take_app_ge, drop_app_ge by (rewrite length_take; lia).
    rewrite length_take, Nat.min_l by lia.
    rewrite take_app_ge, drop_app_ge by lia.
    replace (Z.to_nat (off + Z.of_nat (length a)) - Z.to_nat off - length a)%nat with 0%nat by lia.
    rewrite take_0, app_nil_r, drop_drop, <- !app_assoc. do 4 f_equal. lia.
  - unfold mem_write in *. rewrite length_app, Nat2Z.inj_add. cbn.
    destruct (_ && (_ + Z.of_nat (length a) <=? _)) eqn:E'; [discriminate|].
    destruct (_ && (off + (_ + _) <=? _)) eqn:E''; [zlia|congruence].
Qed.

Lemma mem_write_seq_bind {A} m a b n (k : list Z -> outcome A) :
  n = Z.of_nat (length a) ->
  (m1 ← mem_write m 0 a; m2 ← mem_write m1 n b; k m2) =
  (m2 ← mem_write m 0 (a ++ b); k m2).
Proof.
  intros ->. rewrite <- mem_write_seq by lia.
  destruct (mem_write m 0 a); [|done]. rewrite Z.add_0_l. done.
Qed.

(** A write at the start of an object that is large enough. *)
Lemma mem_write_prefix m bs k :
  Z.of_nat (length bs) = k -> k <= Z.of_nat (length m) ->
  exists m', mem_write m 0 bs = Ok m' /\ take (Z.to_nat k) m' = bs /\
    m' = bs ++ drop (Z.to_nat k) m.
Proof.
  intros. rewrite mem_write_ok by lia. eexists; split; [done|].
  rewrite take_0. cbn [app]. replace (Z.to_nat 0 + length bs)%nat with (Z.to_nat k) by lia.
  split; [|done]. apply take_app_length'. lia.
Qed.

Lemma memcpy_s_ok dst doff destsz src soff count :
  count <= destsz -> 0 <= soff -> 0 <= count -> soff + count <= Z.of_nat (length src) ->
  memcpy_s dst doff destsz src soff count =
  mem_write dst doff (take (Z.to_nat count) (drop (Z.to_nat soff) src)).
Proof.
  intros. unfold memcpy_s. split_ifs. rewrite mem_read_ok by lia. done.
Qed.

Lemma memcpy_s_negative dst doff destsz src soff count :
  count <= destsz -> count < 0 -> memcpy_s dst doff destsz src soff count = Fault OutOfBounds.
Proof. intros. unfold memcpy_s, mem_read. split_ifs. done. Qed.

(** Reads and writes in the middle of a concatenation. *)
Lemma mem_read_app pre bs post off n :
  off = Z.of_nat (length pre) -> n = Z.of_nat (length bs) ->
  mem_read (pre ++ bs ++ post) off n = Ok bs.
Proof.
  intros -> ->. rewrite mem_read_ok by (rewrite ?length_app; lia).
  rewrite drop_app_length' by lia. rewrite take_app_length' by lia. done.
Qed.

Lemma mem_write_app pre bs bs' post off :
  off = Z.of_nat (length pre) -> length bs' = length bs ->
  mem_write (pre ++ bs ++ post) off bs' = Ok (pre ++ bs' ++ post).
Proof.
  intros -> E. rewrite mem_write_ok by (rewrite ?length_app; lia).
  rewrite take_app_length' by lia. do 3 f_equal.
  rewrite drop_app_ge by lia. apply drop_app_length'. lia.
Qed.

(** Extending a slice [a, b) of [m] by what is written at [b]. *)
Lemma slice_grow (m new rest : list Z) (a b : nat) :
  (a <= b)%nat -> (b <= length m)%nat ->
  take (b - a + length new) (drop a (take b m ++ new ++ rest)) =
  take (b - a) (drop a m) ++ new.
Proof.
  intros. rewrite drop_app_le by (rewrite length_take; lia).
  rewrite skipn_firstn_comm, app_assoc. apply take_app_length'.
  rewrite length_app, length_take, length_drop. lia.
Qed.

(** ** Circular slices

    [ring_slice m T s n] is the [n] bytes of the circular object [m] of size
    [T] that start at slot [s]. *)
Definition ring_slice (m : list Z) (T s n : Z) : list Z :=
  (fun i => m !!! Z.to_nat ((s + i) mod T)) <$> seqZ 0 n.

Lemma mod_cases x T :
  0 <= x < 2 * T -> (x < T /\ x mod T = x) \/ (T <= x /\ x mod T = x - T).
Proof.
  intros. destruct (decide (x < T)).
  - left. rewrite Z.mod_small by lia. lia.
  - right. split; [lia|]. rewrite <- (Z.mod_small (x - T) T) by lia.
    rewrite <- (Z_mod_plus_full (x - T) 1 T). f_equal. lia.
Qed.

Lemma rem_next x T : 0 <= x < T -> Z.rem (x + 1) T = if x + 1 =? T then 0 else x + 1.
Proof.
  intros. rewrite Z.rem_mod_nonneg by lia.
  destruct (mod_cases (x + 1) T) as [[? ->]|[? ->]]; split_ifs; lia.
Qed.

Lemma length_ring_slice m T s n : length (ring_slice m T s n) = Z.to_nat n.
Proof. unfold ring_slice. rewrite length_fmap, length_seqZ. done. Qed.

Lemma ring_slice_nil m T s n : n <= 0 -> ring_slice m T s n = [].
Proof. intros. apply length_zero_iff_nil. rewrite length_ring_slice. lia. Qed.

Lemma ring_slice_app m T s a b :
  0 <= a -> 0 <= b ->
  ring_slice m T s (a + b) = ring_slice m T s a ++ ring_slice m T (s + a) b.
Proof.
  intros. unfold ring_slice. rewrite seqZ_app, fmap_app by lia. f_equal.
  rewrite Z.add_0_l, <- (Z.add_0_r a) at 1. rewrite <- fmap_add_seqZ, <- list_fmap_compose.
  apply list_fmap_ext. intros i x _. cbn. do 3 f_equal. lia.
Qed.

Lemma ring_slice_mod m T s n : ring_slice m T (s mod T) n = ring_slice m T s n.
Proof.
  unfold ring_slice. apply list_fmap_ext. intros i x _. cbn.
  rewrite Zplus_mod_idemp_l. done.
Qed.

Lemma ring_slice_ext m m' T s n :
  (forall i, 0 <= i < n -> m !! Z.to_nat ((s + i) mod T) = m' !! Z.to_nat ((s + i) mod T)) ->
  ring_slice m T s n = ring_slice m' T s n.
Proof.
  intros E. unfold ring_slice. apply list_fmap_ext. intros i x Hx.
  apply lookup_seqZ in Hx as [-> ?]. rewrite !list_lookup_total_alt, E by lia. done.
Qed.

Lemma ring_slice_contig m T s n :
  Z.of_nat (length m) = T -> 0 <= s -> 0 <= n -> s + n <= T ->
  ring_slice m T s n = take (Z.to_nat n) (drop (Z.to_nat s) m).
Proof.
  intros. apply list_eq_same_length with (n := Z.to_nat n).
  - rewrite length_take, length_drop. lia.
  - apply length_ring_slice.
  - intros i x y Hi Hx Hy. unfold ring_slice in Hx.
    rewrite list_lookup_fmap, lookup_seqZ_lt in Hx by lia. cbn in Hx.
    rewrite lookup_take_lt, lookup_drop in Hy by lia.
    rewrite Z.mod_small in Hx by lia. injection Hx as <-.
    apply list_lookup_total_correct. rewrite <- Hy. f_equal. lia.
Qed.

(** A write outside the slots of a slice does not change it. *)
Lemma ring_slice_write_out m off bs m' T s n :
  mem_write m off bs = Ok m' ->
  0 < T -> 0 <= s <= T -> n <= T ->
  (forall i, 0 <= i < n ->
     let j := if s + i <? T then s + i else s + i - T in
     j < off \/ off + Z.of_nat (length bs) <= j) ->
  ring_slice m' T s n = ring_slice m T s n.
Proof.
  intros Hw ? ? ? Hout. apply ring_slice_ext. intros i Hi.
  specialize (Hout i Hi). cbn in Hout.
  eapply mem_write_lookup_out; [exact Hw|].
  destruct (mod_cases (s + i) T) as [[? ->]|[? ->]]; split_ifs; lia.
Qed.

(** A contiguous write is what the slice at its place then holds. *)
Lemma ring_slice_write_in m off bs m' T :
  mem_write m off bs = Ok m' -> Z.of_nat (length m) = T ->
  ring_slice m' T off (Z.of_nat (length bs)) = bs.
Proof.
  intros Hw HT. pose proof (length_mem_write _ _ _ _ Hw) as L.
  pose proof (mem_read_write _ _ _ _ Hw) as Hr.
  apply mem_read_inv in Hr as (?&?&?&Hr).
  rewrite ring_slice_contig by lia. done.
Qed.
