(* ===== verification/RingBuffer.v ===== *)
(** * CRingBuffer

    The byte ring buffer of [CRingBuffer.h] and [CRingBuffer.cpp]: its state
    (Module [CRingBuffer]), every operation as the source writes it, with its two
    direct segments and its early returns, and the bounded byte queue it
    implements (Module [ByteQueue]). *)
From S2P Require Import Prelude.
From stdpp Require Import prelude list list_numbers.
From Stdlib Require Import ZArith Lia.
Open Scope Z_scope.

Module CRingBuffer.

(** ** State *)

Record t := mk {
  buffer : list Z;
  iFront : Z;
  iRear : Z;
  iTotalSize : Z;
}.

Definition DEFAULT_BUFSIZE : Z := 10000.

(** [new char[n]] leaves its bytes indeterminate: [init] is what they hold. *)
Definition new_default (init : list Z) : t := mk init 0 0 (DEFAULT_BUFSIZE + 1).
Definition new_sized (iBufferSize : Z) (init : list Z) : t := mk init 0 0 (iBufferSize + 1).

Definition Resize (rb : t) (iSize : Z) (init : list Z) : outcome t :=
  if iSize <=? iTotalSize rb then Ok rb
  else
    newbuffer ← memcpy_s init 0 (iSize + 1) (buffer rb) 0 (iTotalSize rb);
    Ok (mk newbuffer (iFront rb) (iRear rb) (iSize + 1)).

Definition GetBufferSize (rb : t) : Z := iTotalSize rb - 1.

Definition GetUseSize (rb : t) : Z :=
  let iBkupFront := iFront rb in
  let iBkupRear := iRear rb in
  if iBkupFront =? iBkupRear then 0
  else if iBkupFront <? iBkupRear then iBkupRear - iBkupFront
  else iTotalSize rb - iBkupFront + iRear rb.

Definition GetFreeSize (rb : t) : Z :=
  let iBkupFront := iFront rb in
  let iBkupRear := iRear rb in
  if iBkupFront =? iBkupRear then iTotalSize rb - 1
  else if iBkupRear <? iBkupFront then iBkupFront - iBkupRear - 1
  else iTotalSize rb - 1 - iBkupRear + iBkupFront.

Definition DirectEnqueueSize (rb : t) : Z :=
  let iBkupFront := iFront rb in
  let iBkupRear := Z.rem (iRear rb + 1) (iTotalSize rb) in
  if iBkupFront <? iBkupRear then iTotalSize rb - iBkupRear
  else iBkupFront - iBkupRear.

Definition DirectDequeueSize (rb : t) : Z :=
  let iBkupFront := iFront rb in
  let iBkupRear := iRear rb in
  if iBkupFront =? iBkupRear then 0
  else
    let iBkupFront := Z.rem (iBkupFront + 1) (iTotalSize rb) in
    if iBkupRear <? iBkupFront then iTotalSize rb - iBkupFront
    else iBkupRear - iBkupFront + 1.

(** The [if / else if / else] that computes the direct enqueue size; [None] is
    the last [else], which leaves [iDEsize] as it is. *)
Definition direct_room (iBkupFront iBkupRear iTotalSize : Z) : option Z :=
  if iBkupFront <? iBkupRear then Some (iTotalSize - iBkupRear)
  else if iBkupRear <? iBkupFront then Some (iBkupFront - iBkupRear)
  else None.

(** The [if / else] that computes the direct dequeue size. *)
Definition direct_used (iBkupFront iBkupRear iTotalSize : Z) : Z :=
  if iBkupRear <? iBkupFront then iTotalSize - iBkupFront
  else iBkupRear - iBkupFront + 1.

Definition Enqueue (rb : t) (chpData : list Z) (iSize : Z) : outcome (Z * t) :=
  let iBkupRear := Z.rem (iRear rb + 1) (iTotalSize rb) in
  let iBkupFront := iFront rb in
  match direct_room iBkupFront iBkupRear (iTotalSize rb) with
  | None => Ok (0, rb)
  | Some iDEsize =>
      if iDEsize <? iSize then
        let iEnqSize := iDEsize in
        buf ← memcpy_s (buffer rb) iBkupRear iEnqSize chpData 0 iEnqSize;
        let iBkupRear := iBkupRear + (iEnqSize - 1) in
        let tmpRear := Z.rem (iBkupRear + 1) (iTotalSize rb) in
        if tmpRear =? iBkupFront then
          Ok (iEnqSize, mk buf (iFront rb) iBkupRear (iTotalSize rb))
        else
          let iBkupRear := tmpRear in
          let iSize := iSize - iEnqSize in
          let iDEsize := default iDEsize (direct_room iBkupFront iBkupRear (iTotalSize rb)) in
          let iSize := if iDEsize <? iSize then iDEsize else iSize in
          buf ← memcpy_s buf iBkupRear iSize chpData iEnqSize iSize;
          Ok (iEnqSize + iSize,
              mk buf (iFront rb) (iBkupRear + (iSize - 1)) (iTotalSize rb))
      else
        let iEnqSize := iSize in
        buf ← memcpy_s (buffer rb) iBkupRear iEnqSize chpData 0 iEnqSize;
        Ok (iEnqSize, mk buf (iFront rb) (iBkupRear + (iEnqSize - 1)) (iTotalSize rb))
  end.

(** [Dequeue] returns the size, the bytes of [chpDest] after the copy and the
    buffer. *)
Definition Dequeue (rb : t) (chpDest : list Z) (iSize : Z) : outcome (Z * list Z * t) :=
  let iBkupRear := iRear rb in
  let iBkupFront := iFront rb in
  if iBkupRear =? iBkupFront then Ok (0, chpDest, rb)
  else
    let iBkupFront := Z.rem (iBkupFront + 1) (iTotalSize rb) in
    let iDDEsize := direct_used iBkupFront iBkupRear (iTotalSize rb) in
    if iDDEsize <? iSize then
      let iDqSize := iDDEsize in
      dest ← memcpy_s chpDest 0 iDqSize (buffer rb) iBkupFront iDqSize;
      let iBkupFront := iBkupFront + iDqSize - 1 in
      if iBkupRear =? iBkupFront then
        Ok (iDqSize, dest, mk (buffer rb) iBkupFront (iRear rb) (iTotalSize rb))
      else
        let iBkupFront := Z.rem (iBkupFront + 1) (iTotalSize rb) in
        let iSize := iSize - iDqSize in
        let iDDEsize := direct_used iBkupFront iBkupRear (iTotalSize rb) in
        let iSize := if iDDEsize <? iSize then iDDEsize else iSize in
        dest ← memcpy_s dest iDqSize iSize (buffer rb) iBkupFront iSize;
        Ok (iDqSize + iSize, dest,
            mk (buffer rb) (iBkupFront + iSize - 1) (iRear rb) (iTotalSize rb))
    else
      let iDqSize := iSize in
      dest ← memcpy_s chpDest 0 iDqSize (buffer rb) iBkupFront iDqSize;
      let iBkupFront := iBkupFront + iDqSize - 1 in
      Ok (iDqSize, dest, mk (buffer rb) iBkupFront (iRear rb) (iTotalSize rb)).

Definition Peek (rb : t) (chpDest : list Z) (iSize : Z) : outcome (Z * list Z) :=
  let iBkupRear := iRear rb in
  let iBkupFront := iFront rb in
  if iBkupRear =? iBkupFront then Ok (0, chpDest)
  else
    let iBkupFront := Z.rem (iBkupFront + 1) (iTotalSize rb) in
    let iDDEsize := direct_used iBkupFront iBkupRear (iTotalSize rb) in
    if iDDEsize <? iSize then
      let iDqSize := iDDEsize in
      dest ← memcpy_s chpDest 0 iDqSize (buffer rb) iBkupFront iDqSize;
      let iBkupFront := iBkupFront + iDqSize - 1 in
      if iBkupRear =? iBkupFront then Ok (iDqSize, dest)
      else
        let iBkupFront := Z.rem (iBkupFront + 1) (iTotalSize rb) in
        let iSize := iSize - iDqSize in
        let iDDEsize := direct_used iBkupFront iBkupRear (iTotalSize rb) in
        let iSize := if iDDEsize <? iSize then iDDEsize else iSize in
        dest ← memcpy_s dest iDqSize iSize (buffer rb) iBkupFront iSize;
        Ok (iDqSize + iSize, dest)
    else
      let iDqSize := iSize in
      dest ← memcpy_s chpDest 0 iDqSize (buffer rb) iBkupFront iDqSize;
      Ok (iDqSize, dest).

Definition MoveRear (rb : t) (iSize : Z) : Z * t :=
  let iBkupRear := Z.rem (iRear rb + 1) (iTotalSize rb) in
  let iBkupFront := iFront rb in
  match direct_room iBkupFront iBkupRear (iTotalSize rb) with
  | None => (0, rb)
  | Some iDEsize =>
      if iDEsize <? iSize then
        let iEnqSize := iDEsize in
        let iBkupRear := iBkupRear + (iEnqSize - 1) in
        let tmpRear := Z.rem (iBkupRear + 1) (iTotalSize rb) in
        if tmpRear =? iBkupFront then
          (iEnqSize, mk (buffer rb) (iFront rb) iBkupRear (iTotalSize rb))
        else
          let iBkupRear := tmpRear in
          let iSize := iSize - iEnqSize in
          let iDEsize := default iDEsize (direct_room iBkupFront iBkupRear (iTotalSize rb)) in
          let iSize := if iDEsize <? iSize then iDEsize else iSize in
          (iEnqSize + iSize,
           mk (buffer rb) (iFront rb) (iBkupRear + (iSize - 1)) (iTotalSize rb))
      else
        let iEnqSize := iSize in
        (iEnqSize, mk (buffer rb) (iFront rb) (iBkupRear + (iEnqSize - 1)) (iTotalSize rb))
  end.

Definition MoveFront (rb : t) (iSize : Z) : Z * t :=
  let iBkupRear := iRear rb in
  let iBkupFront := iFront rb in
  if iBkupRear =? iBkupFront then (0, rb)
  else
    let iBkupFront := Z.rem (iBkupFront + 1) (iTotalSize rb) in
    let iDDEsize := direct_used iBkupFront iBkupRear (iTotalSize rb) in
    if iDDEsize <? iSize then
      let iDqSize := iDDEsize in
      let iBkupFront := iBkupFront + iDqSize - 1 in
      if iBkupRear =? iBkupFront then
        (iDqSize, mk (buffer rb) iBkupFront (iRear rb) (iTotalSize rb))
      else
        let iBkupFront := Z.rem (iBkupFront + 1) (iTotalSize rb) in
        let iSize := iSize - iDqSize in
        let iDDEsize := direct_used iBkupFront iBkupRear (iTotalSize rb) in
        let iSize := if iDDEsize <? iSize then iDDEsize else iSize in
        (iDqSize + iSize,
         mk (buffer rb) (iBkupFront + iSize - 1) (iRear rb) (iTotalSize rb))
    else
      let iDqSize := iSize in
      let iBkupFront := iBkupFront + iDqSize - 1 in
      (iDqSize, mk (buffer rb) iBkupFront (iRear rb) (iTotalSize rb)).

Definition ClearBuffer (rb : t) : t := mk (buffer rb) 0 0 (iTotalSize rb).

(** The three pointers, as offsets into [buffer]. *)
Definition GetFrontBufferPtr (rb : t) : Z := Z.rem (iFront rb + 1) (iTotalSize rb).
Definition GetRearBufferPtr (rb : t) : Z := Z.rem (iRear rb + 1) (iTotalSize rb).
Definition GetBufferPtr (rb : t) : Z := 0.

End CRingBuffer.

(** ** The queue it implements *)
Module ByteQueue.

(** A bounded queue of bytes: its capacity and its bytes, the oldest first. *)
Record t := mk { cap : Z; items : list Z }.

(** [put] stores the prefix of the data that fits and says how much that is. *)
Definition room (q : t) : Z := cap q - Z.of_nat (length (items q)).
Definition put (q : t) (data : list Z) (n : Z) : Z * t :=
  let k := Z.min n (room q) in
  (k, mk (cap q) (items q ++ take (Z.to_nat k) data)).

(** [get] removes the oldest bytes, as many as there are. *)
Definition get (q : t) (n : Z) : list Z * t :=
  (take (Z.to_nat n) (items q), mk (cap q) (drop (Z.to_nat n) (items q))).

End ByteQueue.

(** ** Invariant and abstraction *)
Section ring_buffer.
Import CRingBuffer.

(** The well-formedness invariant: both indices are slots of the allocated
    bytes. One slot, [iFront], never holds data. *)
Definition rb_ok (rb : t) : Prop :=
  0 <= iFront rb < iTotalSize rb /\ 0 <= iRear rb < iTotalSize rb /\
  Z.of_nat (length (buffer rb)) = iTotalSize rb.

Definition contents (rb : t) : list Z :=
  ring_slice (buffer rb) (iTotalSize rb) (iFront rb + 1) (GetUseSize rb).

Definition abs (rb : t) : ByteQueue.t := ByteQueue.mk (GetBufferSize rb) (contents rb).

#[local] Ltac unfold_ring :=
  unfold rb_ok, contents, abs, GetUseSize, GetFreeSize, GetBufferSize in *;
  cbn [buffer iFront iRear iTotalSize] in *.

Lemma rb_ok_new n init :
  0 <= n -> Z.of_nat (length init) = n + 1 -> rb_ok (new_sized n init).
Proof. intros. unfold_ring. cbn. lia. Qed.

Lemma use_range rb : rb_ok rb -> 0 <= GetUseSize rb <= GetBufferSize rb.
Proof. intros. unfold_ring. split_ifs; lia. Qed.

Lemma length_contents rb : rb_ok rb -> Z.of_nat (length (contents rb)) = GetUseSize rb.
Proof.
  intros H. pose proof (use_range rb H). unfold contents. rewrite length_ring_slice. lia.
Qed.

Lemma use_free rb : rb_ok rb -> GetUseSize rb + GetFreeSize rb = GetBufferSize rb.
Proof. intros. unfold_ring. split_ifs; lia. Qed.

(** Where the data ends: the slot after the last byte is the slot after [iRear]. *)
Lemma rear_slot rb :
  rb_ok rb ->
  (iFront rb + 1 + GetUseSize rb) mod iTotalSize rb = (iRear rb + 1) mod iTotalSize rb.
Proof.
  intros. unfold_ring. split_ifs; [f_equal; lia ..|].
  rewrite <- (Z_mod_plus_full (iRear rb + 1) 1). f_equal. lia.
Qed.

(** Growing the data by [bs] behind [iRear]. *)
Lemma contents_grow rb m r bs :
  rb_ok rb ->
  Z.of_nat (length m) = iTotalSize rb ->
  0 < Z.of_nat (length bs) <= GetFreeSize rb ->
  (r = iRear rb + Z.of_nat (length bs) \/
   r = iRear rb + Z.of_nat (length bs) - iTotalSize rb) ->
  0 <= r < iTotalSize rb ->
  ring_slice m (iTotalSize rb) (iFront rb + 1) (GetUseSize rb) = contents rb ->
  ring_slice m (iTotalSize rb) (iRear rb + 1) (Z.of_nat (length bs)) = bs ->
  let rb' := mk m (iFront rb) r (iTotalSize rb) in
  rb_ok rb' /\ contents rb' = contents rb ++ bs.
Proof.
  intros Hok Hm Hk Hr Hr' Hold Hnew rb'. split.
  { subst rb'. unfold_ring. lia. }
  pose proof (use_range rb Hok).
  assert (GetUseSize rb' = GetUseSize rb + Z.of_nat (length bs)) as Hu.
  { subst rb'. unfold_ring. split_ifs. }
  unfold contents at 1. rewrite Hu. subst rb'. cbn [buffer iFront iRear iTotalSize].
  rewrite ring_slice_app by lia. rewrite Hold. f_equal.
  rewrite <- ring_slice_mod, rear_slot, ring_slice_mod by done. done.
Qed.

(** Shrinking the data by its [k] oldest bytes. *)
Lemma contents_shrink rb f k :
  rb_ok rb -> 0 <= k <= GetUseSize rb ->
  (f = iFront rb + k \/ f = iFront rb + k - iTotalSize rb) ->
  0 <= f < iTotalSize rb ->
  let rb' := mk (buffer rb) f (iRear rb) (iTotalSize rb) in
  rb_ok rb' /\ contents rb' = drop (Z.to_nat k) (contents rb).
Proof.
  intros Hok Hk Hf Hf' rb'. split.
  { subst rb'. unfold_ring. lia. }
  pose proof (use_range rb Hok).
  assert (GetUseSize rb' = GetUseSize rb - k) as Hu.
  { subst rb'. unfold_ring. split_ifs. }
  unfold contents. rewrite Hu.
  replace (GetUseSize rb) with (k + (GetUseSize rb - k)) at 2 by lia.
  rewrite ring_slice_app, drop_app_length' by (rewrite ?length_ring_slice; lia).
  subst rb'. cbn [buffer iFront iRear iTotalSize].
  rewrite <- ring_slice_mod, <- (ring_slice_mod _ _ (_ + k)). f_equal.
  destruct Hf as [-> | ->]; [f_equal; lia|].
  rewrite <- (Z_mod_plus_full _ 1). f_equal. lia.
Qed.

(** Copying [data[so, so+n)] to [off] of the buffer outside the live data. *)
Lemma copy_in rb m data so off n :
  rb_ok rb -> Z.of_nat (length m) = iTotalSize rb ->
  0 <= so -> 0 <= n -> so + n <= Z.of_nat (length data) ->
  0 <= off -> off + n <= iTotalSize rb ->
  exists m', memcpy_s m off n data so n = Ok m' /\
    mem_write m off (take (Z.to_nat n) (drop (Z.to_nat so) data)) = Ok m' /\
    Z.of_nat (length m') = iTotalSize rb /\
    Z.of_nat (length (take (Z.to_nat n) (drop (Z.to_nat so) data))) = n.
Proof.
  intros. assert (Z.of_nat (length (take (Z.to_nat n) (drop (Z.to_nat so) data))) = n) as L.
  { rewrite length_take, length_drop. lia. }
  rewrite memcpy_s_ok by lia.
  eexists. rewrite mem_write_ok by lia. repeat split; [|done].
  erewrite length_mem_write; [done|]. apply mem_write_ok; lia.
Qed.

Lemma ring_slice_start m T a b n : a mod T = b mod T -> ring_slice m T a n = ring_slice m T b n.
Proof. intros E. rewrite <- ring_slice_mod, E, ring_slice_mod. done. Qed.

(** The slot the next byte goes to. *)
Lemma next_slot rb :
  rb_ok rb ->
  GetRearBufferPtr rb = (if iRear rb + 1 =? iTotalSize rb then 0 else iRear rb + 1).
Proof. intros H. apply rem_next, H. Qed.

(** One contiguous write at the next slot. *)
Lemma grow_one rb m' bs :
  rb_ok rb ->
  mem_write (buffer rb) (GetRearBufferPtr rb) bs = Ok m' ->
  0 < Z.of_nat (length bs) <= GetFreeSize rb ->
  GetRearBufferPtr rb + Z.of_nat (length bs) <= iTotalSize rb ->
  let rb' := mk m' (iFront rb) (GetRearBufferPtr rb + (Z.of_nat (length bs) - 1))
               (iTotalSize rb) in
  rb_ok rb' /\ contents rb' = contents rb ++ bs.
Proof.
  intros Hok Hw Hk Hfit. pose proof (use_free rb Hok). pose proof (use_range rb Hok).
  pose proof (length_mem_write _ _ _ _ Hw) as L.
  assert (Z.of_nat (length (buffer rb)) = iTotalSize rb) by apply Hok.
  pose proof (ring_slice_write_in _ _ _ _ (iTotalSize rb) Hw ltac:(done)) as Hin.
  rewrite next_slot in * by done.
  apply contents_grow; try done; try lia.
  - split_ifs; lia.
  - unfold_ring; split_ifs; lia.
  - unfold contents. eapply ring_slice_write_out; [exact Hw|unfold_ring; lia ..|].
    intros i Hi. unfold_ring. cbn zeta. split_ifs; lia.
  - rewrite <- Hin at 2. apply ring_slice_start.
    split_ifs.
    replace (iRear rb + 1) with (0 + 1 * iTotalSize rb) by lia. apply Z_mod_plus_full.
Qed.

(** Two contiguous writes, the first up to the end of the object. *)
Lemma grow_two rb m1 m' bs1 bs2 :
  rb_ok rb ->
  mem_write (buffer rb) (GetRearBufferPtr rb) bs1 = Ok m1 ->
  mem_write m1 0 bs2 = Ok m' ->
  0 < Z.of_nat (length bs1) -> 0 < Z.of_nat (length bs2) ->
  Z.of_nat (length bs1) + Z.of_nat (length bs2) <= GetFreeSize rb ->
  GetRearBufferPtr rb + Z.of_nat (length bs1) = iTotalSize rb ->
  let rb' := mk m' (iFront rb) (Z.of_nat (length bs2) - 1) (iTotalSize rb) in
  rb_ok rb' /\ contents rb' = contents rb ++ bs1 ++ bs2.
Proof.
  intros Hok Hw1 Hw2 Hk1 Hk2 Hk Hfit.
  pose proof (use_free rb Hok). pose proof (use_range rb Hok).
  pose proof (length_mem_write _ _ _ _ Hw1) as L1.
  pose proof (length_mem_write _ _ _ _ Hw2) as L2.
  assert (Z.of_nat (length (buffer rb)) = iTotalSize rb) by apply Hok.
  pose proof (ring_slice_write_in _ _ _ _ (iTotalSize rb) Hw1 ltac:(done)) as Hin1.
  pose proof (ring_slice_write_in _ _ _ _ (iTotalSize rb) Hw2 ltac:(lia)) as Hin2.
  rewrite next_slot in * by done.
  assert ((iRear rb + 1 =? iTotalSize rb) = false) as E.
  { unfold_ring. split_ifs; lia. }
  rewrite E in *.
  apply contents_grow; try done; try lia.
  - rewrite length_app. lia.
  - rewrite length_app. unfold_ring. lia.
  - unfold_ring; split_ifs; lia.
  - unfold contents.
    rewrite (ring_slice_write_out m1 0 bs2 m'); [|exact Hw2|unfold_ring; lia ..|].
    + eapply ring_slice_write_out; [exact Hw1|unfold_ring; lia ..|].
      intros i Hi. unfold_ring. cbn zeta. split_ifs; lia.
    + intros i Hi. unfold_ring. cbn zeta. split_ifs; lia.
  - rewrite length_app, Nat2Z.inj_add, ring_slice_app by lia. f_equal.
    + rewrite (ring_slice_write_out m1 0 bs2 m'); [done|exact Hw2|unfold_ring; lia ..|].
      intros i Hi. unfold_ring. cbn zeta. split_ifs; lia.
    + rewrite <- Hin2 at 2. apply ring_slice_start.
      replace (iRear rb + 1 + _) with (0 + 1 * iTotalSize rb) by lia. apply Z_mod_plus_full.
Qed.

(** The case analysis of [Enqueue] and [MoveRear]: full, one segment, or the
    segment up to the end of the object followed by what starts at slot 0. *)
Lemma direct_room_cases rb :
  rb_ok rb ->
  (direct_room (iFront rb) (GetRearBufferPtr rb) (iTotalSize rb) = None /\
     GetFreeSize rb = 0) \/
  (exists d, direct_room (iFront rb) (GetRearBufferPtr rb) (iTotalSize rb) = Some d /\
     0 < d <= GetFreeSize rb /\ d = DirectEnqueueSize rb /\
     GetRearBufferPtr rb + d <= iTotalSize rb /\ 0 <= GetRearBufferPtr rb /\
     ((d = GetFreeSize rb /\
        Z.rem (GetRearBufferPtr rb + (d - 1) + 1) (iTotalSize rb) = iFront rb) \/
      (d < GetFreeSize rb /\ GetRearBufferPtr rb + d = iTotalSize rb /\
        d + iFront rb = GetFreeSize rb /\
        Z.rem (GetRearBufferPtr rb + (d - 1) + 1) (iTotalSize rb) = 0 /\
        0 < iFront rb))).
Proof.
  intros Hok. pose proof (next_slot rb Hok) as Hnx.
  unfold DirectEnqueueSize. fold (GetRearBufferPtr rb).
  unfold direct_room. rewrite Hnx. unfold_ring.
  repeat (split_ifs; try (left; split; [done|lia])); right;
    eexists; (split; [done|]); repeat (split; [lia|]);
    rewrite rem_next by lia; split_ifs.
Qed.

(** The two ways [Enqueue] ends: one copy, or a second one from slot 0. *)
Lemma Enqueue_one rb data m1 d :
  rb_ok rb ->
  mem_write (buffer rb) (GetRearBufferPtr rb) (take (Z.to_nat d) data) = Ok m1 ->
  0 < d <= GetFreeSize rb -> d <= Z.of_nat (length data) ->
  GetRearBufferPtr rb + d <= iTotalSize rb ->
  let rb' := mk m1 (iFront rb) (GetRearBufferPtr rb + (d - 1)) (iTotalSize rb) in
  rb_ok rb' /\ contents rb' = contents rb ++ take (Z.to_nat d) data.
Proof.
  intros Hok Hw Hd Hlen Hfit.
  assert (Z.of_nat (length (take (Z.to_nat d) data)) = d) as L by (rewrite length_take; lia).
  destruct (grow_one rb m1 _ Hok Hw) as [H1 H2]; rewrite ?L in *; [lia..|]. auto.
Qed.

Lemma Enqueue_spec rb data n :
  rb_ok rb -> 0 < n <= Z.of_nat (length data) ->
  exists rb', Enqueue rb data n = Ok (Z.min n (GetFreeSize rb), rb') /\
    rb_ok rb' /\ iTotalSize rb' = iTotalSize rb /\
    contents rb' = contents rb ++ take (Z.to_nat (Z.min n (GetFreeSize rb))) data.
Proof.
  intros Hok Hn. pose proof (use_free rb Hok) as Huf. pose proof (use_range rb Hok).
  unfold Enqueue. fold (GetRearBufferPtr rb).
  destruct (direct_room_cases rb Hok) as [[-> Hf]|(d & -> & Hd & _ & Hfit & Hp & Hc)].
  { exists rb. rewrite Hf, Z.min_r, app_nil_r by lia. done. }
  pose proof Hok as (Hfr & _ & HL).
  destruct (d <? n) eqn:E.
  - destruct (copy_in rb (buffer rb) data 0 (GetRearBufferPtr rb) d)
      as (m1 & -> & Hw1 & HL1 & Hl1); try lia; try done. cbn [mbind outcome_bind].
    rewrite drop_0 in Hw1, Hl1.
    destruct Hc as [[Heq ->]|(Hlt & Hend & Hsum & -> & Hf)].
    + rewrite Z.eqb_refl, Z.min_r, <- Heq by lia.
      eexists; split; [done|]. cbn [iTotalSize].
      destruct (Enqueue_one rb data m1 d) as [? ?]; auto with lia.
    + replace (0 =? iFront rb) with false by lia.
      unfold direct_room. replace (iFront rb <? 0) with false by lia.
      replace (0 <? iFront rb) with true by lia. cbn [from_option id].
      set (n2 := if _ <? _ then _ else _).
      assert (n2 = Z.min n (GetFreeSize rb) - d) as Hn2 by (unfold n2; split_ifs; lia).
      clearbody n2.
      destruct (copy_in rb m1 data d 0 n2) as (m2 & -> & Hw2 & HL2 & Hl2); try lia; try done.
      cbn [mbind outcome_bind]. eexists; split; [do 2 f_equal; lia|]. cbn [iTotalSize].
      destruct (grow_two rb m1 m2 _ _ Hok Hw1 Hw2) as [H1 H2]; rewrite ?Hl1, ?Hl2 in *; [lia..|].
      rewrite Z.add_0_l. split; [done|]. split; [done|]. rewrite H2. f_equal.
      rewrite take_take_drop. f_equal. lia.
  - rewrite Z.min_l by lia.
    destruct (copy_in rb (buffer rb) data 0 (GetRearBufferPtr rb) n)
      as (m1 & -> & Hw1 & HL1 & Hl1); try lia; try done. cbn [mbind outcome_bind].
    rewrite drop_0 in Hw1.
    eexists; split; [done|]. cbn [iTotalSize].
    destruct (Enqueue_one rb data m1 n) as [? ?]; auto with lia.
Qed.

(** The case analysis of [Dequeue], [Peek] and [MoveFront]: one segment, or the
    segment up to the end of the object followed by what starts at slot 0. *)
Lemma direct_used_cases rb :
  rb_ok rb -> iRear rb <> iFront rb ->
  let p := GetFrontBufferPtr rb in
  let d := direct_used p (iRear rb) (iTotalSize rb) in
  0 < d <= GetUseSize rb /\ d = DirectDequeueSize rb /\ 0 <= p /\ p + d <= iTotalSize rb /\
  (p = iFront rb + 1 \/ p = iFront rb + 1 - iTotalSize rb) /\
  ((d = GetUseSize rb /\ iRear rb = p + d - 1) \/
   (d < GetUseSize rb /\ p + d = iTotalSize rb /\ iRear rb <> p + d - 1 /\
      Z.rem (p + d - 1 + 1) (iTotalSize rb) = 0 /\
      direct_used 0 (iRear rb) (iTotalSize rb) = GetUseSize rb - d)).
Proof.
  intros Hok Hne p d. subst p d. unfold GetFrontBufferPtr, DirectDequeueSize, direct_used.
  rewrite rem_next by apply Hok. unfold_ring.
  repeat (split_ifs; repeat (split; [lia|]));
    first [left; lia | right; rewrite rem_next by lia; repeat split; split_ifs; lia].
Qed.

(** The oldest bytes, read through the segments. *)
Lemma contents_one rb k :
  rb_ok rb -> iRear rb <> iFront rb ->
  0 <= k -> k <= direct_used (GetFrontBufferPtr rb) (iRear rb) (iTotalSize rb) ->
  mem_read (buffer rb) (GetFrontBufferPtr rb) k = Ok (take (Z.to_nat k) (contents rb)).
Proof.
  intros Hok Hne Hk1 Hk2.
  destruct (direct_used_cases rb Hok Hne) as (? & _ & ? & ? & Hp & _).
  pose proof Hok as (? & ? & HL).
  rewrite mem_read_ok, <- ring_slice_contig with (T := iTotalSize rb) by lia. f_equal.
  unfold contents. replace (GetUseSize rb) with (k + (GetUseSize rb - k)) by lia.
  rewrite ring_slice_app, take_app_length' by (rewrite ?length_ring_slice; lia).
  apply ring_slice_start. destruct Hp as [-> | ->]; [done|].
  rewrite <- (Z_mod_plus_full (_ - _) 1). f_equal. lia.
Qed.

Lemma contents_two rb k :
  rb_ok rb -> iRear rb <> iFront rb ->
  let d := direct_used (GetFrontBufferPtr rb) (iRear rb) (iTotalSize rb) in
  d < GetUseSize rb -> 0 <= k -> d + k <= GetUseSize rb ->
  mem_read (buffer rb) 0 k = Ok (take (Z.to_nat k) (drop (Z.to_nat d) (contents rb))).
Proof.
  intros Hok Hne d Hd Hk1 Hk2. subst d. revert Hd Hk2.
  destruct (direct_used_cases rb Hok Hne) as (? & _ & ? & ? & Hp & Hc).
  pose proof Hok as (? & ? & HL). pose proof (use_range rb Hok).
  set (d := direct_used _ _ _) in *. clearbody d. intros Hd Hk2.
  assert (GetBufferSize rb = iTotalSize rb - 1) by done.
  rewrite mem_read_ok, <- ring_slice_contig with (T := iTotalSize rb) by lia. f_equal.
  unfold contents. replace (GetUseSize rb) with (d + (k + (GetUseSize rb - d - k))) by lia.
  rewrite !ring_slice_app by lia.
  rewrite drop_app_length' by (rewrite length_ring_slice; lia).
  rewrite take_app_length' by (rewrite length_ring_slice; lia).
  apply ring_slice_start. rewrite <- (Z_mod_plus_full 0 1). f_equal. lia.
Qed.

Lemma copy_out dest o m p k bs :
  mem_read m p k = Ok bs -> memcpy_s dest o k m p k = mem_write dest o bs.
Proof. intros E. unfold memcpy_s. rewrite Z.ltb_irrefl, E. done. Qed.

(** What the dequeuing operations compute: the size [k], the new [iFront] after
    one or two segments. *)
Lemma shrink_cases rb n :
  rb_ok rb -> iRear rb <> iFront rb -> 0 < n ->
  let p := GetFrontBufferPtr rb in
  let d := direct_used p (iRear rb) (iTotalSize rb) in
  let k := Z.min n (GetUseSize rb) in
  let after f := mk (buffer rb) f (iRear rb) (iTotalSize rb) in
  (k <= d -> rb_ok (after (p + k - 1)) /\
     contents (after (p + k - 1)) = drop (Z.to_nat k) (contents rb)) /\
  (d < k -> rb_ok (after (0 + (k - d) - 1)) /\
     contents (after (0 + (k - d) - 1)) = drop (Z.to_nat k) (contents rb)).
Proof.
  intros Hok Hne Hn p d k after. subst p d k after. cbn zeta.
  destruct (direct_used_cases rb Hok Hne) as (Hd & _ & Hp & Hend & Hpf & Hc).
  pose proof (use_range rb Hok). pose proof Hok as (? & ? & HL).
  assert (GetBufferSize rb = iTotalSize rb - 1) by done.
  set (d := direct_used _ _ _) in *. clearbody d.
  split; intros Hk; apply contents_shrink; try done; lia.
Qed.

(** What [Dequeue], [Peek] and [MoveFront] compute, on every branch: [k] bytes,
    the oldest ones, are copied to the destination (a fault if it is too small)
    and [iFront] moves by [k]. *)
Lemma Dequeue_spec rb dest n :
  rb_ok rb -> 0 < n ->
  let k := Z.min n (GetUseSize rb) in
  exists rb', Dequeue rb dest n =
      (dest' ← mem_write dest 0 (take (Z.to_nat k) (contents rb)); Ok (k, dest', rb')) /\
    rb_ok rb' /\ iTotalSize rb' = iTotalSize rb /\
    contents rb' = drop (Z.to_nat k) (contents rb).
Proof.
  intros Hok Hn k. unfold Dequeue. fold (GetFrontBufferPtr rb).
  destruct (iRear rb =? iFront rb) eqn:Hne; b2p.
  { assert (k = 0) as -> by (subst k; unfold_ring; split_ifs; lia). exists rb.
    rewrite take_0, mem_write_nil, drop_0 by lia. done. }
  destruct (direct_used_cases rb Hok Hne) as (Hd & _ & Hp & Hend & Hpf & Hc).
  destruct (shrink_cases rb n Hok Hne Hn) as [H1 H2]. fold k in H1, H2.
  pose proof (contents_one rb) as Hone. pose proof (contents_two rb) as Htwo.
  pose proof (length_contents rb Hok) as HLc.
  set (d := direct_used (GetFrontBufferPtr rb) _ _) in *.
  destruct (d <? n) eqn:E; b2p.
  - rewrite (copy_out _ _ _ _ _ _ (Hone d Hok Hne ltac:(lia) ltac:(lia))).
    destruct Hc as [[Heq Hr]|(Hlt & HT & Hr & Hz & Hd2)].
    + assert (k = d) as Hk by lia. rewrite <- Hk, Hr, Z.eqb_refl in *.
      eexists; split; [done|]. split_and!; [apply H1; lia|done|apply H1; lia].
    + replace (iRear rb =? _) with false by lia. rewrite Hz, Hd2.
      set (n2 := if _ <? _ then _ else _).
      assert (n2 = k - d) as Hn2 by (unfold n2; split_ifs; lia). clearbody n2.
      exists (mk (buffer rb) (0 + n2 - 1) (iRear rb) (iTotalSize rb)).
      rewrite Hn2 in *. split; [|split_and!; [apply H2; lia|done|apply H2; lia]].
      replace (Z.to_nat k) with (Z.to_nat d + Z.to_nat (k - d))%nat by lia.
      rewrite <- take_take_drop, <- mem_write_seq_bind with (n := d)
        by (rewrite length_take; lia).
      destruct (mem_write dest 0 _) as [d1|]; [|done]. cbn [mbind outcome_bind].
      rewrite (copy_out _ _ _ _ _ _ (Htwo (k - d) Hok Hne ltac:(lia) ltac:(lia) ltac:(lia))).
      replace (d + (k - d)) with k by lia. done.
  - assert (k = n \/ False) as [Hk|[]] by lia. rewrite <- Hk in *.
    rewrite (copy_out _ _ _ _ _ _ (Hone k Hok Hne ltac:(lia) ltac:(lia))).
    eexists; split; [done|]. split_and!; [apply H1; lia|done|apply H1; lia].
Qed.

(** [Peek] is [Dequeue] without the move, [MoveFront] is [Dequeue] without the
    copy, and [MoveRear] is [Enqueue] without the copy. *)
Lemma Peek_Dequeue rb dest n :
  Peek rb dest n = ('(k, dest', _) ← Dequeue rb dest n; Ok (k, dest')).
Proof.
  unfold Peek, Dequeue. destruct (_ =? _); [done|].
  set (d := direct_used _ _ _). destruct (d <? n).
  - destruct (memcpy_s _ 0 _ _ _ _); [|done]. cbn [mbind outcome_bind].
    destruct (_ =? _); [done|]. destruct (memcpy_s _ _ _ _ _ _); done.
  - destruct (memcpy_s _ _ _ _ _ _); done.
Qed.

Lemma MoveFront_Dequeue rb dest n k dest' rb' :
  Dequeue rb dest n = Ok (k, dest', rb') -> MoveFront rb n = (k, rb').
Proof.
  unfold MoveFront, Dequeue. intros H. destruct (_ =? _); [inv_ok; done|].
  set (d := direct_used _ _ _) in *. destruct (d <? n); inv_ok; [|done].
  destruct (_ =? _); inv_ok; done.
Qed.

Lemma MoveRear_Enqueue rb data n k rb' :
  Enqueue rb data n = Ok (k, rb') ->
  exists rb'', MoveRear rb n = (k, rb'') /\ iRear rb'' = iRear rb' /\
    iFront rb'' = iFront rb' /\ iTotalSize rb'' = iTotalSize rb' /\ buffer rb'' = buffer rb.
Proof.
  unfold MoveRear, Enqueue. intros H. destruct (direct_room _ _ _); [|inv_ok; eexists; (split; [done|]); done].
  destruct (_ <? n); [|inv_ok; eexists; split; [done|]; done].
  inv_ok. destruct (_ =? _); inv_ok; eexists; (split; [done|]; done).
Qed.

Lemma Peek_spec rb dest n :
  rb_ok rb -> 0 < n ->
  let k := Z.min n (GetUseSize rb) in
  Peek rb dest n = (dest' ← mem_write dest 0 (take (Z.to_nat k) (contents rb)); Ok (k, dest')).
Proof.
  intros Hok Hn k. rewrite Peek_Dequeue.
  destruct (Dequeue_spec rb dest n Hok Hn) as (rb' & -> & _).
  destruct (mem_write _ _ _); done.
Qed.

Lemma MoveFront_spec rb n :
  rb_ok rb -> 0 < n ->
  exists rb', MoveFront rb n = (Z.min n (GetUseSize rb), rb') /\ rb_ok rb' /\
    iTotalSize rb' = iTotalSize rb /\
    contents rb' = drop (Z.to_nat (Z.min n (GetUseSize rb))) (contents rb).
Proof.
  intros Hok Hn.
  destruct (Dequeue_spec rb (replicate (Z.to_nat n) 0) n Hok Hn) as (rb' & E & Hrb').
  pose proof (length_contents rb Hok).
  rewrite mem_write_ok in E by (rewrite ?length_take, ?length_replicate; lia).
  apply MoveFront_Dequeue in E. eauto.
Qed.

Lemma rb_ok_Clear rb : rb_ok rb -> rb_ok (ClearBuffer rb) /\ contents (ClearBuffer rb) = [].
Proof. intros. unfold ClearBuffer. split; unfold_ring; [lia|done]. Qed.

End ring_buffer.

(** ** Refinement

    The calls a client makes, run on the buffer and on the queue. Every call
    answers a size and the bytes it hands out. *)
Module RingOps.
Import CRingBuffer.

Inductive op :=
  | OEnqueue (data : list Z)
  | ODequeue (n : Z)
  | OPeek (n : Z)
  | OMoveFront (n : Z)
  | OReceive (data : list Z)
  | OGetUseSize
  | OGetFreeSize
  | OClearBuffer.

(** The sizes the server passes are positive. *)
Definition op_ok (o : op) : Prop :=
  match o with
  | OEnqueue data | OReceive data => data <> []
  | ODequeue n | OPeek n | OMoveFront n => 0 < n
  | _ => True
  end.

(** A client that stores bytes itself: into the segment at [GetRearBufferPtr] and then the
    one at [GetBufferPtr], as [RecvPost] has the operating system do. *)
Definition store (rb : t) (data : list Z) : outcome (list Z) :=
  let d := Z.to_nat (DirectEnqueueSize rb) in
  m ← mem_write (buffer rb) (GetRearBufferPtr rb) (take d data);
  mem_write m (GetBufferPtr rb) (drop d data).

(** The destination of [Dequeue] and [Peek] has the size that is asked for. [OReceive]
    stores as many bytes as [GetFreeSize] allows and then calls [MoveRear]. *)
Definition run_op (rb : t) (o : op) : outcome (Z * list Z * t) :=
  match o with
  | OEnqueue data => '(k, rb') ← Enqueue rb data (Z.of_nat (length data)); Ok (k, [], rb')
  | ODequeue n =>
      '(k, dest, rb') ← Dequeue rb (replicate (Z.to_nat n) 0) n;
      Ok (k, take (Z.to_nat k) dest, rb')
  | OPeek n =>
      '(k, dest) ← Peek rb (replicate (Z.to_nat n) 0) n;
      Ok (k, take (Z.to_nat k) dest, rb)
  | OMoveFront n => let '(k, rb') := MoveFront rb n in Ok (k, [], rb')
  | OReceive data =>
      let data := take (Z.to_nat (GetFreeSize rb)) data in
      m ← store rb data;
      let '(k, rb') := MoveRear (mk m (iFront rb) (iRear rb) (iTotalSize rb)) (Z.of_nat (length data)) in
      Ok (k, [], rb')
  | OGetUseSize => Ok (GetUseSize rb, [], rb)
  | OGetFreeSize => Ok (GetFreeSize rb, [], rb)
  | OClearBuffer => Ok (0, [], ClearBuffer rb)
  end.

Definition run_spec (q : ByteQueue.t) (o : op) : Z * list Z * ByteQueue.t :=
  match o with
  | OEnqueue data | OReceive data =>
      let '(k, q') := ByteQueue.put q data (Z.of_nat (length data)) in (k, [], q')
  | ODequeue n =>
      let '(bs, q') := ByteQueue.get q n in (Z.of_nat (length bs), bs, q')
  | OPeek n => let '(bs, _) := ByteQueue.get q n in (Z.of_nat (length bs), bs, q)
  | OMoveFront n => let '(bs, q') := ByteQueue.get q n in (Z.of_nat (length bs), [], q')
  | OGetUseSize => (Z.of_nat (length (ByteQueue.items q)), [], q)
  | OGetFreeSize => (ByteQueue.room q, [], q)
  | OClearBuffer => (0, [], ByteQueue.mk (ByteQueue.cap q) [])
  end.

Fixpoint run (rb : t) (ops : list op) : outcome (list (Z * list Z) * t) :=
  match ops with
  | [] => Ok ([], rb)
  | o :: ops =>
      '(k, bs, rb1) ← run_op rb o;
      '(outs, rb2) ← run rb1 ops;
      Ok ((k, bs) :: outs, rb2)
  end.

Fixpoint spec (q : ByteQueue.t) (ops : list op) : list (Z * list Z) * ByteQueue.t :=
  match ops with
  | [] => ([], q)
  | o :: ops =>
      let '(k, bs, q1) := run_spec q o in
      let '(outs, q2) := spec q1 ops in
      ((k, bs) :: outs, q2)
  end.

End RingOps.

Section ring_refinement.
Import CRingBuffer RingOps.

Lemma abs_eq rb rb' l :
  iTotalSize rb' = iTotalSize rb -> contents rb' = l ->
  abs rb' = ByteQueue.mk (GetBufferSize rb) l.
Proof. intros E <-. unfold abs, GetBufferSize. rewrite E. done. Qed.

Lemma take_min {A} (l : list A) n :
  take (Z.to_nat (Z.min n (Z.of_nat (length l)))) l = take (Z.to_nat n) l.
Proof.
  destruct (decide (n <= Z.of_nat (length l))).
  - rewrite Z.min_l by lia. done.
  - rewrite !take_ge by lia. done.
Qed.

Lemma drop_min {A} (l : list A) n :
  drop (Z.to_nat (Z.min n (Z.of_nat (length l)))) l = drop (Z.to_nat n) l.
Proof.
  destruct (decide (n <= Z.of_nat (length l))).
  - rewrite Z.min_l by lia. done.
  - rewrite !drop_ge by lia. done.
Qed.

(** What [store] and [MoveRear] do together is what [Enqueue] does. *)
Lemma store_MoveRear rb bs :
  rb_ok rb -> 0 < Z.of_nat (length bs) <= GetFreeSize rb ->
  exists m rb', store rb bs = Ok m /\
    MoveRear (mk m (iFront rb) (iRear rb) (iTotalSize rb)) (Z.of_nat (length bs)) = (Z.of_nat (length bs), rb') /\
    rb_ok rb' /\ iTotalSize rb' = iTotalSize rb /\ contents rb' = contents rb ++ bs.
Proof.
  intros Hok Hn. pose proof Hok as (Hf & Hr & HL). set (n := Z.of_nat (length bs)) in *. unfold store, MoveRear, GetBufferPtr.
  cbn [iFront iRear iTotalSize buffer]. fold (GetRearBufferPtr rb).
  destruct (direct_room_cases rb Hok) as [[_ ?]|(d & -> & Hd & <- & Hfit & Hp & Hc)]; [lia|].
  destruct (mem_write (buffer rb) _ _) as [m1|] eqn:Hw1; [|rewrite mem_write_ok in Hw1 by (rewrite ?length_take; lia); done].
  pose proof (length_mem_write _ _ _ _ Hw1) as HL1. cbn [mbind outcome_bind]. destruct (d <? n) eqn:E.
  - destruct Hc as [[Heq _]|(Hlt & Hend & Hsum & -> & Hpos)]; [lia|].
    destruct (mem_write m1 0 (drop (Z.to_nat d) bs)) as [m2|] eqn:Hw2;
      [|rewrite mem_write_ok in Hw2 by (rewrite ?length_drop; lia); done].
    replace (0 =? iFront rb) with false by lia. unfold direct_room. replace (iFront rb <? 0) with false by lia.
    replace (0 <? iFront rb) with true by lia. cbn [from_option id].
    replace (iFront rb - 0 <? n - d) with false by lia. eexists _, _. split; [done|]. split; [f_equal; lia|].
    destruct (grow_two rb m1 m2 _ _ Hok Hw1 Hw2) as [H1 H2]; rewrite ?length_take, ?length_drop; try lia.
    rewrite take_drop in H2. rewrite length_drop in H1, H2.
    replace (Z.of_nat (length bs - Z.to_nat d)) with (n - d) in H1, H2 by lia. rewrite Z.add_0_l. done.
  - rewrite take_ge in Hw1 by lia. rewrite (drop_ge bs) by lia. rewrite mem_write_nil by lia.
    eexists _, _. split; [done|]. split; [done|]. destruct (grow_one rb m1 bs Hok Hw1) as [H1 H2]; [lia..|]. done.
Qed.

Lemma eta rb : rb = mk (buffer rb) (iFront rb) (iRear rb) (iTotalSize rb).
Proof. destruct rb; done. Qed.

Lemma store_full rb : rb_ok rb -> GetFreeSize rb = 0 -> store rb [] = Ok (buffer rb) /\ MoveRear rb 0 = (0, rb).
Proof.
  intros Hok H0. pose proof Hok as (Hf & Hr & HL). unfold store, MoveRear, GetBufferPtr. rewrite take_nil, drop_nil. fold (GetRearBufferPtr rb).
  assert (0 <= GetRearBufferPtr rb < iTotalSize rb).
  { unfold GetRearBufferPtr. rewrite Z.rem_mod_nonneg by lia. apply Z.mod_pos_bound. lia. }
  rewrite mem_write_nil by lia. cbn [mbind outcome_bind]. rewrite mem_write_nil by lia.
  destruct (direct_room_cases rb Hok) as [[-> _]|(d & -> & Hd & _)]; [done|lia].
Qed.

Lemma run_op_refines rb o :
  rb_ok rb -> op_ok o ->
  exists k bs rb', run_op rb o = Ok (k, bs, rb') /\ rb_ok rb' /\
    run_spec (abs rb) o = (k, bs, abs rb').
Proof.
  intros Hok Ho. pose proof (length_contents rb Hok) as HL. pose proof (use_range rb Hok).
  pose proof (use_free rb Hok).
  assert (ByteQueue.room (abs rb) = GetFreeSize rb) as Hroom.
  { unfold ByteQueue.room. cbn. lia. }
  assert (forall n, drop (Z.to_nat (Z.min n (GetUseSize rb))) (contents rb) =
            drop (Z.to_nat n) (contents rb)) as drop_k.
  { intros n. rewrite <- HL. apply drop_min. }
  assert (forall n, take (Z.to_nat (Z.min n (GetUseSize rb))) (contents rb) =
            take (Z.to_nat n) (contents rb)) as take_k.
  { intros n. rewrite <- HL. apply take_min. }
  assert (forall n, 0 < n -> Z.of_nat (length (take (Z.to_nat n) (contents rb))) =
            Z.min n (GetUseSize rb)) as Hk.
  { intros n Hn. rewrite length_take. lia. }
  assert (forall n, 0 < n -> exists d, mem_write (replicate (Z.to_nat n) 0) 0
            (take (Z.to_nat (Z.min n (GetUseSize rb))) (contents rb)) = Ok d /\
            take (Z.to_nat (Z.min n (GetUseSize rb))) d =
              take (Z.to_nat (Z.min n (GetUseSize rb))) (contents rb)) as Hpre.
  { intros n Hn. edestruct mem_write_prefix as (d & H1 & H2 & _); [| |eauto].
    - rewrite take_k. auto.
    - rewrite length_replicate. lia. }
  destruct o as [data|n|n|n|data| | |]; cbn [run_op run_spec op_ok] in *.
  - destruct (Enqueue_spec rb data (Z.of_nat (length data))) as (rb' & -> & Hok' & HT & Hc); [done| |].
    { destruct data; cbn; [done|lia]. }
    do 3 eexists. split; [done|]. split; [done|]. unfold ByteQueue.put.
    rewrite Hroom, (abs_eq rb rb' _ HT Hc). done.
  - destruct (Dequeue_spec rb (replicate (Z.to_nat n) 0) n Hok Ho) as (rb' & -> & Hok' & HT & Hc).
    destruct (Hpre n Ho) as (d & -> & Hd). do 3 eexists. split; [done|]. split; [done|].
    unfold ByteQueue.get. rewrite (abs_eq rb rb' _ HT Hc), Hd.
    cbn [abs ByteQueue.items ByteQueue.cap]. rewrite Hk, drop_k, take_k by done. done.
  - rewrite (Peek_spec rb _ n Hok Ho).
    destruct (Hpre n Ho) as (d & -> & Hd). do 3 eexists. split; [done|]. split; [done|].
    unfold ByteQueue.get. rewrite Hd. cbn [abs ByteQueue.items]. rewrite Hk, take_k by done. done.
  - destruct (MoveFront_spec rb n Hok Ho) as (rb' & -> & Hok' & HT & Hc).
    do 3 eexists. split; [done|]. split; [done|].
    unfold ByteQueue.get. rewrite (abs_eq rb rb' _ HT Hc).
    cbn [abs ByteQueue.items ByteQueue.cap]. rewrite Hk, drop_k by done. done.
  - unfold ByteQueue.put. rewrite Hroom. set (bs := take _ data).
    assert (Hbs : bs = take (Z.to_nat (Z.min (Z.of_nat (length data)) (GetFreeSize rb))) data).
    { rewrite Z.min_comm. symmetry. apply take_min. }
    assert (Hl : Z.of_nat (length bs) = Z.min (Z.of_nat (length data)) (GetFreeSize rb)) by (subst bs; rewrite length_take; lia).
    cbn [abs ByteQueue.items ByteQueue.cap]. rewrite <- Hbs, <- Hl.
    destruct (decide (GetFreeSize rb = 0)) as [Hz|Hz].
    + destruct (store_full rb Hok Hz) as [E1 E2]. assert (bs = []) as -> by (apply length_zero_iff_nil; lia).
      rewrite E1. cbn [mbind outcome_bind length]. rewrite app_nil_r. change (Z.of_nat 0) with 0. rewrite <- (eta rb), E2.
      do 3 eexists. split; [done|]. split; [done|]. done.
    + assert (0 < Z.of_nat (length data)) by (destruct data; cbn; [done|lia]).
      destruct (store_MoveRear rb bs Hok) as (m & rb' & -> & E2 & Hok' & HT & Hc); [lia|].
      cbn [mbind outcome_bind]. rewrite E2. do 3 eexists. split; [done|]. split; [done|].
      rewrite (abs_eq rb rb' _ HT Hc). done.
  - do 3 eexists. split; [done|]. split; [done|]. rewrite <- HL. done.
  - do 3 eexists. split; [done|]. split; [done|]. rewrite Hroom. done.
  - destruct (rb_ok_Clear rb Hok) as [Hok' Hc]. do 3 eexists. split; [done|]. split; [done|].
    rewrite (abs_eq rb (ClearBuffer rb) [] eq_refl Hc). done.
Qed.

Lemma run_refines rb ops :
  rb_ok rb -> Forall op_ok ops ->
  exists outs rb', run rb ops = Ok (outs, rb') /\ rb_ok rb' /\
    spec (abs rb) ops = (outs, abs rb').
Proof.
  intros Hok Hops. revert rb Hok.
  induction Hops as [|o ops Ho _ IH]; intros rb Hok; cbn [run spec]; [eauto|].
  destruct (run_op_refines rb o Hok Ho) as (k & bs & rb1 & -> & Hok1 & ->).
  destruct (IH rb1 Hok1) as (outs & rb2 & E & Hok2 & ->).
  cbn [mbind outcome_bind]. rewrite E. cbn [mbind outcome_bind]. eauto.
Qed.

End ring_refinement.

(** ** Properties *)
Section ring_properties.
Import CRingBuffer RingOps.

(** C14 (refinement). Any sequence of [Enqueue], [Dequeue], [Peek] and [MoveFront] calls
    with positive sizes, of bytes stored by the client in the free segments and followed
    by [MoveRear], of size queries and of [ClearBuffer], but not of [Resize] and not of
    calls of size 0, from a well-formed buffer, runs without a fault, keeps the buffer
    well formed and gives exactly the sizes and bytes that a bounded first-in first-out
    byte queue of capacity [GetBufferSize] gives, wrap-around and partial calls
    included. *)
Theorem ring_buffer_refines_queue (rb : t) (ops : list op) :
  rb_ok rb -> Forall op_ok ops ->
  exists outs rb', run rb ops = Ok (outs, rb') /\ rb_ok rb' /\
    spec (abs rb) ops = (outs, abs rb').
Proof. apply run_refines. Qed.

Lemma ring_buffer_refines_queue_witness :
  exists outs rb',
    run (new_sized 4 [0; 0; 0; 0; 0])
        [OEnqueue [1; 2; 3]; ODequeue 2; OReceive [4; 5; 6; 7]; OPeek 9; OMoveFront 1; OEnqueue [8]; ODequeue 9]
      = Ok (outs, rb') /\ rb_ok rb' /\
    spec (abs (new_sized 4 [0; 0; 0; 0; 0]))
        [OEnqueue [1; 2; 3]; ODequeue 2; OReceive [4; 5; 6; 7]; OPeek 9; OMoveFront 1; OEnqueue [8]; ODequeue 9]
      = (outs, abs rb').
Proof.
  apply ring_buffer_refines_queue.
  - unfold rb_ok. cbn. lia.
  - repeat constructor; discriminate.
Defined.

(** [Enqueue] of [n] bytes, [0 < n], stores the longest prefix that
    fits behind the bytes already there, in one or two segments, and returns its
    length; when the buffer is full it stores nothing and returns 0. *)
Theorem Enqueue_stores_prefix (rb : t) (chpData : list Z) (iSize : Z) :
  rb_ok rb -> 0 < iSize <= Z.of_nat (length chpData) ->
  exists rb', Enqueue rb chpData iSize = Ok (Z.min iSize (GetFreeSize rb), rb') /\
    rb_ok rb' /\ iTotalSize rb' = iTotalSize rb /\
    contents rb' = contents rb ++ take (Z.to_nat (Z.min iSize (GetFreeSize rb))) chpData.
Proof. apply Enqueue_spec. Qed.

Lemma Enqueue_stores_prefix_witness :
  let rb := mk [10; 11; 12; 13] 2 0 4 in
  exists rb', Enqueue rb [7; 8; 9] 3 = Ok (Z.min 3 (GetFreeSize rb), rb') /\
    rb_ok rb' /\ iTotalSize rb' = iTotalSize rb /\
    contents rb' = contents rb ++ take (Z.to_nat (Z.min 3 (GetFreeSize rb))) [7; 8; 9].
Proof. apply (Enqueue_stores_prefix (mk [10; 11; 12; 13] 2 0 4)); unfold rb_ok; cbn; lia. Defined.

(** [Dequeue] hands out the oldest [k = min(iSize, GetUseSize)] bytes
    and moves past them exactly when the destination holds [k] bytes; a smaller
    destination is overrun (it passes the copied size as the size of the
    destination to [memcpy_s]). *)
Theorem Dequeue_delivers_or_overruns (rb : t) (chpDest : list Z) (iSize : Z) :
  rb_ok rb -> 0 < iSize ->
  let k := Z.min iSize (GetUseSize rb) in
  (k <= Z.of_nat (length chpDest) ->
     exists rb', Dequeue rb chpDest iSize =
         Ok (k, take (Z.to_nat k) (contents rb) ++ drop (Z.to_nat k) chpDest, rb') /\
       rb_ok rb' /\ contents rb' = drop (Z.to_nat k) (contents rb)) /\
  (Z.of_nat (length chpDest) < k -> Dequeue rb chpDest iSize = Fault OutOfBounds).
Proof.
  intros Hok Hn k. pose proof (length_contents rb Hok).
  destruct (Dequeue_spec rb chpDest iSize Hok Hn) as (rb' & -> & Hok' & HT & Hc). fold k in Hc |- *.
  assert (Z.of_nat (length (take (Z.to_nat k) (contents rb))) = k) as Hk.
  { rewrite length_take. lia. }
  split; intros Hd.
  - destruct (mem_write_prefix chpDest _ k Hk Hd) as (d & -> & _ & ->). eauto.
  - unfold mem_write. rewrite Hk. replace (_ && _) with false by lia. done.
Qed.

Lemma Dequeue_delivers_or_overruns_witness :
  let rb := mk [10; 11; 12; 13] 2 1 4 in
  let k := Z.min 5 (GetUseSize rb) in
  (k <= Z.of_nat (length [0; 0; 0]) ->
     exists rb', Dequeue rb [0; 0; 0] 5 =
         Ok (k, take (Z.to_nat k) (contents rb) ++ drop (Z.to_nat k) [0; 0; 0], rb') /\
       rb_ok rb' /\ contents rb' = drop (Z.to_nat k) (contents rb)) /\
  (Z.of_nat (length [0; 0; 0]) < k -> Dequeue rb [0; 0; 0] 5 = Fault OutOfBounds).
Proof.
  apply (Dequeue_delivers_or_overruns (mk [10; 11; 12; 13] 2 1 4)); unfold rb_ok; cbn; lia.
Defined.

(** [Resize] to a larger size keeps the bytes when they do not wrap
    around; when they do ([iRear < iFront]) it copies the slots to the same places,
    so the buffer then holds as many bytes more as it has grown, which nobody
    enqueued. *)
Theorem Resize_keeps_unless_wrapped (rb : t) (iSize : Z) (init : list Z) :
  rb_ok rb -> iTotalSize rb < iSize -> Z.of_nat (length init) = iSize + 1 ->
  exists rb', Resize rb iSize init = Ok rb' /\ rb_ok rb' /\ GetBufferSize rb' = iSize /\
    (iFront rb <= iRear rb -> contents rb' = contents rb) /\
    (iRear rb < iFront rb ->
       GetUseSize rb' = GetUseSize rb + (iSize - GetBufferSize rb)).
Proof.
  intros Hok Hlt Hinit. pose proof Hok as (Hf & Hr & HL).
  unfold Resize. replace (iSize <=? iTotalSize rb) with false by lia.
  rewrite memcpy_s_ok by lia.
  rewrite drop_0, firstn_all2 by lia.
  edestruct mem_write_prefix as (m & E & Hpre & Hm); [| |rewrite E]; [reflexivity|lia|].
  pose proof (length_mem_write _ _ _ _ E) as Lm.
  eexists; split; [done|]. unfold rb_ok, GetBufferSize, GetUseSize, contents.
  cbn [buffer iFront iRear iTotalSize]. split; [lia|]. split; [lia|]. split; intros Hw; [|split_ifs].
  unfold GetUseSize. cbn [buffer iFront iRear iTotalSize].
  destruct (iFront rb =? iRear rb) eqn:E1; [rewrite !ring_slice_nil by lia; done|].
  destruct (iFront rb <? iRear rb) eqn:E2; [|lia].
  rewrite !ring_slice_contig by lia.
  rewrite Hm, drop_app_le, take_app_le by (rewrite ?length_drop; lia). done.
Qed.

Lemma Resize_keeps_unless_wrapped_witness :
  let rb := mk [10; 11; 12; 13] 2 1 4 in
  exists rb', Resize rb 6 [0; 0; 0; 0; 0; 0; 0] = Ok rb' /\ rb_ok rb' /\ GetBufferSize rb' = 6 /\
    (iFront rb <= iRear rb -> contents rb' = contents rb) /\
    (iRear rb < iFront rb ->
       GetUseSize rb' = GetUseSize rb + (6 - GetBufferSize rb)).
Proof.
  apply (Resize_keeps_unless_wrapped (mk [10; 11; 12; 13] 2 1 4)); unfold rb_ok; cbn; lia.
Defined.

(** A call with size 0 breaks the indices: on an empty buffer whose
    indices are the last slot, [Enqueue] of 0 bytes returns 0 and leaves [iRear] at
    -1, and the next [Dequeue] hands out bytes although nothing was enqueued. *)
Theorem Enqueue_zero_corrupts (rb : t) (chpData chpDest : list Z) (iSize : Z) :
  rb_ok rb -> iFront rb = iTotalSize rb - 1 -> iRear rb = iTotalSize rb - 1 ->
  1 < iTotalSize rb -> 0 < iSize <= iTotalSize rb -> iSize <= Z.of_nat (length chpDest) ->
  contents rb = [] /\
  exists rb1, Enqueue rb chpData 0 = Ok (0, rb1) /\ iRear rb1 = -1 /\
    exists dest rb2, Dequeue rb1 chpDest iSize = Ok (iSize, dest, rb2).
Proof.
  intros (_ & _ & HL) Hf Hr HT Hn Hd. split.
  { apply ring_slice_nil. unfold GetUseSize. split_ifs; lia. }
  unfold Enqueue. rewrite Hf, Hr, rem_next by lia.
  replace (iTotalSize rb - 1 + 1 =? iTotalSize rb) with true by lia.
  unfold direct_room. replace (_ <? 0) with false by lia. replace (0 <? _) with true by lia.
  replace (_ <? 0) with false by lia.
  rewrite memcpy_s_ok by lia. cbn [Z.to_nat take]. rewrite mem_write_nil by lia.
  eexists; split; [done|]. split; [done|].
  unfold Dequeue. cbn [buffer iFront iRear iTotalSize].
  replace (0 + (0 - 1) =? iTotalSize rb - 1) with false by lia.
  rewrite rem_next by lia. replace (iTotalSize rb - 1 + 1 =? iTotalSize rb) with true by lia.
  unfold direct_used. replace (0 + (0 - 1) <? 0) with true by lia.
  replace (iTotalSize rb - 0 <? iSize) with false by lia.
  rewrite memcpy_s_ok by lia. rewrite mem_write_ok; [|lia|rewrite length_take, length_drop; lia].
  eauto.
Qed.

Lemma Enqueue_zero_corrupts_witness :
  let rb := mk [10; 11; 12; 13] 3 3 4 in
  contents rb = [] /\
  exists rb1, Enqueue rb [] 0 = Ok (0, rb1) /\ iRear rb1 = -1 /\
    exists dest rb2, Dequeue rb1 [0; 0; 0; 0] 2 = Ok (2, dest, rb2).
Proof.
  apply (Enqueue_zero_corrupts (mk [10; 11; 12; 13] 3 3 4)); unfold rb_ok; cbn; lia.
Defined.

End ring_properties.
