(* ===== verification/NetPacket.v ===== *)
(** * CNetPacket

    The serialization buffer of [CNetPacket.h] and [CNetPacket.cpp]: positions,
    typed insertion and extraction, the network header and the two-key stream
    coding of [Encode] and [Decode]. A pointer into [_pBuffer] is an offset. *)
From S2P Require Import Prelude.
From stdpp Require Import prelude list list_numbers.
From Stdlib Require Import ZArith Lia.
Open Scope Z_scope.

Module CNetPacket.

Definition DEFAULT_SIZE : Z := 1024.
Definition dfPACKET_CODE : Z := 0x77.
Definition dfPACKET_KEY : Z := 0x32.

(** ** The network header, packed to five bytes *)
Module NetHeader.
Record t := mk { code : Z; len : Z; randKey : Z; chkSum : Z }.

(** Its object representation under [#pragma pack(1)]. *)
Definition bytes (h : t) : list Z :=
  [u8 (code h)] ++ le_bytes 2 (len h) ++ [u8 (randKey h); u8 (chkSum h)].

Definition of_bytes (bs : list Z) : t :=
  mk (nth 0 bs 0) (le_num [nth 1 bs 0; nth 2 bs 0]) (nth 3 bs 0) (nth 4 bs 0).

Definition sizeof : Z := 5.
End NetHeader.

(** ** State *)
Record t := mk {
  pBuffer : list Z;
  pWritePos : Z;
  pReadPos : Z;
  refCount : Z;
  isEncode : bool;
  cBufferSize : Z;
}.

Definition set_buffer (p : t) (b : list Z) : t :=
  mk b (pWritePos p) (pReadPos p) (refCount p) (isEncode p) (cBufferSize p).
Definition set_write (p : t) (w : Z) : t :=
  mk (pBuffer p) w (pReadPos p) (refCount p) (isEncode p) (cBufferSize p).
Definition set_read (p : t) (r : Z) : t :=
  mk (pBuffer p) (pWritePos p) r (refCount p) (isEncode p) (cBufferSize p).
Definition set_ref (p : t) (c : Z) : t :=
  mk (pBuffer p) (pWritePos p) (pReadPos p) c (isEncode p) (cBufferSize p).
Definition set_isEncode (p : t) (b : bool) : t :=
  mk (pBuffer p) (pWritePos p) (pReadPos p) (refCount p) b (cBufferSize p).

(** The constructors; [init] is the indeterminate content of [new char[size]]. *)
Definition new_default (init : list Z) : t :=
  mk init NetHeader.sizeof NetHeader.sizeof 0 false DEFAULT_SIZE.
Definition new_sized (size : Z) (init : list Z) : t :=
  mk init NetHeader.sizeof NetHeader.sizeof 0 false size.

(** ** Positions *)
Definition Clear (p : t) : t :=
  set_isEncode (set_read (set_write p NetHeader.sizeof) NetHeader.sizeof) false.
Definition GetBufferSize (p : t) : Z := cBufferSize p.
Definition GetPayloadSize (p : t) : Z := pWritePos p - pReadPos p.
Definition GetTotalSize (p : t) : Z := pWritePos p.
Definition GetBufferPtr (p : t) : Z := 0.
Definition GetPayloadPtr (p : t) : Z := NetHeader.sizeof.

Definition MoveWritePos (p : t) (size : Z) : Z * t :=
  let remainSize := cBufferSize p - GetTotalSize p in
  let size := if remainSize <? size then remainSize else size in
  (size, set_write p (pWritePos p + size)).

Definition MoveReadPos (p : t) (size : Z) : Z * t :=
  let remainSize := pWritePos p - pReadPos p in
  let size := if remainSize <? size then remainSize else size in
  (size, set_read p (pReadPos p + size)).

(** ** Raw data *)
Definition GetData (p : t) (pDest : list Z) (size : Z) : outcome (Z * list Z * t) :=
  let remainSize := pWritePos p - pReadPos p in
  let size := if remainSize <? size then remainSize else size in
  dest ← memcpy_s pDest 0 size (pBuffer p) (pReadPos p) size;
  Ok (size, dest, set_read p (pReadPos p + size)).

Definition SetData (p : t) (pSrc : list Z) (srcSize : Z) : outcome (Z * t) :=
  let remainSize := cBufferSize p - pWritePos p in
  let srcSize := if remainSize <? srcSize then remainSize else srcSize in
  buf ← memcpy_s (pBuffer p) (pWritePos p) srcSize pSrc 0 srcSize;
  Ok (srcSize, set_write (set_buffer p buf) (pWritePos p + srcSize)).

Definition GetNetHeader (p : t) : outcome NetHeader.t :=
  dest ← memcpy_s (replicate 5 0) 0 NetHeader.sizeof (pBuffer p) 0 NetHeader.sizeof;
  Ok (NetHeader.of_bytes dest).

Definition SetNetHeader (p : t) (h : NetHeader.t) : outcome t :=
  buf ← memcpy_s (pBuffer p) 0 NetHeader.sizeof (NetHeader.bytes h) 0 NetHeader.sizeof;
  Ok (set_buffer p buf).

(** [InterlockedIncrement] on a [LONG]. *)
Definition AddRefCount (p : t) : t := set_ref p (i32 (refCount p + 1)).

(** ** Typed insertion and extraction

    One constructor per overload of [operator<<] and [operator>>]. A value is
    its number; a [float] or [double] is its bit pattern. *)
Inductive ctype :=
  | CChar | CUChar | CShort | CUShort | CInt | CUInt | CLong | CULong
  | CInt64 | CUInt64 | CFloat | CDouble.

#[export] Instance ctype_eq_dec : EqDecision ctype.
Proof. solve_decision. Defined.

Definition sizeof (ty : ctype) : nat :=
  match ty with
  | CChar | CUChar => 1
  | CShort | CUShort => 2
  | CInt | CUInt | CLong | CULong | CFloat => 4
  | CInt64 | CUInt64 | CDouble => 8
  end.

Definition is_signed (ty : ctype) : bool :=
  match ty with
  | CChar | CShort | CInt | CLong | CInt64 => true
  | _ => false
  end.

(** The value an object of type [ty] has, from its bytes, and the conversion of
    an integer to [ty]. *)
Definition bits (ty : ctype) : Z := 8 * Z.of_nat (sizeof ty).
Definition conv (ty : ctype) (v : Z) : Z :=
  if is_signed ty then sint (bits ty) v else uint (bits ty) v.
Definition value_of (ty : ctype) (bs : list Z) : Z := conv ty (le_num bs).

Definition operator_in (ty : ctype) (p : t) (val : Z) : outcome t :=
  '(_, p') ← SetData p (le_bytes (sizeof ty) val) (Z.of_nat (sizeof ty));
  Ok p'.

(** [operator_out] gives the value of the caller's variable after the call, from
    its value [old] before it. The overload for [long] takes its argument by
    value, so what it reads goes to a copy. *)
Definition operator_out (ty : ctype) (p : t) (old : Z) : outcome (Z * t) :=
  '(_, dest, p') ← GetData p (le_bytes (sizeof ty) old) (Z.of_nat (sizeof ty));
  match ty with
  | CLong => Ok (old, p')
  | _ => Ok (value_of ty dest, p')
  end.

(** ** Coding *)

(** [sumVal += pPayload[i]] for [n] bytes from [off]; [char] is signed. *)
Fixpoint sum_loop (buf : list Z) (off : Z) (n : nat) (sumVal : Z) : outcome Z :=
  match n with
  | O => Ok sumVal
  | S n => bs ← mem_read buf off 1; sum_loop buf (off + 1) n (sumVal + i8 (nth 0 bs 0))
  end.

Fixpoint encode_loop (buf : list Z) (off : Z) (n : nat) (cnt befRk befPk randKey : Z)
    : outcome (list Z) :=
  match n with
  | O => Ok buf
  | S n =>
      bs ← mem_read buf off 1;
      let befRk := i8 (Z.lxor (i8 (nth 0 bs 0)) (befRk + randKey + cnt)) in
      let befPk := i8 (Z.lxor befRk (befPk + dfPACKET_KEY + cnt)) in
      buf ← mem_write buf off [u8 befPk];
      encode_loop buf (off + 1) n (cnt + 1) befRk befPk randKey
  end.

Fixpoint decode_loop (buf : list Z) (off : Z) (n : nat) (cnt befRk befPk randKey : Z)
    : outcome (list Z) :=
  match n with
  | O => Ok buf
  | S n =>
      bs ← mem_read buf off 1;
      let tmp := i8 (Z.lxor (i8 (nth 0 bs 0)) (befRk + dfPACKET_KEY + cnt)) in
      let befRk := i8 (nth 0 bs 0) in
      buf ← mem_write buf off [u8 (Z.lxor tmp (befPk + randKey + cnt))];
      decode_loop buf (off + 1) n (cnt + 1) befRk tmp randKey
  end.

(** [Encode] with the value [rnd] of [rand()]. The second path ends without a
    [return] statement: its result is indeterminate, [None]. *)
Definition Encode (p : t) (rnd : Z) : outcome (option bool * t) :=
  if isEncode p then Ok (Some false, p)
  else
    let p := set_isEncode p true in
    let len := u16 (GetPayloadSize p) in
    let randKey := u8 (Z.rem rnd 256) in
    sumVal ← sum_loop (pBuffer p) (GetPayloadPtr p) (Z.to_nat len) 0;
    let header := NetHeader.mk dfPACKET_CODE len randKey (u8 (Z.rem sumVal 256)) in
    p ← SetNetHeader p header;
    buf ← encode_loop (pBuffer p) (GetPayloadPtr p - 1) (Z.to_nat (len + 1)) 1 0 0 randKey;
    Ok (None, set_buffer p buf).

Definition Decode (p : t) : outcome (bool * t) :=
  header ← GetNetHeader p;
  buf ← decode_loop (pBuffer p) (GetPayloadPtr p - 1) (Z.to_nat (NetHeader.len header + 1))
          1 0 0 (NetHeader.randKey header);
  let p := set_buffer p buf in
  header ← GetNetHeader p;
  sumVal ← sum_loop (pBuffer p) (GetPayloadPtr p) (Z.to_nat (NetHeader.len header)) 0;
  let myChksum := u8 (Z.rem sumVal 256) in
  Ok (NetHeader.chkSum header =? myChksum, p).

End CNetPacket.

(** ** The coding as a function on byte lists *)
Section coding.
Import CNetPacket.

(** The chained double xor of [Encode], on bytes: [R] and [P] are the two
    previous values, [rk] the random key. *)
Fixpoint enc (rk cnt R P : Z) (bs : list Z) : list Z :=
  match bs with
  | [] => []
  | b :: bs =>
      let R := Z.lxor b (u8 (R + rk + cnt)) in
      let P := Z.lxor R (u8 (P + dfPACKET_KEY + cnt)) in
      P :: enc rk (cnt + 1) R P bs
  end.

Fixpoint dec (rk cnt R P : Z) (bs : list Z) : list Z :=
  match bs with
  | [] => []
  | b :: bs =>
      let tmp := Z.lxor b (u8 (R + dfPACKET_KEY + cnt)) in
      Z.lxor tmp (u8 (P + rk + cnt)) :: dec rk (cnt + 1) b tmp bs
  end.

(** The checksum: the sum of the bytes modulo 256. *)
Definition checksum (bs : list Z) : Z := u8 (foldr Z.add 0 bs).

Lemma length_enc rk cnt R P bs : length (enc rk cnt R P bs) = length bs.
Proof. revert cnt R P; induction bs; intros; cbn; auto. Qed.

Lemma length_dec rk cnt R P bs : length (dec rk cnt R P bs) = length bs.
Proof. revert cnt R P; induction bs; intros; cbn; auto. Qed.

Lemma lxor_cancel a b : Z.lxor (Z.lxor a b) b = a.
Proof. rewrite Z.lxor_assoc, Z.lxor_nilpotent, Z.lxor_0_r. done. Qed.

Lemma dec_enc rk cnt R P bs : dec rk cnt P R (enc rk cnt R P bs) = bs.
Proof.
  revert cnt R P; induction bs as [|b bs IH]; intros; cbn; [done|].
  rewrite !lxor_cancel, IH. done.
Qed.

Lemma enc_dec rk cnt R P bs : enc rk cnt R P (dec rk cnt P R bs) = bs.
Proof.
  revert cnt R P; induction bs as [|b bs IH]; intros; cbn; [done|].
  rewrite !lxor_cancel, IH. done.
Qed.

Lemma lxor_byte a b : is_byte a -> is_byte b -> is_byte (Z.lxor a b).
Proof.
  intros Ha Hb. rewrite <- (u8_byte a Ha), <- (u8_byte b Hb), <- u_lxor by done.
  apply is_byte_u8.
Qed.

Lemma enc_byte rk cnt R P bs : Forall is_byte bs -> Forall is_byte (enc rk cnt R P bs).
Proof.
  intros H. revert cnt R P; induction H; intros; cbn; constructor; auto.
  auto using lxor_byte, is_byte_u8.
Qed.

Lemma dec_byte rk cnt R P bs : Forall is_byte bs -> Forall is_byte (dec rk cnt R P bs).
Proof.
  intros H. revert cnt R P; induction H; intros; cbn; constructor; auto.
  auto using lxor_byte, is_byte_u8.
Qed.

(** The step on signed [char]s is the step on bytes. *)
Lemma char_step b x y :
  is_byte b -> u8 x = u8 y -> u8 (i8 (Z.lxor (i8 b) x)) = Z.lxor b (u8 y).
Proof.
  intros Hb E. rewrite u_s, u_lxor, u_s, E, (u8_byte b Hb) by done. done.
Qed.

Lemma u8_add3 x y a b : u8 x = u8 y -> u8 (x + a + b) = u8 (y + a + b).
Proof.
  intros E. rewrite <- !Z.add_assoc, <- (u_add_l _ x), E, u_add_l. done.
Qed.

Lemma encode_loop_spec pre bs post cnt R P R' P' rk off :
  Forall is_byte bs -> off = Z.of_nat (length pre) -> u8 R = u8 R' -> u8 P = u8 P' ->
  encode_loop (pre ++ bs ++ post) off (length bs) cnt R P rk =
  Ok (pre ++ enc rk cnt R' P' bs ++ post).
Proof.
  intros Hbs. revert pre cnt R P R' P' off.
  induction Hbs as [|b bs Hb _ IH]; intros pre cnt R P R' P' off -> HR HP; [done|].
  cbn [length encode_loop enc]. change (b :: bs) with ([b] ++ bs). rewrite <- app_assoc.
  rewrite mem_read_app by done. cbn [mbind outcome_bind nth].
  set (R1 := i8 _). set (P1 := i8 _).
  assert (u8 R1 = Z.lxor b (u8 (R' + rk + cnt))) as HR1.
  { apply char_step; [done|]. apply u8_add3. done. }
  assert (u8 P1 = Z.lxor (u8 R1) (u8 (P' + dfPACKET_KEY + cnt))) as HP1.
  { unfold P1. rewrite u_s, u_lxor by done. f_equal. apply u8_add3. done. }
  rewrite mem_write_app by done. cbn [mbind outcome_bind]. rewrite app_assoc.
  rewrite (IH _ _ _ _ (u8 R1) (u8 P1)); [|rewrite length_app; cbn; lia|symmetry; apply u_u ..].
  rewrite <- app_assoc, <- HR1, <- HP1. done.
Qed.

Lemma decode_loop_spec pre bs post cnt R P R' P' rk off :
  Forall is_byte bs -> off = Z.of_nat (length pre) -> u8 R = u8 R' -> u8 P = u8 P' ->
  decode_loop (pre ++ bs ++ post) off (length bs) cnt R P rk =
  Ok (pre ++ dec rk cnt R' P' bs ++ post).
Proof.
  intros Hbs. revert pre cnt R P R' P' off.
  induction Hbs as [|b bs Hb _ IH]; intros pre cnt R P R' P' off -> HR HP; [done|].
  cbn [length decode_loop dec]. change (b :: bs) with ([b] ++ bs). rewrite <- app_assoc.
  rewrite mem_read_app by done. cbn [mbind outcome_bind nth].
  set (T1 := i8 (Z.lxor _ _)).
  assert (u8 T1 = Z.lxor b (u8 (R' + dfPACKET_KEY + cnt))) as HT1.
  { apply char_step; [done|]. apply u8_add3. done. }
  rewrite u_lxor, (u8_add3 P P' rk cnt HP), HT1 by done.
  rewrite mem_write_app by done. cbn [mbind outcome_bind]. rewrite app_assoc.
  rewrite (IH _ _ _ _ b (u8 T1)); [|rewrite length_app; cbn; lia|apply u_s|symmetry; apply u_u].
  rewrite <- app_assoc, HT1. done.
Qed.

Lemma sum_loop_spec pre bs post off acc :
  off = Z.of_nat (length pre) ->
  exists v, sum_loop (pre ++ bs ++ post) off (length bs) acc = Ok v /\
    u8 v = u8 (acc + foldr Z.add 0 bs).
Proof.
  revert pre off acc. induction bs as [|b bs IH]; intros pre off acc ->; cbn [length sum_loop foldr].
  { eexists; split; [done|]. f_equal; lia. }
  change (b :: bs) with ([b] ++ bs). rewrite <- app_assoc, mem_read_app by done.
  cbn [mbind outcome_bind nth]. rewrite app_assoc.
  edestruct (IH (pre ++ [b])) as (v & -> & Hv); [rewrite length_app; cbn; lia|].
  eexists; split; [done|]. rewrite Hv, <- !Z.add_assoc, <- u_add_r, <- (u_add_l _ (i8 b)), u_s.
  rewrite u_add_l, u_add_r. done.
Qed.

End coding.

(** ** Invariant and frames *)
Section frames.
Import CNetPacket.

Definition packet_ok (p : t) : Prop :=
  Z.of_nat (length (pBuffer p)) = cBufferSize p /\ Forall is_byte (pBuffer p) /\
  NetHeader.sizeof <= pReadPos p <= pWritePos p /\ pWritePos p <= cBufferSize p.

(** Everything inserted since [Clear], and the part not extracted yet. *)
Definition payload (p : t) : list Z :=
  take (Z.to_nat (pWritePos p - NetHeader.sizeof)) (drop 5 (pBuffer p)).
Definition unread (p : t) : list Z :=
  take (Z.to_nat (pWritePos p - pReadPos p)) (drop (Z.to_nat (pReadPos p)) (pBuffer p)).

(** What the server sends for a payload: the header, its checksum coded with the
    payload. *)
Definition frame (rk : Z) (pay : list Z) : list Z :=
  dfPACKET_CODE :: le_bytes 2 (Z.of_nat (length pay)) ++ rk ::
  enc rk 1 0 0 (checksum pay :: pay).

Lemma length_frame rk pay : length (frame rk pay) = (5 + length pay)%nat.
Proof.
  unfold frame. rewrite length_cons, length_app, length_cons, length_enc, length_le_bytes.
  cbn [length]. lia.
Qed.

Lemma frame_byte rk pay : is_byte rk -> Forall is_byte pay -> Forall is_byte (frame rk pay).
Proof.
  intros. unfold frame. constructor; [unfold is_byte, dfPACKET_CODE; lia|].
  apply Forall_app; split; [apply le_bytes_byte|]. constructor; [done|].
  apply enc_byte. constructor; [apply is_byte_u8|done].
Qed.

Lemma payload_unread p : pReadPos p = NetHeader.sizeof -> payload p = unread p.
Proof. intros E. unfold payload, unread. rewrite E. done. Qed.

Lemma length_payload p :
  packet_ok p -> Z.of_nat (length (payload p)) = pWritePos p - NetHeader.sizeof.
Proof.
  intros (HL & _ & ? & ?). unfold payload, NetHeader.sizeof in *.
  rewrite length_take, length_drop. lia.
Qed.

Lemma payload_byte p : packet_ok p -> Forall is_byte (payload p).
Proof. intros (_ & H & _). unfold payload. auto using Forall_take, Forall_drop. Qed.

(** The bytes of a packet: header, payload, rest. *)
Lemma buffer_split p :
  packet_ok p ->
  exists hd, length hd = 5%nat /\
    pBuffer p = hd ++ payload p ++ drop (Z.to_nat (pWritePos p)) (pBuffer p).
Proof.
  intros (HL & _ & ? & ?). unfold payload, NetHeader.sizeof in *.
  exists (take 5 (pBuffer p)). split; [rewrite length_take; lia|].
  rewrite <- (take_drop 5 (pBuffer p)) at 1. f_equal.
  rewrite <- (take_drop (Z.to_nat (pWritePos p - 5)) (drop 5 (pBuffer p))) at 1.
  rewrite drop_drop. do 2 f_equal. lia.
Qed.

Lemma header_bytes_eq h :
  NetHeader.bytes h = [u8 (NetHeader.code h)] ++ le_bytes 2 (NetHeader.len h) ++
    [u8 (NetHeader.randKey h); u8 (NetHeader.chkSum h)].
Proof. done. Qed.

Lemma SetNetHeader_spec p h hd rest :
  pBuffer p = hd ++ rest -> length hd = 5%nat ->
  SetNetHeader p h = Ok (set_buffer p (NetHeader.bytes h ++ rest)).
Proof.
  intros E HL. unfold SetNetHeader, NetHeader.sizeof.
  rewrite memcpy_s_ok by (rewrite ?header_bytes_eq; cbn; lia).
  change (drop (Z.to_nat 0) (NetHeader.bytes h)) with (NetHeader.bytes h).
  rewrite firstn_all2 by (cbn; lia). rewrite E.
  replace (mem_write (hd ++ rest) 0 (NetHeader.bytes h))
    with (mem_write ([] ++ hd ++ rest) 0 (NetHeader.bytes h)) by done.
  rewrite mem_write_app by (rewrite ?HL; done). done.
Qed.

Lemma GetNetHeader_spec p hd rest :
  pBuffer p = hd ++ rest -> length hd = 5%nat ->
  GetNetHeader p = Ok (NetHeader.of_bytes hd).
Proof.
  intros E HL. unfold GetNetHeader, NetHeader.sizeof. rewrite E.
  rewrite memcpy_s_ok by (rewrite ?length_app; lia).
  rewrite drop_0, take_app_length' by lia.
  change (replicate 5 0) with ([] ++ replicate 5 0 ++ []).
  rewrite mem_write_app by (rewrite ?HL; done). cbn [mbind outcome_bind].
  rewrite app_nil_l, app_nil_r. done.
Qed.

Lemma Encode_spec p rnd :
  packet_ok p -> pReadPos p = NetHeader.sizeof -> isEncode p = false ->
  pWritePos p - NetHeader.sizeof < 65536 ->
  Encode p rnd =
    Ok (None, set_isEncode (set_buffer p
                (frame (u8 (Z.rem rnd 256)) (payload p) ++
                 drop (Z.to_nat (pWritePos p)) (pBuffer p))) true).
Proof.
  intros Hok Hr He Hlen. unfold Encode. rewrite He.
  destruct (buffer_split p Hok) as (hd & Hhd & Hb).
  pose proof (length_payload p Hok) as HL. pose proof (payload_byte p Hok) as HB.
  assert (u16 (GetPayloadSize p) = Z.of_nat (length (payload p))) as Hsz.
  { unfold GetPayloadSize, NetHeader.sizeof in *. rewrite u_small; lia. }
  cbn zeta. unfold GetPayloadSize in Hsz. unfold GetPayloadSize.
  change (pWritePos (set_isEncode p true)) with (pWritePos p).
  change (pReadPos (set_isEncode p true)) with (pReadPos p). rewrite Hsz, Nat2Z.id.
  cbn [pBuffer set_isEncode].
  set (rest := drop _ (pBuffer p)) in *. rewrite Hb. set (pay := payload p) in *. set (rk := u8 (Z.rem rnd 256)).
  unfold GetPayloadPtr, NetHeader.sizeof.
  destruct (sum_loop_spec hd pay rest 5 0) as (v & -> & Hv); [lia|]. cbn [mbind outcome_bind].
  assert (u8 (Z.rem v 256) = checksum pay) as Hck by (rewrite u8_rem, Hv; done). rewrite Hck.
  rewrite (SetNetHeader_spec _ _ hd (pay ++ rest)) by (cbn; done).
  cbn [mbind outcome_bind pBuffer set_buffer]. unfold NetHeader.bytes.
  cbn [NetHeader.code NetHeader.len NetHeader.randKey NetHeader.chkSum].
  replace (Z.to_nat (Z.of_nat (length pay) + 1)) with (length (checksum pay :: pay))
    by (cbn [length]; lia).
  assert (u8 rk = rk) as Hrk by (unfold rk; apply u_u). 
  assert (u8 (checksum pay) = checksum pay) as Hc by apply u_u. rewrite Hrk, Hc.
  set (pre := dfPACKET_CODE :: le_bytes 2 (Z.of_nat (length pay)) ++ [rk]).
  replace (([u8 dfPACKET_CODE] ++ _) ++ pay ++ rest)
    with (pre ++ (checksum pay :: pay) ++ rest) by (unfold pre; cbn; done).
  rewrite (encode_loop_spec pre _ rest 1 0 0 0 0 rk); [|constructor; [apply is_byte_u8|done]|done..].
  cbn [mbind outcome_bind]. unfold frame, pre. cbn. done.
Qed.

Lemma le_num_2 n : 0 <= n < 65536 -> le_num [u8 n; u8 (n / 256)] = n.
Proof.
  intros. change [u8 n; u8 (n / 256)] with (le_bytes 2 n).
  rewrite le_num_bytes. apply u_small. done.
Qed.

Lemma Decode_spec p c len rk b cipher rest :
  pBuffer p = (c :: le_bytes 2 len ++ [rk]) ++ (b :: cipher) ++ rest ->
  is_byte b -> Forall is_byte cipher -> 0 <= len < 65536 -> Z.of_nat (length cipher) = len ->
  let chk := Z.lxor (Z.lxor b (u8 (dfPACKET_KEY + 1))) (u8 (rk + 1)) in
  let plain := dec rk 2 b (Z.lxor b (u8 (dfPACKET_KEY + 1))) cipher in
  Decode p =
    Ok (chk =? checksum plain,
        set_buffer p ((c :: le_bytes 2 len ++ [rk]) ++ (chk :: plain) ++ rest)).
Proof.
  intros Hp Hb Hci Hlen HL chk plain. unfold Decode.
  rewrite (GetNetHeader_spec p [c; u8 len; u8 (len / 256); rk; b] (cipher ++ rest))
    by (rewrite ?Hp; done).
  cbn [mbind outcome_bind]. unfold NetHeader.of_bytes.
  cbn [NetHeader.len NetHeader.randKey NetHeader.chkSum nth]. rewrite le_num_2 by done.
  replace (Z.to_nat (len + 1)) with (length (b :: cipher)) by (cbn [length]; lia).
  rewrite Hp. unfold GetPayloadPtr, NetHeader.sizeof.
  rewrite (decode_loop_spec _ (b :: cipher) rest 1 0 0 0 0 rk) by (constructor || done; done).
  cbn [mbind outcome_bind dec]. rewrite !Z.add_0_l. fold chk plain.
  rewrite (GetNetHeader_spec _ [c; u8 len; u8 (len / 256); rk; chk] (plain ++ rest)) by done.
  cbn [mbind outcome_bind]. unfold NetHeader.of_bytes.
  cbn [NetHeader.len NetHeader.randKey NetHeader.chkSum nth pBuffer set_buffer].
  rewrite le_num_2 by done.
  replace (Z.to_nat len) with (length plain) by (unfold plain; rewrite length_dec; lia).
  edestruct (sum_loop_spec (c :: le_bytes 2 len ++ [rk; chk]) plain rest 5 0) as (v & E & Hv);
    [done|].
  replace (sum_loop _ _ _ _) with (Ok v) by (symmetry; exact E).
  cbn [mbind outcome_bind]. rewrite u8_rem, Hv. done.
Qed.

(** Decoding a frame, wherever it came from. *)
Lemma Decode_frame p rk pay rest :
  pBuffer p = frame rk pay ++ rest -> is_byte rk -> Forall is_byte pay ->
  Z.of_nat (length pay) < 65536 ->
  Decode p =
    Ok (true, set_buffer p
       (NetHeader.bytes (NetHeader.mk dfPACKET_CODE (Z.of_nat (length pay)) rk (checksum pay)) ++
        pay ++ rest)).
Proof.
  intros Hp Hrk Hpay HL. unfold frame in Hp. cbn [enc] in Hp. rewrite !Z.add_0_l in Hp.
  set (b := Z.lxor (Z.lxor _ _) _) in Hp. set (r := Z.lxor (checksum pay) _) in Hp.
  assert (is_byte (checksum pay)) as Hck by apply is_byte_u8.
  rewrite (Decode_spec p dfPACKET_CODE (Z.of_nat (length pay)) rk b (enc rk 2 r b pay) rest);
    [|rewrite Hp; done|apply lxor_byte; [apply lxor_byte|]; auto using is_byte_u8|
      auto using enc_byte|lia|rewrite length_enc; done].
  assert (Z.lxor b (u8 (dfPACKET_KEY + 1)) = r) as -> by apply lxor_cancel.
  assert (Z.lxor r (u8 (rk + 1)) = checksum pay) as -> by apply lxor_cancel.
  rewrite dec_enc, Z.eqb_refl. do 3 f_equal. unfold NetHeader.bytes.
  cbn [NetHeader.code NetHeader.len NetHeader.randKey NetHeader.chkSum].
  rewrite (u8_byte rk Hrk), (u8_byte _ Hck). done.
Qed.

End frames.

(** ** Insertion and extraction *)
Section streams.
Import CNetPacket.

Lemma packet_ok_Clear p : packet_ok p -> packet_ok (Clear p).
Proof.
  intros (HL & HB & Hr & Hw).
  unfold packet_ok, Clear, NetHeader.sizeof in *. cbn. split_and!; try done; lia.
Qed.

Lemma packet_ok_new init :
  Z.of_nat (length init) = DEFAULT_SIZE -> Forall is_byte init -> packet_ok (new_default init).
Proof.
  intros. unfold packet_ok, new_default, DEFAULT_SIZE, NetHeader.sizeof in *.
  cbn [pBuffer pWritePos pReadPos cBufferSize]. split_and!; done || lia.
Qed.

Lemma SetData_spec p src n :
  packet_ok p -> Forall is_byte src -> 0 <= n <= Z.of_nat (length src) ->
  let k := Z.min n (cBufferSize p - pWritePos p) in
  exists p', SetData p src n = Ok (k, p') /\ packet_ok p' /\
    payload p' = payload p ++ take (Z.to_nat k) src /\
    unread p' = unread p ++ take (Z.to_nat k) src /\
    pReadPos p' = pReadPos p /\ pWritePos p' = pWritePos p + k /\
    isEncode p' = isEncode p /\ cBufferSize p' = cBufferSize p /\ refCount p' = refCount p.
Proof.
  intros (HL & HB & Hr & Hw) Hsrc Hn k. unfold SetData.
  set (sz := if _ <? _ then _ else _).
  assert (sz = k) as -> by (unfold sz, k; split_ifs; lia).
  unfold NetHeader.sizeof in *.
  rewrite memcpy_s_ok, drop_0 by lia.
  assert (length (take (Z.to_nat k) src) = Z.to_nat k) as Lk by (rewrite length_take; lia).
  rewrite mem_write_ok by lia. eexists; split; [done|].
  unfold packet_ok, payload, unread, NetHeader.sizeof, set_write, set_buffer.
  cbn [pBuffer pWritePos pReadPos isEncode cBufferSize refCount].
  split_and!; try done; try lia.
  - rewrite !length_app, Lk, length_take, length_drop. lia.
  - rewrite !Forall_app. auto using Forall_take, Forall_drop.
  - replace (Z.to_nat (pWritePos p + k - 5))
      with (Z.to_nat (pWritePos p) - 5 + length (take (Z.to_nat k) src))%nat by lia.
    rewrite slice_grow by lia. do 2 f_equal. lia.
  - replace (Z.to_nat (pWritePos p + k - pReadPos p))
      with (Z.to_nat (pWritePos p) - Z.to_nat (pReadPos p) + length (take (Z.to_nat k) src))%nat
      by lia.
    rewrite slice_grow by lia. do 2 f_equal. lia.
Qed.

Lemma GetData_spec p dest n :
  packet_ok p -> 0 <= n <= Z.of_nat (length dest) ->
  let k := Z.min n (pWritePos p - pReadPos p) in
  exists p', GetData p dest n =
      Ok (k, take (Z.to_nat k) (unread p) ++ drop (Z.to_nat k) dest, p') /\
    p' = set_read p (pReadPos p + k) /\ packet_ok p' /\
    unread p' = drop (Z.to_nat k) (unread p).
Proof.
  intros (HL & HB & Hr & Hw) Hn k. unfold GetData.
  set (sz := if _ <? _ then _ else _).
  assert (sz = k) as -> by (unfold sz, k; split_ifs; lia).
  unfold NetHeader.sizeof in *.
  rewrite memcpy_s_ok by lia.
  assert (take (Z.to_nat k) (drop (Z.to_nat (pReadPos p)) (pBuffer p)) =
          take (Z.to_nat k) (unread p)) as ->.
  { unfold unread. rewrite take_take. f_equal. lia. }
  edestruct (mem_write_prefix dest (take (Z.to_nat k) (unread p)) k) as (d & -> & _ & ->).
  { unfold unread. rewrite !length_take, length_drop. lia. }
  { lia. }
  eexists; split; [done|]. split; [done|].
  unfold packet_ok, unread, NetHeader.sizeof, set_read.
  cbn [pBuffer pWritePos pReadPos isEncode cBufferSize refCount].
  split_and!; try done; try lia.
  rewrite skipn_firstn_comm, drop_drop. f_equal; [lia|]. f_equal. lia.
Qed.

Lemma length_unread p : packet_ok p -> Z.of_nat (length (unread p)) = GetPayloadSize p.
Proof.
  intros (HL & _ & ? & ?). unfold unread, GetPayloadSize, NetHeader.sizeof in *.
  rewrite length_take, length_drop. lia.
Qed.

(** The values of a type, and the round trip of one value. *)
Definition in_range (ty : ctype) (v : Z) : Prop :=
  if is_signed ty then - 2 ^ (bits ty - 1) <= v < 2 ^ (bits ty - 1) else 0 <= v < 2 ^ bits ty.

Lemma bits_pos ty : 0 < bits ty.
Proof. destruct ty; reflexivity. Qed.

Lemma value_of_bytes ty v : in_range ty v -> value_of ty (le_bytes (sizeof ty) v) = v.
Proof.
  intros Hv. unfold value_of, conv, in_range in *. rewrite le_num_bytes. fold (bits ty).
  pose proof (bits_pos ty). destruct (is_signed ty).
  - rewrite (s_congr _ _ v) by apply u_u. apply s_small; done.
  - rewrite u_u. apply u_small; done.
Qed.

Lemma operator_in_spec ty p v :
  packet_ok p -> pWritePos p + Z.of_nat (sizeof ty) <= cBufferSize p ->
  exists p', operator_in ty p v = Ok p' /\ packet_ok p' /\
    payload p' = payload p ++ le_bytes (sizeof ty) v /\
    unread p' = unread p ++ le_bytes (sizeof ty) v /\ pReadPos p' = pReadPos p /\
    pWritePos p' = pWritePos p + Z.of_nat (sizeof ty) /\ cBufferSize p' = cBufferSize p /\
    isEncode p' = isEncode p.
Proof.
  intros Hok Hfit. unfold operator_in.
  destruct (SetData_spec p (le_bytes (sizeof ty) v) (Z.of_nat (sizeof ty)) Hok)
    as (p' & -> & Hok' & Hpl & Hun & ? & ? & ? & ? & _);
    [apply le_bytes_byte|rewrite length_le_bytes; lia|].
  rewrite Z.min_l, Nat2Z.id, firstn_all2 in * by (rewrite ?length_le_bytes; lia).
  cbn. eexists; split; [done|]. done.
Qed.

Lemma operator_out_spec ty p old bs rest :
  packet_ok p -> unread p = bs ++ rest -> length bs = sizeof ty ->
  exists p', operator_out ty p old =
      Ok (match ty with CLong => old | _ => value_of ty bs end, p') /\
    packet_ok p' /\ unread p' = rest /\ p' = set_read p (pReadPos p + Z.of_nat (sizeof ty)).
Proof.
  intros Hok Hun HL. unfold operator_out.
  pose proof (length_unread p Hok) as HU. rewrite Hun, length_app, HL in HU.
  unfold GetPayloadSize in HU.
  destruct (GetData_spec p (le_bytes (sizeof ty) old) (Z.of_nat (sizeof ty)) Hok)
    as (p' & -> & -> & Hok' & Hun'); [rewrite length_le_bytes; lia|].
  rewrite Z.min_l, Nat2Z.id in * by lia. cbn [mbind outcome_bind].
  rewrite (drop_ge (le_bytes _ _)), app_nil_r by (rewrite length_le_bytes; lia).
  rewrite Hun, take_app_length', drop_app_length' in * by done.
  exists (set_read p (pReadPos p + Z.of_nat (sizeof ty))).
  destruct ty; done.
Qed.

End streams.

(** ** Properties *)

(** Insertion and extraction of a list of typed values. *)
Module PacketStream.
Import CNetPacket.

Fixpoint put_all (p : t) (vs : list (ctype * Z)) : outcome t :=
  match vs with
  | [] => Ok p
  | (ty, v) :: vs => p ← operator_in ty p v; put_all p vs
  end.

(** Each variable holds [old] before the extraction. *)
Fixpoint get_all (p : t) (old : Z) (tys : list ctype) : outcome (list Z * t) :=
  match tys with
  | [] => Ok ([], p)
  | ty :: tys =>
      '(v, p) ← operator_out ty p old;
      '(vs, p) ← get_all p old tys;
      Ok (v :: vs, p)
  end.

Definition wire (vs : list (ctype * Z)) : list Z :=
  concat ((fun tv => le_bytes (sizeof tv.1) tv.2) <$> vs).

End PacketStream.

Section packet_properties.
Import CNetPacket PacketStream.

Lemma put_all_spec p vs :
  packet_ok p -> pWritePos p + Z.of_nat (length (wire vs)) <= cBufferSize p ->
  exists p', put_all p vs = Ok p' /\ packet_ok p' /\ unread p' = unread p ++ wire vs /\
    payload p' = payload p ++ wire vs /\ pReadPos p' = pReadPos p /\
    pWritePos p' = pWritePos p + Z.of_nat (length (wire vs)) /\
    cBufferSize p' = cBufferSize p /\ isEncode p' = isEncode p.
Proof.
  revert p. induction vs as [|[ty v] vs IH]; intros p Hok Hfit.
  { exists p. cbn. rewrite !app_nil_r. split_and!; try done; lia. }
  unfold wire in *. cbn [put_all fmap list_fmap concat fst snd] in *.
  rewrite length_app, length_le_bytes in *.
  destruct (operator_in_spec ty p v Hok) as (p1 & -> & Hok1 & Hpl1 & Hun1 & ? & ? & ? & ?); [lia|].
  cbn [mbind outcome_bind].
  destruct (IH p1 Hok1) as (p' & -> & Hok' & Hun & Hpl & ? & ? & ? & ?); [lia|].
  exists p'. rewrite Hun, Hpl, Hun1, Hpl1, <- !app_assoc.
  split_and!; try done; congruence || lia.
Qed.

Lemma get_all_spec p old vs rest :
  packet_ok p -> unread p = wire vs ++ rest ->
  Forall (fun tv => in_range tv.1 tv.2 /\ tv.1 <> CLong) vs ->
  exists p', get_all p old (vs.*1) = Ok (vs.*2, p') /\ packet_ok p' /\ unread p' = rest.
Proof.
  intros Hok Hun Hvs. revert p Hok Hun.
  induction Hvs as [|[ty v] vs [Hv Hty] _ IH]; intros p Hok Hun; [eauto|].
  unfold wire in *. cbn [fmap list_fmap concat get_all fst snd] in *.
  rewrite <- app_assoc in Hun.
  destruct (operator_out_spec ty p old _ _ Hok Hun) as (p1 & -> & Hok1 & Hun1 & _);
    [apply length_le_bytes|].
  destruct (IH p1 Hok1 Hun1) as (p' & E & Hok' & Hun').
  exists p'. split; [|done]. destruct ty; try done; cbn [mbind outcome_bind]; rewrite E;
    cbn [mbind outcome_bind]; rewrite value_of_bytes by done; done.
Qed.

(** C15 (roundtrip). A packet that holds only inserted data, encoded with any value
    of [rand()], is turned into the wire frame of its payload; decoding that frame
    accepts it and gives back the payload, with the header fields that were sent. *)
Theorem Encode_Decode_roundtrip (p : t) (rnd : Z) :
  packet_ok p -> pReadPos p = NetHeader.sizeof -> isEncode p = false ->
  pWritePos p - NetHeader.sizeof < 65536 ->
  let rk := u8 (Z.rem rnd 256) in
  exists p1 p2, Encode p rnd = Ok (None, p1) /\
    take (Z.to_nat (GetTotalSize p1)) (pBuffer p1) = frame rk (payload p) /\
    Decode p1 = Ok (true, p2) /\ payload p2 = payload p /\
    GetNetHeader p2 = Ok (NetHeader.mk dfPACKET_CODE (GetPayloadSize p) rk (checksum (payload p))).
Proof.
  intros Hok Hr He Hlen rk. rewrite (Encode_spec p rnd) by done. fold rk.
  pose proof (payload_byte p Hok) as Hb. pose proof (length_payload p Hok) as HL.
  set (p1 := set_isEncode _ true).
  assert (is_byte rk) as Hrk by apply is_byte_u8. unfold NetHeader.sizeof in *.
  pose proof (Decode_frame p1 rk (payload p) _ eq_refl Hrk Hb ltac:(lia)) as HD.
  exists p1. eexists; split; [done|]. split; [|split; [exact HD|]].
  - unfold GetTotalSize, p1. cbn [pBuffer pWritePos set_isEncode set_buffer].
    apply take_app_length'. rewrite length_frame. lia.
  - assert (GetPayloadSize p = Z.of_nat (length (payload p))) as -> by (unfold GetPayloadSize; lia).
    set (h := NetHeader.mk _ _ _ _). set (rest := drop _ _). split.
    + unfold payload at 1, NetHeader.sizeof. cbn [pBuffer set_buffer pWritePos p1 set_isEncode].
      rewrite drop_app_length' by done. apply take_app_length'. lia.
    + rewrite (GetNetHeader_spec _ (NetHeader.bytes h) (payload p ++ rest)) by done.
      unfold NetHeader.bytes, NetHeader.of_bytes, h. cbn [NetHeader.code NetHeader.len
        NetHeader.randKey NetHeader.chkSum le_bytes app nth].
      rewrite le_num_2 by lia. rewrite (u8_byte rk), (u8_byte (checksum _)) by
        (done || apply is_byte_u8). done.
Qed.

(** A small packet for the witnesses: eight bytes of buffer, payload [65; 200]. *)
Definition sample : t := mk [1; 2; 3; 4; 5; 65; 200; 9] 7 5 0 false 8.
Lemma sample_ok : packet_ok sample.
Proof.
  unfold packet_ok, sample, NetHeader.sizeof. cbn. split_and!; try lia.
  repeat constructor; unfold is_byte; lia.
Qed.

Lemma Encode_Decode_roundtrip_witness :
  let rk := u8 (Z.rem 300 256) in
  exists p1 p2, Encode sample 300 = Ok (None, p1) /\
    take (Z.to_nat (GetTotalSize p1)) (pBuffer p1) = frame rk (payload sample) /\
    Decode p1 = Ok (true, p2) /\ payload p2 = payload sample /\
    GetNetHeader p2 =
      Ok (NetHeader.mk dfPACKET_CODE (GetPayloadSize sample) rk (checksum (payload sample))).
Proof. apply (Encode_Decode_roundtrip sample 300 sample_ok); done || (cbn; lia). Defined.

(** C38 (functional). Whatever the bytes after the header say, [Decode] accepts them
    exactly when they are what [Encode] produces with the header's key for some
    payload: the length, key and checksum are consistent. *)
Theorem Decode_accepts_encodings_only (p : t) (code len rk : Z) (body rest : list Z) :
  pBuffer p = (code :: le_bytes 2 len ++ [rk]) ++ body ++ rest ->
  Forall is_byte body -> is_byte rk -> 0 <= len < 65536 ->
  Z.of_nat (length body) = len + 1 ->
  exists ok p', Decode p = Ok (ok, p') /\
    (ok = true <-> exists pay, body = enc rk 1 0 0 (checksum pay :: pay)).
Proof.
  intros Hp Hbody Hrk Hlen HL. destruct body as [|b cipher]; [cbn in HL; lia|].
  inversion Hbody as [|? ? Hb Hc]; subst. cbn [length] in HL.
  rewrite (Decode_spec p code len rk b cipher rest) by (done || lia).
  do 2 eexists. split; [done|]. set (chk := Z.lxor (Z.lxor b _) _). set (R := Z.lxor b _).
  assert (dec rk 1 0 0 (b :: cipher) = chk :: dec rk 2 b R cipher) as Hd.
  { cbn [dec]. rewrite !Z.add_0_l. done. }
  rewrite Z.eqb_eq. split.
  - intros E. exists (dec rk 2 b R cipher). rewrite <- E, <- Hd, enc_dec. done.
  - intros [pay E]. rewrite E, dec_enc in Hd. injection Hd as H1 H2. congruence.
Qed.

Lemma Decode_accepts_encodings_only_witness :
  let p := mk [119; 1; 0; 7; 10; 20; 9] 6 5 0 false 7 in
  exists ok p', Decode p = Ok (ok, p') /\
    (ok = true <-> exists pay, [10; 20] = enc 7 1 0 0 (checksum pay :: pay)).
Proof.
  apply (Decode_accepts_encodings_only _ 119 1 7 [10; 20] [9]); try done;
    repeat constructor; unfold is_byte; lia.
Defined.

(** C40 (roundtrip). Values in range of any mix of the overloaded types but [long],
    inserted with [operator<<] into a packet that holds nothing unread and has room for
    all of them, come out of [operator>>] in the same order with the same values. [long]
    is left out because [operator>>] loses it ([operator_out_long_is_lost]). *)
Theorem stream_roundtrip (p : t) (old : Z) (vs : list (ctype * Z)) :
  packet_ok p -> unread p = [] ->
  Forall (fun tv => in_range tv.1 tv.2 /\ tv.1 <> CLong) vs ->
  pWritePos p + Z.of_nat (length (wire vs)) <= cBufferSize p ->
  exists p1 p2, put_all p vs = Ok p1 /\ get_all p1 old (vs.*1) = Ok (vs.*2, p2) /\
    unread p2 = [].
Proof.
  intros Hok Hun Hvs Hfit.
  destruct (put_all_spec p vs Hok Hfit) as (p1 & E1 & Hok1 & Hun1 & _).
  rewrite Hun in Hun1.
  destruct (get_all_spec p1 old vs [] Hok1) as (p2 & E2 & _ & Hun2); eauto.
  rewrite Hun1, app_nil_r. done.
Qed.

Definition sample_empty : t := mk (replicate 40 170) 5 5 0 false 40.
Lemma sample_empty_ok : packet_ok sample_empty.
Proof.
  unfold packet_ok, sample_empty, NetHeader.sizeof. cbn. split_and!; try lia.
  repeat constructor; unfold is_byte; lia.
Qed.

Lemma stream_roundtrip_witness :
  let vs := [(CUShort, 102); (CInt64, -5); (CUChar, 1); (CInt, 70000)] in
  exists p1 p2, put_all sample_empty vs = Ok p1 /\
    get_all p1 0 (vs.*1) = Ok (vs.*2, p2) /\ unread p2 = [].
Proof.
  apply (stream_roundtrip sample_empty 0 _ sample_empty_ok); [done| |cbn; lia].
  repeat constructor; cbn; done || lia.
Defined.

(** [SetData] never writes past the buffer: it stores the prefix that
    fits, returns its length, and keeps the packet well formed. *)
Theorem SetData_stores_prefix (p : t) (pSrc : list Z) (srcSize : Z) :
  packet_ok p -> Forall is_byte pSrc -> 0 <= srcSize <= Z.of_nat (length pSrc) ->
  let k := Z.min srcSize (cBufferSize p - pWritePos p) in
  exists p', SetData p pSrc srcSize = Ok (k, p') /\ packet_ok p' /\
    payload p' = payload p ++ take (Z.to_nat k) pSrc /\ pReadPos p' = pReadPos p.
Proof.
  intros H1 H2 H3 k. destruct (SetData_spec p pSrc srcSize H1 H2 H3) as (p' & ? & ? & ? & _ & ? & _).
  eauto.
Qed.

Lemma SetData_stores_prefix_witness :
  let k := Z.min 3 (cBufferSize sample - pWritePos sample) in
  exists p', SetData sample [1; 2; 3] 3 = Ok (k, p') /\ packet_ok p' /\
    payload p' = payload sample ++ take (Z.to_nat k) [1; 2; 3] /\ pReadPos p' = pReadPos sample.
Proof.
  apply (SetData_stores_prefix sample); [apply sample_ok| |cbn; lia].
  repeat constructor; unfold is_byte; lia.
Defined.

(** Extraction from a packet that holds fewer bytes than the type
    needs does not fail: the remaining bytes replace the low bytes of the variable
    and its other bytes keep their old content. *)
Theorem operator_out_short (ty : ctype) (p : t) (old : Z) :
  packet_ok p -> ty <> CLong -> (length (unread p) < sizeof ty)%nat ->
  exists p', operator_out ty p old =
      Ok (value_of ty (unread p ++ drop (length (unread p)) (le_bytes (sizeof ty) old)), p') /\
    unread p' = [].
Proof.
  intros Hok Hty Hlt. unfold operator_out.
  pose proof (length_unread p Hok) as HU. unfold GetPayloadSize in HU.
  destruct (GetData_spec p (le_bytes (sizeof ty) old) (Z.of_nat (sizeof ty)) Hok)
    as (p' & -> & -> & Hok' & Hun'); [rewrite length_le_bytes; lia|].
  rewrite Z.min_r, <- HU, Nat2Z.id, firstn_all, drop_all in * by lia.
  eexists; split; [|exact Hun']. destruct ty; done.
Qed.

Lemma operator_out_short_witness :
  exists p', operator_out CInt sample 0x11223344 =
      Ok (value_of CInt (unread sample ++ drop (length (unread sample))
            (le_bytes (sizeof CInt) 0x11223344)), p') /\ unread p' = [].
Proof. apply (operator_out_short CInt sample); [apply sample_ok|done|vm_compute; lia]. Defined.

(** [operator>> (long)] takes its argument by value: the packet moves
    past the four bytes and the caller's variable keeps its old value, whatever was
    inserted. *)
Theorem operator_out_long_is_lost (p p1 : t) (v old : Z) :
  packet_ok p -> unread p = [] -> operator_in CLong p v = Ok p1 ->
  pWritePos p + 4 <= cBufferSize p ->
  exists p2, operator_out CLong p1 old = Ok (old, p2) /\ unread p2 = [].
Proof.
  intros Hok Hun E Hfit.
  destruct (operator_in_spec CLong p v Hok) as (p' & E' & Hok' & _ & Hun' & _); [cbn; lia|].
  rewrite E in E'. injection E' as <-. rewrite Hun in Hun'.
  destruct (operator_out_spec CLong p1 old _ [] Hok' ltac:(rewrite app_nil_r; exact Hun'))
    as (p2 & -> & _ & ? & _); [apply length_le_bytes|eauto].
Qed.

Lemma operator_out_long_is_lost_witness :
  exists p1, operator_in CLong sample_empty 7 = Ok p1 /\
  exists p2, operator_out CLong p1 99 = Ok (99, p2) /\ unread p2 = [].
Proof.
  eexists; split; [vm_compute; reflexivity|].
  eapply (operator_out_long_is_lost sample_empty _ 7 99 sample_empty_ok); reflexivity || (cbn; lia).
Defined.

(** The comment above [MoveWritePos] says that it does not move
    backwards; a negative size is not rejected: it moves [_pWritePos] back, below
    the header when it is large enough. *)
Theorem MoveWritePos_moves_back (p : t) (n : Z) :
  packet_ok p -> 0 < n ->
  exists p', MoveWritePos p (- n) = (- n, p') /\ pWritePos p' = pWritePos p - n /\
    (pWritePos p - pReadPos p < n -> ~ packet_ok p').
Proof.
  intros (? & ? & ? & ?) Hn. unfold MoveWritePos, GetTotalSize.
  replace (_ <? - n) with false by lia. eexists; split; [done|]. split; [cbn; lia|].
  intros Hlt (_ & _ & ? & _). cbn in *. lia.
Qed.

Lemma MoveWritePos_moves_back_witness :
  exists p', MoveWritePos sample (- 3) = (- 3, p') /\ pWritePos p' = pWritePos sample - 3 /\
    (pWritePos sample - pReadPos sample < 3 -> ~ packet_ok p').
Proof. apply (MoveWritePos_moves_back sample 3 sample_ok). lia. Defined.

End packet_properties.
