(* ===== verification/PacketTypes.v ===== *)
(** * Typing of the packet operations

    The object invariant of [CNetPacket] ([packet_ok]: positions in order and inside
    the buffer, bytes in it) and its operations as one language: which uses are in
    order, and that those return, keep the invariant and give values of their type. *)
From S2P Require Import Prelude.
From S2P Require Import NetPacket.
From stdpp Require Import prelude list.
From Stdlib Require Import ZArith Lia.
Open Scope Z_scope.
Import CNetPacket.

Inductive packet_op :=
  | OpClear
  | OpAddRefCount
  | OpMoveWritePos (n : Z)
  | OpMoveReadPos (n : Z)
  | OpSetData (pSrc : list Z) (n : Z)
  | OpGetData (pDest : list Z) (n : Z)
  | OpIn (ty : ctype) (v : Z)
  | OpOut (ty : ctype) (old : Z)
  | OpSetNetHeader (h : NetHeader.t)
  | OpEncode (rnd : Z)
  | OpDecode.

(** The operation, and the value an extraction leaves in its variable. *)
Definition run_op (p : t) (o : packet_op) : outcome (option Z * t) :=
  match o with
  | OpClear => Ok (None, Clear p)
  | OpAddRefCount => Ok (None, AddRefCount p)
  | OpMoveWritePos n => Ok (None, (MoveWritePos p n).2)
  | OpMoveReadPos n => Ok (None, (MoveReadPos p n).2)
  | OpSetData src n => '(_, p) ← SetData p src n; Ok (None, p)
  | OpGetData dest n => '(_, _, p) ← GetData p dest n; Ok (None, p)
  | OpIn ty v => p ← operator_in ty p v; Ok (None, p)
  | OpOut ty old => '(v, p) ← operator_out ty p old; Ok (Some v, p)
  | OpSetNetHeader h => p ← SetNetHeader p h; Ok (None, p)
  | OpEncode rnd => '(_, p) ← Encode p rnd; Ok (None, p)
  | OpDecode => '(_, p) ← Decode p; Ok (None, p)
  end.

(** What the caller owes: no backward moves, objects as large as it says, a variable of
    the type, and before [Decode] a header whose length fits in the buffer. *)
Definition op_ok (p : t) (o : packet_op) : Prop :=
  match o with
  | OpMoveWritePos n | OpMoveReadPos n => 0 <= n
  | OpSetData src n => Forall is_byte src /\ 0 <= n <= Z.of_nat (length src)
  | OpGetData dest n => 0 <= n <= Z.of_nat (length dest)
  | OpOut ty old => in_range ty old
  | OpDecode => exists h, GetNetHeader p = Ok h /\ NetHeader.sizeof + NetHeader.len h <= cBufferSize p
  | _ => True
  end.

(** ** The loops return *)
Lemma write_byte buf off x :
  0 <= off < Z.of_nat (length buf) -> Forall is_byte buf ->
  exists buf', mem_write buf off [u8 x] = Ok buf' /\ length buf' = length buf /\ Forall is_byte buf'.
Proof.
  intros Ho Hb. rewrite mem_write_ok by (cbn; lia). eexists. split; [done|]. split.
  - rewrite !length_app, length_take, length_drop. cbn. lia.
  - rewrite !Forall_app. split_and!; [apply Forall_take, Hb| |apply Forall_drop, Hb].
    constructor; [apply is_byte_u8|constructor].
Qed.

Lemma sum_loop_total buf n : forall off acc,
  0 <= off -> off + Z.of_nat n <= Z.of_nat (length buf) -> exists v, sum_loop buf off n acc = Ok v.
Proof.
  induction n as [|n IH]; intros off acc Ho Hl; cbn [sum_loop]; [eauto|].
  rewrite mem_read_ok by lia. rewrite bind_Ok. apply IH; lia.
Qed.

Lemma encode_loop_total n : forall buf off cnt R P rk,
  0 <= off -> off + Z.of_nat n <= Z.of_nat (length buf) -> Forall is_byte buf ->
  exists buf', encode_loop buf off n cnt R P rk = Ok buf' /\ length buf' = length buf /\ Forall is_byte buf'.
Proof.
  induction n as [|n IH]; intros buf off cnt R P rk Ho Hl Hb; cbn [encode_loop]; [eauto|].
  rewrite mem_read_ok by lia. rewrite bind_Ok. cbv zeta.
  match goal with |- context [mem_write buf off [u8 ?x]] =>
    destruct (write_byte buf off x) as (b1 & -> & Hl1 & Hb1); [lia|done|] end.
  rewrite bind_Ok. edestruct (IH b1 (off + 1)) as (b2 & -> & Hl2 & Hb2); [lia|lia|done|].
  exists b2. split_and!; [done|congruence|done].
Qed.

Lemma decode_loop_total n : forall buf off cnt R P rk,
  0 <= off -> off + Z.of_nat n <= Z.of_nat (length buf) -> Forall is_byte buf ->
  exists buf', decode_loop buf off n cnt R P rk = Ok buf' /\ length buf' = length buf /\ Forall is_byte buf' /\
    (forall i, Z.of_nat i < off -> buf' !! i = buf !! i).
Proof.
  induction n as [|n IH]; intros buf off cnt R P rk Ho Hl Hb; cbn [decode_loop]; [eauto 6|].
  rewrite mem_read_ok by lia. rewrite bind_Ok. cbv zeta.
  match goal with |- context [mem_write buf off [u8 ?x]] =>
    destruct (write_byte buf off x) as (b1 & E1 & Hl1 & Hb1); [lia|done|] end.
  rewrite E1, bind_Ok. edestruct (IH b1 (off + 1)) as (b2 & -> & Hl2 & Hb2 & Hi2); [lia|lia|done|].
  exists b2. split_and!; [done|congruence|done|]. intros i Hi. rewrite Hi2 by lia.
  apply (mem_write_lookup_out _ _ _ _ _ E1). lia.
Qed.

(** ** One operation at a time *)
Lemma set_buffer_ok p buf :
  packet_ok p -> length buf = length (pBuffer p) -> Forall is_byte buf -> packet_ok (set_buffer p buf).
Proof. intros (Hl & _ & Hr & Hw) El Hb. unfold packet_ok. cbn. rewrite El. done. Qed.

Lemma header_room p : packet_ok p -> NetHeader.sizeof <= Z.of_nat (length (pBuffer p)).
Proof. intros (Hl & _ & Hr & Hw). lia. Qed.

Lemma SetNetHeader_total p h :
  packet_ok p -> exists buf, SetNetHeader p h = Ok (set_buffer p buf) /\ length buf = length (pBuffer p) /\ Forall is_byte buf.
Proof.
  intros Hok. destruct (buffer_split p Hok) as (hd & Hhd & Hb).
  rewrite (SetNetHeader_spec p h hd _ Hb Hhd). eexists. split; [done|]. split.
  - pose proof (f_equal length Hb) as E. rewrite length_app, Hhd in E. rewrite E. done.
  - apply Forall_app. destruct Hok as (_ & HB & _). rewrite Hb in HB. apply Forall_app in HB as [_ HB].
    split; [|done]. unfold NetHeader.bytes. apply Forall_app. split; [repeat constructor; apply is_byte_u8|].
    apply Forall_app. split; [apply le_bytes_byte|]. repeat constructor; apply is_byte_u8.
Qed.

Lemma GetNetHeader_total p : packet_ok p -> exists h, GetNetHeader p = Ok h.
Proof.
  intros Hok. destruct (buffer_split p Hok) as (hd & Hhd & Hb). rewrite (GetNetHeader_spec p hd _ Hb Hhd). eauto.
Qed.

Lemma Encode_total p rnd :
  packet_ok p -> exists r p', Encode p rnd = Ok (r, p') /\ packet_ok p' /\ cBufferSize p' = cBufferSize p.
Proof.
  intros Hok. unfold Encode. destruct (isEncode p); [eauto|]. cbv zeta.
  pose proof Hok as (Hl & Hb & Hr & Hw). pose proof (header_room p Hok) as Hh.
  unfold GetPayloadSize, GetPayloadPtr, NetHeader.sizeof in *. cbn [pBuffer pWritePos pReadPos set_isEncode].
  set (len := u16 (pWritePos p - pReadPos p)).
  assert (Hlen : 0 <= len <= pWritePos p - pReadPos p) by (unfold len; split; [apply u_range|apply Z.mod_le]; lia).
  destruct (sum_loop_total (pBuffer p) (Z.to_nat len) 5 0) as (v & ->); [lia|lia|]. rewrite bind_Ok.
  assert (Hok1 : packet_ok (set_isEncode p true)) by exact Hok.
  match goal with |- context [SetNetHeader _ ?h] =>
    destruct (SetNetHeader_total (set_isEncode p true) h Hok1) as (buf & -> & Hlb & Hbb) end.
  rewrite bind_Ok. cbn [pBuffer set_buffer]. cbn [pBuffer set_isEncode] in Hlb.
  match goal with |- context [encode_loop buf ?off ?n ?c ?R ?P ?rk] =>
    destruct (encode_loop_total n buf off c R P rk) as (buf2 & -> & Hl2 & Hb2); [lia|rewrite Hlb; lia|done|] end.
  rewrite bind_Ok. eexists None, _. split; [done|]. split; [|done].
  unfold packet_ok. cbn. rewrite Hl2, Hlb. done.
Qed.

(** [Decode] reads the length a second time, after the loop; it is the same. *)
Lemma Decode_total p h :
  packet_ok p -> GetNetHeader p = Ok h -> NetHeader.sizeof + NetHeader.len h <= cBufferSize p ->
  exists r p', Decode p = Ok (r, p') /\ packet_ok p' /\ cBufferSize p' = cBufferSize p.
Proof.
  intros Hok Eh Hlen. pose proof Hok as (Hl & Hb & Hr & Hw). unfold Decode. rewrite Eh, bind_Ok.
  destruct (buffer_split p Hok) as (hd & Hhd & Hsp). rewrite (GetNetHeader_spec p hd _ Hsp Hhd) in Eh. injection Eh as <-.
  destruct hd as [|h0 [|h1 [|h2 [|h3 [|h4 [|? hd]]]]]]; try done. clear Hhd.
  unfold NetHeader.of_bytes in *. cbn [nth NetHeader.len NetHeader.randKey] in *.
  set (len := le_num [h1; h2]) in *. unfold GetPayloadPtr, NetHeader.sizeof in *.
  destruct (decode_loop_total (Z.to_nat (len + 1)) (pBuffer p) 4 1 0 0 h3) as (buf & E & Hl1 & Hb1 & Hi1); [lia|lia|done|].
  change (5 - 1) with 4. rewrite E, bind_Ok.
  assert (Hok1 : packet_ok (set_buffer p buf)) by (apply set_buffer_ok; done).
  destruct (buffer_split _ Hok1) as (hd & Hhd & Hsp1). rewrite (GetNetHeader_spec _ hd _ Hsp1 Hhd), bind_Ok.
  destruct hd as [|g0 [|g1 [|g2 [|g3 [|g4 [|? hd]]]]]]; try done. clear Hhd.
  assert (Hg : g1 = h1 /\ g2 = h2).
  { pose proof (Hi1 1%nat ltac:(lia)) as H1. pose proof (Hi1 2%nat ltac:(lia)) as H2.
    cbn [pBuffer set_buffer] in Hsp1. rewrite Hsp, Hsp1 in H1, H2. injection H1 as ->. injection H2 as ->. done. }
  destruct Hg as [-> ->]. unfold NetHeader.of_bytes. cbn [nth NetHeader.len NetHeader.chkSum pBuffer set_buffer]. fold len.
  destruct (sum_loop_total buf (Z.to_nat len) 5 0) as (v & ->); [lia|lia|]. rewrite bind_Ok.
  eexists _, _. split; [done|]. split; [exact Hok1|done].
Qed.

Lemma value_of_range ty bs : in_range ty (value_of ty bs).
Proof.
  unfold in_range, value_of, conv. pose proof (bits_pos ty). destruct (is_signed ty); [apply s_range|apply u_range]; lia.
Qed.

Lemma operator_out_typed p ty old :
  packet_ok p -> in_range ty old ->
  exists v p', operator_out ty p old = Ok (v, p') /\ packet_ok p' /\ cBufferSize p' = cBufferSize p /\ in_range ty v.
Proof.
  intros Hok Hold. unfold operator_out.
  destruct (GetData_spec p (le_bytes (sizeof ty) old) (Z.of_nat (sizeof ty)) Hok) as (p' & -> & Ep & Hok' & _);
    [rewrite length_le_bytes; lia|].
  rewrite bind_Ok. assert (Ec : cBufferSize p' = cBufferSize p) by (rewrite Ep; done).
  destruct (decide (ty = CLong)) as [->|Hne]; [exists old, p'; done|].
  match goal with |- context [value_of ty ?d] => exists (value_of ty d), p' end.
  split; [destruct ty; done|]. split_and!; [done..|apply value_of_range].
Qed.

(** The value an operation gives has the type of its variable. *)
Definition typed (o : packet_op) (v : option Z) : Prop :=
  match o, v with
  | OpOut ty _, Some v => in_range ty v
  | OpOut _ _, None | _, Some _ => False
  | _, None => True
  end.

Lemma run_op_typed p o :
  packet_ok p -> op_ok p o ->
  exists v p', run_op p o = Ok (v, p') /\ typed o v /\ packet_ok p' /\ cBufferSize p' = cBufferSize p.
Proof.
  intros Hok Ho. pose proof Hok as (Hl & Hb & Hr & Hw). destruct o as [| |n|n|src n|dest n|ty v|ty old|h|rnd|]; cbn [run_op op_ok typed] in *.
  - exists None, (Clear p). split_and!; [done|done|apply packet_ok_Clear, Hok|done].
  - exists None, (AddRefCount p). done.
  - eexists None, _. split_and!; [done|done| |done]. unfold packet_ok, MoveWritePos, GetTotalSize. cbn.
    destruct (_ <? n) eqn:E; split_and!; done || lia.
  - eexists None, _. split_and!; [done|done| |done]. unfold packet_ok, MoveReadPos. cbn.
    destruct (_ <? n) eqn:E; split_and!; done || lia.
  - destruct Ho as [Hs Hn]. destruct (SetData_spec p src n Hok Hs Hn) as (p' & -> & ? & _ & _ & _ & _ & _ & ? & _).
    rewrite bind_Ok. exists None, p'. done.
  - destruct (GetData_spec p dest n Hok Ho) as (p' & -> & -> & ? & _). rewrite bind_Ok. eexists None, _. done.
  - unfold operator_in. destruct (SetData_spec p (le_bytes (sizeof ty) v) (Z.of_nat (sizeof ty)) Hok)
      as (p' & -> & ? & _ & _ & _ & _ & _ & ? & _); [apply le_bytes_byte|rewrite length_le_bytes; lia|].
    rewrite !bind_Ok. exists None, p'. done.
  - destruct (operator_out_typed p ty old Hok Ho) as (v & p' & -> & ? & ? & ?). rewrite bind_Ok. exists (Some v), p'. done.
  - destruct (SetNetHeader_total p h Hok) as (buf & -> & ? & ?). rewrite bind_Ok. eexists None, _.
    split_and!; [done|done|apply set_buffer_ok; done|done].
  - destruct (Encode_total p rnd Hok) as (r & p' & -> & ? & ?). rewrite bind_Ok. exists None, p'. done.
  - destruct Ho as (h & Hh & Hlen). destruct (Decode_total p h Hok Hh Hlen) as (r & p' & -> & ? & ?).
    rewrite bind_Ok. exists None, p'. done.
Qed.

(** ** Sequences *)
Fixpoint run_ops (p : t) (os : list packet_op) : outcome (list (option Z) * t) :=
  match os with
  | [] => Ok ([], p)
  | o :: os => '(v, p) ← run_op p o; '(vs, p) ← run_ops p os; Ok (v :: vs, p)
  end.

(** Each operation is in order in the packet the ones before leave. *)
Fixpoint ops_ok (p : t) (os : list packet_op) : Prop :=
  match os with
  | [] => True
  | o :: os => op_ok p o /\ forall v p', run_op p o = Ok (v, p') -> ops_ok p' os
  end.

(** C39: packets are well typed. From a well-formed packet any sequence of the
    operations of [CNetPacket] that are used in order (moves not backward, objects as
    large as the caller says, and before [Decode] a header whose length fits in the
    buffer) returns without a fault, leaves a well-formed packet with the same buffer
    size, and every extraction gives a value of the type of its variable, however much
    is left in the packet. *)
Theorem packet_operations_typed (p : t) (os : list packet_op) :
  packet_ok p -> ops_ok p os ->
  exists vs p', run_ops p os = Ok (vs, p') /\ Forall2 typed os vs /\ packet_ok p' /\ cBufferSize p' = cBufferSize p.
Proof.
  revert p. induction os as [|o os IH]; intros p Hok Ho; [exists [], p; done|].
  destruct Ho as [Ho Hos]. destruct (run_op_typed p o Hok Ho) as (v & p1 & E & Hv & Hok1 & Ec1).
  destruct (IH p1 Hok1 (Hos v p1 E)) as (vs & p2 & E2 & Hvs & Hok2 & Ec2).
  exists (v :: vs), p2. cbn [run_ops]. rewrite E, bind_Ok, E2, bind_Ok.
  split_and!; [done|constructor; done|done|congruence].
Qed.

Lemma packet_operations_typed_witness :
  let p := new_sized 16 (replicate 16 170) in
  let os := [OpIn CInt 7; OpIn CInt64 (-1); OpEncode 300; OpOut CShort 5; OpMoveReadPos 99; OpOut CUInt 9] in
  exists vs p', run_ops p os = Ok (vs, p') /\ Forall2 typed os vs /\ packet_ok p' /\ cBufferSize p' = cBufferSize p.
Proof.
  intros p os. apply packet_operations_typed.
  - unfold packet_ok, p, new_sized, NetHeader.sizeof. cbn. split_and!; try lia. repeat constructor; unfold is_byte; lia.
  - cbn [ops_ok os op_ok]. split; [done|]. intros _ p1 _. split; [done|]. intros _ p2 _. split; [done|]. intros _ p3 _.
    split; [vm_compute; intuition discriminate|]. intros _ p4 _. split; [lia|]. intros _ p5 _.
    split; [vm_compute; intuition discriminate|]. done.
Defined.
