(* ===== verification/Text.v ===== *)
(** * Text: string literals and decimal numbers

    C strings as byte lists, and the decimal text that [%lld] and [std::to_string]
    give, with the parser that reads it back. *)
From S2P Require Import Prelude.
From stdpp Require Import prelude list list_numbers.
From Stdlib Require Import ZArith Lia String Ascii.
Open Scope Z_scope.

Module Text.

(** The bytes of a string literal, without its terminator. *)
Fixpoint of_string (s : string) : list Z :=
  match s with
  | EmptyString => []
  | String a s => Z.of_N (N_of_ascii a) :: of_string s
  end.

(** A C string: the bytes before the first zero. *)
Fixpoint c_str (bs : list Z) : list Z :=
  match bs with
  | [] => []
  | b :: bs => if b =? 0 then [] else b :: c_str bs
  end.

(** ** Decimal numbers *)

(** The digits of [n], at most [fuel] of them, before [acc]. *)
Fixpoint digits (fuel : nat) (n : Z) (acc : list Z) : list Z :=
  match fuel with
  | O => acc
  | S fuel =>
      let acc := (48 + n mod 10) :: acc in
      if n <? 10 then acc else digits fuel (n / 10) acc
  end.

(** Twenty digits are enough for 64-bit numbers. *)
Definition unsigned (n : Z) : list Z := digits 20 n [].
Definition decimal (n : Z) : list Z := if n <? 0 then 45 :: unsigned (- n) else unsigned n.

Definition is_digit (b : Z) : bool := (48 <=? b) && (b <=? 57).
Definition number (bs : list Z) : Z := fold_left (fun n b => 10 * n + (b - 48)) bs 0.
Definition parse (bs : list Z) : option Z :=
  match bs with
  | [] => None
  | b :: ds =>
      if b =? 45
      then if negb (forallb is_digit ds) || bool_decide (ds = []) then None else Some (- number ds)
      else if forallb is_digit bs then Some (number bs) else None
  end.

(** ** Lemmas *)
Lemma digits_spec fuel : forall n acc,
  0 <= n < 10 ^ Z.of_nat fuel -> (0 < fuel)%nat ->
  exists ds, digits fuel n acc = ds ++ acc /\ ds <> [] /\ forallb is_digit ds = true /\ number ds = n /\
    (forall k, 0 <= k -> Z.of_nat (List.length ds) <= k + 1 <-> n < 10 ^ (k + 1)).
Proof.
  induction fuel as [|fuel IH]; intros n acc Hn Hf; [lia|]. cbn [digits].
  assert (Hd : is_digit (48 + n mod 10) = true).
  { pose proof (Z.mod_pos_bound n 10). unfold is_digit. apply andb_true_iff. lia. }
  destruct (n <? 10) eqn:E.
  - exists [48 + n mod 10]. split; [done|]. split; [done|]. cbn. rewrite Hd.
    rewrite Z.mod_small by zlia. split_and!; [done|lia|]. intros k Hk. b2p. split; [|lia]. intros _.
    rewrite Z.pow_add_r by lia. pose proof (Z.pow_pos_nonneg 10 k). lia.
  - b2p. rewrite Nat2Z.inj_succ, Z.pow_succ_r in Hn by lia.
    assert (Hf' : (0 < fuel)%nat) by (destruct fuel; [cbn in Hn; lia|lia]).
    destruct (IH (n / 10) ((48 + n mod 10) :: acc)) as (ds & -> & Hne & Hds & Hnum & Hlen).
    { split; [apply Z.div_pos; lia|apply Z.div_lt_upper_bound; lia]. }
    { done. }
    pose proof (Z.div_mod n 10 ltac:(lia)) as Hdm. pose proof (Z.mod_pos_bound n 10 ltac:(lia)) as Hmb.
    exists (ds ++ [48 + n mod 10]). split; [by rewrite <- app_assoc|]. split; [by destruct ds|].
    split; [rewrite forallb_app, Hds; cbn; rewrite Hd; done|].
    split; [unfold number in *; rewrite fold_left_app, Hnum; cbn; lia|].
    intros k Hk. rewrite length_app, Nat2Z.inj_add. cbn [List.length].
    destruct (decide (k = 0)) as [->|Hk0].
    + destruct ds; [done|]. cbn [List.length]. change (10 ^ (0 + 1)) with 10. lia.
    + specialize (Hlen (k - 1)). replace (k - 1 + 1) with k in Hlen by lia.
      rewrite Z.pow_add_r by lia. change (10 ^ 1) with 10. lia.
Qed.

Lemma unsigned_spec n :
  0 <= n < 2 ^ 64 ->
  unsigned n <> [] /\ forallb is_digit (unsigned n) = true /\ number (unsigned n) = n /\
  (forall k, 0 <= k -> Z.of_nat (List.length (unsigned n)) <= k + 1 <-> n < 10 ^ (k + 1)).
Proof.
  intros Hn. unfold unsigned. destruct (digits_spec 20 n []) as (ds & -> & ? & ? & ? & ?).
  - change (10 ^ Z.of_nat 20) with 100000000000000000000. lia.
  - lia.
  - rewrite app_nil_r. done.
Qed.

Lemma digit_head bs b : forallb is_digit (b :: bs) = true -> b <> 45.
Proof. cbn. unfold is_digit. intros [[H1 H2]%andb_true_iff _]%andb_true_iff. lia. Qed.

Lemma parse_decimal n : - 2 ^ 63 <= n < 2 ^ 64 -> parse (decimal n) = Some n.
Proof.
  intros Hn. unfold decimal. destruct (n <? 0) eqn:E; b2p.
  - destruct (unsigned_spec (- n)) as (Hne & Hd & Hnum & _); [lia|].
    cbn [parse]. change (45 =? 45) with true. cbn iota. rewrite Hd. cbn [negb orb].
    rewrite bool_decide_false by done. f_equal. lia.
  - destruct (unsigned_spec n) as (Hne & Hd & Hnum & _); [lia|].
    destruct (unsigned n) as [|b ds] eqn:Eu; [done|]. unfold parse.
    pose proof (digit_head _ _ Hd). replace (b =? 45) with false by lia. rewrite Hd, Hnum. done.
Qed.

Lemma digit_bytes ds : forallb is_digit ds = true -> Forall is_byte ds.
Proof.
  rewrite Forall_forall. intros Hd x Hx. rewrite forallb_forall in Hd.
  specialize (Hd x (proj1 (list_elem_of_In _ _) Hx)). unfold is_digit, is_byte in *. b2p. lia.
Qed.

Lemma decimal_bytes n : - 2 ^ 63 <= n < 2 ^ 64 -> Forall is_byte (decimal n).
Proof.
  intros Hn. unfold decimal. destruct (n <? 0) eqn:E; b2p.
  - constructor; [unfold is_byte; lia|]. apply digit_bytes, unsigned_spec. lia.
  - apply digit_bytes, unsigned_spec. lia.
Qed.

(** A number and its terminator fit in ten characters below nine digits and a sign. *)
Lemma decimal_fits_ten n :
  - 2 ^ 63 <= n < 2 ^ 63 -> Z.of_nat (List.length (decimal n)) < 10 <-> - 10 ^ 8 < n < 10 ^ 9.
Proof.
  intros Hn. unfold decimal. destruct (n <? 0) eqn:E; b2p; cbn [List.length].
  - destruct (unsigned_spec (- n)) as (_ & _ & _ & Hl); [lia|]. specialize (Hl 7).
    change (10 ^ (7 + 1)) with 100000000 in Hl. change (10 ^ 8) with 100000000. lia.
  - destruct (unsigned_spec n) as (_ & _ & _ & Hl); [lia|]. specialize (Hl 8).
    change (10 ^ (8 + 1)) with 1000000000 in Hl. change (10 ^ 9) with 1000000000. lia.
Qed.

Lemma of_string_bytes s : Forall is_byte (of_string s).
Proof.
  induction s as [|a s IH]; [constructor|]. constructor; [|done]. cbn. unfold is_byte.
  pose proof (N_ascii_bounded a). lia.
Qed.

Lemma c_str_bytes bs : Forall is_byte bs -> Forall is_byte (c_str bs).
Proof. induction 1 as [|b bs ? ? IH]; cbn; [constructor|]. destruct (b =? 0); constructor; done. Qed.

Lemma c_str_nonzero bs : (0 ∉ c_str bs).
Proof.
  induction bs as [|b bs IH]; cbn; [apply not_elem_of_nil|]. destruct (Z.eqb_spec b 0); [apply not_elem_of_nil|].
  rewrite elem_of_cons. intros [?|?]; [lia|done].
Qed.

End Text.
