(* ===== verification/Protocol.v ===== *)
(** * The messages of [CommonProtocol.h]

    The enumerations, with the values C++ gives their enumerators, and the layouts of
    the messages the header documents. No code of the repository reads or writes messages
    by layout; what a layout means is said here with a printer and a reader, which the
    theorems about the login messages use to say what is in a packet. *)
From S2P Require Import Prelude.
From stdpp Require Import prelude list list_numbers.
From Stdlib Require Import ZArith Lia.
Open Scope Z_scope.

(** ** Enumerations *)

(** An enumerator without a value is one more than the one before it. *)
Section enumerations.
Context {E : Type} `{EqDecision E}.

Fixpoint number_from (next : Z) (decl : list (E * option Z)) : list (E * Z) :=
  match decl with
  | [] => []
  | (e, v) :: decl => let z := default next v in (e, z) :: number_from (z + 1) decl
  end.

Definition value_in (decl : list (E * option Z)) (e : E) : Z :=
  default 0 (snd <$> head (filter (fun ez => ez.1 = e) (number_from 0 decl))).

End enumerations.

Inductive en_PACKET_TYPE :=
  | en_PACKET_CS_CHAT_SERVER
  | en_PACKET_CS_CHAT_REQ_LOGIN
  | en_PACKET_CS_CHAT_RES_LOGIN
  | en_PACKET_CS_CHAT_REQ_SECTOR_MOVE
  | en_PACKET_CS_CHAT_RES_SECTOR_MOVE
  | en_PACKET_CS_CHAT_REQ_MESSAGE
  | en_PACKET_CS_CHAT_RES_MESSAGE
  | en_PACKET_CS_CHAT_REQ_HEARTBEAT
  | en_PACKET_CS_LOGIN_SERVER
  | en_PACKET_CS_LOGIN_REQ_LOGIN
  | en_PACKET_CS_LOGIN_RES_LOGIN
  | en_PACKET_CS_GAME_SERVER.
#[export] Instance en_PACKET_TYPE_eq_dec : EqDecision en_PACKET_TYPE.
Proof. solve_decision. Defined.

Definition packet_types : list (en_PACKET_TYPE * option Z) := [
  (en_PACKET_CS_CHAT_SERVER, Some 0);
  (en_PACKET_CS_CHAT_REQ_LOGIN, None);
  (en_PACKET_CS_CHAT_RES_LOGIN, None);
  (en_PACKET_CS_CHAT_REQ_SECTOR_MOVE, None);
  (en_PACKET_CS_CHAT_RES_SECTOR_MOVE, None);
  (en_PACKET_CS_CHAT_REQ_MESSAGE, None);
  (en_PACKET_CS_CHAT_RES_MESSAGE, None);
  (en_PACKET_CS_CHAT_REQ_HEARTBEAT, None);
  (en_PACKET_CS_LOGIN_SERVER, Some 100);
  (en_PACKET_CS_LOGIN_REQ_LOGIN, None);
  (en_PACKET_CS_LOGIN_RES_LOGIN, None);
  (en_PACKET_CS_GAME_SERVER, Some 1000)].

Definition packet_type (t : en_PACKET_TYPE) : Z := value_in packet_types t.

(** [en_PACKET_CS_LOGIN_RES_LOGIN], the [Status] of a login response. *)
Inductive login_status :=
  | dfLOGIN_STATUS_NONE
  | dfLOGIN_STATUS_FAIL
  | dfLOGIN_STATUS_OK
  | dfLOGIN_STATUS_GAME
  | dfLOGIN_STATUS_ACCOUNT_MISS
  | dfLOGIN_STATUS_SESSION_MISS
  | dfLOGIN_STATUS_STATUS_MISS
  | dfLOGIN_STATUS_NOSERVER.

Definition login_status_value (s : login_status) : Z :=
  match s with
  | dfLOGIN_STATUS_NONE => -1
  | dfLOGIN_STATUS_FAIL => 0
  | dfLOGIN_STATUS_OK => 1
  | dfLOGIN_STATUS_GAME => 2
  | dfLOGIN_STATUS_ACCOUNT_MISS => 3
  | dfLOGIN_STATUS_SESSION_MISS => 4
  | dfLOGIN_STATUS_STATUS_MISS => 5
  | dfLOGIN_STATUS_NOSERVER => 6
  end.

(** [en_PACKET_CS_GAME_RES_LOGIN]. *)
Inductive game_login :=
  | dfGAME_LOGIN_FAIL | dfGAME_LOGIN_OK | dfGAME_LOGIN_NOCHARACTER | dfGAME_LOGIN_VERSION_MISS.

Definition game_login_value (s : game_login) : Z :=
  match s with
  | dfGAME_LOGIN_FAIL => 0
  | dfGAME_LOGIN_OK => 1
  | dfGAME_LOGIN_NOCHARACTER => 2
  | dfGAME_LOGIN_VERSION_MISS => 3
  end.

(** [en_PACKET_SS_LOGINSERVER_LOGIN]. *)
Inductive server_type := dfSERVER_TYPE_GAME | dfSERVER_TYPE_CHAT | dfSERVER_TYPE_MONITOR.

Definition server_type_value (s : server_type) : Z :=
  match s with dfSERVER_TYPE_GAME => 1 | dfSERVER_TYPE_CHAT => 2 | dfSERVER_TYPE_MONITOR => 3 end.

(** [en_PACKET_SS_HEARTBEAT]. *)
Inductive thread_type := dfTHREAD_TYPE_WORKER | dfTHREAD_TYPE_DB | dfTHREAD_TYPE_GAME.

Definition thread_type_value (s : thread_type) : Z :=
  match s with dfTHREAD_TYPE_WORKER => 1 | dfTHREAD_TYPE_DB => 2 | dfTHREAD_TYPE_GAME => 3 end.

(** [en_PACKET_CS_MONITOR_TOOL_SERVER_CONTROL]: two groups that start at 1. *)
Inductive monitor_control :=
  | dfMONITOR_SERVER_TYPE_LOGIN
  | dfMONITOR_SERVER_TYPE_GAME
  | dfMONITOR_SERVER_TYPE_CHAT
  | dfMONITOR_SERVER_TYPE_AGENT
  | dfMONITOR_SERVER_CONTROL_SHUTDOWN
  | dfMONITOR_SERVER_CONTROL_TERMINATE
  | dfMONITOR_SERVER_CONTROL_RUN.

Definition monitor_control_value (c : monitor_control) : Z :=
  match c with
  | dfMONITOR_SERVER_TYPE_LOGIN => 1
  | dfMONITOR_SERVER_TYPE_GAME => 2
  | dfMONITOR_SERVER_TYPE_CHAT => 3
  | dfMONITOR_SERVER_TYPE_AGENT => 4
  | dfMONITOR_SERVER_CONTROL_SHUTDOWN => 1
  | dfMONITOR_SERVER_CONTROL_TERMINATE => 2
  | dfMONITOR_SERVER_CONTROL_RUN => 3
  end.

(** [en_PACKET_SS_MONITOR_DATA_UPDATE]. *)
Inductive monitor_data :=
  | dfMONITOR_DATA_TYPE_LOGIN_SESSION
  | dfMONITOR_DATA_TYPE_LOGIN_AUTH_TPS
  | dfMONITOR_DATA_TYPE_LOGIN_PACKET_POOL
  | dfMONITOR_DATA_TYPE_LOGIN_SERVER_ON
  | dfMONITOR_DATA_TYPE_LOGIN_LIVE_SERVER
  | dfMONITOR_DATA_TYPE_GAME_SESSION
  | dfMONITOR_DATA_TYPE_GAME_AUTH_PLAYER
  | dfMONITOR_DATA_TYPE_GAME_GAME_PLAYER
  | dfMONITOR_DATA_TYPE_GAME_ACCEPT_TPS
  | dfMONITOR_DATA_TYPE_GAME_PACKET_PROC_TPS
  | dfMONITOR_DATA_TYPE_GAME_PACKET_SEND_TPS
  | dfMONITOR_DATA_TYPE_GAME_DB_WRITE_TPS
  | dfMONITOR_DATA_TYPE_GAME_DB_WRITE_MSG
  | dfMONITOR_DATA_TYPE_GAME_AUTH_THREAD_FPS
  | dfMONITOR_DATA_TYPE_GAME_GAME_THREAD_FPS
  | dfMONITOR_DATA_TYPE_GAME_PACKET_POOL
  | dfMONITOR_DATA_TYPE_CHAT_SESSION
  | dfMONITOR_DATA_TYPE_CHAT_PLAYER
  | dfMONITOR_DATA_TYPE_CHAT_UPDATE_TPS
  | dfMONITOR_DATA_TYPE_CHAT_PACKET_POOL
  | dfMONITOR_DATA_TYPE_CHAT_UPDATEMSG_POOL
  | dfMONITOR_DATA_TYPE_AGENT_GAME_SERVER_RUN
  | dfMONITOR_DATA_TYPE_AGENT_CHAT_SERVER_RUN
  | dfMONITOR_DATA_TYPE_AGENT_GAME_SERVER_CPU
  | dfMONITOR_DATA_TYPE_AGENT_CHAT_SERVER_CPU
  | dfMONITOR_DATA_TYPE_AGENT_GAME_SERVER_MEM
  | dfMONITOR_DATA_TYPE_AGENT_CHAT_SERVER_MEM
  | dfMONITOR_DATA_TYPE_AGENT_CPU_TOTAL
  | dfMONITOR_DATA_TYPE_AGENT_NONPAGED_MEMORY
  | dfMONITOR_DATA_TYPE_AGENT_NETWORK_RECV
  | dfMONITOR_DATA_TYPE_AGENT_NETWORK_SEND
  | dfMONITOR_DATA_TYPE_AGENT_
  | dfMONITOR_DATA_TYPE_AGENT_AVAILABLE_MEMORY.

Definition monitor_data_value (d : monitor_data) : Z :=
  match d with
  | dfMONITOR_DATA_TYPE_LOGIN_SESSION => 1
  | dfMONITOR_DATA_TYPE_LOGIN_AUTH_TPS => 2
  | dfMONITOR_DATA_TYPE_LOGIN_PACKET_POOL => 3
  | dfMONITOR_DATA_TYPE_LOGIN_SERVER_ON => 4
  | dfMONITOR_DATA_TYPE_LOGIN_LIVE_SERVER => 5
  | dfMONITOR_DATA_TYPE_GAME_SESSION => 6
  | dfMONITOR_DATA_TYPE_GAME_AUTH_PLAYER => 7
  | dfMONITOR_DATA_TYPE_GAME_GAME_PLAYER => 8
  | dfMONITOR_DATA_TYPE_GAME_ACCEPT_TPS => 9
  | dfMONITOR_DATA_TYPE_GAME_PACKET_PROC_TPS => 10
  | dfMONITOR_DATA_TYPE_GAME_PACKET_SEND_TPS => 11
  | dfMONITOR_DATA_TYPE_GAME_DB_WRITE_TPS => 12
  | dfMONITOR_DATA_TYPE_GAME_DB_WRITE_MSG => 13
  | dfMONITOR_DATA_TYPE_GAME_AUTH_THREAD_FPS => 14
  | dfMONITOR_DATA_TYPE_GAME_GAME_THREAD_FPS => 15
  | dfMONITOR_DATA_TYPE_GAME_PACKET_POOL => 16
  | dfMONITOR_DATA_TYPE_CHAT_SESSION => 17
  | dfMONITOR_DATA_TYPE_CHAT_PLAYER => 18
  | dfMONITOR_DATA_TYPE_CHAT_UPDATE_TPS => 19
  | dfMONITOR_DATA_TYPE_CHAT_PACKET_POOL => 20
  | dfMONITOR_DATA_TYPE_CHAT_UPDATEMSG_POOL => 21
  | dfMONITOR_DATA_TYPE_AGENT_GAME_SERVER_RUN => 22
  | dfMONITOR_DATA_TYPE_AGENT_CHAT_SERVER_RUN => 23
  | dfMONITOR_DATA_TYPE_AGENT_GAME_SERVER_CPU => 24
  | dfMONITOR_DATA_TYPE_AGENT_CHAT_SERVER_CPU => 25
  | dfMONITOR_DATA_TYPE_AGENT_GAME_SERVER_MEM => 26
  | dfMONITOR_DATA_TYPE_AGENT_CHAT_SERVER_MEM => 27
  | dfMONITOR_DATA_TYPE_AGENT_CPU_TOTAL => 28
  | dfMONITOR_DATA_TYPE_AGENT_NONPAGED_MEMORY => 29
  | dfMONITOR_DATA_TYPE_AGENT_NETWORK_RECV => 30
  | dfMONITOR_DATA_TYPE_AGENT_NETWORK_SEND => 31
  | dfMONITOR_DATA_TYPE_AGENT_ => 32
  | dfMONITOR_DATA_TYPE_AGENT_AVAILABLE_MEMORY => 33
  end.

(** [en_PACKET_CS_MONITOR_TOOL_RES_LOGIN]. *)
Inductive monitor_login :=
  | dfMONITOR_TOOL_LOGIN_OK | dfMONITOR_TOOL_LOGIN_ERR_NOSERVER | dfMONITOR_TOOL_LOGIN_ERR_SESSIONKEY.

Definition monitor_login_value (s : monitor_login) : Z :=
  match s with
  | dfMONITOR_TOOL_LOGIN_OK => 1
  | dfMONITOR_TOOL_LOGIN_ERR_NOSERVER => 2
  | dfMONITOR_TOOL_LOGIN_ERR_SESSIONKEY => 3
  end.

(** ** Layouts

    [TypeIs t] is the [Type] of a message; [MESSAGE] is a [MessageLen] and that many
    bytes of text. *)
Inductive field :=
  | TypeIs (t : en_PACKET_TYPE)
  | BYTE
  | WORD
  | INT64
  | CHARS (n : nat)
  | WCHARS (n : nat)
  | MESSAGE.

Inductive value := Num (z : Z) | Bytes (bs : list Z) | NoValue.

Definition CHAT_REQ_LOGIN : list field :=
  [TypeIs en_PACKET_CS_CHAT_REQ_LOGIN; INT64; WCHARS 20; WCHARS 20; CHARS 64].
Definition CHAT_RES_LOGIN : list field := [TypeIs en_PACKET_CS_CHAT_RES_LOGIN; BYTE; INT64].
Definition CHAT_REQ_SECTOR_MOVE : list field :=
  [TypeIs en_PACKET_CS_CHAT_REQ_SECTOR_MOVE; INT64; WORD; WORD].
Definition CHAT_RES_SECTOR_MOVE : list field :=
  [TypeIs en_PACKET_CS_CHAT_RES_SECTOR_MOVE; INT64; WORD; WORD].
Definition CHAT_REQ_MESSAGE : list field := [TypeIs en_PACKET_CS_CHAT_REQ_MESSAGE; INT64; MESSAGE].
Definition CHAT_RES_MESSAGE : list field :=
  [TypeIs en_PACKET_CS_CHAT_RES_MESSAGE; INT64; WCHARS 20; WCHARS 20; MESSAGE].
Definition CHAT_REQ_HEARTBEAT : list field := [TypeIs en_PACKET_CS_CHAT_REQ_HEARTBEAT].
Definition LOGIN_REQ_LOGIN : list field := [TypeIs en_PACKET_CS_LOGIN_REQ_LOGIN; INT64; CHARS 64].
Definition LOGIN_RES_LOGIN : list field :=
  [TypeIs en_PACKET_CS_LOGIN_RES_LOGIN; INT64; BYTE; WCHARS 20; WCHARS 20;
   WCHARS 16; WORD; WCHARS 16; WORD].

(** The layout of the messages of a type; the three server groups have none. *)
Definition layout_of (t : en_PACKET_TYPE) : option (list field) :=
  match t with
  | en_PACKET_CS_CHAT_REQ_LOGIN => Some CHAT_REQ_LOGIN
  | en_PACKET_CS_CHAT_RES_LOGIN => Some CHAT_RES_LOGIN
  | en_PACKET_CS_CHAT_REQ_SECTOR_MOVE => Some CHAT_REQ_SECTOR_MOVE
  | en_PACKET_CS_CHAT_RES_SECTOR_MOVE => Some CHAT_RES_SECTOR_MOVE
  | en_PACKET_CS_CHAT_REQ_MESSAGE => Some CHAT_REQ_MESSAGE
  | en_PACKET_CS_CHAT_RES_MESSAGE => Some CHAT_RES_MESSAGE
  | en_PACKET_CS_CHAT_REQ_HEARTBEAT => Some CHAT_REQ_HEARTBEAT
  | en_PACKET_CS_LOGIN_REQ_LOGIN => Some LOGIN_REQ_LOGIN
  | en_PACKET_CS_LOGIN_RES_LOGIN => Some LOGIN_RES_LOGIN
  | _ => None
  end.

(** The values a field can have. *)
Definition fits_field (f : field) (v : value) : Prop :=
  match f, v with
  | TypeIs _, NoValue => True
  | BYTE, Num z => 0 <= z < 2 ^ 8
  | WORD, Num z => 0 <= z < 2 ^ 16
  | INT64, Num z => - 2 ^ 63 <= z < 2 ^ 63
  | CHARS n, Bytes bs => length bs = n /\ Forall is_byte bs
  | WCHARS n, Bytes bs => length bs = (2 * n)%nat /\ Forall is_byte bs
  | MESSAGE, Bytes bs => Z.of_nat (length bs) < 2 ^ 16 /\ Z.even (Z.of_nat (length bs)) = true /\ Forall is_byte bs
  | _, _ => False
  end.

Definition print_field (f : field) (v : value) : list Z :=
  match f, v with
  | TypeIs t, _ => le_bytes 2 (packet_type t)
  | BYTE, Num z => le_bytes 1 z
  | WORD, Num z => le_bytes 2 z
  | INT64, Num z => le_bytes 8 z
  | CHARS _, Bytes bs => bs
  | WCHARS _, Bytes bs => bs
  | MESSAGE, Bytes bs => le_bytes 2 (Z.of_nat (length bs)) ++ bs
  | _, _ => []
  end.

Fixpoint print_message (fs : list field) (vs : list value) : list Z :=
  match fs, vs with
  | f :: fs, v :: vs => print_field f v ++ print_message fs vs
  | _, _ => []
  end.

(** Parsers give the value and what is left. *)
Definition take_bytes (n : nat) (bs : list Z) : option (list Z * list Z) :=
  if (length bs <? n)%nat then None else Some (take n bs, drop n bs).

Definition parse_field (f : field) (bs : list Z) : option (value * list Z) :=
  match f with
  | TypeIs t =>
      '(b, bs) ← take_bytes 2 bs;
      if le_num b =? packet_type t then Some (NoValue, bs) else None
  | BYTE => '(b, bs) ← take_bytes 1 bs; Some (Num (le_num b), bs)
  | WORD => '(b, bs) ← take_bytes 2 bs; Some (Num (le_num b), bs)
  | INT64 => '(b, bs) ← take_bytes 8 bs; Some (Num (i64 (le_num b)), bs)
  | CHARS n => '(b, bs) ← take_bytes n bs; Some (Bytes b, bs)
  | WCHARS n => '(b, bs) ← take_bytes (2 * n) bs; Some (Bytes b, bs)
  | MESSAGE =>
      '(b, bs) ← take_bytes 2 bs;
      if Z.even (le_num b)
      then '(m, bs) ← take_bytes (Z.to_nat (le_num b)) bs; Some (Bytes m, bs)
      else None
  end.

Fixpoint parse_message (fs : list field) (bs : list Z) : option (list value * list Z) :=
  match fs with
  | [] => Some ([], bs)
  | f :: fs =>
      '(v, bs) ← parse_field f bs;
      '(vs, bs) ← parse_message fs bs;
      Some (v :: vs, bs)
  end.

(** The type of a number: the first enumerator with that value. *)
Definition type_named (z : Z) : option en_PACKET_TYPE :=
  fst <$> head (filter (fun ez => ez.2 = z) (number_from 0 packet_types)).

(** A message of any type: the first two bytes say which. *)
Definition read_message (bs : list Z) : option (en_PACKET_TYPE * list value * list Z) :=
  '(b, _) ← take_bytes 2 bs;
  t ← type_named (le_num b);
  fs ← layout_of t;
  '(vs, rest) ← parse_message fs bs;
  Some (t, vs, rest).

(** ** Lemmas *)
Lemma type_named_spec z t : type_named z = Some t <-> packet_type t = z.
Proof.
  split; [|intros <-; destruct t; reflexivity].
  unfold type_named. destruct (filter _ _) as [|[e z'] l] eqn:E; [done|].
  assert (Hin : (e, z') ∈ filter (fun ez => ez.2 = z) (number_from 0 packet_types)).
  { rewrite E. apply elem_of_cons. auto. }
  apply list_elem_of_filter in Hin as [Hz Hin]. cbn in Hz. subst z'. cbn. intros [= <-].
  rewrite list_elem_of_In in Hin. cbn in Hin.
  repeat destruct Hin as [[= <- <-]|Hin]; [reflexivity..|done].
Qed.

Lemma packet_type_range t : 0 <= packet_type t < 2 ^ 16.
Proof. destruct t; vm_compute; split; congruence. Qed.

Lemma take_bytes_app b rest : take_bytes (length b) (b ++ rest) = Some (b, rest).
Proof.
  unfold take_bytes. rewrite length_app, take_app_length, drop_app_length.
  replace (_ <? _)%nat with false; [done|]. symmetry. apply Nat.ltb_ge. lia.
Qed.

Lemma take_number n z rest : take_bytes n (le_bytes n z ++ rest) = Some (le_bytes n z, rest).
Proof. rewrite <- (length_le_bytes n z) at 1. apply take_bytes_app. Qed.

Lemma le_num_small n z : 0 <= z < 2 ^ (8 * Z.of_nat n) -> le_num (le_bytes n z) = z.
Proof. intros Hz. rewrite le_num_bytes. apply u_small. done. Qed.

Lemma parse_print_field f v rest :
  fits_field f v -> parse_field f (print_field f v ++ rest) = Some (v, rest).
Proof.
  destruct f, v; try done; cbn [fits_field parse_field print_field]; intros Hf.
  - rewrite take_number. cbn [mbind option_bind]. pose proof (packet_type_range t).
    rewrite le_num_small by (change (8 * Z.of_nat 2) with 16; lia). rewrite Z.eqb_refl. done.
  - rewrite take_number. cbn [mbind option_bind]. rewrite le_num_small by (change (8 * Z.of_nat 1) with 8; lia). done.
  - rewrite take_number. cbn [mbind option_bind]. rewrite le_num_small by (change (8 * Z.of_nat 2) with 16; lia). done.
  - rewrite take_number. cbn [mbind option_bind]. rewrite le_num_bytes. change (8 * Z.of_nat 8) with 64.
    rewrite (s_congr _ _ z) by apply u_u. rewrite s_small by (change (64 - 1) with 63; lia). done.
  - destruct Hf as [<- _]. rewrite take_bytes_app. done.
  - destruct Hf as [<- _]. rewrite take_bytes_app. done.
  - destruct Hf as (Hl & He & _). rewrite <- app_assoc, take_number. cbn [mbind option_bind].
    rewrite le_num_small by (change (8 * Z.of_nat 2) with 16; lia). rewrite He, Nat2Z.id, take_bytes_app. done.
Qed.

Lemma parse_print_message fs vs rest :
  Forall2 fits_field fs vs -> parse_message fs (print_message fs vs ++ rest) = Some (vs, rest).
Proof.
  induction 1 as [|f v fs vs Hf _ IH]; [done|]. cbn [parse_message print_message].
  rewrite <- app_assoc, parse_print_field by done. cbn [mbind option_bind]. rewrite IH. done.
Qed.

Lemma layout_type t fs : layout_of t = Some fs -> exists gs, fs = TypeIs t :: gs.
Proof. destruct t; intros [= <-]; eexists; reflexivity. Qed.

Lemma read_message_print t fs vs rest :
  layout_of t = Some fs -> Forall2 fits_field fs vs ->
  read_message (print_message fs vs ++ rest) = Some (t, vs, rest).
Proof.
  intros El Hfs. pose proof (parse_print_message fs vs rest Hfs) as Ep.
  destruct (layout_type _ _ El) as [gs ->]. inversion Hfs as [|? v ? vs' Hf _]; subst. unfold read_message.
  cbn [print_message print_field] in *. rewrite <- app_assoc in *. rewrite take_number. cbn [mbind option_bind].
  rewrite le_num_small by (pose proof (packet_type_range t); change (8 * Z.of_nat 2) with 16; lia).
  rewrite (proj2 (type_named_spec _ t)) by done. cbn [mbind option_bind]. rewrite El. cbn [mbind option_bind].
  rewrite Ep. done.
Qed.
