(* ===== verification/ObjectPool.v ===== *)
(** * The object pool interface

    What [CNetPacket::Alloc], [CNetPacket::Free], the lock-free containers and the
    server ask of a memory pool: a pool hands out pointers to objects and takes
    them back. [PoolOps] is the operations, [PoolLaws] what a client may rely on,
    and [RefPool] the reference implementation, a list of free pointers. *)
From S2P Require Import Prelude.
From stdpp Require Import prelude gmap list.
From Stdlib Require Import ZArith Lia.
Open Scope Z_scope.

(** The first argument of an operation is the calling thread. *)
Class PoolOps (P : Type) := {
  pool_alloc : Z -> P -> outcome (Z * P);
  pool_free : Z -> P -> Z -> outcome (bool * P);
}.

(** [pool_live] are the pointers a client holds. An allocation gives a pointer
    nobody holds; giving back a held pointer succeeds and frees exactly it;
    giving back a pointer of the pool that is not held is refused and changes
    nothing. *)
Class PoolLaws (P : Type) `{PoolOps P} := {
  pool_ok : P -> Prop;
  pool_live : P -> gset Z;
  pool_has : P -> Z -> Prop;
  pool_alloc_spec tid p x p' :
    pool_ok p -> pool_alloc tid p = Ok (x, p') ->
    pool_ok p' /\ (x ∉ pool_live p) /\ pool_has p' x /\ pool_live p' = {[x]} ∪ pool_live p;
  pool_free_live tid p x :
    pool_ok p -> x ∈ pool_live p ->
    exists p', pool_free tid p x = Ok (true, p') /\ pool_ok p' /\
      pool_live p' = pool_live p ∖ {[x]};
  pool_free_twice tid p x :
    pool_ok p -> pool_has p x -> x ∉ pool_live p -> pool_free tid p x = Ok (false, p);
}.

(** ** The reference pool *)
Module RefPool.

Record t := mk { free_list : list Z; live : gset Z; next : Z }.

Definition alloc (tid : Z) (p : t) : outcome (Z * t) :=
  match free_list p with
  | x :: l => Ok (x, mk l ({[x]} ∪ live p) (next p))
  | [] => Ok (next p, mk [] ({[next p]} ∪ live p) (next p + 1))
  end.

Definition free (tid : Z) (p : t) (x : Z) : outcome (bool * t) :=
  if decide (x ∈ live p) then Ok (true, mk (x :: free_list p) (live p ∖ {[x]}) (next p))
  else Ok (false, p).

Definition ok (p : t) : Prop :=
  NoDup (free_list p) /\ (forall x, x ∈ free_list p -> (x ∉ live p) /\ x < next p) /\
  (forall x, x ∈ live p -> x < next p).

Definition empty : t := mk [] ∅ 1.

#[export] Instance ops : PoolOps t := { pool_alloc := alloc; pool_free := free }.

#[export] Program Instance laws : PoolLaws t := {
  pool_ok := ok; pool_live := live; pool_has := fun _ _ => True
}.
Next Obligation.
  intros tid [fl lv nx] x p' (Hnd & Hfl & Hlv) H. cbn in *. unfold alloc in H. cbn in H.
  destruct fl as [|y fl]; inv_ok; cbn.
  - split_and!; try done.
    + unfold ok. cbn. split_and!; [constructor|set_solver|].
      intros z [->%elem_of_singleton|Hx%Hlv]%elem_of_union; lia.
    + intros Hx%Hlv. lia.
  - apply NoDup_cons in Hnd as [Hy Hnd]. destruct (Hfl x) as [Hx Hlt]; [set_solver|].
    split_and!; try done. unfold ok. cbn. split_and!; [done| |].
    + intros z Hz. destruct (Hfl z); [set_solver|]. set_solver.
    + intros z [->%elem_of_singleton|Hz%Hlv]%elem_of_union; lia.
Qed.
Next Obligation.
  intros tid [fl lv nx] x (Hnd & Hfl & Hlv) Hx. cbn in *. unfold free. cbn.
  rewrite decide_True by done. eexists; split; [done|]. cbn. split; [|done].
  unfold ok. cbn. split_and!.
  - apply NoDup_cons. split; [|done]. intros H%Hfl. set_solver.
  - intros z [->|Hz]%elem_of_cons; [split; [set_solver|auto]|].
    destruct (Hfl z Hz). set_solver.
  - intros z Hz. apply Hlv. set_solver.
Qed.
Next Obligation.
  intros tid p x _ _ Hx. cbn in *. unfold free. rewrite decide_False by done. done.
Qed.

End RefPool.
