(* ===== verification/TaggedStack.v ===== *)
(** * The tagged free stack of the memory pools

    [MemoryPool], its [BlockAllocator], [MemoryPoolTLS] and its [BlockArrayAllocator]
    keep free nodes in a lock-free stack: the top is a 64-bit word with a pointer in
    its low 47 bits and, above, a count of the pops that is there to tell a stack
    that came back to the same top from one that did not change. Threads are
    interleaved at every access to shared memory. *)
From S2P Require Import Prelude.
From stdpp Require Import prelude gmap list.
From Stdlib Require Import ZArith Lia.
Open Scope Z_scope.

Module TaggedStack.

(** ** Words *)
Definition PTR_MASK : Z := 0x00007FFFFFFFFFFF.
Definition ptr_of (w : Z) : Z := Z.land w PTR_MASK.
Definition tag_of (w : Z) : Z := Z.shiftr w 47.
Definition pack (p t : Z) : Z := Z.lor p (u64 (Z.shiftl t 47)).

(** ** Memory and threads

    [next p] is the [_next] member of the node at [p]. *)
Record mem := mkMem { top : Z; next : Z -> Z }.
Definition set_top (m : mem) (w : Z) : mem := mkMem w (next m).
Definition set_next (m : mem) (n v : Z) : mem :=
  mkMem (top m) (fun p => if p =? n then v else next m p).

(** Where a thread is in [Push] or [Pop], with its local variables. *)
Inductive pc :=
  | Idle
  | PushRead (n : Z)
  | PushNext (n bkTop : Z)
  | PushCas (n bkTop : Z)
  | PopRead
  | PopNext (bkTop : Z)
  | PopCas (bkTop nextTop : Z)
  | Popped (r : option Z).

(** What happens to the stack, at the access that makes it happen. *)
Inductive op := OpPush (n : Z) | OpPop (n : Z) | OpEmpty.

Definition Push (n : Z) : pc := PushRead n.
Definition Pop : pc := PopRead.

(** One access to shared memory. *)
Definition step (c : pc) (m : mem) : pc * mem * list op :=
  match c with
  | Idle => (Idle, m, [])
  | PushRead n => (PushNext n (top m), m, [])
  | PushNext n bkTop => (PushCas n bkTop, set_next m n (ptr_of bkTop), [])
  | PushCas n bkTop =>
      if top m =? bkTop then (Idle, set_top m (pack n (tag_of bkTop)), [OpPush n])
      else (PushRead n, m, [])
  | PopRead =>
      if ptr_of (top m) =? 0 then (Popped None, m, [OpEmpty]) else (PopNext (top m), m, [])
  | PopNext bkTop => (PopCas bkTop (next m (ptr_of bkTop)), m, [])
  | PopCas bkTop nextTop =>
      if top m =? bkTop
      then (Popped (Some (ptr_of bkTop)), set_top m (pack nextTop (tag_of bkTop + 1)),
            [OpPop (ptr_of bkTop)])
      else (PopRead, m, [])
  | Popped r => (Popped r, m, [])
  end.

(** A stack of nodes and what an operation does to it, alone. *)
Definition apply_op (l : list Z) (o : op) : option (list Z) :=
  match o, l with
  | OpPush n, l => Some (n :: l)
  | OpPop n, x :: l => if x =? n then Some l else None
  | OpPop _, [] => None
  | OpEmpty, [] => Some []
  | OpEmpty, _ :: _ => None
  end.

Fixpoint replay (l : list Z) (os : list op) : option (list Z) :=
  match os with
  | [] => Some l
  | o :: os => l ← apply_op l o; replay l os
  end.

(** ** Interleaving

    [pops] counts the pops that happened and each thread remembers in [seen] the count
    when it read the top, which the code does not; [outside] are the nodes clients
    hold, [hist] the operations in the order they took effect. *)
Record thread := mkThread { at_pc : pc; seen : Z }.
Record config := mkConfig {
  shared : mem;
  threads : list thread;
  pops : Z;
  outside : gset Z;
  hist : list op;
}.

Definition is_pop (o : op) : bool := match o with OpPop _ => true | _ => false end.

Definition advance (c : config) (i : nat) (t : thread) : config :=
  let '(c', m', os) := step (at_pc t) (shared c) in
  let seen' := match at_pc t with PopRead => pops c | _ => seen t end in
  mkConfig m' (<[i := mkThread c' seen']> (threads c))
    (if existsb is_pop os then pops c + 1 else pops c) (outside c) (hist c ++ os).

(** A thread that read the top has not slept through [2^17] pops. *)
Definition in_window (c : config) (t : thread) : Prop :=
  match at_pc t with PopCas _ _ => pops c - seen t < 2 ^ 17 | _ => True end.

Inductive sched_step : config -> config -> Prop :=
  | sched_push c i t n :
      threads c !! i = Some t -> at_pc t = Idle -> n ∈ outside c ->
      sched_step c (mkConfig (shared c) (<[i := mkThread (Push n) (seen t)]> (threads c)) (pops c)
                      (outside c ∖ {[n]}) (hist c))
  | sched_pop c i t :
      threads c !! i = Some t -> at_pc t = Idle ->
      sched_step c (mkConfig (shared c) (<[i := mkThread Pop (seen t)]> (threads c)) (pops c)
                      (outside c) (hist c))
  | sched_return c i t r :
      threads c !! i = Some t -> at_pc t = Popped r ->
      sched_step c (mkConfig (shared c) (<[i := mkThread Idle (seen t)]> (threads c)) (pops c)
                      (match r with Some n => {[n]} ∪ outside c | None => outside c end) (hist c))
  | sched_run c i t :
      threads c !! i = Some t -> in_window c t -> sched_step c (advance c i t).

(** An empty stack, idle threads and nodes with addresses of the user's part of the
    address space. *)
Definition initial (c : config) : Prop :=
  top (shared c) = 0 /\ pops c = 0 /\ hist c = [] /\
  Forall (fun t => at_pc t = Idle) (threads c) /\
  forall n, n ∈ outside c -> 0 < n < 2 ^ 47.

Definition reachable (c : config) : Prop := exists c0, initial c0 /\ rtc sched_step c0 c.

(** ** Words, proved *)
Lemma land_shiftl_small p t : 0 <= p < 2 ^ 47 -> Z.land p (Z.shiftl t 47) = 0.
Proof.
  intros Hp. apply Z.bits_inj'. intros n Hn. rewrite Z.land_spec, Z.bits_0.
  destruct (Z.lt_ge_cases n 47) as [Hl|Hl].
  - rewrite (Z.shiftl_spec_low t 47 n Hl). apply andb_false_r.
  - rewrite <- (Z.mod_small p (2 ^ 47)), Z.mod_pow2_bits_high by lia. done.
Qed.

Lemma pack_eq p t : 0 <= p < 2 ^ 47 -> pack p t = p + 2 ^ 47 * (t mod 2 ^ 17).
Proof.
  intros Hp. unfold pack, uint. rewrite Z.shiftl_mul_pow2 by lia.
  change (2 ^ 64) with (2 ^ 17 * 2 ^ 47). rewrite Zmult_mod_distr_r.
  pose proof (land_shiftl_small p (t mod 2 ^ 17) Hp) as Hl.
  rewrite Z.shiftl_mul_pow2 in Hl by lia.
  pose proof (Z.add_lor_land p (t mod 2 ^ 17 * 2 ^ 47)). lia.
Qed.

Lemma ptr_of_pack p t : 0 <= p < 2 ^ 47 -> ptr_of (pack p t) = p.
Proof.
  intros Hp. unfold ptr_of. rewrite pack_eq by done. change PTR_MASK with (Z.ones 47).
  rewrite Z.land_ones by lia. rewrite Z.mul_comm, Z_mod_plus_full. apply Z.mod_small, Hp.
Qed.

Lemma tag_of_pack p t : 0 <= p < 2 ^ 47 -> tag_of (pack p t) = t mod 2 ^ 17.
Proof.
  intros Hp. unfold tag_of. rewrite pack_eq by done. rewrite Z.shiftr_div_pow2 by lia.
  rewrite Z.mul_comm, Z.div_add, Z.div_small by lia. lia.
Qed.

Lemma pack_mod p t : 0 <= p < 2 ^ 47 -> pack p (t mod 2 ^ 17) = pack p t.
Proof. intros Hp. rewrite !pack_eq, Zmod_mod by done. done. Qed.

Lemma pack_inj p t p' t' :
  0 <= p < 2 ^ 47 -> 0 <= p' < 2 ^ 47 -> pack p t = pack p' t' ->
  p = p' /\ t mod 2 ^ 17 = t' mod 2 ^ 17.
Proof.
  intros Hp Hp' E. split; [rewrite <- (ptr_of_pack p t), E by done; apply ptr_of_pack, Hp'|].
  rewrite <- (tag_of_pack p t), E by done. apply tag_of_pack, Hp'.
Qed.

(** ** The stack in memory *)
Fixpoint chain (nx : Z -> Z) (p : Z) (l : list Z) : Prop :=
  match l with
  | [] => p = 0
  | n :: l => p = n /\ 0 < n < 2 ^ 47 /\ chain nx (nx n) l
  end.

Lemma chain_range nx p l : chain nx p l -> 0 <= p < 2 ^ 47.
Proof. destruct l; cbn; [intros ->; lia|intros (-> & ? & _); lia]. Qed.

Lemma chain_node nx p l n : chain nx p l -> n ∈ l -> 0 < n < 2 ^ 47.
Proof.
  revert p. induction l as [|x l IH]; intros p Hc Hn; [by apply not_elem_of_nil in Hn|].
  destruct Hc as (_ & ? & Hc). apply elem_of_cons in Hn as [->|Hn]; [done|eauto].
Qed.

Lemma chain_ext nx nx' p l : chain nx p l -> (forall n, n ∈ l -> nx' n = nx n) -> chain nx' p l.
Proof.
  revert p. induction l as [|x l IH]; intros p Hc He; [done|]. destruct Hc as (-> & ? & Hc).
  cbn. split_and!; [done|lia..|]. rewrite He by left. apply IH; [done|]. intros n Hn. apply He. right. done.
Qed.

(** The nodes a thread owns: those it is about to push and the one it popped. *)
Definition owned (t : thread) : list Z :=
  match at_pc t with
  | PushRead n | PushNext n _ | PushCas n _ | Popped (Some n) => [n]
  | _ => []
  end.

Definition all_owned (ts : list thread) : list Z := concat (owned <$> ts).

#[local] Arguments all_owned : simpl never.

Lemma all_owned_insert ts i t :
  ts !! i = Some t ->
  exists rest, all_owned ts ≡ₚ owned t ++ rest /\
    forall t', all_owned (<[i := t']> ts) ≡ₚ owned t' ++ rest.
Proof. intros Hi. destruct (concat_fmap_insert owned ts i t Hi) as (rest & E & E' & _). eauto. Qed.

(** What a thread knows where it is. *)
Definition knows (m : mem) (l : list Z) (np : Z) (t : thread) : Prop :=
  match at_pc t with
  | PushCas n bk => next m n = ptr_of bk
  | PopNext bk =>
      seen t <= np /\ exists p, 0 < p < 2 ^ 47 /\ bk = pack p (seen t) /\ (np = seen t -> p ∈ l)
  | PopCas bk nx =>
      seen t <= np /\ exists p, 0 < p < 2 ^ 47 /\ bk = pack p (seen t) /\
        (np = seen t -> p ∈ l /\ next m p = nx)
  | _ => True
  end.

Record inv (c : config) (l : list Z) : Prop := mkInv {
  inv_chain : exists p, top (shared c) = pack p (pops c) /\ chain (next (shared c)) p l;
  inv_nodup : NoDup (l ++ all_owned (threads c));
  inv_outside : forall n, n ∈ outside c -> (n ∉ l ++ all_owned (threads c)) /\ 0 < n < 2 ^ 47;
  inv_owned : forall n, n ∈ all_owned (threads c) -> 0 < n < 2 ^ 47;
  inv_knows : forall i t, threads c !! i = Some t -> knows (shared c) l (pops c) t;
  inv_hist : replay [] (hist c) = Some l;
}.

Lemma replay_app l os os' : replay l (os ++ os') = (l' ← replay l os; replay l' os').
Proof.
  revert l. induction os as [|o os IH]; intros l; [done|]. cbn.
  destruct (apply_op l o); [apply IH|done].
Qed.

(** What another thread does leaves what a thread knows. *)
Lemma knows_stable m m' l l' np np' t :
  knows m l np t -> (forall n, n ∈ l ++ owned t -> next m' n = next m n) ->
  np <= np' -> (np' = np -> l ⊆ l') -> knows m' l' np' t.
Proof.
  unfold knows, owned. destruct (at_pc t); intros Hk Hn Hp Hl; try done.
  - rewrite Hn by (apply elem_of_app; right; left). done.
  - destruct Hk as (? & p & ? & ? & Hin). split; [lia|]. exists p. split_and!; try done; [lia..|].
    intros E. apply Hl; [lia|]. apply Hin. lia.
  - destruct Hk as (? & p & ? & ? & Hin). split; [lia|]. exists p. split_and!; try done; [lia..|].
    intros E. destruct Hin as [Hin Hnx]; [lia|]. split; [apply Hl; [lia|done]|].
    rewrite Hn by (apply elem_of_app; left; done). done.
Qed.

(** A thread's move that exchanges nodes only between itself and the stack. *)
Lemma inv_move c l i t t' m' os l' np' :
  inv c l -> threads c !! i = Some t ->
  (exists p, top m' = pack p np' /\ chain (next m') p l') ->
  l' ++ owned t' ≡ₚ l ++ owned t ->
  knows m' l' np' t' ->
  (forall n, n ∉ owned t -> next m' n = next (shared c) n) ->
  pops c <= np' -> (np' = pops c -> l ⊆ l') ->
  replay l os = Some l' ->
  inv (mkConfig m' (<[i := t']> (threads c)) np' (outside c) (hist c ++ os)) l'.
Proof.
  intros [] Hi Hch Hp Hk Hnx Hle Hl Hos.
  destruct (all_owned_insert _ _ _ Hi) as (rest & Er & Er').
  assert (Hall : l' ++ all_owned (<[i := t']> (threads c)) ≡ₚ l ++ all_owned (threads c)).
  { rewrite Er, Er', !app_assoc, Hp. done. }
  assert (Hrange : forall n, n ∈ l ++ all_owned (threads c) -> 0 < n < 2 ^ 47).
  { intros n [Hn|Hn]%elem_of_app; [|auto]. destruct inv_chain0 as (p & _ & Hc). eauto using chain_node. }
  split; cbn; try done.
  - rewrite Hall. done.
  - intros n Hn. rewrite Hall. auto.
  - intros n Hn. apply Hrange. rewrite <- Hall. apply elem_of_app. right. done.
  - intros j u. rewrite list_lookup_insert_Some. intros [(-> & <- & _)|[Hij Hj]]; [done|].
    eapply knows_stable; [apply (inv_knows0 j u Hj)| |done|done].
    intros n Hn. apply Hnx. intros Hnt.
    assert (Hnd : NoDup (l ++ owned t ++ rest)) by (rewrite <- Er; done).
    apply elem_of_app in Hn as [Hn|Hn].
    + apply NoDup_app in Hnd as (_ & Hd & _). apply (Hd n Hn), elem_of_app. left. done.
    + assert (Hnr : n ∈ rest).
      { specialize (Er' (mkThread Idle 0)). cbn in Er'. rewrite <- Er'.
        unfold all_owned. apply list_elem_of_In, in_concat. exists (owned u). split; [|apply list_elem_of_In, Hn].
        apply list_elem_of_In, list_elem_of_fmap. exists u. split; [done|].
        apply list_elem_of_lookup. exists j. rewrite list_lookup_insert_ne by done. done. }
      apply NoDup_app in Hnd as (_ & _ & Hnd). apply NoDup_app in Hnd as (_ & Hd & _). exact (Hd n Hnt Hnr).
  - rewrite replay_app, inv_hist0. exact Hos.
Qed.

(** A call or a return: nodes move between a thread and its client. *)
Lemma inv_client c l i t t' out' :
  inv c l -> threads c !! i = Some t -> knows (shared c) l (pops c) t' ->
  (forall rest, all_owned (threads c) ≡ₚ owned t ++ rest ->
     NoDup (l ++ owned t' ++ rest) /\
     (forall n, n ∈ out' -> (n ∉ l ++ owned t' ++ rest) /\ 0 < n < 2 ^ 47) /\
     (forall n, n ∈ owned t' -> 0 < n < 2 ^ 47)) ->
  inv (mkConfig (shared c) (<[i := t']> (threads c)) (pops c) out' (hist c)) l.
Proof.
  intros [] Hi Hk Hr. destruct (all_owned_insert _ _ _ Hi) as (rest & Er & Er').
  destruct (Hr rest Er) as (Hnd & Hout & Hrg). split; cbn; try done.
  - rewrite Er'. done.
  - intros n Hn. rewrite Er'. auto.
  - intros n. rewrite Er'. intros [Hn|Hn]%elem_of_app; [auto|]. apply inv_owned0. rewrite Er.
    apply elem_of_app. right. done.
  - intros j u. rewrite list_lookup_insert_Some. intros [(_ & <- & _)|[_ Hj]]; [done|eauto].
Qed.

(** The successful exchange of [Push]. *)
Lemma inv_push_cas c l i t n bk :
  inv c l -> threads c !! i = Some t -> at_pc t = PushCas n bk -> top (shared c) = bk ->
  inv (mkConfig (set_top (shared c) (pack n (tag_of bk))) (<[i := mkThread Idle (seen t)]> (threads c))
         (pops c) (outside c) (hist c ++ [OpPush n])) (n :: l).
Proof.
  intros Hv Hi Hpc Htop. pose proof (inv_knows _ _ Hv _ _ Hi) as Hk. unfold knows in Hk.
  rewrite Hpc in Hk. destruct (inv_chain _ _ Hv) as (p & Hp & Hch).
  pose proof (chain_range _ _ _ Hch) as Hpr.
  assert (Hn : 0 < n < 2 ^ 47).
  { apply (inv_owned _ _ Hv). destruct (all_owned_insert _ _ _ Hi) as (rest & -> & _).
    unfold owned. rewrite Hpc. left. }
  assert (Ho : owned t = [n]) by (unfold owned; rewrite Hpc; done).
  apply (inv_move c l i t); try done.
  - exists n. rewrite <- Htop, Hp, tag_of_pack, pack_mod by (done || lia). split; [done|].
    cbn. split_and!; [done|lia|lia|]. rewrite Hk, <- Htop, Hp, ptr_of_pack by done. exact Hch.
  - rewrite Ho. cbn. rewrite app_nil_r. apply Permutation_cons_append.
  - intros _ x Hx. right. exact Hx.
Qed.

(** The successful exchange of [Pop]: within its window it takes the top node. *)
Lemma inv_pop_cas c l i t bk nx :
  inv c l -> threads c !! i = Some t -> at_pc t = PopCas bk nx -> top (shared c) = bk ->
  pops c - seen t < 2 ^ 17 ->
  exists l', inv (mkConfig (set_top (shared c) (pack nx (tag_of bk + 1)))
         (<[i := mkThread (Popped (Some (ptr_of bk))) (seen t)]> (threads c))
         (pops c + 1) (outside c) (hist c ++ [OpPop (ptr_of bk)])) l'.
Proof.
  intros Hv Hi Hpc Htop Hw. pose proof (inv_knows _ _ Hv _ _ Hi) as Hk. unfold knows in Hk.
  rewrite Hpc in Hk. destruct Hk as (Hle & q & Hq & -> & Hin).
  destruct (inv_chain _ _ Hv) as (p & Hp & Hch). pose proof (chain_range _ _ _ Hch) as Hpr.
  rewrite Hp in Htop. apply pack_inj in Htop as [-> Htag]; [|done|lia].
  assert (E : pops c = seen t).
  { assert (pops c - seen t = 0); [|lia]. rewrite <- (Z.mod_small (pops c - seen t) (2 ^ 17)) by lia.
    rewrite Zminus_mod, Htag, Z.sub_diag. done. }
  destruct (Hin E) as [Hql Hnx]. destruct l as [|x l]; [cbn in Hch; lia|].
  destruct Hch as (-> & Hx & Hch). rewrite Hnx in Hch. exists l. pose proof (chain_range _ _ _ Hch).
  rewrite ptr_of_pack, tag_of_pack by lia.
  assert (Ho : owned t = []) by (unfold owned; rewrite Hpc; done).
  apply (inv_move c (x :: l) i t); try done; try lia.
  - exists nx. split; [|exact Hch]. cbn. rewrite E. rewrite <- pack_mod, Zplus_mod_idemp_l, pack_mod by done. done.
  - rewrite Ho, app_nil_r. symmetry. apply Permutation_cons_append.
  - cbn. rewrite Z.eqb_refl. done.
Qed.

(** A move that leaves the stack as it is. *)
Lemma inv_stay c l i t t' m' os :
  inv c l -> threads c !! i = Some t -> top m' = top (shared c) -> owned t' = owned t ->
  knows m' l (pops c) t' -> (forall n, n ∉ owned t -> next m' n = next (shared c) n) ->
  replay l os = Some l ->
  inv (mkConfig m' (<[i := t']> (threads c)) (pops c) (outside c) (hist c ++ os)) l.
Proof.
  intros Hv Hi Ht Ho Hk Hn Hos. apply (inv_move c l i t); try done.
  - destruct (inv_chain _ _ Hv) as (p & Hp & Hch). exists p. split; [congruence|].
    eapply chain_ext; [exact Hch|]. intros n Hl. apply Hn. intros Hnt.
    pose proof (inv_nodup _ _ Hv) as Hnd. destruct (all_owned_insert _ _ _ Hi) as (rest & Er & _).
    rewrite Er in Hnd. apply NoDup_app in Hnd as (_ & Hd & _). apply (Hd n Hl), elem_of_app. left. done.
  - rewrite Ho. done.
Qed.

Lemma inv_run c l i t :
  inv c l -> threads c !! i = Some t -> in_window c t -> exists l', inv (advance c i t) l'.
Proof.
  intros Hv Hi Hw. pose proof (inv_knows _ _ Hv _ _ Hi) as Hk.
  destruct (inv_chain _ _ Hv) as (p & Hp & Hch). pose proof (chain_range _ _ _ Hch) as Hpr.
  assert (Hstay := fun t' m' os => inv_stay c l i t t' m' os Hv Hi).
  unfold advance, in_window in *. destruct t as [tp sn]. cbn [at_pc seen] in *.
  destruct tp as [|n|n bk|n bk| |bk|bk nx|r]; cbn [step existsb].
  - exists l. apply Hstay; done.
  - exists l. apply Hstay; done.
  - exists l. apply Hstay; try done; [unfold knows; cbn; rewrite Z.eqb_refl; done|].
    intros x Hx. cbn. replace (x =? n) with false; [done|]. symmetry. apply Z.eqb_neq.
    intros ->. apply Hx. left.
  - destruct (Z.eqb_spec (top (shared c)) bk) as [E|E]; cbn [existsb is_pop orb].
    + exists (n :: l). apply (inv_push_cas _ _ _ _ n bk Hv Hi eq_refl E).
    + exists l. apply Hstay; done.
  - destruct (ptr_of (top (shared c)) =? 0) eqn:E; cbn [existsb is_pop orb]; exists l;
      rewrite Hp, ptr_of_pack in E by done.
    + destruct l as [|x l]; [|destruct Hch as (-> & ? & _); lia]. apply Hstay; done.
    + apply Hstay; try done. cbn. split; [lia|]. exists p. split_and!; [lia|lia|exact Hp|].
      intros _. destruct l as [|x l]; [cbn in Hch; lia|]. destruct Hch as (-> & _). left.
  - destruct Hk as (Hle & q & Hq & -> & Hin). exists l. apply Hstay; try done.
    cbn. split; [done|]. exists q. split_and!; [lia|lia|done|]. intros E. rewrite ptr_of_pack by lia. auto.
  - destruct (Z.eqb_spec (top (shared c)) bk) as [E|E]; cbn [existsb is_pop orb].
    + apply (inv_pop_cas c l i (mkThread (PopCas bk nx) sn)); done.
    + exists l. apply Hstay; done.
  - exists l. apply Hstay; done.
Qed.

Lemma inv_step c c' l : inv c l -> sched_step c c' -> exists l', inv c' l'.
Proof.
  intros Hv Hs. destruct Hs as [c i t n Hi Hpc Hn|c i t Hi Hpc|c i t r Hi Hpc|c i t Hi Hw].
  - exists l. destruct (inv_outside _ _ Hv n Hn) as [Hnl Hr].
    assert (Ho : owned t = []) by (unfold owned; rewrite Hpc; done).
    apply (inv_client c l i t); [done|done|done|]. intros rest Er. rewrite Ho in Er. cbn.
    pose proof (inv_nodup _ _ Hv) as Hnd. rewrite Er in Hnd, Hnl. cbn in Hnd, Hnl.
    rewrite <- Permutation_middle. split_and!.
    + apply NoDup_cons. done.
    + intros x [Hx Hxn]%elem_of_difference. destruct (inv_outside _ _ Hv x Hx) as [Hxl Hxr].
      rewrite Er in Hxl. rewrite elem_of_singleton in Hxn. split; [|done].
      rewrite <- Permutation_middle. intros [->|Hx']%elem_of_cons; done.
    + intros x ->%list_elem_of_singleton. done.
  - exists l. assert (Ho : owned t = []) by (unfold owned; rewrite Hpc; done).
    apply (inv_client c l i t); [done|done|done|]. intros rest Er. rewrite Ho in Er. cbn in *.
    split_and!; [rewrite <- Er; apply (inv_nodup _ _ Hv)| |].
    { intros x Hx. rewrite <- Er. apply (inv_outside _ _ Hv x Hx). }
    intros x Hx. by apply not_elem_of_nil in Hx.
  - exists l. apply (inv_client c l i t); [done|done|done|]. intros rest Er. cbn.
    pose proof (inv_nodup _ _ Hv) as Hnd. rewrite Er in Hnd.
    assert (Hsub : forall x, x ∈ l ++ rest -> x ∈ l ++ all_owned (threads c)).
    { intros x. rewrite Er, !elem_of_app. intuition. }
    assert (Hout : forall x, x ∈ outside c -> (x ∉ l ++ rest) /\ 0 < x < 2 ^ 47).
    { intros x Hx. destruct (inv_outside _ _ Hv x Hx). auto. }
    split_and!; [|destruct r as [n|]; [|exact Hout]|intros x Hx; by apply not_elem_of_nil in Hx].
    + rewrite (Permutation_app_comm (owned t)), app_assoc in Hnd. apply NoDup_app in Hnd as [Hnd _]. done.
    + assert (Ho : owned t = [n]) by (unfold owned; rewrite Hpc; done). rewrite Ho in Hnd, Er.
      cbn in Hnd. rewrite <- Permutation_middle in Hnd. apply NoDup_cons in Hnd as [Hn _].
      intros x [->%elem_of_singleton|Hx]%elem_of_union; [|auto]. split; [done|].
      apply (inv_owned _ _ Hv). rewrite Er. left.
  - eapply inv_run; eauto.
Qed.

Lemma initial_inv c : initial c -> inv c [].
Proof.
  intros (Ht & Hp & Hh & Hid & Hout).
  assert (Ha : all_owned (threads c) = []).
  { unfold all_owned. induction Hid as [|t ts Hpc _ IH]; [done|]. cbn. rewrite IH.
    unfold owned. rewrite Hpc. done. }
  split.
  - exists 0. rewrite Ht, Hp. done.
  - rewrite Ha. constructor.
  - intros n Hn. rewrite Ha. split; [apply not_elem_of_nil|auto].
  - intros n. rewrite Ha. intros Hn. by apply not_elem_of_nil in Hn.
  - intros i t Hi. rewrite Forall_lookup in Hid. unfold knows. rewrite (Hid i t Hi). done.
  - rewrite Hh. done.
Qed.

Lemma reachable_inv c : reachable c -> exists l, inv c l.
Proof.
  intros (c0 & Hi & Hr). pose proof (initial_inv _ Hi) as H0. revert H0. generalize (@nil Z).
  clear Hi. induction Hr as [c|c1 c2 c3 Hs _ IH]; intros l Hv; [eauto|].
  destruct (inv_step _ _ _ Hv Hs) as [l' Hv']. eapply IH, Hv'.
Qed.

(** ** A thread alone *)
Fixpoint alone (k : nat) (c : pc) (m : mem) : pc * mem :=
  match k with
  | O => (c, m)
  | S k => let '(c', m', _) := step c m in alone k c' m'
  end.

(** The effect of a call of [Push] and of [Pop] that nobody disturbs. *)
Definition push_alone (m : mem) (n : Z) : mem :=
  set_top (set_next m n (ptr_of (top m))) (pack n (tag_of (top m))).
Definition pop_alone (m : mem) : option Z * mem :=
  if ptr_of (top m) =? 0 then (None, m)
  else (Some (ptr_of (top m)), set_top m (pack (next m (ptr_of (top m))) (tag_of (top m) + 1))).

Lemma alone_push m n : alone 3 (Push n) m = (Idle, push_alone m n).
Proof. cbn. rewrite Z.eqb_refl. done. Qed.

Lemma alone_pop m : alone 3 Pop m = (Popped (pop_alone m).1, (pop_alone m).2).
Proof. unfold pop_alone. cbn. destruct (_ =? 0); cbn; [done|]. rewrite Z.eqb_refl. done. Qed.

(** The nodes of a stack in memory. *)
Definition stack_is (m : mem) (l : list Z) : Prop :=
  exists p t, top m = pack p t /\ chain (next m) p l.

Lemma stack_is_empty nx : stack_is (mkMem 0 nx) [].
Proof. exists 0, 0. done. Qed.

Lemma stack_is_range m l n : stack_is m l -> n ∈ l -> 0 < n < 2 ^ 47.
Proof. intros (p & t & _ & Hc). eapply chain_node, Hc. Qed.

Lemma push_alone_stack m l n :
  stack_is m l -> 0 < n < 2 ^ 47 -> n ∉ l -> stack_is (push_alone m n) (n :: l).
Proof.
  intros (p & t & Hp & Hc) Hn Hnl. pose proof (chain_range _ _ _ Hc).
  exists n, (tag_of (top m)). split; [done|]. cbn. split_and!; [done|lia|lia|].
  rewrite Z.eqb_refl, Hp, ptr_of_pack by done. eapply chain_ext; [exact Hc|].
  intros x Hx. cbn. replace (x =? n) with false; [done|]. symmetry. apply Z.eqb_neq. congruence.
Qed.

Lemma pop_alone_stack m l :
  stack_is m l ->
  match l with
  | [] => pop_alone m = (None, m)
  | n :: l' => exists m', pop_alone m = (Some n, m') /\ stack_is m' l'
  end.
Proof.
  intros (p & t & Hp & Hc). pose proof (chain_range _ _ _ Hc). unfold pop_alone.
  rewrite Hp, ptr_of_pack by done. destruct l as [|n l]; cbn in Hc; [rewrite Hc; done|].
  destruct Hc as (-> & Hn & Hc). replace (n =? 0) with false by lia. eexists; split; [done|].
  exists (next m n), (tag_of (pack n t) + 1). done.
Qed.

(** [k] times: pop, then push of node [x]. *)
Definition again (x : Z) (m : mem) : mem := push_alone (pop_alone m).2 x.

Lemma again_iter x t k m :
  0 < x < 2 ^ 47 -> top m = pack x t -> next m x = 0 ->
  top (Nat.iter k (again x) m) = pack x (t + Z.of_nat k) /\ next (Nat.iter k (again x) m) x = 0 /\
  forall y, y <> x -> next (Nat.iter k (again x) m) y = next m y.
Proof.
  intros Hx Ht Hn. induction k as [|k (IHt & IHn & IHy)]; [rewrite Z.add_0_r; done|].
  revert IHt IHn IHy. rewrite Nat.iter_succ. generalize (Nat.iter k (again x) m) as m1.
  intros m1 IHt IHn IHy.
  unfold again, pop_alone, push_alone. rewrite IHt, ptr_of_pack by lia.
  replace (x =? 0) with false by lia. cbn. rewrite IHn, Z.eqb_refl, !tag_of_pack by lia.
  rewrite ptr_of_pack by lia. split_and!; [|done|].
  - rewrite pack_mod by lia. rewrite <- pack_mod, Zplus_mod_idemp_l, pack_mod by lia. f_equal. lia.
  - intros y Hy. replace (y =? x) with false by lia. auto.
Qed.

(** ** Schedules *)
Inductive command := CPush (i : nat) (n : Z) | CPop (i : nat) | CReturn (i : nat) | CRun (i : nat).

Definition command_step (c : config) (o : command) : option config :=
  match o with
  | CPush i n =>
      t ← threads c !! i;
      match at_pc t with
      | Idle => if decide (n ∈ outside c)
                then Some (mkConfig (shared c) (<[i := mkThread (Push n) (seen t)]> (threads c))
                             (pops c) (outside c ∖ {[n]}) (hist c))
                else None
      | _ => None
      end
  | CPop i =>
      t ← threads c !! i;
      match at_pc t with
      | Idle => Some (mkConfig (shared c) (<[i := mkThread Pop (seen t)]> (threads c)) (pops c)
                        (outside c) (hist c))
      | _ => None
      end
  | CReturn i =>
      t ← threads c !! i;
      match at_pc t with
      | Popped r => Some (mkConfig (shared c) (<[i := mkThread Idle (seen t)]> (threads c)) (pops c)
                      (match r with Some n => {[n]} ∪ outside c | None => outside c end) (hist c))
      | _ => None
      end
  | CRun i =>
      t ← threads c !! i;
      match at_pc t with
      | PopCas _ _ => if pops c - seen t <? 2 ^ 17 then Some (advance c i t) else None
      | _ => Some (advance c i t)
      end
  end.

Definition after (os : list command) (c : config) : config :=
  fold_left (fun c o => default c (command_step c o)) os c.

Lemma command_step_sched c o c' : command_step c o = Some c' -> sched_step c c'.
Proof.
  destruct o as [i n|i|i|i]; cbn; destruct (threads c !! i) as [t|] eqn:Hi; cbn; try done;
    destruct (at_pc t) eqn:Hpc; try done.
  { destruct (decide _); [|done]. intros [= <-]. econstructor; eauto. }
  { intros [= <-]. econstructor; eauto. }
  { intros [= <-]. econstructor; eauto. }
  all: try (intros [= <-]; apply sched_run; [done|unfold in_window; rewrite Hpc; done]).
  all: destruct (Z.ltb_spec (pops c - seen t) (2 ^ 17)); [|done]; intros [= <-];
    apply sched_run; [done|unfold in_window; rewrite Hpc; done].
Qed.

Lemma run_reachable os c : reachable c -> reachable (after os c).
Proof.
  revert c. induction os as [|o os IH]; intros c Hc; [exact Hc|]. cbn. apply IH.
  destruct (command_step c o) as [c'|] eqn:E; [|exact Hc]. destruct Hc as (c0 & Hi & Hr).
  exists c0. split; [done|]. eapply rtc_r; [exact Hr|]. eapply command_step_sched, E.
Qed.

(** ** Properties *)

(** C29: the free stack of the pools is linearizable and hands out each node once. In
    every interleaving of any number of threads that push nodes they hold and pop,
    in which no thread sleeps between reading the top and exchanging it while
    [2^17] pops happen, the operations that took effect are, in their order, a
    history of a sequential stack; the nodes in memory are that stack; and a node is
    in the stack, or in the hands of one thread or client, never twice. *)
Theorem tagged_stack_linearizable c :
  reachable c ->
  exists l, replay [] (hist c) = Some l /\
    (exists p, top (shared c) = pack p (pops c) /\ chain (next (shared c)) p l) /\
    NoDup (l ++ all_owned (threads c)) /\
    forall n, n ∈ outside c -> n ∉ l ++ all_owned (threads c).
Proof.
  intros Hr. destruct (reachable_inv _ Hr) as [l Hv]. exists l.
  split_and!; [apply (inv_hist _ _ Hv)|apply (inv_chain _ _ Hv)|apply (inv_nodup _ _ Hv)|].
  intros n Hn. apply (inv_outside _ _ Hv n Hn).
Qed.

(** [Push] and [Pop] end when they are not disturbed: from any point of either,
    and whatever is in memory, a thread that runs alone is done within six accesses. *)
Theorem alone_ends (c : pc) (m : mem) :
  exists k m', (k <= 6)%nat /\
    (alone k c m = (Idle, m') \/ exists r, alone k c m = (Popped r, m')).
Proof.
  assert (Hpop : forall m1, exists r m2, alone 3 PopRead m1 = (Popped r, m2)).
  { intros m1. rewrite alone_pop. eauto. }
  destruct c as [|n|n bk|n bk| |bk|bk nx|r].
  - exists 0%nat, m. split; [lia|]. left. done.
  - exists 3%nat, (push_alone m n). split; [lia|]. left. apply alone_push.
  - destruct (Z.eqb_spec (top m) bk) as [E|E].
    + exists 2%nat. eexists. split; [lia|]. left. cbn. rewrite (proj2 (Z.eqb_eq _ _) E). done.
    + exists 5%nat, (push_alone (set_next m n (ptr_of bk)) n). split; [lia|]. left.
      cbn [alone step set_next top]. rewrite (proj2 (Z.eqb_neq _ _) E). apply alone_push.
  - destruct (Z.eqb_spec (top m) bk) as [E|E].
    + exists 1%nat. eexists. split; [lia|]. left. cbn. rewrite (proj2 (Z.eqb_eq _ _) E). done.
    + exists 4%nat, (push_alone m n). split; [lia|]. left.
      cbn [alone step]. rewrite (proj2 (Z.eqb_neq _ _) E). apply alone_push.
  - destruct (Hpop m) as (r & m2 & E). exists 3%nat, m2. split; [lia|]. eauto.
  - destruct (Z.eqb_spec (top m) bk) as [E|E].
    + exists 2%nat. eexists. split; [lia|]. right. cbn. rewrite (proj2 (Z.eqb_eq _ _) E). eauto.
    + destruct (Hpop m) as (r & m2 & E2). exists 5%nat, m2. split; [lia|]. right. exists r.
      cbn [alone step]. rewrite (proj2 (Z.eqb_neq _ _) E). exact E2.
  - destruct (Z.eqb_spec (top m) bk) as [E|E].
    + exists 1%nat. eexists. split; [lia|]. right. cbn. rewrite (proj2 (Z.eqb_eq _ _) E). eauto.
    + destruct (Hpop m) as (r & m2 & E2). exists 4%nat, m2. split; [lia|]. right. exists r.
      cbn [alone step]. rewrite (proj2 (Z.eqb_neq _ _) E). exact E2.
  - exists 0%nat, m. split; [lia|]. right. eauto.
Qed.

(** The window of [2^17] pops is needed. A thread reads the top node [x] and the
    node [y] under it and sleeps; another pops both, keeps [y], and pushes and pops
    [x] until exactly [2^17] pops have happened. The sleeper's exchange succeeds: it
    gets [x], and the node the other one holds is again the top of the stack. *)
Theorem tag_wraps_around (m : mem) (x y t : Z) :
  0 < x < 2 ^ 47 -> 0 < y < 2 ^ 47 -> x <> y ->
  top m = pack x t -> next m x = y -> next m y = 0 ->
  let sleeper := (alone 2 Pop m).1 in
  let '(r1, m1) := pop_alone m in
  let '(r2, m2) := pop_alone m1 in
  let m3 := Nat.iter (Z.to_nat (2 ^ 17 - 2)) (again x) (push_alone m2 x) in
  r1 = Some x /\ r2 = Some y /\
  exists m4, step sleeper m3 = (Popped (Some x), m4, [OpPop x]) /\ ptr_of (top m4) = y.
Proof.
  intros Hx Hy Hxy Ht Hnx Hny. unfold pop_alone at 1. rewrite Ht, ptr_of_pack by lia.
  replace (x =? 0) with false by lia. rewrite Hnx, tag_of_pack by lia.
  unfold pop_alone. cbn [top set_top next]. rewrite ptr_of_pack by lia.
  replace (y =? 0) with false by lia. rewrite Hny, !tag_of_pack by lia. cbv zeta.
  split_and!; [done..|]. cbn [alone step Pop]. rewrite Ht, ptr_of_pack by lia.
  replace (x =? 0) with false by lia. cbn [alone step fst]. rewrite ptr_of_pack, Hnx by lia.
  set (m2 := set_top _ _).
  destruct (again_iter x (t mod 2 ^ 17 + 1 + 1) (Z.to_nat (2 ^ 17 - 2)) (push_alone m2 x))
    as (E & _ & _); [lia| | |].
  - unfold m2, push_alone. cbn. rewrite tag_of_pack, pack_mod by lia.
    rewrite <- pack_mod, Zplus_mod_idemp_l, pack_mod by lia. done.
  - unfold m2, push_alone. cbn. rewrite Z.eqb_refl, ptr_of_pack by lia. done.
  - assert (Ep : top (Nat.iter (Z.to_nat (2 ^ 17 - 2)) (again x) (push_alone m2 x)) = pack x t).
    { rewrite E, Z2Nat.id by lia. rewrite <- pack_mod by lia.
      replace (t mod 2 ^ 17 + 1 + 1 + (2 ^ 17 - 2)) with (t mod 2 ^ 17 + 1 * 2 ^ 17) by lia.
      rewrite Z_mod_plus_full, Zmod_mod, pack_mod by lia. done. }
    rewrite Ep, Z.eqb_refl. eexists. split; [done|]. cbn. apply ptr_of_pack. lia.
Qed.

(** ** Witnesses *)
Definition start : config :=
  mkConfig (mkMem 0 (fun _ => 0)) [mkThread Idle 0; mkThread Idle 0] 0 {[4096; 8192]} [].

(** Two pushes and two pops that race: a thread loses an exchange of each kind. *)
Definition race : list command :=
  [CPush 0 4096; CPush 1 8192; CRun 0; CRun 1; CRun 0; CRun 1; CRun 0; CRun 1; CRun 1; CRun 1; CRun 1;
   CPop 0; CPop 1; CRun 0; CRun 1; CRun 0; CRun 1; CRun 1; CRun 0; CRun 0; CReturn 1; CRun 0].

Lemma start_reachable : reachable start.
Proof.
  exists start. split; [|apply rtc_refl]. split_and!; [done..| |].
  - repeat constructor.
  - intros n [->%elem_of_singleton| ->%elem_of_singleton]%elem_of_union; lia.
Qed.

Lemma tagged_stack_linearizable_witness :
  hist (after race start) = [OpPush 4096; OpPush 8192; OpPop 8192] /\
  exists l, replay [] (hist (after race start)) = Some l /\
    (exists p, top (shared (after race start)) = pack p (pops (after race start)) /\
               chain (next (shared (after race start))) p l) /\
    NoDup (l ++ all_owned (threads (after race start))) /\
    forall n, n ∈ outside (after race start) -> n ∉ l ++ all_owned (threads (after race start)).
Proof.
  split; [vm_compute; reflexivity|].
  exact (tagged_stack_linearizable (after race start) (run_reachable race start start_reachable)).
Defined.

Lemma tag_wraps_around_witness :
  let m := mkMem 4096 (fun p => if p =? 4096 then 8192 else 0) in
  (pop_alone m).1 = Some 4096 /\ (pop_alone (pop_alone m).2).1 = Some 8192.
Proof.
  intros m. pose proof (tag_wraps_around m 4096 8192 0) as H.
  cbn [pop_alone] in H. split; [|].
  - destruct (pop_alone m) as [r1 m1] eqn:E1. destruct (pop_alone m1) as [r2 m2] eqn:E2.
    apply H; lia || reflexivity.
  - destruct (pop_alone m) as [r1 m1] eqn:E1. cbn [fst snd]. destruct (pop_alone m1) as [r2 m2] eqn:E2.
    apply H; lia || reflexivity.
Defined.
End TaggedStack.
