(* ===== verification/MemoryPool.v ===== *)
(** * The memory pool of [MemoryPool.h]

    Blocks made at construction and blocks added later up to a limit, kept in a
    tagged free stack; two codes around each object tell a block in use from a free
    one and from a block of another pool. The interleavings of the free stack are in
    [TaggedStack]; here each call runs alone, and the pool is shown to implement the
    pool interface of [ObjectPool]. *)
From S2P Require Import Prelude.
From S2P Require Import ObjectPool.
From S2P Require Import TaggedStack.
From stdpp Require Import prelude gmap list list_numbers.
From Stdlib Require Import ZArith Lia.
Open Scope Z_scope.

Module MemoryPool.

(** ** Data *)

(** The two codes of a block; its [_next] is in the memory of the free stack and its
    [_data] belongs to the client. *)
Record BLOCK := mkBlock { _preCode : Z; _postCode : Z }.
#[export] Instance BLOCK_eq_dec : EqDecision BLOCK.
Proof. solve_decision. Defined.

(** Sizes the compiler chooses for [BLOCK]. *)
Record layout := mkLayout { sizeofBLOCK : Z; alignofBLOCK : Z; offsetof_data : Z }.

(** [blocks] are the codes in memory, [objects] the addresses of constructed objects,
    [heap] the addresses [_aligned_malloc] will return, in order. *)
Record t := mk {
  lay : layout;
  _blockPool : Z;
  freeStack : TaggedStack.mem;
  blocks : gmap Z BLOCK;
  objects : gset Z;
  _addBlockAllocator : option TaggedStack.mem;
  _addAllocCnt : Z;
  _addAllocMax : Z;
  _useCnt : Z;
  _totalCnt : Z;
  _myCode : Z;
  _isPlacementNew : bool;
  heap : list Z;
  _allocAddr : Z;
}.

Definition set_stack (p : t) (m : TaggedStack.mem) : t :=
  mk (lay p) (_blockPool p) m (blocks p) (objects p) (_addBlockAllocator p) (_addAllocCnt p)
    (_addAllocMax p) (_useCnt p) (_totalCnt p) (_myCode p) (_isPlacementNew p) (heap p) (_allocAddr p).
Definition set_block (p : t) (b : Z) (k : BLOCK) : t :=
  mk (lay p) (_blockPool p) (freeStack p) (<[b := k]> (blocks p)) (objects p)
    (_addBlockAllocator p) (_addAllocCnt p) (_addAllocMax p) (_useCnt p) (_totalCnt p) (_myCode p)
    (_isPlacementNew p) (heap p) (_allocAddr p).
Definition set_objects (p : t) (o : gset Z) : t :=
  mk (lay p) (_blockPool p) (freeStack p) (blocks p) o (_addBlockAllocator p) (_addAllocCnt p)
    (_addAllocMax p) (_useCnt p) (_totalCnt p) (_myCode p) (_isPlacementNew p) (heap p) (_allocAddr p).
Definition set_addAllocCnt (p : t) (n : Z) : t :=
  mk (lay p) (_blockPool p) (freeStack p) (blocks p) (objects p) (_addBlockAllocator p) n
    (_addAllocMax p) (_useCnt p) (_totalCnt p) (_myCode p) (_isPlacementNew p) (heap p) (_allocAddr p).
Definition set_counts (p : t) (use tot : Z) : t :=
  mk (lay p) (_blockPool p) (freeStack p) (blocks p) (objects p) (_addBlockAllocator p)
    (_addAllocCnt p) (_addAllocMax p) use tot (_myCode p) (_isPlacementNew p) (heap p) (_allocAddr p).
Definition set_allocator (p : t) (a : TaggedStack.mem) (h : list Z) : t :=
  mk (lay p) (_blockPool p) (freeStack p) (blocks p) (objects p) (Some a) (_addAllocCnt p)
    (_addAllocMax p) (_useCnt p) (_totalCnt p) (_myCode p) (_isPlacementNew p) h (_allocAddr p).

(** What a read of the codes at an address that is no block of the pool finds: whatever is
    there, or nothing when the memory cannot be read. *)
Class Memory := outside : Z -> option BLOCK.

(** The codes at an address. *)
Definition codes {mem : Memory} (p : t) (b : Z) : outcome BLOCK :=
  match blocks p !! b with
  | Some k => Ok k
  | None => match outside b with Some k => Ok k | None => Fault OutOfBounds end
  end.

(** [~code] on 64 bits. *)
Definition code_not (c : Z) : Z := u64 (Z.lnot c).

(** ** The free stack *)
Definition Push (p : t) (b : Z) : t := set_stack p (TaggedStack.push_alone (freeStack p) b).

Definition Pop (p : t) : option Z * t :=
  let '(r, m) := TaggedStack.pop_alone (freeStack p) in (r, set_stack p m).

(** ** [BlockAllocator] *)
Module BlockAllocator.

Definition new : TaggedStack.mem := TaggedStack.mkMem 0 (fun _ => 0).

Definition Push (a : TaggedStack.mem) (pPushNode : Z) : TaggedStack.mem :=
  TaggedStack.push_alone a pPushNode.

Definition Pop (a : TaggedStack.mem) : option Z * TaggedStack.mem := TaggedStack.pop_alone a.

(** The block is the first member of the node. *)
Definition Alloc (a : TaggedStack.mem) (heap : list Z) : option Z * TaggedStack.mem * list Z :=
  match heap with
  | [] => (None, a, [])
  | newNode :: heap =>
      if newNode =? 0 then (None, a, heap) else (Some newNode, Push a newNode, heap)
  end.

(** [~BlockAllocator]: the nodes it gives to [_aligned_free], within [fuel] turns. *)
Fixpoint destroy (fuel : nat) (a : TaggedStack.mem) : option (list Z) :=
  match fuel with
  | O => None
  | S fuel =>
      match Pop a with
      | (None, _) => Some []
      | (Some n, a) => l ← destroy fuel a; Some (n :: l)
      end
  end.

End BlockAllocator.

(** ** Construction *)
Inductive new_error := BadOS | InitAboveMax | BadParameter | NoMemory.

(** The block loop: block [i]. *)
Definition init_block (p : t) (i : Z) : t :=
  let b := _blockPool p + sizeofBLOCK (lay p) * i in
  let p := set_block p b (mkBlock (_myCode p) (code_not (_myCode p))) in
  let p := set_stack p (TaggedStack.set_top
             (TaggedStack.set_next (freeStack p) b (TaggedStack.top (freeStack p))) b) in
  if _isPlacementNew p then p else set_objects p ({[b + offsetof_data (lay p)]} ∪ objects p).

(** The constructor. [secure] is [secure_code] after the increment, [addr] what
    [VirtualAlloc] returns. *)
Definition new (l : layout) (good_os : bool) (initBlockNum maxBlockLimit : Z) (isPlacementNew : bool)
    (secure addr : Z) (hp : list Z) : new_error + t :=
  if negb good_os then inl BadOS
  else if maxBlockLimit <? initBlockNum then inl InitAboveMax
  else if (initBlockNum =? 0) && (maxBlockLimit =? 0) then inl BadParameter
  else
    let extra := u64 (maxBlockLimit - initBlockNum) in
    let alloc := if 0 <? extra then Some BlockAllocator.new else None in
    let addMax := if 0 <? extra then extra else 0 in
    let p := mk l 0 (TaggedStack.mkMem 0 (fun _ => 0)) ∅ ∅ alloc (u64 (-1)) addMax
               0 initBlockNum secure isPlacementNew hp 0 in
    if initBlockNum =? 0 then inr p
    else if addr =? 0 then inl NoMemory
    else
      let alignCnt := (addr + alignofBLOCK l - 1) / alignofBLOCK l in
      let p := mk l (alignofBLOCK l * alignCnt) (freeStack p) (blocks p) (objects p) alloc (u64 (-1))
                 addMax 0 initBlockNum secure isPlacementNew hp addr in
      inr (fold_left init_block (seqZ 0 initBlockNum) p).

(** ** [Alloc] and [Free] *)

(** The address of the object in a block, and back. *)
Definition data_of (p : t) (b : Z) : Z := b + offsetof_data (lay p).
Definition block_of (p : t) (data : Z) : Z := data - offsetof_data (lay p).

(** A block from the additional allocator. *)
Definition AddBlock (p : t) : outcome (option Z * t) :=
  let myNum := u64 (_addAllocCnt p + 1) in
  let p := set_addAllocCnt p myNum in
  if myNum =? _addAllocMax p then Ok (None, p)
  else if _addAllocMax p <? myNum then Ok (None, set_addAllocCnt p (u64 (_addAllocCnt p - 1)))
  else
    match _addBlockAllocator p with
    | None => Fault NullDeref
    | Some a =>
        let '(popNode, a, hp) := BlockAllocator.Alloc a (heap p) in
        let p := set_allocator p a hp in
        match popNode with
        | None => Ok (None, p)
        | Some b =>
            let p := set_block p b (mkBlock (_myCode p) (_myCode p)) in
            let p := set_counts p (_useCnt p) (u64 (_totalCnt p + 1)) in
            let p := set_stack p (TaggedStack.set_next (freeStack p) b 0) in
            Ok (Some b, if _isPlacementNew p then p
                        else set_objects p ({[data_of p b]} ∪ objects p))
        end
    end.

Definition Alloc {mem : Memory} (p : t) : outcome (option Z * t) :=
  let '(popped, p) := Pop p in
  '(popNode, p) ←
    match popped with
    | None => AddBlock p
    | Some b =>
        k ← codes p b;
        Ok (Some b, set_block p b (mkBlock (_preCode k) (code_not (_postCode k))))
    end;
  match popNode with
  | None => Ok (None, p)
  | Some b =>
      let p := set_counts p (u64 (_useCnt p + 1)) (_totalCnt p) in
      Ok (Some (data_of p b),
          if _isPlacementNew p then set_objects p ({[data_of p b]} ∪ objects p) else p)
  end.

Definition Free {mem : Memory} (p : t) (data : Z) : outcome (bool * t) :=
  let pushNode := block_of p data in
  k ← codes p pushNode;
  if negb (_preCode k =? _postCode k) then Ok (false, p)
  else if negb (_preCode k =? _myCode p) then Ok (false, p)
  else
    let p := set_block p pushNode (mkBlock (_preCode k) (code_not (_postCode k))) in
    let p := set_counts p (u64 (_useCnt p - 1)) (_totalCnt p) in
    let p := if _isPlacementNew p then set_objects p (objects p ∖ {[data]}) else p in
    Ok (true, Push p pushNode).

(** ** Destruction

    [~MemoryPool]: the address it gives to [VirtualFree], 0 for none, and the nodes it
    gives to [_aligned_free]; the loop over the nodes takes [fuel] turns at most. *)
Definition destroy (fuel : nat) (p : t) : option (Z * list Z) :=
  match _addBlockAllocator p with
  | None => Some (_allocAddr p, [])
  | Some a => ns ← BlockAllocator.destroy fuel a; Some (_allocAddr p, ns)
  end.

Section pool.
Context {mem : Memory}.

(** ** Invariant *)
Definition in_use (p : t) : BLOCK := mkBlock (_myCode p) (_myCode p).
Definition unused (p : t) : BLOCK := mkBlock (_myCode p) (code_not (_myCode p)).

(** The blocks clients hold. *)
Definition held (p : t) : gset Z := dom (filter (fun kv => kv.2 = in_use p) (blocks p)).

Lemma elem_of_held p b : b ∈ held p <-> blocks p !! b = Some (in_use p).
Proof.
  unfold held. rewrite elem_of_dom. split.
  - intros [k Hk]. apply map_lookup_filter_Some in Hk as [Hk Ek]. cbn in Ek. congruence.
  - intros Hb. exists (in_use p). apply map_lookup_filter_Some. done.
Qed.

(** A whole block fits at [b]. *)
Definition fits (la : layout) (b : Z) : Prop := 0 < b /\ b + sizeofBLOCK la <= 2 ^ 47.

Lemma fits_range la b : 0 <= offsetof_data la < sizeofBLOCK la -> fits la b -> 0 < b < 2 ^ 47.
Proof. unfold fits. lia. Qed.

(** The free blocks are [l]; blocks made, blocks that can still be added and additions
    that [lost] their memory make up [limit]. *)
Record ok (p : t) (l : list Z) (limit lost : Z) : Prop := mkOk {
  ok_code : 1 <= _myCode p < 2 ^ 64;
  ok_lay : 0 <= offsetof_data (lay p) < sizeofBLOCK (lay p);
  ok_stack : TaggedStack.stack_is (freeStack p) l;
  ok_nodup : NoDup l;
  ok_free : forall b, b ∈ l <-> blocks p !! b = Some (unused p);
  ok_codes : forall b k, blocks p !! b = Some k -> (k = in_use p \/ k = unused p) /\ fits (lay p) b;
  ok_heap : NoDup (filter (fun h => h <> 0) (heap p)) /\
    forall h, h ∈ heap p -> h <> 0 -> fits (lay p) h /\ blocks p !! h = None;
  ok_adder : match _addBlockAllocator p with
             | None => _addAllocMax p = 0
             | Some a => exists ns, TaggedStack.stack_is a ns /\ NoDup ns /\
                           forall n, n ∈ ns -> is_Some (blocks p !! n)
             end;
  ok_count : exists tries, 0 <= tries <= _addAllocMax p + 1 /\ _addAllocMax p + 1 < 2 ^ 64 /\
    _addAllocCnt p = u64 (tries - 1) /\ 0 <= lost /\
    Z.of_nat (size (blocks p)) + (_addAllocMax p - Z.min tries (_addAllocMax p)) + lost = limit;
  ok_objects : forall b k, blocks p !! b = Some k -> k = in_use p \/ _isPlacementNew p = false ->
    data_of p b ∈ objects p;
}.

Lemma code_not_eq c : 0 <= c < 2 ^ 64 -> code_not c = 2 ^ 64 - 1 - c.
Proof.
  intros Hc. unfold code_not, uint. replace (Z.lnot c) with (2 ^ 64 - 1 - c + (-1) * 2 ^ 64)
    by (unfold Z.lnot; lia). rewrite Z_mod_plus_full, Z.mod_small by lia. done.
Qed.

Lemma code_not_not c : 0 <= c < 2 ^ 64 -> code_not (code_not c) = c.
Proof. intros Hc. rewrite (code_not_eq c), code_not_eq by lia. lia. Qed.

Lemma code_not_ne c : 0 <= c < 2 ^ 64 -> code_not c <> c.
Proof. intros Hc. rewrite code_not_eq by lia. lia. Qed.

Lemma in_use_unused p : 1 <= _myCode p < 2 ^ 64 -> in_use p <> unused p.
Proof. intros Hc [= E]. symmetry in E. apply code_not_ne in E; lia. Qed.

Lemma held_take p p' b :
  blocks p' = <[b := in_use p]> (blocks p) -> _myCode p' = _myCode p -> held p' = {[b]} ∪ held p.
Proof.
  intros E1 E2. assert (E : in_use p' = in_use p) by (unfold in_use; rewrite E2; done).
  apply set_eq. intros x. rewrite elem_of_union, elem_of_singleton, !elem_of_held, E1, E, lookup_insert_Some.
  split; [intros [[-> _]|[_ ?]]; auto|].
  intros [->|Hx]; [auto|]. destruct (decide (b = x)); auto.
Qed.

Lemma held_drop p p' b :
  1 <= _myCode p < 2 ^ 64 ->
  blocks p' = <[b := unused p]> (blocks p) -> _myCode p' = _myCode p -> held p' = held p ∖ {[b]}.
Proof.
  intros Hc E1 E2. assert (E : in_use p' = in_use p) by (unfold in_use; rewrite E2; done).
  pose proof (in_use_unused p Hc) as Hne.
  apply set_eq. intros x. rewrite elem_of_difference, elem_of_singleton, !elem_of_held, E1, E, lookup_insert_Some.
  split; [intros [[_ ?]|[? ?]]; [congruence|auto]|intros [? ?]; auto].
Qed.

(** What two pools have in common that differ in a free stack, codes and objects. *)
Definition same_setting (p p' : t) : Prop :=
  (lay p', _addBlockAllocator p', _addAllocCnt p', _addAllocMax p', _myCode p', _isPlacementNew p', heap p') =
  (lay p, _addBlockAllocator p, _addAllocCnt p, _addAllocMax p, _myCode p, _isPlacementNew p, heap p).

(** A known block changes hands. *)
Lemma ok_flip p p' l l' limit lost b k :
  ok p l limit lost -> same_setting p p' ->
  is_Some (blocks p !! b) -> blocks p' = <[b := k]> (blocks p) -> k = in_use p \/ k = unused p ->
  TaggedStack.stack_is (freeStack p') l' -> NoDup l' ->
  (forall x, x ∈ l' <-> (x = b /\ k = unused p) \/ (x <> b /\ x ∈ l)) ->
  (forall x, x <> b -> data_of p x ∈ objects p -> data_of p x ∈ objects p') ->
  (k = in_use p \/ _isPlacementNew p = false -> data_of p b ∈ objects p') ->
  ok p' l' limit lost.
Proof.
  intros [] [= Ela Eal Ecn Emx Emy Epl Ehp] Hb Eb Hk Hst Hnd Hl Hobj Hobjb.
  assert (Eu : in_use p' = in_use p) by (unfold in_use; rewrite Emy; done).
  assert (Ef : unused p' = unused p) by (unfold unused; rewrite Emy; done).
  assert (Ed : forall x, data_of p' x = data_of p x) by (intros x; unfold data_of; rewrite Ela; done).
  split; rewrite ?Ela, ?Emy, ?Eal, ?Ecn, ?Emx, ?Ehp, ?Epl, ?Eb, ?Eu, ?Ef; try done.
  - intros x. rewrite Hl, lookup_insert_Some, <- ok_free0. intuition congruence.
  - intros x k'. rewrite lookup_insert_Some. intros [[<- <-]|[_ Hx]]; [|eauto].
    split; [done|]. destruct Hb as [k0 Hb]. apply (ok_codes0 _ _ Hb).
  - destruct ok_heap0 as [? Hh]. split; [done|]. intros h Hi H0. destruct (Hh h Hi H0) as [? Hn].
    split; [done|]. rewrite lookup_insert_ne; [done|]. intros ->. rewrite Hn in Hb. by destruct Hb.
  - destruct (_addBlockAllocator p) as [a|]; [|done]. destruct ok_adder0 as (ns & ? & ? & Hns).
    exists ns. split_and!; [done..|]. intros n Hn. destruct (decide (b = n)) as [->|Hne].
    + rewrite lookup_insert_eq. eauto.
    + rewrite lookup_insert_ne by done. auto.
  - rewrite map_size_insert. destruct Hb as [k0 ->]. done.
  - intros x k'. rewrite lookup_insert_Some, Ed. intros [[<- <-]|[Hne Hx]] Hu; [auto|].
    apply Hobj; [done|]. eauto.
Qed.

(** [Alloc] when the additional allocator gives a block. *)
Lemma Alloc_grow p tries a b hp :
  TaggedStack.pop_alone (freeStack p) = (None, freeStack p) ->
  u64 (_addAllocCnt p + 1) = tries -> tries <> _addAllocMax p -> tries <= _addAllocMax p ->
  _addBlockAllocator p = Some a -> heap p = b :: hp -> b <> 0 ->
  exists p', Alloc p = Ok (Some (data_of p b), p') /\
    (lay p', _addBlockAllocator p', _addAllocCnt p', _addAllocMax p', _myCode p', _isPlacementNew p', heap p') =
    (lay p, Some (TaggedStack.push_alone a b), tries, _addAllocMax p, _myCode p, _isPlacementNew p, hp) /\
    blocks p' = <[b := in_use p]> (blocks p) /\ freeStack p' = TaggedStack.set_next (freeStack p) b 0 /\
    objects p' = {[data_of p b]} ∪ objects p.
Proof.
  intros Hpop Hu Hne Hle Ha Hh Hb. unfold Alloc, Pop, AddBlock. rewrite Hpop.
  destruct p as [la bp fs bl ob al ac am uc tc my ipn hh aa]. cbn in *. subst al hh. rewrite Hu.
  rewrite (proj2 (Z.eqb_neq _ _) Hne). replace (am <? tries) with false by lia.
  unfold BlockAllocator.Alloc, BlockAllocator.Push. rewrite (proj2 (Z.eqb_neq _ _) Hb). cbn.
  destruct ipn; cbn; eexists; (split; [reflexivity|]); done.
Qed.

Section steps.
Context (p : t) (l : list Z) (limit lost : Z) (Hok : ok p l limit lost).

(** [Alloc] with a free block. *)
Lemma Alloc_reuse b l' :
  l = b :: l' ->
  exists p', Alloc p = Ok (Some (data_of p b), p') /\ ok p' l' limit lost /\
    held p' = {[b]} ∪ held p /\ (b ∉ held p) /\ lay p' = lay p /\ heap p' = heap p.
Proof.
  intros ->. pose proof Hok as []. pose proof (TaggedStack.pop_alone_stack _ _ ok_stack0) as (m & Em & Hm).
  assert (Hb : blocks p !! b = Some (unused p)) by (apply ok_free0; left).
  assert (Hne := in_use_unused p ok_code0). apply NoDup_cons in ok_nodup0 as [Hbl Hnd].
  unfold Alloc, Pop. rewrite Em. cbn. unfold codes. cbn. rewrite Hb. cbn.
  rewrite code_not_not by lia. fold (in_use p). eexists. split; [done|].
  set (p' := if _isPlacementNew p then _ else _).
  assert (Hp' : same_setting p p' /\ blocks p' = <[b := in_use p]> (blocks p) /\ freeStack p' = m /\
                objects p ⊆ objects p' /\ (_isPlacementNew p = true -> data_of p b ∈ objects p')).
  { unfold p'. destruct (_isPlacementNew p) eqn:E; cbn; (split_and!; try done).
    - apply union_subseteq_r.
    - intros _. apply elem_of_union_l, elem_of_singleton. done. }
  clearbody p'. destruct Hp' as (Hset & Eb & Est & Hsub & Hplace). pose proof Hset as [= Ela Eal Ecn Emx Emy Epl Ehp].
  split_and!; [|apply held_take; [exact Eb|exact Emy]|rewrite elem_of_held, Hb; congruence|exact Ela|exact Ehp].
  eapply (ok_flip p p' (b :: l') l'); [done|done|eauto|exact Eb|auto|rewrite Est; done|done| |auto|].
  - intros x. rewrite elem_of_cons. split; [|intros [[_ ?]|[? [?|?]]]; done || congruence].
    intros Hx. right. split; [congruence|auto].
  - intros _. destruct (_isPlacementNew p) eqn:Epn; [auto|]. apply Hsub. eapply ok_objects0; eauto.
Qed.

(** [Free] of a block a client holds. *)
Lemma Free_held b :
  b ∈ held p ->
  exists p', Free p (data_of p b) = Ok (true, p') /\ ok p' (b :: l) limit lost /\
    held p' = held p ∖ {[b]} /\ lay p' = lay p /\ heap p' = heap p /\
    (_isPlacementNew p = true -> objects p' = objects p ∖ {[data_of p b]}).
Proof.
  intros Hb%elem_of_held. pose proof Hok as []. pose proof (in_use_unused p ok_code0) as Hne.
  unfold Free, block_of, data_of. rewrite Z.add_simpl_r. unfold codes. rewrite Hb. cbn.
  rewrite !Z.eqb_refl. cbn. fold (unused p).
  eexists. split; [done|]. set (p' := Push _ b).
  assert (Hp' : same_setting p p' /\ blocks p' = <[b := unused p]> (blocks p) /\
                freeStack p' = TaggedStack.push_alone (freeStack p) b /\
                objects p' = if _isPlacementNew p then objects p ∖ {[data_of p b]} else objects p).
  { unfold p'. destruct (_isPlacementNew p) eqn:E; cbn; done. }
  clearbody p'. destruct Hp' as (Hset & Eb & Est & Hobj). pose proof Hset as [= Ela Eal Ecn Emx Emy Epl Ehp].
  assert (Hbl : b ∉ l) by (rewrite ok_free0, Hb; congruence).
  split_and!; [|apply held_drop; [done|exact Eb|exact Emy]|exact Ela|exact Ehp|].
  2: { intros Epn. rewrite Hobj, Epn. done. }
  eapply (ok_flip p p' l (b :: l)); [done|done|eauto|exact Eb|auto| |apply NoDup_cons; done| | |].
  - rewrite Est. apply TaggedStack.push_alone_stack; [done| |done].
    destruct (ok_codes0 _ _ Hb) as [_ [? ?]]. lia.
  - intros x. rewrite elem_of_cons. split; [|intros [[? _]|[_ ?]]; auto].
    intros [->|Hx]; [auto|]. right. split; [congruence|done].
  - intros x Hx Hxo. rewrite Hobj. destruct (_isPlacementNew p); [|done].
    apply elem_of_difference. split; [done|]. rewrite elem_of_singleton. unfold data_of. lia.
  - intros [?|Epn]; [congruence|]. rewrite Hobj, Epn. eapply ok_objects0; eauto.
Qed.

(** [Free] of another block of the pool is refused, and of an address that is no block of
    it when the memory there does not carry the code of the pool twice. *)
Definition may_free (x : Z) : bool :=
  match blocks p !! block_of p x with
  | Some _ => true
  | None => match outside (block_of p x) with Some k => negb (bool_decide (k = in_use p)) | None => false end
  end.

Lemma Free_refused x : block_of p x ∉ held p -> may_free x = true -> Free p x = Ok (false, p).
Proof.
  rewrite elem_of_held. unfold may_free, Free, codes. intros Hx Hm. pose proof Hok as [].
  destruct (blocks p !! block_of p x) as [k|] eqn:E.
  - rewrite bind_Ok. destruct (ok_codes0 _ _ E) as [[->| ->] _]; [congruence|]. cbn.
    pose proof (code_not_ne (_myCode p) ltac:(lia)). destruct (Z.eqb_spec (_myCode p) (code_not (_myCode p))); [congruence|done].
  - destruct (outside _) as [[a b]|]; [|done]. rewrite bind_Ok. cbn.
    apply negb_true_iff, bool_decide_eq_false in Hm. unfold in_use in Hm.
    destruct (Z.eqb_spec a b) as [->|]; [|done]. destruct (Z.eqb_spec b (_myCode p)) as [->|]; done.
Qed.

(** [AddBlock] gives no block when the limit is reached or [_aligned_malloc] fails. *)
Lemma AddBlock_none tries lost' p' :
  0 <= tries -> _addAllocMax p + 1 < 2 ^ 64 -> tries <= _addAllocMax p + 1 ->
  _addAllocCnt p' = u64 (tries - 1) -> 0 <= lost' ->
  Z.of_nat (size (blocks p)) + (_addAllocMax p - Z.min tries (_addAllocMax p)) + lost' = limit ->
  (lay p', blocks p', freeStack p', _addAllocMax p', _myCode p', _isPlacementNew p', objects p') =
  (lay p, blocks p, freeStack p, _addAllocMax p, _myCode p, _isPlacementNew p, objects p) ->
  _addBlockAllocator p' = _addBlockAllocator p -> (exists h, heap p = h ++ heap p') ->
  ok p' l limit lost'.
Proof.
  intros Ht0 Hm Ht Hc Hl0 Hlim [= Ela Eb Est Emx Emy Epl Eo] Eal [h Eh]. pose proof Hok as [].
  assert (Eu : in_use p' = in_use p) by (unfold in_use; rewrite Emy; done).
  assert (Ef : unused p' = unused p) by (unfold unused; rewrite Emy; done).
  split; rewrite ?Ela, ?Emy, ?Eal, ?Emx, ?Epl, ?Eb, ?Eu, ?Ef, ?Est; try done.
  - destruct ok_heap0 as [Hnd Hh]. rewrite Eh in Hnd, Hh. split.
    + rewrite filter_app in Hnd. apply NoDup_app in Hnd as (_ & _ & Hnd). exact Hnd.
    + intros x Hx. apply Hh, elem_of_app. right. exact Hx.
  - exists tries. split_and!; done || lia.
  - intros b k Hb Hk. unfold data_of. rewrite Ela, Eo. eapply ok_objects0; eauto.
Qed.

Lemma AddBlock_some tries b hp a ns p' :
  0 <= tries < _addAllocMax p -> _addAllocMax p + 1 < 2 ^ 64 ->
  Z.of_nat (size (blocks p)) + (_addAllocMax p - Z.min tries (_addAllocMax p)) + lost = limit ->
  0 <= lost -> l = [] ->
  heap p = b :: hp -> b <> 0 -> TaggedStack.stack_is a ns -> NoDup ns ->
  (forall n, n ∈ ns -> is_Some (blocks p !! n)) ->
  (lay p', _addBlockAllocator p', _addAllocCnt p', _addAllocMax p', _myCode p', _isPlacementNew p', heap p') =
  (lay p, Some (TaggedStack.push_alone a b), u64 tries, _addAllocMax p, _myCode p, _isPlacementNew p, hp) ->
  blocks p' = <[b := in_use p]> (blocks p) -> freeStack p' = TaggedStack.set_next (freeStack p) b 0 ->
  objects p' = {[data_of p b]} ∪ objects p ->
  ok p' [] limit lost /\ held p' = {[b]} ∪ held p /\ (b ∉ held p).
Proof.
  intros Ht Hm Hlim Hl0 El Ehp Hb0 Ha Hnd Hns [= Ela Eal Ec Emx Emy Epl Eh] Eb Est Eo.
  pose proof Hok as []. destruct ok_heap0 as [Hhnd Hh]. rewrite Ehp in Hhnd, Hh.
  destruct (Hh b ltac:(left) Hb0) as [Hbr Hbn].
  assert (Eu : in_use p' = in_use p) by (unfold in_use; rewrite Emy; done).
  assert (Ef : unused p' = unused p) by (unfold unused; rewrite Emy; done).
  pose proof (in_use_unused p ok_code0) as Hne.
  rewrite filter_cons_True in Hhnd by done. apply NoDup_cons in Hhnd as [Hbf Hhnd].
  split_and!; [|apply held_take; done|rewrite elem_of_held, Hbn; done].
  split; rewrite ?Ela, ?Emy, ?Eal, ?Ec, ?Emx, ?Eh, ?Epl, ?Eb, ?Eu, ?Ef, ?Est; try done.
  - rewrite El in ok_stack0. destruct ok_stack0 as (q & tg & E1 & E2). cbn in E2.
    exists q, tg. rewrite E2. split; [rewrite <- E2; exact E1|done].
  - constructor.
  - intros x. rewrite lookup_insert_Some. split; [intros Hx; by apply not_elem_of_nil in Hx|].
    intros [[_ ?]|[_ Hx]]; [congruence|]. rewrite <- El. apply ok_free0. exact Hx.
  - intros x k. rewrite lookup_insert_Some. intros [[<- <-]|[_ Hx]]; [auto|eauto].
  - split; [exact Hhnd|]. intros h Hi H0. destruct (Hh h ltac:(right; done) H0) as [? Hn].
    split; [done|]. rewrite lookup_insert_ne; [done|]. intros ->. apply Hbf.
    apply list_elem_of_filter. done.
  - exists (b :: ns). assert (Hbns : b ∉ ns).
    { intros Hx%Hns. rewrite Hbn in Hx. by destruct Hx. }
    split_and!; [apply TaggedStack.push_alone_stack; [done|eapply fits_range; done|done]|apply NoDup_cons; done|].
    intros n Hn. rewrite lookup_insert_is_Some'. apply elem_of_cons in Hn as [->|Hn]; auto.
  - exists (tries + 1). rewrite map_size_insert, Hbn. split_and!; try lia. f_equal. lia.
  - intros x k. rewrite lookup_insert_Some. unfold data_of. rewrite Ela, Eo.
    intros [[<- <-]|[_ Hx]] Hu; [apply elem_of_union_l, elem_of_singleton; done|].
    apply elem_of_union_r. eapply ok_objects0; eauto.
Qed.

(** [Alloc] with no free block. *)
Lemma Alloc_add :
  l = [] ->
  (exists p' lost', Alloc p = Ok (None, p') /\ ok p' [] limit lost' /\ held p' = held p /\ lay p' = lay p /\
     ((lost' = lost /\ limit = Z.of_nat (size (blocks p)) + lost /\ heap p' = heap p) \/
      (lost' = lost + 1 /\ (head (heap p) = None \/ head (heap p) = Some 0)))) \/
  (exists b p', Alloc p = Ok (Some (data_of p b), p') /\ heap p = b :: heap p' /\
     ok p' [] limit lost /\ held p' = {[b]} ∪ held p /\ (b ∉ held p) /\ lay p' = lay p).
Proof.
  intros El. pose proof Hok as []. rewrite El in ok_stack0.
  destruct ok_count0 as (tries & Ht & Hm & Ec & Hl0 & Hlim).
  assert (Hu : u64 (_addAllocCnt p + 1) = tries).
  { rewrite Ec, u_add_l. replace (tries - 1 + 1) with tries by lia. apply u_small. lia. }
  unfold Alloc at 1, Pop. rewrite (TaggedStack.pop_alone_stack _ _ ok_stack0).
  unfold AddBlock. cbn [set_stack _addAllocCnt _addAllocMax]. rewrite Hu.
  replace (set_stack p (freeStack p)) with p by (destruct p; done).
  change (_addAllocMax (set_addAllocCnt p tries)) with (_addAllocMax p).
  assert (Hnone : forall tries' lost' p', 0 <= tries' -> tries' <= _addAllocMax p + 1 ->
    _addAllocCnt p' = u64 (tries' - 1) -> 0 <= lost' ->
    Z.of_nat (size (blocks p)) + (_addAllocMax p - Z.min tries' (_addAllocMax p)) + lost' = limit ->
    (lay p', blocks p', freeStack p', _addAllocMax p', _myCode p', _isPlacementNew p', objects p') =
    (lay p, blocks p, freeStack p, _addAllocMax p, _myCode p, _isPlacementNew p, objects p) ->
    _addBlockAllocator p' = _addBlockAllocator p -> (exists h, heap p = h ++ heap p') ->
    ok p' [] limit lost').
  { intros tries' lost' p' *. rewrite <- El. intros. eapply (AddBlock_none tries'); eauto. }
  destruct (Z.eqb_spec tries (_addAllocMax p)) as [E1|E1]; cbn [mbind outcome_bind].
  { left. exists (set_addAllocCnt p tries), lost. split_and!; [done| |done|done|left; split_and!; [done|lia|done]].
    apply (Hnone (tries + 1)); try done; try lia; [|exists []; done].
    cbn. rewrite Z.add_simpl_r, u_small by lia. done. }
  destruct (Z.ltb_spec (_addAllocMax p) tries) as [E2|E2]; cbn [mbind outcome_bind].
  { left. eexists _, lost. split_and!; [done| |done|done|left; split_and!; [done|lia|done]].
    apply (Hnone tries); try done; try lia. exists []. done. }
  destruct (_addBlockAllocator p) as [a|] eqn:Ea; [|lia]. destruct ok_adder0 as (ns & Hns1 & Hns2 & Hns3).
  cbn [set_addAllocCnt _addBlockAllocator heap]. rewrite Ea.
  destruct (heap p) as [|b hp] eqn:Eh; [|destruct (Z.eqb_spec b 0) as [->|Hb]].
  - left. eexists _, (lost + 1). cbn. split_and!; [done| |done|done|right; auto].
    apply (Hnone (tries + 1)); try done; try lia; [|exists []; done].
    cbn. rewrite Z.add_simpl_r, u_small by lia. done.
  - left. eexists _, (lost + 1). cbn. split_and!; [done| |done|done|right; auto].
    apply (Hnone (tries + 1)); try done; try lia; [|exists [0]; done].
    cbn. rewrite Z.add_simpl_r, u_small by lia. done.
  - right. exists b.
    destruct (Alloc_grow p tries a b hp) as (p' & EA & Hset & Eb & Est & Eo); try done.
    { apply (TaggedStack.pop_alone_stack _ _ ok_stack0). }
    exists p'. split; [exact EA|]. split; [injection Hset as _ _ _ _ _ _ ->; done|].
    destruct (AddBlock_some tries b hp a ns p') as (? & ? & ?); try done; try lia.
    { rewrite (u_small 64 tries) by lia. exact Hset. }
    injection Hset as Ela. done.
Qed.
End steps.

(** Every block is free or held. *)
Lemma size_blocks p l limit lost :
  ok p l limit lost -> size (blocks p) = (length l + size (held p))%nat.
Proof.
  intros []. assert (E : dom (blocks p) = list_to_set l ∪ held p).
  { apply set_eq. intros b. rewrite elem_of_dom, elem_of_union, elem_of_list_to_set, elem_of_held, ok_free0.
    split; [|intros [?|?]; eauto]. intros [k Hk]. destruct (ok_codes0 _ _ Hk) as [[->| ->] _]; auto. }
  rewrite <- size_dom, E, size_union, size_list_to_set; [done|done|].
  intros b. rewrite elem_of_list_to_set, elem_of_held, ok_free0.
  pose proof (in_use_unused p ok_code0). congruence.
Qed.

(** ** Construction *)

(** The address of block [i]. *)
Definition block_at (la : layout) (base i : Z) : Z := base + sizeofBLOCK la * i.

(** The blocks made so far, last first. *)
Fixpoint made (la : layout) (base : Z) (n : nat) : list Z :=
  match n with O => [] | S n => block_at la base (Z.of_nat n) :: made la base n end.

Lemma length_made la base n : length (made la base n) = n.
Proof. induction n as [|n IH]; cbn; congruence. Qed.

Lemma held_empty p : blocks p = ∅ -> held p = ∅.
Proof. unfold held. intros ->. done. Qed.

Lemma elem_of_made la base n b :
  b ∈ made la base n <-> exists i, 0 <= i < Z.of_nat n /\ b = block_at la base i.
Proof.
  induction n as [|n IH]; cbn [made].
  - split; [intros Hb; by apply not_elem_of_nil in Hb|intros (i & ? & _); lia].
  - rewrite elem_of_cons, IH. split.
    + intros [->|(i & ? & ->)]; [exists (Z.of_nat n)|exists i]; (split; [lia|done]).
    + intros (i & Hi & ->). destruct (decide (i = Z.of_nat n)) as [->|]; [auto|].
      right. exists i. split; [lia|done].
Qed.

Definition room_for (la : layout) (base n : Z) : Prop :=
  0 < sizeofBLOCK la /\ 0 < base /\ base + sizeofBLOCK la * n <= 2 ^ 47.

Lemma init_block_ok p l limit i :
  let b := block_at (lay p) (_blockPool p) i in let p' := init_block p i in
  ok p l limit 0 -> blocks p !! b = None -> fits (lay p) b -> b ∉ heap p ->
  TaggedStack.top (freeStack p) = hd 0 l ->
  ok p' (b :: l) (limit + 1) 0 /\ held p' = held p /\ blocks p' = <[b := unused p]> (blocks p) /\
  TaggedStack.top (freeStack p') = b /\
  (lay p', _blockPool p', heap p', _addAllocMax p', _myCode p', _isPlacementNew p', _addBlockAllocator p') =
  (lay p, _blockPool p, heap p, _addAllocMax p, _myCode p, _isPlacementNew p, _addBlockAllocator p).
Proof.
  intros b p' [] Hb Hf Hh Htop. pose proof (fits_range _ _ ok_lay0 Hf) as Hr.
  assert (Hp' : blocks p' = <[b := unused p]> (blocks p) /\
    freeStack p' = TaggedStack.set_top (TaggedStack.set_next (freeStack p) b (hd 0 l)) b /\
    (lay p', _blockPool p', heap p', _addAllocMax p', _myCode p', _isPlacementNew p', _addBlockAllocator p') =
    (lay p, _blockPool p, heap p, _addAllocMax p, _myCode p, _isPlacementNew p, _addBlockAllocator p) /\
    _addAllocCnt p' = _addAllocCnt p /\
    objects p' = if _isPlacementNew p then objects p else {[data_of p b]} ∪ objects p).
  { unfold p', init_block. cbn. rewrite <- Htop.
    destruct (_isPlacementNew p) eqn:E; cbn; (split_and!; [reflexivity|reflexivity|rewrite ?E; reflexivity|reflexivity..]). }
  clearbody p'. destruct Hp' as (Eb & Est & [= Ela Ebp Eh Emx Emy Epl Eal] & Ec & Eo).
  assert (Eu : in_use p' = in_use p) by (unfold in_use; rewrite Emy; done).
  assert (Ef : unused p' = unused p) by (unfold unused; rewrite Emy; done).
  pose proof (in_use_unused p ok_code0) as Hne.
  assert (Hbl : b ∉ l) by (rewrite ok_free0, Hb; done).
  split_and!; [|  |exact Eb|rewrite Est; done|congruence].
  2: { apply set_eq. intros x. rewrite !elem_of_held, Eb, Eu, lookup_insert_Some. split; [|].
       - intros [[_ ?]|[_ ?]]; [congruence|done].
       - intros Hx. right. split; [|done]. intros <-. congruence. }
  split; rewrite ?Ela, ?Emy, ?Eal, ?Ec, ?Emx, ?Eh, ?Epl, ?Eb, ?Eu, ?Ef, ?Est; try done.
  - exists b, 0. split; [cbn; rewrite TaggedStack.pack_eq by lia; change (0 mod 2 ^ 17) with 0; lia|]. cbn. split_and!; [done|lia|lia|].
    rewrite Z.eqb_refl. destruct ok_stack0 as (q & tg & E1 & E2).
    assert (Hq : hd 0 l = q) by (destruct l; cbn in E2; [done|]; destruct E2 as (-> & _); done).
    rewrite Hq. eapply TaggedStack.chain_ext; [exact E2|]. intros x Hx. cbn.
    replace (x =? b) with false; [done|]. symmetry. apply Z.eqb_neq. congruence.
  - apply NoDup_cons. done.
  - intros x. rewrite elem_of_cons, lookup_insert_Some, ok_free0. split.
    + intros [->|Hx]; [auto|]. right. split; [|done]. intros <-. congruence.
    + intros [[<- _]|[_ Hx]]; auto.
  - intros x k. rewrite lookup_insert_Some. intros [[<- <-]|[_ Hx]]; [auto|eauto].
  - destruct ok_heap0 as [Hnd Hhp]. split; [done|]. intros h Hi H0. destruct (Hhp h Hi H0) as [? Hn].
    split; [done|]. rewrite lookup_insert_ne; [done|]. intros ->. done.
  - destruct (_addBlockAllocator p) as [a|]; [|done]. destruct ok_adder0 as (ns & ? & ? & Hns).
    exists ns. split_and!; [done..|]. intros n Hn. rewrite lookup_insert_is_Some'. auto.
  - destruct ok_count0 as (tries & ?). exists tries. rewrite map_size_insert, Hb. lia.
  - intros x k. rewrite lookup_insert_Some. unfold data_of. rewrite Ela, Eo.
    intros [[<- <-]|[_ Hx]] Hu; destruct (_isPlacementNew p) eqn:Epn.
    + destruct Hu; [congruence|done].
    + apply elem_of_union_l, elem_of_singleton. done.
    + eapply ok_objects0; eauto.
    + apply elem_of_union_r. eapply ok_objects0; eauto.
Qed.

Lemma init_loop p n :
  ok p [] (_addAllocMax p) 0 -> blocks p = ∅ -> room_for (lay p) (_blockPool p) (Z.of_nat n) ->
  TaggedStack.top (freeStack p) = 0 ->
  (forall h i, h ∈ heap p -> 0 <= i < Z.of_nat n -> h <> block_at (lay p) (_blockPool p) i) ->
  let p' := fold_left init_block (seqZ 0 (Z.of_nat n)) p in
  ok p' (made (lay p) (_blockPool p) n) (_addAllocMax p + Z.of_nat n) 0 /\
  held p' = ∅ /\ (lay p', _blockPool p', heap p') = (lay p, _blockPool p, heap p) /\
  TaggedStack.top (freeStack p') = hd 0 (made (lay p) (_blockPool p) n) /\
  (forall b, is_Some (blocks p' !! b) -> b ∈ made (lay p) (_blockPool p) n).
Proof.
  intros Hok Hemp.
  induction n as [|n IH]; intros Hroom Htop Hheap.
  - change (seqZ 0 (Z.of_nat 0)) with (@nil Z). cbn [fold_left]. rewrite Z.add_0_r. split_and!; try done.
    + apply held_empty, Hemp.
    + intros b. rewrite Hemp, lookup_empty. intros [? ?]. done.
  - destruct Hroom as (Hsz & Hba & Htop').
    destruct IH as (Hok' & Hh' & [= El' Eb' Ehp'] & Ht' & Hm'); [split_and!; lia|done|intros h i Hh Hi; apply Hheap; [done|lia]|].
    rewrite seqZ_S, fold_left_app. cbn zeta. cbn [fold_left]. set (q := fold_left init_block (seqZ 0 (Z.of_nat n)) p) in *.
    clearbody q. rewrite Z.add_0_l.
    destruct (init_block_ok q _ _ (Z.of_nat n) Hok') as (Hok2 & Hh2 & Eb2 & Ht2 & [= El2 Ebp2 Eh2 _ _ _ _]);
      rewrite ?El', ?Eb', ?Ehp' in *.
    + destruct (blocks q !! _) eqn:E; [|done]. exfalso.
      destruct (proj1 (elem_of_made (lay p) (_blockPool p) n _) (Hm' _ ltac:(rewrite E; eauto))) as (i & Hi & Ei).
      unfold block_at in Ei. nia.
    + unfold fits, block_at. nia.
    + intros Hin. eapply (Hheap _ (Z.of_nat n) Hin); [lia|done].
    + done.
    + replace (_addAllocMax p + Z.of_nat (S n)) with (_addAllocMax p + Z.of_nat n + 1) by lia.
      split_and!; [exact Hok2|congruence|congruence|exact Ht2|].
      intros b. rewrite Eb2, lookup_insert_is_Some'. intros [<-|Hb]; [left|right; auto].
Qed.

(** A fresh pool: the arguments are accepted, no block is held and [initBlockNum] are
    free, at distinct, aligned addresses. *)
Definition new_args_ok (la : layout) (init max secure addr : Z) (hp : list Z) : Prop :=
  0 <= init <= max /\ 0 < max /\ max + 1 < 2 ^ 64 /\ 1 <= secure < 2 ^ 64 /\
  0 <= offsetof_data la < sizeofBLOCK la /\ 0 < alignofBLOCK la /\ sizeofBLOCK la mod alignofBLOCK la = 0 /\ 0 < addr /\
  addr + alignofBLOCK la + sizeofBLOCK la * init <= 2 ^ 47 /\
  NoDup (filter (fun h => h <> 0) hp) /\
  forall h, h ∈ hp -> h <> 0 -> fits la h /\ (h < addr \/ addr + alignofBLOCK la + sizeofBLOCK la * init <= h).

Lemma new_ok la init max pl secure addr hp :
  new_args_ok la init max secure addr hp ->
  exists p l, new la true init max pl secure addr hp = inr p /\ ok p l max 0 /\
    Z.of_nat (length l) = init /\ held p = ∅ /\ lay p = la /\ heap p = hp /\
    forall b, b ∈ l -> b mod alignofBLOCK la = 0 /\
      addr <= b /\ b + sizeofBLOCK la <= addr + alignofBLOCK la + sizeofBLOCK la * init.
Proof.
  intros ((Hi0 & Hi) & Hmax & Hmax2 & Hsec & Hsz & Hal & Hdiv & Haddr & Hend & Hnd & Hhp).
  unfold new. cbn [negb]. replace (max <? init) with false by lia.
  replace ((init =? 0) && (max =? 0)) with false by lia. rewrite (u_small 64 (max - init)) by lia.
  set (alloc := if 0 <? max - init then _ else _).
  replace (if 0 <? max - init then max - init else 0) with (max - init) by (destruct (0 <? max - init) eqn:E; lia).
  assert (Hok0 : forall base aa, ok (mk la base (TaggedStack.mkMem 0 (fun _ => 0)) ∅ ∅ alloc (u64 (-1))
    (max - init) 0 init secure pl hp aa) [] (max - init) 0).
  { intros base aa. split; cbn; try done.
    - apply TaggedStack.stack_is_empty.
    - constructor.
    - intros b. rewrite lookup_empty. split; [intros Hb; by apply not_elem_of_nil in Hb|done].
    - split; [done|]. intros h Hh H0. destruct (Hhp h Hh H0). done.
    - unfold alloc. destruct (0 <? max - init) eqn:E; [|lia]. exists [].
      split_and!; [apply TaggedStack.stack_is_empty|constructor|]. intros n Hn. by apply not_elem_of_nil in Hn.
    - exists 0. rewrite map_size_empty. split_and!; [lia|lia|lia|done|lia|lia]. }
  destruct (init =? 0) eqn:Ei0; [b2p; subst init|].
  { eexists _, []. split_and!; [done| |done| |done|done|].
    - replace max with (max - 0) at 2 by lia. apply Hok0.
    - apply held_empty. done.
    - intros b Hb. by apply not_elem_of_nil in Hb. }
  replace (addr =? 0) with false by lia. cbn [freeStack blocks objects].
  set (cnt := (addr + alignofBLOCK la - 1) / alignofBLOCK la).
  assert (Hbase : addr <= alignofBLOCK la * cnt < addr + alignofBLOCK la).
  { unfold cnt. pose proof (Z.div_mod (addr + alignofBLOCK la - 1) (alignofBLOCK la)).
    pose proof (Z.mod_pos_bound (addr + alignofBLOCK la - 1) (alignofBLOCK la)). lia. }
  set (base := alignofBLOCK la * cnt) in *.
  destruct (init_loop _ (Z.to_nat init) (Hok0 base addr)) as (Hok & Hh & [= El Eb Eh] & _ & _); rewrite ?Z2Nat.id by lia;
    cbn [lay _blockPool heap freeStack TaggedStack.top blocks]; try done.
  - split_and!; lia.
  - intros h i Hin Hir ->. unfold block_at in Hin. destruct (Hhp _ Hin); [nia|]. nia.
  - rewrite Z2Nat.id in * by lia. eexists _, _. split_and!; [done| | |exact Hh|exact El|exact Eh|].
    + cbn in Hok. replace (max - init + init) with max in Hok by lia. exact Hok.
    + rewrite length_made. lia.
    + intros b (i & Hir & ->)%elem_of_made. rewrite Z2Nat.id in Hir by lia. cbn [lay _blockPool]. unfold block_at.
      apply Z.mod_divide in Hdiv as [q Hq]; [|lia]. split; [|nia].
      apply Z.mod_divide; [lia|]. exists (cnt + q * i). unfold base. rewrite Hq. ring.
Qed.

(** ** Sequences of calls *)
Inductive call := CallAlloc | CallFree (x : Z).
Inductive reply := Got (x : Z) | NoBlock | Freed (b : bool).

Definition call_step (p : t) (c : call) : outcome (reply * t) :=
  match c with
  | CallAlloc => '(r, p) ← Alloc p; Ok (match r with Some x => Got x | None => NoBlock end, p)
  | CallFree x => '(b, p) ← Free p x; Ok (Freed b, p)
  end.

Fixpoint calls (p : t) (cs : list call) : outcome (list reply * t) :=
  match cs with
  | [] => Ok ([], p)
  | c :: cs => '(r, p) ← call_step p c; '(rs, p) ← calls p cs; Ok (r :: rs, p)
  end.

(** The addresses given to [Free] are, at that time, blocks of the pool or readable memory
    that does not carry its code. *)
Fixpoint frees_ok (p : t) (cs : list call) : bool :=
  match cs with
  | [] => true
  | c :: cs =>
      match c with CallAlloc => true | CallFree x => may_free p x end &&
      match call_step p c with Ok (_, p) => frees_ok p cs | Fault _ => true end
  end.

(** What a pool of at most [limit] objects may answer when [out] are out. *)
Definition spec_step (limit : Z) (out : gset Z) (c : call) (r : reply) : option (gset Z) :=
  match c, r with
  | CallAlloc, Got x =>
      if bool_decide (x ∉ out) && (Z.of_nat (size out) <? limit) then Some ({[x]} ∪ out) else None
  | CallAlloc, NoBlock => if Z.of_nat (size out) =? limit then Some out else None
  | CallFree x, Freed true => if bool_decide (x ∈ out) then Some (out ∖ {[x]}) else None
  | CallFree x, Freed false => if bool_decide (x ∉ out) then Some out else None
  | _, _ => None
  end.

Fixpoint spec_calls (limit : Z) (out : gset Z) (cs : list call) (rs : list reply) : option (gset Z) :=
  match cs, rs with
  | [], [] => Some out
  | c :: cs, r :: rs => out ← spec_step limit out c r; spec_calls limit out cs rs
  | _, _ => None
  end.

(** The objects clients hold. *)
Definition outstanding (p : t) : gset Z := set_map (data_of p) (held p).

Lemma elem_of_outstanding p x : x ∈ outstanding p <-> block_of p x ∈ held p.
Proof.
  unfold outstanding. rewrite elem_of_map. split.
  - intros (b & -> & Hb). unfold block_of, data_of. rewrite Z.add_simpl_r. done.
  - intros Hb. exists (block_of p x). split; [unfold block_of, data_of; lia|done].
Qed.

#[export] Instance data_of_inj p : Inj (=) (=) (data_of p).
Proof. intros a b. unfold data_of. lia. Qed.

Lemma size_outstanding p : size (outstanding p) = size (held p).
Proof.
  unfold outstanding, set_map. rewrite size_list_to_set.
  - rewrite length_fmap. done.
  - apply (NoDup_fmap_2 _), NoDup_elements.
Qed.

(** Enough addresses for [n] more additions. *)
Definition heap_serves (p : t) (n : nat) : Prop := (0 ∉ heap p) /\ (n <= length (heap p))%nat.

Definition allocs (cs : list call) : nat :=
  length (List.filter (fun c => match c with CallAlloc => true | CallFree _ => false end) cs).

Lemma outstanding_take p p' b :
  held p' = {[b]} ∪ held p -> lay p' = lay p -> outstanding p' = {[data_of p b]} ∪ outstanding p.
Proof.
  intros Eh El. apply set_eq. intros x. rewrite elem_of_union, elem_of_singleton, !elem_of_outstanding, Eh,
    elem_of_union, elem_of_singleton. unfold block_of, data_of. rewrite El. intuition lia.
Qed.

Lemma outstanding_drop p p' b :
  held p' = held p ∖ {[b]} -> lay p' = lay p -> outstanding p' = outstanding p ∖ {[data_of p b]}.
Proof.
  intros Eh El. apply set_eq. intros x. rewrite elem_of_difference, elem_of_singleton, !elem_of_outstanding, Eh,
    elem_of_difference, elem_of_singleton. unfold block_of, data_of. rewrite El. intuition lia.
Qed.

(** One call answers as the specification allows. *)
Lemma call_step_spec p l limit c n :
  ok p l limit 0 -> heap_serves p (allocs [c] + n) -> frees_ok p [c] = true ->
  exists r p' l', call_step p c = Ok (r, p') /\ ok p' l' limit 0 /\ heap_serves p' n /\
    spec_step limit (outstanding p) c r = Some (outstanding p').
Proof.
  intros Hok [Hz Hn] Hfr. pose proof (size_blocks _ _ _ _ Hok) as Hsz.
  pose proof (ok_count _ _ _ _ Hok) as (tries & Ht & _ & _ & _ & Hlim).
  destruct c as [|x]; unfold allocs in Hn; cbn in Hn.
  - destruct l as [|b l].
    + destruct (Alloc_add p [] limit 0 Hok eq_refl) as
        [(p' & lost' & E & Hok' & Hh & Hla & [(-> & Hl & Hhp)|(_ & Hhp)])|(b & p' & E & Hhp & Hok' & Hh & Hb & Hla)].
      * exists NoBlock, p', []. cbn. rewrite E. split_and!; [done|done|split; rewrite Hhp; [done|lia]|].
        rewrite size_outstanding. replace (Z.of_nat (size (held p)) =? limit) with true by (cbn in Hsz; lia). f_equal.
        unfold outstanding, data_of. rewrite Hh, Hla. done.
      * exfalso. destruct (heap p) as [|h hp]; [cbn in Hn; lia|]. destruct Hhp as [?|[= ->]]; [done|].
        apply Hz. left.
      * exists (Got (data_of p b)), p', []. cbn. rewrite E. split_and!; [done|done| |].
        { rewrite Hhp in Hz, Hn. apply not_elem_of_cons in Hz as [_ Hz]. split; [done|cbn in Hn; lia]. }
        rewrite (outstanding_take _ _ _ Hh Hla), bool_decide_true.
        2: { rewrite elem_of_outstanding. unfold block_of, data_of. rewrite Z.add_simpl_r. done. }
        rewrite size_outstanding. pose proof (size_blocks _ _ _ _ Hok') as Hsz'.
        rewrite Hh, size_union, size_singleton in Hsz' by (apply disjoint_singleton_l, Hb).
        pose proof (ok_count _ _ _ _ Hok') as (tries' & Ht' & _ & _ & _ & Hlim').
        cbn in Hsz, Hsz'. replace (_ <? limit) with true by lia. done.
    + destruct (Alloc_reuse p _ limit 0 Hok b l eq_refl) as (p' & E & Hok' & Hh & Hb & Hla & Hhp).
      exists (Got (data_of p b)), p', l. cbn. rewrite E.
      split_and!; [done|done|split; rewrite Hhp; [done|lia]|].
      rewrite (outstanding_take _ _ _ Hh Hla), bool_decide_true.
      2: { rewrite elem_of_outstanding. unfold block_of, data_of. rewrite Z.add_simpl_r. done. }
      rewrite size_outstanding. cbn in Hsz. replace (_ <? limit) with true by lia. done.
  - destruct (decide (block_of p x ∈ held p)) as [Hx|Hx].
    + destruct (Free_held p l limit 0 Hok _ Hx) as (p' & E & Hok' & Hh & Hla & Hhp & _).
      replace (data_of p (block_of p x)) with x in E by (unfold data_of, block_of; lia).
      exists (Freed true), p', (block_of p x :: l). cbn. rewrite E.
      split_and!; [done|done|split; rewrite Hhp; [done|lia]|].
      rewrite bool_decide_true by (apply elem_of_outstanding; done).
      rewrite (outstanding_drop _ _ _ Hh Hla). do 3 f_equal. unfold data_of, block_of. lia.
    + exists (Freed false), p, l. cbn. cbn in Hfr. apply andb_true_iff in Hfr as [Hfr _].
      rewrite (Free_refused p l limit 0 Hok x Hx Hfr).
      split_and!; [done|done|split; [done|lia]|].
      rewrite bool_decide_true; [done|]. rewrite elem_of_outstanding. done.
Qed.

Lemma calls_spec cs : forall p l limit,
  ok p l limit 0 -> heap_serves p (allocs cs) -> frees_ok p cs = true ->
  exists rs p' l', calls p cs = Ok (rs, p') /\ ok p' l' limit 0 /\
    spec_calls limit (outstanding p) cs rs = Some (outstanding p').
Proof.
  induction cs as [|c cs IH]; intros p l limit Hok Hhs Hfr; [exists [], p, l; done|].
  cbn [frees_ok] in Hfr. apply andb_true_iff in Hfr as [Hfc Hfr].
  destruct (call_step_spec p l limit c (allocs cs) Hok) as (r & p1 & l1 & E1 & Hok1 & Hhs1 & Es1).
  { destruct Hhs as [? Hn]. split; [done|]. unfold allocs in *. destruct c; cbn in *; lia. }
  { cbn [frees_ok]. rewrite Hfc. destruct (call_step p c) as [[]|]; done. }
  rewrite E1 in Hfr. destruct (IH p1 l1 limit Hok1 Hhs1 Hfr) as (rs & p2 & l2 & E2 & Hok2 & Es2).
  exists (r :: rs), p2, l2. cbn. rewrite E1. cbn. rewrite E2. cbn. rewrite Es1. done.
Qed.

(** ** The pool interface

    A caller that dereferences what [Alloc] returned faults when that is null. *)
#[export] Instance ops : PoolOps t := {
  pool_alloc _ p := '(r, p) ← Alloc p; match r with Some x => Ok (x, p) | None => Fault NullDeref end;
  pool_free _ p x := Free p x;
}.

Lemma Alloc_held p l limit lost x p' :
  ok p l limit lost -> Alloc p = Ok (Some x, p') ->
  exists b l', x = data_of p b /\ ok p' l' limit lost /\ held p' = {[b]} ∪ held p /\ (b ∉ held p) /\
    lay p' = lay p.
Proof.
  intros Hok E. destruct l as [|b l].
  - destruct (Alloc_add p [] limit lost Hok eq_refl) as
      [(p1 & lost' & E1 & _)|(b & p1 & E1 & _ & Hok' & Hh & Hb & Hla)]; rewrite E1 in E; [done|].
    injection E as <- <-. exists b, []. done.
  - destruct (Alloc_reuse p _ limit lost Hok b l eq_refl) as (p1 & E1 & Hok' & Hh & Hb & Hla & _).
    rewrite E1 in E. injection E as <- <-. exists b, l. done.
Qed.

Lemma outstanding_not_held p b : b ∉ held p -> data_of p b ∉ outstanding p.
Proof. rewrite elem_of_outstanding. unfold block_of, data_of. rewrite Z.add_simpl_r. done. Qed.

#[export] Program Instance laws : PoolLaws t := {
  pool_ok p := exists l limit lost, ok p l limit lost;
  pool_live := outstanding;
  pool_has p x := is_Some (blocks p !! block_of p x);
}.
Next Obligation.
  intros tid p x p' (l & limit & lost & Hok) E. cbn in E.
  destruct (Alloc p) as [[[y|] p1]|f] eqn:EA; try done. cbn in E. injection E as <- <-.
  destruct (Alloc_held _ _ _ _ _ _ Hok EA) as (b & l' & -> & Hok' & Hh & Hb & Hla).
  split_and!; [eauto|apply outstanding_not_held, Hb| |apply outstanding_take; done].
  exists (in_use p1). apply elem_of_held. rewrite Hh. unfold block_of, data_of. rewrite Hla, Z.add_simpl_r. set_solver.
Qed.
Next Obligation.
  intros tid p x (l & limit & lost & Hok) Hx%elem_of_outstanding.
  destruct (Free_held p l limit lost Hok _ Hx) as (p' & E & Hok' & Hh & Hla & _).
  replace (data_of p (block_of p x)) with x in E by (unfold data_of, block_of; lia).
  exists p'. cbn. rewrite E. split_and!; [done|eauto|].
  rewrite (outstanding_drop _ _ _ Hh Hla). do 2 f_equal. unfold data_of, block_of. lia.
Qed.
Next Obligation.
  intros tid p x (l & limit & lost & Hok) [k Hk] Hx. cbn. rewrite elem_of_outstanding in Hx.
  rewrite (Free_refused p l limit lost Hok x Hx); [done|]. unfold may_free. rewrite Hk. done.
Qed.

Lemma destroy_S fuel a :
  BlockAllocator.destroy (S fuel) a =
    match BlockAllocator.Pop a with
    | (None, _) => Some []
    | (Some n, a) => l ← BlockAllocator.destroy fuel a; Some (n :: l)
    end.
Proof. done. Qed.

(** [~BlockAllocator] gives back every node, each once. *)
Lemma destroy_all ns : forall a, TaggedStack.stack_is a ns -> BlockAllocator.destroy (S (length ns)) a = Some ns.
Proof.
  induction ns as [|n ns IH]; intros a Ha; pose proof (TaggedStack.pop_alone_stack _ _ Ha) as Hp;
    cbn [length]; rewrite destroy_S; unfold BlockAllocator.Pop.
  - rewrite Hp. done.
  - destruct Hp as (a' & -> & Ha'). rewrite (IH _ Ha'). done.
Qed.

(** ** Properties *)

(** C30: a pool refines a set of at most [maxBlockLimit] objects. Take accepted
    constructor arguments, and a system that grants every [_aligned_malloc], and [Alloc] and
    [Free] calls on the new pool, one after the other, where what is given to [Free] is a
    block of the pool, out or not, or memory that can be read and does not have the code
    of the pool on both sides. They run without a fault and answer as the set does:
    [Alloc] gives an object that is not out, and gives none exactly when [maxBlockLimit]
    objects are out; [Free] takes back exactly an object that is out, and refuses,
    changing nothing, a second [Free] of it and a foreign object. *)
Theorem pool_refines_set la init max pl secure addr hp cs :
  new_args_ok la init max secure addr hp -> (0 ∉ hp) -> (allocs cs <= length hp)%nat ->
  (forall p, new la true init max pl secure addr hp = inr p -> frees_ok p cs = true) ->
  exists p rs p', new la true init max pl secure addr hp = inr p /\
    calls p cs = Ok (rs, p') /\ spec_calls max ∅ cs rs = Some (outstanding p').
Proof.
  intros Hargs Hz Hn Hfr. destruct (new_ok la init max pl secure addr hp Hargs) as (p & l & E & Hok & _ & Hh & _ & Hhp & _).
  destruct (calls_spec cs p l max Hok) as (rs & p' & l' & Ec & _ & Es); [split; rewrite Hhp; done|auto|].
  exists p, rs, p'. split_and!; [done|done|]. rewrite <- Es. f_equal. unfold outstanding. rewrite Hh. done.
Qed.

(** [Free] of an address that is no block of the pool reads the memory there: it faults
    when that cannot be read, and takes a foreign object for its own when that has the
    code of the pool on both sides. *)
Theorem Free_reads_outside p x :
  blocks p !! block_of p x = None ->
  (outside (block_of p x) = None -> Free p x = Fault OutOfBounds) /\
  (outside (block_of p x) = Some (in_use p) -> exists p', Free p x = Ok (true, p')).
Proof.
  unfold Free, codes. intros ->. split; intros ->; [done|]. rewrite bind_Ok. cbn [in_use _preCode _postCode].
  rewrite !Z.eqb_refl. cbn [negb]. eauto.
Qed.

(** The constructor refuses a wrong operating system, more initial blocks than
    the limit, and a pool of no blocks; for accepted arguments the initial blocks are
    free, aligned, apart and inside the memory that [VirtualAlloc] returned. *)
Theorem new_pool la init max pl secure addr hp :
  (new la false init max pl secure addr hp = inl BadOS) /\
  (max < init -> new la true init max pl secure addr hp = inl InitAboveMax) /\
  (new la true 0 0 pl secure addr hp = inl BadParameter) /\
  (new_args_ok la init max secure addr hp ->
     exists p l, new la true init max pl secure addr hp = inr p /\
       TaggedStack.stack_is (freeStack p) l /\ Z.of_nat (length l) = init /\ NoDup l /\ held p = ∅ /\
       forall b, b ∈ l -> b mod alignofBLOCK la = 0 /\
         addr <= b /\ b + sizeofBLOCK la <= addr + alignofBLOCK la + sizeofBLOCK la * init).
Proof.
  split_and!; [done| |done|].
  - intros Hlt. unfold new. cbn [negb]. replace (max <? init) with true by lia. done.
  - intros Hargs. destruct (new_ok la init max pl secure addr hp Hargs) as (p & l & E & Hok & Hl & Hh & _ & _ & Hb).
    exists p, l. split_and!; try done; [apply (ok_stack _ _ _ _ Hok)|apply (ok_nodup _ _ _ _ Hok)].
Qed.

End pool.

(** ** Witnesses

    At address 4096 there is a block of another pool; other memory cannot be read. *)
Module SampleMemory.
#[export] Instance mem : Memory := fun b => if b =? 4096 then Some (mkBlock 2 2) else None.
End SampleMemory.
Import SampleMemory.

Definition sample_layout : layout := mkLayout 32 8 8.
Definition sample_heap : list Z := [1048576; 1052672; 1056768; 1060864; 1064960].

Lemma sample_args : new_args_ok sample_layout 2 3 1 65536 sample_heap.
Proof.
  unfold new_args_ok. cbn. split_and!; try lia; try done.
  - apply (bool_decide_unpack _). vm_compute. done.
  - assert (Hf : Forall (fun h => fits sample_layout h /\ 65536 + 8 + 32 * 2 <= h) sample_heap)
      by (unfold fits; cbn; repeat constructor; lia).
    rewrite Forall_forall in Hf. intros h Hh _. destruct (Hf h Hh). auto.
Qed.

Definition sample_calls : list call :=
  [CallAlloc; CallAlloc; CallAlloc; CallAlloc; CallFree 65576; CallFree 65576; CallAlloc; CallFree 4104].

Lemma pool_refines_set_witness :
  exists p rs p', new sample_layout true 2 3 false 1 65536 sample_heap = inr p /\
    calls p sample_calls = Ok (rs, p') /\ spec_calls 3 ∅ sample_calls rs = Some (outstanding p').
Proof.
  apply (pool_refines_set sample_layout 2 3 false 1 65536 sample_heap sample_calls sample_args).
  - apply (bool_decide_unpack _). vm_compute. done.
  - vm_compute. lia.
  - assert (Hf : match new sample_layout true 2 3 false 1 65536 sample_heap with
                 | inr p => frees_ok p sample_calls | inl _ => true end = true) by (vm_compute; reflexivity).
    intros p E. rewrite E in Hf. exact Hf.
Defined.

Lemma Free_reads_outside_witness :
  exists p, new sample_layout true 2 3 false 1 65536 sample_heap = inr p /\ Free p 9 = Fault OutOfBounds.
Proof.
  destruct (new sample_layout true 2 3 false 1 65536 sample_heap) as [e|p] eqn:E; [vm_compute in E; done|].
  exists p. split; [done|].
  assert (Hp : match new sample_layout true 2 3 false 1 65536 sample_heap with
               | inr p => bool_decide (blocks p !! block_of p 9 = None) && bool_decide (block_of p 9 = 1)
               | inl _ => false end = true) by (vm_compute; reflexivity).
  rewrite E in Hp. apply andb_true_iff in Hp as [Hn%bool_decide_eq_true_1 Hb%bool_decide_eq_true_1].
  apply (Free_reads_outside p 9 Hn). rewrite Hb. reflexivity.
Defined.

Lemma new_pool_witness :
  exists p l, new sample_layout true 2 3 false 1 65536 sample_heap = inr p /\
    TaggedStack.stack_is (freeStack p) l /\ Z.of_nat (length l) = 2 /\ NoDup l /\ held p = ∅ /\
    forall b, b ∈ l -> b mod 8 = 0 /\ 65536 <= b /\ b + 32 <= 65536 + 8 + 32 * 2.
Proof.
  exact (proj2 (proj2 (proj2 (new_pool sample_layout 2 3 false 1 65536 sample_heap))) sample_args).
Defined.
End MemoryPool.
