(* ===== verification/MemoryPoolTLS.v ===== *)
(** * The thread-local memory pool of [MemoryPoolTLS.h]

    Blocks travel in chunks of [ChunkSize]: each thread allocates from and frees into
    a chunk of its own; full chunks are kept in a tagged free stack that the threads
    share, and the chunk objects come from a [MemoryPool]. *)
From S2P Require Import Prelude.
From S2P Require Import ObjectPool.
From S2P Require Import TaggedStack.
From S2P Require Import MemoryPool.
From stdpp Require Import prelude gmap list list_numbers.
From Stdlib Require Import ZArith Lia.
Open Scope Z_scope.

Module MemoryPoolTLS.

(** ** Data *)
Record Chunk := mkChunk { _freeStackTop : Z; _size : Z }.

(** [tls] is the thread-local slot [_tlsIdx], by thread; [bnext] the [_next] member of
    a block; [chunks] the chunk objects, new ones being [Chunk()]; [heap] the
    addresses of the block arrays [_aligned_malloc] will return. *)
Record t := mk {
  lay : MemoryPool.layout;
  ChunkSize : Z;
  blocks : gmap Z MemoryPool.BLOCK;
  bnext : Z -> Z;
  chunks : gmap Z Chunk;
  objects : gset Z;
  _emptyChunkManager : MemoryPool.t;
  freeChunks : TaggedStack.mem;
  _addBlockArrAllocator : option TaggedStack.mem;
  _addAllocCnt : Z;
  _addAllocMax : Z;
  _totalChunk : Z;
  _useChunk : Z;
  _myCode : Z;
  _isPlacementNew : bool;
  tls : gmap Z Z;
  heap : list Z;
  _allocAddr : Z;
}.

(** The members that change together. *)
Definition set_blocks (p : t) (bl : gmap Z MemoryPool.BLOCK) (nx : Z -> Z) (ch : gmap Z Chunk) : t :=
  mk (lay p) (ChunkSize p) bl nx ch (objects p) (_emptyChunkManager p) (freeChunks p)
    (_addBlockArrAllocator p) (_addAllocCnt p) (_addAllocMax p) (_totalChunk p) (_useChunk p)
    (_myCode p) (_isPlacementNew p) (tls p) (heap p) (_allocAddr p).
Definition set_objects (p : t) (o : gset Z) : t :=
  mk (lay p) (ChunkSize p) (blocks p) (bnext p) (chunks p) o (_emptyChunkManager p) (freeChunks p)
    (_addBlockArrAllocator p) (_addAllocCnt p) (_addAllocMax p) (_totalChunk p) (_useChunk p)
    (_myCode p) (_isPlacementNew p) (tls p) (heap p) (_allocAddr p).
Definition set_manager (p : t) (m : MemoryPool.t) : t :=
  mk (lay p) (ChunkSize p) (blocks p) (bnext p) (chunks p) (objects p) m (freeChunks p)
    (_addBlockArrAllocator p) (_addAllocCnt p) (_addAllocMax p) (_totalChunk p) (_useChunk p)
    (_myCode p) (_isPlacementNew p) (tls p) (heap p) (_allocAddr p).
Definition set_freeChunks (p : t) (m : TaggedStack.mem) : t :=
  mk (lay p) (ChunkSize p) (blocks p) (bnext p) (chunks p) (objects p) (_emptyChunkManager p) m
    (_addBlockArrAllocator p) (_addAllocCnt p) (_addAllocMax p) (_totalChunk p) (_useChunk p)
    (_myCode p) (_isPlacementNew p) (tls p) (heap p) (_allocAddr p).
Definition set_adder (p : t) (a : option TaggedStack.mem) (cnt : Z) (h : list Z) : t :=
  mk (lay p) (ChunkSize p) (blocks p) (bnext p) (chunks p) (objects p) (_emptyChunkManager p) (freeChunks p)
    a cnt (_addAllocMax p) (_totalChunk p) (_useChunk p) (_myCode p) (_isPlacementNew p) (tls p) h (_allocAddr p).
Definition set_counts (p : t) (tot use : Z) : t :=
  mk (lay p) (ChunkSize p) (blocks p) (bnext p) (chunks p) (objects p) (_emptyChunkManager p) (freeChunks p)
    (_addBlockArrAllocator p) (_addAllocCnt p) (_addAllocMax p) tot use (_myCode p) (_isPlacementNew p)
    (tls p) (heap p) (_allocAddr p).
Definition set_tls (p : t) (m : gmap Z Z) : t :=
  mk (lay p) (ChunkSize p) (blocks p) (bnext p) (chunks p) (objects p) (_emptyChunkManager p) (freeChunks p)
    (_addBlockArrAllocator p) (_addAllocCnt p) (_addAllocMax p) (_totalChunk p) (_useChunk p)
    (_myCode p) (_isPlacementNew p) m (heap p) (_allocAddr p).

Definition data_of (p : t) (b : Z) : Z := b + MemoryPool.offsetof_data (lay p).
Definition block_of (p : t) (data : Z) : Z := data - MemoryPool.offsetof_data (lay p).

(** The codes at an address; at one that is no block of the pool, what memory has there. *)
Definition codes {mem : MemoryPool.Memory} (p : t) (b : Z) : outcome MemoryPool.BLOCK :=
  match blocks p !! b with
  | Some k => Ok k
  | None => match MemoryPool.outside b with Some k => Ok k | None => Fault OutOfBounds end
  end.

(** ** [Chunk] *)
Module Chunk.

Definition new : Chunk := mkChunk 0 0.
Definition get (p : t) (c : Z) : Chunk := default new (chunks p !! c).

Definition isEmpty (p : t) (c : Z) : bool := _size (get p c) =? 0.
Definition isFull (p : t) (c : Z) : bool := _size (get p c) =? ChunkSize p.

Definition Push (p : t) (c pBlock : Z) : bool * t :=
  if isFull p c then (false, p)
  else (true, set_blocks p (blocks p)
                (fun b => if b =? pBlock then _freeStackTop (get p c) else bnext p b)
                (<[c := mkChunk pBlock (u64 (_size (get p c) + 1))]> (chunks p))).

Definition Pop (p : t) (c : Z) : option Z * t :=
  if isEmpty p c then (None, p)
  else
    let b := _freeStackTop (get p c) in
    (Some b, set_blocks p (blocks p) (bnext p)
               (<[c := mkChunk (bnext p b) (u64 (_size (get p c) - 1))]> (chunks p))).

End Chunk.

(** ** The stack of full chunks and the array allocator *)
Definition Push (p : t) (pChunk : Z) : t := set_freeChunks p (TaggedStack.push_alone (freeChunks p) pChunk).
Definition Pop (p : t) : option Z * t :=
  let '(r, m) := TaggedStack.pop_alone (freeChunks p) in (r, set_freeChunks p m).

Module BlockArrayAllocator.

Definition new : TaggedStack.mem := TaggedStack.mkMem 0 (fun _ => 0).
Definition Push (a : TaggedStack.mem) (pPushNode : Z) : TaggedStack.mem := TaggedStack.push_alone a pPushNode.
Definition Pop (a : TaggedStack.mem) : option Z * TaggedStack.mem := TaggedStack.pop_alone a.

(** The array is the first member of the node. *)
Definition Alloc (a : TaggedStack.mem) (heap : list Z) : option Z * TaggedStack.mem * list Z :=
  match heap with
  | [] => (None, a, [])
  | newNode :: heap =>
      if newNode =? 0 then (None, a, heap) else (Some newNode, Push a newNode, heap)
  end.

Fixpoint destroy (fuel : nat) (a : TaggedStack.mem) : option (list Z) :=
  match fuel with
  | O => None
  | S fuel =>
      match Pop a with
      | (None, _) => Some []
      | (Some n, a) => l ← destroy fuel a; Some (n :: l)
      end
  end.

End BlockArrayAllocator.

(** ** Chunks of fresh blocks *)

(** The body of the block loops: a block of the pool's code goes into a chunk. The
    result of [Push] is not looked at. *)
Definition put_block (p : t) (c b : Z) : t :=
  let p := set_blocks p (<[b := MemoryPool.mkBlock (_myCode p) (MemoryPool.code_not (_myCode p))]> (blocks p))
             (bnext p) (chunks p) in
  let '(_, p) := Chunk.Push p c b in
  if _isPlacementNew p then p else set_objects p ({[data_of p b]} ∪ objects p).

Definition put_blocks (p : t) (c base lo n : Z) : t :=
  fold_left (fun p i => put_block p c (base + MemoryPool.sizeofBLOCK (lay p) * i)) (seqZ lo n) p.

Section pool.
Context {mem : MemoryPool.Memory}.

(** [_emptyChunkManager->Alloc()], null when it has none. *)
Definition new_chunk (p : t) : outcome (option Z * t) :=
  '(c, m) ← MemoryPool.Alloc (_emptyChunkManager p); Ok (c, set_manager p m).

Definition ChunkAlloc (p : t) : outcome (option Z * t) :=
  let '(popped, p) := Pop p in
  match popped with
  | Some c => Ok (Some c, set_counts p (_totalChunk p) (u64 (_useChunk p + 1)))
  | None =>
      let myNum := u64 (_addAllocCnt p + 1) in
      let p := set_adder p (_addBlockArrAllocator p) myNum (heap p) in
      if myNum =? _addAllocMax p then Ok (None, p)
      else if _addAllocMax p <? myNum
      then Ok (None, set_adder p (_addBlockArrAllocator p) (u64 (_addAllocCnt p - 1)) (heap p))
      else
        match _addBlockArrAllocator p with
        | None => Fault NullDeref
        | Some a =>
            let '(pBlockArr, a, hp) := BlockArrayAllocator.Alloc a (heap p) in
            let p := set_adder p (Some a) (_addAllocCnt p) hp in
            match pBlockArr with
            | None => Ok (None, p)
            | Some base =>
                '(popChunk, p) ← new_chunk p;
                match popChunk with
                | None => Fault NullDeref
                | Some c =>
                    let p := put_blocks p c base 0 (ChunkSize p) in
                    Ok (Some c, set_counts p (u64 (_totalChunk p + 1)) (u64 (_useChunk p + 1)))
                end
            end
        end
  end.

Definition ChunkFree (p : t) (pChunk : Z) : t :=
  let p := Push p pChunk in set_counts p (_totalChunk p) (u64 (_useChunk p - 1)).

(** ** Construction *)
Definition POOL_MAX_ALLOC : Z := 0xFFFFFFFFFFFFFFF.

(** The chunk loop: chunk [i] with its blocks, on the free stack. *)
Definition init_chunk (base : Z) (p : outcome t) (i : Z) : outcome t :=
  p ← p;
  '(pChunk, p) ← new_chunk p;
  match pChunk with
  | None => Fault NullDeref
  | Some c =>
      let p := put_blocks p c base (ChunkSize p * i) (ChunkSize p) in
      Ok (set_freeChunks p (TaggedStack.set_top
            (TaggedStack.set_next (freeChunks p) c (TaggedStack.top (freeChunks p))) c))
  end.

(** What the constructor gets from its surroundings: the layout of [BLOCK], what
    [VirtualAlloc] returns and the addresses [_aligned_malloc] will return for the
    block arrays; the same for the pool of chunks; the counter [secure_code] of each
    class after the increment, and the number of processors. *)
Record surroundings := mkSurroundings {
  s_layout : MemoryPool.layout;
  s_addr : Z;
  s_heap : list Z;
  s_secure : Z;
  s_chunk_layout : MemoryPool.layout;
  s_chunk_addr : Z;
  s_chunk_heap : list Z;
  s_chunk_secure : Z;
  s_processors : Z;
}.

Definition new (s : surroundings) (csize : Z) (good_os : bool) (initBlockNum maxBlockLimit : Z)
    (isPlacementNew : bool) : outcome (MemoryPool.new_error + t) :=
  if negb good_os then Ok (inl MemoryPool.BadOS)
  else if maxBlockLimit <? initBlockNum then Ok (inl MemoryPool.InitAboveMax)
  else if (initBlockNum =? 0) && (maxBlockLimit =? 0) then Ok (inl MemoryPool.BadParameter)
  else
    let initChunkCnt := u64 (initBlockNum + (csize - 1)) / csize in
    let maxChunkCnt := u64 (maxBlockLimit + (csize - 1)) / csize in
    let addMax := u64 (maxChunkCnt - initChunkCnt) in
    let alloc := if 0 <? addMax then Some BlockArrayAllocator.new else None in
    match MemoryPool.new (s_chunk_layout s) good_os (u64 (initChunkCnt + s_processors s)) POOL_MAX_ALLOC false
            (s_chunk_secure s) (s_chunk_addr s) (s_chunk_heap s) with
    | inl e => Ok (inl e)
    | inr manager =>
        let p0 addr := mk (s_layout s) csize ∅ (fun _ => 0) ∅ ∅ manager (TaggedStack.mkMem 0 (fun _ => 0))
                        alloc (u64 (-1)) addMax initChunkCnt 0 (s_secure s) isPlacementNew ∅ (s_heap s) addr in
        if initBlockNum =? 0 then Ok (inr (p0 0))
        else if s_addr s =? 0 then Ok (inl MemoryPool.NoMemory)
        else
          let alignof := MemoryPool.alignofBLOCK (s_layout s) in
          let _blockPool := alignof * ((s_addr s + alignof - 1) / alignof) in
          p ← fold_left (init_chunk _blockPool) (seqZ 0 initChunkCnt) (Ok (p0 (s_addr s)));
          Ok (inr p)
    end.

(** [~MemoryPoolTLS]: what it gives to [VirtualFree] and [_aligned_free], its own and
    what the pool of chunks gives. *)
Definition destroy (fuel : nat) (p : t) : option (Z * list Z * (Z * list Z)) :=
  ns ← match _addBlockArrAllocator p with
       | None => Some []
       | Some a => BlockArrayAllocator.destroy fuel a
       end;
  m ← MemoryPool.destroy fuel (_emptyChunkManager p);
  Some (_allocAddr p, ns, m).

(** ** [Alloc] and [Free], called by thread [tid] *)
Definition TlsSetValue (p : t) (tid : Z) (c : option Z) : t :=
  set_tls p (partial_alter (fun _ => c) tid (tls p)).

(** A block from the thread's chunk or from another. *)
Definition take_block (p : t) (tid : Z) : outcome (Z * t) :=
  '(pTlsChunk, p) ←
    match tls p !! tid with
    | Some c => Ok (Some c, p)
    | None => '(c, p) ← ChunkAlloc p; Ok (c, TlsSetValue p tid c)
    end;
  match pTlsChunk with
  | None => Fault NullDeref
  | Some c =>
      match Chunk.Pop p c with
      | (Some b, p) => Ok (b, p)
      | (None, p) =>
          '(_, m) ← MemoryPool.Free (_emptyChunkManager p) c;
          '(pTlsChunk, p) ← ChunkAlloc (set_manager p m);
          match pTlsChunk with
          | None => Fault NullDeref
          | Some c =>
              match Chunk.Pop p c with
              | (Some b, p) => Ok (b, TlsSetValue p tid (Some c))
              | (None, _) => Fault OutOfBounds
              end
          end
      end
  end.

Definition Alloc (p : t) (tid : Z) : outcome (Z * t) :=
  '(b, p) ← take_block p tid;
  k ← codes p b;
  let p := set_blocks p (<[b := MemoryPool.mkBlock (MemoryPool._preCode k)
                              (MemoryPool.code_not (MemoryPool._postCode k))]> (blocks p))
             (bnext p) (chunks p) in
  Ok (data_of p b, if _isPlacementNew p then set_objects p ({[data_of p b]} ∪ objects p) else p).

(** A block into the thread's chunk; a full one goes to the stack first. *)
Definition give_block (p : t) (tid b : Z) : outcome t :=
  '(pTlsChunk, p) ←
    match tls p !! tid with
    | Some c => Ok (Some c, p)
    | None => '(c, p) ← new_chunk p; Ok (c, TlsSetValue p tid c)
    end;
  match pTlsChunk with
  | None => Fault NullDeref
  | Some c =>
      match Chunk.Push p c b with
      | (true, p) => Ok p
      | (false, p) =>
          '(pTlsChunk, p) ← new_chunk (ChunkFree p c);
          match pTlsChunk with
          | None => Fault NullDeref
          | Some c => let '(_, p) := Chunk.Push p c b in Ok (TlsSetValue p tid (Some c))
          end
      end
  end.

Definition Free (p : t) (tid data : Z) : outcome (bool * t) :=
  let pushNode := block_of p data in
  k ← codes p pushNode;
  if negb (MemoryPool._preCode k =? MemoryPool._postCode k) then Ok (false, p)
  else if negb (MemoryPool._preCode k =? _myCode p) then Ok (false, p)
  else
    let p := set_blocks p (<[pushNode := MemoryPool.mkBlock (MemoryPool._preCode k)
                                     (MemoryPool.code_not (MemoryPool._postCode k))]> (blocks p))
               (bnext p) (chunks p) in
    let p := if _isPlacementNew p then set_objects p (objects p ∖ {[data]}) else p in
    p ← give_block p tid pushNode;
    Ok (true, p).

End pool.

End MemoryPoolTLS.
