(* ===== verification/MemoryPoolTLSInv.v ===== *)
(** * The invariant of the thread-local memory pool

    Every free block is in exactly one chunk, full chunks are in the free stack, and a
    chunk in use belongs to one thread; the moves of a block between a client and a
    chunk, of a chunk between a thread, the free stack and the pool of chunks, and the
    making of new blocks, each with what it keeps. *)
From S2P Require Import Prelude.
From S2P Require Import TaggedStack.
From S2P Require Import MemoryPool.
From S2P Require Import MemoryPoolTLS.
From stdpp Require Import prelude functions gmap list list_numbers.
From Stdlib Require Import ZArith Lia.
Open Scope Z_scope.
Import MemoryPoolTLS.
#[local] Existing Instance MemoryPool.BLOCK_eq_dec.

(** ** The invariant *)
Definition in_use (p : t) : MemoryPool.BLOCK := MemoryPool.mkBlock (_myCode p) (_myCode p).
Definition unused (p : t) : MemoryPool.BLOCK := MemoryPool.mkBlock (_myCode p) (MemoryPool.code_not (_myCode p)).

(** The chunk objects in use. *)
Definition live (p : t) : gset Z := MemoryPool.outstanding (_emptyChunkManager p).

(** The blocks and the objects clients hold. *)
Definition held (p : t) : gset Z := dom (filter (fun kv => kv.2 = in_use p) (blocks p)).
Definition outstanding (p : t) : gset Z := set_map (data_of p) (held p).

(** The list of blocks that starts at [b]; what follows the last is of no account. *)
Fixpoint linked (nx : Z -> Z) (b : Z) (l : list Z) : Prop :=
  match l with [] => True | x :: l => b = x /\ linked nx (nx x) l end.

(** Block [i] of an array. *)
Definition block_at (p : t) (base i : Z) : Z := base + MemoryPool.sizeofBLOCK (lay p) * i.
Definition apart (p : t) (h h' : Z) : Prop :=
  h + MemoryPool.sizeofBLOCK (lay p) * ChunkSize p <= h' \/ h' + MemoryPool.sizeofBLOCK (lay p) * ChunkSize p <= h.

(** Array addresses still to come: apart, and no known block in them. *)
Definition heap_ok (p : t) : Prop :=
  (forall k h, heap p !! k = Some h -> h <> 0 -> 0 < h < 2 ^ 47 /\
     forall i, 0 <= i < ChunkSize p -> blocks p !! block_at p h i = None) /\
  (forall k k' h h', heap p !! k = Some h -> heap p !! k' = Some h' -> h <> 0 -> h' <> 0 -> k <> k' -> apart p h h').

(** [body c] are the blocks in chunk [c], [full] the chunks of the free stack from the
    top, [loose] the free blocks under way between a client and a chunk; [skip] is the
    thread whose [tls] entry is about to be replaced. *)
Record ok (p : t) (body : Z -> list Z) (full loose : list Z) (skip : option Z) : Prop := mkOk {
  ok_size : 0 < ChunkSize p < 2 ^ 64;
  ok_code : 1 <= _myCode p < 2 ^ 64;
  ok_lay : 0 <= MemoryPool.offsetof_data (lay p) < MemoryPool.sizeofBLOCK (lay p);
  ok_chunk c : linked (bnext p) (_freeStackTop (Chunk.get p c)) (body c) /\
    _size (Chunk.get p c) = Z.of_nat (length (body c)) /\ Z.of_nat (length (body c)) <= ChunkSize p /\ NoDup (body c);
  ok_dead c : c ∉ live p -> body c = [];
  ok_live c : c ∈ live p -> 0 < c < 2 ^ 47;
  ok_full : TaggedStack.stack_is (freeChunks p) full /\ NoDup full /\
    forall c, c ∈ full -> c ∈ live p /\ Z.of_nat (length (body c)) = ChunkSize p;
  ok_tls tid c : Some tid <> skip -> tls p !! tid = Some c -> c ∈ live p /\ c ∉ full;
  ok_tls_inj tid tid' c : Some tid <> skip -> Some tid' <> skip ->
    tls p !! tid = Some c -> tls p !! tid' = Some c -> tid = tid';
  ok_unique c c' b : b ∈ body c -> b ∈ body c' -> c = c';
  ok_loose : NoDup loose /\ forall c b, b ∈ body c -> b ∉ loose;
  ok_free b : blocks p !! b = Some (unused p) <-> (exists c, b ∈ body c) \/ b ∈ loose;
  ok_codes b k : blocks p !! b = Some k -> k = in_use p \/ k = unused p;
  ok_heap : heap_ok p;
  ok_adder : match _addBlockArrAllocator p with
             | None => _addAllocMax p = 0
             | Some a => exists ns, TaggedStack.stack_is a ns /\ NoDup ns /\
                           forall n k h, n ∈ ns -> heap p !! k = Some h -> h <> 0 -> n <> h
             end;
  ok_objects b k : blocks p !! b = Some k -> k = in_use p \/ _isPlacementNew p = false ->
    data_of p b ∈ objects p;
}.

(** What is left for [n] more chunks: full chunks, memory for block arrays, additions
    below the limit, and chunk objects. *)
Definition manager_serves (m : MemoryPool.t) (n : nat) : Prop :=
  exists l limit, MemoryPool.ok m l limit 0 /\ (0 ∉ MemoryPool.heap m) /\
    (n <= length l + length (MemoryPool.heap m))%nat /\
    Z.of_nat (size (MemoryPool.held m)) + Z.of_nat n <= limit.

Record serves (p : t) (full : list Z) (n : nat) : Prop := mkServes {
  sv_heap : (0 ∉ heap p) /\ (n <= length full + length (heap p))%nat;
  sv_manager : manager_serves (_emptyChunkManager p) n;
  sv_count : exists tries, 0 <= tries <= _addAllocMax p /\
    tries + Z.of_nat n <= Z.of_nat (length full) + _addAllocMax p /\ _addAllocMax p + 1 < 2 ^ 64 /\
    _addAllocCnt p = u64 (tries - 1);
}.

Section with_memory.
Context {mem : MemoryPool.Memory}.

(** ** The pool of chunks *)
Lemma held_block m l limit b :
  MemoryPool.ok m l limit 0 -> b ∈ MemoryPool.held m -> 0 < MemoryPool.data_of m b < 2 ^ 47.
Proof.
  intros [] Hb%MemoryPool.elem_of_held. destruct (ok_codes0 _ _ Hb) as [_ [? ?]]. unfold MemoryPool.data_of. lia.
Qed.

Lemma held_range m m' l limit b :
  MemoryPool.ok m' l limit 0 -> MemoryPool.held m' = {[b]} ∪ MemoryPool.held m -> MemoryPool.lay m' = MemoryPool.lay m ->
  0 < MemoryPool.data_of m b < 2 ^ 47.
Proof.
  intros Hok Hh El. unfold MemoryPool.data_of. rewrite <- El. apply (held_block m' l limit); [done|].
  rewrite Hh. apply elem_of_union_l, elem_of_singleton. done.
Qed.

Lemma manager_alloc m n :
  manager_serves m (S n) ->
  exists c m', MemoryPool.Alloc m = Ok (Some c, m') /\ manager_serves m' n /\
    (c ∉ MemoryPool.outstanding m) /\ MemoryPool.outstanding m' = {[c]} ∪ MemoryPool.outstanding m /\ 0 < c < 2 ^ 47.
Proof.
  intros (l & limit & Hok & Hz & Hn & Hlim). pose proof (MemoryPool.size_blocks _ _ _ _ Hok) as Hs.
  destruct l as [|b l].
  - destruct (MemoryPool.Alloc_add m [] limit 0 Hok eq_refl) as
      [(p1 & lost' & E1 & _ & _ & _ & [(_ & Hl & _)|(_ & Hhd)])|(b & p1 & E1 & Ehp & Hok' & Hh & Hb & Hla)].
    + cbn in Hs. lia.
    + exfalso. destruct (MemoryPool.heap m) as [|h hp]; [cbn in Hn; lia|]. cbn in Hhd.
      destruct Hhd as [?|[= ->]]; [done|]. apply Hz. left.
    + rewrite Ehp in Hz, Hn. apply not_elem_of_cons in Hz as [_ Hz]. cbn in Hn.
      exists (MemoryPool.data_of m b), p1. split; [done|]. split; [|split; [|split]].
      * exists [], limit. rewrite Hh, size_union, size_singleton by (apply disjoint_singleton_l, Hb). cbn.
        split_and!; done || lia.
      * apply MemoryPool.outstanding_not_held, Hb.
      * apply MemoryPool.outstanding_take; done.
      * apply (held_range m p1 [] limit); done.
  - destruct (MemoryPool.Alloc_reuse m _ limit 0 Hok b l eq_refl) as (p1 & E1 & Hok' & Hh & Hb & Hla & Ehp).
    exists (MemoryPool.data_of m b), p1. split; [done|]. split; [|split; [|split]].
    + exists l, limit. rewrite Hh, size_union, size_singleton by (apply disjoint_singleton_l, Hb). rewrite Ehp.
      cbn in Hn. split_and!; done || lia.
    + apply MemoryPool.outstanding_not_held, Hb.
    + apply MemoryPool.outstanding_take; done.
    + apply (held_range m p1 l limit); done.
Qed.

Lemma manager_free m n c :
  manager_serves m n -> c ∈ MemoryPool.outstanding m ->
  exists m', MemoryPool.Free m c = Ok (true, m') /\ manager_serves m' n /\
    MemoryPool.outstanding m' = MemoryPool.outstanding m ∖ {[c]}.
Proof.
  intros (l & limit & Hok & Hz & Hn & Hlim) Hc%MemoryPool.elem_of_outstanding.
  destruct (MemoryPool.Free_held m l limit 0 Hok _ Hc) as (m' & E & Hok' & Hh & Hla & Hhp & _).
  assert (Ec : MemoryPool.data_of m (MemoryPool.block_of m c) = c) by (unfold MemoryPool.data_of, MemoryPool.block_of; lia).
  rewrite Ec in E. exists m'. split_and!; [done| |].
  - exists (MemoryPool.block_of m c :: l), limit. rewrite Hhp, Hh, size_difference by (apply singleton_subseteq_l, Hc).
    cbn. split_and!; done || lia.
  - rewrite (MemoryPool.outstanding_drop _ _ _ Hh Hla), Ec. done.
Qed.

Lemma manager_weaken m n : manager_serves m (S n) -> manager_serves m n.
Proof. intros (l & limit & ? & ? & ? & ?). exists l, limit. split_and!; done || lia. Qed.

(** Fewer chunks are needed, or more are full. *)
Lemma serves_weaken p full full' n : (length full <= length full')%nat -> serves p full (S n) -> serves p full' n.
Proof.
  intros Hl [[Hz Hn] Hm (tries & ? & ? & ? & ?)]. split.
  - split; [done|lia].
  - apply manager_weaken, Hm.
  - exists tries. split_and!; done || lia.
Qed.

(** [pool_fields] computes the members of a pool whose other members were set. *)
Ltac pool_fields :=
  cbn [ChunkSize _myCode lay blocks bnext chunks objects _emptyChunkManager freeChunks _addBlockArrAllocator
       _addAllocMax _isPlacementNew tls heap set_blocks set_freeChunks set_adder].

(** ** Moving one block *)
Lemma tls_in_use_unused p : 1 <= _myCode p < 2 ^ 64 -> in_use p <> unused p.
Proof. intros Hc [= E]. symmetry in E. apply MemoryPool.code_not_ne in E; lia. Qed.

Lemma tls_elem_of_held p b : b ∈ held p <-> blocks p !! b = Some (in_use p).
Proof.
  unfold held. rewrite elem_of_dom. split.
  - intros [k Hk]. apply map_lookup_filter_Some in Hk as [Hk Ek]. cbn in Ek. congruence.
  - intros Hb. exists (in_use p). apply map_lookup_filter_Some. done.
Qed.

Lemma tls_elem_of_outstanding p x : x ∈ outstanding p <-> block_of p x ∈ held p.
Proof.
  unfold outstanding. rewrite elem_of_map. split.
  - intros (b & -> & Hb). unfold block_of, data_of. rewrite Z.add_simpl_r. done.
  - intros Hb. exists (block_of p x). split; [unfold block_of, data_of; lia|done].
Qed.

(** What stays when a block moves. *)
Definition frame (p : t) :=
  (lay p, ChunkSize p, _myCode p, _isPlacementNew p, _emptyChunkManager p, tls p, heap p,
   (_addBlockArrAllocator p, _addAllocCnt p, _addAllocMax p)).

Lemma frame_serves p p' full n : frame p' = frame p -> serves p full n -> serves p' full n.
Proof. intros [= El Ec Em Ei Eg Et Eh Ea En Ex] []. split; rewrite ?Eh, ?Eg, ?En, ?Ex; done. Qed.

Lemma linked_ext nx nx' b l : linked nx b l -> (forall x, x ∈ l -> nx' x = nx x) -> linked nx' b l.
Proof.
  revert b. induction l as [|x l IH]; intros b; [done|]. intros [-> Hl] He. split; [done|].
  rewrite He by left. apply IH; [done|]. intros y Hy. apply He. right. done.
Qed.

(** The codes of block [b] are set to [k]; the rest of the pool but its objects stays. *)
Section flip.
Context (p p' : t) (body : Z -> list Z) (full loose loose' : list Z) (skip : option Z) (b : Z) (k : MemoryPool.BLOCK).
Hypothesis (Hok : ok p body full loose skip) (Hf : frame p' = frame p).
Hypothesis (Hst : (bnext p', chunks p', freeChunks p') = (bnext p, chunks p, freeChunks p)).
Hypothesis (Hb : is_Some (blocks p !! b)) (Eb : blocks p' = <[b := k]> (blocks p)).
Hypothesis (Hk : k = in_use p \/ k = unused p) (Hbody : forall c, b ∉ body c).
Hypothesis (Hl : NoDup loose') (Hl' : forall x, x ∈ loose' <-> (x = b /\ k = unused p) \/ (x <> b /\ x ∈ loose)).
Hypothesis (Hobj : forall x, x <> b -> data_of p x ∈ objects p -> data_of p x ∈ objects p').
Hypothesis (Hobjb : k = in_use p \/ _isPlacementNew p = false -> data_of p b ∈ objects p').

Lemma flip_ok : ok p' body full loose' skip.
Proof.
  destruct Hok as [H1 H2 H3 Hch Hdead Hlive Hfull Htls Hinj Huniq [_ Hbl] Hfree Hcodes Hheap Hadd Hob].
  injection Hf as Ela Ecs Emy Epl Emg Etl Ehp Ead Ecn Emx. injection Hst as Enx Ech Efc.
  assert (Eu : in_use p' = in_use p) by (unfold in_use; rewrite Emy; done).
  assert (Ef : unused p' = unused p) by (unfold unused; rewrite Emy; done).
  assert (Ed : forall x, data_of p' x = data_of p x) by (intros x; unfold data_of; rewrite Ela; done).
  assert (Eg : forall c, Chunk.get p' c = Chunk.get p c) by (intros c; unfold Chunk.get; rewrite Ech; done).
  assert (Eli : live p' = live p) by (unfold live; rewrite Emg; done).
  split; rewrite ?Ela, ?Ecs, ?Emy, ?Ehp, ?Ead, ?Emx, ?Eli, ?Etl, ?Efc, ?Eu, ?Ef, ?Epl; try done.
  - intros c. rewrite Eg, Enx. apply Hch.
  - split; [done|]. intros c x Hx. rewrite Hl'. intros [[-> _]|[_ Hxl]]; [apply (Hbody c Hx)|apply (Hbl c x Hx Hxl)].
  - intros x. rewrite Eb, lookup_insert_Some, Hl', Hfree. split.
    + intros [[<- ->]|[Hne [?|?]]]; auto.
    + intros [[c Hx]|[[-> ->]|[? ?]]]; [|auto|auto]. right. split; [|eauto]. intros <-. apply (Hbody c Hx).
  - intros x k'. rewrite Eb, lookup_insert_Some. intros [[_ <-]|[_ Hx]]; [done|eauto].
  - destruct Hheap as [Hh Hap]. unfold heap_ok, apart. rewrite Ehp, Ela, Ecs. split; [|exact Hap].
    intros j h Hj H0. destruct (Hh j h Hj H0) as [? Hn]. split; [done|]. intros i Hi.
    specialize (Hn i Hi). unfold block_at in *. rewrite Ela, Eb, lookup_insert_ne; [done|]. intros ->.
    rewrite Hn in Hb. by destruct Hb.
  - intros x k'. rewrite Eb, lookup_insert_Some, Ed. intros [[<- <-]|[Hne Hx]] Hu; [auto|].
    apply Hobj; [done|]. eauto.
Qed.
End flip.

Lemma held_flip p p' b k :
  frame p' = frame p -> 1 <= _myCode p < 2 ^ 64 -> blocks p' = <[b := k]> (blocks p) ->
  (k = in_use p -> held p' = {[b]} ∪ held p) /\ (k = unused p -> held p' = held p ∖ {[b]}).
Proof.
  intros [= _ _ Em] Hc Eb. assert (E : in_use p' = in_use p) by (unfold in_use; rewrite Em; done).
  pose proof (tls_in_use_unused p Hc) as Hne.
  split; intros ->; apply set_eq; intros x.
  - rewrite elem_of_union, elem_of_singleton, !tls_elem_of_held, Eb, E, lookup_insert_Some.
    split; [intros [[-> _]|[_ ?]]; auto|]. intros [->|Hx]; [auto|]. destruct (decide (b = x)); auto.
  - rewrite elem_of_difference, elem_of_singleton, !tls_elem_of_held, Eb, E, lookup_insert_Some.
    split; [intros [[_ ?]|[? ?]]; [congruence|auto]|intros [? ?]; auto].
Qed.

(** What stays besides when a block moves between a chunk and a client. *)
Definition kept (p : t) := (frame p, blocks p, objects p, freeChunks p).

Lemma kept_parts p p' :
  kept p' = kept p -> frame p' = frame p /\ blocks p' = blocks p /\ objects p' = objects p /\ freeChunks p' = freeChunks p.
Proof.
  intros E. split_and!; [exact (f_equal (fun x => x.1.1.1) E)|exact (f_equal (fun x => x.1.1.2) E)
    |exact (f_equal (fun x => x.1.2) E)|exact (f_equal snd E)].
Qed.

Lemma kept_held p p' : kept p' = kept p -> held p' = held p /\ outstanding p' = outstanding p /\ live p' = live p.
Proof.
  intros [= El _ Em _ Eg _ _ _ _ _ Eb _ _].
  assert (E : held p' = held p) by (unfold held, in_use; rewrite Eb, Em; done).
  split_and!; [done| |unfold live; rewrite Eg; done]. unfold outstanding, data_of. rewrite E, El. done.
Qed.

Lemma get_insert p nx bl c k c' :
  Chunk.get (set_blocks p bl nx (<[c := k]> (chunks p))) c' = if decide (c' = c) then k else Chunk.get p c'.
Proof.
  unfold Chunk.get. cbn. destruct (decide (c' = c)) as [->|Hne]; [rewrite lookup_insert_eq; done|].
  rewrite lookup_insert_ne by congruence. done.
Qed.

Lemma push_block p body full loose skip c b :
  ok p body full (b :: loose) skip -> c ∈ live p -> Z.of_nat (length (body c)) < ChunkSize p ->
  exists p', Chunk.Push p c b = (true, p') /\ ok p' (<[c := b :: body c]> body) full loose skip /\ kept p' = kept p.
Proof.
  intros [] Hc Hlen. destruct (ok_chunk0 c) as (Hl & Hs & Hm & Hnd).
  destruct ok_loose0 as [[Hbl Hln]%NoDup_cons Hbody].
  unfold Chunk.Push, Chunk.isFull. rewrite Hs. replace (_ =? ChunkSize p) with false by lia.
  eexists. split; [reflexivity|]. split; [|done].
  assert (Hu : u64 (Z.of_nat (length (body c)) + 1) = Z.of_nat (length (b :: body c))).
  { cbn [length]. rewrite u_small by lia. lia. }
  split; pool_fields; try done.
  - intros c'. rewrite get_insert. destruct (decide (c' = c)) as [->|Hne].
    + rewrite fn_lookup_insert. cbn [_freeStackTop _size linked]. rewrite Z.eqb_refl. split_and!.
      * done.
      * eapply linked_ext; [exact Hl|]. intros x Hx. replace (x =? b) with false; [done|].
        symmetry. apply Z.eqb_neq. intros ->. apply (Hbody c b Hx). left.
      * exact Hu.
      * cbn [length]. lia.
      * apply NoDup_cons. split; [|done]. intros Hx. apply (Hbody c b Hx). left.
    + rewrite fn_lookup_insert_ne by done. destruct (ok_chunk0 c') as (Hl' & ?). split; [|done].
      eapply linked_ext; [exact Hl'|]. intros x Hx. replace (x =? b) with false; [done|].
      symmetry. apply Z.eqb_neq. intros ->. apply (Hbody c' b Hx). left.
  - intros c' Hc'. rewrite fn_lookup_insert_ne; [apply ok_dead0; done|]. intros <-. done.
  - destruct ok_full0 as (? & ? & Hf). split_and!; [done..|]. intros c' Hc'. destruct (Hf c' Hc') as [? Hfl].
    split; [done|]. rewrite fn_lookup_insert_ne; [done|]. intros <-. lia.
  - intros c1 c2 x. destruct (decide (c1 = c)) as [->|H1], (decide (c2 = c)) as [->|H2];
      rewrite ?fn_lookup_insert, ?fn_lookup_insert_ne by done; try done; rewrite ?elem_of_cons.
    + intros [->|Hx] Hx2; [|eauto]. destruct (Hbody c2 b Hx2). left.
    + intros Hx1 [->|Hx]; [|eauto]. destruct (Hbody c1 b Hx1). left.
    + apply ok_unique0.
  - split; [done|]. intros c' x. destruct (decide (c' = c)) as [->|Hne];
      rewrite ?fn_lookup_insert, ?fn_lookup_insert_ne by done; rewrite ?elem_of_cons.
    + intros [->|Hx]; [done|]. intros Hxl. apply (Hbody c x Hx). right. done.
    + intros Hx Hxl. apply (Hbody c' x Hx). right. done.
  - intros x. rewrite (ok_free0 x), elem_of_cons. split.
    + intros [[c' Hx]|[->|Hx]]; [|left; exists c; rewrite fn_lookup_insert; left|auto].
      left. exists c'. destruct (decide (c' = c)) as [->|Hne]; rewrite ?fn_lookup_insert, ?fn_lookup_insert_ne by done; [right|]; done.
    + intros [[c' Hx]|Hx]; [|auto]. revert Hx. destruct (decide (c' = c)) as [->|Hne];
        rewrite ?fn_lookup_insert, ?fn_lookup_insert_ne by done; rewrite ?elem_of_cons; [intros [->|Hx]|]; eauto.
Qed.

Lemma pop_block p body full loose skip c b l :
  ok p body full loose skip -> c ∉ full -> body c = b :: l ->
  exists p', Chunk.Pop p c = (Some b, p') /\ ok p' (<[c := l]> body) full (b :: loose) skip /\ kept p' = kept p.
Proof.
  intros [] Hc Eb. destruct (ok_chunk0 c) as (Hl & Hs & Hm & Hnd). rewrite Eb in Hl, Hs, Hm, Hnd.
  destruct Hl as [Etop Hl]. apply NoDup_cons in Hnd as [Hbl Hnd]. cbn [length] in Hs, Hm.
  destruct ok_loose0 as [Hln Hbody].
  unfold Chunk.Pop, Chunk.isEmpty. rewrite Hs.
  rewrite (proj2 (Z.eqb_neq _ _)) by lia. rewrite Etop.
  eexists. split; [reflexivity|]. split; [|done].
  assert (Hin : b ∈ body c) by (rewrite Eb; left).
  assert (Hsub : forall c' x, x ∈ (<[c := l]> body) c' <-> x ∈ body c' /\ x <> b).
  { intros c' x. destruct (decide (c' = c)) as [->|Hne]; rewrite ?fn_lookup_insert, ?fn_lookup_insert_ne by done.
    - rewrite Eb, elem_of_cons. split; [|intros [[->|?] ?]; done]. intros Hx. split; [auto|]. intros ->. done.
    - split; [|intros [? _]; done]. intros Hx. split; [done|]. intros ->. apply Hne, (ok_unique0 c' c b); done. }
  split; pool_fields; try done.
  - intros c'. rewrite get_insert. destruct (decide (c' = c)) as [->|Hne]; [|rewrite fn_lookup_insert_ne by done; apply ok_chunk0].
    rewrite fn_lookup_insert. cbn [_freeStackTop _size]. rewrite u_small by lia. split_and!; done || lia.
  - intros c' Hc'. destruct (decide (c' = c)) as [->|Hne]; rewrite ?fn_lookup_insert, ?fn_lookup_insert_ne by done; [|auto].
    rewrite (ok_dead0 c Hc') in Eb. done.
  - destruct ok_full0 as (? & ? & Hf). split_and!; [done..|]. intros c' Hc'. destruct (Hf c' Hc') as [? Hfl].
    split; [done|]. rewrite fn_lookup_insert_ne; [done|]. intros <-. done.
  - intros c1 c2 x [? _]%Hsub [? _]%Hsub. eauto.
  - split.
    + apply NoDup_cons. split; [apply (Hbody c b Hin)|done].
    + intros c' x [Hx Hne]%Hsub. rewrite elem_of_cons. intros [?|?]; [done|]. apply (Hbody c' x Hx). done.
  - intros x. rewrite (ok_free0 x), elem_of_cons. split.
    + intros [[c' Hx]|Hx]; [|auto]. destruct (decide (x = b)) as [->|Hne]; [auto|]. left. exists c'. apply Hsub. done.
    + intros [[c' [Hx _]%Hsub]|[->|Hx]]; eauto.
Qed.

Lemma pop_empty p body full loose skip c :
  ok p body full loose skip -> body c = [] -> Chunk.Pop p c = (None, p).
Proof.
  intros [] Eb. destruct (ok_chunk0 c) as (_ & Hs & _). unfold Chunk.Pop, Chunk.isEmpty. rewrite Hs, Eb. done.
Qed.

Lemma push_full p body full loose skip c b :
  ok p body full loose skip -> Z.of_nat (length (body c)) = ChunkSize p -> Chunk.Push p c b = (false, p).
Proof.
  intros [] Eb. destruct (ok_chunk0 c) as (_ & Hs & _). unfold Chunk.Push, Chunk.isFull. rewrite Hs, Eb, Z.eqb_refl. done.
Qed.

(** ** Moving a chunk *)
Section chunks.
Context (p : t) (body : Z -> list Z) (full loose : list Z) (skip : option Z) (Hok : ok p body full loose skip).

Lemma ok_counts a b : ok (set_counts p a b) body full loose skip.
Proof. destruct Hok. split; assumption. Qed.

(** No thread's chunk. *)
Definition unowned (c : Z) : Prop := forall tid, Some tid <> skip -> tls p !! tid <> Some c.

Lemma full_unowned c : c ∈ full -> unowned c.
Proof. intros Hc tid Ht E. destruct (ok_tls _ _ _ _ _ Hok tid c Ht E). done. Qed.

Lemma dead_unowned c : c ∉ live p -> unowned c.
Proof. intros Hc tid Ht E. destruct (ok_tls _ _ _ _ _ Hok tid c Ht E). done. Qed.

Lemma new_chunk_ok n :
  manager_serves (_emptyChunkManager p) (S n) ->
  exists c m', new_chunk p = Ok (Some c, set_manager p m') /\ ok (set_manager p m') body full loose skip /\
    manager_serves m' n /\ (c ∉ live p) /\ live (set_manager p m') = {[c]} ∪ live p.
Proof.
  intros (c & m' & E & Hm & Hc & Hl & Hr)%manager_alloc. exists c, m'. unfold new_chunk. rewrite E.
  split_and!; [done| |done|done|done].
  assert (El : live (set_manager p m') = {[c]} ∪ live p) by exact Hl.
  destruct Hok. split; rewrite ?El; try assumption.
  - intros c' Hc'. apply ok_dead0. intros Hx. apply Hc', elem_of_union_r, Hx.
  - intros c' [->%elem_of_singleton|Hc']%elem_of_union; auto.
  - destruct ok_full0 as (? & ? & Hf). split_and!; [done..|]. intros x Hx. destruct (Hf x Hx).
    split; [apply elem_of_union_r|]; done.
  - intros tid x Ht Hx. destruct (ok_tls0 tid x Ht Hx). split; [apply elem_of_union_r|]; done.
Qed.

Lemma free_chunk_ok n c :
  manager_serves (_emptyChunkManager p) n -> c ∈ live p -> c ∉ full -> body c = [] -> unowned c ->
  exists m', MemoryPool.Free (_emptyChunkManager p) c = Ok (true, m') /\ ok (set_manager p m') body full loose skip /\
    manager_serves m' n /\ live (set_manager p m') = live p ∖ {[c]}.
Proof.
  intros Hm Hc Hcf Hb Hu. destruct (manager_free _ n c Hm Hc) as (m' & E & Hm' & Hl). exists m'.
  split_and!; [done| |done|done].
  assert (El : live (set_manager p m') = live p ∖ {[c]}) by exact Hl.
  destruct Hok. split; rewrite ?El; try assumption.
  - intros c' Hc'. destruct (decide (c' = c)) as [->|Hne]; [done|]. apply ok_dead0. intros Hx. apply Hc'.
    apply elem_of_difference. rewrite elem_of_singleton. done.
  - intros c' [Hx _]%elem_of_difference. auto.
  - destruct ok_full0 as (? & ? & Hf). split_and!; [done..|]. intros x Hx. destruct (Hf x Hx).
    split; [|done]. apply elem_of_difference. rewrite elem_of_singleton. split; [done|]. intros ->. done.
  - intros tid x Ht Hx. destruct (ok_tls0 tid x Ht Hx). split; [|done]. apply elem_of_difference.
    rewrite elem_of_singleton. split; [done|]. intros ->. apply (Hu tid Ht Hx).
Qed.

(** A full chunk goes to the free stack. *)
Lemma Push_ok c :
  c ∈ live p -> c ∉ full -> Z.of_nat (length (body c)) = ChunkSize p -> unowned c ->
  ok (Push p c) body (c :: full) loose skip.
Proof.
  intros Hc Hcf Hb Hu. destruct Hok. destruct ok_full0 as (Hst & Hnd & Hf).
  split; unfold Push; pool_fields; try assumption.
  - split_and!; [apply TaggedStack.push_alone_stack; [done|apply ok_live0, Hc|done]|apply NoDup_cons; done|].
    intros x [->|Hx]%elem_of_cons; [done|]. apply Hf, Hx.
  - intros tid x Ht Hx. destruct (ok_tls0 tid x Ht Hx) as [? Hxf]. split; [done|].
    rewrite elem_of_cons. intros [->|?]; [apply (Hu tid Ht Hx)|done].
Qed.

(** The top chunk comes from the free stack. *)
Lemma Pop_ok c full' :
  full = c :: full' ->
  exists m, Pop p = (Some c, set_freeChunks p m) /\ ok (set_freeChunks p m) body full' loose skip /\
    c ∈ live p /\ (c ∉ full') /\ Z.of_nat (length (body c)) = ChunkSize p.
Proof.
  intros Ef. destruct Hok. destruct ok_full0 as (Hst & Hnd & Hf). rewrite Ef in Hst, Hnd, Hf.
  destruct (TaggedStack.pop_alone_stack _ _ Hst) as (m & Em & Hm). apply NoDup_cons in Hnd as [Hc Hnd].
  destruct (Hf c ltac:(left)) as [Hcl Hlen].
  exists m. unfold Pop. rewrite Em. split_and!; [done| |done|done|done].
  split; pool_fields; try assumption.
  - split_and!; [done..|]. intros x Hx. apply Hf. right. done.
  - intros tid x Ht Hx. destruct (ok_tls0 tid x Ht Hx) as [? Hxf]. split; [done|].
    intros Hx'. apply Hxf. rewrite Ef. right. done.
Qed.

Lemma Pop_none : full = [] -> Pop p = (None, p).
Proof.
  intros Ef. destruct Hok. destruct ok_full0 as (Hst & _). rewrite Ef in Hst.
  unfold Pop. rewrite (TaggedStack.pop_alone_stack _ _ Hst). destruct p. done.
Qed.
End chunks.

Lemma ok_skip p body full loose tid : ok p body full loose None -> ok p body full loose (Some tid).
Proof.
  intros []. split; try done.
  - intros tid' c _. apply ok_tls0. done.
  - intros t1 t2 c _ _. apply ok_tls_inj0; done.
Qed.

(** A chunk becomes the thread's. *)
Lemma tls_ok p body full loose tid c :
  ok p body full loose (Some tid) -> c ∈ live p -> c ∉ full -> unowned p (Some tid) c ->
  ok (TlsSetValue p tid (Some c)) body full loose None.
Proof.
  intros [] Hc Hcf Hu.
  assert (El : forall t' x, tls (TlsSetValue p tid (Some c)) !! t' = Some x ->
    (t' = tid /\ x = c) \/ (t' <> tid /\ tls p !! t' = Some x)).
  { intros t' x. cbn. destruct (decide (t' = tid)) as [->|Hne].
    - rewrite lookup_partial_alter_eq. intros [= ->]. auto.
    - rewrite lookup_partial_alter_ne by done. auto. }
  split; try assumption.
  - intros t' x _ [[-> ->]|[Hne Hx]]%El; [done|]. apply (ok_tls0 t'); [congruence|done].
  - intros t1 t2 x _ _ [[-> ->]|[Hne1 Hx1]]%El [[-> E]|[Hne2 Hx2]]%El; try done.
    + destruct (Hu t2); [congruence|done].
    + subst x. destruct (Hu t1); [congruence|done].
    + apply (ok_tls_inj0 t1 t2 x); congruence.
Qed.

(** ** New blocks *)

(** [b] is no block and in no array still to come. *)
Definition fresh_block (p : t) (b : Z) : Prop :=
  blocks p !! b = None /\
  forall k h i, heap p !! k = Some h -> h <> 0 -> 0 <= i < ChunkSize p -> block_at p h i <> b.

Lemma add_block p p' body full loose skip b :
  ok p body full loose skip -> fresh_block p b -> frame p' = frame p ->
  (bnext p', chunks p', freeChunks p') = (bnext p, chunks p, freeChunks p) ->
  blocks p' = <[b := unused p]> (blocks p) -> objects p ⊆ objects p' ->
  (_isPlacementNew p = false -> data_of p b ∈ objects p') ->
  ok p' body full (b :: loose) skip /\ held p' = held p.
Proof.
  intros [H1 H2 H3 Hch Hdead Hlive Hfull Htls Hinj Huniq [Hlo Hbl] Hfree Hcodes Hheap Hadd Hob] [Hb Hfr] Hf Hst Eb Hsub Hobj.
  injection Hf as Ela Ecs Emy Epl Emg Etl Ehp Ead Ecn Emx. injection Hst as Enx Ech Efc.
  assert (Eu : in_use p' = in_use p) by (unfold in_use; rewrite Emy; done).
  assert (Ef : unused p' = unused p) by (unfold unused; rewrite Emy; done).
  assert (Eg : forall c, Chunk.get p' c = Chunk.get p c) by (intros c; unfold Chunk.get; rewrite Ech; done).
  assert (Eli : live p' = live p) by (unfold live; rewrite Emg; done).
  assert (Hn : blocks p !! b <> Some (unused p)) by (rewrite Hb; done).
  split.
  - split; rewrite ?Ela, ?Ecs, ?Emy, ?Ehp, ?Ead, ?Emx, ?Eli, ?Etl, ?Efc, ?Eu, ?Ef, ?Epl; try done.
    + intros c. rewrite Eg, Enx. apply Hch.
    + split; [apply NoDup_cons; split; [|done]|].
      * intros Hx. apply Hn, Hfree. auto.
      * intros c x Hx. rewrite elem_of_cons. intros [->|Hxl]; [apply Hn, Hfree; eauto|apply (Hbl c x Hx Hxl)].
    + intros x. rewrite Eb, lookup_insert_Some, elem_of_cons, Hfree. split.
      * intros [[<- _]|[Hne [?|?]]]; auto.
      * intros [[c Hx]|[->|?]]; [right|auto|right]; (split; [intros <-; apply Hn, Hfree; eauto|eauto]).
    + intros x k. rewrite Eb, lookup_insert_Some. intros [[_ <-]|[_ Hx]]; [auto|eauto].
    + destruct Hheap as [Hh Hap]. unfold heap_ok, apart. rewrite Ehp, Ela, Ecs. split; [|exact Hap].
      intros j h Hj H0. destruct (Hh j h Hj H0) as [? Hnn]. split; [done|]. intros i Hi.
      specialize (Hnn i Hi). specialize (Hfr j h i Hj H0 Hi). unfold block_at in *.
      rewrite Ela, Eb, lookup_insert_ne by congruence. done.
    + intros x k. rewrite Eb, lookup_insert_Some. unfold data_of in *. rewrite Ela.
      intros [[<- <-]|[Hne Hx]] Hu; [|apply Hsub; eauto]. destruct Hu as [Hu|?]; [|auto].
      destruct (tls_in_use_unused p H2). done.
  - apply set_eq. intros x. rewrite !tls_elem_of_held, Eb, Eu, lookup_insert_Some. split.
    + intros [[_ ?]|[_ ?]]; [|done]. destruct (tls_in_use_unused p H2). done.
    + intros Hx. right. split; [|done]. intros <-. congruence.
Qed.

Lemma push_set_objects p o c b :
  Chunk.Push (set_objects p o) c b = ((Chunk.Push p c b).1, set_objects (Chunk.Push p c b).2 o).
Proof. unfold Chunk.Push, Chunk.isFull, Chunk.get. cbn. destruct (_ =? _); done. Qed.

Lemma put_block_ok p body full loose skip c b :
  ok p body full loose skip -> fresh_block p b -> c ∈ live p -> Z.of_nat (length (body c)) < ChunkSize p ->
  let p' := put_block p c b in
  ok p' (<[c := b :: body c]> body) full loose skip /\ frame p' = frame p /\ freeChunks p' = freeChunks p /\
  blocks p' = <[b := unused p]> (blocks p) /\ held p' = held p.
Proof.
  intros Hok Hb Hc Hlen. unfold put_block.
  set (p1 := set_blocks p (<[b := _]> (blocks p)) (bnext p) (chunks p)).
  set (o := if _isPlacementNew p then objects p else {[data_of p b]} ∪ objects p).
  destruct (add_block p (set_objects p1 o) body full loose skip b) as [Hok1 Hh1]; try done.
  { cbn. unfold o. destruct (_isPlacementNew p); [done|apply union_subseteq_r]. }
  { intros E. cbn. unfold o. rewrite E. apply elem_of_union_l, elem_of_singleton. done. }
  destruct (push_block (set_objects p1 o) body full loose skip c b) as (p2 & E2 & Hok2 & Hk2); [done|done|done|].
  rewrite push_set_objects in E2. destruct (Chunk.Push p1 c b) as [r q] eqn:Eq. cbn [fst snd] in E2. injection E2 as -> <-.
  destruct (kept_held _ _ Hk2) as (Hh2 & _ & _). destruct (kept_parts _ _ Hk2) as (Hf2 & Eb2 & Eo2 & Efc2). clear Hk2.
  assert (Eres : (if _isPlacementNew q then q else set_objects q ({[data_of q b]} ∪ objects q)) = set_objects q o).
  { unfold Chunk.Push in Eq. destruct (Chunk.isFull p1 c); [done|]. injection Eq as <-. cbn. unfold o.
    destruct (_isPlacementNew p); done. }
  cbn zeta. rewrite Eres. split_and!; [exact Hok2| |exact Efc2|exact Eb2|rewrite Hh2; exact Hh1].
  transitivity (frame (set_objects p1 o)); [exact Hf2|done].
Qed.

(** The [n] blocks from index [lo] on of an array are fresh. *)
Definition fresh_from (p : t) (base lo : Z) (n : nat) : Prop :=
  forall i, lo <= i < lo + Z.of_nat n -> fresh_block p (block_at p base i).

Lemma fresh_insert p p' b x :
  frame p' = frame p -> blocks p' = <[x := unused p]> (blocks p) -> fresh_block p b -> b <> x -> fresh_block p' b.
Proof.
  intros [= Ela Ecs _ _ _ _ Ehp _ _ _] Eb [Hn Hf] Hx. split; [rewrite Eb, lookup_insert_ne by congruence; done|].
  unfold block_at. rewrite Ela, Ecs, Ehp. exact Hf.
Qed.

Lemma put_blocks_ok n p body full loose skip c base lo :
  ok p body full loose skip -> c ∈ live p -> Z.of_nat (length (body c)) + Z.of_nat n <= ChunkSize p ->
  fresh_from p base lo n ->
  let p' := put_blocks p c base lo (Z.of_nat n) in
  exists body', ok p' body' full loose skip /\ frame p' = frame p /\ freeChunks p' = freeChunks p /\
    length (body' c) = (length (body c) + n)%nat /\ held p' = held p /\
    (forall b, (forall i, lo <= i < lo + Z.of_nat n -> b <> block_at p base i) -> blocks p' !! b = blocks p !! b).
Proof.
  intros Hok Hc. induction n as [|n IH]; intros Hlen Hfr; unfold put_blocks in *.
  - change (seqZ lo (Z.of_nat 0)) with (@nil Z). exists body. split_and!; [done..|lia|done|done].
  - destruct IH as (body1 & Hok1 & Hf1 & Efc1 & Hl1 & Hh1 & Hb1); [lia|intros i Hi; apply Hfr; lia|].
    rewrite seqZ_S, fold_left_app. cbn [fold_left].
    set (q := fold_left _ (seqZ lo (Z.of_nat n)) p) in *. clearbody q.
    pose proof Hf1 as [= Ela Ecs Emy Epl Emg Etl Ehp Ead Ecn Emx]. rewrite Ela.
    set (b := base + MemoryPool.sizeofBLOCK (lay p) * (lo + Z.of_nat n)).
    assert (Hne : forall i, lo <= i < lo + Z.of_nat n -> b <> block_at p base i).
    { intros i Hi. unfold b, block_at. pose proof (ok_lay _ _ _ _ _ Hok). nia. }
    destruct (put_block_ok q body1 full loose skip c b) as (Hok2 & Hf2 & Efc2 & Eb2 & Hh2).
    + done.
    + destruct (Hfr (lo + Z.of_nat n) ltac:(lia)) as [Hn Hx]. split.
      * rewrite Hb1; [exact Hn|exact Hne].
      * unfold block_at in *. rewrite Ela, Ecs, Ehp. exact Hx.
    + unfold live. rewrite Emg. exact Hc.
    + rewrite Hl1, Ecs. lia.
    + exists (<[c := b :: body1 c]> body1). split_and!; [exact Hok2|congruence|congruence| |congruence|].
      * rewrite fn_lookup_insert. cbn [length]. lia.
      * intros x Hx. rewrite Eb2, lookup_insert_ne.
        -- apply Hb1. intros i Hi. apply Hx. lia.
        -- intros <-. apply (Hx (lo + Z.of_nat n)); [lia|done].
Qed.

(** ** A new array *)
Definition static (p : t) := (lay p, ChunkSize p, _myCode p, _isPlacementNew p).

Lemma add_array p body full loose skip a tries base hp :
  ok p body full loose skip -> _addBlockArrAllocator p = Some a -> heap p = base :: hp -> base <> 0 ->
  let p' := set_adder p (Some (BlockArrayAllocator.Push a base)) tries hp in
  ok p' body full loose skip /\ fresh_from p' base 0 (Z.to_nat (ChunkSize p)).
Proof.
  intros [] Ea Eh Hb. rewrite Ea in ok_adder0. destruct ok_adder0 as (ns & Hst & Hnd & Hns).
  destruct ok_heap0 as [Hh Hap]. rewrite Eh in Hh, Hap, Hns. destruct (Hh O base eq_refl Hb) as [Hbr Hbn].
  assert (Hpos : 0 < MemoryPool.sizeofBLOCK (lay p) * ChunkSize p) by nia.
  split.
  - split; pool_fields; try assumption.
    + split; cbn [heap blocks lay ChunkSize set_adder].
      * intros k h Hk H0. apply (Hh (S k) h Hk H0).
      * intros k k' h h' Hk Hk' H0 H0' Hne. apply (Hap (S k) (S k') h h' Hk Hk' H0 H0'); congruence.
    + exists (base :: ns). assert (Hbns : base ∉ ns) by (intros Hx; apply (Hns base O base Hx eq_refl Hb); done).
      split_and!; [apply TaggedStack.push_alone_stack; done|apply NoDup_cons; done|].
      intros m k h [->|Hm]%elem_of_cons Hk H0; [|apply (Hns m (S k) h Hm Hk H0)].
      intros ->. destruct (Hap O (S k) h h eq_refl Hk H0 H0 ltac:(done)); lia.
  - intros i Hi. rewrite Z2Nat.id in Hi by lia. split; cbn [heap blocks lay ChunkSize set_adder].
    + apply Hbn. lia.
    + intros k h j Hk H0 Hj. unfold block_at. cbn [lay set_adder].
      destruct (Hap O (S k) base h eq_refl Hk Hb H0 ltac:(done)); nia.
Qed.

End with_memory.
