(* ===== verification/MemoryPoolTLSProps.v ===== *)
(** * What the thread-local memory pool guarantees

    [Alloc], [Free] and the constructor keep the invariant of [MemoryPoolTLSInv], and
    with it any calls of any threads refine a set of objects. *)
From S2P Require Import Prelude.
From S2P Require Import TaggedStack.
From S2P Require Import MemoryPool.
From S2P Require Import MemoryPoolTLS.
From S2P Require Import MemoryPoolTLSInv.
From stdpp Require Import prelude functions gmap list list_numbers.
From Stdlib Require Import ZArith Lia.
Open Scope Z_scope.
Import MemoryPoolTLS.
#[local] Existing Instance MemoryPool.BLOCK_eq_dec.

Section with_memory.
Context {mem : MemoryPool.Memory}.

(** ** Operations *)

(** The array allocator and its count. *)
Definition limits (p : t) := (_addBlockArrAllocator p, _addAllocCnt p, _addAllocMax p).

(** What an allocation does to the free chunks and to other threads. *)
Definition took (p p' : t) (tid : Z) (full full' : list Z) : Prop :=
  (forall t', t' <> tid -> tls p' !! t' = tls p !! t') /\
  (tls p !! tid = None -> full <> [] -> full' = tail full /\ limits p' = limits p).

(** [ChunkAlloc] gives a full chunk that nobody has. *)
Definition got_chunk (p p' : t) (c : Z) (body' : Z -> list Z) (full' loose : list Z) (skip : option Z) (n : nat) : Prop :=
  ok p' body' full' loose skip /\ serves p' full' n /\ held p' = held p /\ tls p' = tls p /\ static p' = static p /\
  c ∈ live p' /\ (c ∉ full') /\ unowned p' skip c /\ Z.of_nat (length (body' c)) = ChunkSize p'.

Lemma ChunkAlloc_add p body loose skip n :
  ok p body [] loose skip -> serves p [] (S n) ->
  exists c p' body', ChunkAlloc p = Ok (Some c, p') /\ got_chunk p p' c body' [] loose skip n.
Proof.
  intros Hok Hs. unfold ChunkAlloc. rewrite (Pop_none _ _ _ _ _ Hok eq_refl). pose proof Hs as [[Hz Hn] Hm (tries & Ht0 & Ht & Hmax & Ec)].
  cbn [length] in Hn, Ht.
  assert (Eu : u64 (_addAllocCnt p + 1) = tries).
  { rewrite Ec, u_add_l. replace (tries - 1 + 1) with tries by lia. apply u_small. lia. }
  cbv zeta. rewrite Eu. cbn [_addAllocMax set_adder _addBlockArrAllocator heap].
  replace (tries =? _addAllocMax p) with false by lia. replace (_addAllocMax p <? tries) with false by lia.
  pose proof (ok_adder _ _ _ _ _ Hok) as Had. destruct (_addBlockArrAllocator p) as [a|] eqn:Ea; [|lia].
  destruct (heap p) as [|base hp] eqn:Eh; [cbn in Hn; lia|].
  assert (Hb : base <> 0) by (intros ->; apply Hz; left).
  unfold BlockArrayAllocator.Alloc. rewrite (proj2 (Z.eqb_neq _ _) Hb).
  change (set_adder (set_adder p (Some a) tries (base :: hp)) (Some (BlockArrayAllocator.Push a base))
            (_addAllocCnt (set_adder p (Some a) tries (base :: hp))) hp)
    with (set_adder p (Some (BlockArrayAllocator.Push a base)) tries hp).
  destruct (add_array p body [] loose skip a tries base hp Hok Ea Eh Hb) as [Hok1 Hfr1].
  set (p1 := set_adder p _ tries hp) in *.
  destruct (new_chunk_ok p1 body [] loose skip Hok1 n Hm) as (c & m' & Enew & Hok2 & Hm' & Hc & Hl2).
  rewrite Enew, bind_Ok.
  assert (Hbc : body c = []) by (apply (ok_dead _ _ _ _ _ Hok1), Hc).
  destruct (put_blocks_ok (Z.to_nat (ChunkSize p)) (set_manager p1 m') body [] loose skip c base 0 Hok2) as
    (body' & Hok3 & Hf3 & Efc3 & Hlen3 & Hh3 & _).
  { rewrite Hl2. apply elem_of_union_l, elem_of_singleton. done. }
  { rewrite Hbc, Z2Nat.id by (pose proof (ok_size _ _ _ _ _ Hok); lia). cbn. lia. }
  { exact Hfr1. }
  rewrite Z2Nat.id in * by (pose proof (ok_size _ _ _ _ _ Hok); lia).
  change (ChunkSize (set_manager p1 m')) with (ChunkSize p).
  set (p3 := put_blocks (set_manager p1 m') c base 0 (ChunkSize p)) in *. clearbody p3.
  exists c, (set_counts p3 (u64 (_totalChunk p3 + 1)) (u64 (_useChunk p3 + 1))), body'.
  pose proof Hf3 as [= Ela Ecs Emy Epl Emg Etl Ehp Ead Ecn Emx].
  split; [done|]. split_and!; try done.
  - apply ok_counts. exact Hok3.
  - apply (frame_serves (set_manager p1 m')); [exact Hf3|]. split; cbn.
    * split; [|cbn in Hn; lia]. intros Hx. apply Hz. right. done.
    * done.
    * exists (tries + 1). split_and!; try done || lia. rewrite Z.add_simpl_r, u_small by lia. done.
  - unfold static. cbn [lay ChunkSize _myCode _isPlacementNew set_counts]. rewrite Ela, Ecs, Emy, Epl. done.
  - unfold live. cbn [_emptyChunkManager set_counts]. rewrite Emg.
    change (c ∈ live (set_manager p1 m')). rewrite Hl2.
    apply elem_of_union_l, elem_of_singleton. done.
  - intros Hx. by apply not_elem_of_nil in Hx.
  - intros tid Htid. cbn [tls set_counts]. rewrite Etl. apply (dead_unowned p1 body [] loose skip Hok1 c Hc tid Htid).
  - cbn [ChunkSize set_counts]. rewrite Ecs, Hlen3, Hbc. cbn. pose proof (ok_size _ _ _ _ _ Hok). lia.
Qed.

Lemma ChunkAlloc_reuse p body c full loose skip n :
  ok p body (c :: full) loose skip -> serves p (c :: full) (S n) ->
  exists p', ChunkAlloc p = Ok (Some c, p') /\ got_chunk p p' c body full loose skip n /\ limits p' = limits p.
Proof.
  intros Hok Hs. unfold ChunkAlloc. destruct (Pop_ok p body (c :: full) loose skip Hok c full eq_refl) as (m & E & Hok' & Hc & Hcf & Hlen).
  rewrite E. eexists. split; [reflexivity|]. split; [|done]. split_and!; try done.
  - apply ok_counts. exact Hok'.
  - apply (frame_serves p); [done|]. destruct Hs as [[Hz Hn] Hm (tries & ? & ? & ? & ?)]. cbn in *.
    split; [split; [done|lia]|apply manager_weaken, Hm|exists tries; split_and!; done || lia].
  - intros tid Htid. apply (full_unowned p body (c :: full) loose skip Hok c); [left|done].
Qed.

Lemma ChunkAlloc_ok p body full loose skip n :
  ok p body full loose skip -> serves p full (S n) ->
  exists c p' body' full', ChunkAlloc p = Ok (Some c, p') /\ got_chunk p p' c body' full' loose skip n /\
    (full <> [] -> full' = tail full /\ limits p' = limits p).
Proof.
  intros Hok Hs. destruct full as [|c full].
  - destruct (ChunkAlloc_add p body loose skip n Hok Hs) as (c & p' & body' & ? & ?). exists c, p', body', []. done.
  - destruct (ChunkAlloc_reuse p body c full loose skip n Hok Hs) as (p' & ? & ? & ?). exists c, p', body, full. done.
Qed.

Lemma static_frame p p' : frame p' = frame p -> static p' = static p.
Proof. intros [= E1 E2 E3 E4 _ _ _ _ _ _]. unfold static. congruence. Qed.

(** A block from a chunk that [ChunkAlloc] gave, which becomes the thread's. *)
Lemma pop_got p q c body full tid n :
  got_chunk p q c body full [] (Some tid) n ->
  exists b q' body', let p' := TlsSetValue q' tid (Some c) in
    Chunk.Pop q c = (Some b, q') /\ Chunk.Pop (TlsSetValue q tid (Some c)) c = (Some b, p') /\
    ok p' body' full [b] None /\ serves p' full n /\ held p' = held p /\ static p' = static p /\
    (forall t', t' <> tid -> tls p' !! t' = tls p !! t') /\ limits p' = limits q.
Proof.
  intros (Hok & Hs & Hh & Htl & Hst & Hc & Hcf & Hu & Hlen).
  destruct (body c) as [|b l] eqn:Eb; [cbn in Hlen; pose proof (ok_size _ _ _ _ _ Hok); lia|].
  destruct (pop_block q body full [] (Some tid) c b l Hok Hcf Eb) as (q' & E & Hok' & Hk).
  destruct (kept_held _ _ Hk) as (Hh' & _ & Hl). destruct (kept_parts _ _ Hk) as (Hf & _).
  exists b, q', (<[c := l]> body). pose proof Hf as [= _ _ _ _ _ Etl _ Ea Ec Em].
  cbn zeta. split_and!; [done| | | | | |intros t' Ht'; cbn; rewrite lookup_partial_alter_ne by done; congruence|unfold limits; cbn; congruence].
  - unfold Chunk.Pop in *. change (Chunk.isEmpty (TlsSetValue q tid (Some c)) c) with (Chunk.isEmpty q c).
    destruct (Chunk.isEmpty q c); [done|]. injection E as <- <-. done.
  - apply tls_ok; [done|congruence|done|]. intros t' Ht'. rewrite Etl. apply Hu. done.
  - pose proof (frame_serves _ _ _ _ Hf Hs) as []. split; done.
  - rewrite <- Hh, <- Hh'. done.
  - rewrite <- Hst, <- (static_frame _ _ Hf). done.
Qed.

Lemma own_chunk p body full loose tid c :
  ok p body full loose None -> tls p !! tid = Some c -> c ∈ live p /\ (c ∉ full) /\ unowned p (Some tid) c.
Proof.
  intros Hok Et. destruct (ok_tls _ _ _ _ _ Hok tid c ltac:(done) Et). split_and!; [done..|].
  intros t' Ht' E. apply Ht'. f_equal. apply (ok_tls_inj _ _ _ _ _ Hok t' tid c); done.
Qed.

(** [Alloc] finds a free block. *)
Lemma take_block_ok p body full tid n :
  ok p body full [] None -> serves p full (S n) ->
  exists b p' body' full', take_block p tid = Ok (b, p') /\ ok p' body' full' [b] None /\ serves p' full' n /\
    held p' = held p /\ static p' = static p /\ took p p' tid full full'.
Proof.
  intros Hok Hs. unfold take_block. pose proof (ok_skip _ _ _ _ tid Hok) as Hok0.
  destruct (tls p !! tid) as [c|] eqn:Et.
  - rewrite bind_Ok. destruct (own_chunk _ _ _ _ _ _ Hok Et) as (Hc & Hcf & Hu).
    destruct (body c) as [|b l] eqn:Eb.
    + rewrite (pop_empty _ _ _ _ _ c Hok Eb). pose proof Hs as [Hs1 Hm Hs2].
      destruct (free_chunk_ok p body full [] (Some tid) Hok0 (S n) c Hm Hc Hcf Eb Hu) as (m' & E & Hok1 & Hm' & _).
      rewrite E, bind_Ok. destruct (ChunkAlloc_ok (set_manager p m') body full [] (Some tid) n Hok1) as
        (c' & q & body1 & full1 & E1 & Hg & _); [split; done|].
      rewrite E1, bind_Ok. destruct (pop_got _ q c' body1 full1 tid n Hg) as (b & q' & body2 & Eq & _ & H1 & H2 & H3 & H4 & H5 & _).
      rewrite Eq. eexists b, _, body2, full1. split; [reflexivity|]. split_and!; try done. split; [exact H5|congruence].
    + destruct (pop_block p body full [] None c b l Hok Hcf Eb) as (q' & E & Hok' & Hk). rewrite E.
      destruct (kept_held _ _ Hk) as (Hh' & _ & _). destruct (kept_parts _ _ Hk) as (Hf & _).
      exists b, q', (<[c := l]> body), full. split_and!; [done|done| |done|apply static_frame, Hf|].
      * apply (frame_serves _ _ _ _ Hf), (serves_weaken p full); done.
      * injection Hf as _ _ _ _ _ Etl _ _ _ _. split; [intros t' _; rewrite Etl; done|congruence].
  - destruct (ChunkAlloc_ok p body full [] (Some tid) n Hok0 Hs) as (c & q & body1 & full1 & E1 & Hg & Hfu).
    rewrite E1, !bind_Ok. destruct (pop_got _ q c body1 full1 tid n Hg) as (b & q' & body2 & _ & Eq & H1 & H2 & H3 & H4 & H5 & H6).
    rewrite Eq. eexists b, _, body2, full1. split; [reflexivity|]. split_and!; try done. split; [exact H5|].
    intros _ Hne. destruct (Hfu Hne). split; congruence.
Qed.

Lemma outstanding_static p p' :
  static p' = static p -> (forall b, held p' = {[b]} ∪ held p -> outstanding p' = {[data_of p b]} ∪ outstanding p) /\
  (forall b, held p' = held p ∖ {[b]} -> outstanding p' = outstanding p ∖ {[data_of p b]}).
Proof.
  intros [= El _ _ _]. split; intros b Eh; apply set_eq; intros x.
  - rewrite elem_of_union, elem_of_singleton, !tls_elem_of_outstanding, Eh, elem_of_union, elem_of_singleton.
    unfold block_of, data_of. rewrite El. intuition lia.
  - rewrite elem_of_difference, elem_of_singleton, !tls_elem_of_outstanding, Eh, elem_of_difference, elem_of_singleton.
    unfold block_of, data_of. rewrite El. intuition lia.
Qed.

(** A block goes into an empty chunk, which becomes the thread's. *)
Lemma push_got q c body full tid b :
  ok q body full [b] (Some tid) -> c ∈ live q -> c ∉ full -> unowned q (Some tid) c -> body c = [] ->
  exists q' body', let p' := TlsSetValue q' tid (Some c) in
    Chunk.Push q c b = (true, q') /\ Chunk.Push (TlsSetValue q tid (Some c)) c b = (true, p') /\
    ok p' body' full [] None /\ held p' = held q /\ static p' = static q /\
    (forall n, serves q full n -> serves p' full n).
Proof.
  intros Hok Hc Hcf Hu Eb. destruct (push_block q body full [] (Some tid) c b Hok Hc) as (q' & E & Hok' & Hk).
  { rewrite Eb. cbn. pose proof (ok_size _ _ _ _ _ Hok). lia. }
  destruct (kept_held _ _ Hk) as (Hh' & _ & Hl). destruct (kept_parts _ _ Hk) as (Hf & _).
  exists q', (<[c := b :: body c]> body). cbn zeta. split_and!; [done| | | | |].
  - unfold Chunk.Push in *. change (Chunk.isFull (TlsSetValue q tid (Some c)) c) with (Chunk.isFull q c).
    destruct (Chunk.isFull q c); [done|]. injection E as <-. done.
  - apply tls_ok; [done|congruence|done|]. injection Hf as _ _ _ _ _ Etl _ _ _ _. intros t' Ht'. rewrite Etl. apply Hu. done.
  - rewrite <- Hh'. done.
  - rewrite <- (static_frame _ _ Hf). done.
  - intros n Hs. pose proof (frame_serves _ _ _ _ Hf Hs) as []. split; done.
Qed.

(** A block goes back to a chunk. *)
Lemma give_block_ok p body full tid b n :
  ok p body full [b] None -> serves p full (S n) ->
  exists p' body' full', give_block p tid b = Ok p' /\ ok p' body' full' [] None /\ serves p' full' n /\
    held p' = held p /\ static p' = static p.
Proof.
  intros Hok Hs. unfold give_block. pose proof (ok_skip _ _ _ _ tid Hok) as Hok0. pose proof Hs as [Hs1 Hm Hs2].
  assert (Hnew : forall q full1, ok q body full1 [b] (Some tid) -> frame q = frame p ->
    (length full <= length full1)%nat ->
    exists c m' q' body', new_chunk q = Ok (Some c, set_manager q m') /\
      let p' := TlsSetValue q' tid (Some c) in
      Chunk.Push (set_manager q m') c b = (true, q') /\
      Chunk.Push (TlsSetValue (set_manager q m') tid (Some c)) c b = (true, p') /\
      ok p' body' full1 [] None /\ held p' = held (set_manager q m') /\ static p' = static p /\ serves p' full1 n).
  { intros q full1 Hq Hf Hll. pose proof (frame_serves _ _ _ _ Hf Hs) as [_ Hqm _].
    destruct (new_chunk_ok q body full1 [b] (Some tid) Hq n Hqm) as (c & m' & E & Hq' & Hm' & Hc & Hl).
    assert (Hc' : c ∈ live (set_manager q m')) by (rewrite Hl; apply elem_of_union_l, elem_of_singleton; done).
    destruct (push_got (set_manager q m') c body full1 tid b Hq' Hc') as (q' & body' & E1 & E2 & Hok2 & Hh2 & Hst2 & Hs2').
    - intros Hx. destruct (ok_full _ _ _ _ _ Hq) as (_ & _ & Hfl). destruct (Hfl c Hx). done.
    - exact (dead_unowned q body full1 [b] (Some tid) Hq c Hc).
    - apply (ok_dead _ _ _ _ _ Hq), Hc.
    - exists c, m', q', body'. split; [done|]. split_and!; try done.
      + rewrite Hst2, <- (static_frame _ _ Hf). done.
      + apply Hs2'. pose proof (serves_weaken q full full1 n Hll (frame_serves _ _ _ _ Hf Hs)) as [W1 _ W2].
        split; [exact W1|exact Hm'|exact W2]. }
  destruct (tls p !! tid) as [c|] eqn:Et.
  - rewrite bind_Ok. destruct (own_chunk _ _ _ _ _ _ Hok Et) as (Hc & Hcf & Hu).
    destruct (ok_chunk _ _ _ _ _ Hok c) as (_ & _ & Hle & _).
    destruct (decide (Z.of_nat (length (body c)) = ChunkSize p)) as [Efull|Hne].
    + rewrite (push_full _ _ _ _ _ c b Hok Efull).
      pose proof (Push_ok p body full [b] (Some tid) Hok0 c Hc Hcf Efull Hu) as Hok1.
      destruct (Hnew (ChunkFree p c) (c :: full)) as (c' & m' & q' & body' & E & Eq & _ & Hok2 & Hh2 & Hst2 & Hs2');
        [apply ok_counts; exact Hok1|done|cbn; lia|].
      rewrite E, bind_Ok, Eq. eexists _, body', (c :: full). split; [reflexivity|]. split_and!; try done.
    + destruct (push_block p body full [] None c b Hok Hc ltac:(lia)) as (q' & E & Hq' & Hk). rewrite E.
      destruct (kept_held _ _ Hk) as (Hh' & _ & _). destruct (kept_parts _ _ Hk) as (Hf & _).
      exists q', (<[c := b :: body c]> body), full. split_and!; [done|done| |done|apply static_frame, Hf].
      apply (frame_serves _ _ _ _ Hf), (serves_weaken p full); done.
  - destruct (Hnew p full Hok0 eq_refl ltac:(done)) as (c' & m' & q' & body' & E & _ & Eq & Hok2 & Hh2 & Hst2 & Hs2').
    rewrite E, !bind_Ok, Eq. eexists _, body', full. split; [reflexivity|]. split_and!; done.
Qed.

(** ** [Alloc] and [Free] *)
Lemma held_not_in_body p body full loose skip b :
  ok p body full loose skip -> b ∈ held p -> (b ∉ loose) /\ forall c, b ∉ body c.
Proof.
  intros Hok Hb%tls_elem_of_held. pose proof (tls_in_use_unused p (ok_code _ _ _ _ _ Hok)) as Hne.
  pose proof (proj2 (ok_free _ _ _ _ _ Hok b)) as Hf. split; [intros Hx|intros c Hx]; apply Hne;
    (rewrite Hf in Hb; [congruence|eauto]).
Qed.

Lemma codes_lookup p b k : blocks p !! b = Some k -> codes p b = Ok k.
Proof. unfold codes. intros ->. done. Qed.

Lemma Alloc_ok p body full tid n :
  ok p body full [] None -> serves p full (S n) ->
  exists x p' body' full', Alloc p tid = Ok (x, p') /\ ok p' body' full' [] None /\ serves p' full' n /\
    (x ∉ outstanding p) /\ outstanding p' = {[x]} ∪ outstanding p /\ static p' = static p /\ took p p' tid full full'.
Proof.
  intros Hok Hs. destruct (take_block_ok p body full tid n Hok Hs) as (b & q & body1 & full1 & E & Hq & Hsq & Hhq & Hstq & Htk).
  pose proof (ok_code _ _ _ _ _ Hq) as Hcode. pose proof (tls_in_use_unused q Hcode) as Hne.
  assert (Hb : blocks q !! b = Some (unused q)) by (apply (ok_free _ _ _ _ _ Hq); right; left).
  assert (Hbq : b ∉ held q) by (rewrite tls_elem_of_held, Hb; congruence).
  unfold Alloc. rewrite E, bind_Ok. rewrite (codes_lookup _ _ _ Hb), bind_Ok.
  cbv zeta. cbn [MemoryPool._preCode MemoryPool._postCode unused]. rewrite MemoryPool.code_not_not by lia. fold (in_use q).
  set (q1 := set_blocks q (<[b := in_use q]> (blocks q)) (bnext q) (chunks q)).
  set (q2 := if _isPlacementNew q1 then _ else _).
  assert (Hq2 : frame q2 = frame q /\ (bnext q2, chunks q2, freeChunks q2) = (bnext q, chunks q, freeChunks q) /\
    blocks q2 = <[b := in_use q]> (blocks q) /\ objects q ⊆ objects q2 /\
    (_isPlacementNew q = true -> data_of q b ∈ objects q2)).
  { unfold q2, q1. cbn. destruct (_isPlacementNew q) eqn:Ep; cbn; (split_and!; try done).
    - apply union_subseteq_r.
    - intros _. apply elem_of_union_l, elem_of_singleton. done. }
  clearbody q2. destruct Hq2 as (Hf & Hst2 & Eb2 & Hsub & Hpl).
  destruct (held_flip q q2 b (in_use q) Hf Hcode Eb2) as [Hh2 _]. specialize (Hh2 eq_refl).
  pose proof (static_frame _ _ Hf) as Hs2. rewrite Hhq in Hh2, Hbq.
  destruct (outstanding_static p q2) as [Ho _]; [congruence|].
  assert (Ed : data_of q1 b = data_of p b) by (injection Hstq as El _ _ _; unfold data_of; cbn; rewrite El; done).
  exists (data_of q1 b), q2, body1, full1. rewrite Ed. split_and!; [done| | | |apply Ho; done|congruence|].
  - apply (flip_ok q q2 body1 full1 [b] [] None b (in_use q) Hq Hf Hst2); [eauto|exact Eb2|auto| |constructor| | |].
    + intros c Hx. destruct (ok_loose _ _ _ _ _ Hq) as [_ Hl]. apply (Hl c b Hx). left.
    + intros x. rewrite elem_of_cons. split; [intros Hx; by apply not_elem_of_nil in Hx|].
      intros [[_ ?]|[? [?|Hx]]]; [congruence|done|by apply not_elem_of_nil in Hx].
    + intros x _ Hx. apply Hsub, Hx.
    + intros _. destruct (_isPlacementNew q) eqn:Ep; [auto|]. apply Hsub. eapply ok_objects; eauto.
  - apply (frame_serves q); done.
  - rewrite tls_elem_of_outstanding. unfold block_of, data_of. rewrite Z.add_simpl_r. done.
  - injection Hf as _ _ _ _ _ Etl _ Ea Ec Em. destruct Htk as [Ht1 Ht2]. unfold took, limits in *.
    rewrite Etl, Ea, Ec, Em. done.
Qed.

Lemma Free_ok p body full tid n x :
  ok p body full [] None -> serves p full (S n) -> x ∈ outstanding p ->
  exists p' body' full', Free p tid x = Ok (true, p') /\ ok p' body' full' [] None /\ serves p' full' n /\
    outstanding p' = outstanding p ∖ {[x]} /\ static p' = static p.
Proof.
  intros Hok Hs Hx%tls_elem_of_outstanding. pose proof (proj1 (tls_elem_of_held _ _) Hx) as Hb.
  pose proof (ok_code _ _ _ _ _ Hok) as Hcode. pose proof (tls_in_use_unused p Hcode) as Hne.
  destruct (held_not_in_body _ _ _ _ _ _ Hok Hx) as [_ Hbody].
  unfold Free. rewrite (codes_lookup _ _ _ Hb), bind_Ok. cbv zeta. cbn [MemoryPool._preCode MemoryPool._postCode in_use].
  rewrite !Z.eqb_refl. cbn [negb]. fold (unused p). set (b := block_of p x) in *.
  set (q1 := set_blocks p (<[b := unused p]> (blocks p)) (bnext p) (chunks p)).
  set (q2 := if _isPlacementNew q1 then _ else _).
  assert (Hq2 : frame q2 = frame p /\ (bnext q2, chunks q2, freeChunks q2) = (bnext p, chunks p, freeChunks p) /\
    blocks q2 = <[b := unused p]> (blocks p) /\
    objects q2 = if _isPlacementNew p then objects p ∖ {[x]} else objects p).
  { unfold q2, q1, frame. cbn. destruct (_isPlacementNew p) eqn:Ep; cbn; rewrite ?Ep; done. }
  clearbody q2. destruct Hq2 as (Hf & Hst2 & Eb2 & Eo2). pose proof (static_frame _ _ Hf) as Hs2.
  destruct (held_flip p q2 b (unused p) Hf Hcode Eb2) as [_ Hh2]. specialize (Hh2 eq_refl).
  assert (Ed : data_of p b = x) by (unfold b, data_of, block_of; lia).
  assert (Hok2 : ok q2 body full [b] None).
  { apply (flip_ok p q2 body full [] [b] None b (unused p) Hok Hf Hst2); [eauto|exact Eb2|auto|exact Hbody|apply NoDup_singleton| | |].
    - intros y. rewrite elem_of_cons. split.
      + intros [->|Hy]; [auto|by apply not_elem_of_nil in Hy].
      + intros [[-> _]|[_ Hy]]; [auto|by apply not_elem_of_nil in Hy].
    - intros y Hy Hyo. rewrite Eo2. destruct (_isPlacementNew p); [|done].
      apply elem_of_difference. split; [done|]. rewrite elem_of_singleton, <- Ed. unfold data_of. lia.
    - intros [?|Ep]; [congruence|]. rewrite Eo2, Ep. eapply ok_objects; eauto. }
  destruct (give_block_ok q2 body full tid b n Hok2 (frame_serves _ _ _ _ Hf Hs)) as (p' & body' & full' & E & Hok' & Hs' & Hh' & Hst').
  rewrite E, bind_Ok. exists p', body', full'. split_and!; [done|done|done| |congruence].
  rewrite <- Ed. apply outstanding_static; congruence.
Qed.

(** [Free] of another block of the pool is refused, and of an address that is no block of
    it when the memory there does not carry the code of the pool twice. *)
Definition may_free (p : t) (x : Z) : bool :=
  match blocks p !! block_of p x with
  | Some _ => true
  | None => match MemoryPool.outside (block_of p x) with Some k => negb (bool_decide (k = in_use p)) | None => false end
  end.

Lemma tls_Free_refused p body full tid x :
  ok p body full [] None -> x ∉ outstanding p -> may_free p x = true -> Free p tid x = Ok (false, p).
Proof.
  intros Hok. rewrite tls_elem_of_outstanding, tls_elem_of_held. unfold may_free, Free, codes. intros Hx Hm.
  pose proof (ok_code _ _ _ _ _ Hok) as Hcode. destruct (blocks p !! block_of p x) as [k|] eqn:E.
  - rewrite bind_Ok. destruct (ok_codes _ _ _ _ _ Hok _ _ E) as [->| ->]; [congruence|]. cbn.
    pose proof (MemoryPool.code_not_ne (_myCode p) ltac:(lia)).
    destruct (Z.eqb_spec (_myCode p) (MemoryPool.code_not (_myCode p))); [congruence|done].
  - destruct (MemoryPool.outside _) as [[a b]|]; [|done]. rewrite bind_Ok. cbn.
    apply negb_true_iff, bool_decide_eq_false in Hm. unfold in_use in Hm.
    destruct (Z.eqb_spec a b) as [->|]; [|done]. destruct (Z.eqb_spec b (_myCode p)) as [->|]; done.
Qed.

(** ** Sequences of calls *)
Inductive call := CallAlloc (tid : Z) | CallFree (tid x : Z).
Inductive reply := Got (x : Z) | Freed (b : bool).

Definition call_step (p : t) (c : call) : outcome (reply * t) :=
  match c with
  | CallAlloc tid => '(x, p) ← Alloc p tid; Ok (Got x, p)
  | CallFree tid x => '(b, p) ← Free p tid x; Ok (Freed b, p)
  end.

Fixpoint calls (p : t) (cs : list call) : outcome (list reply * t) :=
  match cs with
  | [] => Ok ([], p)
  | c :: cs => '(r, p) ← call_step p c; '(rs, p) ← calls p cs; Ok (r :: rs, p)
  end.

(** The addresses given to [Free] are, at that time, blocks of the pool or readable memory
    that does not carry its code. *)
Fixpoint frees_ok (p : t) (cs : list call) : bool :=
  match cs with
  | [] => true
  | c :: cs =>
      match c with CallAlloc _ => true | CallFree _ x => may_free p x end &&
      match call_step p c with Ok (_, p) => frees_ok p cs | Fault _ => true end
  end.

(** What a pool may answer when [out] are out, whichever thread asks. *)
Definition spec_step (out : gset Z) (c : call) (r : reply) : option (gset Z) :=
  match c, r with
  | CallAlloc _, Got x => if decide (x ∈ out) then None else Some ({[x]} ∪ out)
  | CallFree _ x, Freed b => if decide (b = bool_decide (x ∈ out)) then Some (out ∖ {[x]}) else None
  | _, _ => None
  end.

Fixpoint spec_calls (out : gset Z) (cs : list call) (rs : list reply) : option (gset Z) :=
  match cs, rs with
  | [], [] => Some out
  | c :: cs, r :: rs => out ← spec_step out c r; spec_calls out cs rs
  | _, _ => None
  end.

Lemma tls_calls_spec cs : forall p body full,
  ok p body full [] None -> serves p full (length cs) -> frees_ok p cs = true ->
  exists rs p' body' full', calls p cs = Ok (rs, p') /\ ok p' body' full' [] None /\
    spec_calls (outstanding p) cs rs = Some (outstanding p').
Proof.
  induction cs as [|c cs IH]; intros p body full Hok Hs Hfr; [exists [], p, body, full; done|].
  cbn [frees_ok] in Hfr. apply andb_true_iff in Hfr as [Hfc Hfr].
  assert (Hc : exists r p1 body1 full1, call_step p c = Ok (r, p1) /\ ok p1 body1 full1 [] None /\
    serves p1 full1 (length cs) /\ spec_step (outstanding p) c r = Some (outstanding p1)).
  { destruct c as [tid|tid x]; cbn [call_step spec_step].
    - destruct (Alloc_ok p body full tid _ Hok Hs) as (x & p1 & body1 & full1 & E & Hok1 & Hs1 & Hx & Ho & _ & _).
      rewrite E, bind_Ok. exists (Got x), p1, body1, full1. rewrite decide_False, Ho by done. done.
    - destruct (decide (x ∈ outstanding p)) as [Hx|Hx].
      + destruct (Free_ok p body full tid _ x Hok Hs Hx) as (p1 & body1 & full1 & E & Hok1 & Hs1 & Ho & _).
        rewrite E, bind_Ok. exists (Freed true), p1, body1, full1. rewrite bool_decide_true, decide_True, Ho by done. done.
      + rewrite (tls_Free_refused p body full tid x Hok Hx Hfc), bind_Ok. exists (Freed false), p, body, full.
        rewrite bool_decide_false, decide_True by done. split_and!; [done|done|apply (serves_weaken p full); done|].
        f_equal. apply difference_disjoint_L, disjoint_singleton_r. done. }
  destruct Hc as (r & p1 & body1 & full1 & E1 & Hok1 & Hs1 & Es1).
  rewrite E1 in Hfr. destruct (IH p1 body1 full1 Hok1 Hs1 Hfr) as (rs & p2 & body2 & full2 & E2 & Hok2 & Es2).
  exists (r :: rs), p2, body2, full2. cbn [calls spec_calls]. rewrite E1, bind_Ok, E2, bind_Ok, Es1. done.
Qed.

(** ** Construction *)
Lemma push_raw m c :
  0 <= TaggedStack.top m < 2 ^ 47 -> 0 <= c < 2 ^ 47 ->
  TaggedStack.push_alone m c = TaggedStack.set_top (TaggedStack.set_next m c (TaggedStack.top m)) c.
Proof.
  intros Ht Hc. unfold TaggedStack.push_alone.
  assert (E : TaggedStack.pack (TaggedStack.top m) 0 = TaggedStack.top m).
  { rewrite TaggedStack.pack_eq by done. change (0 mod 2 ^ 17) with 0. lia. }
  rewrite <- E at 1 2. rewrite TaggedStack.ptr_of_pack, TaggedStack.tag_of_pack by done.
  change (0 mod 2 ^ 17) with 0. f_equal. rewrite TaggedStack.pack_eq by done. change (0 mod 2 ^ 17) with 0. lia.
Qed.

(** What the chunk loop does not touch. *)
Definition rest (p : t) := (_addBlockArrAllocator p, _addAllocCnt p, _addAllocMax p, heap p, tls p).

Lemma init_chunk_ok p body full base i n :
  ok p body full [] None -> manager_serves (_emptyChunkManager p) (S n) ->
  0 <= TaggedStack.top (freeChunks p) < 2 ^ 47 -> fresh_from p base (ChunkSize p * i) (Z.to_nat (ChunkSize p)) ->
  exists c p' body', init_chunk base (Ok p) i = Ok p' /\ ok p' body' (c :: full) [] None /\
    manager_serves (_emptyChunkManager p') n /\ 0 <= TaggedStack.top (freeChunks p') < 2 ^ 47 /\
    held p' = held p /\ static p' = static p /\ rest p' = rest p /\
    (forall b, (forall j, ChunkSize p * i <= j < ChunkSize p * i + ChunkSize p -> b <> block_at p base j) ->
       blocks p' !! b = blocks p !! b).
Proof.
  intros Hok Hm Htop Hfr. unfold init_chunk. rewrite bind_Ok.
  destruct (new_chunk_ok p body full [] None Hok n Hm) as (c & m' & E & Hok1 & Hm' & Hc & Hl). rewrite E, bind_Ok.
  assert (Hbc : body c = []) by (apply (ok_dead _ _ _ _ _ Hok), Hc).
  pose proof (ok_size _ _ _ _ _ Hok) as Hcs.
  assert (Hcl : c ∈ live (set_manager p m')) by (rewrite Hl; apply elem_of_union_l, elem_of_singleton; done).
  pose proof (ok_live _ _ _ _ _ Hok1 c Hcl) as Hcr.
  destruct (put_blocks_ok (Z.to_nat (ChunkSize p)) (set_manager p m') body full [] None c base (ChunkSize p * i) Hok1 Hcl) as
    (body' & Hok2 & Hf2 & Efc2 & Hlen2 & Hh2 & Hb2).
  { rewrite Hbc, Z2Nat.id by lia. cbn. lia. }
  { exact Hfr. }
  rewrite Z2Nat.id in * by lia. change (ChunkSize (set_manager p m')) with (ChunkSize p).
  set (q := put_blocks (set_manager p m') c base (ChunkSize p * i) (ChunkSize p)) in *. clearbody q.
  change (freeChunks (set_manager p m')) with (freeChunks p) in Efc2.
  cbv zeta. rewrite Efc2. rewrite <- push_raw by lia.
  change (set_freeChunks q (TaggedStack.push_alone (freeChunks p) c)) with
    (set_freeChunks q (TaggedStack.push_alone (freeChunks p) c)).
  pose proof Hf2 as [= Ela Ecs Emy Epl Emg Etl Ehp Ead Ecn Emx].
  exists c, (Push q c), body'. unfold Push at 1. rewrite Efc2. split; [done|]. split; [|split; [|split; [|split; [|split; [|split]]]]].
  - apply Push_ok; [exact Hok2| | |rewrite Hlen2, Hbc, Ecs; cbn; lia|].
    + unfold live. rewrite Emg. exact Hcl.
    + intros Hx. destruct (ok_full _ _ _ _ _ Hok) as (_ & _ & Hfl). destruct (Hfl c Hx). done.
    + intros tid Ht. rewrite Etl. apply (dead_unowned p body full [] None Hok c Hc tid Ht).
  - change (_emptyChunkManager (Push q c)) with (_emptyChunkManager q). rewrite Emg. exact Hm'.
  - change (freeChunks (Push q c)) with (TaggedStack.push_alone (freeChunks q) c).
    rewrite Efc2, push_raw by lia. cbn. lia.
  - transitivity (held q); [done|]. rewrite Hh2. done.
  - transitivity (static q); [done|]. rewrite (static_frame _ _ Hf2). done.
  - unfold rest. cbn. rewrite Ead, Ecn, Emx, Ehp, Etl. done.
  - intros b Hb. change (blocks (Push q c)) with (blocks q). rewrite Hb2; [done|exact Hb].
Qed.

Lemma init_chunk_loop N p base n0 :
  ok p (fun _ => []) [] [] None -> manager_serves (_emptyChunkManager p) (N + n0) ->
  TaggedStack.top (freeChunks p) = 0 ->
  (forall j, 0 <= j < ChunkSize p * Z.of_nat N -> fresh_block p (block_at p base j)) ->
  forall n, (n <= N)%nat ->
  exists p' body full, fold_left (init_chunk base) (seqZ 0 (Z.of_nat n)) (Ok p) = Ok p' /\
    ok p' body full [] None /\ length full = n /\ manager_serves (_emptyChunkManager p') (N - n + n0) /\
    0 <= TaggedStack.top (freeChunks p') < 2 ^ 47 /\ held p' = held p /\ static p' = static p /\ rest p' = rest p /\
    (forall j, ChunkSize p * Z.of_nat n <= j < ChunkSize p * Z.of_nat N -> blocks p' !! block_at p base j = None).
Proof.
  intros Hok Hm Htop Hfr. pose proof (ok_size _ _ _ _ _ Hok) as Hcs. pose proof (ok_lay _ _ _ _ _ Hok) as Hlay.
  induction n as [|n IH]; intros Hn.
  - change (seqZ 0 (Z.of_nat 0)) with (@nil Z). exists p, (fun _ => []), [].
    split_and!; try done || lia; [replace (N - 0 + n0)%nat with (N + n0)%nat by lia; done|].
    intros j Hj. apply Hfr. lia.
  - destruct IH as (q & body & full & E & Hq & Hlen & Hmq & Htq & Hhq & Hstq & Hrq & Hbq); [lia|].
    pose proof Hstq as [= Ela Ecs _ _]. pose proof Hrq as [= _ _ _ Ehp _].
    destruct (init_chunk_ok q body full base (Z.of_nat n) (N - S n + n0) Hq) as
      (c & p' & body' & E' & Hok' & Hm' & Ht' & Hh' & Hst' & Hr' & Hb').
    + replace (S (N - S n + n0)) with (N - n + n0)%nat by lia. exact Hmq.
    + exact Htq.
    + intros j Hj. rewrite Ecs, Z2Nat.id in Hj by lia. unfold block_at. rewrite Ela.
      assert (Hj' : ChunkSize p * Z.of_nat n <= j < ChunkSize p * Z.of_nat N) by nia.
      split; [apply Hbq, Hj'|]. destruct (Hfr j ltac:(nia)) as [_ Hx]. unfold block_at. rewrite Ela, Ecs, Ehp. exact Hx.
    + exists p', body', (c :: full). rewrite seqZ_S, fold_left_app, E. cbn [fold_left]. rewrite Z.add_0_l.
      split_and!; [done|done|cbn; lia|done|lia|lia|congruence|congruence|congruence|].
      intros j Hj. rewrite Hb'; [apply Hbq; nia|]. intros j' Hj' Heq. unfold block_at in Heq. rewrite Ecs, ?Ela in *. nia.
Qed.

(** Arguments and surroundings the constructor works with: numbers below the machine's
    limits, arrays and the first blocks apart from each other. *)
Definition chunks_of (csize n : Z) : Z := (n + (csize - 1)) / csize.

Record new_args_ok (s : surroundings) (csize init max : Z) : Prop := mkArgs {
  na_size : 0 < csize < 2 ^ 64;
  na_numbers : 0 <= init <= max /\ 0 < max /\ max + csize < 2 ^ 64;
  na_secure : 1 <= s_secure s < 2 ^ 64;
  na_lay : 0 <= MemoryPool.offsetof_data (s_layout s) < MemoryPool.sizeofBLOCK (s_layout s) /\
    0 < MemoryPool.alignofBLOCK (s_layout s);
  na_addr : 0 < s_addr s;
  na_processors : 0 <= s_processors s /\ chunks_of csize init + s_processors s < 2 ^ 64;
  na_chunks : MemoryPool.new_args_ok (s_chunk_layout s) (chunks_of csize init + s_processors s) POOL_MAX_ALLOC
    (s_chunk_secure s) (s_chunk_addr s) (s_chunk_heap s);
  na_heap k h : s_heap s !! k = Some h -> h <> 0 -> 0 < h < 2 ^ 47 /\
    (h + MemoryPool.sizeofBLOCK (s_layout s) * csize <= s_addr s \/
     s_addr s + MemoryPool.alignofBLOCK (s_layout s) +
       MemoryPool.sizeofBLOCK (s_layout s) * (csize * chunks_of csize init) <= h);
  na_apart k k' h h' : s_heap s !! k = Some h -> s_heap s !! k' = Some h' -> h <> 0 -> h' <> 0 -> k <> k' ->
    h + MemoryPool.sizeofBLOCK (s_layout s) * csize <= h' \/ h' + MemoryPool.sizeofBLOCK (s_layout s) * csize <= h;
}.

Lemma chunks_of_bounds csize n : 0 < csize -> 0 <= n -> n <= csize * chunks_of csize n < n + csize.
Proof.
  intros Hc Hn. unfold chunks_of. pose proof (Z.div_mod (n + (csize - 1)) csize). pose proof (Z.mod_pos_bound (n + (csize - 1)) csize).
  lia.
Qed.

(** The pool before the chunk loop. *)
Lemma fresh_pool_ok s csize init max pl m l addr :
  new_args_ok s csize init max -> MemoryPool.ok m l POOL_MAX_ALLOC 0 -> MemoryPool.held m = ∅ ->
  let addMax := chunks_of csize max - chunks_of csize init in
  let p := mk (s_layout s) csize ∅ (fun _ => 0) ∅ ∅ m (TaggedStack.mkMem 0 (fun _ => 0))
             (if 0 <? addMax then Some BlockArrayAllocator.new else None) (u64 (-1)) addMax (chunks_of csize init) 0
             (s_secure s) pl ∅ (s_heap s) addr in
  0 <= addMax -> ok p (fun _ => []) [] [] None /\ held p = ∅.
Proof.
  intros [] Hm Hh addMax p Hadd. split; [|done].
  assert (El : live p = ∅).
  { apply set_eq. intros x. unfold live. rewrite MemoryPool.elem_of_outstanding. cbn. rewrite Hh. set_solver. }
  assert (Hno : forall x : Z, x ∉ []) by (intros x Hx; by apply not_elem_of_nil in Hx).
  split; rewrite ?El; try done.
  - apply na_lay0.
  - intros c. cbn. split_and!; [done|done|lia|constructor].
  - split_and!; [apply TaggedStack.stack_is_empty|constructor|]. intros c Hc. destruct (Hno c Hc).
  - intros c c' b Hb. destruct (Hno b Hb).
  - split; [constructor|]. intros c b Hb. destruct (Hno b Hb).
  - intros b. cbn. split; [rewrite lookup_empty; done|]. intros [[c Hb]|Hb]; destruct (Hno b Hb).
  - split; [|exact na_apart0]. intros k h Hk H0. destruct (na_heap0 k h Hk H0). split; done.
  - cbn. destruct (0 <? addMax) eqn:E; [|lia]. exists [].
    split_and!; [apply TaggedStack.stack_is_empty|constructor|]. intros n k h Hn. destruct (Hno n Hn).
Qed.

(** The first blocks are fresh. *)
Lemma first_blocks_fresh s csize init max p base :
  new_args_ok s csize init max -> blocks p = ∅ -> heap p = s_heap s -> lay p = s_layout s -> ChunkSize p = csize ->
  s_addr s <= base < s_addr s + MemoryPool.alignofBLOCK (s_layout s) ->
  forall j, 0 <= j < ChunkSize p * Z.of_nat (Z.to_nat (chunks_of csize init)) -> fresh_block p (block_at p base j).
Proof.
  intros [] Eb Eh El Ec Hb j Hj. rewrite Ec in Hj. destruct na_lay0 as [Hl1 Hl2].
  pose proof (chunks_of_bounds csize init ltac:(lia) ltac:(lia)). rewrite Z2Nat.id in Hj by nia.
  split; [rewrite Eb; apply lookup_empty|]. intros k h i Hk H0 Hi. rewrite Eh in Hk. rewrite Ec in Hi.
  unfold block_at. rewrite El. destruct (na_heap0 k h Hk H0) as [_ [?|?]]; nia.
Qed.

(** Memory for [n] chunks more than the pool starts with. *)
Definition provided (s : surroundings) (csize init : Z) (n : nat) : Prop :=
  (0 ∉ s_heap s) /\ (0 ∉ s_chunk_heap s) /\
  Z.of_nat n <= chunks_of csize init + Z.of_nat (length (s_heap s)) /\
  Z.of_nat n <= s_processors s + Z.of_nat (length (s_chunk_heap s)) /\
  chunks_of csize init + Z.of_nat n <= POOL_MAX_ALLOC.

Lemma tls_new_ok s csize init max pl n :
  new_args_ok s csize init max -> provided s csize init n -> Z.of_nat n <= chunks_of csize max ->
  exists p body full, new s csize true init max pl = Ok (inr p) /\ ok p body full [] None /\ serves p full n /\
    held p = ∅ /\ Z.of_nat (length full) = chunks_of csize init /\ tls p = ∅ /\
    _addAllocCnt p = u64 (-1) /\ _addAllocMax p = chunks_of csize max - chunks_of csize init.
Proof.
  intros Hargs (Hz1 & Hz2 & Hn1 & Hn2 & Hn3) Hmax. pose proof Hargs as [].
  destruct na_numbers0 as ((Hi0 & Him) & Hm0 & Hm1). destruct na_lay0 as [Hl1 Hl2].
  pose proof (chunks_of_bounds csize init ltac:(lia) ltac:(lia)) as Hci.
  pose proof (chunks_of_bounds csize max ltac:(lia) ltac:(lia)) as Hcm.
  assert (Hmono : chunks_of csize init <= chunks_of csize max) by (apply Z.div_le_mono; lia).
  assert (Hcmax : chunks_of csize max <= max) by nia.
  assert (HN : 0 <= chunks_of csize init) by nia.
  destruct (MemoryPool.new_ok _ _ _ false _ _ _ na_chunks0) as (m & l & Em & Hmok & Hlen & Hh & _ & Ehp & _).
  assert (Hms : manager_serves m (Z.to_nat (chunks_of csize init) + n)).
  { exists l, POOL_MAX_ALLOC. rewrite Ehp, Hh, size_empty. split_and!; [done|done|lia|lia]. }
  unfold new. cbn [negb]. replace (max <? init) with false by lia.
  replace ((init =? 0) && (max =? 0)) with false by lia.
  rewrite !(u_small 64 (_ + (csize - 1))) by lia. fold (chunks_of csize init) (chunks_of csize max).
  rewrite (u_small 64 (chunks_of csize max - _)) by lia. rewrite (u_small 64 (chunks_of csize init + _)) by lia.
  rewrite Em. set (p0 := mk (s_layout s) csize ∅ _ ∅ ∅ m _ _ _ _ _ 0 _ pl ∅ (s_heap s)).
  destruct (fresh_pool_ok s csize init max pl m l 0 Hargs Hmok Hh ltac:(lia)) as [Hok0 Hh0].
  destruct (fresh_pool_ok s csize init max pl m l (s_addr s) Hargs Hmok Hh ltac:(lia)) as [Hok1 Hh1].
  destruct (Z.eqb_spec init 0) as [E0|E0].
  - assert (EN : chunks_of csize init = 0) by nia. exists (p0 0), (fun _ => []), [].
    split_and!; [done|exact Hok0| |exact Hh0|cbn; lia|done|done|done]. rewrite EN in *. split; cbn.
    + split; [done|lia].
    + destruct Hms as (l' & lim & ? & ? & ? & ?). exists l', lim. split_and!; done || lia.
    + exists 0. split_and!; try done || lia.
  - rewrite (proj2 (Z.eqb_neq (s_addr s) 0)) by lia. set (al := MemoryPool.alignofBLOCK (s_layout s)) in *.
    set (base := al * ((s_addr s + al - 1) / al)).
    assert (Hbase : s_addr s <= base < s_addr s + al).
    { unfold base. pose proof (Z.div_mod (s_addr s + al - 1) al). pose proof (Z.mod_pos_bound (s_addr s + al - 1) al). lia. }
    clearbody base.
    destruct (init_chunk_loop (Z.to_nat (chunks_of csize init)) (p0 (s_addr s)) base n Hok1 Hms eq_refl) with
      (n := Z.to_nat (chunks_of csize init)) as (p & body & full & E & Hok & Hlf & Hmp & _ & Hhp & Hst & Hr & _); [|lia|].
    { apply (first_blocks_fresh s csize init max); done. }
    rewrite Z2Nat.id in E by lia. rewrite E, bind_Ok. injection Hr as Ea Ec Ex Eh Et.
    exists p, body, full. split_and!; [done|exact Hok| |rewrite Hhp; exact Hh1|lia|exact Et|exact Ec|exact Ex].
    split.
    + rewrite Eh. split; [done|]. lia.
    + rewrite Nat.sub_diag in Hmp. exact Hmp.
    + exists 0. rewrite Ex, Ec. split_and!; try done || lia.
Qed.

(** ** Properties *)

(** C31: a thread-local pool refines a set of objects. After a constructor call with
    accepted arguments, let threads call [Alloc] and [Free], one call after the other, on
    their own and on each other's objects; at most as many calls as the limit has chunks,
    with memory granted for as many chunks, and with [Free] called only on blocks of the
    pool, out or not, and on readable memory that does not have the code of the pool on
    both sides. Then each call returns and answers as the set does: [Alloc] gives an object
    that is not out, [Free] takes back exactly an object that is out, and refuses, changing
    nothing, a second [Free] of it and a foreign object. Without the bound on the calls this
    fails ([other_thread_faults]). *)
Theorem tls_pool_refines_set s csize init max pl cs :
  new_args_ok s csize init max -> provided s csize init (length cs) -> Z.of_nat (length cs) <= chunks_of csize max ->
  (forall p, new s csize true init max pl = Ok (inr p) -> frees_ok p cs = true) ->
  exists p rs p', new s csize true init max pl = Ok (inr p) /\ calls p cs = Ok (rs, p') /\
    spec_calls ∅ cs rs = Some (outstanding p').
Proof.
  intros Hargs Hp Hn Hfr. destruct (tls_new_ok s csize init max pl _ Hargs Hp Hn) as (p & body & full & E & Hok & Hs & Hh & _).
  destruct (tls_calls_spec cs p body full Hok Hs) as (rs & p' & body' & full' & Ec & _ & Es); [auto|].
  exists p, rs, p'. split_and!; [done|done|]. rewrite <- Es. f_equal. unfold outstanding. rewrite Hh. done.
Qed.

(** A pool at its limit faults although nearly all its objects are free. In a
    pool made with one chunk that may not grow, the first [Alloc] of a thread takes the
    chunk, and the first [Alloc] of another thread dereferences the null pointer that
    [ChunkAlloc] returned, with one object out. *)
Theorem other_thread_faults s csize pl t1 t2 :
  new_args_ok s csize csize csize -> provided s csize csize 1 -> t1 <> t2 ->
  exists p x p', new s csize true csize csize pl = Ok (inr p) /\ Alloc p t1 = Ok (x, p') /\
    outstanding p' = {[x]} /\ Alloc p' t2 = Fault NullDeref.
Proof.
  intros Hargs Hp Hne. pose proof (na_size _ _ _ _ Hargs).
  assert (E1 : chunks_of csize csize = 1) by (pose proof (chunks_of_bounds csize csize ltac:(lia) ltac:(lia)); nia).
  destruct (tls_new_ok s csize csize csize pl 1 Hargs Hp) as (p & body & full & E & Hok & Hs & Hh & Hlf & Ht & Hcnt & Hmax); [lia|].
  destruct (Alloc_ok p body full t1 0 Hok Hs) as (x & p' & body' & full' & EA & Hok' & _ & _ & Ho & _ & Ht1 & Ht2).
  exists p, x, p'. split_and!; [done|done| |].
  - rewrite Ho. unfold outstanding. rewrite Hh, set_map_empty, (right_id_L ∅ (∪)). done.
  - destruct Ht2 as [Ef El]; [rewrite Ht; done|intros ->; cbn in Hlf; lia|].
    assert (Efn : full' = []).
    { rewrite Ef. destruct full as [|c [|c' full]]; [done|done|]. cbn in Hlf. lia. }
    injection El as _ Ec Em. unfold Alloc, take_block. rewrite (Ht1 t2) by done. rewrite Ht, lookup_empty.
    unfold ChunkAlloc. rewrite (Pop_none _ _ _ _ _ Hok' Efn). rewrite Ec, Hcnt.
    change (u64 (u64 (-1) + 1)) with 0. cbv zeta.
    change (_addAllocMax (set_adder p' (_addBlockArrAllocator p') 0 (heap p'))) with (_addAllocMax p').
    rewrite Em, Hmax. replace (0 =? chunks_of csize csize - chunks_of csize csize) with true by lia. done.
Qed.

End with_memory.

(** ** Witnesses *)
Import MemoryPool.SampleMemory.

Definition sample : surroundings :=
  mkSurroundings (MemoryPool.mkLayout 32 8 8) 65536 [2097152; 2101248; 2105344; 2109440] 1
    (MemoryPool.mkLayout 48 8 8) 131072 [1048576; 1052672; 1056768; 1060864] 1 1.

Definition apart_b (size : Z) (l : list Z) : bool :=
  forallb (fun k => forallb (fun k' => (k =? k')%nat ||
    (match l !! k, l !! k' with
     | Some h, Some h' => (h + size <=? h') || (h' + size <=? h)
     | _, _ => true
     end)) (seq 0 (length l))) (seq 0 (length l)).

Lemma apart_b_spec size l k k' h h' :
  apart_b size l = true -> l !! k = Some h -> l !! k' = Some h' -> k <> k' -> h + size <= h' \/ h' + size <= h.
Proof.
  intros Ha Hk Hk' Hne. unfold apart_b in Ha. rewrite forallb_forall in Ha.
  assert (Hin : forall j x, l !! j = Some x -> In j (seq 0 (length l))).
  { intros j x Hj. apply in_seq. apply lookup_lt_Some in Hj. lia. }
  specialize (Ha k (Hin _ _ Hk)). rewrite forallb_forall in Ha. specialize (Ha k' (Hin _ _ Hk')).
  rewrite Hk, Hk' in Ha. apply Nat.eqb_neq in Hne. rewrite Hne in Ha. cbn in Ha. lia.
Qed.

Lemma tls_sample_args init max : init = 2 -> 2 <= max <= 100 -> new_args_ok sample 2 init max.
Proof.
  intros -> Hm. split; cbn; try lia.
  - change (chunks_of 2 2) with 1. lia.
  - unfold MemoryPool.new_args_ok. cbn. change (chunks_of 2 2 + 1) with 2. unfold POOL_MAX_ALLOC.
    split_and!; try lia; try done.
    + apply (bool_decide_unpack _). vm_compute. done.
    + intros h Hh _. unfold MemoryPool.fits. cbn.
      do 3 (apply elem_of_cons in Hh as [->|Hh]; [lia|]). apply list_elem_of_singleton in Hh as ->. lia.
  - intros k h Hk _. change (chunks_of 2 2) with 1. do 4 (destruct k as [|k]; [cbn in Hk; injection Hk as <-; lia|]); done.
  - intros k k' h h' Hk Hk' _ _. apply (apart_b_spec _ [2097152; 2101248; 2105344; 2109440] k k'); done.
Qed.

(** Thread 2 frees the object of thread 1, twice, and one of another pool. *)
Definition sample_calls : list call := [CallAlloc 1; CallAlloc 2; CallFree 2 65576; CallFree 2 65576; CallFree 1 4104].

Lemma tls_pool_refines_set_witness :
  exists p rs p', new sample 2 true 2 10 true = Ok (inr p) /\
    calls p sample_calls = Ok (rs, p') /\ spec_calls ∅ sample_calls rs = Some (outstanding p').
Proof.
  apply tls_pool_refines_set.
  - apply tls_sample_args; lia.
  - unfold provided. split_and!; (apply (bool_decide_unpack _); vm_compute; done).
  - vm_compute. discriminate.
  - assert (Hf : match new sample 2 true 2 10 true with Ok (inr p) => frees_ok p sample_calls | _ => true end = true)
      by (vm_compute; reflexivity).
    intros p E. rewrite E in Hf. exact Hf.
Defined.

Lemma other_thread_faults_witness :
  exists p x p', new sample 2 true 2 2 false = Ok (inr p) /\ Alloc p 1 = Ok (x, p') /\
    outstanding p' = {[x]} /\ Alloc p' 2 = Fault NullDeref.
Proof.
  apply other_thread_faults.
  - apply tls_sample_args; lia.
  - unfold provided. split_and!; (apply (bool_decide_unpack _); vm_compute; done).
  - discriminate.
Defined.
