(* ===== verification/LockFreeStack.v ===== *)
(** * The lock-free stack of [CLockFreeStack.h]

    A linked stack of nodes from a pool, with a dummy node at the bottom and a counter
    next to the top that [Pop] exchanges together with it. Threads are interleaved at
    every access to shared memory. *)
From S2P Require Import Prelude.
From stdpp Require Import prelude gmap list.
From Stdlib Require Import ZArith Lia.
Open Scope Z_scope.

Module CLockFreeStack.

(** ** Memory and threads

    [next] and [data] are the members of the nodes; [pool] the nodes [poolManager] can
    give. *)
Record mem := mkMem {
  _top : Z;
  _uniqIdx : Z;
  _next : Z -> Z;
  _data : Z -> Z;
  _dummyNode : Z;
  pool : list Z;
}.

Definition set_top (m : mem) (p u : Z) : mem := mkMem p u (_next m) (_data m) (_dummyNode m) (pool m).
Definition set_next (m : mem) (n v : Z) : mem :=
  mkMem (_top m) (_uniqIdx m) (fun p => if p =? n then v else _next m p) (_data m) (_dummyNode m) (pool m).
Definition set_data (m : mem) (n v : Z) : mem :=
  mkMem (_top m) (_uniqIdx m) (_next m) (fun p => if p =? n then v else _data m p) (_dummyNode m) (pool m).
Definition set_pool (m : mem) (l : list Z) : mem :=
  mkMem (_top m) (_uniqIdx m) (_next m) (_data m) (_dummyNode m) l.

(** The constructor, on memory it finds as it is. *)
Definition new (dummy : Z) (nx dt : Z -> Z) (nodes : list Z) : mem :=
  set_next (mkMem dummy 0 nx dt dummy nodes) dummy 0.

(** Where a thread is in [Push] or [Pop], with its local variables. *)
Inductive pc :=
  | Idle
  | PushAlloc (d : Z)
  | PushData (n d : Z)
  | PushRead (n d : Z)
  | PushNext (n d bkTop : Z)
  | PushCas (n d bkTop : Z)
  | PopUniq
  | PopTop (u : Z)
  | PopNext (u p : Z)
  | PopCas (u p pNextTop : Z)
  | PopData (p : Z)
  | PopFree (p v : Z)
  | Popped (r : option Z).

(** What happens to the stack, at the access that makes it happen. *)
Inductive op := OpPush (d : Z) | OpPop (d : Z) | OpEmpty.

Definition Push (d : Z) : pc := PushAlloc d.
Definition Pop : pc := PopUniq.

(** One access to shared memory. The pool is asked for its first node; a pool without
    one makes the caller wait here. *)
Definition step (c : pc) (m : mem) : pc * mem * list op :=
  match c with
  | Idle => (Idle, m, [])
  | PushAlloc d =>
      match pool m with
      | n :: l => (PushData n d, set_pool m l, [])
      | [] => (PushAlloc d, m, [])
      end
  | PushData n d => (PushRead n d, set_data m n d, [])
  | PushRead n d => (PushNext n d (_top m), m, [])
  | PushNext n d bkTop => (PushCas n d bkTop, set_next m n bkTop, [])
  | PushCas n d bkTop =>
      if _top m =? bkTop then (Idle, set_top m n (_uniqIdx m), [OpPush d])
      else (PushRead n d, m, [])
  | PopUniq => (PopTop (_uniqIdx m), m, [])
  | PopTop u => (PopNext u (_top m), m, if _top m =? _dummyNode m then [OpEmpty] else [])
  | PopNext u p =>
      let nx := _next m p in
      if nx =? 0 then (Popped None, m, []) else (PopCas u p nx, m, [])
  | PopCas u p nx =>
      if (_uniqIdx m =? u) && (_top m =? p)
      then (PopData p, set_top m nx (u64 (u + 1)), [OpPop (_data m p)])
      else (PopUniq, m, [])
  | PopData p => (PopFree p (_data m p), m, [])
  | PopFree p v => (Popped (Some v), set_pool m (p :: pool m), [])
  | Popped r => (Popped r, m, [])
  end.

(** A stack of values and what an operation does to it, alone. *)
Definition apply_op (l : list Z) (o : op) : option (list Z) :=
  match o, l with
  | OpPush d, l => Some (d :: l)
  | OpPop d, x :: l => if x =? d then Some l else None
  | OpPop _, [] => None
  | OpEmpty, [] => Some []
  | OpEmpty, _ :: _ => None
  end.

Fixpoint replay (l : list Z) (os : list op) : option (list Z) :=
  match os with
  | [] => Some l
  | o :: os => l ← apply_op l o; replay l os
  end.

(** ** Interleaving

    [pops] counts the pops that happened; a thread remembers in [seen] the count when
    it read [_uniqIdx], and in [took] what its pop took when it took effect. *)
Record thread := mkThread { at_pc : pc; seen : Z; took : option (option Z) }.
Record config := mkConfig {
  shared : mem;
  threads : list thread;
  pops : Z;
  hist : list op;
}.

Definition is_pop (o : op) : bool := match o with OpPop _ => true | _ => false end.
Definition result_of (os : list op) (old : option (option Z)) : option (option Z) :=
  match os with
  | [OpPop d] => Some (Some d)
  | [OpEmpty] => Some None
  | _ => old
  end.

Definition advance (c : config) (i : nat) (t : thread) : config :=
  let '(c', m', os) := step (at_pc t) (shared c) in
  let seen' := match at_pc t with PopUniq => pops c | _ => seen t end in
  mkConfig m' (<[i := mkThread c' seen' (result_of os (took t))]> (threads c))
    (if existsb is_pop os then pops c + 1 else pops c) (hist c ++ os).

(** [_uniqIdx] has not wrapped around since a thread read it. *)
Definition in_window (c : config) (t : thread) : Prop :=
  match at_pc t with PopCas _ _ _ => pops c - seen t < 2 ^ 64 | _ => True end.

Definition call (c : config) (i : nat) (t : thread) (p : pc) : config :=
  mkConfig (shared c) (<[i := mkThread p (seen t) None]> (threads c)) (pops c) (hist c).

Inductive sched_step : config -> config -> Prop :=
  | sched_push c i t d :
      threads c !! i = Some t -> at_pc t = Idle -> sched_step c (call c i t (Push d))
  | sched_pop c i t :
      threads c !! i = Some t -> at_pc t = Idle -> sched_step c (call c i t Pop)
  | sched_return c i t r :
      threads c !! i = Some t -> at_pc t = Popped r -> sched_step c (call c i t Idle)
  | sched_run c i t :
      threads c !! i = Some t -> in_window c t -> sched_step c (advance c i t).

(** A constructed stack, idle threads, and a pool of distinct nodes. *)
Definition initial (c : config) : Prop :=
  (exists dummy nx dt nodes, shared c = new dummy nx dt nodes /\ dummy <> 0 /\
     NoDup nodes /\ (dummy ∉ nodes) /\ (0 ∉ nodes)) /\
  pops c = 0 /\ hist c = [] /\ Forall (fun t => at_pc t = Idle) (threads c).

Definition reachable (c : config) : Prop := exists c0, initial c0 /\ rtc sched_step c0 c.

(** ** The invariant *)
Fixpoint chain (nx : Z -> Z) (dummy p : Z) (l : list Z) : Prop :=
  match l with
  | [] => p = dummy
  | n :: l => p = n /\ chain nx dummy (nx n) l
  end.

(** The nodes a thread owns: those it is about to push and the one it popped. *)
Definition owned (t : thread) : list Z :=
  match at_pc t with
  | PushData n _ | PushRead n _ | PushNext n _ _ | PushCas n _ _ | PopData n | PopFree n _ => [n]
  | _ => []
  end.
Definition all_owned (ts : list thread) : list Z := concat (owned <$> ts).
#[local] Arguments all_owned : simpl never.

(** What a thread knows where it is, with [l] the nodes in the stack. *)
Definition knows (m : mem) (l : list Z) (np : Z) (t : thread) : Prop :=
  let started u := seen t <= np /\ u = u64 (seen t) in
  match at_pc t with
  | PushRead n d => _data m n = d
  | PushNext n d bk => _data m n = d /\ bk <> 0
  | PushCas n d bk => _data m n = d /\ bk <> 0 /\ _next m n = bk
  | PopTop u => started u
  | PopNext u p =>
      started u /\ if p =? _dummyNode m then took t = Some None
                   else _next m p <> 0 /\ (np = seen t -> p ∈ l)
  | PopCas u p nx => started u /\ p <> _dummyNode m /\ nx <> 0 /\ (np = seen t -> p ∈ l /\ _next m p = nx)
  | PopData p => took t = Some (Some (_data m p))
  | PopFree p v => took t = Some (Some v)
  | Popped r => took t = Some r
  | _ => True
  end.

(** [U] are all nodes of the pool. *)
Record inv (c : config) (U l : list Z) : Prop := mkInv {
  inv_chain : chain (_next (shared c)) (_dummyNode (shared c)) (_top (shared c)) l;
  inv_uniq : _uniqIdx (shared c) = u64 (pops c);
  inv_dummy : _dummyNode (shared c) <> 0 /\ _next (shared c) (_dummyNode (shared c)) = 0;
  inv_nodes : NoDup U /\ (_dummyNode (shared c) ∉ U) /\ (0 ∉ U);
  inv_parts : l ++ all_owned (threads c) ++ pool (shared c) ≡ₚ U;
  inv_next : forall n, n ∈ l -> _next (shared c) n <> 0;
  inv_knows : forall i t, threads c !! i = Some t -> knows (shared c) l (pops c) t;
  inv_hist : replay [] (hist c) = Some (_data (shared c) <$> l);
}.

Lemma lf_chain_ext nx nx' dummy p l :
  chain nx dummy p l -> (forall n, n ∈ l -> nx' n = nx n) -> chain nx' dummy p l.
Proof.
  revert p. induction l as [|x l IH]; intros p Hc He; [done|]. destruct Hc as (-> & Hc).
  cbn. split; [done|]. rewrite He by left. apply IH; [done|]. intros n Hn. apply He. right. done.
Qed.

Lemma lf_replay_app l os os' : replay l (os ++ os') = (l' ← replay l os; replay l' os').
Proof.
  revert l. induction os as [|o os IH]; intros l; [done|]. cbn.
  destruct (apply_op l o); [apply IH|done].
Qed.

(** What another thread does leaves what a thread knows. *)
Lemma lf_knows_stable m m' l l' np np' t :
  knows m l np t ->
  (forall n, n ∈ l ++ owned t -> _next m' n = _next m n) ->
  (forall n, n ∈ owned t -> _data m' n = _data m n) ->
  (forall n, _next m n <> 0 -> _next m' n <> 0) -> _dummyNode m' = _dummyNode m ->
  np <= np' -> (np' = np -> l ⊆ l') -> knows m' l' np' t.
Proof.
  unfold knows, owned. intros Hk Hn Hd Hz Ed Hp Hl.
  destruct (at_pc t) as [|d|n d|n d|n d bk|n d bk| |u|u p|u p nx|p|p v|r]; try done.
  - rewrite Hd by left. exact Hk.
  - rewrite Hd by left. exact Hk.
  - rewrite Hd, Hn by (left || (apply elem_of_app; right; left)). exact Hk.
  - destruct Hk. split; [lia|done].
  - rewrite Ed. destruct Hk as [[? ?] Hk]. split; [split; [lia|done]|].
    destruct (p =? _dummyNode m); [done|]. destruct Hk as [Hnz Hin]. split; [auto|].
    intros E. apply Hl; [lia|]. apply Hin. lia.
  - rewrite Ed. destruct Hk as ([? ?] & ? & ? & Hin). split; [split; [lia|done]|]. split_and!; [done|done|].
    intros E. destruct Hin as [Hin Hnx]; [lia|]. split; [apply Hl; [lia|done]|].
    rewrite Hn by (apply elem_of_app; left; done). exact Hnx.
  - rewrite Hd by left. exact Hk.
Qed.

(** One thread moves: nodes change hands between it, the stack and the pool. *)
Lemma lf_inv_move c U l i t t' m' os l' np' :
  inv c U l -> threads c !! i = Some t ->
  chain (_next m') (_dummyNode (shared c)) (_top m') l' -> _uniqIdx m' = u64 np' ->
  _dummyNode m' = _dummyNode (shared c) ->
  (forall n, n ∉ owned t -> _next m' n = _next (shared c) n) ->
  (forall n, n ∉ owned t -> _data m' n = _data (shared c) n) ->
  (forall n, _next (shared c) n <> 0 -> _next m' n <> 0) -> (forall n, n ∈ l' -> _next m' n <> 0) ->
  l' ++ owned t' ++ pool m' ≡ₚ l ++ owned t ++ pool (shared c) ->
  knows m' l' np' t' -> pops c <= np' -> (np' = pops c -> l ⊆ l') ->
  replay (_data (shared c) <$> l) os = Some (_data m' <$> l') ->
  inv (mkConfig m' (<[i := t']> (threads c)) np' (hist c ++ os)) U l'.
Proof.
  intros [] Hi Hch Hu Ed Hn Hd Hz Hnz Hp Hk Hle Hl Hos.
  destruct (concat_fmap_insert owned _ _ _ Hi) as (rest & Er & Er' & Hothers). fold (all_owned (threads c)) in Er.
  specialize (Er' t'). fold (all_owned (<[i := t']> (threads c))) in Er'.
  assert (Hall : l' ++ all_owned (<[i := t']> (threads c)) ++ pool m' ≡ₚ U).
  { rewrite <- inv_parts0, Er, Er', <- !app_assoc, (Permutation_app_comm rest (pool m')),
      (Permutation_app_comm rest (pool (shared c))).
    rewrite (app_assoc (owned t')), (app_assoc (owned t)), !(app_assoc _ _ rest), Hp. done. }
  assert (Hnd : NoDup (owned t ++ l ++ rest)).
  { destruct inv_nodes0 as (Hnd & _). rewrite <- inv_parts0, Er in Hnd.
    rewrite !app_assoc in Hnd. apply NoDup_app in Hnd as [Hnd _].
    rewrite app_assoc, (Permutation_app_comm (owned t)). exact Hnd. }
  assert (Hnt : forall n, n ∈ l \/ n ∈ rest -> n ∉ owned t).
  { intros n Hlr Ho. apply NoDup_app in Hnd as (_ & Hd' & _). apply (Hd' n Ho), elem_of_app, Hlr. }
  assert (HnU : forall n, n ∈ owned t -> n ∈ U).
  { intros n Ho. rewrite <- inv_parts0, Er, !elem_of_app. auto. }
  split; cbn; try done.
  - rewrite Ed. exact Hch.
  - rewrite Ed. split; [apply inv_dummy0|]. rewrite Hn; [apply inv_dummy0|].
    intros Ho%HnU. exact (proj1 (proj2 inv_nodes0) Ho).
  - rewrite Ed. exact inv_nodes0.
  - intros j u. rewrite list_lookup_insert_Some. intros [(-> & <- & _)|[Hij Hj]]; [done|].
    assert (Hou := Hothers j u (not_eq_sym Hij) Hj).
    eapply lf_knows_stable; [apply (inv_knows0 j u Hj)| | |done..].
    + intros n Hx. apply Hn, Hnt. apply elem_of_app in Hx as [?|?]; auto.
    + intros n Hx. apply Hd, Hnt. auto.
  - rewrite lf_replay_app, inv_hist0. exact Hos.
Qed.

(** A move that leaves the stack, and what the thread owns with the pool, alone. *)
Lemma lf_inv_stay c U l i t t' m' os :
  inv c U l -> threads c !! i = Some t ->
  _top m' = _top (shared c) -> _uniqIdx m' = _uniqIdx (shared c) -> _dummyNode m' = _dummyNode (shared c) ->
  (forall n, n ∉ owned t -> _next m' n = _next (shared c) n) ->
  (forall n, n ∉ owned t -> _data m' n = _data (shared c) n) ->
  (forall n, _next (shared c) n <> 0 -> _next m' n <> 0) ->
  owned t' ++ pool m' ≡ₚ owned t ++ pool (shared c) ->
  knows m' l (pops c) t' -> replay (_data (shared c) <$> l) os = Some (_data (shared c) <$> l) ->
  inv (mkConfig m' (<[i := t']> (threads c)) (pops c) (hist c ++ os)) U l.
Proof.
  intros Hv Hi Et Eu Ed Hn Hd Hz Hp Hk Hos.
  assert (Hl : forall n, n ∈ l -> n ∉ owned t).
  { intros n Hnl Ho. destruct (inv_nodes _ _ _ Hv) as (Hnd & _).
    destruct (concat_fmap_insert owned _ _ _ Hi) as (rest & Er & _ & _).
    rewrite <- (inv_parts _ _ _ Hv) in Hnd. apply NoDup_app in Hnd as (_ & Hnd & _).
    apply (Hnd n Hnl). apply elem_of_app. left. unfold all_owned. rewrite Er. apply elem_of_app. auto. }
  apply (lf_inv_move c U l i t); try done.
  - rewrite Et. eapply lf_chain_ext; [apply (inv_chain _ _ _ Hv)|]. intros n Hnl. apply Hn, Hl, Hnl.
  - rewrite Eu. apply (inv_uniq _ _ _ Hv).
  - intros n Hnl. apply Hz, (inv_next _ _ _ Hv n Hnl).
  - rewrite Hp. done.
  - rewrite Hos. f_equal. apply list_fmap_ext. intros j n Hj. symmetry. apply Hd, Hl.
    apply (list_elem_of_lookup_2 _ j _ Hj).
Qed.

Lemma top_in_stack c U l :
  inv c U l -> _top (shared c) <> _dummyNode (shared c) -> exists l', l = _top (shared c) :: l'.
Proof.
  intros Hv Ht. pose proof (inv_chain _ _ _ Hv) as Hc. destruct l as [|x l]; [done|].
  destruct Hc as (-> & _). eauto.
Qed.

Lemma top_nonzero c U l : inv c U l -> _top (shared c) <> 0.
Proof.
  intros Hv E. pose proof (inv_chain _ _ _ Hv) as Hc. destruct l as [|x l]; cbn in Hc.
  - apply (proj1 (inv_dummy _ _ _ Hv)). congruence.
  - destruct Hc as (<- & _). apply (proj2 (proj2 (inv_nodes _ _ _ Hv))). rewrite <- (inv_parts _ _ _ Hv), E. left.
Qed.

Lemma node_not_dummy c U l n : inv c U l -> n ∈ l -> n <> _dummyNode (shared c).
Proof.
  intros Hv Hn ->. apply (proj1 (proj2 (inv_nodes _ _ _ Hv))). rewrite <- (inv_parts _ _ _ Hv).
  apply elem_of_app. auto.
Qed.

(** The successful exchanges. *)
Lemma lf_inv_push_cas c U l i t n d bk :
  inv c U l -> threads c !! i = Some t -> at_pc t = PushCas n d bk -> _top (shared c) = bk ->
  inv (mkConfig (set_top (shared c) n (_uniqIdx (shared c)))
         (<[i := mkThread Idle (seen t) (took t)]> (threads c)) (pops c) (hist c ++ [OpPush d])) U (n :: l).
Proof.
  intros Hv Hi Hpc Htop. pose proof (inv_knows _ _ _ Hv _ _ Hi) as Hk. unfold knows in Hk.
  rewrite Hpc in Hk. destruct Hk as (Hdt & Hbk & Hnx).
  assert (Ho : owned t = [n]) by (unfold owned; rewrite Hpc; done).
  apply (lf_inv_move c U l i t); try done.
  - cbn. split; [done|]. rewrite Hnx, <- Htop. apply (inv_chain _ _ _ Hv).
  - apply (inv_uniq _ _ _ Hv).
  - intros x [->|Hx]%elem_of_cons; cbn; [congruence|apply (inv_next _ _ _ Hv x Hx)].
  - rewrite Ho. cbn. apply Permutation_middle.
  - intros _ x Hx. right. exact Hx.
  - cbn. rewrite Hdt. done.
Qed.

Lemma u64_close a b : a <= b -> b - a < 2 ^ 64 -> u64 a = u64 b -> a = b.
Proof.
  intros Hab Hw E. unfold uint in E. assert (Hz : (b - a) mod 2 ^ 64 = 0).
  { rewrite Zminus_mod, E, Z.sub_diag. done. }
  rewrite Z.mod_small in Hz by lia. lia.
Qed.

Lemma lf_inv_pop_cas c U l i t u p nx :
  inv c U l -> threads c !! i = Some t -> at_pc t = PopCas u p nx ->
  _uniqIdx (shared c) = u -> _top (shared c) = p -> pops c - seen t < 2 ^ 64 ->
  exists l', inv (mkConfig (set_top (shared c) nx (u64 (u + 1)))
         (<[i := mkThread (PopData p) (seen t) (Some (Some (_data (shared c) p)))]> (threads c))
         (pops c + 1) (hist c ++ [OpPop (_data (shared c) p)])) U l'.
Proof.
  intros Hv Hi Hpc Eu Htop Hw. pose proof (inv_knows _ _ _ Hv _ _ Hi) as Hk. unfold knows in Hk.
  rewrite Hpc in Hk. destruct Hk as ([Hle Hu] & Hpd & Hnz & Hin).
  assert (E : seen t = pops c).
  { apply u64_close; [done|done|]. rewrite <- (inv_uniq _ _ _ Hv). congruence. }
  destruct (Hin (eq_sym E)) as [_ Hnx]. rewrite <- Htop in Hpd.
  destruct (top_in_stack _ _ _ Hv Hpd) as [l' El]. rewrite Htop in El. subst l. exists l'.
  pose proof (inv_chain _ _ _ Hv) as [_ Hch]. rewrite Hnx in Hch.
  assert (Ho : owned t = []) by (unfold owned; rewrite Hpc; done).
  apply (lf_inv_move c U (p :: l') i t); try done.
  - cbn. rewrite Hu, E. rewrite u_add_l by lia. done.
  - intros n Hn. apply (inv_next _ _ _ Hv). right. exact Hn.
  - rewrite Ho. cbn. symmetry. apply Permutation_middle.
  - lia.
  - lia.
  - cbn. rewrite Z.eqb_refl. done.
Qed.

Lemma lf_inv_run c U l i t :
  inv c U l -> threads c !! i = Some t -> in_window c t -> exists l', inv (advance c i t) U l'.
Proof.
  intros Hv Hi Hw. pose proof (inv_knows _ _ _ Hv _ _ Hi) as Hk.
  assert (Hstay := fun t' m' os => lf_inv_stay c U l i t t' m' os Hv Hi).
  unfold advance, in_window in *. destruct t as [tp sn tk]. cbn [at_pc seen took] in *.
  assert (Hne : forall (n x v : Z) (f : Z -> Z), x ∉ [n] -> (if x =? n then v else f x) = f x).
  { intros n x v f Hx. replace (x =? n) with false; [done|]. symmetry. apply Z.eqb_neq. intros ->. apply Hx. left. }
  destruct tp as [|d|n d|n d|n d bk|n d bk| |u|u p|u p nx|p|p v|r]; cbn [step existsb result_of].
  - exists l. apply Hstay; done.
  - exists l. destruct (pool (shared c)) as [|n nodes] eqn:Ep; cbn [existsb result_of];
      apply Hstay; rewrite ?Ep; done.
  - exists l. apply Hstay; try done; [intros x Hx; apply Hne, Hx|].
    unfold knows. cbn. rewrite Z.eqb_refl. done.
  - exists l. apply Hstay; try done. unfold knows. cbn. split; [exact Hk|apply (top_nonzero _ _ _ Hv)].
  - exists l. destruct Hk as [Hd Hbk]. apply Hstay; try done; [intros x Hx; apply Hne, Hx| |].
    + intros x Hx. cbn. destruct (x =? n); done.
    + unfold knows. cbn. rewrite Z.eqb_refl. done.
  - destruct (Z.eqb_spec (_top (shared c)) bk) as [E|E]; cbn [existsb is_pop orb result_of].
    + exists (n :: l). apply (lf_inv_push_cas _ _ _ _ (mkThread (PushCas n d bk) sn tk) n d bk Hv Hi eq_refl E).
    + exists l. apply Hstay; try done. unfold knows in *. cbn in *. apply Hk.
  - exists l. apply Hstay; try done. unfold knows. cbn. split; [lia|apply (inv_uniq _ _ _ Hv)].
  - exists l. unfold knows in Hk. cbn in Hk. destruct (Z.eqb_spec (_top (shared c)) (_dummyNode (shared c))) as [E|E];
      cbn [existsb is_pop orb result_of].
    + assert (El : l = []).
      { destruct l as [|x l]; [done|]. pose proof (inv_chain _ _ _ Hv) as [Hx _].
        exfalso. apply (node_not_dummy _ _ _ x Hv); [left|congruence]. }
      subst l. apply Hstay; try done. unfold knows. cbn. rewrite E, Z.eqb_refl. done.
    + apply Hstay; try done. unfold knows. cbn. apply Z.eqb_neq in E as Eb. rewrite Eb. split; [exact Hk|].
      destruct (top_in_stack _ _ _ Hv E) as [l' El]. rewrite El. split; [|intros _; left].
      apply (inv_next _ _ _ Hv). rewrite El. left.
  - exists l. unfold knows in Hk. cbn in Hk. destruct Hk as [Hst Hk].
    destruct (Z.eqb_spec p (_dummyNode (shared c))) as [->|Ep].
    + rewrite (proj2 (inv_dummy _ _ _ Hv)). cbn. apply Hstay; done.
    + destruct Hk as [Hnz Hin]. apply Z.eqb_neq in Hnz as Eb. rewrite Eb. cbn [existsb result_of].
      apply Hstay; try done. unfold knows. cbn. split_and!; [apply Hst..|done|done|]. intros E. auto.
  - destruct (Z.eqb_spec (_uniqIdx (shared c)) u) as [Eu|Eu]; cbn [andb];
      [destruct (Z.eqb_spec (_top (shared c)) p) as [Et|Et]|]; cbn [existsb is_pop orb result_of].
    + apply (lf_inv_pop_cas c U l i (mkThread (PopCas u p nx) sn tk) u p nx); done.
    + exists l. apply Hstay; done.
    + exists l. apply Hstay; done.
  - exists l. apply Hstay; done.
  - exists l. apply Hstay; done.
  - exists l. apply Hstay; done.
Qed.

Lemma inv_call c U l i t p :
  inv c U l -> threads c !! i = Some t -> owned t = [] -> p = Idle \/ (exists d, p = Push d) \/ p = Pop ->
  inv (call c i t p) U l.
Proof.
  intros Hv Hi Ho Hp. unfold call. rewrite <- (app_nil_r (hist c)).
  apply (lf_inv_stay c U l i t); try done.
  - rewrite Ho. destruct Hp as [->|[[d ->]| ->]]; done.
  - destruct Hp as [->|[[d ->]| ->]]; done.
Qed.

Lemma lf_inv_step c c' U l : inv c U l -> sched_step c c' -> exists l', inv c' U l'.
Proof.
  intros Hv Hs. destruct Hs as [c i t d Hi Hpc|c i t Hi Hpc|c i t r Hi Hpc|c i t Hi Hw];
    [| | |eapply lf_inv_run; eauto]; exists l; (apply inv_call; [done|done|unfold owned; rewrite Hpc; done|eauto]).
Qed.

Lemma lf_initial_inv c : initial c -> exists U, inv c U [].
Proof.
  intros ((dummy & nx & dt & nodes & Es & Hd & Hnd & Hdn & H0) & Hp & Hh & Hid). exists nodes.
  assert (Ha : all_owned (threads c) = []).
  { unfold all_owned. clear - Hid. induction Hid as [|t ts Hpc _ IH]; [done|]. cbn. rewrite IH.
    unfold owned. rewrite Hpc. done. }
  split; rewrite ?Es, ?Hp, ?Hh; try done.
  - split; [done|]. cbn. rewrite Z.eqb_refl. done.
  - rewrite Ha. done.
  - intros n []%not_elem_of_nil.
  - intros i t Hi. rewrite Forall_lookup in Hid. unfold knows. rewrite (Hid i t Hi). done.
Qed.

Lemma lf_reachable_inv c : reachable c -> exists U l, inv c U l.
Proof.
  intros (c0 & Hi & Hr). destruct (lf_initial_inv _ Hi) as [U H0]. exists U. revert H0. generalize (@nil Z).
  clear Hi. induction Hr as [c|c1 c2 c3 Hs _ IH]; intros l Hv; [eauto|].
  destruct (lf_inv_step _ _ _ _ Hv Hs) as [l' Hv']. eapply IH, Hv'.
Qed.

(** ** Schedules *)
Inductive command := CPush (i : nat) (d : Z) | CPop (i : nat) | CReturn (i : nat) | CRun (i : nat).

Definition command_step (c : config) (o : command) : option config :=
  match o with
  | CPush i d => t ← threads c !! i; match at_pc t with Idle => Some (call c i t (Push d)) | _ => None end
  | CPop i => t ← threads c !! i; match at_pc t with Idle => Some (call c i t Pop) | _ => None end
  | CReturn i => t ← threads c !! i; match at_pc t with Popped _ => Some (call c i t Idle) | _ => None end
  | CRun i =>
      t ← threads c !! i;
      match at_pc t with
      | PopCas _ _ _ => if pops c - seen t <? 2 ^ 64 then Some (advance c i t) else None
      | _ => Some (advance c i t)
      end
  end.

Definition after (os : list command) (c : config) : config :=
  fold_left (fun c o => default c (command_step c o)) os c.

Lemma lf_command_step_sched c o c' : command_step c o = Some c' -> sched_step c c'.
Proof.
  destruct o as [i n|i|i|i]; cbn; destruct (threads c !! i) as [t|] eqn:Hi; cbn; try done;
    destruct (at_pc t) eqn:Hpc; try done.
  { intros [= <-]. econstructor; eauto. }
  { intros [= <-]. econstructor; eauto. }
  { intros [= <-]. econstructor; eauto. }
  all: try (intros [= <-]; apply sched_run; [done|unfold in_window; rewrite Hpc; done]).
  all: destruct (Z.ltb_spec (pops c - seen t) (2 ^ 64)); [|done]; intros [= <-];
    apply sched_run; [done|unfold in_window; rewrite Hpc; done].
Qed.

Lemma schedule_keeps os c : reachable c -> reachable (after os c).
Proof.
  revert c. induction os as [|o os IH]; intros c Hc; [exact Hc|]. cbn. apply IH.
  destruct (command_step c o) as [c'|] eqn:E; [|exact Hc]. destruct Hc as (c0 & Hi & Hr).
  exists c0. split; [done|]. eapply rtc_r; [exact Hr|]. eapply lf_command_step_sched, E.
Qed.

(** ** Properties *)

(** C33: the lock-free stack is linearizable. In every interleaving of any number of
    threads that push and pop, as long as [_uniqIdx] does not wrap around inside a
    pop, the operations that took effect are, in their order, a history of a
    sequential stack of values; what is in memory is that stack; every pop returns
    what it took when it took effect; and a node is in the stack, in one thread's
    hands or in the pool, never in two places. *)
Theorem stack_linearizable c :
  reachable c ->
  exists U l, replay [] (hist c) = Some (_data (shared c) <$> l) /\
    chain (_next (shared c)) (_dummyNode (shared c)) (_top (shared c)) l /\
    (forall i t r, threads c !! i = Some t -> at_pc t = Popped r -> took t = Some r) /\
    NoDup U /\ l ++ all_owned (threads c) ++ pool (shared c) ≡ₚ U.
Proof.
  intros Hr. destruct (lf_reachable_inv _ Hr) as (U & l & Hv). exists U, l.
  split_and!; [apply (inv_hist _ _ _ Hv)|apply (inv_chain _ _ _ Hv)| |apply (inv_nodes _ _ _ Hv)|apply (inv_parts _ _ _ Hv)].
  intros i t r Hi Hpc. pose proof (inv_knows _ _ _ Hv _ _ Hi) as Hk. unfold knows in Hk. rewrite Hpc in Hk. exact Hk.
Qed.

(** Two pushes and three pops that race; the last pop finds the stack empty. *)
Definition start : config :=
  mkConfig (new 16 (fun _ => 7) (fun _ => 9) [4096; 8192]) [mkThread Idle 0 None; mkThread Idle 0 None] 0 [].
Definition race : list command :=
  [CPush 0 5; CPush 1 6] ++ concat (replicate 5 [CRun 0; CRun 1]) ++ replicate 3 (CRun 1) ++
  [CPop 0; CPop 1] ++ concat (replicate 4 [CRun 1; CRun 0]) ++ replicate 10 (CRun 0) ++ replicate 3 (CRun 1) ++
  [CReturn 1; CPop 1] ++ replicate 3 (CRun 1).

Lemma lf_start_reachable : reachable start.
Proof.
  exists start. split; [|apply rtc_refl]. split; [|split_and!; [done|done|repeat constructor]].
  exists 16, (fun _ => 7), (fun _ => 9), [4096; 8192]. split_and!; [done|done| | |].
  - repeat constructor; apply (bool_decide_unpack _); vm_compute; done.
  - apply (bool_decide_unpack _). vm_compute. done.
  - apply (bool_decide_unpack _). vm_compute. done.
Qed.

Lemma stack_linearizable_witness :
  hist (after race start) = [OpPush 5; OpPush 6; OpPop 6; OpPop 5; OpEmpty] /\
  exists l, replay [] (hist (after race start)) = Some (_data (shared (after race start)) <$> l).
Proof.
  split; [vm_compute; reflexivity|].
  destruct (stack_linearizable (after race start) (schedule_keeps race start lf_start_reachable)) as (U & l & H & _).
  exists l. exact H.
Defined.

End CLockFreeStack.
