(* ===== verification/LockFreeQueue.v ===== *)
(** * The lock-free queue of [CLockFreeQueue.h]

    A linked queue of nodes from a pool whose last node has the code of the queue for
    its [next], with tagged head and tail words and a size that is counted apart. Every
    access to shared memory is a step; a thread alone is shown to implement a list,
    and a schedule of two threads to break it. *)
From S2P Require Import Prelude.
From S2P Require Import TaggedStack.
From stdpp Require Import prelude gmap list.
From Stdlib Require Import ZArith Lia.
Open Scope Z_scope.

Module CLockFreeQueue.

Abbreviation ptr_of := TaggedStack.ptr_of.
Abbreviation tag_of := TaggedStack.tag_of.
Abbreviation pack := TaggedStack.pack.

(** ** Memory and threads

    [next] and [data] are the members of the nodes; [pool] the nodes [poolManager] can
    give. The embedded [_dummy] is not a block of the pool, which refuses it. *)
Record mem := mkMem {
  _head : Z;
  _tail : Z;
  _dummy : Z;
  _size : Z;
  _myCode : Z;
  next : Z -> Z;
  data : Z -> Z;
  pool : list Z;
}.

Definition set_head (m : mem) (w : Z) : mem :=
  mkMem w (_tail m) (_dummy m) (_size m) (_myCode m) (next m) (data m) (pool m).
Definition set_tail (m : mem) (w : Z) : mem :=
  mkMem (_head m) w (_dummy m) (_size m) (_myCode m) (next m) (data m) (pool m).
Definition set_size (m : mem) (n : Z) : mem :=
  mkMem (_head m) (_tail m) (_dummy m) n (_myCode m) (next m) (data m) (pool m).
Definition set_next (m : mem) (n v : Z) : mem :=
  mkMem (_head m) (_tail m) (_dummy m) (_size m) (_myCode m) (fun p => if p =? n then v else next m p) (data m) (pool m).
Definition set_data (m : mem) (n v : Z) : mem :=
  mkMem (_head m) (_tail m) (_dummy m) (_size m) (_myCode m) (next m) (fun p => if p =? n then v else data m p) (pool m).
Definition set_pool (m : mem) (l : list Z) : mem :=
  mkMem (_head m) (_tail m) (_dummy m) (_size m) (_myCode m) (next m) (data m) l.

(** The constructor; [uniqueCode] is the counter before the decrement. *)
Definition new (uniqueCode dummy : Z) (nx dt : Z -> Z) (nodes : list Z) : mem :=
  let code := u64 (uniqueCode - 1) in
  set_next (mkMem dummy dummy dummy 0 code nx dt nodes) dummy code.

Definition GetUseSize (m : mem) : Z := _size m.

(** Where a thread is in [Enqueue] or [Dequeue], with its local variables. *)
Inductive pc :=
  | Idle
  | EnqAlloc (d : Z)
  | EnqData (n d : Z)
  | EnqNext (n : Z)
  | EnqTail (n : Z)
  | EnqRead (n bkTail : Z)
  | EnqCas (n bkTail : Z)
  | EnqHelp (n bkTail bkNext : Z)
  | EnqSwing (n bkTail : Z)
  | EnqSize
  | DeqSize
  | DeqRestore
  | DeqHead
  | DeqNext (bkHead : Z)
  | DeqCheck (bkHead : Z)
  | DeqTail (bkHead bkNext : Z)
  | DeqTailNext (bkHead bkNext bkTail : Z)
  | DeqHelp (bkTail bkTailNext : Z)
  | DeqData (bkHead bkNext : Z)
  | DeqCas (bkHead bkNext v : Z)
  | DeqFree (p v : Z)
  | Got (r : option Z).

Definition Enqueue (d : Z) : pc := EnqAlloc d.
Definition Dequeue : pc := DeqSize.

Definition cas_tail (m : mem) (old p : Z) : mem :=
  if _tail m =? old then set_tail m (pack p (tag_of old + 1)) else m.

(** One access to shared memory. A pool without a node makes the caller wait. *)
Definition step (c : pc) (m : mem) : pc * mem :=
  match c with
  | Idle => (Idle, m)
  | EnqAlloc d => match pool m with n :: l => (EnqData n d, set_pool m l) | [] => (EnqAlloc d, m) end
  | EnqData n d => (EnqNext n, set_data m n d)
  | EnqNext n => (EnqTail n, set_next m n (_myCode m))
  | EnqTail n => (EnqRead n (_tail m), m)
  | EnqRead n bkTail =>
      let bkNext := next m (ptr_of bkTail) in
      (if bkNext =? _myCode m then EnqCas n bkTail else EnqHelp n bkTail bkNext, m)
  | EnqCas n bkTail =>
      if next m (ptr_of bkTail) =? _myCode m then (EnqSwing n bkTail, set_next m (ptr_of bkTail) n)
      else (EnqTail n, m)
  | EnqHelp n bkTail bkNext => (EnqTail n, cas_tail m bkTail bkNext)
  | EnqSwing n bkTail => (EnqSize, cas_tail m bkTail n)
  | EnqSize => (Idle, set_size m (i32 (_size m + 1)))
  | DeqSize =>
      let n := i32 (_size m - 1) in (if n <? 0 then DeqRestore else DeqHead, set_size m n)
  | DeqRestore => (Got None, set_size m (i32 (_size m + 1)))
  | DeqHead => (DeqNext (_head m), m)
  | DeqNext bkHead =>
      let bkNext := next m (ptr_of bkHead) in
      (if bkNext =? _myCode m then DeqCheck bkHead else DeqTail bkHead bkNext, m)
  | DeqCheck bkHead => (if _head m =? bkHead then Got None else DeqHead, m)
  | DeqTail bkHead bkNext => (DeqTailNext bkHead bkNext (_tail m), m)
  | DeqTailNext bkHead bkNext bkTail =>
      let bkTailNext := next m (ptr_of bkTail) in
      (if bkTailNext =? _myCode m then DeqData bkHead bkNext else DeqHelp bkTail bkTailNext, m)
  | DeqHelp bkTail bkTailNext => (DeqHead, cas_tail m bkTail bkTailNext)
  | DeqData bkHead bkNext => (DeqCas bkHead bkNext (data m bkNext), m)
  | DeqCas bkHead bkNext v =>
      if _head m =? bkHead then (DeqFree (ptr_of bkHead) v, set_head m (pack bkNext (tag_of bkHead + 1)))
      else (DeqHead, m)
  | DeqFree p v => (Got (Some v), if p =? _dummy m then m else set_pool m (p :: pool m))
  | Got r => (Got r, m)
  end.

(** ** A thread alone *)
Fixpoint alone (k : nat) (c : pc) (m : mem) : pc * mem :=
  match k with
  | O => (c, m)
  | S k => match c with
           | Idle | Got _ => (c, m)
           | _ => let '(c, m) := step c m in alone k c m
           end
  end.

Inductive call := CallEnqueue (d : Z) | CallDequeue.

(** Eleven accesses are enough for a call that is not disturbed. *)
Fixpoint calls (ks : list call) (m : mem) : option (list (option Z) * mem) :=
  match ks with
  | [] => Some ([], m)
  | CallEnqueue d :: ks =>
      match alone 11 (Enqueue d) m with (Idle, m) => calls ks m | _ => None end
  | CallDequeue :: ks =>
      match alone 11 Dequeue m with
      | (Got r, m) => '(rs, m) ← calls ks m; Some (r :: rs, m)
      | _ => None
      end
  end.

(** The reference: a list, oldest first. *)
Fixpoint spec_calls (l : list Z) (ks : list call) : list (option Z) * list Z :=
  match ks with
  | [] => ([], l)
  | CallEnqueue d :: ks => spec_calls (l ++ [d]) ks
  | CallDequeue :: ks =>
      match l with
      | [] => let '(rs, l) := spec_calls [] ks in (None :: rs, l)
      | x :: l => let '(rs, l) := spec_calls l ks in (Some x :: rs, l)
      end
  end.

(** ** The queue in memory

    [links code nx p ns]: the nodes after [p] are [ns], and the last has the code. *)
Fixpoint links (code : Z) (nx : Z -> Z) (p : Z) (ns : list Z) : Prop :=
  match ns with
  | [] => nx p = code
  | n :: ns => nx p = n /\ links code nx n ns
  end.

Definition node (n : Z) : Prop := 0 < n < 2 ^ 47.

Record queue_is (m : mem) (h : Z) (ns : list Z) : Prop := mkQueue {
  q_code : 2 ^ 47 <= _myCode m;
  q_head : exists t, _head m = pack h t;
  q_tail : exists t, _tail m = pack (List.last ns h) t;
  q_links : links (_myCode m) (next m) h ns;
  q_nodes : Forall node (h :: ns ++ pool m);
  q_nodup : NoDup (h :: ns ++ pool m);
  q_dummy : _dummy m ∉ ns ++ pool m;
  q_size : _size m = Z.of_nat (length ns);
}.


(** ** Lemmas *)
Lemma links_last code nx h ns : links code nx h ns -> nx (List.last ns h) = code.
Proof.
  revert h. induction ns as [|n ns IH]; intros h Hl; [exact Hl|]. destruct Hl as [_ Hl].
  specialize (IH n Hl). destruct ns as [|y ns]; [exact Hl|].
  assert (E : forall a b : Z, List.last (y :: ns) a = List.last (y :: ns) b).
  { clear. induction ns as [|z ns IH] using rev_ind; intros a b; [done|].
    rewrite app_comm_cons, !List.last_last. done. }
  cbn [List.last] in *. rewrite (E h n). exact IH.
Qed.

Lemma last_elem (h : Z) ns : List.last ns h ∈ h :: ns.
Proof.
  destruct ns as [|n ns _] using rev_ind; [left|]. rewrite List.last_last. right. apply elem_of_app. right. left.
Qed.

Lemma last_node h ns : node h -> Forall node ns -> node (List.last ns h).
Proof.
  intros Hh Hns. pose proof (last_elem h ns) as [->|Hin]%elem_of_cons; [done|].
  rewrite Forall_forall in Hns. auto.
Qed.

(** Linking a new node behind the last one. *)
Lemma links_snoc code nx h ns n :
  links code nx h ns -> NoDup (h :: ns ++ [n]) -> code <> n ->
  links code (fun p => if p =? List.last ns h then n else if p =? n then code else nx p) h (ns ++ [n]).
Proof.
  intros Hl Hnd Hc. set (t := List.last ns h).
  assert (Hnt : n <> t).
  { intros E. pose proof (last_elem h ns) as Hin. fold t in Hin. rewrite <- E in Hin.
    rewrite app_comm_cons in Hnd. apply NoDup_app in Hnd as (_ & Hd & _). apply (Hd n Hin). left. }
  assert (Hgen : forall x ms, links code nx x ms -> NoDup (x :: ms) -> (n ∉ x :: ms) -> List.last ms x = t ->
    links code (fun p => if p =? t then n else if p =? n then code else nx p) x (ms ++ [n])).
  { intros x ms. revert x. induction ms as [|y ms IH]; intros x Hx Hndx Hnx Hlast; cbn [app links].
    - cbn in Hlast. replace (x =? t) with true by lia. replace (n =? t) with false by lia. rewrite Z.eqb_refl. done.
    - destruct Hx as [Hxy Hy]. apply NoDup_cons in Hndx as [Hxn Hndy]. split.
      + replace (x =? t) with false.
        * replace (x =? n) with false; [done|]. symmetry. apply Z.eqb_neq. intros ->. apply Hnx. left.
        * symmetry. apply Z.eqb_neq. intros ->. apply Hxn. rewrite <- Hlast.
          destruct ms as [|z ms _] using rev_ind; [left|]. rewrite app_comm_cons, List.last_last.
          right. apply elem_of_app. right. left.
      + apply IH; [done|done| |].
        * intros Hy'. apply Hnx. right. done.
        * rewrite <- Hlast. destruct ms as [|z ms _] using rev_ind; [done|].
          rewrite app_comm_cons, !List.last_last. done. }
  rewrite app_comm_cons in Hnd. apply NoDup_app in Hnd as (Hnd & Hd & _).
  apply Hgen; [done|done| |done]. intros Hin. apply (Hd n Hin). left.
Qed.

Lemma node_range n : node n -> 0 <= n < 2 ^ 47.
Proof. unfold node. lia. Qed.

Lemma alone_S k c m : (forall r, c <> Got r) -> c <> Idle -> alone (S k) c m = alone k (step c m).1 (step c m).2.
Proof. intros H1 H2. destruct c; try congruence; try (exfalso; eapply H1; reflexivity); cbn [alone]; destruct (step _ m); done. Qed.

(** [run_one] runs one access of the thread. *)
Ltac run_one := rewrite alone_S by done; cbn [step fst snd].

Lemma Enqueue_alone m h ns d n nodes :
  queue_is m h ns -> pool m = n :: nodes -> Z.of_nat (length ns) + 1 < 2 ^ 31 ->
  exists m', alone 11 (Enqueue d) m = (Idle, m') /\ queue_is m' h (ns ++ [n]) /\
    data m' <$> (ns ++ [n]) = (data m <$> ns) ++ [d] /\
    pool m' = nodes /\ _dummy m' = _dummy m.
Proof.
  intros [] Hp Hs. rewrite Hp in *. set (t := List.last ns h). fold t in q_tail0. destruct q_tail0 as [g Ht].
  apply Forall_cons in q_nodes0 as [Hh Hns]. apply Forall_app in Hns as [Hns Hpool].
  apply Forall_cons in Hpool as [Hn Hpool].
  assert (Htn : node t) by (apply last_node; done).
  assert (Hnd : NoDup (h :: ns ++ [n])).
  { rewrite (cons_middle n), app_assoc, app_comm_cons in q_nodup0. apply NoDup_app in q_nodup0. apply q_nodup0. }
  assert (Hnt : n <> t).
  { intros E. pose proof (last_elem h ns) as Hin. fold t in Hin. rewrite <- E in Hin.
    rewrite app_comm_cons in Hnd. apply NoDup_app in Hnd as (_ & Hd & _). apply (Hd n Hin). left. }
  assert (Hnx : next m t = _myCode m) by (apply links_last, q_links0).
  pose proof (node_range _ Htn) as Htr. pose proof (node_range _ Hn) as Hnr.
  eexists. split.
  - unfold Enqueue. run_one. rewrite Hp. cbn [fst snd]. run_one. run_one. run_one. cbn [_tail set_next set_data set_pool].
    rewrite Ht. run_one. rewrite TaggedStack.ptr_of_pack by done.
    cbn [next data _myCode set_next set_data set_pool]. replace (t =? n) with false by lia.
    rewrite Hnx, Z.eqb_refl. run_one. rewrite TaggedStack.ptr_of_pack by done.
    cbn [next data _myCode set_next set_data set_pool]. replace (t =? n) with false by lia.
    rewrite Hnx, Z.eqb_refl. cbn [fst snd]. run_one. unfold cas_tail. cbn [_tail set_next set_data set_pool].
    rewrite Ht, Z.eqb_refl. run_one. reflexivity.
  - cbn [_size set_tail set_next set_data set_pool set_size]. split; [split; cbn|split; [|split; done]].
    + done.
    + done.
    + rewrite List.last_last. eauto.
    + apply links_snoc; [done|done|]. unfold node in *. lia.
    + rewrite <- app_assoc. cbn. apply Forall_cons. split; [done|]. apply Forall_app. split; [done|]. apply Forall_cons. done.
    + rewrite <- app_assoc. exact q_nodup0.
    + rewrite <- app_assoc. exact q_dummy0.
    + rewrite q_size0, length_app. cbn. rewrite (s_small 32) by lia. lia.
    + cbn. rewrite fmap_app. cbn. rewrite Z.eqb_refl. f_equal. apply list_fmap_ext. intros i x Hx.
      replace (x =? n) with false; [done|]. symmetry. apply Z.eqb_neq. intros ->.
      apply (list_elem_of_lookup_2 _ i) in Hx. apply NoDup_cons in Hnd as [_ Hnd].
      apply NoDup_app in Hnd as (_ & Hd & _). apply (Hd n Hx). left.
Qed.

Lemma Dequeue_empty_alone m h :
  queue_is m h [] -> exists m', alone 11 Dequeue m = (Got None, m') /\ queue_is m' h [] /\
    data m' = data m /\ pool m' = pool m /\ _dummy m' = _dummy m.
Proof.
  intros []. cbn [length] in q_size0. change (Z.of_nat 0) with 0 in q_size0.
  exists (set_size (set_size m (i32 (0 - 1))) (i32 (i32 (0 - 1) + 1))).
  split; [|split; [split; cbn; done|done]].
  unfold Dequeue. run_one. rewrite q_size0. change (i32 (0 - 1) <? 0) with true. run_one. reflexivity.
Qed.

Lemma Dequeue_alone m h n ns :
  queue_is m h (n :: ns) -> Z.of_nat (length ns) + 1 < 2 ^ 31 ->
  exists m', alone 11 Dequeue m = (Got (Some (data m n)), m') /\ queue_is m' n ns /\ data m' = data m /\
    pool m' = (if h =? _dummy m then pool m else h :: pool m) /\ _dummy m' = _dummy m.
Proof.
  intros [] Hs. destruct q_head0 as [g Hh]. destruct q_tail0 as [g' Ht]. destruct q_links0 as [Hhn Hl].
  apply Forall_cons in q_nodes0 as [Hhd Hns]. cbn [app] in Hns. apply Forall_cons in Hns as [Hn Hns].
  pose proof (node_range _ Hhd) as Hhr. pose proof (node_range _ Hn) as Hnr.
  set (t := List.last (n :: ns) h) in *.
  assert (Et : t = List.last ns n).
  { unfold t. destruct ns as [|x ns _] using rev_ind; [done|]. rewrite app_comm_cons, !List.last_last. done. }
  assert (Htn : node t) by (rewrite Et; apply Forall_app in Hns as [Hns _]; apply last_node; done).
  pose proof (node_range _ Htn) as Htr.
  assert (Hnx : next m t = _myCode m) by (rewrite Et; apply links_last, Hl).
  assert (Hsz : i32 (_size m - 1) = Z.of_nat (length ns)).
  { rewrite q_size0. cbn [length]. rewrite (s_small 32) by lia. lia. }
  apply NoDup_cons in q_nodup0 as [Hhnd Hnd].
  exists (let m1 := set_head (set_size m (Z.of_nat (length ns))) (pack n (tag_of (pack h g) + 1)) in
          if h =? _dummy m then m1 else set_pool m1 (h :: pool m)).
  split.
  - unfold Dequeue. run_one. rewrite Hsz. replace (Z.of_nat (length ns) <? 0) with false by lia.
    run_one. cbn [_head set_size]. rewrite Hh. run_one. rewrite TaggedStack.ptr_of_pack by done.
    cbn [next _myCode set_size]. rewrite Hhn. replace (n =? _myCode m) with false by (unfold node in *; lia).
    run_one. cbn [_tail set_size]. rewrite Ht. run_one. rewrite TaggedStack.ptr_of_pack by done.
    cbn [next _myCode set_size]. rewrite Hnx, Z.eqb_refl. run_one. run_one. cbn [_head set_size data]. rewrite Hh, Z.eqb_refl.
    cbn [fst snd]. run_one. rewrite TaggedStack.ptr_of_pack by done. reflexivity.
  - destruct (h =? _dummy m) eqn:Ed; split; [split; cbn; try done|done|split; cbn; try done|done].
    all: try (rewrite <- Et; eauto).
    all: try (eexists; reflexivity).
    + apply Forall_cons. done.
    + apply not_elem_of_cons in q_dummy0 as [_ Hd]. done.
    + rewrite <- Permutation_middle, Permutation_swap. apply Forall_cons. split; [done|]. apply Forall_cons. done.
    + rewrite <- Permutation_middle, Permutation_swap. apply NoDup_cons. done.
    + apply Z.eqb_neq in Ed. apply not_elem_of_cons in q_dummy0 as [_ Hd].
      rewrite <- Permutation_middle. apply not_elem_of_cons. split; [congruence|done].
Qed.

(** The nodes of the pool and behind the head, and the head unless it is [_dummy]. *)
Definition stock (m : mem) (h : Z) (ns : list Z) : nat :=
  (length ns + length (pool m) + if (h =? _dummy m)%Z then 0 else 1)%nat.

(** The longest the list is while the calls run. *)
Fixpoint peak (l : list Z) (ks : list call) : nat :=
  match ks with
  | [] => length l
  | CallEnqueue d :: ks => peak (l ++ [d]) ks
  | CallDequeue :: ks => Nat.max (length l) (peak (tail l) ks)
  end.

Lemma peak_length l ks : (length l <= peak l ks)%nat.
Proof.
  revert l. induction ks as [|[d|] ks IH]; intros l; cbn [peak]; [lia| |lia].
  specialize (IH (l ++ [d])). rewrite length_app in IH. lia.
Qed.

Lemma queue_calls_spec ks m h ns :
  queue_is m h ns -> (peak (data m <$> ns) ks < stock m h ns)%nat -> Z.of_nat (peak (data m <$> ns) ks) < 2 ^ 31 ->
  exists rs m' h' ns', calls ks m = Some (rs, m') /\ queue_is m' h' ns' /\
    spec_calls (data m <$> ns) ks = (rs, data m' <$> ns').
Proof.
  revert m h ns. induction ks as [|[d|] ks IH]; intros m h ns Hq Hk Hb; cbn [calls spec_calls peak] in *.
  - exists [], m, h, ns. done.
  - pose proof (peak_length ((data m <$> ns) ++ [d]) ks) as Hl. rewrite length_app, length_fmap in Hl. cbn in Hl.
    destruct (pool m) as [|n nodes] eqn:Hp.
    { unfold stock in Hk. rewrite Hp in Hk. cbn in Hk. destruct (h =? _dummy m)%Z; lia. }
    destruct (Enqueue_alone m h ns d n nodes) as (m' & -> & Hq' & Hd & Hp' & Hdm); [done|done|lia|].
    rewrite <- Hd in *. apply (IH m' h); [done| |done].
    unfold stock in *. rewrite Hdm, Hp', length_app. rewrite Hp in Hk. cbn [length] in *. lia.
  - destruct ns as [|n ns]; cbn [fmap list_fmap tail length] in *.
    + destruct (Dequeue_empty_alone m h Hq) as (m' & -> & Hq' & Hd & Hp & Hdm).
      destruct (IH m' h []) as (rs & m2 & h' & ns' & Hc & Hq2 & Hs); [done| |cbn; lia|].
      { unfold stock in *. rewrite Hdm, Hp. cbn [fmap list_fmap length] in *. lia. }
      cbn [fmap list_fmap] in Hs. rewrite Hc, Hs. eauto 8.
    + destruct (Dequeue_alone m h n ns) as (m' & -> & Hq' & Hd & Hp & Hdm); [done|rewrite length_fmap in *; lia|].
      rewrite <- Hd in *.
      destruct (IH m' n ns) as (rs & m2 & h' & ns' & Hc & Hq2 & Hs); [done| |lia|].
      { unfold stock in *. rewrite Hdm, Hp. assert (n <> _dummy m).
        { intros E. destruct Hq. apply not_elem_of_cons in q_dummy0 as [Hn _]. congruence. }
        replace (n =? _dummy m)%Z with false by lia. destruct (h =? _dummy m)%Z; cbn [length] in *; lia. }
      cbn. rewrite Hc, Hs. eauto 8.
Qed.

(** A thread alone that calls [Enqueue] and [Dequeue] in any order on a new queue
    gets from every [Dequeue] what a list gives, first in first out, with false on the
    empty list; every call returns, and [GetUseSize] is the length of the list, as long
    as the pool has one node more than the queue is ever long and the code of the queue
    is no address. *)
Theorem queue_fifo_alone (uniqueCode dummy : Z) (nx dt : Z -> Z) (nodes : list Z) (ks : list call)
    (Hcode : 2 ^ 47 <= u64 (uniqueCode - 1)) (Hnodes : Forall node (dummy :: nodes))
    (Hnd : NoDup (dummy :: nodes)) (Hpeak : (peak [] ks < length nodes)%nat) (Hlong : Z.of_nat (peak [] ks) < 2 ^ 31) :
  exists rs m' l,
    calls ks (new uniqueCode dummy nx dt nodes) = Some (rs, m') /\
    spec_calls [] ks = (rs, l) /\ GetUseSize m' = Z.of_nat (length l).
Proof.
  apply Forall_cons in Hnodes as [Hd Hn]. apply NoDup_cons in Hnd as [Hdn Hnd].
  set (m := new uniqueCode dummy nx dt nodes).
  destruct (queue_calls_spec ks m dummy []) as (rs & m' & h' & ns' & Hc & Hq & Hs).
  - split; cbn; try done.
    + exists 0. unfold pack, TaggedStack.pack. rewrite Z.shiftl_0_l. symmetry. apply Z.lor_0_r.
    + exists 0. unfold pack, TaggedStack.pack. rewrite Z.shiftl_0_l. symmetry. apply Z.lor_0_r.
    + rewrite Z.eqb_refl. done.
    + apply Forall_cons. done.
    + apply NoDup_cons. done.
  - unfold stock. cbn. rewrite Z.eqb_refl. cbn in Hpeak. lia.
  - done.
  - exists rs, m', (data m' <$> ns'). split; [done|]. split; [exact Hs|].
    unfold GetUseSize. destruct Hq. rewrite length_fmap. done.
Qed.

Lemma queue_fifo_alone_witness :
  exists rs m' l,
    calls [CallEnqueue 7; CallEnqueue 8; CallDequeue; CallDequeue; CallDequeue]
      (new 0 0x1000 (fun _ => 0) (fun _ => 0) [0x2000; 0x3000; 0x4000]) = Some (rs, m') /\
    spec_calls [] [CallEnqueue 7; CallEnqueue 8; CallDequeue; CallDequeue; CallDequeue] = (rs, l) /\
    GetUseSize m' = Z.of_nat (length l).
Proof.
  apply queue_fifo_alone.
  - vm_compute. discriminate.
  - repeat constructor.
  - apply (bool_decide_unpack _). reflexivity.
  - cbn. lia.
  - reflexivity.
Defined.

(** ** Two threads *)
Inductive event := Call (i : nat) (c : pc) | Run (i : nat).

(** A thread calls when it is out of its last call; a thread in a call runs. *)
Definition exec_one (e : event) (s : list pc * mem) : option (list pc * mem) :=
  let '(ts, m) := s in
  match e with
  | Call i c =>
      match ts !! i with
      | Some Idle | Some (Got _) => Some (<[i := c]> ts, m)
      | _ => None
      end
  | Run i => c ← ts !! i; let '(c', m') := step c m in Some (<[i := c']> ts, m')
  end.

Fixpoint exec (es : list event) (s : list pc * mem) : option (list pc * mem) :=
  match es with
  | [] => Some s
  | e :: es => s ← exec_one e s; exec es s
  end.

(** The values in the queue, from the node behind the head on, read at most [k] far. *)
Fixpoint contents_from (k : nat) (m : mem) (p : Z) : list Z :=
  match k with
  | O => []
  | S k => if next m p =? _myCode m then [] else data m (next m p) :: contents_from k m (next m p)
  end.
Definition contents (k : nat) (m : mem) : list Z := contents_from k m (ptr_of (_head m)).

Definition runs (i k : nat) : list event := replicate k (Run i).

(** Thread 0 sleeps in [Enqueue] before its exchange, while thread 1 dequeues, passes
    the node on and gets it back for an [Enqueue] that has not linked it yet. *)
Definition late_link (a b : Z) : list event :=
  [Call 1 (Enqueue 1)] ++ runs 1 8 ++ [Call 0 (Enqueue a)] ++ runs 0 5 ++
  [Call 1 Dequeue] ++ runs 1 8 ++ [Call 1 (Enqueue 2)] ++ runs 1 8 ++ [Call 1 Dequeue] ++ runs 1 8 ++
  [Call 1 (Enqueue b)] ++ runs 1 3 ++ runs 0 3.

(** Thread 0 dequeues, thread 1 ends its [Enqueue], and thread 0 dequeues twice more. *)
Definition late_dequeue (a b : Z) : list event :=
  late_link a b ++ [Call 0 Dequeue] ++ runs 0 4 ++ runs 1 5.
Definition late_dequeues (a b : Z) : list event :=
  late_dequeue a b ++ [Call 0 Dequeue] ++ runs 0 14 ++ [Call 0 Dequeue] ++ runs 0 2.

(** Where the threads are after a schedule, what the queue holds and its size. *)
Definition observe (k : nat) (es : list event) (s : list pc * mem) : option (list pc * list Z * Z) :=
  '(ts, m) ← exec es s; Some (ts, contents k m, GetUseSize m).

(** Two threads can break the queue, since [Enqueue] exchanges the [next] of a node
    by the code alone: a node that was dequeued, freed and allocated again is a private
    node of another [Enqueue], and linking to it succeeds. The [Enqueue] of [a] has
    returned, and the next [Dequeue] says that the queue is empty; it does not give back
    the size it took. When both [Enqueue]s have returned the queue holds [b] and [a] but
    [GetUseSize] is 1, and after one [Dequeue] the next says empty with [a] inside. *)
Theorem enqueue_to_private_node (a b : Z) (nx dt : Z -> Z) :
  let start := ([Idle; Idle], new 0 0x1000 nx dt [0x2000; 0x3000; 0x4000; 0x5000]) in
  observe 5 (late_link a b) start = Some ([Idle; EnqTail 0x2000], [], 1) /\
  observe 5 (late_dequeue a b) start = Some ([Got None; Idle], [b; a], 1) /\
  observe 5 (late_dequeues a b) start = Some ([Got None; Idle], [a], 0).
Proof. split; [|split]; vm_compute; reflexivity. Qed.

End CLockFreeQueue.
