(* ===== verification/QueueInterleaving.v ===== *)
(** * The lock-free queue under interleaving

    Any number of threads in [Enqueue] and [Dequeue] of one [CLockFreeQueue], interleaved
    at every access to shared memory, while other queues use the same static
    [poolManager]: which free node it gives is not fixed, and a node may be away in
    another queue and come back. [enqueue_to_private_node] of [LockFreeQueue] shows what
    goes wrong when a node is allocated that an [Enqueue] still takes for the last one;
    here is the step relation without that, and what threads know in it. [QueueLinear]
    has the invariant and the theorem. *)
From S2P Require Import Prelude.
From S2P Require Import TaggedStack.
From S2P Require Import LockFreeQueue.
From stdpp Require Import prelude gmap list.
From Stdlib Require Import ZArith Lia.
Open Scope Z_scope.

Module QueueInterleaving.
Import CLockFreeQueue.

(** ** Operations taking effect *)
Inductive op := OpEnqueue (d : Z) | OpDequeue (d : Z) | OpRefuse.

(** [Dequeue] may refuse at any time as far as the list goes. *)
Definition apply_op (l : list Z) (o : op) : option (list Z) :=
  match o, l with
  | OpEnqueue d, l => Some (l ++ [d])
  | OpDequeue d, x :: l => if x =? d then Some l else None
  | OpDequeue _, [] => None
  | OpRefuse, l => Some l
  end.

Fixpoint replay (l : list Z) (os : list op) : option (list Z) :=
  match os with
  | [] => Some l
  | o :: os => l ← apply_op l o; replay l os
  end.

#[export] Instance op_eq_dec : EqDecision op.
Proof. solve_decision. Defined.

(** [arg] is the argument of the [Enqueue] under way, [took] the operation as which the
    call under way took effect. [seenHead] and [seenTail] are the counts of changes of
    [_head] and [_tail] when the thread last read them. *)
Record thread := mkThread { at_pc : pc; arg : Z; took : option op; seenHead : Z; seenTail : Z }.

(** [pops] and [moves] count the changes of [_head] and [_tail]; [away] are the nodes
    other queues have. *)
Record config := mkConfig {
  shared : mem;
  threads : list thread;
  hist : list op;
  pops : Z;
  moves : Z;
  away : list Z;
}.

Definition effect (t : thread) (m : mem) : list op :=
  match at_pc t with
  | EnqCas n bkTail => if next m (ptr_of bkTail) =? _myCode m then [OpEnqueue (arg t)] else []
  | DeqSize => if i32 (_size m - 1) <? 0 then [OpRefuse] else []
  | DeqCheck bkHead => if _head m =? bkHead then [OpRefuse] else []
  | DeqCas bkHead bkNext v => if _head m =? bkHead then [OpDequeue v] else []
  | _ => []
  end.

Definition result_of (os : list op) (old : option op) : option op :=
  match os with [o] => Some o | _ => old end.

Definition moves_head (t : thread) (m : mem) : Z :=
  match at_pc t with DeqCas w _ _ => if _head m =? w then 1 else 0 | _ => 0 end.
Definition moves_tail (t : thread) (m : mem) : Z :=
  match at_pc t with
  | EnqHelp _ w _ | EnqSwing _ w | DeqHelp w _ => if _tail m =? w then 1 else 0
  | _ => 0
  end.

Definition next_thread (c : config) (t : thread) : thread :=
  mkThread (step (at_pc t) (shared c)).1 (arg t) (result_of (effect t (shared c)) (took t))
    (match at_pc t with DeqHead => pops c | _ => seenHead t end)
    (match at_pc t with EnqTail _ | DeqTail _ _ => moves c | _ => seenTail t end).

Definition advance (c : config) (i : nat) (t : thread) : config :=
  mkConfig (step (at_pc t) (shared c)).2 (<[i := next_thread c t]> (threads c))
    (hist c ++ effect t (shared c)) (pops c + moves_head t (shared c)) (moves c + moves_tail t (shared c)) (away c).

Definition call (c : config) (i : nat) (t : thread) (p : pc) (d : Z) : config :=
  mkConfig (shared c) (<[i := mkThread p d None (seenHead t) (seenTail t)]> (threads c)) (hist c)
    (pops c) (moves c) (away c).

(** The tail an [Enqueue] read and is about to link to. *)
Definition exposed (t : thread) : list Z :=
  match at_pc t with EnqRead _ w | EnqCas _ w => [ptr_of w] | _ => [] end.
Definition unexposed (c : config) (n : Z) : Prop :=
  forall j u, threads c !! j = Some u -> n ∉ exposed u.

(** A node is not allocated while an [Enqueue] is about to link to it; and no thread
    sleeps through [2^17] changes of a word between reading and exchanging it. *)
Definition in_window (c : config) (t : thread) : Prop :=
  match at_pc t with
  | EnqAlloc _ => match pool (shared c) with n :: _ => unexposed c n | [] => True end
  | EnqHelp _ _ _ | EnqSwing _ _ | DeqHelp _ _ => moves c - seenTail t < 2 ^ 17
  | DeqCheck _ | DeqCas _ _ _ => pops c - seenHead t < 2 ^ 17
  | _ => True
  end.

Definition out (p : pc) : bool := match p with Idle | Got _ => true | _ => false end.

(** [sched_pool]: the pool gives its nodes in another order, and nodes go to other queues
    and come back. [sched_other]: another queue writes to a node it has. *)
Inductive sched_step : config -> config -> Prop :=
  | sched_enqueue c i t d :
      threads c !! i = Some t -> out (at_pc t) = true -> sched_step c (call c i t (Enqueue d) d)
  | sched_dequeue c i t :
      threads c !! i = Some t -> out (at_pc t) = true -> sched_step c (call c i t Dequeue 0)
  | sched_run c i t :
      threads c !! i = Some t -> in_window c t -> sched_step c (advance c i t)
  | sched_pool c l a :
      l ++ a ≡ₚ pool (shared c) ++ away c -> (forall n, n ∈ a -> n ∈ away c \/ unexposed c n) ->
      sched_step c (mkConfig (set_pool (shared c) l) (threads c) (hist c) (pops c) (moves c) a)
  | sched_other c n v d :
      n ∈ away c ->
      sched_step c (mkConfig (set_data (set_next (shared c) n v) n d) (threads c) (hist c) (pops c) (moves c) (away c)).

(** A constructed queue, distinct nodes in the pool and in other queues, idle threads. *)
Definition initial (c : config) : Prop :=
  (exists uniqueCode dummy nx dt nodes, shared c = new uniqueCode dummy nx dt nodes /\
     2 ^ 47 <= u64 (uniqueCode - 1) /\ Forall node (dummy :: nodes ++ away c) /\ NoDup (dummy :: nodes ++ away c) /\
     Z.of_nat (length (dummy :: nodes ++ away c)) + Z.of_nat (length (threads c)) < 2 ^ 31) /\
  hist c = [] /\ pops c = 0 /\ moves c = 0 /\ Forall (fun t => at_pc t = Idle) (threads c).

Definition reachable (c : config) : Prop := exists c0, initial c0 /\ rtc sched_step c0 c.

(** ** What the threads own, claim and know *)

(** The node an [Enqueue] has not linked yet, and the one a [Dequeue] is giving back. *)
Definition private (t : thread) : list Z :=
  match at_pc t with
  | EnqData n _ | EnqNext n | EnqTail n | EnqRead n _ | EnqCas n _ | EnqHelp n _ _ => [n]
  | _ => []
  end.
Definition owned (t : thread) : list Z :=
  match at_pc t with DeqFree p _ => [p] | _ => private t end.

(** [Dequeue]s that were admitted have yet to take an element. They, the [Enqueue]s that
    linked their element and have not counted it, and refused [Dequeue]s that have not
    restored the size make the difference between the size and the length. *)
Definition admitted (t : thread) : list unit :=
  match at_pc t with
  | DeqHead | DeqNext _ | DeqCheck _ | DeqTail _ _ | DeqTailNext _ _ _ | DeqHelp _ _
  | DeqData _ _ | DeqCas _ _ _ => [()]
  | _ => []
  end.
Definition claims (t : thread) : list unit :=
  match at_pc t with EnqSwing _ _ | EnqSize | DeqRestore => [()] | _ => admitted t end.

Definition all {A} (f : thread -> list A) (ts : list thread) : list A := concat (f <$> ts).
#[local] Arguments all : simpl never.

(** With [h] and [ns] the nodes from the head on: [q] is in the queue or was. *)
Definition known (m : mem) (h : Z) (ns : list Z) (q : Z) : Prop :=
  q ∈ h :: ns \/ next m q <> _myCode m.
(** [q] is in the queue with the tail at it or behind. *)
Definition passed (m : mem) (h : Z) (ns : list Z) (q : Z) : Prop :=
  exists k j, (k <= j)%nat /\ (h :: ns) !! k = Some q /\ (h :: ns) !! j = Some (ptr_of (_tail m)).

(** [w] is what [cell] was when the count was [seen]; it still is when no change has
    been counted since. *)
Definition word (cell : Z) (count seen w : Z) : Prop :=
  seen <= count /\ (exists p, node p /\ w = pack p seen) /\ (seen = count -> w = cell).
(** [b] was next to the tail [w]. *)
Definition tail_link (m : mem) (M seen w b : Z) : Prop :=
  word (_tail m) M seen w /\ b <> _myCode m /\ (seen = M -> next m (ptr_of w) = b).

(** [P] and [M] are the counts of changes of [_head] and [_tail]. *)
Definition knows (P M : Z) (m : mem) (h : Z) (ns : list Z) (t : thread) : Prop :=
  let filled n := data m n = arg t /\ next m n = _myCode m in
  let headw w := word (_head m) P (seenHead t) w in
  match at_pc t with
  | EnqAlloc d | EnqData _ d => d = arg t
  | EnqNext n => data m n = arg t
  | EnqTail n => filled n
  | EnqRead n w | EnqCas n w => filled n /\ word (_tail m) M (seenTail t) w /\ known m h ns (ptr_of w)
  | EnqHelp n w b => filled n /\ tail_link m M (seenTail t) w b
  | EnqSwing n w => tail_link m M (seenTail t) w n
  | DeqNext w => headw w
  | DeqCheck w => headw w /\ seenHead t <> P
  | DeqTail w b => headw w /\ (seenHead t = P -> head ns = Some b)
  | DeqTailNext w b w' =>
      headw w /\ word (_tail m) M (seenTail t) w' /\ (seenHead t = P -> head ns = Some b /\ passed m h ns (ptr_of w'))
  | DeqHelp w' b => tail_link m M (seenTail t) w' b
  | DeqData w b => headw w /\ (seenHead t = P -> head ns = Some b /\ ptr_of (_tail m) <> h)
  | DeqCas w b v => headw w /\ (seenHead t = P -> head ns = Some b /\ ptr_of (_tail m) <> h /\ data m b = v)
  | _ => True
  end.

(** A call takes effect once, between its begin and its return, as what it returns. *)
Definition on_time (t : thread) : Prop :=
  match at_pc t with
  | Idle => True
  | EnqSwing _ _ | EnqSize => took t = Some (OpEnqueue (arg t))
  | DeqRestore | Got None => took t = Some OpRefuse
  | DeqFree _ v | Got (Some v) => took t = Some (OpDequeue v)
  | _ => took t = None
  end.

Definition len {A} (l : list A) : Z := Z.of_nat (length l).

(** ** Facts on the chain *)
Lemma i32_add a b : i32 (i32 a + b) = i32 (a + b).
Proof. apply s_congr. rewrite <- u_add_l, u_s, u_add_l. done. Qed.

Lemma chain_last code nx h ns q : links code nx h ns -> q ∈ h :: ns -> nx q = code -> NoDup (h :: ns) -> Forall node (h :: ns) ->
  2 ^ 47 <= code -> q = List.last ns h.
Proof.
  revert h. induction ns as [|n ns IH]; intros h Hl Hq Hc Hnd Hn Hcode.
  - apply list_elem_of_singleton in Hq. done.
  - destruct Hl as [Hhn Hl]. apply Forall_cons in Hn as [_ Hn]. apply NoDup_cons in Hnd as [_ Hnd].
    apply elem_of_cons in Hq as [->|Hq].
    + apply Forall_cons in Hn as [Hn _]. unfold node in Hn. lia.
    + rewrite (IH n Hl Hq Hc Hnd Hn Hcode). destruct ns as [|y ns _] using rev_ind; [done|].
      rewrite app_comm_cons, !List.last_last. done.
Qed.

Lemma chain_next code nx h ns k q :
  links code nx h ns -> (h :: ns) !! k = Some q -> nx q <> code -> (h :: ns) !! S k = Some (nx q).
Proof.
  revert h k. induction ns as [|n ns IH]; intros h k Hl Hk Hc.
  - destruct k as [|k]; [|done]. injection Hk as ->. cbn in Hl. done.
  - destruct Hl as [Hhn Hl]. destruct k as [|k]; cbn in Hk.
    + injection Hk as ->. cbn. rewrite Hhn. done.
    + apply (IH n k Hl Hk Hc).
Qed.

Lemma links_ext nx nx' code h ns :
  links code nx h ns -> (forall x, x ∈ h :: ns -> nx' x = nx x) -> links code nx' h ns.
Proof.
  revert h. induction ns as [|n ns IH]; intros h Hl Hx; cbn in *.
  - rewrite Hx by left. done.
  - destruct Hl as [Hhn Hl]. split; [rewrite Hx by left; done|]. apply IH; [done|].
    intros x Hin. apply Hx. right. done.
Qed.

Lemma chain_head code nx h ns : links code nx h ns -> nx h <> code -> exists b ns', ns = b :: ns' /\ nx h = b.
Proof. destruct ns as [|b ns]; cbn; [done|]. intros [E _] _. eauto. Qed.

(** ** Words *)
Lemma word_same cell count seen w p :
  node p -> cell = pack p count -> word cell count seen w -> cell = w -> count - seen < 2 ^ 17 -> seen = count.
Proof.
  intros Hp -> (Hle & (q & Hq & ->) & _) E Hw. apply TaggedStack.pack_inj in E as [_ E]; [|apply node_range; done..].
  assert (count - seen = 0); [|lia]. rewrite <- (Z.mod_small (count - seen) (2 ^ 17)) by lia.
  rewrite Zminus_mod, E, Z.sub_diag. done.
Qed.

Lemma word_now cell count p : node p -> cell = pack p count -> word cell count count cell.
Proof. intros Hp E. split; [lia|]. split; [eauto|done]. Qed.

(** After a change the word is an old one. *)
Lemma word_old cell cell' count seen w : word cell count seen w -> word cell' (count + 1) seen w.
Proof. intros (Hle & Hp & _). split; [lia|]. split; [done|lia]. Qed.

Lemma pack_next p w t : node p -> w = pack p t -> tag_of w + 1 = t mod 2 ^ 17 + 1.
Proof. intros Hp ->. rewrite TaggedStack.tag_of_pack; [done|]. apply node_range, Hp. Qed.

(** The word with the next tag. *)
Lemma pack_succ p q w t : node p -> node q -> w = pack p t -> pack q (tag_of w + 1) = pack q (t + 1).
Proof.
  intros Hp Hq Hw. rewrite (pack_next p w t Hp Hw). pose proof (node_range _ Hq).
  rewrite <- TaggedStack.pack_mod, Zplus_mod_idemp_l, TaggedStack.pack_mod by done. done.
Qed.

(** ** What a thread knows stays true *)

(** Someone else writes to the node [n0], which is not this thread's affair. *)
Lemma knows_local P M m m' h ns t n0 :
  knows P M m h ns t -> _myCode m' = _myCode m -> _tail m' = _tail m -> _head m' = _head m ->
  (forall x, x <> n0 -> next m' x = next m x /\ data m' x = data m x) ->
  ptr_of (_tail m) ∈ h :: ns -> (n0 ∉ h :: ns) -> (n0 ∉ private t) -> (n0 ∉ exposed t) -> knows P M m' h ns t.
Proof.
  intros Hk Ec Et Eh Hn Htl Hc Hp Hx. unfold knows, private, exposed in *.
  assert (Hf : forall n, n0 ∉ [n] -> next m' n = next m n /\ data m' n = data m n).
  { intros n Hni. apply Hn. intros ->. apply Hni. left. }
  assert (Hf' : forall n, n0 ∉ [n] -> data m n = arg t /\ next m n = _myCode m -> data m' n = arg t /\ next m' n = _myCode m').
  { intros n Hni. destruct (Hf n Hni) as [-> ->]. rewrite Ec. done. }
  assert (Hlk : forall w b, tail_link m M (seenTail t) w b -> tail_link m' M (seenTail t) w b).
  { intros w b ((Hle & Hw & Hs) & Hb & Hnx). unfold tail_link, word. rewrite Ec, Et. split_and!; try done.
    intros E. destruct (Hn (ptr_of w)) as [-> _]; [|auto]. rewrite (Hs E). intros <-. done. }
  destruct (at_pc t); unfold known, passed in *; rewrite ?Ec, ?Et, ?Eh in *; try done; auto.
  - destruct (Hf n) as [_ ->]; done.
  - destruct Hk as (H1 & H2 & H3). destruct (Hf (ptr_of bkTail)) as [-> _]; auto.
  - destruct Hk as (H1 & H2 & H3). destruct (Hf (ptr_of bkTail)) as [-> _]; auto.
  - destruct Hk as (H1 & H2). auto.
  - destruct Hk as [H1 H2]. split; [done|]. intros E. destruct (H2 E) as (Hb & Ht & Hd). split_and!; [done|done|].
    destruct (Hn bkNext) as [_ ->]; [|done]. intros ->. apply Hc. right. destruct ns; [done|]. injection Hb as ->. left.
Qed.

(** The tail moves on to the next node. *)
Lemma knows_tail P M m w h ns t k t' :
  knows P M m h ns t -> NoDup (h :: ns) -> (h :: ns) !! k = Some (ptr_of (_tail m)) -> (h :: ns) !! S k = Some t' ->
  ptr_of w = t' -> knows P (M + 1) (set_tail m w) h ns t.
Proof.
  intros Hk Hnd Hlk Hlk' Ew.
  assert (Hpass : forall q, passed m h ns q -> passed (set_tail m w) h ns q).
  { intros q (i & j & Hle & Hi & Hj). exists i, (S k). rewrite (NoDup_lookup _ _ _ _ Hnd Hj Hlk) in Hle.
    cbn [_tail set_tail]. rewrite Ew. split_and!; [lia|done|done]. }
  assert (Hlink : forall v b, tail_link m M (seenTail t) v b -> tail_link (set_tail m w) (M + 1) (seenTail t) v b).
  { intros v b (Hw & Hb & _). pose proof (word_old _ w _ _ _ Hw) as Hw'. split_and!; [done|done|].
    intros E. destruct Hw as [Hle _]. lia. }
  assert (Hne : t' <> h).
  { intros ->. pose proof (NoDup_lookup _ O _ h Hnd eq_refl Hlk'). done. }
  unfold knows in *. destruct (at_pc t); try exact Hk; auto.
  - destruct Hk as (H1 & Hw & H3). split; [exact H1|]. split; [apply (word_old _ w) in Hw; exact Hw|exact H3].
  - destruct Hk as (H1 & Hw & H3). split; [exact H1|]. split; [apply (word_old _ w) in Hw; exact Hw|exact H3].
  - destruct Hk as (? & ?). auto.
  - destruct Hk as (H1 & Hw & Hq). split; [exact H1|]. split; [apply (word_old _ w) in Hw; exact Hw|].
    intros E. destruct (Hq E). auto.
  - destruct Hk as (? & Hk). split; [done|]. intros E. destruct (Hk E) as [? _]. split; [done|]. cbn. congruence.
  - destruct Hk as (? & Hk). split; [done|]. intros E. destruct (Hk E) as (? & _ & ?). split_and!; [done| |done]. cbn. congruence.
Qed.

(** A node [n] is linked behind the last node [q]. *)
Lemma knows_link P M m h ns t q n :
  knows P M m h ns t -> q ∈ h :: ns -> next m q = _myCode m -> n <> _myCode m ->
  (forall x, x ∈ private t -> x ∉ h :: ns) -> knows P M (set_next m q n) h (ns ++ [n]) t.
Proof.
  intros Hk Hq Hqc Hnc Hp.
  assert (Hnx : forall x, next m x <> _myCode m -> next (set_next m q n) x = next m x).
  { intros x Hx. cbn. replace (x =? q) with false; [done|]. symmetry. apply Z.eqb_neq. intros ->. done. }
  assert (Hkn : forall x, known m h ns x -> known (set_next m q n) h (ns ++ [n]) x).
  { intros x [Hx|Hx]; [left; rewrite app_comm_cons; apply elem_of_app; auto|right; rewrite (Hnx x Hx); exact Hx]. }
  assert (Hlk : forall w b, tail_link m M (seenTail t) w b -> tail_link (set_next m q n) M (seenTail t) w b).
  { intros w b (Hw & Hb & Hwb). split_and!; [exact Hw|exact Hb|]. intros E. rewrite Hnx; rewrite (Hwb E); done. }
  assert (Hpa : forall x, passed m h ns x -> passed (set_next m q n) h (ns ++ [n]) x).
  { intros x (i & j & Hle & Hi & Hj). exists i, j. rewrite app_comm_cons. split_and!; [done|apply lookup_app_l_Some, Hi|apply lookup_app_l_Some, Hj]. }
  assert (Hhd : forall b, head ns = Some b -> head (ns ++ [n]) = Some b) by (destruct ns; done).
  assert (Hpn : forall x d, x ∈ private t -> data m x = d /\ next m x = _myCode m ->
    data (set_next m q n) x = d /\ next (set_next m q n) x = _myCode (set_next m q n)).
  { intros x d Hx [? ?]. split; [done|]. cbn. replace (x =? q) with false; [done|]. symmetry. apply Z.eqb_neq.
    intros ->. apply (Hp q Hx Hq). }
  unfold knows, private in *. destruct (at_pc t); try exact Hk; auto; cbn [_tail _head _myCode data set_next] in *.
  - apply Hpn; [left|exact Hk].
  - destruct Hk as (? & ? & ?). split; [apply Hpn; [left|done]|auto].
  - destruct Hk as (? & ? & ?). split; [apply Hpn; [left|done]|auto].
  - destruct Hk as (? & ?). split; [apply Hpn; [left|done]|auto].
  - destruct Hk as (? & Hk). split; [done|]. auto.
  - destruct Hk as (? & ? & Hk). split_and!; [done|done|]. intros E. destruct (Hk E). auto.
  - destruct Hk as (? & Hk). split; [done|]. intros E. destruct (Hk E). auto.
  - destruct Hk as (? & Hk). split; [done|]. intros E. destruct (Hk E) as (? & ? & ?). auto.
Qed.

(** The head moves on to the next node. *)
Lemma knows_pop P M m h b ns t w :
  knows P M m h (b :: ns) t -> next m h <> _myCode m -> knows (P + 1) M (set_head m w) b ns t.
Proof.
  intros Hk Hb.
  assert (Hkn : forall x, known m h (b :: ns) x -> known (set_head m w) b ns x).
  { intros x [Hx|Hx]; [|right; exact Hx]. apply elem_of_cons in Hx as [->|Hx]; [right; done|left; done]. }
  assert (Hw : forall v, word (_head m) P (seenHead t) v -> word w (P + 1) (seenHead t) v /\ seenHead t <> P + 1).
  { intros v Hv. split; [apply (word_old _ w) in Hv; exact Hv|]. destruct Hv as [? _]. lia. }
  unfold knows in *. destruct (at_pc t); try exact Hk; cbn [_head set_head].
  - destruct Hk as (? & ? & ?). auto.
  - destruct Hk as (? & ? & ?). auto.
  - apply Hw, Hk.
  - destruct Hk as [H1 H2]. apply Hw, H1.
  - destruct Hk as [H1 H2]. destruct (Hw _ H1). split; done.
  - destruct Hk as (H1 & H2 & H3). destruct (Hw _ H1). split_and!; done.
  - destruct Hk as [H1 H2]. destruct (Hw _ H1). split; done.
  - destruct Hk as [H1 H2]. destruct (Hw _ H1). split; done.
Qed.

End QueueInterleaving.
