(* ===== verification/QueueLinear.v ===== *)
(** * The lock-free queue is linearizable

    The invariant of the interleaving of [QueueInterleaving], that every access keeps it,
    and the theorem on the queue of [CLockFreeQueue.h]. *)
From S2P Require Import Prelude.
From S2P Require Import TaggedStack.
From S2P Require Import LockFreeQueue.
From S2P Require Import QueueInterleaving.
From stdpp Require Import prelude gmap list.
From Stdlib Require Import ZArith Lia.
Open Scope Z_scope.

Module QueueLinear.
Import CLockFreeQueue.
Import QueueInterleaving.

#[local] Arguments all : simpl never.

(** ** The invariant *)

(** The nodes that are not in the list. *)
Definition rest_of (c : config) : list Z := all owned (threads c) ++ pool (shared c) ++ away c.

Record inv (c : config) (h : Z) (ns : list Z) : Prop := mkInv {
  i_code : 2 ^ 47 <= _myCode (shared c);
  i_links : links (_myCode (shared c)) (next (shared c)) h ns;
  i_head : _head (shared c) = pack h (pops c);
  i_tail : exists q, q ∈ h :: ns /\ _tail (shared c) = pack q (moves c);
  i_nodes : Forall node ((h :: ns) ++ rest_of c);
  i_nodup : NoDup ((h :: ns) ++ rest_of c);
  i_bound : len ((h :: ns) ++ rest_of c) + len (threads c) < 2 ^ 31;
  i_exposed : forall i t q, threads c !! i = Some t -> q ∈ exposed t -> q ∉ all private (threads c) ++ away c;
  i_knows : forall i t, threads c !! i = Some t -> knows (pops c) (moves c) (shared c) h ns t;
  i_size : _size (shared c) = i32 (len ns - len (all claims (threads c)));
  i_admitted : len (all admitted (threads c)) <= len ns;
  i_hist : replay [] (hist c) = Some (data (shared c) <$> ns);
}.

(** ** Threads together *)
Lemma elem_of_all {A} (f : thread -> list A) ts x : x ∈ all f ts <-> exists j u, ts !! j = Some u /\ x ∈ f u.
Proof.
  unfold all. rewrite list_elem_of_In, in_concat. split.
  - intros (l & Hl & Hx). apply list_elem_of_In, list_elem_of_fmap in Hl as (u & -> & Hu).
    apply list_elem_of_lookup_1 in Hu as [j Hj]. exists j, u. split; [done|]. apply list_elem_of_In, Hx.
  - intros (j & u & Hj & Hx). exists (f u). split; apply list_elem_of_In; [|done].
    apply list_elem_of_fmap. exists u. split; [done|]. apply (list_elem_of_lookup_2 _ j _ Hj).
Qed.

Lemma private_owned t : private t ⊆ owned t.
Proof. unfold owned, private. destruct (at_pc t); intros x Hx; first [exact Hx | by apply not_elem_of_nil in Hx]. Qed.

Lemma all_private_owned ts : all private ts ⊆ all owned ts.
Proof. intros x. rewrite !elem_of_all. intros (j & u & ? & Hx%private_owned). eauto. Qed.

Lemma all_length_le {A} (f g : thread -> list A) ts :
  (forall t, (length (f t) <= length (g t))%nat) -> (length (all f ts) <= length (all g ts))%nat.
Proof.
  intros H. unfold all. induction ts as [|t ts IH]; cbn; [lia|]. rewrite !length_app. specialize (H t). lia.
Qed.

Lemma admitted_claims t : (length (admitted t) <= length (claims t))%nat.
Proof. unfold claims, admitted. destruct (at_pc t); cbn; lia. Qed.

Lemma claims_one t : (length (claims t) <= 1)%nat.
Proof. unfold claims, admitted. destruct (at_pc t); cbn; lia. Qed.

Lemma all_claims_le ts : (length (all claims ts) <= length ts)%nat.
Proof.
  unfold all. induction ts as [|t ts IH]; cbn; [lia|]. rewrite length_app. pose proof (claims_one t). lia.
Qed.

(** Replacing one thread. *)
Lemma all_insert {A} (f : thread -> list A) ts i t t' :
  ts !! i = Some t ->
  exists rest, all f ts ≡ₚ f t ++ rest /\ all f (<[i := t']> ts) ≡ₚ f t' ++ rest.
Proof. intros Hi. destruct (concat_fmap_insert f _ _ _ Hi) as (rest & E & E' & _). eauto. Qed.

(** The counts of the other threads. *)
Lemma counts_insert ts i t t' :
  ts !! i = Some t ->
  exists a k, 0 <= a <= k /\
    len (all admitted ts) = len (admitted t) + a /\ len (all admitted (<[i := t']> ts)) = len (admitted t') + a /\
    len (all claims ts) = len (claims t) + k /\ len (all claims (<[i := t']> ts)) = len (claims t') + k.
Proof.
  intros Hi. destruct (concat_fmap_insert admitted _ _ _ Hi) as (ra & Ea & Ea' & _).
  destruct (concat_fmap_insert claims _ _ _ Hi) as (rk & Ek & Ek' & _).
  pose proof (all_length_le admitted claims (<[i := mkThread Idle 0 None 0 0]> ts) admitted_claims) as Hle.
  unfold all in *. rewrite (Ea' _), (Ek' _) in Hle. cbn in Hle.
  exists (len ra), (len rk). unfold len. rewrite Ea, (Ea' t'), Ek, (Ek' t'), !length_app. lia.
Qed.

(** ** One thread moves *)
Record move (c : config) (h : Z) (ns : list Z) (t : thread)
    (m' : mem) (P' M' h' : Z) (ns' : list Z) (t' : thread) (os : list op) : Prop := mkMove {
  mv_code : _myCode m' = _myCode (shared c);
  mv_links : links (_myCode (shared c)) (next m') h' ns';
  mv_head : _head m' = pack h' P';
  mv_tail : exists q, q ∈ h' :: ns' /\ _tail m' = pack q M';
  mv_parts : exists gone, (h :: ns) ++ owned t ++ pool (shared c) ≡ₚ gone ++ (h' :: ns') ++ owned t' ++ pool m';
  mv_exposed q : q ∈ exposed t' -> q ∈ exposed t \/ q ∈ h' :: ns';
  mv_others u : knows (pops c) (moves c) (shared c) h ns u ->
    (forall x, x ∈ private u -> (x ∉ h :: ns) /\ (x ∉ owned t)) ->
    (forall x, x ∈ exposed u -> x ∉ private t) -> knows P' M' m' h' ns' u;
  mv_knows : knows P' M' m' h' ns' t';
  mv_size k : _size (shared c) = i32 (len ns - (len (claims t) + k)) -> _size m' = i32 (len ns' - (len (claims t') + k));
  mv_admitted a k : 0 <= a <= k -> _size (shared c) = i32 (len ns - (len (claims t) + k)) ->
    len ns + len (claims t) + k < 2 ^ 31 -> len (admitted t) + a <= len ns -> len (admitted t') + a <= len ns';
  mv_hist : replay (data (shared c) <$> ns) os = Some (data m' <$> ns');
}.

Lemma q_replay_app l os os' : replay l (os ++ os') = (l' ← replay l os; replay l' os').
Proof.
  revert l. induction os as [|o os IH]; intros l; [done|]. cbn. destruct (apply_op l o); [apply IH|done].
Qed.

Lemma parts_insert c h ns i t t' h' ns' m' gone :
  threads c !! i = Some t -> (h :: ns) ++ owned t ++ pool (shared c) ≡ₚ gone ++ (h' :: ns') ++ owned t' ++ pool m' ->
  (h :: ns) ++ rest_of c ≡ₚ gone ++ (h' :: ns') ++ all owned (<[i := t']> (threads c)) ++ pool m' ++ away c.
Proof.
  intros Hi Hp. unfold rest_of. destruct (all_insert owned (threads c) i t t' Hi) as (rest & E & E'). rewrite E, E'.
  rewrite <- !app_assoc, (Permutation_app_swap_app rest (pool (shared c))), (Permutation_app_swap_app rest (pool m')).
  rewrite (app_assoc (owned t)), (app_assoc (h :: ns)), Hp, <- !app_assoc. done.
Qed.

(** The nodes of another thread are not in the list nor this thread's. *)
Lemma others_private c h ns i t j u x :
  inv c h ns -> threads c !! i = Some t -> threads c !! j = Some u -> j <> i -> x ∈ private u ->
  (x ∉ h :: ns) /\ (x ∉ owned t).
Proof.
  intros Hv Hi Hj Hji Hx. pose proof (i_nodup _ _ _ Hv) as Hnd. unfold rest_of, all in Hnd.
  destruct (concat_fmap_insert owned _ _ _ Hi) as (rest & Er & _ & Ho).
  specialize (Ho j u Hji Hj x (private_owned _ _ Hx)). rewrite Er in Hnd.
  apply NoDup_app in Hnd as (_ & Hd & Hnd). rewrite <- app_assoc in Hnd.
  split; [intros Hx'; apply (Hd x Hx'); rewrite !elem_of_app; auto|].
  apply NoDup_app in Hnd as (_ & Hd0 & _). intros Hx'. apply (Hd0 x Hx'), elem_of_app. auto.
Qed.

Lemma q_inv_move c h ns i t t' m' P' M' os h' ns' :
  inv c h ns -> threads c !! i = Some t -> move c h ns t m' P' M' h' ns' t' os ->
  (forall x, x ∈ private t' -> x ∈ private t \/ unexposed c x) ->
  inv (mkConfig m' (<[i := t']> (threads c)) (hist c ++ os) P' M' (away c)) h' ns'.
Proof.
  intros Hv Hi [] Hpriv. pose proof (fun j u x => others_private c h ns i t j u x Hv Hi) as Hother.
  destruct Hv. destruct mv_parts0 as [gone Hp]. pose proof (parts_insert c h ns i t t' h' ns' m' gone Hi Hp) as Hall.
  assert (Hnd : NoDup (gone ++ (h' :: ns') ++ all owned (<[i := t']> (threads c)) ++ pool m' ++ away c)) by (rewrite <- Hall; done).
  apply NoDup_app in Hnd as (_ & _ & Hnd).
  destruct (counts_insert (threads c) i t t' Hi) as (a & k & Hak & Ea & Ea' & Ek & Ek').
  split; unfold rest_of; cbn; rewrite ?mv_code0; try done.
  - rewrite Hall in i_nodes0. apply Forall_app in i_nodes0 as [_ ?]. done.
  - unfold len in *. rewrite Hall, length_app in i_bound0. rewrite length_insert. cbn in *. lia.
  - intros j u q Hj Hq Hin.
    assert (Hold : forall j0 u0, threads c !! j0 = Some u0 -> q ∈ exposed u0 -> False).
    { intros j0 u0 Hj0 Hq0. pose proof (i_exposed0 j0 u0 q Hj0 Hq0) as Hne. rewrite elem_of_app in Hin, Hne.
      destruct Hin as [Hin|Hin]; [|tauto]. apply elem_of_all in Hin as (j' & u' & Hj' & Hq').
      apply list_lookup_insert_Some in Hj' as [(_ & <- & _)|[_ Hj']].
      - destruct (Hpriv q Hq') as [Hpr|Hpr]; [|apply (Hpr j0 u0 Hj0 Hq0)].
        apply Hne. left. apply elem_of_all. eauto.
      - apply Hne. left. apply elem_of_all. eauto. }
    apply list_lookup_insert_Some in Hj as [(_ & <- & _)|[_ Hj]]; [|eauto].
    destruct (mv_exposed0 q Hq) as [Hqt|Hqc]; [eauto|]. apply NoDup_app in Hnd as (_ & Hd & _).
    apply (Hd q Hqc). rewrite !elem_of_app in *. destruct Hin as [Hin|Hin]; [left; apply all_private_owned, Hin|auto].
  - intros j u Hj. apply list_lookup_insert_Some in Hj as [(_ & <- & _)|[Hji Hj]]; [done|].
    apply mv_others0; [eauto|intros x Hx; eapply Hother; eauto|].
    intros x Hx Hxt. apply (i_exposed0 j u x Hj Hx), elem_of_app. left. apply elem_of_all. eauto.
  - rewrite Ek'. apply mv_size0. rewrite <- Ek. done.
  - rewrite Ea'. apply (mv_admitted0 a k); [done|rewrite <- Ek; done| |rewrite <- Ea; done].
    pose proof (all_claims_le (threads c)). rewrite <- Z.add_assoc, <- Ek. unfold len in *.
    rewrite length_app in i_bound0. cbn in i_bound0. lia.
  - rewrite q_replay_app, i_hist0. exact mv_hist0.
Qed.

(** ** Every access is a move *)
Section moves.
Context (c : config) (h : Z) (ns : list Z) (i : nat) (t : thread).
Context (Hinv : inv c h ns) (Hi : threads c !! i = Some t).
Notation m := (shared c).
Notation P := (pops c).
Notation M := (moves c).

Lemma linked_nodup : NoDup (h :: ns).
Proof. pose proof (i_nodup _ _ _ Hinv) as Hnd. apply NoDup_app in Hnd as [? _]. done. Qed.

Lemma linked_node x : x ∈ h :: ns -> node x.
Proof. pose proof (i_nodes _ _ _ Hinv) as Hn. apply Forall_app in Hn as [Hn _]. rewrite Forall_forall in Hn. auto. Qed.

Lemma tail_in : ptr_of (_tail m) ∈ h :: ns.
Proof.
  destruct (i_tail _ _ _ Hinv) as (q & Hq & ->). rewrite TaggedStack.ptr_of_pack; [done|]. apply node_range, linked_node, Hq.
Qed.

Lemma head_ptr : ptr_of (_head m) = h.
Proof. rewrite (i_head _ _ _ Hinv). apply TaggedStack.ptr_of_pack, node_range, linked_node. left. Qed.

Lemma head_word : word (_head m) P P (_head m).
Proof. apply (word_now _ _ h); [apply linked_node; left|apply (i_head _ _ _ Hinv)]. Qed.

Lemma tail_word : word (_tail m) M M (_tail m).
Proof. destruct (i_tail _ _ _ Hinv) as (q & Hq & E). apply (word_now _ _ q); [apply linked_node, Hq|exact E]. Qed.

Lemma owned_facts x : x ∈ owned t -> node x /\ (x ∉ h :: ns) /\ x <> _myCode m.
Proof.
  intros Hx. pose proof Hinv as []. assert (Ho : x ∈ rest_of c).
  { apply elem_of_app. left. apply elem_of_all. eauto. }
  assert (node x).
  { apply Forall_app in i_nodes0 as [_ Hn]. rewrite Forall_forall in Hn. auto. }
  split; [done|]. split; [|unfold node in *; lia].
  apply NoDup_app in i_nodup0 as (_ & Hd & _). intros Hc. apply (Hd x Hc Ho).
Qed.

Lemma admitted_more : admitted t <> [] -> exists b ns', ns = b :: ns' /\ next m h = b /\ b <> _myCode m.
Proof.
  intros Ha. pose proof Hinv as []. pose proof linked_node as Hch.
  destruct (counts_insert (threads c) i t t Hi) as (a & k & ? & E & _).
  destruct (admitted t); [done|]. unfold len in *. cbn [length] in *.
  destruct ns as [|b ns'] eqn:En; [cbn in *; lia|].
  exists b, ns'. destruct i_links0 as [E1 _]. split_and!; try done.
  assert (node b) by (apply Hch; right; left). unfold node in *. lia.
Qed.

(** Nothing is written but the tail, which moves to the next node or stays. *)
Lemma move_tail t' w b :
  owned t' = owned t -> claims t' = claims t -> admitted t' = admitted t ->
  (forall q, q ∈ exposed t' -> q ∈ exposed t \/ q ∈ h :: ns) -> knows P M m h ns t' ->
  tail_link m M (seenTail t) w b -> M - seenTail t < 2 ^ 17 ->
  move c h ns t (cas_tail m w b) P (M + if _tail m =? w then 1 else 0) h ns t' [].
Proof.
  intros Eo Ec Ea Hm Hk (Hw & Hbc & Hb) Hwin. pose proof linked_nodup as Hnd. pose proof tail_in as Hin.
  assert (Htl : (_tail m =? w) = false \/ exists k q, (_tail m =? w) = true /\ (h :: ns) !! k = Some (ptr_of (_tail m)) /\
    (h :: ns) !! S k = Some q /\ ptr_of (pack b (tag_of w + 1)) = q /\ pack b (tag_of w + 1) = pack q (M + 1)).
  { destruct (_tail m =? w) eqn:E; [|left; done]. right. apply Z.eqb_eq in E.
    destruct (i_tail _ _ _ Hinv) as (q & Hq & Et). apply linked_node in Hq as Hqn.
    specialize (Hb (word_same _ _ _ _ q Hqn Et Hw E Hwin)). rewrite <- E in *.
    destruct (proj1 (list_elem_of_lookup _ _) Hin) as [k Hlk].
    assert (Hnext : (h :: ns) !! S k = Some b).
    { rewrite <- Hb. apply (chain_next (_myCode m)); [apply (i_links _ _ _ Hinv)|done|]. rewrite Hb. done. }
    assert (Hbn : node b) by (apply linked_node; apply (list_elem_of_lookup_2 _ _ _ Hnext)).
    exists k, b. split_and!; try done; [apply TaggedStack.ptr_of_pack, node_range, Hbn|].
    apply (pack_succ q b _ M); done. }
  unfold cas_tail. pose proof Hinv as [].
  destruct Htl as [->|(k & q & -> & Hlk & Hlk' & Hp & Hq)]; rewrite ?Z.add_0_r; split; try done.
  1, 5: exists []; rewrite Eo; done.
  1, 6: intros k'; rewrite Ec; done.
  1, 5: intros a k' _ _ _; rewrite Ea; done.
  - exists q. split; [apply (list_elem_of_lookup_2 _ _ _ Hlk')|exact Hq].
  - intros u Hu _ _. apply (knows_tail P M m _ h ns u k q); done.
  - apply (knows_tail P M m _ h ns t' k q); done.
Qed.

(** Nothing is written. *)
Lemma move_quiet t' :
  owned t' = owned t -> claims t' = claims t -> admitted t' = admitted t ->
  (forall q, q ∈ exposed t' -> q ∈ exposed t \/ q ∈ h :: ns) -> knows P M m h ns t' ->
  move c h ns t m P M h ns t' [].
Proof.
  intros Eo Ec Ea Hm Hk. pose proof Hinv as []. split; try done.
  - exists []. rewrite Eo. done.
  - intros k. rewrite Ec. done.
  - intros a k _ _ _. rewrite Ea. done.
Qed.

(** A member of a node of its own is written. *)
Lemma move_local t' m' n :
  owned t' = owned t -> claims t' = claims t -> admitted t' = admitted t -> private t = [n] ->
  exposed t' = exposed t -> knows P M m' h ns t' ->
  _myCode m' = _myCode m -> _tail m' = _tail m -> _head m' = _head m -> _size m' = _size m -> pool m' = pool m ->
  (forall x, x <> n -> next m' x = next m x /\ data m' x = data m x) ->
  move c h ns t m' P M h ns t' [].
Proof.
  intros Eo Ec Ea Ep Hm Hk E1 E2 E3 E4 E5 Hx. destruct (owned_facts n) as (_ & Hn & _).
  { apply private_owned. rewrite Ep. left. }
  pose proof tail_in as Htl. pose proof Hinv as []. split; rewrite ?E2, ?E3, ?E4, ?E5; try done.
  - apply (links_ext (next m)); [done|]. intros x Hin. apply Hx. intros ->. done.
  - exists []. rewrite Eo. done.
  - intros q. rewrite Hm. auto.
  - intros u Hu Hpu Hmu. apply (knows_local P M m m' h ns u n); try done.
    + intros Hin. apply (proj2 (Hpu n Hin)), private_owned. rewrite Ep. left.
    + intros Hin. apply (Hmu n Hin). rewrite Ep. left.
  - intros k. rewrite Ec. done.
  - intros a k _ _ _. rewrite Ea. done.
  - cbn. f_equal. apply list_fmap_ext. intros j x Hj. symmetry. apply Hx. intros ->.
    apply Hn. right. apply (list_elem_of_lookup_2 _ _ _ Hj).
Qed.

(** Only the size is written. *)
Lemma move_size t' s os :
  replay (data m <$> ns) os = Some (data m <$> ns) ->
  owned t' = owned t -> exposed t' = exposed t -> knows P M m h ns t' ->
  (forall k, _size m = i32 (len ns - (len (claims t) + k)) -> s = i32 (len ns - (len (claims t') + k))) ->
  (forall a k, 0 <= a <= k -> _size m = i32 (len ns - (len (claims t) + k)) ->
    len ns + len (claims t) + k < 2 ^ 31 -> len (admitted t) + a <= len ns -> len (admitted t') + a <= len ns) ->
  move c h ns t (set_size m s) P M h ns t' os.
Proof.
  intros Eos Eo Hm Hk Hs Ha. pose proof Hinv as []. split; try done.
  - exists []. rewrite Eo. done.
  - intros q. rewrite Hm. auto.
Qed.

(** The access is a move to some list. *)
Definition run_moves : Prop :=
  exists h' ns', move c h ns t (step (at_pc t) m).2 (P + moves_head t m) (M + moves_tail t m) h' ns' (next_thread c t) (effect t m).

(** [at_access E] looks at the access [E] the thread is at, [enter E] starts there. *)
Ltac at_access E := unfold owned, private, claims, admitted, exposed, next_thread; rewrite E; cbn [at_pc step fst snd]; try done.
Ltac enter E :=
  pose proof (i_knows _ _ _ Hinv i t Hi) as Hk; unfold knows in Hk; rewrite E in Hk;
  unfold run_moves, effect, moves_head, moves_tail, next_thread; rewrite E; cbn [step fst snd]; rewrite ?Z.add_0_r.

Lemma none_exposed q : q ∈ [] -> q ∈ exposed t \/ q ∈ h :: ns.
Proof. intros Hq. by apply not_elem_of_nil in Hq. Qed.

Lemma run_alloc d : at_pc t = EnqAlloc d -> run_moves.
Proof.
  intros E. enter E. exists h, ns. destruct (pool m) as [|n l] eqn:Hp; cbn [fst snd].
  - apply move_quiet; [at_access E..|apply none_exposed|exact Hk].
  - pose proof Hinv as []. split; try done.
    + exists []. at_access E. rewrite Hp. done.
    + apply none_exposed.
    + at_access E.
    + intros a k _ _ _. at_access E.
Qed.

Lemma run_local : (exists n d, at_pc t = EnqData n d) \/ (exists n, at_pc t = EnqNext n) -> run_moves.
Proof.
  intros [(n & d & E)|(n & E)]; enter E; exists h, ns; apply (move_local _ _ n); first [done | at_access E | idtac].
  - unfold knows. cbn. rewrite Z.eqb_refl. done.
  - intros x Hx. cbn. apply Z.eqb_neq in Hx. rewrite Hx. done.
  - unfold knows. cbn. rewrite Z.eqb_refl. done.
  - intros x Hx. cbn. apply Z.eqb_neq in Hx. rewrite Hx. done.
Qed.

(** [Enqueue] reads the tail and what is behind it. *)
Lemma run_read : (exists n, at_pc t = EnqTail n) \/ (exists n w, at_pc t = EnqRead n w) -> run_moves.
Proof.
  intros [(n & E)|(n & w & E)]; enter E; exists h, ns.
  - apply move_quiet; [at_access E..| |].
    + intros q ->%list_elem_of_singleton. right. apply tail_in.
    + unfold knows. cbn. split; [exact Hk|]. split; [apply tail_word|left; apply tail_in].
  - destruct (next m (ptr_of w) =? _myCode m) eqn:Ec; cbn [fst snd]; apply move_quiet.
    1-3, 6-8: at_access E.
    + at_access E. auto.
    + exact Hk.
    + apply none_exposed.
    + unfold knows. cbn. destruct Hk as (Hf & Hw & _). split; [exact Hf|]. split; [exact Hw|].
      apply Z.eqb_neq in Ec. done.
Qed.

(** The tail is helped on: in [Enqueue], after linking, and in [Dequeue]. *)
Lemma run_help : in_window c t ->
  (exists n w b, at_pc t = EnqHelp n w b) \/ (exists n w, at_pc t = EnqSwing n w) \/
  (exists w b, at_pc t = DeqHelp w b) -> run_moves.
Proof.
  unfold in_window. intros Hwin [(n & w & b & E)|[(n & w & E)|(w & b & E)]]; rewrite E in Hwin; enter E; exists h, ns; apply move_tail; try done.
  all: first [apply none_exposed | by apply Hk | at_access E].
Qed.

(** The size is counted. *)
Lemma run_size : at_pc t = EnqSize \/ at_pc t = DeqSize \/ at_pc t = DeqRestore -> run_moves.
Proof.
  intros [E|[E|E]]; enter E; exists h, ns.
  - apply move_size; [first [done | at_access E]..| |].
    + intros k Hs. rewrite Hs. at_access E. cbn. rewrite i32_add. f_equal. unfold len. cbn. lia.
    + intros a k _ _ _. at_access E.
  - destruct (i32 (_size m - 1) <? 0) eqn:En; cbn [fst snd]; apply move_size.
    1-4, 7-10: first [done | at_access E].
    + intros k Hs. rewrite Hs. at_access E. rewrite <- Z.add_opp_r, i32_add. f_equal. unfold len. cbn. lia.
    + intros a k _ _ _. at_access E.
    + intros k Hs. rewrite Hs. at_access E. rewrite <- Z.add_opp_r, i32_add. f_equal. unfold len. cbn. lia.
    + intros a k Hak Hs Hb _. revert Hs Hb. at_access E. intros Hs Hb. rewrite Hs, <- Z.add_opp_r, i32_add in En.
      unfold len in *. cbn [length] in *. rewrite (s_small 32) in En by lia. apply Z.ltb_ge in En. lia.
  - apply move_size; [first [done | at_access E]..| |].
    + intros k Hs. rewrite Hs. at_access E. cbn. rewrite i32_add. f_equal. unfold len. cbn. lia.
    + intros a k _ _ _. at_access E.
Qed.

Lemma run_out : out (at_pc t) = true -> run_moves.
Proof.
  intros Ho. unfold run_moves, effect, moves_head, moves_tail, next_thread. exists h, ns.
  destruct (at_pc t) eqn:E; try done; cbn [step fst snd]; rewrite !Z.add_0_r.
  all: apply move_quiet; [at_access E..|apply none_exposed|done].
Qed.

(** [Dequeue] reads the head and what is behind it. An admitted [Dequeue] finds an
    element, unless the head has changed. *)
Lemma run_head : at_pc t = DeqHead \/ (exists w, at_pc t = DeqNext w) -> run_moves.
Proof.
  intros [E|(w & E)]; enter E; exists h, ns.
  - apply move_quiet; [at_access E..|apply none_exposed|]. unfold knows. cbn. apply head_word.
  - destruct admitted_more as (b & ns' & En & Hb & Hbc); [at_access E|].
    assert (Hnow : seenHead t = P -> next m (ptr_of w) = b).
    { destruct Hk as (_ & _ & Hs). intros Es. rewrite (Hs Es), head_ptr. exact Hb. }
    destruct (next m (ptr_of w) =? _myCode m) eqn:Ec; cbn [fst snd]; apply move_quiet.
    1-3, 6-8: at_access E.
    + apply none_exposed.
    + unfold knows. cbn. split; [exact Hk|]. intros Es. apply Z.eqb_eq in Ec. rewrite (Hnow Es) in Ec. done.
    + apply none_exposed.
    + unfold knows. cbn. split; [exact Hk|]. intros Es. rewrite (Hnow Es), En. done.
Qed.

(** The read of the head is repeated: it was not empty and has changed. *)
Lemma run_check w : in_window c t -> at_pc t = DeqCheck w -> (_head m =? w) = false /\ run_moves.
Proof.
  intros Hwin E. unfold in_window in Hwin. rewrite E in Hwin. enter E. destruct Hk as [Hw Hne].
  assert (Ew : (_head m =? w) = false).
  { apply Z.eqb_neq. intros Eh. apply Hne. apply (word_same (_head m) P _ w h); try done; [apply linked_node; left|apply (i_head _ _ _ Hinv)]. }
  rewrite Ew. split; [done|]. exists h, ns. apply move_quiet; [at_access E..|apply none_exposed|done].
Qed.

(** [Dequeue] reads the tail and what is behind it. *)
Lemma run_behind :
  (exists w b, at_pc t = DeqTail w b) \/ (exists w b w', at_pc t = DeqTailNext w b w') -> run_moves.
Proof.
  intros [(w & b & E)|(w & b & w' & E)]; enter E; exists h, ns.
  - apply move_quiet; [at_access E..|apply none_exposed|].
    unfold knows. cbn. destruct Hk as [H1 H2]. split; [exact H1|]. split; [apply tail_word|].
    intros Es. split; [auto|]. destruct (proj1 (list_elem_of_lookup _ _) tail_in) as [k Hlk]. exists k, k. done.
  - destruct Hk as (H1 & H2 & H3).
    destruct (next m (ptr_of w') =? _myCode m) eqn:Ec; cbn [fst snd]; apply move_quiet.
    1-3, 6-8: at_access E.
    + apply none_exposed.
    + unfold knows. cbn. split; [exact H1|]. intros Es. destruct (H3 Es) as (Hb & k & j & Hle & Hlk & Hj).
      split; [exact Hb|]. intros Etl. apply Z.eqb_eq in Ec. rewrite Etl in Hj.
      pose proof (NoDup_lookup _ j O h linked_nodup Hj eq_refl). assert (k = O) as -> by lia.
      injection Hlk as Hlk. destruct admitted_more as (x & ns' & En & Hx & Hxc); [at_access E|].
      rewrite <- Hlk, Hx in Ec. done.
    + apply none_exposed.
    + unfold knows. cbn. apply Z.eqb_neq in Ec. done.
Qed.

Lemma run_data w b : at_pc t = DeqData w b -> run_moves.
Proof.
  intros E. enter E. exists h, ns. apply move_quiet; [at_access E..|apply none_exposed|].
  unfold knows. cbn. destruct Hk as [H1 H2]. split; [exact H1|]. intros Eh. destruct (H2 Eh). done.
Qed.

(** [Enqueue] links its node. *)
Lemma run_link n w : at_pc t = EnqCas n w -> run_moves.
Proof.
  intros E. enter E. destruct Hk as ([Hd Hnx] & Hword & Hw).
  destruct (next m (ptr_of w) =? _myCode m) eqn:Ec; cbn [fst snd].
  2: { exists h, ns. apply move_quiet; [at_access E..|apply none_exposed|done]. }
  apply Z.eqb_eq in Ec. destruct Hw as [Hw|Hw]; [|done].
  destruct (owned_facts n) as (Hnn & Hnc & Hnm); [at_access E; left|].
  pose proof linked_nodup as Hnd. pose proof (i_links _ _ _ Hinv) as Hlinks.
  assert (Hlast : ptr_of w = List.last ns h).
  { apply (chain_last (_myCode m) (next m)); try done; [|apply (i_code _ _ _ Hinv)].
    apply Forall_forall. apply linked_node. }
  assert (Hnd' : NoDup (h :: ns ++ [n])).
  { rewrite app_comm_cons. apply NoDup_app. split; [done|]. split; [|apply NoDup_singleton].
    intros x Hx ->%list_elem_of_singleton. done. }
  exists h, (ns ++ [n]). pose proof Hinv as []. split; try done.
  - apply (links_ext (fun p => if p =? List.last ns h then n else if p =? n then _myCode m else next m p)).
    + apply links_snoc; done.
    + intros x _. cbn. rewrite Hlast. destruct (x =? List.last ns h); [done|].
      destruct (x =? n) eqn:Ex; [|done]. apply Z.eqb_eq in Ex as ->. done.
  - destruct i_tail0 as (q & Hq & Et). exists q. split; [|exact Et]. rewrite app_comm_cons. apply elem_of_app. auto.
  - exists []. at_access E. cbn. rewrite <- app_assoc. done.
  - intros q Hq. by apply not_elem_of_nil in Hq.
  - intros u Hu Hpu _. apply knows_link; try done. intros x Hx. apply (Hpu x Hx).
  - unfold knows. cbn. split; [exact Hword|]. split; [done|]. intros _. cbn. rewrite Z.eqb_refl. done.
  - intros k Hs. cbn. rewrite Hs. at_access E. f_equal. unfold len. rewrite length_app. cbn. lia.
  - intros a k _ _ _ Ha. revert Ha. at_access E. unfold len. rewrite length_app. lia.
  - cbn. rewrite fmap_app. cbn. rewrite Hd. done.
Qed.

(** [Dequeue] takes the element behind the head. *)
Lemma run_take w b v : in_window c t -> at_pc t = DeqCas w b v -> run_moves.
Proof.
  intros Hwin E. unfold in_window in Hwin. rewrite E in Hwin. enter E. destruct (_head m =? w) eqn:Ew; cbn [fst snd].
  2: { rewrite Z.add_0_r. exists h, ns. apply move_quiet; [at_access E..|apply none_exposed|done]. }
  apply Z.eqb_eq in Ew. destruct Hk as [Hw Hk]. pose proof (i_head _ _ _ Hinv) as Ehead.
  assert (Hhn : node h) by (apply linked_node; left).
  destruct (Hk (word_same _ _ _ _ h Hhn Ehead Hw Ew Hwin)) as (Hhd & Htl & Hv). subst w.
  destruct admitted_more as (b' & ns' & En & Hb' & Hbc); [at_access E|].
  rewrite En in Hhd. injection Hhd as ->. pose proof (i_links _ _ _ Hinv) as Hlinks. rewrite En in Hlinks.
  assert (Hbn : node b) by (apply linked_node; rewrite En; right; left).
  pose proof tail_in as Hti. pose proof head_ptr as Hhp. destruct (i_tail _ _ _ Hinv) as (q & Hq & Et).
  pose proof Hinv as []. destruct Hlinks as [_ Hlinks]. exists b, ns'. split; try done.
  - cbn. apply (pack_succ h b _ P); done.
  - exists q. split; [|exact Et]. rewrite En in Hq. apply elem_of_cons in Hq as [->|?]; [|done].
    rewrite Et, TaggedStack.ptr_of_pack in Htl; [done|apply node_range, Hhn].
  - exists []. at_access E. cbn [app]. rewrite En, Hhp. cbn [app]. rewrite <- Permutation_middle. apply perm_swap.
  - intros x Hx. by apply not_elem_of_nil in Hx.
  - intros u Hu _ _. rewrite En in Hu. apply (knows_pop P M m h b ns' u); [done|]. rewrite Hb'. done.
  - intros k Hs. cbn. rewrite Hs. at_access E. f_equal. unfold len. rewrite En. cbn. lia.
  - intros a k _ _ _ Ha. revert Ha. at_access E. unfold len. rewrite En. cbn. lia.
  - rewrite En. cbn. rewrite Hv, Z.eqb_refl. done.
Qed.

(** [Dequeue] gives the old head back. *)
Lemma run_free p v : at_pc t = DeqFree p v -> run_moves.
Proof.
  intros E. enter E. exists h, ns. pose proof Hinv as [].
  destruct (p =? _dummy m) eqn:Ed; cbn [fst snd]; split; try done.
  all: try (by apply none_exposed).
  - exists [p]. at_access E. cbn. rewrite <- Permutation_middle. apply perm_swap.
  - at_access E.
  - intros a k _ _ _. at_access E.
  - exists []. at_access E.
  - at_access E.
  - intros a k _ _ _. at_access E.
Qed.

Lemma run_moves_all : in_window c t -> run_moves.
Proof.
  intros Hw. destruct (at_pc t) as [| | | | | | | | | | | | | |w| | | | |w b v| |r] eqn:E.
  all: eauto 6 using run_alloc, run_local, run_read, run_help, run_size, run_head, run_behind, run_data, run_link, run_free, run_take.
  - apply run_out. rewrite E. done.
  - apply (run_check w Hw E).
  - apply run_out. rewrite E. done.
Qed.

End moves.

(** ** Every reachable configuration *)

(** Only [Alloc] makes a node private. *)
Lemma private_step c t x : in_window c t -> x ∈ private (next_thread c t) -> x ∈ private t \/ unexposed c x.
Proof.
  unfold in_window, private, next_thread. destruct (at_pc t) eqn:E; cbn [step fst at_pc]; intros Hw Hx.
  all: repeat match type of Hx with context [if ?b then _ else _] => destruct b; cbn [fst] in Hx end.
  all: try (left; exact Hx); try (by apply not_elem_of_nil in Hx).
  destruct (pool (shared c)) as [|n l]; cbn [fst] in Hx; [by apply not_elem_of_nil in Hx|].
  apply list_elem_of_singleton in Hx as ->. right. exact Hw.
Qed.

Lemma q_inv_call c h ns i t p d :
  inv c h ns -> threads c !! i = Some t -> out (at_pc t) = true -> p = Enqueue d \/ p = Dequeue ->
  inv (call c i t p d) h ns.
Proof.
  intros Hv Hi Ho Hp. unfold call. rewrite <- (app_nil_r (hist c)).
  assert (Hout : owned t = [] /\ claims t = [] /\ admitted t = []).
  { unfold owned, claims, admitted, private. destruct (at_pc t); done. }
  destruct Hout as (E1 & E2 & E3).
  apply (q_inv_move c h ns i t); [done|done| |].
  - apply (move_quiet c h ns t Hv); rewrite ?E1, ?E2, ?E3; destruct Hp as [->| ->]; try done.
    all: intros q Hq; by apply not_elem_of_nil in Hq.
  - intros x Hx. destruct Hp as [->| ->]; by apply not_elem_of_nil in Hx.
Qed.

(** The pool and other queues do what they like with their nodes. *)
Lemma q_inv_pool c h ns l a :
  inv c h ns -> l ++ a ≡ₚ pool (shared c) ++ away c -> (forall n, n ∈ a -> n ∈ away c \/ unexposed c n) ->
  inv (mkConfig (set_pool (shared c) l) (threads c) (hist c) (pops c) (moves c) a) h ns.
Proof.
  intros [] Hp Ha. split; unfold rest_of in *; cbn; rewrite ?Hp; try done.
  { apply Permutation_length in Hp. unfold len in *. cbn [app length] in *. rewrite !length_app in *. lia. }
  intros i t q Hi Hq. specialize (i_exposed0 i t q Hi Hq). rewrite elem_of_app in *. intros [Hin|Hin]; [tauto|].
  destruct (Ha q Hin) as [?|Hu]; [tauto|]. apply (Hu i t Hi Hq).
Qed.

Lemma q_inv_other c h ns n v d :
  inv c h ns -> n ∈ away c ->
  inv (mkConfig (set_data (set_next (shared c) n v) n d) (threads c) (hist c) (pops c) (moves c) (away c)) h ns.
Proof.
  intros Hv Hn. pose proof (tail_in c h ns Hv) as Htl. destruct Hv. unfold rest_of in *.
  apply NoDup_app in i_nodup0 as Hnd. destruct Hnd as (_ & Hd & Hnd).
  assert (Hc : n ∉ h :: ns) by (intros Hc; apply (Hd n Hc); rewrite !elem_of_app; auto).
  assert (Hno : n ∉ all owned (threads c)).
  { apply NoDup_app in Hnd as (_ & Hd' & _). intros Ho. apply (Hd' n Ho), elem_of_app. auto. }
  assert (Hsame : forall x, x <> n -> next (set_data (set_next (shared c) n v) n d) x = next (shared c) x /\
    data (set_data (set_next (shared c) n v) n d) x = data (shared c) x).
  { intros x Hx. cbn. apply Z.eqb_neq in Hx. rewrite Hx. done. }
  split; unfold rest_of; try done.
  - apply (links_ext (next (shared c))); [done|]. intros x Hx. apply Hsame. intros ->. done.
  - intros i t Hi. apply (knows_local _ _ (shared c) _ _ _ _ n); try done; [eauto| |].
    + intros Hp. apply Hno, elem_of_all. exists i, t. split; [done|]. apply private_owned, Hp.
    + intros Hx. apply (i_exposed0 i t n Hi Hx), elem_of_app. auto.
  - cbn [hist]. rewrite i_hist0. f_equal. apply list_fmap_ext. intros j x Hj. symmetry. apply Hsame. intros ->.
    apply Hc. right. apply (list_elem_of_lookup_2 _ _ _ Hj).
Qed.

Lemma q_inv_step c c' h ns : inv c h ns -> sched_step c c' -> exists h' ns', inv c' h' ns'.
Proof.
  intros Hv Hs. destruct Hs as [c i t d Hi Ho|c i t Hi Ho|c i t Hi Hw|c l a Hp Ha|c n v d Hn].
  - exists h, ns. apply q_inv_call; auto.
  - exists h, ns. apply q_inv_call; auto.
  - destruct (run_moves_all c h ns i t Hv Hi Hw) as (h' & ns' & Hm). exists h', ns'.
    eapply q_inv_move; eauto using private_step.
  - exists h, ns. apply q_inv_pool; done.
  - exists h, ns. apply q_inv_other; done.
Qed.

Lemma all_idle {A} (f : thread -> list A) ts :
  (forall t, at_pc t = Idle -> f t = []) -> Forall (fun t => at_pc t = Idle) ts -> all f ts = [].
Proof.
  intros Hf. induction 1 as [|t ts Ht _ IH]; [done|]. unfold all in *. cbn. rewrite (Hf t Ht), IH. done.
Qed.

Lemma q_initial_inv c : initial c -> exists h, inv c h [].
Proof.
  intros ((code & dummy & nx & dt & nodes & Es & Hc & Hn & Hnd & Hb) & Hh & HP & HM & Hid). exists dummy.
  assert (Hp : dummy = pack dummy 0).
  { apply Forall_cons in Hn as [Hd _]. unfold node in Hd. rewrite TaggedStack.pack_eq by lia. rewrite Zmod_0_l. lia. }
  assert (Ho : all owned (threads c) = []) by (apply all_idle; [intros t Ht; unfold owned, private; rewrite Ht|]; done).
  assert (Hcl : all claims (threads c) = []) by (apply all_idle; [intros t Ht; unfold claims, admitted; rewrite Ht|]; done).
  assert (Ha : all admitted (threads c) = []) by (apply all_idle; [intros t Ht; unfold admitted; rewrite Ht|]; done).
  rewrite Forall_lookup in Hid. split; unfold rest_of; rewrite ?Es, ?Ho, ?Hcl, ?Ha, ?Hh, ?HP, ?HM; try done.
  - cbn. rewrite Z.eqb_refl. done.
  - exists dummy. split; [left|exact Hp].
  - intros i t q Hi. unfold exposed. rewrite (Hid i t Hi). intros Hq. by apply not_elem_of_nil in Hq.
  - intros i t Hi. unfold knows. rewrite (Hid i t Hi). done.
Qed.

Lemma q_reachable_inv c : reachable c -> exists h ns, inv c h ns.
Proof.
  intros (c0 & Hi & Hr). destruct (q_initial_inv _ Hi) as [h0 H0]. revert h0 H0. generalize (@nil Z).
  clear Hi. induction Hr as [c|c1 c2 c3 Hs _ IH]; intros l h Hv; [eauto|].
  destruct (q_inv_step _ _ _ _ Hv Hs) as (h' & ns' & Hv'). eapply IH, Hv'.
Qed.

(** ** When calls take effect *)
Lemma on_time_step c t : on_time t -> on_time (next_thread c t).
Proof.
  unfold on_time, next_thread, effect, result_of.
  destruct (at_pc t) as [| | | | | | | | | | | | | | | | | | | | |r] eqn:E; cbn [step]; intros Ht.
  all: repeat case_match; simplify_eq/=; try done.
Qed.

Lemma on_time_reachable c : reachable c -> Forall on_time (threads c).
Proof.
  intros (c0 & (_ & _ & _ & _ & Hid) & Hr). assert (H0 : Forall on_time (threads c0)).
  { eapply Forall_impl; [exact Hid|]. intros t Ht. unfold on_time. rewrite Ht. done. }
  clear Hid. induction Hr as [c|c1 c2 c3 Hs _ IH]; [done|]. apply IH. clear IH.
  destruct Hs as [c i t d Hi Ho|c i t Hi Ho|c i t Hi Hw| |]; try done; try (apply Forall_insert; done).
  apply Forall_insert; [done|]. apply on_time_step. rewrite Forall_lookup in H0. eauto.
Qed.

(** ** Schedules *)
Inductive command :=
  | CEnqueue (i : nat) (d : Z)
  | CDequeue (i : nat)
  | CRun (i : nat)
  | CPool (l a : list Z)
  | COther (n v d : Z).

Definition unexposedb (c : config) (n : Z) : bool := forallb (fun u => bool_decide (n ∉ exposed u)) (threads c).
Definition in_windowb (c : config) (t : thread) : bool :=
  match at_pc t with
  | EnqAlloc _ => match pool (shared c) with n :: _ => unexposedb c n | [] => true end
  | EnqHelp _ _ _ | EnqSwing _ _ | DeqHelp _ _ => moves c - seenTail t <? 2 ^ 17
  | DeqCheck _ | DeqCas _ _ _ => pops c - seenHead t <? 2 ^ 17
  | _ => true
  end.

Definition command_step (c : config) (o : command) : option config :=
  match o with
  | CEnqueue i d => t ← threads c !! i; if out (at_pc t) then Some (call c i t (Enqueue d) d) else None
  | CDequeue i => t ← threads c !! i; if out (at_pc t) then Some (call c i t Dequeue 0) else None
  | CRun i => t ← threads c !! i; if in_windowb c t then Some (advance c i t) else None
  | CPool l a =>
      if bool_decide (l ++ a ≡ₚ pool (shared c) ++ away c) &&
         forallb (fun n => bool_decide (n ∈ away c) || unexposedb c n) a
      then Some (mkConfig (set_pool (shared c) l) (threads c) (hist c) (pops c) (moves c) a)
      else None
  | COther n v d =>
      if bool_decide (n ∈ away c)
      then Some (mkConfig (set_data (set_next (shared c) n v) n d) (threads c) (hist c) (pops c) (moves c) (away c))
      else None
  end.

Definition after (os : list command) (c : config) : config :=
  fold_left (fun c o => default c (command_step c o)) os c.

Lemma unexposedb_sound c n : unexposedb c n = true -> unexposed c n.
Proof.
  intros Hf j u Hj. unfold unexposedb in Hf. rewrite forallb_forall in Hf. specialize (Hf u). rewrite bool_decide_eq_true in Hf.
  apply Hf, list_elem_of_In. apply (list_elem_of_lookup_2 _ j _ Hj).
Qed.

Lemma in_windowb_sound c t : in_windowb c t = true -> in_window c t.
Proof.
  unfold in_window, in_windowb. destruct (at_pc t); try done; try apply Z.ltb_lt.
  destruct (pool (shared c)) as [|n l]; [done|]. apply unexposedb_sound.
Qed.

Lemma q_command_step c o c' : command_step c o = Some c' -> sched_step c c'.
Proof.
  destruct o as [i d|i|i|l a|n v d]; cbn; try (destruct (threads c !! i) as [t|] eqn:Hi; cbn; [|done]).
  - destruct (out (at_pc t)) eqn:Ho; [|done]. intros [= <-]. apply sched_enqueue; done.
  - destruct (out (at_pc t)) eqn:Ho; [|done]. intros [= <-]. apply sched_dequeue; done.
  - destruct (in_windowb c t) eqn:Ho; [|done]. intros [= <-]. apply sched_run; [done|]. apply in_windowb_sound, Ho.
  - case_bool_decide as Hp; cbn; [|done]. destruct (forallb _ a) eqn:Ha; [|done]. intros [= <-].
    apply sched_pool; [done|]. intros n Hn%list_elem_of_In. rewrite forallb_forall in Ha. specialize (Ha n Hn).
    apply orb_true_iff in Ha as [Ha|Ha]; [left; apply bool_decide_eq_true in Ha; exact Ha|right; apply unexposedb_sound, Ha].
  - case_bool_decide as Hn; [|done]. intros [= <-]. apply sched_other, Hn.
Qed.

Lemma q_schedule_keeps os c : reachable c -> reachable (after os c).
Proof.
  revert c. induction os as [|o os IH]; intros c Hc; [exact Hc|]. cbn. apply IH.
  destruct (command_step c o) as [c'|] eqn:E; [|exact Hc]. destruct Hc as (c0 & Hi & Hr).
  exists c0. split; [done|]. eapply rtc_r; [exact Hr|]. eapply q_command_step, E.
Qed.

(** ** Properties *)
Lemma refusal_claims c h ns i t :
  inv c h ns -> threads c !! i = Some t -> in_window c t -> effect t (shared c) = [OpRefuse] ->
  at_pc t = DeqSize /\ len ns <= len (all claims (threads c)).
Proof.
  intros Hv Hi Hw. destruct (at_pc t) as [| | | | | | | | | | | | | |w| | | | | | |] eqn:E.
  all: unfold effect; rewrite E; try done; try (destruct (_ =? _); done).
  - destruct (i32 (_size (shared c) - 1) <? 0) eqn:En; [intros _|done]. split; [done|].
    apply Z.ltb_lt in En. pose proof Hv as []. rewrite i_size0, <- Z.add_opp_r, i32_add in En.
    pose proof (all_claims_le (threads c)). unfold len in *. rewrite length_app in i_bound0. cbn in i_bound0.
    rewrite (s_small 32) in En by lia. lia.
  - destruct (run_check c h ns i t Hv Hi w Hw E) as [-> _]. done.
Qed.

(** C35: the queue is linearizable, up to refusals, unless an [Enqueue] meets a recycled
    node: in every interleaving of any number of threads that enqueue and dequeue,
    whatever nodes the shared pool gives and other queues do with theirs, as long as
    no node is allocated that an [Enqueue] has read as the tail and is about to link
    to, and no thread sleeps through [2^17] changes of a word it is to exchange, the
    operations that took effect are, in their order, a history of a first-in first-out
    list of values, and the nodes linked from the head hold that list. Every call takes
    effect exactly once between its begin and its return, as what it returns. A
    [Dequeue] says empty only at its first access, and only when there are at most as
    many elements as calls under way that have changed one of the size and the list
    and not the other. When no call is under way, [GetUseSize] is the length of the
    list. *)
Theorem queue_linearizable c :
  reachable c ->
  exists h ns,
    replay [] (hist c) = Some (data (shared c) <$> ns) /\
    _head (shared c) = pack h (pops c) /\ links (_myCode (shared c)) (next (shared c)) h ns /\
    (forall i t, threads c !! i = Some t ->
      on_time t /\
      (in_window c t -> effect t (shared c) = [OpRefuse] ->
        at_pc t = DeqSize /\ len ns <= len (all claims (threads c)))) /\
    (Forall (fun t => out (at_pc t) = true) (threads c) -> GetUseSize (shared c) = len ns).
Proof.
  intros Hr. destruct (q_reachable_inv _ Hr) as (h & ns & Hv). pose proof (on_time_reachable _ Hr) as Hot.
  exists h, ns. split_and!; [apply (i_hist _ _ _ Hv)|apply (i_head _ _ _ Hv)|apply (i_links _ _ _ Hv)| |].
  - intros i t Hi. rewrite Forall_lookup in Hot. split; [eauto|]. apply (refusal_claims c h ns i t Hv Hi).
  - intros Hout. unfold GetUseSize. rewrite (i_size _ _ _ Hv).
    assert (E : all claims (threads c) = []).
    { clear - Hout. unfold all. induction Hout as [|t ts Ht _ IH]; [done|]. cbn. rewrite IH.
      unfold claims, admitted. destruct (at_pc t); done. }
    rewrite E. pose proof (i_bound _ _ _ Hv) as Hb. unfold len in *. rewrite length_app in Hb.
    cbn in *. rewrite (s_small 32) by lia. lia.
Qed.

(** Two threads that enqueue race, one helping the other; a third dequeues before the
    first element is counted and is refused. A node goes to another queue, which writes
    to it, and comes back while a [Dequeue] sleeps with it as the head. *)
Definition start : config :=
  mkConfig (new 0 0x1000 (fun _ => 7) (fun _ => 9) [0x2000; 0x3000; 0x4000])
    (replicate 3 (mkThread Idle 0 None 0 0)) [] 0 0 [0x5000].
Definition race : list command :=
  [CEnqueue 0 5; CEnqueue 1 6] ++ concat (replicate 6 [CRun 0; CRun 1]) ++ [CDequeue 2] ++
  concat (replicate 2 [CRun 0; CRun 2]) ++ replicate 12 (CRun 1) ++
  [CDequeue 0] ++ replicate 11 (CRun 0) ++ [CDequeue 2; CRun 2; CRun 2] ++
  [CEnqueue 0 7] ++ replicate 9 (CRun 0) ++ [CDequeue 1] ++ replicate 11 (CRun 1) ++
  [CPool [0x5000] [0x2000]; COther 0x2000 1 2; CPool [0x2000; 0x5000] []; CEnqueue 0 8] ++ replicate 9 (CRun 0) ++
  replicate 20 (CRun 2) ++ [CDequeue 2] ++ replicate 11 (CRun 2) ++ [CDequeue 2; CRun 2; CRun 2].

Lemma q_start_reachable : reachable start.
Proof.
  exists start. split; [|apply rtc_refl]. split; [|split_and!; [done|done|done|repeat constructor]].
  exists 0, 0x1000, (fun _ => 7), (fun _ => 9), [0x2000; 0x3000; 0x4000]. split_and!; [done| | | |].
  - vm_compute. discriminate.
  - repeat constructor.
  - apply (bool_decide_unpack _). vm_compute. done.
  - reflexivity.
Qed.

Lemma queue_linearizable_witness :
  hist (after race start) =
    [OpEnqueue 5; OpRefuse; OpEnqueue 6; OpDequeue 5; OpEnqueue 7; OpDequeue 6; OpEnqueue 8; OpDequeue 7; OpDequeue 8; OpRefuse] /\
  exists ns, replay [] (hist (after race start)) = Some (data (shared (after race start)) <$> ns) /\
    GetUseSize (shared (after race start)) = len ns.
Proof.
  split; [vm_compute; reflexivity|].
  destruct (queue_linearizable (after race start) (q_schedule_keeps race start q_start_reachable))
    as (h & ns & H & _ & _ & _ & Hs).
  exists ns. split; [exact H|]. apply Hs. apply (bool_decide_unpack _). vm_compute. done.
Defined.

End QueueLinear.
