(* ===== verification/QueueConsumer.v ===== *)
(** * One consumer of a lock-free queue

    [SendPost] is the only caller of [Dequeue] while it has the send flag, and it takes no
    more elements than [GetUseSize] told it. In the interleavings of [QueueInterleaving]
    such a consumer gets an element from every [Dequeue]: what [SessionSafety] calls an
    orderly run. *)
From S2P Require Import Prelude.
From S2P Require Import LockFreeQueue.
From S2P Require Import QueueInterleaving.
From S2P Require Import QueueLinear.
From stdpp Require Import prelude gmap list.
From Stdlib Require Import ZArith Lia.
Open Scope Z_scope.

Module QueueConsumer.
Import CLockFreeQueue.
Import QueueInterleaving.
Import QueueLinear.

#[export] Instance pc_eq_dec : EqDecision pc.
Proof. solve_decision. Defined.

Definition in_dequeue (p : pc) : bool :=
  match p with
  | DeqSize | DeqRestore | DeqHead | DeqNext _ | DeqCheck _ | DeqTail _ _ | DeqTailNext _ _ _ | DeqHelp _ _
  | DeqData _ _ | DeqCas _ _ _ | DeqFree _ _ => true
  | _ => false
  end.

(** A step in which no thread begins a [Dequeue]. *)
Definition no_call (c c' : config) : Prop :=
  forall j u, threads c' !! j = Some u -> at_pc u = Dequeue -> threads c !! j = Some u.

(** Steps of all threads among which thread [t] begins [n] calls of [Dequeue], and no other
    thread any. *)
Inductive consumer_run (t : nat) : nat -> config -> config -> Prop :=
  | cr_start c : consumer_run t 0 c c
  | cr_call n c c' u :
      consumer_run t n c c' -> threads c' !! t = Some u -> out (at_pc u) = true ->
      consumer_run t (S n) c (call c' t u Dequeue 0)
  | cr_step n c c' c'' :
      consumer_run t n c c' -> sched_step c' c'' -> no_call c' c'' -> consumer_run t n c c''.

(** After [n] calls of a consumer that saw the size [m]; [os] took effect. *)
Definition to_count (p : pc) : Z := match p with DeqSize => 1 | _ => 0 end.

Record served (t : nat) (m : Z) (n : nat) (c : config) (os : list op) : Prop := mkServed {
  sv_others : forall j u, threads c !! j = Some u -> in_dequeue (at_pc u) = true -> j = t;
  sv_self : forall u, threads c !! t = Some u ->
    at_pc u <> DeqRestore /\ ((0 < n)%nat -> at_pc u <> Got None) /\ m - Z.of_nat n + to_count (at_pc u) <= _size (shared c);
  sv_size : m - Z.of_nat n <= _size (shared c);
  sv_os : OpRefuse ∉ os;
}.

Lemma size_fits c h ns : inv c h ns -> - 2 ^ 31 < _size (shared c) < 2 ^ 31 - 1.
Proof.
  intros Hv. pose proof (all_claims_le (threads c)). pose proof (i_bound _ _ _ Hv) as Hb.
  rewrite (i_size _ _ _ Hv). unfold len in *. rewrite length_app in Hb. cbn in Hb. rewrite (s_small 32); lia.
Qed.

(** What an access does to the size, and where it leads. *)
Lemma access_size c h ns i u :
  inv c h ns -> threads c !! i = Some u -> in_window c u -> at_pc u <> DeqRestore ->
  let p' := at_pc (next_thread c u) in let s' := _size (step (at_pc u) (shared c)).2 in
  (at_pc u <> DeqSize \/ 0 < _size (shared c) ->
     (OpRefuse ∉ effect u (shared c)) /\ p' <> DeqRestore /\ (p' = Got None -> at_pc u = Got None)) /\
  (in_dequeue p' = true -> in_dequeue (at_pc u) = true) /\ p' <> DeqSize /\
  (at_pc u <> DeqSize -> _size (shared c) <= s') /\ (at_pc u = DeqSize -> s' = _size (shared c) - 1).
Proof.
  intros Hv Hi Hw Hr. pose proof (size_fits c h ns Hv) as Hb. unfold next_thread, effect. cbn [at_pc].
  assert (Hno : OpRefuse ∉ @nil op) by apply not_elem_of_nil.
  assert (Hone : forall o, o <> OpRefuse -> OpRefuse ∉ [o]) by (intros o Ho E%list_elem_of_singleton; congruence).
  assert (Hcas : forall m w q, _size (cas_tail m w q) = _size m) by (intros m w q; unfold cas_tail; destruct (_ =? w); done).
  destruct (at_pc u) as [| | | | | | | | | | | | | |w| | | | | | |] eqn:E; cbn [step fst snd in_dequeue];
    rewrite ?Hcas; try done.
  all: try (destruct (run_check c h ns i u Hv Hi w Hw E) as [-> _]).
  all: try (destruct (pool (shared c)); cbn; split_and!; intros; split_and?; done).
  all: try (destruct (_ =? _); cbn; split_and!; intros; split_and?; try done; try lia; apply Hone; done).
  all: try (split_and!; intros; split_and?; try done; lia).
  - cbn [set_size _size]. rewrite (s_small 32) by lia. split_and!; intros; split_and?; done || lia.
  - cbn [set_size _size]. rewrite (s_small 32) by lia. split.
    + intros [?|Hs]; [done|]. replace (_size (shared c) - 1 <? 0) with false by lia. done.
    + destruct (_ <? 0); split_and!; done.
Qed.

(** Any step of any thread in which no [Dequeue] begins. *)
Lemma served_step t m n c c' h ns os :
  inv c h ns -> served t m n c os -> sched_step c c' -> no_call c c' -> Z.of_nat n <= m ->
  exists os', hist c' = hist c ++ os' /\ served t m n c' (os ++ os').
Proof.
  intros Hv [Ho Hs Hz Hos] Hstep Hno Hn.
  assert (Hquiet : forall c1, threads c1 = threads c -> hist c1 = hist c -> _size (shared c1) = _size (shared c) ->
    exists os', hist c1 = hist c ++ os' /\ served t m n c1 (os ++ os')).
  { intros c1 Et Eh Es. exists []. rewrite !app_nil_r. split; [done|]. split; rewrite ?Et, ?Es; done. }
  destruct Hstep as [c i u d Hi Hout|c i u Hi Hout|c i u Hi Hw|c l a Hp Ha|c k v d Hk].
  - exists []. rewrite !app_nil_r. split; [done|]. split; [| |exact Hz|exact Hos]; unfold call, Enqueue; cbn [threads shared].
    + intros j w [[<- [<- _]]|[_ Hj]]%list_lookup_insert_Some; [done|apply (Ho j w Hj)].
    + intros w [[_ [<- _]]|[_ Hj]]%list_lookup_insert_Some; [cbn; split_and!; [done|done|lia]|apply (Hs w Hj)].
  - specialize (Hno i (mkThread Dequeue 0 None (seenHead u) (seenTail u))). cbn in Hno.
    rewrite list_lookup_insert_eq in Hno by (apply lookup_lt_Some in Hi; exact Hi).
    rewrite Hno in Hi by done. injection Hi as Hi. rewrite <- Hi in Hout. unfold Dequeue in Hout. done.
  - destruct (decide (at_pc u = DeqRestore)) as [E|Hr].
    { assert (i = t) as -> by (apply (Ho i u Hi); rewrite E; done). destruct (Hs u Hi) as [? _]. done. }
    destruct (access_size c h ns i u Hv Hi Hw Hr) as (Hq & Hd & Hnd & Hsz & Hsz').
    assert (Hdeq : at_pc u = DeqSize -> i = t /\ 0 < _size (shared c) /\ m - Z.of_nat n + 1 <= _size (shared c)).
    { intros E. assert (i = t) as -> by (apply (Ho i u Hi); rewrite E; done). destruct (Hs u Hi) as (_ & _ & H1).
      rewrite E in H1. cbn in H1. split_and!; [done|lia|lia]. }
    destruct Hq as (Hq & Hr' & Hg); [destruct (decide (at_pc u = DeqSize)) as [E|]; [right; apply Hdeq, E|left; done]|].
    assert (Hz' : m - Z.of_nat n <= _size (step (at_pc u) (shared c)).2).
    { destruct (decide (at_pc u = DeqSize)) as [E|E]; [rewrite (Hsz' E); destruct (Hdeq E); lia|specialize (Hsz E); lia]. }
    exists (effect u (shared c)). split; [done|]. split; cbn [advance threads shared].
    + intros j w [[<- [<- _]]|[_ Hj]]%list_lookup_insert_Some; [intros Hw'; apply (Ho i u Hi), Hd, Hw'|apply (Ho j w Hj)].
    + intros w [[<- [<- _]]|[Hne Hj]]%list_lookup_insert_Some.
      * destruct (Hs u Hi) as (_ & H1 & _). split_and!; [exact Hr'|intros H0 E; apply (H1 H0), Hg, E|].
        destruct (at_pc (next_thread c u)); try done; cbn; lia.
      * destruct (Hs w Hj) as (H1 & H2 & H3). split_and!; [done|done|]. 
        assert (at_pc u <> DeqSize) by (intros E; destruct (Hdeq E); done). specialize (Hsz ltac:(done)). lia.
    + exact Hz'.
    + rewrite elem_of_app. tauto.
  - apply Hquiet; done.
  - apply Hquiet; done.
Qed.

(** C36: a consumer gets what it counted. In any interleaving of [QueueInterleaving], let no
    [Dequeue] be under way and let thread [t] read the size [m]. While [t] alone begins
    [Dequeue]s, at most [m] of them, and other threads enqueue as they like, no [Dequeue] is
    refused: none takes effect as a refusal and none returns without an element. So with
    [queue_linearizable] they return the first elements of the list, in order. *)
Theorem counted_elements_delivered c c' t n :
  reachable c -> (forall j u, threads c !! j = Some u -> in_dequeue (at_pc u) = false) ->
  consumer_run t n c c' -> Z.of_nat n <= GetUseSize (shared c) ->
  reachable c' /\ (exists os, hist c' = hist c ++ os /\ OpRefuse ∉ os) /\
  (forall u, threads c' !! t = Some u -> (0 < n)%nat -> at_pc u <> Got None).
Proof.
  intros Hr Hidle Hrun. unfold GetUseSize. set (m := _size (shared c)). intros Hn.
  enough (reachable c' /\ exists os, hist c' = hist c ++ os /\ served t m n c' os) as (H1 & os & H2 & Hs).
  { split; [exact H1|]. split; [exists os; split; [exact H2|apply (sv_os _ _ _ _ _ Hs)]|].
    intros u Hu. apply (sv_self _ _ _ _ _ Hs u Hu). }
  induction Hrun as [c|n c c' u Hrun IH Hu Hout|n c c' c'' Hrun IH Hstep Hno].
  - split; [done|]. exists []. rewrite app_nil_r. split; [done|]. subst m. split; [| |lia|apply not_elem_of_nil].
    + intros j u Hj E. rewrite (Hidle j u Hj) in E. done.
    + intros u Hu. specialize (Hidle t u Hu). destruct (at_pc u); try done; cbn; split_and!; try done; lia.
  - destruct IH as (Hr' & os & Eh & [Ho Hs Hz Hos]); [done|done|lia|]. split.
    { destruct Hr' as (c0 & Hi & Hr'). exists c0. split; [done|]. eapply rtc_r; [exact Hr'|]. apply sched_dequeue; done. }
    exists os. split; [done|]. split; unfold call, Dequeue; cbn [threads shared]; [| |lia|done].
    + intros j w [[<- [<- _]]|[_ Hj]]%list_lookup_insert_Some; [done|apply (Ho j w Hj)].
    + intros w [[_ [<- _]]|[? _]]%list_lookup_insert_Some; [cbn; split_and!; [done|done|lia]|done].
  - destruct IH as (Hr' & os & Eh & Hs); [done|done|lia|]. split.
    { destruct Hr' as (c0 & Hi & Hr'). exists c0. split; [done|]. eapply rtc_r; [exact Hr'|exact Hstep]. }
    destruct (q_reachable_inv _ Hr') as (h & ns & Hv).
    destruct (served_step t m n c' c'' h ns os Hv Hs Hstep Hno Hn) as (os' & Eh' & Hs').
    exists (os ++ os'). rewrite Eh', Eh, app_assoc. done.
Qed.

(** ** A schedule *)
Definition allowed (t : nat) (o : command) : bool := match o with CDequeue i => (i =? t)%nat | _ => true end.
Definition begins (o : command) : bool := match o with CDequeue _ => true | _ => false end.

Lemma step_not_begin p m : (step p m).1 <> DeqSize.
Proof. destruct p; cbn; repeat case_match; done. Qed.

Lemma command_run t n c c1 o c2 :
  consumer_run t n c c1 -> allowed t o = true -> command_step c1 o = Some c2 ->
  consumer_run t (n + if begins o then 1 else 0) c c2.
Proof.
  intros Hrun Ha E. pose proof (q_command_step _ _ _ E) as Hs.
  destruct o as [i d|i|i|l a|k v d]; cbn in *; rewrite ?Nat.add_0_r.
  - apply (cr_step t n c c1 c2 Hrun Hs). destruct (threads c1 !! i) as [u|]; [|done]. cbn in E.
    destruct (out (at_pc u)); [|done]. injection E as <-.
    intros j w [[_ [<- _]]|[_ Hj]]%list_lookup_insert_Some; [done|intros _; exact Hj].
  - apply Nat.eqb_eq in Ha as ->. rewrite Nat.add_1_r. destruct (threads c1 !! t) as [u|] eqn:Hu; [|done]. cbn in E.
    destruct (out (at_pc u)) eqn:Ho; [|done]. injection E as <-. apply cr_call; done.
  - apply (cr_step t n c c1 c2 Hrun Hs). destruct (threads c1 !! i) as [u|]; [|done]. cbn in E.
    destruct (in_windowb c1 u); [|done]. injection E as <-.
    intros j w [[_ [<- _]]|[_ Hj]]%list_lookup_insert_Some; [|intros _; exact Hj]. cbn. intros Ep.
    destruct (step_not_begin _ _ Ep).
  - apply (cr_step t n c c1 c2 Hrun Hs). destruct (_ && _); [|done]. injection E as <-. intros j w Hj _. exact Hj.
  - apply (cr_step t n c c1 c2 Hrun Hs). destruct (bool_decide _); [|done]. injection E as <-. intros j w Hj _. exact Hj.
Qed.

Lemma after_run t os : forall n c c1,
  consumer_run t n c c1 -> forallb (allowed t) os = true ->
  exists k, consumer_run t k c (after os c1) /\ (n <= k <= n + length (List.filter begins os))%nat.
Proof.
  induction os as [|o os IH]; intros n c c1 Hrun Ha; [exists n; cbn; split; [done|lia]|].
  cbn [forallb] in Ha. apply andb_true_iff in Ha as [Ho Ha]. cbn [after fold_left].
  assert (H1 : exists n1, consumer_run t n1 c (default c1 (command_step c1 o)) /\
    (n <= n1 <= n + if begins o then 1 else 0)%nat).
  { destruct (command_step c1 o) as [c2|] eqn:E; cbn [default].
    - eexists. split; [eapply command_run; done|lia].
    - exists n. split; [done|destruct (begins o); lia]. }
  destruct H1 as (n1 & Hr1 & Hn1). destruct (IH n1 c _ Hr1 Ha) as (k & Hk & Hn). exists k. split; [exact Hk|].
  cbn [List.filter]. destruct (begins o); cbn [length]; lia.
Qed.

(** Thread 0 has enqueued twice; thread 1 dequeues twice while thread 0 enqueues again and
    thread 2 has linked an element that is not counted. *)
Definition counted : config := after (concat [CEnqueue 0 5 :: replicate 9 (CRun 0); CEnqueue 0 6 :: replicate 9 (CRun 0)]) start.
Definition consuming : list command :=
  [CEnqueue 2 7; CDequeue 1; CEnqueue 0 8] ++ concat (replicate 7 [CRun 2; CRun 1]) ++ replicate 8 (CRun 1) ++
  [CDequeue 1] ++ concat (replicate 14 [CRun 1; CRun 0]).

Lemma counted_elements_delivered_witness :
  GetUseSize (shared counted) = 2 /\
  hist (after consuming counted) = [OpEnqueue 5; OpEnqueue 6; OpEnqueue 7; OpDequeue 5; OpDequeue 6; OpEnqueue 8] /\
  exists os, hist (after consuming counted) = hist counted ++ os /\ OpRefuse ∉ os.
Proof.
  assert (Hs : GetUseSize (shared counted) = 2) by (vm_compute; reflexivity).
  split; [exact Hs|]. split; [vm_compute; reflexivity|].
  destruct (after_run 1 consuming 0 counted counted (cr_start 1 counted)) as (k & Hrun & Hk); [vm_compute; reflexivity|].
  change (length (List.filter begins consuming)) with 2%nat in Hk.
  refine (proj1 (proj2 (counted_elements_delivered counted _ 1 k _ _ Hrun _))).
  - apply q_schedule_keeps, q_start_reachable.
  - assert (Hf : forallb (fun u => negb (in_dequeue (at_pc u))) (threads counted) = true) by (vm_compute; reflexivity).
    revert Hf. generalize (threads counted). intros ts Hf j u Hj. rewrite forallb_forall in Hf.
    apply negb_true_iff, Hf, list_elem_of_In, (list_elem_of_lookup_2 _ j _ Hj).
  - rewrite Hs. lia.
Defined.

End QueueConsumer.
