(* ===== verification/LockFreedom.v ===== *)
(** * The lock-free containers make progress

    What the names of [CLockFreeStack] and [CLockFreeQueue] promise: threads that are in
    calls keep completing them, whatever the interleaving. A schedule is charged one for
    every access a call makes to shared memory; a potential, the sum of what each thread
    has left to do when nobody disturbs it, shows that the accesses of a schedule are at
    most a constant for every operation that took effect. *)
From S2P Require Import Prelude.
From S2P Require Import TaggedStack.
From S2P Require Import LockFreeStack.
From S2P Require Import LockFreeQueue.
From S2P Require Import QueueInterleaving.
From S2P Require Import QueueLinear.
From stdpp Require Import prelude gmap list.
From Stdlib Require Import ZArith Lia.
Open Scope Z_scope.

(** ** Sums over threads *)
Section sums.
Context {A : Type}.

Definition weights (w : A -> Z) (ts : list A) : Z := foldr (fun t s => w t + s) 0 ts.

Lemma weights_cons w t ts : weights w (t :: ts) = w t + weights w ts.
Proof. reflexivity. Qed.

(** One thread goes from [t] to [t'] and the others' weights grow by [d] at most. *)
Lemma weights_grows (w w' : A -> Z) ts d :
  (forall u, w' u <= w u + d) -> weights w' ts <= weights w ts + d * Z.of_nat (length ts).
Proof.
  intros Hw. induction ts as [|u ts IH]; [cbn; lia|].
  rewrite !weights_cons. cbn [length]. specialize (Hw u). nia.
Qed.

Lemma weights_insert (w w' : A -> Z) ts i t t' d :
  ts !! i = Some t -> (forall u, w' u <= w u + d) ->
  weights w' (<[i := t']> ts) + w t <= weights w ts + w' t' + d * (Z.of_nat (length ts) - 1).
Proof.
  intros Hi Hw. revert i Hi. induction ts as [|u ts IH]; intros [|i] Hi; try done; cbn in Hi.
  - injection Hi as ->. cbn [insert list_insert]. rewrite !weights_cons. cbn [length].
    pose proof (weights_grows w w' ts d Hw). nia.
  - specialize (IH i Hi). specialize (Hw u). cbn [insert list_insert]. rewrite !weights_cons. cbn [length].
    unfold insert in *. nia.
Qed.

Lemma weights_lower (w : A -> Z) ts b : (forall t, - b <= w t) -> - (b * Z.of_nat (length ts)) <= weights w ts.
Proof.
  intros Hw. induction ts as [|t ts IH]; [cbn; lia|]. rewrite weights_cons. cbn [length]. specialize (Hw t). nia.
Qed.

Lemma weights_none (w : A -> Z) ts : Forall (fun t => w t = 0) ts -> weights w ts = 0.
Proof. induction 1 as [|t ts Ht _ IH]; [done|]. rewrite weights_cons. lia. Qed.
End sums.
#[local] Arguments weights : simpl never.

(** ** The stack *)
Module StackProgress.
Import CLockFreeStack.

(** A thread that is not in a call, or waits for the pool to have a node, makes no
    access. *)
Definition working (c : config) (t : thread) : bool :=
  match at_pc t with
  | Idle | Popped _ => false
  | PushAlloc _ => match pool (shared c) with [] => false | _ => true end
  | _ => true
  end.

Definition cost (c : config) (o : command) : Z :=
  match o with
  | CRun i =>
      match threads c !! i, command_step c o with
      | Some t, Some _ => if working c t then 1 else 0
      | _, _ => 0
      end
  | _ => 0
  end.

(** The accesses that calls make in a schedule. *)
Fixpoint accesses (os : list command) (c : config) : Z :=
  match os with
  | [] => 0
  | o :: os => cost c o + accesses os (default c (command_step c o))
  end.

(** What a call has left to do, alone; four more when what it read has changed. *)
Definition left_alone (m : mem) (p : pc) : Z :=
  let stale b := if (b : bool) then 0 else 4 in
  match p with
  | Idle | Popped _ => 0
  | PushAlloc _ => 5
  | PushData _ _ => 4
  | PushRead _ _ => 3
  | PushNext _ _ bk => 2 + stale (_top m =? bk)
  | PushCas _ _ bk => 1 + stale (_top m =? bk)
  | PopUniq => 6
  | PopTop u => 5 + stale (_uniqIdx m =? u)
  | PopNext u p => 4 + stale ((_uniqIdx m =? u) && (_top m =? p))
  | PopCas u p _ => 3 + stale ((_uniqIdx m =? u) && (_top m =? p))
  | PopData _ => 2
  | PopFree _ _ => 1
  end.

(** The call has not taken effect: six accesses are lent to it until it does. *)
Definition pending (m : mem) (p : pc) : bool :=
  match p with
  | PushAlloc _ | PushData _ _ | PushRead _ _ | PushNext _ _ _ | PushCas _ _ _
  | PopUniq | PopTop _ | PopCas _ _ _ => true
  | PopNext _ p => negb (p =? _dummyNode m)
  | _ => false
  end.
Definition weight (m : mem) (t : thread) : Z :=
  left_alone m (at_pc t) - if pending m (at_pc t) then 6 else 0.
Definition potential (c : config) : Z := weights (weight (shared c)) (threads c).

(** A change of the top costs the others a turn of their loops. *)
Lemma weight_others m m' t :
  _dummyNode m' = _dummyNode m ->
  weight m' t <= weight m t + (if (_top m' =? _top m) && (_uniqIdx m' =? _uniqIdx m) then 0 else 4).
Proof.
  intros Ed. unfold weight, left_alone, pending. rewrite Ed.
  destruct (Z.eqb_spec (_top m') (_top m)) as [->|]; destruct (Z.eqb_spec (_uniqIdx m') (_uniqIdx m)) as [->|];
    cbn [andb]; destruct (at_pc t); repeat case_match; lia.
Qed.

(** An access that takes effect on the stack, or is a step of the way. *)
Lemma access_paid c U l t :
  inv c U l -> (exists i, threads c !! i = Some t) -> working c t = true ->
  let '(p', m', os) := step (at_pc t) (shared c) in
  forall s tk, weight m' (mkThread p' s tk) + 1 <= weight (shared c) t + 6 * Z.of_nat (length os) /\
    _dummyNode m' = _dummyNode (shared c) /\
    (if (_top m' =? _top (shared c)) && (_uniqIdx m' =? _uniqIdx (shared c)) then 0 else 4) <= 4 * Z.of_nat (length os).
Proof.
  intros Hv [i Hi] Hw. pose proof (inv_knows _ _ _ Hv i t Hi) as Hk. pose proof (inv_dummy _ _ _ Hv) as [_ Hd].
  unfold working, weight, knows in *. destruct (at_pc t) as [|d|n d|n d|n d bk|n d bk| |u|u p|u p nx|p|p v|r] eqn:E; try done; cbn [step].
  - destruct (pool (shared c)) as [|n ns]; [done|]. intros s tk. cbn. rewrite !Z.eqb_refl. cbn. split_and!; [lia|done|lia].
  - intros s tk. cbn. rewrite !Z.eqb_refl. cbn. split_and!; [lia|done|lia].
  - intros s tk. cbn. rewrite !Z.eqb_refl. cbn. split_and!; [lia|done|lia].
  - intros s tk. cbn. rewrite !Z.eqb_refl. cbn. split_and!; [lia|done|lia].
  - destruct (_top (shared c) =? bk) eqn:Eb; intros s tk; cbn; rewrite ?Eb, ?Z.eqb_refl; cbn; split_and!; try done; repeat case_match; lia.
  - intros s tk. cbn. rewrite !Z.eqb_refl. cbn. split_and!; [lia|done|lia].
  - intros s tk. cbn. rewrite !Z.eqb_refl. cbn.
    destruct (_uniqIdx (shared c) =? u); destruct (_top (shared c) =? _dummyNode (shared c)); cbn; split_and!; (done || lia).
  - destruct (Z.eqb_spec p (_dummyNode (shared c))) as [->|Hp].
    + rewrite Hd. cbn. intros s tk. rewrite !Z.eqb_refl. cbn. split_and!; [|done|lia]. repeat case_match; lia.
    + destruct Hk as [_ [Hnz _]]. apply Z.eqb_neq in Hnz as ->, Hp. intros s tk. cbn. rewrite Hp, !Z.eqb_refl. cbn.
      split_and!; [lia|done|lia].
  - destruct ((_uniqIdx (shared c) =? u) && (_top (shared c) =? p)) eqn:Eb; intros s tk; cbn; rewrite ?Eb, ?Z.eqb_refl; cbn;
      split_and!; try done; repeat case_match; lia.
  - intros s tk. cbn. rewrite !Z.eqb_refl. cbn. split_and!; [lia|done|lia].
  - intros s tk. cbn. rewrite !Z.eqb_refl. cbn. split_and!; [lia|done|lia].
Qed.

(** What the threads have left to do pays [k] accesses on the way from [c] to [c'], with
    [2 + 4 * n] for every operation that takes effect. *)
Definition effects (c : config) : Z := Z.of_nat (length (hist c)).
Definition paid (c c' : config) (k : Z) : Prop :=
  length (threads c') = length (threads c) /\ effects c <= effects c' /\
  potential c' + k <= potential c + (2 + 4 * Z.of_nat (length (threads c))) * (effects c' - effects c).

Lemma stack_call_paid c i t p :
  threads c !! i = Some t -> weight (shared c) (mkThread p (seen t) None) <= weight (shared c) t -> paid c (call c i t p) 0.
Proof.
  intros Hi Hw. unfold paid, potential, effects, call. cbn. rewrite length_insert. split_and!; [done|lia|].
  assert (Hsame : forall u, weight (shared c) u <= weight (shared c) u + 0) by (intros; lia).
  pose proof (weights_insert _ _ _ i t (mkThread p (seen t) None) 0 Hi Hsame). rewrite Z.sub_diag. lia.
Qed.

Lemma stack_advance_paid c U l i t :
  inv c U l -> threads c !! i = Some t -> paid c (advance c i t) (if working c t then 1 else 0).
Proof.
  intros Hv Hi. unfold paid, potential, effects, advance. destruct (working c t) eqn:Hw.
  - pose proof (access_paid c U l t Hv (ex_intro _ i Hi) Hw) as Ha. destruct (step (at_pc t) (shared c)) as [[p' m'] os].
    set (t' := mkThread p' (match at_pc t with PopUniq => pops c | _ => seen t end) (result_of os (took t))).
    destruct (Ha (seen t') (took t')) as (Hwt & Hd & Ht). cbn. rewrite length_insert, length_app. split_and!; [done|lia|].
    pose proof (weights_insert _ _ _ i t t' _ Hi (fun u => weight_others (shared c) m' u Hd)) as Hsum.
    apply lookup_lt_Some in Hi. revert Ht Hsum Hwt. generalize (if (_top m' =? _top (shared c)) && (_uniqIdx m' =? _uniqIdx (shared c)) then 0 else 4).
    rewrite Nat2Z.inj_add, Z.add_simpl_l. change (mkThread p' (seen t') (took t')) with t'. fold t'. intros d Ht Hsum Hwt. nia.
  - assert (E : step (at_pc t) (shared c) = (at_pc t, shared c, [])).
    { unfold working in Hw. destruct (at_pc t); try done. cbn. destruct (pool (shared c)); done. }
    rewrite E. cbn. rewrite length_insert, app_nil_r. split_and!; [done|lia|].
    assert (Hsame : forall u, weight (shared c) u <= weight (shared c) u + 0) by (intros; lia).
    pose proof (weights_insert _ _ _ i t (mkThread (at_pc t) (match at_pc t with PopUniq => pops c | _ => seen t end) (took t)) 0 Hi Hsame) as Hsum.
    unfold weight in *. cbn in *. rewrite Z.sub_diag. lia.
Qed.

Lemma stack_command_paid c U l o : inv c U l -> paid c (default c (command_step c o)) (cost c o).
Proof.
  intros Hv. assert (Hnone : paid c c 0) by (unfold paid; lia).
  unfold cost. destruct o as [i d|i|i|i]; cbn; destruct (threads c !! i) as [t|] eqn:Hi; try done; cbn.
  1-3: destruct (at_pc t) eqn:E; try done; apply stack_call_paid; [done|]; unfold weight; rewrite E; cbn; lia.
  pose proof (stack_advance_paid c U l i t Hv Hi) as Ha. destruct (at_pc t); try exact Ha.
  destruct (pops c - seen t <? 2 ^ 64); [exact Ha|exact Hnone].
Qed.

Lemma stack_schedule_paid os c : reachable c -> paid c (after os c) (accesses os c).
Proof.
  revert c. induction os as [|o os IH]; intros c Hr; [unfold paid; cbn; lia|].
  destruct (lf_reachable_inv _ Hr) as (U & l & Hv). destruct (stack_command_paid c U l o Hv) as (Hn & He & Hp).
  destruct (IH _ (schedule_keeps [o] c Hr)) as (Hn' & He' & Hp'). cbn [after fold_left accesses] in *.
  unfold paid, after in *. cbn [fold_left]. rewrite Hn in *. split_and!; [done|lia|nia].
Qed.

Lemma stack_weight_lower m t : - 6 <= weight m t.
Proof. unfold weight, left_alone, pending. destruct (at_pc t); repeat case_match; lia. Qed.

(** C34: the lock-free stack is lock-free. In every schedule of [n] threads that push and
    pop, however their accesses are interleaved, the calls together make at most
    [2 + 4 * n] accesses to shared memory for each operation that takes effect, and six
    for each thread. So as long as threads in calls run, operations take effect, and no
    thread can keep the others from it by stopping, wherever it stops. *)
Theorem stack_lock_free c os :
  initial c ->
  let n := Z.of_nat (length (threads c)) in
  accesses os c <= 6 * n + (2 + 4 * n) * effects (after os c).
Proof.
  intros Hi n. assert (Hr : reachable c) by (exists c; split; [done|apply rtc_refl]).
  destruct (stack_schedule_paid os c Hr) as (Hn & _ & Hp). destruct Hi as (_ & _ & Hh & Hid).
  assert (H0 : potential c = 0).
  { apply weights_none. eapply Forall_impl; [exact Hid|]. intros t Ht. unfold weight. rewrite Ht. done. }
  pose proof (weights_lower (weight (shared (after os c))) (threads (after os c)) 6 (stack_weight_lower _)) as Hl.
  rewrite Hn in Hl. unfold potential, effects in *. rewrite Hh in Hp. cbn [length] in Hp. subst n. lia.
Qed.

(** Two threads that keep spoiling each other's push: every access is made. *)
Lemma stack_lock_free_witness :
  let c := after race start in
  accesses race start = 32 /\ effects c = 5 /\
  accesses race start <= 6 * 2 + (2 + 4 * 2) * effects c.
Proof.
  split_and!; [vm_compute; reflexivity|vm_compute; reflexivity|].
  apply (stack_lock_free start race). split; [|split_and!; [done|done|repeat constructor]].
  exists 16, (fun _ => 7), (fun _ => 9), [4096; 8192]. split_and!; [done|done| | |].
  - repeat constructor; apply (bool_decide_unpack _); vm_compute; done.
  - apply (bool_decide_unpack _). vm_compute. done.
  - apply (bool_decide_unpack _). vm_compute. done.
Defined.
End StackProgress.

(** ** The queue *)
Module QueueProgress.
Import CLockFreeQueue QueueInterleaving QueueLinear.

(** A thread that is not in a call, or waits for the pool to have a node, makes no
    access. *)
Definition working (c : config) (t : thread) : bool :=
  match at_pc t with
  | EnqAlloc _ => match pool (shared c) with [] => false | _ => true end
  | p => negb (out p)
  end.

Definition cost (c : config) (o : command) : Z :=
  match o with
  | CRun i =>
      match threads c !! i, command_step c o with
      | Some t, Some _ => if working c t then 1 else 0
      | _, _ => 0
      end
  | _ => 0
  end.

(** The accesses that calls make in a schedule. *)
Fixpoint accesses (os : list command) (c : config) : Z :=
  match os with
  | [] => 0
  | o :: os => cost c o + accesses os (default c (command_step c o))
  end.

(** What a call has left to do, alone; more when the head or the tail it read has
    changed since, or an element was linked behind the tail ([lag] of them). *)
Definition left_alone (P M lag : Z) (t : thread) : Z :=
  let staleH := if seenHead t =? P then 0 else 6 in
  let staleT := if seenTail t =? M then 0 else 5 in
  match at_pc t with
  | Idle | Got _ => 0
  | EnqAlloc _ => 8
  | EnqData _ _ => 7
  | EnqNext _ => 6
  | EnqTail _ => 5
  | EnqRead _ _ => 4 + staleT
  | EnqCas _ _ => 3 + if (seenTail t =? M) && (lag =? 0) then 0 else 5
  | EnqHelp _ _ _ => 3 + staleT
  | EnqSwing _ _ => 2
  | EnqSize => 1
  | DeqSize => 8
  | DeqRestore => 1
  | DeqHead => 7
  | DeqNext _ => 6 + staleH
  | DeqCheck _ => 5 + staleH
  | DeqTail _ _ => 5 + staleH
  | DeqTailNext _ _ _ => 4 + staleH + staleT
  | DeqHelp _ _ => 3 + staleT
  | DeqData _ _ => 3 + staleH
  | DeqCas _ _ _ => 2 + staleH
  | DeqFree _ _ => 1
  end.

(** The call has not taken effect: eight accesses are lent to it until it does. *)
Definition pending (p : pc) : bool :=
  match p with
  | Idle | Got _ | EnqSwing _ _ | EnqSize | DeqRestore | DeqFree _ _ => false
  | _ => true
  end.
Definition weight (P M lag : Z) (t : thread) : Z :=
  left_alone P M lag t - if pending (at_pc t) then 8 else 0.

(** Every element behind the tail will cost each thread a turn. *)
Definition potential (c : config) (lag : Z) : Z :=
  weights (weight (pops c) (moves c) lag) (threads c) + 5 * Z.of_nat (length (threads c)) * lag.

(** [rest] is linked behind the tail. *)
Definition behind (m : mem) (rest : list Z) : Prop :=
  links (_myCode m) (next m) (ptr_of (_tail m)) rest /\ Forall node rest.

(** What others do to a weight: the tail is moved, an element linked, the head moved. *)
Lemma weight_tail P M lag t : 0 <= lag -> weight P (M + 1) lag t <= weight P M (lag + 1) t + 5.
Proof. intros Hl. unfold weight, left_alone. destruct (at_pc t); repeat case_match; lia. Qed.

Lemma weight_link P M lag t : weight P M (lag + 1) t <= weight P M lag t + 5.
Proof. unfold weight, left_alone. destruct (at_pc t); repeat case_match; lia. Qed.

Lemma weight_head P M lag t : weight (P + 1) M lag t <= weight P M lag t + 6.
Proof. unfold weight, left_alone. destruct (at_pc t); repeat case_match; lia. Qed.

(** ** What is behind the tail *)
Lemma links_det code nx p r1 r2 :
  2 ^ 47 <= code -> links code nx p r1 -> links code nx p r2 -> Forall node r1 -> Forall node r2 -> r1 = r2.
Proof.
  intros Hc. revert p r2. induction r1 as [|x r1 IH]; intros p [|y r2] H1 H2 N1 N2; cbn in *; try done.
  - destruct H2 as [E _]. apply Forall_cons in N2 as [N _]. unfold node in N. lia.
  - destruct H1 as [E _]. apply Forall_cons in N1 as [N _]. unfold node in N. lia.
  - destruct H1 as [<- H1], H2 as [<- H2]. apply Forall_cons in N1 as [_ N1], N2 as [_ N2]. f_equal. eauto.
Qed.

Lemma links_drop code nx h ns k q :
  links code nx h ns -> (h :: ns) !! k = Some q -> links code nx q (drop (S k) (h :: ns)).
Proof.
  revert h ns. induction k as [|k IH]; intros h ns Hl Hk.
  - injection Hk as <-. exact Hl.
  - destruct ns as [|n ns]; [done|]. destruct Hl as [_ Hl]. apply (IH n ns Hl Hk).
Qed.

Lemma inv_behind c h ns : inv c h ns -> exists k, let rest := drop (S k) (h :: ns) in behind (shared c) rest /\ ptr_of (_tail (shared c)) :: rest = drop k (h :: ns).
Proof.
  intros Hv. destruct (proj1 (list_elem_of_lookup _ _) (tail_in _ _ _ Hv)) as [k Hk].
  exists k. split; [|symmetry; apply drop_S, Hk]. split; [apply (links_drop _ _ _ _ _ _ (i_links _ _ _ Hv) Hk)|].
  apply Forall_drop, Forall_forall. apply (linked_node _ _ _ Hv).
Qed.

Lemma len_nil {A} : len (@nil A) = 0.
Proof. reflexivity. Qed.

Section accesses.
Context (c : config) (h : Z) (ns : list Z) (i : nat) (t : thread) (rest : list Z).
Context (Hinv : inv c h ns) (Hi : threads c !! i = Some t) (Hrest : behind (shared c) rest).
Notation m := (shared c).
Notation P := (pops c).
Notation M := (moves c).

Lemma rest_drop : exists k, ptr_of (_tail m) :: rest = drop k (h :: ns).
Proof.
  destruct (inv_behind _ _ _ Hinv) as (k & [Hr Hn] & Hd). destruct Hrest as [Hl Hrn]. exists k.
  rewrite (links_det _ _ _ _ _ (i_code _ _ _ Hinv) Hl Hr Hrn Hn). exact Hd.
Qed.

Lemma rest_nodup : NoDup (ptr_of (_tail m) :: rest).
Proof.
  destruct rest_drop as [k ->]. pose proof (linked_nodup _ _ _ Hinv) as Hnd.
  rewrite <- (take_drop k (h :: ns)) in Hnd. apply NoDup_app in Hnd as (_ & _ & Hnd). exact Hnd.
Qed.

Lemma rest_in : ptr_of (_tail m) :: rest ⊆ h :: ns.
Proof.
  destruct rest_drop as [k ->]. intros x Hx. rewrite <- (take_drop k (h :: ns)). apply elem_of_app. auto.
Qed.

(** The tail is the last node when the code follows it, and not otherwise. *)
Lemma rest_nil : next m (ptr_of (_tail m)) = _myCode m -> rest = [].
Proof.
  intros E. destruct Hrest as [Hl Hn]. destruct rest as [|x r]; [done|]. destruct Hl as [<- _].
  apply Forall_cons in Hn as [Hn _]. pose proof (i_code _ _ _ Hinv). unfold node in Hn. lia.
Qed.

Lemma rest_cons : next m (ptr_of (_tail m)) <> _myCode m -> exists r, rest = next m (ptr_of (_tail m)) :: r.
Proof. intros E. destruct Hrest as [Hl Hn]. destruct rest as [|x r]; [done|]. destruct Hl as [<- _]. eauto. Qed.

(** What an access does to the potential: it is a step of the way, or moves the tail on,
    or links an element, or takes one. *)
Definition pays : Prop :=
  exists rest', behind (step (at_pc t) m).2 rest' /\
  let w := weight P M (len rest) t in
  let w' := weight (P + moves_head t m) (M + moves_tail t m) (len rest') (next_thread c t) in
  (moves_head t m = 0 /\ moves_tail t m = 0 /\ len rest' = len rest /\ w' + 1 <= w + 8 * len (effect t m)) \/
  (moves_head t m = 0 /\ moves_tail t m = 1 /\ len rest = len rest' + 1 /\ w' <= w + 4 /\ effect t m = []) \/
  (moves_head t m = 0 /\ moves_tail t m = 0 /\ len rest' = len rest + 1 /\ w' + 1 <= w + 8 /\ len (effect t m) = 1) \/
  (moves_head t m = 1 /\ moves_tail t m = 0 /\ len rest' = len rest /\ w' + 1 <= w + 8 /\ len (effect t m) = 1).

Ltac at_pc E :=
  unfold moves_head, moves_tail, effect, next_thread, weight, left_alone; rewrite E; cbn [at_pc step fst snd seenHead seenTail pending].
Ltac known E :=
  pose proof (i_knows _ _ _ Hinv i t Hi) as Hk; unfold knows in Hk; rewrite E in Hk.
(** A step of the way that leaves the list. *)
Ltac on_the_way E :=
  exists rest; split; [rewrite E; exact Hrest|left; at_pc E; rewrite ?Z.add_0_r, ?Z.eqb_refl; split_and!; try done; cbn; repeat case_match; cbn; lia].

Lemma pays_local :
  (exists n d, at_pc t = EnqData n d) \/ (exists n, at_pc t = EnqTail n) \/ at_pc t = EnqSize \/
  at_pc t = DeqRestore \/ at_pc t = DeqHead \/ (exists w b, at_pc t = DeqTail w b) \/ (exists w b, at_pc t = DeqData w b) -> pays.
Proof.
  intros [(n & d & E)|[(n & E)|[E|[E|[E|[(w & b & E)|(w & b & E)]]]]]]; on_the_way E.
Qed.

Lemma pays_alloc d : at_pc t = EnqAlloc d -> working c t = true -> pays.
Proof.
  intros E Hw. unfold working in Hw. rewrite E in Hw. destruct (pool m) as [|n l] eqn:Ep; [done|].
  exists rest. split; [rewrite E; cbn; rewrite Ep; exact Hrest|]. left. at_pc E. rewrite Ep. cbn. split_and!; try done; lia.
Qed.

Lemma pays_size : at_pc t = DeqSize -> pays.
Proof.
  intros E. exists rest. split; [rewrite E; exact Hrest|]. left. at_pc E. rewrite !Z.add_0_r.
  destruct (i32 (_size m - 1) <? 0); cbn; split_and!; try done; lia.
Qed.

Lemma pays_free p v : at_pc t = DeqFree p v -> pays.
Proof.
  intros E. exists rest. split; [rewrite E; cbn; destruct (p =? _dummy m); exact Hrest|]. left. at_pc E. cbn. split_and!; (done || lia).
Qed.

(** A node that is not in the list is written. *)
Lemma pays_next n : at_pc t = EnqNext n -> pays.
Proof.
  intros E. exists rest. split; [|left; at_pc E; cbn; split_and!; (done || lia)].
  destruct Hrest as [Hl Hn]. split; [|exact Hn]. rewrite E. cbn. apply (links_ext (next m)); [exact Hl|].
  destruct (owned_facts c h ns i t Hinv Hi n) as (_ & Hnc & _); [unfold owned, private; rewrite E; left|].
  intros x Hx. cbn. replace (x =? n) with false; [done|]. symmetry. apply Z.eqb_neq. intros ->. apply Hnc, rest_in, Hx.
Qed.

(** [Enqueue] sees the code behind the tail it read: nothing is there. *)
Lemma pays_read n w : at_pc t = EnqRead n w -> pays.
Proof.
  intros E. known E. destruct Hk as (_ & (_ & _ & Hnow) & _).
  exists rest. split; [rewrite E; exact Hrest|]. left. at_pc E. rewrite !Z.add_0_r.
  destruct (Z.eqb_spec (next m (ptr_of w)) (_myCode m)) as [Ec|Ec]; cbn; split_and!; try done; try lia.
  destruct (Z.eqb_spec (seenTail t) M) as [Es|Es]; cbn; [|lia].
  rewrite (Hnow Es) in Ec. rewrite (rest_nil Ec). rewrite (@len_nil Z). cbn. lia.
Qed.

(** [Enqueue] links, or somebody did. *)
Lemma pays_link n w : at_pc t = EnqCas n w -> pays.
Proof.
  intros E. known E. destruct Hk as ([_ Hnx] & (_ & _ & Hnow) & Hin).
  destruct (Z.eqb_spec (next m (ptr_of w)) (_myCode m)) as [Ec|Ec].
  - destruct Hin as [Hin|Hin]; [|done]. destruct Hrest as [Hl Hrn]. pose proof (i_code _ _ _ Hinv) as Hcode.
    destruct (owned_facts c h ns i t Hinv Hi n) as (Hnn & Hnc & Hnm); [unfold owned, private; rewrite E; left|].
    assert (Hlast : forall q, q ∈ h :: ns -> next m q = _myCode m -> q = List.last ns h).
    { intros q Hq Hqc. apply (chain_last (_myCode m) (next m)); try done; [apply (i_links _ _ _ Hinv)| |].
      - apply (linked_nodup _ _ _ Hinv).
      - apply Forall_forall. apply (linked_node _ _ _ Hinv). }
    set (tl := ptr_of (_tail m)) in *.
    pose proof rest_in as Hsub. fold tl in Hsub.
    assert (Ew : ptr_of w = List.last rest tl).
    { rewrite (Hlast _ Hin Ec). symmetry. apply Hlast; [apply Hsub, last_elem|apply links_last, Hl]. }
    exists (rest ++ [n]). split.
    + split; [|apply Forall_app; auto]. rewrite E. cbn. rewrite Ec, Z.eqb_refl. cbn. fold tl.
      apply (links_ext (fun p => if p =? List.last rest tl then n else if p =? n then _myCode m else next m p)).
      * apply links_snoc; [exact Hl| |done]. rewrite app_comm_cons. apply NoDup_app. split; [apply rest_nodup|].
        split; [|apply NoDup_singleton]. intros x Hx ->%list_elem_of_singleton. apply Hnc, Hsub, Hx.
      * intros x _. rewrite Ew. destruct (x =? List.last rest tl); [done|]. destruct (Z.eqb_spec x n) as [->|]; done.
    + right. right. left. at_pc E. rewrite Ec, Z.eqb_refl. unfold len. rewrite length_app. cbn. split_and!; (done || lia || (repeat case_match; lia)).
  - exists rest. split; [rewrite E; cbn; apply Z.eqb_neq in Ec as ->; exact Hrest|]. left. at_pc E. rewrite !Z.add_0_r.
    apply Z.eqb_neq in Ec as Ec'. rewrite Ec'. cbn. split_and!; try done. rewrite (@len_nil op).
    destruct (Z.eqb_spec (seenTail t) M) as [Es|Es]; cbn; [|lia].
    rewrite (Hnow Es) in Ec. destruct (rest_cons Ec) as [r ->]. change (len (_ :: r) =? 0) with false. cbn. lia.
Qed.

(** The tail is moved on, or was. *)
Lemma pays_tail w b t' :
  tail_link m M (seenTail t) w b -> (step (at_pc t) m).2 = cas_tail m w b -> effect t m = [] ->
  moves_head t m = 0 -> moves_tail t m = (if _tail m =? w then 1 else 0) -> M - seenTail t < 2 ^ 17 ->
  next_thread c t = t' ->
  (forall lag lag', weight P (M + 1) lag t' <= weight P M lag' t + 4) ->
  (seenTail t <> M -> weight P M (len rest) t' + 1 <= weight P M (len rest) t) -> pays.
Proof.
  intros (Hw & Hbc & Hnow) Em Ee Eh Et Hwi <- Hgo Hstay. unfold pays. rewrite Em, Ee, Eh, Et.
  destruct (i_tail _ _ _ Hinv) as (q & Hq & Eq). pose proof (linked_node _ _ _ Hinv q Hq) as Hqn.
  unfold cas_tail. destruct (Z.eqb_spec (_tail m) w) as [Ew|Ew].
  - pose proof (word_same _ _ _ _ q Hqn Eq Hw Ew Hwi) as Es. specialize (Hnow Es). rewrite <- Ew in Hnow.
    destruct rest_cons as [r Er]; [congruence|]. rewrite Hnow in Er. exists r.
    destruct Hrest as [Hl Hn]. rewrite Er in Hl, Hn. destruct Hl as [_ Hl]. apply Forall_cons in Hn as [Hb Hn]. split.
    + split; [|exact Hn]. cbn. rewrite TaggedStack.ptr_of_pack by (apply node_range, Hb). exact Hl.
    + right. left. rewrite Er, Z.add_0_r. unfold len. cbn [length]. split_and!; try (done || lia); apply Hgo.
  - exists rest. split; [exact Hrest|]. left. rewrite !Z.add_0_r. split_and!; try done.
    apply Hstay. intros Es. destruct Hw as (_ & _ & Hs). apply Ew, eq_sym, Hs, Es.
Qed.

Lemma pays_help : in_window c t ->
  (exists n w b, at_pc t = EnqHelp n w b) \/ (exists n w, at_pc t = EnqSwing n w) \/ (exists w b, at_pc t = DeqHelp w b) -> pays.
Proof.
  unfold in_window. intros Hwin [(n & w & b & E)|[(n & w & E)|(w & b & E)]]; rewrite E in Hwin; known E.
  1: destruct Hk as [_ Hk].
  all: apply (pays_tail w _ (next_thread c t) Hk); first [exact Hwin | at_pc E; done | idtac].
  all: try (intros lag lag'; at_pc E; repeat case_match; lia).
  all: intros Hs%Z.eqb_neq; at_pc E; rewrite ?Hs; lia.
Qed.

(** [Dequeue] reads what is behind the head, and the head again. *)
Lemma pays_behind : (exists w, at_pc t = DeqNext w) \/ (exists w b w', at_pc t = DeqTailNext w b w') -> pays.
Proof.
  intros [(w & E)|(w & b & w' & E)]; exists rest; (split; [rewrite E; exact Hrest|]); left; at_pc E; rewrite !Z.add_0_r;
    destruct (_ =? _myCode m); split_and!; try done; cbn; repeat case_match; lia.
Qed.

Lemma pays_check w : in_window c t -> at_pc t = DeqCheck w -> pays.
Proof.
  intros Hwin E. destruct (run_check c h ns i t Hinv Hi w Hwin E) as [Ew _]. known E. destruct Hk as [_ Hs].
  apply Z.eqb_neq in Hs. exists rest. split; [rewrite E; exact Hrest|]. left. at_pc E. rewrite Ew, Hs, !Z.add_0_r.
  split_and!; try done; cbn; lia.
Qed.

(** [Dequeue] takes its element, or the head has changed. *)
Lemma pays_take w b v : in_window c t -> at_pc t = DeqCas w b v -> pays.
Proof.
  intros Hwin E. known E. destruct Hk as [(_ & _ & Hnow) _]. exists rest.
  destruct (Z.eqb_spec (_head m) w) as [Ew|Ew].
  - split; [rewrite E; cbn; rewrite Ew, Z.eqb_refl; exact Hrest|]. right. right. right. at_pc E. rewrite Ew, Z.eqb_refl.
    split_and!; try done. cbn. repeat case_match; lia.
  - assert (Hs : (seenHead t =? P) = false) by (apply Z.eqb_neq; intros Es; apply Ew, eq_sym, Hnow, Es).
    apply Z.eqb_neq in Ew. split; [rewrite E; cbn; rewrite Ew; exact Hrest|]. left. at_pc E. rewrite Ew, Hs, !Z.add_0_r.
    split_and!; try done; cbn; lia.
Qed.

Lemma pays_all : in_window c t -> working c t = true -> pays.
Proof.
  intros Hw Hb. destruct (at_pc t) as [| | | | | | | | | | | | | |w| | | | |w b v| |r] eqn:E.
  all: try (unfold working in Hb; rewrite E in Hb; done).
  all: eauto 10 using pays_local, pays_alloc, pays_size, pays_free, pays_next, pays_read, pays_link, pays_help, pays_behind, pays_check, pays_take.
Qed.
End accesses.

(** ** Schedules *)

(** What the threads have left to do pays [k] accesses on the way from [c] to [c'], with
    [3 + 10 * n] for every operation that takes effect. *)
Definition effects (c : config) : Z := len (hist c).
Definition paid (c c' : config) (k : Z) : Prop :=
  length (threads c') = length (threads c) /\ effects c <= effects c' /\
  forall rest, behind (shared c) rest -> exists rest', behind (shared c') rest' /\
    potential c' (len rest') + k <= potential c (len rest) + (3 + 10 * len (threads c)) * (effects c' - effects c).

Lemma paid_none c : paid c c 0.
Proof. unfold paid. split_and!; [done|lia|]. intros rest Hr. exists rest. split; [done|]. lia. Qed.

Lemma queue_call_paid c i t p d :
  threads c !! i = Some t -> out (at_pc t) = true -> p = Enqueue d \/ p = Dequeue -> paid c (call c i t p d) 0.
Proof.
  intros Hi Ho Hp. unfold paid, potential, effects, call. cbn [threads hist shared pops moves]. rewrite length_insert.
  split_and!; [done|lia|]. intros rest Hr. exists rest. split; [exact Hr|]. rewrite Z.sub_diag.
  set (w := weight (pops c) (moves c) (len rest)). set (t' := mkThread p d None (seenHead t) (seenTail t)).
  assert (Hw : w t' <= w t).
  { subst w t'. unfold weight, left_alone. cbn. destruct (at_pc t); try done; destruct Hp as [->| ->]; cbn; lia. }
  pose proof (weights_insert w w _ i t t' 0 Hi (fun u => ltac:(lia))). lia.
Qed.

Lemma queue_advance_paid c h ns i t :
  inv c h ns -> threads c !! i = Some t -> in_window c t -> working c t = true -> paid c (advance c i t) 1.
Proof.
  intros Hv Hi Hw Hb. unfold paid, potential, effects, advance. cbn [threads hist shared pops moves].
  rewrite length_insert. unfold len. rewrite length_app, Nat2Z.inj_add, Z.add_simpl_l. split_and!; [done|lia|].
  intros rest Hr. destruct (pays_all c h ns i t rest Hv Hi Hr Hw Hb) as (rest' & Hr' & Hs). exists rest'. split; [exact Hr'|].
  apply lookup_lt_Some in Hi as Hlt. unfold len in *.
  destruct Hs as [(-> & -> & El & Hs)|[(-> & -> & El & Hs & ->)|[(-> & -> & El & Hs & ->)|(-> & -> & El & Hs & ->)]]];
    rewrite ?Z.add_0_r in *; cbn [length].
  - rewrite El in *. set (w := weight (pops c) (moves c) (Z.of_nat (length rest))) in *.
    pose proof (weights_insert w w _ i t (next_thread c t) 0 Hi (fun u => ltac:(lia))). nia.
  - rewrite El in *. pose proof (weights_insert _ _ _ i t (next_thread c t) 5 Hi
      (fun u => weight_tail (pops c) (moves c) (Z.of_nat (length rest')) u ltac:(lia))). nia.
  - rewrite El in *. pose proof (weights_insert _ _ _ i t (next_thread c t) 5 Hi
      (fun u => weight_link (pops c) (moves c) (Z.of_nat (length rest)) u)). nia.
  - rewrite El in *. pose proof (weights_insert _ _ _ i t (next_thread c t) 6 Hi
      (fun u => weight_head (pops c) (moves c) (Z.of_nat (length rest)) u)). nia.
Qed.

Lemma wait_paid c i t : threads c !! i = Some t -> working c t = false -> paid c (advance c i t) 0.
Proof.
  intros Hi Hb. unfold paid, potential, effects, advance.
  assert (E : step (at_pc t) (shared c) = (at_pc t, shared c) /\ effect t (shared c) = [] /\
    moves_head t (shared c) = 0 /\ moves_tail t (shared c) = 0 /\
    next_thread c t = mkThread (at_pc t) (arg t) (took t) (seenHead t) (seenTail t)).
  { unfold effect, moves_head, moves_tail, next_thread, working in *. destruct (at_pc t) eqn:Ea; try done; cbn.
    - unfold effect. rewrite Ea. done.
    - destruct (pool (shared c)); [|done]. unfold effect. rewrite Ea. done.
    - unfold effect. rewrite Ea. done. }
  destruct E as (-> & -> & -> & -> & ->). cbn [threads hist shared pops moves fst snd]. rewrite length_insert, app_nil_r, !Z.add_0_r.
  split_and!; [done|lia|]. intros rest Hr. exists rest. split; [exact Hr|]. rewrite Z.sub_diag.
  set (w := weight (pops c) (moves c) (len rest)).
  pose proof (weights_insert w w _ i t (mkThread (at_pc t) (arg t) (took t) (seenHead t) (seenTail t)) 0 Hi (fun u => ltac:(lia))) as Hs.
  unfold w, weight, left_alone in *. cbn in Hs. lia.
Qed.

(** The pool and other queues leave what is behind the tail. *)
Lemma pool_paid c l a :
  paid c (mkConfig (set_pool (shared c) l) (threads c) (hist c) (pops c) (moves c) a) 0.
Proof. unfold paid. cbn. split_and!; [done|unfold effects; cbn; lia|]. intros rest Hr. exists rest. split; [exact Hr|]. unfold effects, potential. cbn. lia. Qed.

Lemma other_paid c h ns n v d :
  inv c h ns -> n ∈ away c ->
  paid c (mkConfig (set_data (set_next (shared c) n v) n d) (threads c) (hist c) (pops c) (moves c) (away c)) 0.
Proof.
  intros Hv Hn. unfold paid. cbn. split_and!; [done|unfold effects; cbn; lia|].
  intros rest Hr. exists rest. split; [|unfold effects, potential; cbn; lia]. pose proof (rest_in _ _ _ _ Hv Hr) as Hin.
  destruct Hr as [Hl Hrn]. split; [|exact Hrn]. apply (links_ext (next (shared c))); [exact Hl|].
  intros x Hx. cbn. destruct (Z.eqb_spec x n) as [->|]; [|done]. exfalso.
  pose proof (i_nodup _ _ _ Hv) as (_ & Hd & _)%NoDup_app. apply (Hd n (Hin n Hx)). unfold rest_of. rewrite !elem_of_app. auto.
Qed.

Lemma queue_command_paid c h ns o : inv c h ns -> paid c (default c (command_step c o)) (cost c o).
Proof.
  intros Hv. unfold cost. destruct o as [i d|i|i|l a|n v d]; cbn; try (destruct (threads c !! i) as [t|] eqn:Hi; cbn; [|apply paid_none]).
  1, 2: destruct (out (at_pc t)) eqn:E; [|apply paid_none]; apply queue_call_paid; auto.
  - destruct (in_windowb c t) eqn:Ew; [|apply paid_none]. cbn. apply in_windowb_sound in Ew.
    destruct (working c t) eqn:Hb; [apply (queue_advance_paid c h ns)|apply wait_paid]; done.
  - destruct (_ && _); [apply pool_paid|apply paid_none].
  - case_bool_decide as Hn; [apply (other_paid c h ns), Hn; exact Hv|apply paid_none].
Qed.

Lemma queue_schedule_paid os c : reachable c -> paid c (after os c) (accesses os c).
Proof.
  revert c. induction os as [|o os IH]; intros c Hr; [apply paid_none|].
  destruct (q_reachable_inv _ Hr) as (h & ns & Hv). destruct (queue_command_paid c h ns o Hv) as (Hn & He & Hp).
  destruct (IH _ (q_schedule_keeps [o] c Hr)) as (Hn' & He' & Hp'). cbn [after fold_left accesses] in *.
  unfold paid, after in *. cbn [fold_left]. unfold len in *. rewrite Hn in *. split_and!; [done|lia|].
  intros rest Hb. destruct (Hp rest Hb) as (r1 & Hb1 & H1). destruct (Hp' r1 Hb1) as (r2 & Hb2 & H2).
  exists r2. split; [exact Hb2|nia].
Qed.

Lemma queue_weight_lower P M lag t : - 8 <= weight P M lag t.
Proof. unfold weight, left_alone. destruct (at_pc t); cbn; repeat case_match; lia. Qed.

(** C37: the lock-free queue is lock-free. In every schedule of [n] threads that enqueue and
    dequeue, however their accesses are interleaved and whatever other queues do with
    the shared pool, the calls together make at most [3 + 10 * n] accesses to shared
    memory for each operation that takes effect, and eight for each thread. So as long
    as threads in calls run, operations take effect: no thread can keep the others from
    it by stopping, not even between linking its element and moving the tail. (The
    schedules are those of [queue_linearizable].) *)
Theorem queue_lock_free c os :
  initial c ->
  let n := len (threads c) in
  accesses os c <= 8 * n + (3 + 10 * n) * effects (after os c).
Proof.
  intros Hi n. assert (Hr : reachable c) by (exists c; split; [done|apply rtc_refl]).
  destruct (q_initial_inv _ Hi) as (h & Hv). destruct (inv_behind _ _ _ Hv) as (k & Hb & _). rewrite skipn_cons, drop_nil in Hb.
  destruct (queue_schedule_paid os c Hr) as (Hn & _ & Hp). destruct (Hp [] Hb) as (rest & _ & Hle). clear Hp.
  destruct Hi as (_ & Hh & _ & _ & Hid).
  assert (H0 : potential c (len (@nil Z)) = 0).
  { unfold potential. rewrite weights_none; [rewrite (@len_nil Z); lia|]. eapply Forall_impl; [exact Hid|]. intros t Ht. unfold weight, left_alone. rewrite Ht. done. }
  pose proof (weights_lower _ (threads (after os c)) 8 (queue_weight_lower (pops (after os c)) (moves (after os c)) (len rest))) as Hl.
  rewrite Hn in Hl. unfold potential, effects, len in *. rewrite Hn, Hh in *. cbn [length] in *. subst n. nia.
Qed.

(** The race of [queue_linearizable]: threads that help and spoil each other. *)
Lemma queue_lock_free_witness :
  accesses race start = 74 /\ effects (after race start) = 10 /\
  accesses race start <= 8 * 3 + (3 + 10 * 3) * effects (after race start).
Proof.
  split_and!; [vm_compute; reflexivity|vm_compute; reflexivity|]. apply (queue_lock_free start race).
  split; [|split_and!; [done|done|done|repeat constructor]].
  exists 0, 0x1000, (fun _ => 7), (fun _ => 9), [0x2000; 0x3000; 0x4000]. split_and!; [done| | | |].
  - vm_compute. discriminate.
  - repeat constructor.
  - apply (bool_decide_unpack _). vm_compute. done.
  - reflexivity.
Defined.
End QueueProgress.
