(* ===== verification/ServerState.v ===== *)
(** * The state and the atomic actions of CNetServer

    The shared state of the network engine ([CNetServer.h]): sessions, counters, the
    free slot stack, and what the operating system keeps for it (completion port
    queue, outstanding overlapped I/O). A member function is a [prog]: a sequence of
    atomic actions on that state, so the same definition runs alone ([run]) and
    interleaved with other threads ([SessionSafety.step]). *)
From S2P Require Import Prelude.
From S2P Require Import RingBuffer.
From S2P Require Import NetPacket.
From S2P Require Import ObjectPool.
From stdpp Require Import prelude gmap list.
From Stdlib Require Import ZArith Lia.
Open Scope Z_scope.

(** ** Constants *)
Definition MAXBUF : Z := 200.
Definition INVALID_SOCKET : Z := 2 ^ 64 - 1.
Definition en_IOCP_JOB_SENDPOST : Z := 1.
Definition en_IOCP_JOB_RELEASE : Z := 2.
Definition WSA_IO_PENDING : Z := 997.
Definition WSAENOTSOCK : Z := 10038.
Definition WSAECONNABORTED : Z := 10053.
Definition WSAECONNRESET : Z := 10054.

(** ** Data *)

(** [SESSION]. The two [WSAOVERLAPPED] are identified by which one they are. [sendQ] is the
    contents of the [CLockFreeQueue]; what a queue may do besides [exec]'s actions on it is
    in the step relation of [SessionSafety]. *)
Record SESSION := mkSession {
  sessionID : Z;
  socket : Z;
  relSocket : Z;
  ioCount : Z;
  releaseFlag : Z;
  sendFlag : Z;
  sendCnt : Z;
  sendQ : list Z;
  sendPacketArr : list Z;
  recvQ : CRingBuffer.t;
}.

(** The [lpOverlapped] of a completion. *)
Inductive overlapped := OvNull | OvSend | OvRecv.
#[export] Instance overlapped_eq_dec : EqDecision overlapped.
Proof. solve_decision. Defined.

(** What [GetQueuedCompletionStatus] gives: transferred bytes (or the job), the
    session of the completion key ([None] is a null key), the overlapped pointer. *)
Record completion := mkCompletion {
  dwTransferred : Z;
  pSession : option Z;
  lpOverlapped : overlapped;
}.

(** An outstanding overlapped operation: a receive into segments of the receive
    buffer of a session, or a send. *)
Inductive pending :=
  | PendRecv (i : Z) (bufs : list (Z * Z))
  | PendSend (i : Z).

(** What can be observed from outside; [EvPort sid] is the association of the socket of
    session [sid] with the completion port. *)
Inductive event :=
  | EvJoin (sid : Z)
  | EvLeave (sid : Z)
  | EvRecv (sid : Z) (bytes : list Z)
  | EvSend (i : Z) (bytes : list Z)
  | EvCancel (sock : Z)
  | EvClose (sock : Z)
  | EvPrint
  | EvPostFailed (job i : Z)
  | EvPortFailed (i : Z)
  | EvPort (sid : Z).

Record counters := mkCounters {
  acceptCnt : Z;
  sendMsgCnt : Z;
  recvMsgCnt : Z;
  acceptTPS : Z;
  sendTPS : Z;
  recvTPS : Z;
}.

Record server (P : Type) := mkServer {
  maxUser : Z;
  nagleOff : bool;
  nowSession : Z;
  sessionCnt : Z;
  sessionArr : list SESSION;
  freeSessionStack : list Z;
  cnts : counters;
  packets : Z -> CNetPacket.t;
  pool : P;
  iocp : list completion;
  pend : list pending;
  log : list event;
}.
Arguments mkServer {P}.
Arguments maxUser {P}.
Arguments nagleOff {P}.
Arguments nowSession {P}.
Arguments sessionCnt {P}.
Arguments sessionArr {P}.
Arguments freeSessionStack {P}.
Arguments cnts {P}.
Arguments packets {P}.
Arguments pool {P}.
Arguments iocp {P}.
Arguments pend {P}.
Arguments log {P}.

(** ** Atomic actions *)
Inductive act : Type -> Type :=
  (** [ioFlag] *)
  | IncIo (i : Z) : act Z
  | DecIo (i : Z) : act Z
  | CasRelease (i : Z) : act Z
  | GetReleaseFlag (i : Z) : act Z
  | SetReleaseFlag (i v : Z) : act unit
  (** identity and sockets *)
  | GetSessionID (i : Z) : act Z
  | SetSessionID (i v : Z) : act unit
  | GetSocket (i : Z) : act Z
  | SetSocket (i v : Z) : act unit
  | XchgSocket (i : Z) : act Z
  | SetRelSocket (i v : Z) : act unit
  | CancelIo (i : Z) : act unit
  | CloseRelSocket (i : Z) : act unit
  | CloseSocket (s : Z) : act unit
  (** send side *)
  | XchgSendFlag (i v : Z) : act Z
  | SetSendFlag (i v : Z) : act unit
  | GetSendCnt (i : Z) : act Z
  | SetSendCnt (i v : Z) : act unit
  | SendQSize (i : Z) : act Z
  | SendQEnqueue (i p : Z) : act unit
  | SendQDequeue (i : Z) : act (option Z)
  | SetSendPacket (i k p : Z) : act unit
  | GetSendPacket (i k : Z) : act Z
  (** receive side *)
  | RecvQ {B} (i : Z) (f : CRingBuffer.t -> outcome (B * CRingBuffer.t)) : act B
  | RecvDequeueTo (i p n : Z) : act Z
  (** packets *)
  | PoolAlloc : act Z
  | PoolFree (p : Z) : act bool
  | Packet {B} (p : Z) (f : CNetPacket.t -> outcome (B * CNetPacket.t)) : act B
  | Rand : act Z
  (** server members *)
  | FreePush (i : Z) : act unit
  | FreePop : act (option Z)
  | GetNowSession : act Z
  | AddNowSession (d : Z) : act Z
  | GetSessionCnt : act Z
  | SetSessionCnt (v : Z) : act unit
  | Count (f : counters -> counters) : act unit
  (** operating system *)
  | Post (job i : Z) : act bool
  | WSARecv (i : Z) (bufs : list (Z * Z)) : act (option Z)
  | WSASend (i : Z) (bufs : list (Z * Z)) : act (option Z)
  | CreatePort (s i : Z) : act bool
  | SetSockOpt (s : Z) : act unit
  | Emit (e : event) : act unit
  | Raise (f : fault) : act unit.

(** ** Programs *)
Inductive prog : Type -> Type :=
  | Ret {A} (a : A) : prog A
  | Do {A B} (a : act B) (k : B -> prog A) : prog A
  | Loop {A S B} (body : S -> prog (S + B)) (s : S) (k : B -> prog A) : prog A.

Fixpoint pbind {A B} (p : prog A) : (A -> prog B) -> prog B :=
  match p in prog A return (A -> prog B) -> prog B with
  | Ret a => fun f => f a
  | Do a k => fun f => Do a (fun b => pbind (k b) f)
  | Loop body s k => fun f => Loop body s (fun b => pbind (k b) f)
  end.

Declare Scope prog_scope.
Delimit Scope prog_scope with prog.
Bind Scope prog_scope with prog.
Notation "x <- p ;; q" := (pbind p (fun x => q))
  (at level 100, p at next level, right associativity) : prog_scope.
Notation "p ;; q" := (pbind p (fun _ => q)) (at level 100, right associativity) : prog_scope.

Definition do {B} (a : act B) : prog B := Do a Ret.
Definition loop {S B} (body : S -> prog (S + B)) (s : S) : prog B := Loop body s Ret.
Definition skip : prog unit := Ret tt.
Definition exit_loop {S B} (b : B) : prog (S + B) := Ret (inr b).
Definition continue_loop {S B} (s : S) : prog (S + B) := Ret (inl s).

(** ** What an atomic action does

    [choice] is what the action depends on outside the program: the result the
    operating system gives (an error code, 0 for none), the calling thread of a pool
    call, the value of [rand()]. *)
Section exec.
Context {P : Type} `{PoolOps P}.
Implicit Types st : server P.

Definition set_session st (i : Z) (s : SESSION) : server P :=
  mkServer (maxUser st) (nagleOff st) (nowSession st) (sessionCnt st)
    (<[Z.to_nat i := s]> (sessionArr st)) (freeSessionStack st) (cnts st) (packets st)
    (pool st) (iocp st) (pend st) (log st).
Definition set_free st (l : list Z) : server P :=
  mkServer (maxUser st) (nagleOff st) (nowSession st) (sessionCnt st) (sessionArr st) l
    (cnts st) (packets st) (pool st) (iocp st) (pend st) (log st).
Definition set_now st (n : Z) : server P :=
  mkServer (maxUser st) (nagleOff st) n (sessionCnt st) (sessionArr st) (freeSessionStack st)
    (cnts st) (packets st) (pool st) (iocp st) (pend st) (log st).
Definition set_count st (n : Z) : server P :=
  mkServer (maxUser st) (nagleOff st) (nowSession st) n (sessionArr st) (freeSessionStack st)
    (cnts st) (packets st) (pool st) (iocp st) (pend st) (log st).
Definition set_cnts st (c : counters) : server P :=
  mkServer (maxUser st) (nagleOff st) (nowSession st) (sessionCnt st) (sessionArr st)
    (freeSessionStack st) c (packets st) (pool st) (iocp st) (pend st) (log st).
Definition set_packet st (p : Z) (pk : CNetPacket.t) : server P :=
  mkServer (maxUser st) (nagleOff st) (nowSession st) (sessionCnt st) (sessionArr st)
    (freeSessionStack st) (cnts st) (fun q => if q =? p then pk else packets st q)
    (pool st) (iocp st) (pend st) (log st).
Definition set_pool st (pl : P) : server P :=
  mkServer (maxUser st) (nagleOff st) (nowSession st) (sessionCnt st) (sessionArr st)
    (freeSessionStack st) (cnts st) (packets st) pl (iocp st) (pend st) (log st).
Definition set_iocp st (l : list completion) : server P :=
  mkServer (maxUser st) (nagleOff st) (nowSession st) (sessionCnt st) (sessionArr st)
    (freeSessionStack st) (cnts st) (packets st) (pool st) l (pend st) (log st).
Definition set_pend st (l : list pending) : server P :=
  mkServer (maxUser st) (nagleOff st) (nowSession st) (sessionCnt st) (sessionArr st)
    (freeSessionStack st) (cnts st) (packets st) (pool st) (iocp st) l (log st).
Definition emit st (e : event) : server P :=
  mkServer (maxUser st) (nagleOff st) (nowSession st) (sessionCnt st) (sessionArr st)
    (freeSessionStack st) (cnts st) (packets st) (pool st) (iocp st) (pend st) (log st ++ [e]).

(** Access to [_sessionArr[i]]: outside the array is a fault. *)
Definition get_session st (i : Z) : outcome SESSION :=
  if i <? 0 then Fault OutOfBounds
  else match sessionArr st !! Z.to_nat i with Some s => Ok s | None => Fault OutOfBounds end.

Definition on_session {B} st (i : Z) (f : SESSION -> outcome (B * SESSION))
    : outcome (B * server P) :=
  s ← get_session st i;
  '(b, s') ← f s;
  Ok (b, set_session st i s').

Definition read_session {B} st (i : Z) (f : SESSION -> B) : outcome (B * server P) :=
  s ← get_session st i; Ok (f s, st).

Definition with_ioFlag (s : SESSION) (io rf : Z) : SESSION :=
  mkSession (sessionID s) (socket s) (relSocket s) io rf (sendFlag s) (sendCnt s)
    (sendQ s) (sendPacketArr s) (recvQ s).
Definition with_ids (s : SESSION) (sid sk rs : Z) : SESSION :=
  mkSession sid sk rs (ioCount s) (releaseFlag s) (sendFlag s) (sendCnt s)
    (sendQ s) (sendPacketArr s) (recvQ s).
Definition with_send (s : SESSION) (fl n : Z) (q arr : list Z) : SESSION :=
  mkSession (sessionID s) (socket s) (relSocket s) (ioCount s) (releaseFlag s) fl n q arr (recvQ s).
Definition with_recvQ (s : SESSION) (rb : CRingBuffer.t) : SESSION :=
  mkSession (sessionID s) (socket s) (relSocket s) (ioCount s) (releaseFlag s) (sendFlag s)
    (sendCnt s) (sendQ s) (sendPacketArr s) rb.

(** [InterlockedCompareExchange64] on [ioFlag], a [UINT] pair in little-endian
    order: the 64-bit value has [ioCount] in its low half. *)
Definition cas_release (s : SESSION) : Z * SESSION :=
  let old := releaseFlag s * 2 ^ 32 + ioCount s in
  if old =? 0 then (old, with_ioFlag s 0 1) else (old, s).

(** [InterlockedExchange((PLONG)&socket, INVALID_SOCKET)]: 32 bits of the 64-bit
    [SOCKET] are exchanged, the result is their old value as a [LONG]. *)
Definition xchg_socket (s : SESSION) : Z * SESSION :=
  let old := socket s in
  (i32 old, with_ids s (sessionID s) (old / 2 ^ 32 * 2 ^ 32 + u32 INVALID_SOCKET) (relSocket s)).

(** The bytes a [WSASend] of these buffers (packet, length) transmits. *)
Definition gather st (bufs : list (Z * Z)) : list Z :=
  concat ((fun b => take (Z.to_nat b.2) (CNetPacket.pBuffer (packets st b.1))) <$> bufs).

(** An overlapped call: no error and [WSA_IO_PENDING] leave it outstanding, any
    other error does not start it. *)
Definition overlapped_call (choice : Z) st (io : pending) (ev : list event)
    : outcome (option Z * server P) :=
  if choice =? 0 then Ok (None, set_pend (fold_left emit ev st) (pend st ++ [io]))
  else if choice =? WSA_IO_PENDING
  then Ok (Some choice, set_pend (fold_left emit ev st) (pend st ++ [io]))
  else Ok (Some choice, st).

Definition exec {B} (choice : Z) (a : act B) (st : server P) : outcome (B * server P) :=
  match a in act B return outcome (B * server P) with
  | IncIo i =>
      on_session st i (fun s => let n := u32 (ioCount s + 1) in
        Ok (n, with_ioFlag s n (releaseFlag s)))
  | DecIo i =>
      on_session st i (fun s => let n := u32 (ioCount s - 1) in
        Ok (n, with_ioFlag s n (releaseFlag s)))
  | CasRelease i => on_session st i (fun s => Ok (cas_release s))
  | GetReleaseFlag i => read_session st i releaseFlag
  | SetReleaseFlag i v => on_session st i (fun s => Ok (tt, with_ioFlag s (ioCount s) v))
  | GetSessionID i => read_session st i sessionID
  | SetSessionID i v => on_session st i (fun s => Ok (tt, with_ids s v (socket s) (relSocket s)))
  | GetSocket i => read_session st i socket
  | SetSocket i v => on_session st i (fun s => Ok (tt, with_ids s (sessionID s) v (relSocket s)))
  | XchgSocket i => on_session st i (fun s => Ok (xchg_socket s))
  | SetRelSocket i v => on_session st i (fun s => Ok (tt, with_ids s (sessionID s) (socket s) v))
  | CancelIo i => s ← get_session st i; Ok (tt, emit st (EvCancel (relSocket s)))
  | CloseRelSocket i => s ← get_session st i; Ok (tt, emit st (EvClose (relSocket s)))
  | CloseSocket sk => Ok (tt, emit st (EvClose sk))
  | XchgSendFlag i v =>
      on_session st i (fun s => Ok (sendFlag s, with_send s v (sendCnt s) (sendQ s) (sendPacketArr s)))
  | SetSendFlag i v =>
      on_session st i (fun s => Ok (tt, with_send s v (sendCnt s) (sendQ s) (sendPacketArr s)))
  | GetSendCnt i => read_session st i sendCnt
  | SetSendCnt i v =>
      on_session st i (fun s => Ok (tt, with_send s (sendFlag s) v (sendQ s) (sendPacketArr s)))
  | SendQSize i => read_session st i (fun s => Z.of_nat (length (sendQ s)))
  | SendQEnqueue i p =>
      on_session st i (fun s =>
        Ok (tt, with_send s (sendFlag s) (sendCnt s) (sendQ s ++ [p]) (sendPacketArr s)))
  | SendQDequeue i =>
      on_session st i (fun s =>
        match sendQ s with
        | [] => Ok (None, s)
        | p :: q => Ok (Some p, with_send s (sendFlag s) (sendCnt s) q (sendPacketArr s))
        end)
  | SetSendPacket i k p =>
      on_session st i (fun s =>
        if (0 <=? k) && (k <? Z.of_nat (length (sendPacketArr s)))
        then Ok (tt, with_send s (sendFlag s) (sendCnt s) (sendQ s)
                       (<[Z.to_nat k := p]> (sendPacketArr s)))
        else Fault OutOfBounds)
  | GetSendPacket i k =>
      s ← get_session st i;
      if k <? 0 then Fault OutOfBounds
      else match sendPacketArr s !! Z.to_nat k with
           | Some p => Ok (p, st)
           | None => Fault OutOfBounds
           end
  | RecvQ i f => on_session st i (fun s => '(b, rb) ← f (recvQ s); Ok (b, with_recvQ s rb))
  | RecvDequeueTo i p n =>
      s ← get_session st i;
      '(k, dest, rb) ← CRingBuffer.Dequeue (recvQ s) (CNetPacket.pBuffer (packets st p)) n;
      Ok (k, set_packet (set_session st i (with_recvQ s rb)) p
               (CNetPacket.set_buffer (packets st p) dest))
  | PoolAlloc => '(p, pl) ← pool_alloc choice (pool st); Ok (p, set_pool st pl)
  | PoolFree p => '(b, pl) ← pool_free choice (pool st) p; Ok (b, set_pool st pl)
  | Packet p f => '(b, pk) ← f (packets st p); Ok (b, set_packet st p pk)
  | Rand => Ok (choice, st)
  | FreePush i => Ok (tt, set_free st (i :: freeSessionStack st))
  | FreePop =>
      match freeSessionStack st with
      | [] => Ok (None, st)
      | i :: l => Ok (Some i, set_free st l)
      end
  | GetNowSession => Ok (nowSession st, st)
  | AddNowSession d => let n := u32 (nowSession st + d) in Ok (n, set_now st n)
  | GetSessionCnt => Ok (sessionCnt st, st)
  | SetSessionCnt v => Ok (tt, set_count st v)
  | Count f => Ok (tt, set_cnts st (f (cnts st)))
  | Post job i =>
      if choice =? 0 then Ok (false, emit st (EvPostFailed job i))
      else Ok (true, set_iocp st (iocp st ++ [mkCompletion job (Some i) OvNull]))
  | WSARecv i bufs => _ ← get_session st i; overlapped_call choice st (PendRecv i bufs) []
  | WSASend i bufs =>
      _ ← get_session st i; overlapped_call choice st (PendSend i) [EvSend i (gather st bufs)]
  | CreatePort _ i =>
      s ← get_session st i;
      if choice =? 0 then Ok (false, emit st (EvPortFailed i)) else Ok (true, emit st (EvPort (sessionID s)))
  | SetSockOpt _ => Ok (tt, st)
  | Emit e => Ok (tt, emit st e)
  | Raise f => Fault f
  end.

(** ** What the operating system does

    A finished receive put its bytes into the segments it was given, in order. *)
Fixpoint scatter (m : list Z) (bufs : list (Z * Z)) (bs : list Z) : outcome (list Z) :=
  match bufs with
  | [] => Ok m
  | (off, len) :: bufs =>
      m' ← mem_write m off (take (Z.to_nat len) bs);
      scatter m' bufs (drop (Z.to_nat len) bs)
  end.

Definition room_of (bufs : list (Z * Z)) : Z := foldr (fun b n => b.2 + n) 0 bufs.

(** The completion of an outstanding operation that transferred [bs]. *)
Definition complete_io st (io : pending) (bs : list Z) : outcome (server P) :=
  match io with
  | PendRecv i bufs =>
      s ← get_session st i;
      m ← scatter (CRingBuffer.buffer (recvQ s)) bufs bs;
      let rb := CRingBuffer.mk m (CRingBuffer.iFront (recvQ s)) (CRingBuffer.iRear (recvQ s))
                  (CRingBuffer.iTotalSize (recvQ s)) in
      Ok (set_iocp (set_session st i (with_recvQ s rb))
            (iocp st ++ [mkCompletion (Z.of_nat (length bs)) (Some i) OvRecv]))
  | PendSend i =>
      Ok (set_iocp st (iocp st ++ [mkCompletion (Z.of_nat (length bs)) (Some i) OvSend]))
  end.

(** ** Running a program alone

    [env] supplies the choices, one per action. [fuel] bounds the number of actions
    and loop turns; [None] is running out of it. *)
Fixpoint run {B} (fuel : nat) (env : list Z) (p : prog B) (st : server P)
    : option (outcome (B * server P * list Z)) :=
  match fuel with
  | O => None
  | S fuel =>
      match p in prog B return option (outcome (B * server P * list Z)) with
      | Ret a => Some (Ok (a, st, env))
      | Do a k =>
          match exec (hd 0 env) a st with
          | Ok (b, st') => run fuel (tl env) (k b) st'
          | Fault f => Some (Fault f)
          end
      | Loop body s k =>
          run fuel env
            (pbind (body s) (fun r => match r with
               | inl s' => Loop body s' k
               | inr b => k b
               end)) st
      end
  end.

End exec.
