(* ===== verification/NetServer.v ===== *)
(** * CNetServer: sessions and input/output

    The member functions of [CNetServer.cpp] that work on sessions, as programs over
    the actions of [ServerState], in the order and with the early returns of the
    source. One turn of a thread's [while (1)] is one program: [IOCPWorkerThread]
    takes the completion it dequeued, [AcceptThread] the socket it accepted. *)
From S2P Require Import Prelude.
From S2P Require Import RingBuffer.
From S2P Require Import NetPacket.
From S2P Require Import ServerState.
From stdpp Require Import prelude gmap list.
From Stdlib Require Import ZArith Lia.
Open Scope Z_scope.

(** ** The virtual member functions of a server *)
Class Handler := {
  OnConnectionRequest : Z -> Z -> prog bool;
  OnClientJoin : Z -> prog unit;
  OnClientLeave : Z -> prog unit;
  OnRecv : Z -> Z -> prog unit;
}.

(** ** Packets: [CNetPacket::Alloc] and [CNetPacket::Free] *)
Module PacketRef.
Open Scope prog_scope.

Definition AddRefCount (p : Z) : prog unit :=
  do (Packet p (fun pk => Ok (tt, CNetPacket.AddRefCount pk))).

Definition Alloc : prog Z :=
  pPacket <- do PoolAlloc;;
  AddRefCount pPacket;;
  Ret pPacket.

Definition decrement (pk : CNetPacket.t) : outcome (Z * CNetPacket.t) :=
  let n := i32 (CNetPacket.refCount pk - 1) in Ok (n, CNetPacket.set_ref pk n).

Definition Free (pPacket : Z) : prog unit :=
  n <- do (Packet pPacket decrement);;
  if n =? 0 then
    do (Packet pPacket (fun pk => Ok (tt, CNetPacket.Clear pk)));;
    _ <- do (PoolFree pPacket);;
    skip
  else skip.

End PacketRef.

Module CNetServer.
Open Scope prog_scope.

(** ** The session array [Start] makes *)

(** [new SESSION[maxUser]] leaves the members without a constructor indeterminate:
    [garbage i] is what session [i] holds. *)
Definition create_sessions (maxUser : Z) (garbage : Z -> SESSION) : list SESSION :=
  (fun idx => with_ioFlag (garbage idx) 0 (releaseFlag (garbage idx))) <$> seqZ 0 maxUser.

Definition push_all (maxUser : Z) : list Z :=
  fold_left (fun stack idx => idx :: stack) (seqZ 0 maxUser) [].

(** ** Reference counting of a session *)
Definition RequestRelease (i : Z) : prog unit :=
  _ <- do (Post en_IOCP_JOB_RELEASE i);; skip.

Definition LeaveSession (i : Z) : prog unit :=
  n <- do (DecIo i);;
  if n =? 0 then RequestRelease i else skip.

Definition EnterSession (i id : Z) : prog bool :=
  _ <- do (IncIo i);;
  flag <- do (GetReleaseFlag i);;
  gone <- (if flag =? 1 then Ret true
           else sid <- do (GetSessionID i);; Ret (negb (sid =? id)));;
  if gone then LeaveSession i;; Ret false else Ret true.

(** ** Error handling after an overlapped call *)

(** The [switch] after a failed [WSASend] or [WSARecv]: the caller holds a count
    of its own, so the result of the decrement is not looked at. *)
Definition io_error (i err : Z) : prog unit :=
  if err =? WSA_IO_PENDING then
    s <- do (GetSocket i);;
    if s =? INVALID_SOCKET then do (CancelIo i) else skip
  else if (err =? WSAENOTSOCK) || (err =? WSAECONNABORTED) || (err =? WSAECONNRESET) then
    _ <- do (DecIo i);; skip
  else
    _ <- do (DecIo i);; skip.

(** ** Sending *)

(** The first loop of [SendPost]: [Some useSize] when this thread may send. *)
Definition SendPost_enter (i : Z) : prog (option Z) :=
  loop (fun cnt : Z =>
    size <- do (SendQSize i);;
    if size =? 0 then exit_loop None
    else
      flag <- do (XchgSendFlag i 1);;
      if flag =? 1 then exit_loop None
      else
        useSize <- do (SendQSize i);;
        if useSize =? 0 then
          do (SetSendFlag i 0);;
          if cnt + 1 =? 2 then exit_loop None else continue_loop (cnt + 1)
        else exit_loop (Some useSize)) 0.

(** The [for] loop over [sendbuf]: slot [k] and the [n] slots after it. A failed
    [Dequeue] leaves the slot as it is. *)
Fixpoint SendPost_fill (i k : Z) (n : nat) : prog (list (Z * Z)) :=
  match n with
  | O => Ret []
  | S n =>
      popped <- do (SendQDequeue i);;
      (match popped with Some p => do (SetSendPacket i k p) | None => skip end);;
      p <- do (GetSendPacket i k);;
      len <- do (Packet p (fun pk => Ok (CNetPacket.GetTotalSize pk, pk)));;
      rest <- SendPost_fill i (k + 1) n;;
      Ret ((p, len) :: rest)
  end.

Definition SendPost (i : Z) : prog unit :=
  entered <- SendPost_enter i;;
  match entered with
  | None => skip
  | Some useSize =>
      let useSize := if MAXBUF <? useSize then MAXBUF else useSize in
      sendbuf <- SendPost_fill i 0 (Z.to_nat useSize);;
      do (SetSendCnt i (u32 useSize));;
      _ <- do (IncIo i);;
      r <- do (WSASend i sendbuf);;
      match r with None => skip | Some err => io_error i err end
  end.

Definition SendPacket (id p : Z) : prog bool :=
  let i := u16 id in
  ok <- EnterSession i id;;
  if negb ok then Ret false
  else
    do (Count (fun c => mkCounters (acceptCnt c) (u32 (sendMsgCnt c + 1)) (recvMsgCnt c)
                          (acceptTPS c) (sendTPS c) (recvTPS c)));;
    PacketRef.AddRefCount p;;
    rnd <- do Rand;;
    _ <- do (Packet p (fun pk => CNetPacket.Encode pk rnd));;
    do (SendQEnqueue i p);;
    posted <- do (Post en_IOCP_JOB_SENDPOST i);;
    (if negb posted then LeaveSession i else skip);;
    Ret true.

(** ** Receiving *)

(** The [WSABUF]s of [RecvPost], as (offset, length) into the receive buffer:
    lengths are [ULONG], and [freeSize <= recvbuf[0].len] compares unsigned. *)
Definition recvbufs (rb : CRingBuffer.t) : list (Z * Z) :=
  let freeSize := CRingBuffer.GetFreeSize rb in
  let buf0 := (CRingBuffer.GetRearBufferPtr rb, u32 (CRingBuffer.DirectEnqueueSize rb)) in
  if u32 freeSize <=? buf0.2 then [buf0]
  else [buf0; (CRingBuffer.GetBufferPtr rb,
               u32 (CRingBuffer.GetFrontBufferPtr rb - CRingBuffer.GetBufferPtr rb - 1))].

Definition RecvPost (i : Z) : prog unit :=
  bufs <- do (RecvQ i (fun rb => Ok (recvbufs rb, rb)));;
  _ <- do (IncIo i);;
  r <- do (WSARecv i bufs);;
  match r with None => skip | Some err => io_error i err end.

(** ** Closing *)
Definition Disconnect (id : Z) : prog bool :=
  let i := u16 id in
  ok <- EnterSession i id;;
  if negb ok then Ret false
  else
    old <- do (XchgSocket i);;
    if u64 old =? INVALID_SOCKET then LeaveSession i;; Ret false
    else
      do (CancelIo i);;
      LeaveSession i;;
      Ret true.

Section handlers.
Context `{Handler}.

Definition drain_sendQ (i : Z) : prog unit :=
  loop (fun _ : unit =>
    popped <- do (SendQDequeue i);;
    match popped with
    | None => exit_loop tt
    | Some p => PacketRef.Free p;; continue_loop tt
    end) tt.

(** [for (k = 0; k < n; k++) CNetPacket::Free(sendPacketArr[k])]. *)
Fixpoint free_sent (i k : Z) (n : nat) : prog unit :=
  match n with
  | O => skip
  | S n => p <- do (GetSendPacket i k);; PacketRef.Free p;; free_sent i (k + 1) n
  end.

Definition ReleaseSession (i : Z) : prog unit :=
  old <- do (CasRelease i);;
  if negb (old =? 0) then skip
  else
    drain_sendQ i;;
    bkCnt <- do (GetSendCnt i);;
    free_sent i 0 (Z.to_nat bkCnt);;
    do (CloseRelSocket i);;
    sid <- do (GetSessionID i);;
    OnClientLeave sid;;
    sid <- do (GetSessionID i);;
    do (FreePush (u16 sid));;
    _ <- do (AddNowSession (-1));;
    skip.

(** One received packet of [5 + len] bytes: out of the ring buffer, decoded,
    delivered, freed. [true] says to go on with the next one. *)
Definition receive_packet (i len : Z) : prog bool :=
  pPacket <- PacketRef.Alloc;;
  deqSize <- do (RecvDequeueTo i pPacket (CNetPacket.NetHeader.sizeof + len));;
  (if negb (deqSize =? CNetPacket.NetHeader.sizeof + len) then do (Emit EvPrint) else skip);;
  _ <- do (Packet pPacket (fun pk => Ok (CNetPacket.MoveWritePos pk len)));;
  do (Count (fun c => mkCounters (acceptCnt c) (sendMsgCnt c) (u32 (recvMsgCnt c + 1))
                        (acceptTPS c) (sendTPS c) (recvTPS c)));;
  decoded <- do (Packet pPacket CNetPacket.Decode);;
  if negb decoded then
    PacketRef.Free pPacket;;
    sid <- do (GetSessionID i);;
    _ <- Disconnect sid;;
    Ret false
  else
    sid <- do (GetSessionID i);;
    OnRecv sid pPacket;;
    PacketRef.Free pPacket;;
    Ret true.

(** [Peek] of the header into a local [NetHeader]. *)
Definition peek_header (rb : CRingBuffer.t)
    : outcome (CNetPacket.NetHeader.t * CRingBuffer.t) :=
  ('(_, bs) ← CRingBuffer.Peek rb (replicate 5 0) CNetPacket.NetHeader.sizeof;
   Ok (CNetPacket.NetHeader.of_bytes bs, rb))%stdpp.

Definition use_size (rb : CRingBuffer.t) : outcome (Z * CRingBuffer.t) :=
  Ok (CRingBuffer.GetUseSize rb, rb).

(** The packet loop of the receive branch. *)
Definition receive_loop (i : Z) : prog unit :=
  loop (fun _ : unit =>
    size <- do (RecvQ i use_size);;
    if size <? CNetPacket.NetHeader.sizeof then exit_loop tt
    else
      header <- do (RecvQ i peek_header);;
      if negb (CNetPacket.NetHeader.code header =? CNetPacket.dfPACKET_CODE) then
        sid <- do (GetSessionID i);;
        _ <- Disconnect sid;;
        exit_loop tt
      else
        size <- do (RecvQ i use_size);;
        let len := CNetPacket.NetHeader.len header in
        if size <? CNetPacket.NetHeader.sizeof + len then exit_loop tt
        else
          go <- receive_packet i len;;
          if go then continue_loop tt else exit_loop tt) tt.

Definition on_sent (i : Z) : prog unit :=
  bkSendCnt <- do (GetSendCnt i);;
  do (SetSendCnt i 0);;
  free_sent i 0 (Z.to_nat bkSendCnt);;
  _ <- do (XchgSendFlag i 0);;
  SendPost i.

(** The receive branch before the next [RecvPost]. *)
Definition take_in (i dw : Z) : prog unit :=
  retSize <- do (RecvQ i (fun rb => Ok (CRingBuffer.MoveRear rb dw)));;
  (if negb (u32 retSize =? dw) then do (Raise Crash) else skip);;
  receive_loop i.

Definition on_received (i dw : Z) : prog unit :=
  take_in i dw;;
  RecvPost i.

(** The end of a turn of the worker loop. *)
Definition worker_leave (i : Z) : prog unit :=
  n <- do (DecIo i);;
  if n =? 0 then ReleaseSession i else skip.

(** A turn of [IOCPWorkerThread]; [false] ends the thread. A null session is
    dereferenced unless the completion is the stop message. *)
Definition IOCPWorkerThread (c : completion) : prog bool :=
  let dw := dwTransferred c in
  match pSession c with
  | None =>
      if (dw =? 0) && bool_decide (lpOverlapped c = OvNull) then Ret false
      else do (Raise NullDeref);; Ret true
  | Some i =>
      guard <- (if dw =? 0 then Ret false
                else s <- do (GetSocket i);; Ret (negb (s =? INVALID_SOCKET)));;
      if guard then
        match lpOverlapped c with
        | OvNull =>
            if dw =? en_IOCP_JOB_SENDPOST then SendPost i;; worker_leave i;; Ret true
            else if dw =? en_IOCP_JOB_RELEASE then ReleaseSession i;; Ret true
            else worker_leave i;; Ret true
        | OvSend => on_sent i;; worker_leave i;; Ret true
        | OvRecv => on_received i dw;; worker_leave i;; Ret true
        end
      else worker_leave i;; Ret true
  end.

(** ** Accepting *)

(** [_sessionCnt], kept to 48 bits. *)
Definition next_session_cnt : prog Z :=
  c <- do GetSessionCnt;;
  do (SetSessionCnt (u64 (c + 1)));;
  if 0xFFFFFFFFFFFF <? u64 (c + 1) then do (SetSessionCnt 1);; Ret 1
  else Ret (u64 (c + 1)).

Definition make_sessionID (cnt idx : Z) : Z := Z.lor (u64 (Z.shiftl cnt 16)) idx.

Definition pop_free : prog Z :=
  loop (fun _ : unit =>
    popped <- do FreePop;;
    match popped with Some idx => exit_loop idx | None => continue_loop tt end) tt.

Definition accept_recv (client_sock i : Z) : prog unit :=
  rcvbuf <- do (RecvQ i (fun rb =>
    Ok ([(CRingBuffer.GetRearBufferPtr rb, u32 (CRingBuffer.DirectEnqueueSize rb))], rb)));;
  r <- do (WSARecv i rcvbuf);;
  (match r with
   | None => skip
   | Some err =>
       if err =? WSA_IO_PENDING then
         s <- do (GetSocket i);;
         if s =? INVALID_SOCKET then do (CancelIo i) else skip
       else
         (if (err =? WSAENOTSOCK) || (err =? WSAECONNABORTED) || (err =? WSAECONNRESET)
          then skip else do (Emit EvPrint));;
         n <- do (DecIo i);;
         if n =? 0 then ReleaseSession i else skip
   end);;
  do (Count (fun c => mkCounters (acceptCnt c) (sendMsgCnt c) (u32 (recvMsgCnt c + 1))
                        (acceptTPS c) (sendTPS c) (recvTPS c))).

(** A turn of [AcceptThread] with the socket and address [accept] returned; the
    thread copied [_maxUser] and [_nagleOff] when it started. [false] ends the
    thread. *)
Definition AcceptThread (bkMaxUser : Z) (nagleOff : bool) (client_sock ip port : Z) : prog bool :=
  if client_sock =? INVALID_SOCKET then Ret false
  else
    do (Count (fun c => mkCounters (u32 (acceptCnt c + 1)) (sendMsgCnt c) (recvMsgCnt c)
                          (acceptTPS c) (sendTPS c) (recvTPS c)));;
    do (SetSockOpt client_sock);;
    do (SetSockOpt client_sock);;
    (if nagleOff then do (SetSockOpt client_sock) else skip);;
    now <- do GetNowSession;;
    if now =? bkMaxUser then do (CloseSocket client_sock);; Ret true
    else
      accepted <- OnConnectionRequest ip port;;
      if negb accepted then do (CloseSocket client_sock);; Ret true
      else
        _ <- do (AddNowSession 1);;
        cnt <- next_session_cnt;;
        idx <- pop_free;;
        _ <- do (IncIo idx);;
        do (SetSocket idx client_sock);;
        do (SetRelSocket idx client_sock);;
        do (SetSessionID idx (make_sessionID cnt idx));;
        do (SetReleaseFlag idx 0);;
        do (SetSendFlag idx 0);;
        do (SetSendCnt idx 0);;
        do (RecvQ idx (fun rb => Ok (tt, CRingBuffer.ClearBuffer rb)));;
        ok <- do (CreatePort client_sock idx);;
        if negb ok then Ret false
        else
          sid <- do (GetSessionID idx);;
          OnClientJoin sid;;
          accept_recv client_sock idx;;
          Ret true.

(** ** Monitoring *)

(** A turn of [MonitorThread]: the counters of the last second. *)
Definition MonitorThread : prog unit :=
  do (Count (fun c => mkCounters (acceptCnt c) 0 (recvMsgCnt c)
                        (acceptTPS c) (sendMsgCnt c) (recvTPS c)));;
  do (Count (fun c => mkCounters (acceptCnt c) (sendMsgCnt c) 0
                        (acceptTPS c) (sendTPS c) (recvMsgCnt c)));;
  do (Count (fun c => mkCounters 0 (sendMsgCnt c) (recvMsgCnt c)
                        (acceptCnt c) (sendTPS c) (recvTPS c))).

End handlers.

(** The getters return [int]. *)
Section getters.
Context {P : Type}.
Definition getAcceptTPS (st : server P) : Z := i32 (acceptTPS (cnts st)).
Definition getRecvMessageTPS (st : server P) : Z := i32 (recvTPS (cnts st)).
Definition getSendMessageTPS (st : server P) : Z := i32 (sendTPS (cnts st)).
Definition GetSessionCount (st : server P) : Z := i32 (nowSession st).
End getters.

End CNetServer.
