(* ===== verification/RunLogic.v ===== *)
(** * Running a member function alone

    A total-correctness logic for the programs of [ServerState]: [twp p Q F st] says
    that [p], started in [st] and not interleaved with other threads, ends whatever
    the operating system answers, either with a result and a state that satisfy [Q]
    or with a fault that satisfies [F]. [twp_run] is what that means for the
    executable [run]: enough fuel exists for every environment. *)
From S2P Require Import Prelude.
From S2P Require Import RingBuffer.
From S2P Require Import NetPacket.
From S2P Require Import ObjectPool.
From S2P Require Import ServerState.
From stdpp Require Import prelude gmap list.
From Stdlib Require Import ZArith Lia FunctionalExtensionality.
Open Scope Z_scope.

Section twp.
Context {P : Type} `{PoolOps P}.

Inductive twp {A} (Q : A -> server P -> Prop) (F : fault -> Prop) : prog A -> server P -> Prop :=
  | twp_ret a st : Q a st -> twp Q F (Ret a) st
  | twp_do {B} (a : act B) (k : B -> prog A) st :
      (forall c f, exec c a st = Fault f -> F f) ->
      (forall c b st', exec c a st = Ok (b, st') -> twp Q F (k b) st') ->
      twp Q F (Do a k) st
  | twp_turn {S B} (body : S -> prog (S + B)) s (k : B -> prog A) st :
      twp Q F (pbind (body s) (fun r => match r with inl s' => Loop body s' k | inr b => k b end)) st ->
      twp Q F (Loop body s k) st.

Lemma twp_mono {A} (Q Q' : A -> server P -> Prop) (F : fault -> Prop) p st :
  (forall a st, Q a st -> Q' a st) -> twp Q F p st -> twp Q' F p st.
Proof.
  intros HQ. induction 1 as [a st Ha|B a k st Hf _ IH|S B body s k st _ IH].
  - apply twp_ret, HQ, Ha.
  - apply twp_do; [exact Hf|]. intros c b st' E. eapply IH, E.
  - apply twp_turn, IH.
Qed.

Lemma pbind_assoc {A B C} (p : prog A) (f : A -> prog B) (g : B -> prog C) :
  pbind (pbind p f) g = pbind p (fun a => pbind (f a) g).
Proof.
  induction p as [A a|A X a k IH|A S X body _ s k IH]; cbn; [done| |]; f_equal;
    apply functional_extensionality; intros b; apply IH.
Qed.

Lemma twp_bind {A B} (p : prog A) (f : A -> prog B) Q (F : fault -> Prop) st :
  twp (fun a st' => twp Q F (f a) st') F p st -> twp Q F (pbind p f) st.
Proof.
  remember (fun a st' => twp Q F (f a) st') as Q' eqn:EQ.
  induction 1 as [a st Ha|X a k st Hf _ IH|S X body s k st _ IH]; cbn.
  - subst Q'. exact Ha.
  - apply twp_do; [exact Hf|]. intros c b st' E. eapply IH, E.
  - apply twp_turn. rewrite pbind_assoc in IH.
    replace (fun r : S + X => match r with inl s' => Loop body s' (fun b => pbind (k b) f) | inr b => pbind (k b) f end)
      with (fun r : S + X => pbind (match r with inl s' => Loop body s' k | inr b => k b end) f);
      [exact IH|].
    apply functional_extensionality. intros [s'|b]; done.
Qed.

(** Sequencing with the specification of the first part. *)
Lemma twp_seq {A B} (p : prog A) (f : A -> prog B) Q1 Q (F : fault -> Prop) st :
  twp Q1 F p st -> (forall a st', Q1 a st' -> twp Q F (f a) st') -> twp Q F (pbind p f) st.
Proof. intros Hp Hf. apply twp_bind. eapply twp_mono; [exact Hf|exact Hp]. Qed.

(** An action that has one result. *)
Lemma twp_act {A B} (a : act B) (k : B -> prog A) Q (F : fault -> Prop) st b st' :
  (forall c, exec c a st = Ok (b, st')) -> twp Q F (k b) st' -> twp Q F (Do a k) st.
Proof.
  intros Hx Hk. apply twp_do; intros c; rewrite Hx; [done|]. intros b1 st1 [= <- <-]. exact Hk.
Qed.

(** An action that always faults. *)
Lemma twp_fault {A B} (a : act B) (k : B -> prog A) Q (F : fault -> Prop) st f :
  (forall c, exec c a st = Fault f) -> F f -> twp Q F (Do a k) st.
Proof.
  intros Hx Hf. apply twp_do; intros c; rewrite Hx; [|done]. intros f' [= <-]. exact Hf.
Qed.

(** The executable semantics ends within some fuel. *)
Lemma twp_run {A} (Q : A -> server P -> Prop) (F : fault -> Prop) p st :
  twp Q F p st -> forall env, exists fuel,
    match run fuel env p st with
    | Some (Ok (a, st', _)) => Q a st'
    | Some (Fault f) => F f
    | None => False
    end.
Proof.
  induction 1 as [a st Ha|B a k st Hf _ IH|S B body s k st _ IH]; intros env.
  - exists 1%nat. exact Ha.
  - destruct (exec (hd 0 env) a st) as [[b st']|f] eqn:E.
    + destruct (IH _ _ _ E (tl env)) as [n Hn]. exists (Datatypes.S n). cbn. rewrite E. exact Hn.
    + exists 1%nat. cbn. rewrite E. eapply Hf, E.
  - destruct (IH env) as [n Hn]. exists (Datatypes.S n). exact Hn.
Qed.

(** With any fuel the semantics runs out of it or has the outcome stated. *)
Lemma twp_run_any {A} (Q : A -> server P -> Prop) (F : fault -> Prop) p st :
  twp Q F p st -> forall fuel env a st' env',
    run fuel env p st = Some (Ok (a, st', env')) -> Q a st'.
Proof.
  induction 1 as [a st Ha|B a k st _ _ IH|S B body s k st _ IH]; intros [|fuel] env a' st' env' E;
    cbn in E; try done.
  - injection E as <- <- _. exact Ha.
  - destruct (exec (hd 0 env) a st) as [[b st1]|f] eqn:Ex; [|done]. eapply IH, E. exact Ex.
  - eapply IH, E.
Qed.

End twp.
