(* ===== verification/ReceiveLoop.v ===== *)
(** * Receiving: from bytes on the wire to delivered packets

    The receive branch of the worker thread. [RecvPost] hands the free part of the
    ring buffer to the operating system as one or two segments, the completion moves
    the rear index, and the packet loop cuts the contents into packets, decodes them
    and delivers them. *)
From S2P Require Import Prelude.
From S2P Require Import RingBuffer.
From S2P Require Import NetPacket.
From S2P Require Import ObjectPool.
From S2P Require Import ServerState.
From S2P Require Import NetServer.
From S2P Require Import RunLogic.
From stdpp Require Import prelude gmap list.
From Stdlib Require Import ZArith Lia FunctionalExtensionality.
Open Scope Z_scope.

(** ** A handler that records what it is given *)
#[local] Instance recorder : Handler := {
  OnConnectionRequest _ _ := Ret true;
  OnClientJoin _ := skip;
  OnClientLeave _ := skip;
  OnRecv sid p :=
    (bs <- do (Packet p (fun pk => Ok (payload pk, pk)));; do (Emit (EvRecv sid bs)))%prog
}.

(** ** [RecvPost] and the rear index *)
Section segments.
Import CRingBuffer.

(** The segments [RecvPost] offers: one, or the part up to the end of the object and
    the part from its start. *)
Lemma recvbufs_cases rb :
  rb_ok rb -> iTotalSize rb < 2 ^ 32 ->
  (CNetServer.recvbufs rb = [(GetRearBufferPtr rb, GetFreeSize rb)] /\
     (GetFreeSize rb = 0 \/
      direct_room (iFront rb) (GetRearBufferPtr rb) (iTotalSize rb) = Some (GetFreeSize rb)) /\
     0 <= GetRearBufferPtr rb /\ GetRearBufferPtr rb + GetFreeSize rb <= iTotalSize rb) \/
  (exists d, CNetServer.recvbufs rb = [(GetRearBufferPtr rb, d); (0, iFront rb)] /\
     direct_room (iFront rb) (GetRearBufferPtr rb) (iTotalSize rb) = Some d /\
     0 < d /\ d + iFront rb = GetFreeSize rb /\ 0 < iFront rb /\
     0 <= GetRearBufferPtr rb /\ GetRearBufferPtr rb + d = iTotalSize rb /\
     Z.rem (GetRearBufferPtr rb + (d - 1) + 1) (iTotalSize rb) = 0).
Proof.
  intros Hok Hsz. pose proof (use_free rb Hok). pose proof (use_range rb Hok) as Hu.
  pose proof Hok as (Hf & Hr & HL). unfold CNetServer.recvbufs. unfold GetBufferSize in *.
  assert (Hp : 0 <= GetRearBufferPtr rb < iTotalSize rb).
  { unfold GetRearBufferPtr. rewrite Z.rem_mod_nonneg by lia. apply Z.mod_pos_bound. lia. }
  rewrite (u_small 32 (GetFreeSize rb)) by lia. cbn [snd].
  destruct (direct_room_cases rb Hok) as [[Hn H0]|(d & Hd & Hdf & -> & Hfit & _ & [[He _]|(Hlt & Hend & Hsum & Hrem & Hpos)])].
  - left. rewrite H0. assert (Hde : DirectEnqueueSize rb = 0).
    { unfold direct_room in Hn. unfold DirectEnqueueSize. fold (GetRearBufferPtr rb). split_ifs; done || lia. }
    rewrite Hde. split_and!; [done|auto|lia|lia].
  - left. rewrite (u_small 32 (DirectEnqueueSize rb)) by lia. rewrite <- He, Z.leb_refl.
    split_and!; [done|auto|lia|lia].
  - right. exists (DirectEnqueueSize rb). rewrite (u_small 32 (DirectEnqueueSize rb)) by lia.
    replace (GetFreeSize rb <=? DirectEnqueueSize rb) with false by lia.
    unfold GetFrontBufferPtr, GetBufferPtr. rewrite rem_next by lia.
    assert (iFront rb + 1 <> iTotalSize rb).
    { unfold direct_room in Hd. split_ifs; injection Hd; lia. }
    replace (iFront rb + 1 =? iTotalSize rb) with false by lia.
    rewrite u_small by lia. split_and!; try done; try lia. do 3 f_equal. f_equal. lia.
Qed.

(** What the operating system writes into the segments is what [store] writes. *)
Lemma scatter_store rb bs :
  rb_ok rb -> iTotalSize rb < 2 ^ 32 -> 0 < Z.of_nat (length bs) <= GetFreeSize rb ->
  scatter (buffer rb) (CNetServer.recvbufs rb) bs = RingOps.store rb bs.
Proof.
  intros Hok Hsz Hlen. pose proof Hok as (Hf & Hr & HL). unfold RingOps.store, GetBufferPtr.
  destruct (direct_room_cases rb Hok) as [[_ ?]|(de & Ede & Hde & -> & _)]; [lia|].
  destruct (recvbufs_cases rb Hok Hsz) as [(-> & Hd & Hp & Hfit)|(d & -> & Hd & Hd0 & Hsum & Hpos & Hp & Hend & Hrem)].
  - destruct Hd as [?|Hd]; [lia|]. rewrite Ede in Hd. injection Hd as ->. cbn [scatter].
    rewrite (take_ge bs), (drop_ge bs) by lia. destruct (mem_write _ _ bs) as [m|] eqn:E; [|done].
    cbn [mbind outcome_bind]. rewrite mem_write_nil; [done|]. apply length_mem_write in E. lia.
  - rewrite Ede in Hd. injection Hd as ->. cbn [scatter]. destruct (mem_write _ _ (take _ bs)) as [m|]; [|done].
    cbn [mbind outcome_bind]. rewrite (take_ge (drop _ bs)) by (rewrite length_drop; lia). destruct (mem_write m 0 _); done.
Qed.

(** Followed by the move of the rear index, it appends the bytes to the contents. *)
Lemma recv_appends rb bs :
  rb_ok rb -> iTotalSize rb < 2 ^ 32 -> 0 < Z.of_nat (length bs) <= GetFreeSize rb ->
  exists m rb',
    scatter (buffer rb) (CNetServer.recvbufs rb) bs = Ok m /\
    MoveRear (mk m (iFront rb) (iRear rb) (iTotalSize rb)) (Z.of_nat (length bs)) =
      (Z.of_nat (length bs), rb') /\
    rb_ok rb' /\ iTotalSize rb' = iTotalSize rb /\ contents rb' = contents rb ++ bs.
Proof. intros Hok Hsz Hlen. rewrite scatter_store by done. apply store_MoveRear; done. Qed.

Lemma room_recvbufs rb :
  rb_ok rb -> iTotalSize rb < 2 ^ 32 -> room_of (CNetServer.recvbufs rb) = GetFreeSize rb.
Proof.
  intros Hok Hsz. destruct (recvbufs_cases rb Hok Hsz) as [(-> & _)|(d & -> & _ & _ & Hsum & _)]; cbn; lia.
Qed.
End segments.

(** ** States of the receive branch *)
Section receive.
Context {P : Type} `{PoolLaws P}.
Implicit Types st : server P.

Lemma get_set st i s s' :
  get_session st i = Ok s -> get_session (set_session st i s') i = Ok s'.
Proof.
  unfold get_session. destruct (i <? 0); [done|]. cbn. intros Hs.
  destruct (sessionArr st !! Z.to_nat i) eqn:E; [|done].
  rewrite list_lookup_insert_eq by eauto using lookup_lt_Some. done.
Qed.

(** [st] with another session array, counters, pool, log, and packet [x]. *)
Definition rx st (x : Z) (arr : list SESSION) (cn : counters) (pk : CNetPacket.t) (pl : P)
    (lg : list event) : server P :=
  mkServer (maxUser st) (nagleOff st) (nowSession st) (sessionCnt st) arr (freeSessionStack st)
    cn (fun q => if q =? x then pk else packets st q) pl (iocp st) (pend st) lg.

Lemma rx_packet st x arr cn pk pl lg pk' :
  set_packet (rx st x arr cn pk pl lg) x pk' = rx st x arr cn pk' pl lg.
Proof.
  unfold rx, set_packet. cbn. f_equal. apply functional_extensionality. intros q.
  destruct (q =? x); done.
Qed.

Lemma rx_start st x pl : set_pool st pl = rx st x (sessionArr st) (cnts st) (packets st x) pl (log st).
Proof.
  unfold rx, set_pool. f_equal. apply functional_extensionality. intros q.
  destruct (q =? x) eqn:E; [|done]. apply Z.eqb_eq in E as ->. done.
Qed.

Lemma twp_packet {A B} (f : CNetPacket.t -> outcome (B * CNetPacket.t)) (k : B -> prog A)
    Q (F : fault -> Prop) st x arr cn pk pl lg b pk' :
  f pk = Ok (b, pk') -> twp Q F (k b) (rx st x arr cn pk' pl lg) ->
  twp Q F (Do (Packet x f) k) (rx st x arr cn pk pl lg).
Proof.
  intros Hf Hk. eapply twp_act; [|exact Hk]. intros c. cbn. rewrite Z.eqb_refl, Hf. cbn.
  rewrite rx_packet. done.
Qed.

Lemma twp_count {A} (f : counters -> counters) (k : unit -> prog A) Q (F : fault -> Prop)
    st x arr cn pk pl lg :
  twp Q F (k tt) (rx st x arr (f cn) pk pl lg) ->
  twp Q F (Do (Count f) k) (rx st x arr cn pk pl lg).
Proof. intros Hk. eapply twp_act; [|exact Hk]. done. Qed.

Lemma twp_emit {A} (e : event) (k : unit -> prog A) Q (F : fault -> Prop) st x arr cn pk pl lg :
  twp Q F (k tt) (rx st x arr cn pk pl (lg ++ [e])) ->
  twp Q F (Do (Emit e) k) (rx st x arr cn pk pl lg).
Proof. intros Hk. eapply twp_act; [|exact Hk]. done. Qed.

(** A packet of the pool that nobody holds. *)
Definition fresh (pk : CNetPacket.t) : Prop :=
  Z.of_nat (length (CNetPacket.pBuffer pk)) = CNetPacket.DEFAULT_SIZE /\
  CNetPacket.cBufferSize pk = CNetPacket.DEFAULT_SIZE /\
  CNetPacket.pWritePos pk = CNetPacket.NetHeader.sizeof /\
  CNetPacket.pReadPos pk = CNetPacket.NetHeader.sizeof /\
  CNetPacket.refCount pk = 0.

(** The pool works and its free packets are fresh. *)
Definition pool_clean st : Prop :=
  pool_ok (pool st) /\ forall x, x ∉ pool_live (pool st) -> fresh (packets st x).

(** What turns of the packet loop change: [n] more messages are counted, [evs] is
    logged, the receive buffer of session [i] becomes [rb], and packets that were
    free may hold other bytes. *)
Record received st (i : Z) (s : SESSION) (n : Z) (evs : list event) (rb : CRingBuffer.t)
    (st' : server P) : Prop := mkReceived {
  re_sessions : sessionArr st' = <[Z.to_nat i := with_recvQ s rb]> (sessionArr st);
  re_cnts : cnts st' = mkCounters (acceptCnt (cnts st)) (sendMsgCnt (cnts st))
              (u32 (recvMsgCnt (cnts st) + n)) (acceptTPS (cnts st)) (sendTPS (cnts st))
              (recvTPS (cnts st));
  re_log : log st' = log st ++ evs;
  re_live : pool_live (pool st') = pool_live (pool st);
  re_packets : forall x, x ∈ pool_live (pool st) -> packets st' x = packets st x;
  re_clean : pool_clean st';
  re_ring : rb_ok rb /\ CRingBuffer.iTotalSize rb = CRingBuffer.iTotalSize (recvQ s);
  re_rest : (maxUser st', nagleOff st', nowSession st', sessionCnt st', freeSessionStack st',
             iocp st', pend st') =
            (maxUser st, nagleOff st, nowSession st, sessionCnt st, freeSessionStack st,
             iocp st, pend st);
}.

Lemma received_get st i s n evs rb st' :
  get_session st i = Ok s -> received st i s n evs rb st' ->
  get_session st' i = Ok (with_recvQ s rb).
Proof.
  intros Hs Hr. pose proof (get_set st i s (with_recvQ s rb) Hs) as Hg.
  unfold get_session in *. destruct (i <? 0); [done|]. rewrite (re_sessions _ _ _ _ _ _ _ Hr).
  exact Hg.
Qed.

(** Two stretches of the loop are one. *)
Lemma received_trans st i s n1 n2 evs1 evs2 rb1 rb2 st1 st2 :
  received st i s n1 evs1 rb1 st1 -> received st1 i (with_recvQ s rb1) n2 evs2 rb2 st2 ->
  received st i s (n1 + n2) (evs1 ++ evs2) rb2 st2.
Proof.
  intros [] []. split.
  - rewrite re_sessions1, re_sessions0. apply list_insert_insert_eq.
  - rewrite re_cnts1, re_cnts0. cbn. f_equal. rewrite u_add_l. f_equal. lia.
  - rewrite re_log1, re_log0, app_assoc. done.
  - congruence.
  - intros x Hx. rewrite re_packets1, re_packets0 by congruence. done.
  - done.
  - destruct re_ring0, re_ring1. cbn in *. split; congruence.
  - congruence.
Qed.

Lemma received_none st i s :
  get_session st i = Ok s -> rb_ok (recvQ s) -> pool_clean st ->
  0 <= recvMsgCnt (cnts st) < 2 ^ 32 -> received st i s 0 [] (recvQ s) st.
Proof.
  intros Hs Hok Hcl Hc. split; try done.
  - symmetry. apply list_insert_id. unfold get_session in Hs. destruct (i <? 0); [done|].
    destruct (sessionArr st !! Z.to_nat i); [|done]. injection Hs as ->. destruct s; done.
  - rewrite Z.add_0_r, u_small by done. destruct (cnts st); done.
  - rewrite app_nil_r. done.
Qed.


(** The pool can serve every request. *)
Hypothesis pool_total : forall tid (pl : P), pool_ok pl ->
  exists x pl', pool_alloc tid pl = Ok (x, pl').

(** A frame in the packet's buffer decodes to its payload. *)
Lemma frame_decodes pk rk pay :
  fresh pk -> is_byte rk -> Forall is_byte pay -> Z.of_nat (length pay) <= 1019 ->
  exists buf, mem_write (CNetPacket.pBuffer pk) 0 (frame rk pay) = Ok buf /\
    exists pk', CNetPacket.Decode (CNetPacket.set_write (CNetPacket.set_buffer
          (CNetPacket.set_ref pk 1) buf) (5 + Z.of_nat (length pay))) = Ok (true, pk') /\
      payload pk' = pay /\ CNetPacket.refCount pk' = 1 /\
      CNetPacket.cBufferSize pk' = CNetPacket.DEFAULT_SIZE /\
      Z.of_nat (length (CNetPacket.pBuffer pk')) = CNetPacket.DEFAULT_SIZE.
Proof.
  intros (HL & Hc & Hw & Hr & Hn) Hrk Hpay Hlen. unfold CNetPacket.DEFAULT_SIZE in *.
  pose proof (length_frame rk pay) as HF.
  destruct (mem_write_prefix (CNetPacket.pBuffer pk) (frame rk pay) (5 + Z.of_nat (length pay)))
    as (buf & Hbuf & _ & Eb); [lia|lia|].
  exists buf. split; [done|].
  pose proof (length_mem_write _ _ _ _ Hbuf) as HLb.
  rewrite (Decode_frame _ rk pay (drop (Z.to_nat (5 + Z.of_nat (length pay))) (CNetPacket.pBuffer pk)))
    by (done || lia).
  eexists; split; [done|]. unfold payload. cbn [CNetPacket.pBuffer CNetPacket.pWritePos
    CNetPacket.refCount CNetPacket.cBufferSize CNetPacket.set_buffer CNetPacket.set_write CNetPacket.set_ref].
  split_and!; [|done|done|].
  - unfold CNetPacket.NetHeader.sizeof.
    rewrite drop_app_length' by done. apply take_app_length'. lia.
  - rewrite !length_app, length_drop. rewrite Eb, length_app, length_drop in HLb. cbn in *. lia.
Qed.

Lemma fresh_clear pk :
  CNetPacket.cBufferSize pk = CNetPacket.DEFAULT_SIZE ->
  Z.of_nat (length (CNetPacket.pBuffer pk)) = CNetPacket.DEFAULT_SIZE ->
  fresh (CNetPacket.Clear (CNetPacket.set_ref pk 0)).
Proof. intros. unfold fresh. cbn. done. Qed.

(** A packet is taken out of the pool, with one reference. *)
Lemma rx_alloc {A} (k : Z -> prog A) Q (F : fault -> Prop) st :
  pool_clean st ->
  (forall x pl, pool_ok pl -> fresh (packets st x) -> (x ∉ pool_live (pool st)) ->
     pool_live pl = {[x]} ∪ pool_live (pool st) ->
     twp Q F (k x) (rx st x (sessionArr st) (cnts st) (CNetPacket.set_ref (packets st x) 1) pl (log st))) ->
  twp Q F (pbind PacketRef.Alloc k) st.
Proof.
  intros [Hpok Hfresh] Hk. cbn.
  apply twp_do; [intros c f; cbn; destruct (pool_total c (pool st) Hpok) as (x & pl & ->); done|].
  intros c x st1 Hx. cbn in Hx. inv_ok. destruct a as [x' pl]. inv_ok.
  destruct (pool_alloc_spec c (pool st) x pl Hpok E) as (Hpl & Hxl & _ & Hlive).
  pose proof (Hfresh x Hxl) as Hfx. rewrite (rx_start st x pl).
  eapply twp_packet; [unfold CNetPacket.AddRefCount; rewrite (proj2 (proj2 (proj2 (proj2 Hfx)))); done|].
  apply Hk; done.
Qed.

(** The last reference is given back: the packet is fresh and in the pool again. *)
Lemma rx_free {A} (k : unit -> prog A) Q (F : fault -> Prop) st x arr cn pk pl lg :
  pool_ok pl -> x ∈ pool_live pl -> CNetPacket.refCount pk = 1 ->
  CNetPacket.cBufferSize pk = CNetPacket.DEFAULT_SIZE ->
  Z.of_nat (length (CNetPacket.pBuffer pk)) = CNetPacket.DEFAULT_SIZE ->
  (forall pk' pl', fresh pk' -> pool_ok pl' -> pool_live pl' = pool_live pl ∖ {[x]} ->
     twp Q F (k tt) (rx st x arr cn pk' pl' lg)) ->
  twp Q F (pbind (PacketRef.Free x) k) (rx st x arr cn pk pl lg).
Proof.
  intros Hpl Hxp Hrc Hcb Hlb Hk. cbn.
  eapply twp_packet; [unfold PacketRef.decrement; rewrite Hrc; done|]. cbn.
  eapply twp_packet; [done|]. cbn. change (i32 (1 - 1)) with 0.
  apply twp_do.
  { intros c' f. cbn. destruct (pool_free_live c' pl x Hpl Hxp) as (? & -> & _). done. }
  intros c' b st2 Hfree. cbn in Hfree.
  destruct (pool_free_live c' pl x Hpl Hxp) as (pl2 & Hf & Hpl2 & Hlive2). rewrite Hf in Hfree.
  cbn in Hfree. inv_ok. apply (Hk _ pl2); [apply fresh_clear; done|done|done].
Qed.

(** A frame is taken out of the receive buffer. *)
Lemma rx_dequeue st i s rk pay rest x pk buf :
  get_session st i = Ok s -> rb_ok (recvQ s) -> contents (recvQ s) = frame rk pay ++ rest ->
  mem_write (CNetPacket.pBuffer pk) 0 (frame rk pay) = Ok buf ->
  exists rb, rb_ok rb /\ CRingBuffer.iTotalSize rb = CRingBuffer.iTotalSize (recvQ s) /\ contents rb = rest /\
    forall A (k : Z -> prog A) Q (F : fault -> Prop) cn pl lg,
      let n := CNetPacket.NetHeader.sizeof + Z.of_nat (length pay) in
      twp Q F (k n) (rx st x (<[Z.to_nat i := with_recvQ s rb]> (sessionArr st)) cn (CNetPacket.set_buffer pk buf) pl lg) ->
      twp Q F (Do (RecvDequeueTo i x n) k) (rx st x (sessionArr st) cn pk pl lg).
Proof.
  intros Hs Hok Hc Hbuf. set (n := CNetPacket.NetHeader.sizeof + Z.of_nat (length pay)).
  assert (Hn5 : n = 5 + Z.of_nat (length pay)) by done.
  pose proof (length_contents _ Hok) as HLc. rewrite Hc, length_app, length_frame in HLc.
  destruct (Dequeue_spec (recvQ s) (CNetPacket.pBuffer pk) n Hok) as (rb & Hdq & Hrb & Htot & Hcr); [lia|].
  rewrite Z.min_l in Hdq, Hcr by lia. rewrite Hc in Hdq, Hcr.
  rewrite take_app_length' in Hdq by (rewrite length_frame; lia).
  rewrite drop_app_length' in Hcr by (rewrite length_frame; lia).
  rewrite Hbuf in Hdq. cbn in Hdq. exists rb. split_and!; try done.
  intros A k Q F cn pl lg. cbv zeta. apply twp_act. intros c'. cbn.
  change (get_session (rx _ _ _ _ _ _ _) i) with (get_session st i). rewrite Hs.
  cbn. rewrite Z.eqb_refl. cbn. rewrite Hdq. cbn. do 2 f_equal.
  exact (rx_packet st x _ cn pk pl lg _).
Qed.

Lemma receive_packet_twp st i s rk pay rest :
  get_session st i = Ok s -> rb_ok (recvQ s) -> pool_clean st ->
  is_byte rk -> Forall is_byte pay -> Z.of_nat (length pay) <= 1019 ->
  contents (recvQ s) = frame rk pay ++ rest ->
  twp (fun go st' => go = true /\ exists rb,
         received st i s 1 [EvRecv (sessionID s) pay] rb st' /\ contents rb = rest)
      (fun _ => False) (CNetServer.receive_packet i (Z.of_nat (length pay))) st.
Proof.
  intros Hs Hok Hclean Hrk Hpay Hlen Hc. unfold CNetServer.receive_packet.
  apply rx_alloc; [exact Hclean|]. intros x pl Hpl Hfx Hxl Hlive.
  destruct (frame_decodes (packets st x) rk pay Hfx Hrk Hpay Hlen)
    as (buf & Hbuf & pk' & Hdec & Hpay' & Hrc & Hcb & Hlb). destruct Hfx as (HL & Hcs & Hw & Hr & Hn).
  destruct (rx_dequeue st i s rk pay rest x (CNetPacket.set_ref (packets st x) 1) buf Hs Hok Hc Hbuf)
    as (rb & Hrb & Htot & Hcr & Hdq).
  apply Hdq. clear Hdq. rewrite Z.eqb_refl. cbn [negb pbind].
  eapply twp_packet.
  { unfold CNetPacket.MoveWritePos, CNetPacket.GetTotalSize. cbn.
    unfold CNetPacket.DEFAULT_SIZE, CNetPacket.NetHeader.sizeof in *. rewrite Hcs, Hw.
    replace (1024 - 5 <? Z.of_nat (length pay)) with false by lia. done. }
  apply twp_count. eapply twp_packet; [exact Hdec|]. cbn [negb pbind].
  eapply (twp_act _ _ _ _ _ (sessionID s)).
  { intros c'. cbn. unfold read_session.
    rewrite (get_set st i s (with_recvQ s rb) Hs : get_session (rx st x _ _ _ _ _) i = _). done. }
  eapply twp_packet; [rewrite Hpay'; done|].
  apply twp_emit. apply rx_free; [done|set_solver|done..|]. intros pk2 pl2 Hf Hpl2 Hlive2.
  assert (Hx0 : pool_live pl2 = pool_live (pool st)) by (rewrite Hlive2, Hlive; set_solver).
  apply twp_ret. split; [done|]. exists rb. split; [|done]. split; try done; cbn.
  - intros y Hy. destruct (y =? x) eqn:Exy; [|done]. b2p. subst y. done.
  - split; cbn; [done|]. rewrite Hx0. intros y Hy. destruct (y =? x); [done|]. apply Hclean, Hy.
Qed.

(** ** The packet loop *)

(** Bytes that are not yet a whole packet. *)
Definition incomplete (bs : list Z) : Prop :=
  (length bs < 5)%nat \/
  (nth 0 bs 0 = CNetPacket.dfPACKET_CODE /\
   Z.of_nat (length bs) < 5 + le_num [nth 1 bs 0; nth 2 bs 0]).

Definition frames (ps : list (Z * list Z)) : list Z := concat ((fun p => frame p.1 p.2) <$> ps).
Definition frame_ok (p : Z * list Z) : Prop :=
  is_byte p.1 /\ Forall is_byte p.2 /\ Z.of_nat (length p.2) <= 1019.

(** What the loop sees of the receive buffer. *)
Lemma peek_header_spec rb bs :
  rb_ok rb -> contents rb = bs -> (5 <= length bs)%nat ->
  CNetServer.peek_header rb =
  Ok (CNetPacket.NetHeader.of_bytes (take 5 bs), rb).
Proof.
  intros Hok Hc Hlen. unfold CNetServer.peek_header, CNetPacket.NetHeader.sizeof.
  pose proof (length_contents _ Hok) as HL. rewrite Hc in HL.
  rewrite (Peek_spec rb (replicate 5 0) 5 Hok) by lia. rewrite Z.min_l by lia. rewrite Hc.
  destruct (mem_write_prefix (replicate 5 0) (take (Z.to_nat 5) bs) 5) as (m & -> & _ & ->);
    [rewrite length_take; lia|done|]. cbn [mbind outcome_bind]. rewrite app_nil_r. done.
Qed.

Lemma of_bytes_take bs :
  (5 <= length bs)%nat ->
  CNetPacket.NetHeader.of_bytes (take 5 bs) = CNetPacket.NetHeader.of_bytes bs.
Proof. intros. do 5 (destruct bs as [|? bs]; [cbn in *; lia|]). done. Qed.

Lemma twp_recvQ {A B} (f : CRingBuffer.t -> outcome (B * CRingBuffer.t)) (k : B -> prog A)
    Q (F : fault -> Prop) st i s b :
  get_session st i = Ok s -> f (recvQ s) = Ok (b, recvQ s) ->
  twp Q F (k b) st -> twp Q F (Do (RecvQ i f) k) st.
Proof.
  intros Hs Hf Hk. eapply twp_act; [|exact Hk]. intros c. cbn. unfold on_session.
  rewrite Hs. cbn. rewrite Hf. cbn. do 2 f_equal.
  unfold set_session. destruct st; cbn. f_equal. apply list_insert_id.
  unfold get_session in Hs. cbn in Hs. destruct (i <? 0); [done|].
  destruct (_ !! _) in Hs |- *; [|done]. injection Hs as ->. destruct s; done.
Qed.

Lemma frame_header rk pay rest :
  Z.of_nat (length pay) < 65536 ->
  CNetPacket.NetHeader.code (CNetPacket.NetHeader.of_bytes (frame rk pay ++ rest)) =
    CNetPacket.dfPACKET_CODE /\
  CNetPacket.NetHeader.len (CNetPacket.NetHeader.of_bytes (frame rk pay ++ rest)) =
    Z.of_nat (length pay).
Proof. intros. unfold frame. cbn -[le_num]. split; [done|]. apply le_num_2. lia. Qed.

Lemma receive_loop_twp ps : forall st i s tail,
  get_session st i = Ok s -> rb_ok (recvQ s) -> pool_clean st ->
  0 <= recvMsgCnt (cnts st) < 2 ^ 32 ->
  Forall frame_ok ps -> incomplete tail -> contents (recvQ s) = frames ps ++ tail ->
  twp (fun _ st' => exists rb,
         received st i s (Z.of_nat (length ps)) ((fun p => EvRecv (sessionID s) p.2) <$> ps) rb st' /\
         contents rb = tail)
      (fun _ => False) (CNetServer.receive_loop i) st.
Proof.
  induction ps as [|[rk pay] ps IH]; intros st i s tail Hs Hok Hcl Hcnt Hps Htail Hc;
    pose proof (length_contents _ Hok) as HL; unfold CNetServer.receive_loop; apply twp_turn;
    cbn [pbind]; (eapply twp_recvQ; [exact Hs|done|]); cbn [pbind].
  - cbn in Hc. rewrite Hc in HL.
    assert (Hdone : twp (fun (_ : unit) st' => exists rb,
         received st i s 0 [] rb st' /\ contents rb = tail) (fun _ => False) (Ret tt) st).
    { apply twp_ret. exists (recvQ s). split; [apply received_none; done|done]. }
    destruct Htail as [Hlt|[Hcode Hlen]].
    all: destruct (CRingBuffer.GetUseSize (recvQ s) <? CNetPacket.NetHeader.sizeof) eqn:E5;
      [exact Hdone|]; b2p; unfold CNetPacket.NetHeader.sizeof in E5; try (exfalso; lia).
    cbn [pbind]. eapply twp_recvQ; [exact Hs|apply (peek_header_spec _ tail Hok Hc); lia|].
    rewrite of_bytes_take by lia. unfold CNetPacket.NetHeader.of_bytes.
    cbn [CNetPacket.NetHeader.code CNetPacket.NetHeader.len]. rewrite Hcode, Z.eqb_refl. cbn [negb pbind].
    eapply twp_recvQ; [exact Hs|done|].
    replace (_ <? _) with true; [exact Hdone|]. symmetry. apply Z.ltb_lt.
    unfold CNetPacket.NetHeader.sizeof. lia.
  - apply Forall_cons in Hps as [(Hrk & Hpay & Hlen) Hps]. cbn [fst snd] in *.
    unfold frames in Hc. cbn [fmap list_fmap concat fst snd] in Hc. rewrite <- app_assoc in Hc.
    fold (frames ps) in Hc. rewrite Hc, length_app, length_frame in HL.
    replace (CRingBuffer.GetUseSize (recvQ s) <? CNetPacket.NetHeader.sizeof) with false
      by (symmetry; apply Z.ltb_ge; unfold CNetPacket.NetHeader.sizeof; lia).
    cbn [pbind]. eapply twp_recvQ; [exact Hs|apply (peek_header_spec _ _ Hok Hc)|].
    { rewrite length_app, length_frame. lia. }
    rewrite of_bytes_take by (rewrite length_app, length_frame; lia).
    destruct (frame_header rk pay (frames ps ++ tail)) as [E1 E2]; [lia|].
    rewrite E1, E2, Z.eqb_refl. cbn [negb pbind].
    eapply twp_recvQ; [exact Hs|done|].
    replace (CRingBuffer.GetUseSize (recvQ s) <? _) with false
      by (symmetry; apply Z.ltb_ge; unfold CNetPacket.NetHeader.sizeof; lia).
    cbn [pbind]. apply twp_bind. eapply twp_seq.
    { exact (receive_packet_twp st i s rk pay _ Hs Hok Hcl Hrk Hpay Hlen Hc). }
    intros go st1 (-> & rb1 & Hr1 & Hc1). apply twp_ret. cbn beta iota.
    pose proof (received_get _ _ _ _ _ _ _ Hs Hr1) as Hs1.
    eapply twp_mono; [|apply (IH st1 i _ tail Hs1); try done].
    + intros [] st2 (rb2 & Hr2 & Hc2). exists rb2. split; [|done].
      replace (Z.of_nat (length ((rk, pay) :: ps))) with (1 + Z.of_nat (length ps)) by (cbn [length]; lia).
      exact (received_trans _ _ _ _ _ _ _ _ _ _ _ Hr1 Hr2).
    + apply (re_ring _ _ _ _ _ _ _ Hr1).
    + apply (re_clean _ _ _ _ _ _ _ Hr1).
    + rewrite (re_cnts _ _ _ _ _ _ _ Hr1). cbn. apply u_range. lia.
Qed.


(** ** Any split of the stream *)
Lemma length_frames_cons p ps : length (frames (p :: ps)) = (5 + length p.2 + length (frames ps))%nat.
Proof. unfold frames. cbn [fmap list_fmap concat]. rewrite length_app, length_frame. done. Qed.

Lemma incomplete_prefix a b : incomplete (a ++ b) -> incomplete a.
Proof.
  destruct (decide (length a < 5)%nat) as [|Ha]; [by left|].
  intros [Hb|[Hc Hl]]; [rewrite length_app in Hb; lia|]. right.
  rewrite length_app in Hl. rewrite !app_nth1 in Hc by lia. rewrite !app_nth1 in Hl by lia.
  split; [done|lia].
Qed.

Lemma frame_prefix_incomplete rk pay a b :
  Z.of_nat (length pay) < 65536 -> a ++ b = frame rk pay -> (length a < length (frame rk pay))%nat ->
  incomplete a.
Proof.
  intros Hp E Hlt. destruct (decide (length a < 5)%nat) as [|Ha]; [by left|]. right.
  do 5 (destruct a as [|? a]; [cbn in Ha; lia|]).
  rewrite length_frame in Hlt. unfold frame in E. cbn in E. injection E as -> -> -> _ _ _.
  split; [done|]. cbn [nth]. rewrite le_num_2 by lia. lia.
Qed.

(** What has arrived is whole frames and an incomplete one. *)
Lemma stream_prefix ps : forall a b tail,
  Forall frame_ok ps -> incomplete tail -> (length tail <= 1023)%nat ->
  a ++ b = frames ps ++ tail ->
  exists ps1 ps2 t, ps = ps1 ++ ps2 /\ a = frames ps1 ++ t /\ incomplete t /\
    (length t <= 1023)%nat /\ t ++ b = frames ps2 ++ tail.
Proof.
  induction ps as [|[rk pay] ps IH]; intros a b tail Hps Ht Hlt E.
  - exists [], [], a. cbn in E. split_and!; try done.
    + eapply incomplete_prefix. rewrite E. done.
    + apply (f_equal length) in E. rewrite length_app in E. lia.
  - pose proof Hps as Hall. apply Forall_cons in Hps as [(Hrk & Hpay & Hlen) Hps]. cbn [fst snd] in *.
    assert (Ef : frames ((rk, pay) :: ps) = frame rk pay ++ frames ps) by done.
    rewrite Ef, <- app_assoc in E.
    destruct (decide (length a < length (frame rk pay))%nat) as [Ha|Ha].
    + exists [], ((rk, pay) :: ps), a. rewrite Ef, <- app_assoc. split_and!; try done.
      * assert (Ea : a ++ take (length (frame rk pay) - length a) b = frame rk pay).
        { apply (f_equal (take (length (frame rk pay)))) in E.
          rewrite take_app_length in E. rewrite take_app_ge in E by lia. done. }
        eapply frame_prefix_incomplete; [|exact Ea|exact Ha]. lia.
      * rewrite length_frame in Ha. lia.
    + assert (Ea : a = frame rk pay ++ drop (length (frame rk pay)) a).
      { rewrite <- (take_drop (length (frame rk pay)) a) at 1. f_equal.
        apply (f_equal (take (length (frame rk pay)))) in E.
        rewrite take_app_length, take_app_le in E by lia. done. }
      rewrite Ea, <- app_assoc in E. apply app_inv_head in E.
      destruct (IH _ _ _ Hps Ht Hlt E) as (ps1 & ps2 & t & -> & E1 & Hi & Hl & E2).
      exists ((rk, pay) :: ps1), ps2, t. split_and!; try done.
      rewrite Ea, E1. unfold frames. cbn [fmap list_fmap concat fst snd]. rewrite <- app_assoc. done.
Qed.

(** A receive that ends with [bs]: the operating system filled the segments
    [RecvPost] offered, the worker moves the rear index and runs the packet loop. *)
Definition arrival (i : Z) (bs : list Z) : prog unit :=
  (_ <- do (RecvQ i (fun rb =>
     (m ← scatter (CRingBuffer.buffer rb) (CNetServer.recvbufs rb) bs;
      Ok (tt, CRingBuffer.mk m (CRingBuffer.iFront rb) (CRingBuffer.iRear rb)
                (CRingBuffer.iTotalSize rb)))%stdpp));;
   CNetServer.take_in i (Z.of_nat (length bs)))%prog.

Fixpoint arrivals (i : Z) (chunks : list (list Z)) : prog unit :=
  match chunks with
  | [] => skip
  | bs :: chunks => (arrival i bs;; arrivals i chunks)%prog
  end.

Lemma set_set st i s1 s2 : set_session (set_session st i s1) i s2 = set_session st i s2.
Proof. unfold set_session. cbn. f_equal. apply list_insert_insert_eq. Qed.

Lemma received_moved st i s n evs rb1 rb st' :
  CRingBuffer.iTotalSize rb1 = CRingBuffer.iTotalSize (recvQ s) ->
  received (set_session st i (with_recvQ s rb1)) i (with_recvQ s rb1) n evs rb st' ->
  received st i s n evs rb st'.
Proof.
  intros Ht []. split; try done; cbn in *.
  - rewrite re_sessions0. apply list_insert_insert_eq.
  - destruct re_ring0. split; congruence.
Qed.

Lemma arrival_twp ps st i s t bs tail :
  get_session st i = Ok s -> rb_ok (recvQ s) -> pool_clean st ->
  CRingBuffer.iTotalSize (recvQ s) < 2 ^ 32 -> 0 <= recvMsgCnt (cnts st) < 2 ^ 32 ->
  contents (recvQ s) = t -> 0 < Z.of_nat (length bs) <= CRingBuffer.GetFreeSize (recvQ s) ->
  Forall frame_ok ps -> incomplete tail -> t ++ bs = frames ps ++ tail ->
  twp (fun _ st' => exists rb,
         received st i s (Z.of_nat (length ps)) ((fun p => EvRecv (sessionID s) p.2) <$> ps) rb st' /\
         contents rb = tail)
      (fun _ => False) (arrival i bs) st.
Proof.
  intros Hs Hok Hcl Hsz Hcnt Hc Hbs Hps Ht E.
  destruct (recv_appends (recvQ s) bs Hok Hsz Hbs) as (m & rb' & Hsc & Hmv & Hok' & Hsz' & Hc').
  unfold arrival. cbn.
  eapply (twp_act _ _ _ _ _ tt).
  { intros c. cbn. unfold on_session. rewrite Hs. cbn. rewrite Hsc. done. }
  pose proof (get_set st i s (with_recvQ s (CRingBuffer.mk m (CRingBuffer.iFront (recvQ s))
    (CRingBuffer.iRear (recvQ s)) (CRingBuffer.iTotalSize (recvQ s)))) Hs) as Hg.
  eapply (twp_act _ _ _ _ _ (Z.of_nat (length bs))).
  { intros c. cbn. unfold on_session. rewrite Hg. cbn. rewrite Hmv. cbn. rewrite set_set. done. }
  change (with_recvQ (with_recvQ s _) rb') with (with_recvQ s rb').
  rewrite (u_small 32 (Z.of_nat (length bs))), Z.eqb_refl.
  2: { pose proof (use_free _ Hok). pose proof (use_range _ Hok). unfold CRingBuffer.GetBufferSize in *. lia. }
  cbn [negb pbind]. rewrite Hc, E in Hc'.
  eapply twp_mono; [|apply (receive_loop_twp ps _ i (with_recvQ s rb') tail (get_set _ _ _ _ Hs)); done].
  intros [] st' (rb & Hr & Hrc). exists rb. split; [|done].
  eapply received_moved; [|exact Hr]. done.
Qed.

Lemma arrivals_twp chunks : forall ps st i s t tail,
  get_session st i = Ok s -> rb_ok (recvQ s) -> pool_clean st ->
  CRingBuffer.iTotalSize (recvQ s) < 2 ^ 32 -> 0 <= recvMsgCnt (cnts st) < 2 ^ 32 ->
  contents (recvQ s) = t -> (length t <= 1023)%nat -> incomplete t ->
  Forall (fun bs => 0 < Z.of_nat (length bs) <= CRingBuffer.GetBufferSize (recvQ s) - 1023) chunks ->
  Forall frame_ok ps -> incomplete tail -> (length tail <= 1023)%nat ->
  t ++ concat chunks = frames ps ++ tail ->
  twp (fun _ st' => exists rb,
         received st i s (Z.of_nat (length ps)) ((fun p => EvRecv (sessionID s) p.2) <$> ps) rb st' /\
         contents rb = tail)
      (fun _ => False) (arrivals i chunks) st.
Proof.
  induction chunks as [|bs chunks IH]; intros ps st i s t tail Hs Hok Hcl Hsz Hcnt Hc Hlt Hit Hch Hps Htl Hll E.
  - cbn in E. rewrite app_nil_r in E.
    assert (ps = []) as ->.
    { destruct ps as [|[rk pay] ps]; [done|exfalso]. apply Forall_cons in Hps as [(_ & _ & Hp) _].
      cbn [snd] in Hp. pose proof (frame_header rk pay (frames ps ++ tail) ltac:(lia)) as [E1 E2].
      unfold frames in E. cbn [fmap list_fmap concat fst snd] in E. fold (frames ps) in E.
      rewrite <- app_assoc in E. rewrite <- E in E1, E2.
      assert (Hl : (5 + length pay <= length t)%nat) by (rewrite E, length_app, length_frame; lia).
      destruct Hit as [|[_ Hi]]; [lia|]. unfold CNetPacket.NetHeader.of_bytes in E2.
      cbn [CNetPacket.NetHeader.len] in E2. lia. }
    apply twp_ret. exists (recvQ s). split; [apply received_none; done|].
    rewrite Hc, E. done.
  - cbn [concat] in E. rewrite app_assoc in E. apply Forall_cons in Hch as [Hbs Hch].
    destruct (stream_prefix ps _ _ tail Hps Htl Hll E) as (ps1 & ps2 & t' & -> & E1 & Hi' & Hl' & E2).
    apply Forall_app in Hps as [Hps1 Hps2]. cbn [arrivals].
    pose proof (length_contents _ Hok) as HL. pose proof (use_free _ Hok).
    eapply twp_seq.
    { apply (arrival_twp ps1 st i s t bs t' Hs Hok Hcl Hsz Hcnt Hc); try done.
      rewrite Hc in HL. lia. }
    intros [] st1 (rb1 & Hr1 & Hc1).
    pose proof (received_get _ _ _ _ _ _ _ Hs Hr1) as Hs1.
    destruct (re_ring _ _ _ _ _ _ _ Hr1) as [Hok1 Ht1].
    eapply twp_mono; [|eapply (IH ps2 st1 i (with_recvQ s rb1) t' tail Hs1)]; try done.
    + intros [] st2 (rb2 & Hr2 & Hc2). exists rb2. split; [|done].
      rewrite length_app, Nat2Z.inj_add, fmap_app.
      exact (received_trans _ _ _ _ _ _ _ _ _ _ _ Hr1 Hr2).
    + apply (re_clean _ _ _ _ _ _ _ Hr1).
    + cbn. lia.
    + rewrite (re_cnts _ _ _ _ _ _ _ Hr1). cbn. apply u_range. lia.
    + eapply Forall_impl; [exact Hch|]. intros b Hb. cbn in *. unfold CRingBuffer.GetBufferSize in *.
      cbn. lia.
Qed.


(** ** Bytes that are not a packet *)

(** [Disconnect] of a session in use by its own thread: the pending I/O is cancelled,
    the count is as before. *)
Lemma Disconnect_twp st i s :
  get_session st i = Ok s -> u16 (sessionID s) = i -> releaseFlag s = 0 ->
  1 <= ioCount s -> ioCount s + 1 < 2 ^ 32 -> u64 (i32 (socket s)) <> INVALID_SOCKET ->
  twp (fun b st' => b = true /\
         st' = emit (set_session st i (xchg_socket s).2) (EvCancel (relSocket s)))
      (fun _ => False) (CNetServer.Disconnect (sessionID s)) st.
Proof.
  intros Hs Hid Hrf Hio1 Hio2 Hsk. unfold CNetServer.Disconnect. rewrite Hid. cbn.
  set (s1 := with_ioFlag s (ioCount s + 1) (releaseFlag s)).
  eapply (twp_act _ _ _ _ _ (ioCount s + 1) (set_session st i s1)).
  { intros c. cbn. unfold on_session. rewrite Hs. cbn. rewrite u_small by lia. done. }
  pose proof (get_set st i s s1 Hs) as Hs1.
  eapply (twp_act _ _ _ _ _ 0).
  { intros c. cbn. unfold read_session. rewrite Hs1. cbn. rewrite Hrf. done. }
  cbn. eapply (twp_act _ _ _ _ _ (sessionID s)).
  { intros c. cbn. unfold read_session. rewrite Hs1. done. }
  rewrite Z.eqb_refl. cbn.
  set (s2 := (xchg_socket s1).2).
  eapply (twp_act _ _ _ _ _ (i32 (socket s)) (set_session st i s2)).
  { intros c. cbn. unfold on_session. rewrite Hs1. cbn. rewrite set_set. done. }
  rewrite (proj2 (Z.eqb_neq _ _) Hsk).
  pose proof (get_set st i s s2 Hs) as Hs2.
  eapply (twp_act _ _ _ _ _ tt (emit (set_session st i s2) (EvCancel (relSocket s)))).
  { intros c. unfold exec. rewrite Hs2. done. }
  eapply (twp_act _ _ _ _ _ (ioCount s) (emit (set_session st i (xchg_socket s).2) (EvCancel (relSocket s)))).
  { intros c. unfold exec, on_session.
    assert (get_session (emit (set_session st i s2) (EvCancel (relSocket s))) i = Ok s2) as ->
      by exact Hs2. cbn.
    replace (ioCount s + 1 - 1) with (ioCount s) by lia. rewrite u_small by lia. do 2 f_equal.
    unfold emit, set_session. cbn. f_equal. rewrite list_insert_insert_eq. done. }
  replace (ioCount s =? 0) with false by lia. cbn. apply twp_ret. done.
Qed.

Lemma receive_loop_bad_code st i s bs :
  get_session st i = Ok s -> rb_ok (recvQ s) -> contents (recvQ s) = bs ->
  (5 <= length bs)%nat -> nth 0 bs 0 <> CNetPacket.dfPACKET_CODE ->
  u16 (sessionID s) = i -> releaseFlag s = 0 ->
  1 <= ioCount s -> ioCount s + 1 < 2 ^ 32 -> u64 (i32 (socket s)) <> INVALID_SOCKET ->
  twp (fun _ st' => st' = emit (set_session st i (xchg_socket s).2) (EvCancel (relSocket s)))
      (fun _ => False) (CNetServer.receive_loop i) st.
Proof.
  intros Hs Hok Hc Hlen Hcode Hid Hrf Hio1 Hio2 Hsk.
  pose proof (length_contents _ Hok) as HL. rewrite Hc in HL.
  unfold CNetServer.receive_loop. apply twp_turn. cbn [pbind].
  eapply twp_recvQ; [exact Hs|done|].
  replace (CRingBuffer.GetUseSize (recvQ s) <? CNetPacket.NetHeader.sizeof) with false
    by (symmetry; apply Z.ltb_ge; unfold CNetPacket.NetHeader.sizeof; lia).
  cbn [pbind]. eapply twp_recvQ; [exact Hs|apply (peek_header_spec _ bs Hok Hc Hlen)|].
  rewrite of_bytes_take by done. unfold CNetPacket.NetHeader.of_bytes at 1.
  cbn [CNetPacket.NetHeader.code]. rewrite (proj2 (Z.eqb_neq _ _) Hcode). cbn [negb pbind].
  eapply (twp_act _ _ _ _ _ (sessionID s)).
  { intros c. cbn. unfold read_session. rewrite Hs. done. }
  cbn [pbind]. apply twp_bind. eapply twp_seq.
  { apply (Disconnect_twp st i s); done. }
  intros b st' [-> ->]. apply twp_ret, twp_ret. done.
Qed.

(** A header that announces more than a packet buffer holds. *)
Lemma receive_loop_overruns st i s bs :
  get_session st i = Ok s -> rb_ok (recvQ s) -> pool_clean st -> contents (recvQ s) = bs ->
  nth 0 bs 0 = CNetPacket.dfPACKET_CODE ->
  1019 < le_num [nth 1 bs 0; nth 2 bs 0] ->
  5 + le_num [nth 1 bs 0; nth 2 bs 0] <= Z.of_nat (length bs) ->
  twp (fun _ _ => False) (fun f => f = OutOfBounds) (CNetServer.receive_loop i) st.
Proof.
  intros Hs Hok [Hpok Hfresh] Hc Hcode Hbig Hlen. set (len := le_num _) in *.
  pose proof (length_contents _ Hok) as HL. rewrite Hc in HL.
  unfold CNetServer.receive_loop. apply twp_turn. cbn [pbind].
  eapply twp_recvQ; [exact Hs|done|].
  replace (CRingBuffer.GetUseSize (recvQ s) <? CNetPacket.NetHeader.sizeof) with false
    by (symmetry; apply Z.ltb_ge; unfold CNetPacket.NetHeader.sizeof; lia).
  cbn [pbind]. eapply twp_recvQ; [exact Hs|apply (peek_header_spec _ bs Hok Hc); lia|].
  rewrite of_bytes_take by lia. unfold CNetPacket.NetHeader.of_bytes.
  cbn [CNetPacket.NetHeader.code CNetPacket.NetHeader.len]. fold len.
  rewrite Hcode, Z.eqb_refl. cbn [negb pbind]. clearbody len.
  eapply twp_recvQ; [exact Hs|done|].
  replace (CRingBuffer.GetUseSize (recvQ s) <? _) with false
    by (symmetry; apply Z.ltb_ge; unfold CNetPacket.NetHeader.sizeof; lia).
  cbn [pbind]. unfold CNetServer.receive_packet, PacketRef.Alloc, PacketRef.AddRefCount. cbn.
  apply twp_do; [intros c f; cbn; destruct (pool_total c (pool st) Hpok) as (x & pl & ->); done|].
  intros c x st1 Hx. cbn in Hx. inv_ok. destruct a as [x' pl]. inv_ok.
  destruct (pool_alloc_spec c (pool st) x pl Hpok E) as (_ & Hxl & _ & _).
  rewrite (rx_start st x pl). destruct (Hfresh x Hxl) as (HLx & _).
  eapply twp_packet; [done|].
  destruct (Dequeue_spec (recvQ s) (CNetPacket.pBuffer (packets st x)) (5 + len) Hok) as
    (rb & Hdq & _); [lia|]. rewrite Z.min_l in Hdq by lia.
  eapply twp_fault; [|done]. intros c'. cbn.
  change (get_session (rx _ _ _ _ _ _ _) i) with (get_session st i). rewrite Hs. cbn.
  rewrite Z.eqb_refl. cbn. change (CNetPacket.pBuffer (CNetPacket.AddRefCount ?p)) with (CNetPacket.pBuffer p).
  unfold CNetPacket.NetHeader.sizeof. rewrite Hdq.
  unfold mem_write. rewrite length_take. unfold CNetPacket.DEFAULT_SIZE in HLx.
  replace (_ && _) with false; [done|]. symmetry. apply andb_false_intro2, Z.leb_gt. lia.
Qed.


(** ** Properties *)

(** C2: the packets of a connection are delivered whole, in order and unchanged,
    however the stream was cut into receives. Let the bytes that arrive be the frames
    of the payloads [ps] followed by an incomplete one, cut into chunks that fit the
    receive buffer. Then the worker, run on one receive after the other, ends; it has
    called [OnRecv] exactly once for each payload, in order, with the payload; it
    counted them; and the receive buffer holds the incomplete rest. *)
Theorem stream_reassembly (st : server P) (i : Z) (s : SESSION) (chunks : list (list Z))
    (ps : list (Z * list Z)) (tail : list Z) (env : list Z) :
  get_session st i = Ok s -> rb_ok (recvQ s) -> pool_clean st ->
  CRingBuffer.iTotalSize (recvQ s) < 2 ^ 32 -> 0 <= recvMsgCnt (cnts st) < 2 ^ 32 ->
  contents (recvQ s) = [] ->
  Forall (fun bs => 0 < Z.of_nat (length bs) <= CRingBuffer.GetBufferSize (recvQ s) - 1023) chunks ->
  Forall frame_ok ps -> incomplete tail -> (length tail <= 1023)%nat ->
  concat chunks = frames ps ++ tail ->
  exists fuel st' env' rb,
    run fuel env (arrivals i chunks) st = Some (Ok (tt, st', env')) /\
    log st' = log st ++ ((fun p => EvRecv (sessionID s) p.2) <$> ps) /\
    recvMsgCnt (cnts st') = u32 (recvMsgCnt (cnts st) + Z.of_nat (length ps)) /\
    get_session st' i = Ok (with_recvQ s rb) /\ rb_ok rb /\ contents rb = tail.
Proof.
  intros Hs Hok Hcl Hsz Hcnt Hc Hch Hps Hti Htl E.
  destruct (twp_run _ _ _ _ (arrivals_twp chunks ps st i s [] tail Hs Hok Hcl Hsz Hcnt Hc
    ltac:(cbn; lia) ltac:(left; cbn; lia) Hch Hps Hti Htl E) env) as [fuel Hrun].
  destruct (run fuel env (arrivals i chunks) st) as [[[[[] st'] env']|]|] eqn:Er; [|done|done].
  destruct Hrun as (rb & Hr & Hrc). exists fuel, st', env', rb. rewrite Er. split; [done|].
  split; [apply (re_log _ _ _ _ _ _ _ Hr)|]. split; [rewrite (re_cnts _ _ _ _ _ _ _ Hr); done|].
  split; [eapply received_get; done|]. destruct (re_ring _ _ _ _ _ _ _ Hr). done.
Qed.

(** C26: a byte stream that does not start with the packet code is cut off. The packet
    loop delivers nothing, calls [Disconnect], which cancels the pending I/O of the
    socket, and leaves the bytes and the reference count as they were. *)
Theorem bad_code_disconnects (st : server P) (i : Z) (s : SESSION) (env : list Z) :
  get_session st i = Ok s -> rb_ok (recvQ s) -> (5 <= length (contents (recvQ s)))%nat ->
  nth 0 (contents (recvQ s)) 0 <> CNetPacket.dfPACKET_CODE ->
  u16 (sessionID s) = i -> releaseFlag s = 0 ->
  1 <= ioCount s -> ioCount s + 1 < 2 ^ 32 -> u64 (i32 (socket s)) <> INVALID_SOCKET ->
  exists fuel env',
    run fuel env (CNetServer.receive_loop i) st =
      Some (Ok (tt, emit (set_session st i (xchg_socket s).2) (EvCancel (relSocket s)), env')).
Proof.
  intros Hs Hok Hlen Hcode Hid Hrf Hio1 Hio2 Hsk.
  destruct (twp_run _ _ _ _ (receive_loop_bad_code st i s _ Hs Hok eq_refl Hlen Hcode Hid Hrf Hio1 Hio2 Hsk)
    env) as [fuel Hrun].
  destruct (run fuel env (CNetServer.receive_loop i) st) as [[[[[] st'] env']|]|] eqn:Er; [|done|done].
  subst st'. exists fuel, env'. exact Er.
Qed.

(** C27: a header can overrun the packet buffer. Nothing compares [header.len] with
    the 1024 bytes of a packet: once a header with a length above 1019 and that many
    bytes have arrived, the packet loop copies past the end of the packet's buffer. *)
Theorem oversized_header_overruns (st : server P) (i : Z) (s : SESSION) (env : list Z) :
  get_session st i = Ok s -> rb_ok (recvQ s) -> pool_clean st ->
  nth 0 (contents (recvQ s)) 0 = CNetPacket.dfPACKET_CODE ->
  1019 < le_num [nth 1 (contents (recvQ s)) 0; nth 2 (contents (recvQ s)) 0] ->
  5 + le_num [nth 1 (contents (recvQ s)) 0; nth 2 (contents (recvQ s)) 0] <=
    Z.of_nat (length (contents (recvQ s))) ->
  exists fuel, run fuel env (CNetServer.receive_loop i) st = Some (Fault OutOfBounds).
Proof.
  intros Hs Hok Hcl Hcode Hbig Hlen.
  destruct (twp_run _ _ _ _ (receive_loop_overruns st i s _ Hs Hok Hcl eq_refl Hcode Hbig Hlen) env)
    as [fuel Hrun].
  exists fuel. destruct (run fuel env (CNetServer.receive_loop i) st) as [[[[[] st'] env']|f]|] eqn:Er;
    [done| |done]. subst f. done.
Qed.

End receive.

Section segment_property.
Import CRingBuffer.

(** C28: [RecvPost] offers exactly the free bytes of the receive buffer, in one or two
    segments inside it, and what the operating system stores there is appended to
    the contents when the worker moves the rear index. *)
Theorem RecvPost_segments (rb : t) (bs : list Z) :
  rb_ok rb -> iTotalSize rb < 2 ^ 32 -> 0 < Z.of_nat (length bs) <= GetFreeSize rb ->
  room_of (CNetServer.recvbufs rb) = GetFreeSize rb /\
  exists m rb',
    scatter (buffer rb) (CNetServer.recvbufs rb) bs = Ok m /\
    MoveRear (mk m (iFront rb) (iRear rb) (iTotalSize rb)) (Z.of_nat (length bs)) =
      (Z.of_nat (length bs), rb') /\
    rb_ok rb' /\ contents rb' = contents rb ++ bs.
Proof.
  intros Hok Hsz Hlen. split; [apply room_recvbufs; done|].
  destruct (recv_appends rb bs Hok Hsz Hlen) as (m & rb' & ? & ? & ? & _ & ?). eauto 6.
Qed.
End segment_property.

(** ** Witnesses *)
#[local] Existing Instance RefPool.ops.
#[local] Existing Instance RefPool.laws.
Module ReceiveSample.

Definition session (rb : CRingBuffer.t) : SESSION :=
  mkSession (CNetServer.make_sessionID 9 0) 500 500 1 0 0 0 [] (replicate 200 0) rb.
Definition state (rb : CRingBuffer.t) : server RefPool.t :=
  mkServer 1 false 1 9 [session rb] [] (mkCounters 0 0 41 0 0 0)
    (fun _ => CNetPacket.new_default (replicate 1024 0)) RefPool.empty [] [] [].
(** A receive buffer whose indices are near the end of its 1101 bytes. *)
Definition late : CRingBuffer.t := CRingBuffer.mk (replicate 1101 0) 1090 1090 1101.
Definition holding (bs : list Z) : CRingBuffer.t :=
  CRingBuffer.mk (0 :: bs ++ replicate (1100 - length bs) 0) 0 (Z.of_nat (length bs)) 1101.

Definition payloads : list (Z * list Z) := [(7, [1; 2; 3]); (8, []); (9, [200; 255])].
Definition wire : list Z := frames payloads ++ [0x77; 9; 0; 1; 2; 3].
Definition chunks : list (list Z) := [take 1 wire; take 9 (drop 1 wire); drop 10 wire].

Lemma total (tid : Z) (pl : RefPool.t) :
  pool_ok pl -> exists x pl', pool_alloc tid pl = Ok (x, pl').
Proof. intros _. cbn. unfold RefPool.alloc. destruct (RefPool.free_list pl); eauto. Qed.

Lemma clean rb : pool_clean (state rb).
Proof.
  split.
  - split_and!; cbn; [constructor|set_solver|set_solver].
  - intros x _. split_and!; vm_compute; done.
Qed.
End ReceiveSample.

Lemma stream_reassembly_witness :
  exists fuel st' env' rb,
    run fuel [] (arrivals 0 ReceiveSample.chunks) (ReceiveSample.state ReceiveSample.late) =
      Some (Ok (tt, st', env')) /\
    log st' = [EvRecv 589824 [1; 2; 3]; EvRecv 589824 []; EvRecv 589824 [200; 255]] /\
    recvMsgCnt (cnts st') = 44 /\
    get_session st' 0 = Ok (with_recvQ (ReceiveSample.session ReceiveSample.late) rb) /\
    rb_ok rb /\ contents rb = [0x77; 9; 0; 1; 2; 3].
Proof.
  refine (stream_reassembly ReceiveSample.total (ReceiveSample.state ReceiveSample.late) 0
    (ReceiveSample.session ReceiveSample.late) ReceiveSample.chunks ReceiveSample.payloads
    [0x77; 9; 0; 1; 2; 3] [] eq_refl _ (ReceiveSample.clean _) _ _ _ _ _ _ _ _).
  - vm_compute. repeat split; discriminate.
  - vm_compute. reflexivity.
  - split; vm_compute; [discriminate|reflexivity].
  - vm_compute. reflexivity.
  - repeat constructor; vm_compute; discriminate || reflexivity.
  - repeat constructor; vm_compute; discriminate || reflexivity.
  - right. split; vm_compute; reflexivity.
  - vm_compute. lia.
  - vm_compute. reflexivity.
Defined.

Lemma bad_code_disconnects_witness :
  exists fuel env' st',
    run fuel [] (CNetServer.receive_loop 0) (ReceiveSample.state (ReceiveSample.holding [1; 2; 3; 4; 5; 6])) =
      Some (Ok (tt, st', env')) /\ log st' = [EvCancel 500].
Proof.
  destruct (bad_code_disconnects (ReceiveSample.state (ReceiveSample.holding [1; 2; 3; 4; 5; 6])) 0
    (ReceiveSample.session (ReceiveSample.holding [1; 2; 3; 4; 5; 6])) [] eq_refl)
    as (fuel & env' & E).
  - vm_compute. repeat split; discriminate.
  - vm_compute. lia.
  - vm_compute. discriminate.
  - vm_compute. reflexivity.
  - vm_compute. reflexivity.
  - vm_compute. discriminate.
  - vm_compute. reflexivity.
  - vm_compute. discriminate.
  - exists fuel, env'. eexists. split; [exact E|]. vm_compute. reflexivity.
Defined.

Lemma oversized_header_overruns_witness :
  exists fuel, run fuel [] (CNetServer.receive_loop 0)
    (ReceiveSample.state (ReceiveSample.holding ([0x77; 0xFC; 3] ++ replicate 1022 0))) =
  Some (Fault OutOfBounds).
Proof.
  refine (oversized_header_overruns ReceiveSample.total
    (ReceiveSample.state (ReceiveSample.holding ([0x77; 0xFC; 3] ++ replicate 1022 0))) 0
    (ReceiveSample.session (ReceiveSample.holding ([0x77; 0xFC; 3] ++ replicate 1022 0))) [] eq_refl
    _ (ReceiveSample.clean _) _ _ _).
  - vm_compute. repeat split; discriminate.
  - vm_compute. reflexivity.
  - vm_compute. reflexivity.
  - vm_compute. discriminate.
Defined.

Lemma RecvPost_segments_witness :
  room_of (CNetServer.recvbufs ReceiveSample.late) = 1100 /\
  CNetServer.recvbufs ReceiveSample.late = [(1091, 10); (0, 1090)].
Proof.
  split; [|vm_compute; reflexivity].
  refine (proj1 (RecvPost_segments ReceiveSample.late [1; 2] _ _ _)).
  - vm_compute. repeat split; discriminate.
  - vm_compute. reflexivity.
  - split; vm_compute; [reflexivity|discriminate].
Defined.
