(* ===== verification/SendPath.v ===== *)
(** * Sending: from the send queue to the socket

    [SendPost] takes up to [MAXBUF] packets off the send queue of a session, in
    order, and hands their bytes to one overlapped [WSASend]; [sendFlag] admits one
    sender at a time. Its completion frees the packets and sends the next batch. *)
From S2P Require Import Prelude.
From S2P Require Import RingBuffer.
From S2P Require Import NetPacket.
From S2P Require Import ObjectPool.
From S2P Require Import ServerState.
From S2P Require Import NetServer.
From S2P Require Import RunLogic.
From stdpp Require Import prelude gmap list.
From Stdlib Require Import ZArith Lia FunctionalExtensionality.
Open Scope Z_scope.

Section send.
Context {P : Type} `{PoolOps P}.
Implicit Types st : server P.

(** ** Actions on one session *)
Lemma get_set_session st i s s' :
  get_session st i = Ok s -> get_session (set_session st i s') i = Ok s'.
Proof.
  unfold get_session. destruct (i <? 0); [done|]. cbn. intros Hs.
  destruct (sessionArr st !! Z.to_nat i) eqn:E; [|done].
  rewrite list_lookup_insert_eq by eauto using lookup_lt_Some. done.
Qed.

Lemma set_set_session st i s1 s2 : set_session (set_session st i s1) i s2 = set_session st i s2.
Proof. unfold set_session. cbn. f_equal. apply list_insert_insert_eq. Qed.

Lemma set_packet_same st p : set_packet st p (packets st p) = st.
Proof.
  destruct st. unfold set_packet. cbn. f_equal. apply functional_extensionality. intros q.
  destruct (q =? p) eqn:E; [|done]. b2p. subst. done.
Qed.

(** An action on session [i] of [set_session st i s]. *)
Ltac on_slot Hs := intros c; unfold exec, on_session, read_session;
  rewrite (get_set_session _ _ _ _ Hs); cbn; rewrite ?set_set_session; try done.

(** A batch of packets and the bytes of each. *)
Definition batch st (ps : list Z) : list (Z * Z) :=
  (fun p => (p, CNetPacket.GetTotalSize (packets st p))) <$> ps.

Definition packet_bytes st (p : Z) : list Z :=
  take (Z.to_nat (CNetPacket.pWritePos (packets st p))) (CNetPacket.pBuffer (packets st p)).

Lemma gather_batch st ps : gather st (batch st ps) = concat (packet_bytes st <$> ps).
Proof. unfold gather, batch. rewrite <- list_fmap_compose. done. Qed.

(** The session after [n] packets went from the queue into the array at [k]. *)
Definition filled (s : SESSION) (k n : nat) : SESSION :=
  with_send s (sendFlag s) (sendCnt s) (drop n (sendQ s))
    (take k (sendPacketArr s) ++ take n (sendQ s) ++ drop (k + n) (sendPacketArr s)).

Lemma filled_0 s k : filled s k 0 = s.
Proof.
  unfold filled, with_send. rewrite drop_0, take_0, Nat.add_0_r. cbn. rewrite take_drop.
  destruct s; done.
Qed.

Lemma filled_S s k n p q :
  sendQ s = p :: q -> (k < length (sendPacketArr s))%nat ->
  filled (with_send s (sendFlag s) (sendCnt s) q (<[k := p]> (sendPacketArr s))) (S k) n = filled s k (S n).
Proof.
  intros Hq Hk. unfold filled, with_send. cbn. rewrite Hq. cbn. f_equal.
  rewrite drop_insert_lt by lia. rewrite (take_S_r _ _ p) by (apply list_lookup_insert_eq; lia).
  rewrite take_insert_ge by lia. rewrite <- app_assoc. cbn. do 3 f_equal. f_equal. lia.
Qed.

Lemma SendPost_fill_twp n : forall st i s s0 (k : nat),
  get_session st i = Ok s0 -> (n <= length (sendQ s))%nat ->
  (k + n <= length (sendPacketArr s))%nat ->
  twp (fun bufs st' => bufs = batch st (take n (sendQ s)) /\ st' = set_session st i (filled s k n))
      (fun _ => False) (CNetServer.SendPost_fill i (Z.of_nat k) n) (set_session st i s).
Proof.
  induction n as [|n IH]; intros st i s s0 k Hs Hn Hk; cbn [CNetServer.SendPost_fill].
  - apply twp_ret. rewrite filled_0. done.
  - destruct (sendQ s) as [|p q] eqn:Hq; [cbn in Hn; lia|]. cbn [pbind].
    set (s1 := with_send s (sendFlag s) (sendCnt s) q (sendPacketArr s)).
    eapply (twp_act _ _ _ _ _ (Some p) (set_session st i s1)).
    { on_slot Hs. rewrite Hq. cbn. rewrite set_set_session. done. }
    set (s2 := with_send s (sendFlag s) (sendCnt s) q (<[k := p]> (sendPacketArr s))).
    cbn [pbind]. eapply (twp_act _ _ _ _ _ tt (set_session st i s2)).
    { on_slot Hs. replace (_ && _) with true by lia. cbn. rewrite set_set_session, Nat2Z.id. done. }
    cbn [pbind]. eapply (twp_act _ _ _ _ _ p (set_session st i s2)).
    { on_slot Hs. replace (Z.of_nat k <? 0) with false by lia. rewrite Nat2Z.id.
      rewrite list_lookup_insert_eq by lia. done. }
    cbn [pbind]. eapply (twp_act _ _ _ _ _ (CNetPacket.GetTotalSize (packets st p)) (set_session st i s2)).
    { intros c. cbn. do 2 f_equal. apply (set_packet_same (set_session st i s2) p). }
    replace (Z.of_nat k + 1) with (Z.of_nat (S k)) by lia.
    eapply twp_seq.
    { apply (IH st i s2 s0 (S k) Hs); subst s2; cbn; [cbn in Hn; lia|rewrite length_insert; lia]. }
    intros bufs st' [-> ->]. apply twp_ret. split; [done|].
    subst s2. f_equal. apply filled_S; [done|lia].
Qed.


(** The session after a batch of [n] packets was taken. *)
Definition sent (s : SESSION) (n : nat) : SESSION :=
  with_send s 1 (Z.of_nat n) (drop n (sendQ s)) (take n (sendQ s) ++ drop n (sendPacketArr s)).

Definition batch_size (s : SESSION) : nat := Nat.min 200 (length (sendQ s)).

Lemma batch_size_eq s :
  (if MAXBUF <? Z.of_nat (length (sendQ s)) then MAXBUF else Z.of_nat (length (sendQ s))) =
  Z.of_nat (batch_size s).
Proof. unfold batch_size, MAXBUF. destruct (Z.ltb_spec 200 (Z.of_nat (length (sendQ s)))); lia. Qed.

(** Outcome of a [SendPost] that may send: the batch is with the operating system and
    counted, or the call failed and the count is as before. *)
Definition send_outcome st (i : Z) (s : SESSION) st' : Prop :=
  let n := batch_size s in
  (st' = set_pend (emit (set_session st i (with_ioFlag (sent s n) (ioCount s + 1) (releaseFlag s)))
                     (EvSend i (concat (packet_bytes st <$> take n (sendQ s)))))
           (pend st ++ [PendSend i])) \/
  (st' = set_session st i (sent s n)).

Lemma SendPost_enter_twp st i s :
  get_session st i = Ok s ->
  twp (fun r st' => r = (if bool_decide (sendQ s = []) || (sendFlag s =? 1) then None
                         else Some (Z.of_nat (length (sendQ s)))) /\
         st' = set_session st i (if bool_decide (sendQ s = []) then s
                                 else with_send s 1 (sendCnt s) (sendQ s) (sendPacketArr s)))
      (fun _ => False) (CNetServer.SendPost_enter i) st.
Proof.
  intros Hs. assert (Hst : st = set_session st i s).
  { unfold set_session. destruct st; cbn in *. f_equal. symmetry. apply list_insert_id.
    unfold get_session in Hs. cbn in Hs. destruct (i <? 0); [done|].
    destruct (_ !! _); [|done]. injection Hs as ->. done. }
  unfold CNetServer.SendPost_enter, loop. apply twp_turn. cbn [pbind].
  eapply (twp_act _ _ _ _ _ (Z.of_nat (length (sendQ s))) st).
  { intros c. unfold exec, read_session. rewrite Hs. done. }
  case_bool_decide as Hq.
  - rewrite Hq. cbn. apply twp_ret. split; [done|]. exact Hst.
  - assert (length (sendQ s) <> O) by (destruct (sendQ s); done).
    replace (Z.of_nat (length (sendQ s)) =? 0) with false by lia. cbn [pbind].
    set (s1 := with_send s 1 (sendCnt s) (sendQ s) (sendPacketArr s)).
    eapply (twp_act _ _ _ _ _ (sendFlag s) (set_session st i s1)).
    { intros c. unfold exec, on_session. rewrite Hs. done. }
    cbn [orb]. destruct (sendFlag s =? 1) eqn:Ef; cbn [pbind].
    + apply twp_ret. done.
    + eapply (twp_act _ _ _ _ _ (Z.of_nat (length (sendQ s))) (set_session st i s1)).
      { on_slot Hs. }
      replace (Z.of_nat (length (sendQ s)) =? 0) with false by lia. cbn [pbind].
      apply twp_ret. done.
Qed.

(** The call of the operating system, and what follows when it cannot start the send. *)
Lemma SendPost_posted st i s :
  let n := batch_size s in
  let s3 := with_ioFlag (sent s n) (ioCount s + 1) (releaseFlag s) in
  get_session st i = Ok s -> 0 <= ioCount s -> ioCount s + 1 < 2 ^ 32 -> socket s <> INVALID_SOCKET ->
  twp (fun _ st' => send_outcome st i s st') (fun _ => False)
    (r <- do (WSASend i (batch st (take n (sendQ s))));;
     match r with Some err => CNetServer.io_error i err | None => skip end)%prog
    (set_session st i s3).
Proof.
  intros n s3 Hs Hio Hio2 Hsk.
  assert (Hg : forall st', sessionArr st' = sessionArr (set_session st i s3) -> get_session st' i = Ok s3).
  { intros st' E. pose proof (get_set_session st i s s3 Hs) as E'. unfold get_session in *.
    rewrite E. exact E'. }
  apply twp_do.
  { intros c f. unfold exec. rewrite (Hg _ eq_refl). unfold overlapped_call. cbn [mbind outcome_bind].
    destruct (c =? 0), (c =? WSA_IO_PENDING); discriminate. }
  intros c b st'. unfold exec. rewrite (Hg _ eq_refl). unfold overlapped_call. cbn [fold_left mbind outcome_bind].
  set (st1 := set_pend _ _).
  assert (Hst1 : send_outcome st i s st1).
  { left. unfold st1, s3. cbv zeta. fold n. rewrite <- gather_batch. reflexivity. }
  assert (Hgs : get_session st1 i = Ok s3) by (apply Hg; done).
  clearbody st1. destruct (c =? 0); [intros [= <- <-]; apply twp_ret, Hst1|].
  destruct (c =? WSA_IO_PENDING) eqn:Ep; intros [= <- <-]; unfold CNetServer.io_error; rewrite Ep.
  - eapply (twp_act _ _ _ _ _ (socket s) st1).
    { intros c'. unfold exec, read_session. rewrite Hgs. done. }
    replace (socket s =? INVALID_SOCKET) with false by lia. apply twp_ret, Hst1.
  - assert (Hd : forall c', exec c' (DecIo i) (set_session st i s3) =
               Ok (ioCount s, set_session st i (sent s n))).
    { clearbody n. intros c'. unfold exec, on_session. rewrite (Hg _ eq_refl). cbn [mbind outcome_bind].
      rewrite set_set_session. unfold s3, sent. cbn [ioCount releaseFlag with_ioFlag with_send].
      rewrite u_small by (change (2 ^ 32) with 4294967296 in *; lia).
      replace (ioCount s + 1 - 1) with (ioCount s) by lia. done. }
    destruct (_ || _); (eapply twp_act; [exact Hd|]); apply twp_ret; right; done.
Qed.

Lemma SendPost_twp st i s :
  get_session st i = Ok s -> length (sendPacketArr s) = 200%nat ->
  0 <= ioCount s -> (sendFlag s <> 1 -> ioCount s + 1 < 2 ^ 32) -> socket s <> INVALID_SOCKET ->
  twp (fun _ st' =>
         if bool_decide (sendQ s = []) then st' = st
         else if sendFlag s =? 1 then st' = st
         else send_outcome st i s st')
      (fun _ => False) (CNetServer.SendPost i) st.
Proof.
  intros Hs Harr Hio Hio2 Hsk. assert (Hst : set_session st i s = st).
  { unfold set_session. destruct st; cbn in *. f_equal. apply list_insert_id.
    unfold get_session in Hs. cbn in Hs. destruct (i <? 0); [done|].
    destruct (_ !! _); [|done]. injection Hs as ->. done. }
  unfold CNetServer.SendPost. eapply twp_seq; [apply SendPost_enter_twp, Hs|].
  intros r st1 [-> ->]. case_bool_decide as Hq; cbn [orb].
  { apply twp_ret. done. }
  destruct (sendFlag s =? 1) eqn:Ef.
  { apply twp_ret. b2p. rewrite <- Hst at 2. f_equal. destruct s; cbn in *; subst; done. }
  specialize (Hio2 ltac:(lia)).
  set (s1 := with_send s 1 (sendCnt s) (sendQ s) (sendPacketArr s)).
  cbv zeta. rewrite batch_size_eq, Nat2Z.id.
  set (n := batch_size s).
  assert (Hn : (n <= 200)%nat /\ (n <= length (sendQ s))%nat) by (subst n; unfold batch_size; lia).
  eapply twp_seq.
  { apply (SendPost_fill_twp n st i s1 s 0 Hs); [apply Hn|].
    change (0 + n <= length (sendPacketArr s))%nat. lia. }
  intros bufs st2 [-> ->]. cbn [pbind].
  eapply (twp_act _ _ _ _ _ tt (set_session st i (sent s n))).
  { clearbody n. on_slot Hs. unfold sent, filled. cbn. do 3 f_equal.
    rewrite u_small; [done|]. change (2 ^ 32) with 4294967296. lia. }
  eapply (twp_act _ _ _ _ _ (ioCount s + 1)
    (set_session st i (with_ioFlag (sent s n) (ioCount s + 1) (releaseFlag s)))).
  { clearbody n. on_slot Hs. rewrite u_small by lia. done. }
  exact (SendPost_posted st i s Hs Hio Hio2 Hsk).
Qed.
End send.
