(* ===== verification/SendStream.v ===== *)
(** * The bytes of a connection on their way out

    A session's send queue, its batch in flight and what was handed to the operating
    system, over any sequence of [SendPacket] calls, send jobs and send completions
    that run one after the other: the bytes on the wire are the queued packets' bytes
    in order. *)
From S2P Require Import Prelude.
From S2P Require Import RingBuffer.
From S2P Require Import NetPacket.
From S2P Require Import ObjectPool.
From S2P Require Import ServerState.
From S2P Require Import NetServer.
From S2P Require Import RunLogic.
From S2P Require Import SendPath.
From stdpp Require Import prelude gmap list.
From Stdlib Require Import ZArith Lia FunctionalExtensionality.
Open Scope Z_scope.

(** ** What the invariant counts *)
Definition is_send (i : Z) (io : pending) : bool :=
  match io with PendSend j => j =? i | PendRecv _ _ => false end.
Definition is_job (i : Z) (c : completion) : bool :=
  match c with
  | mkCompletion dw (Some j) OvNull => (dw =? en_IOCP_JOB_SENDPOST) && (j =? i)
  | _ => false
  end.
Definition count_if {A} (f : A -> bool) (l : list A) : Z := Z.of_nat (length (List.filter f l)).

Lemma count_if_app {A} (f : A -> bool) l1 l2 : count_if f (l1 ++ l2) = count_if f l1 + count_if f l2.
Proof. unfold count_if. rewrite List.filter_app, length_app. lia. Qed.

Lemma count_if_cons {A} (f : A -> bool) x l :
  count_if f (x :: l) = (if f x then 1 else 0) + count_if f l.
Proof. unfold count_if. cbn [List.filter]. destruct (f x); cbn [length]; lia. Qed.

Lemma count_if_nonneg {A} (f : A -> bool) l : 0 <= count_if f l.
Proof. unfold count_if. lia. Qed.

(** The bytes handed to the operating system for session [i]. *)
Definition wire (i : Z) (evs : list event) : list Z :=
  concat ((fun e => match e with EvSend j bs => if j =? i then bs else [] | _ => [] end) <$> evs).

Lemma wire_app i a b : wire i (a ++ b) = wire i a ++ wire i b.
Proof. unfold wire. rewrite fmap_app, concat_app. done. Qed.

#[local] Arguments get_session : simpl never.
#[local] Arguments count_if : simpl never.
#[local] Arguments wire : simpl never.

Section stream.
Context {P : Type} `{PoolLaws P} `{Handler}.
Implicit Types st : server P.

(** ** States that differ from [st] in what sending changes *)
Definition at_ st (i : Z) (s : SESSION) cn pk (pl : P) cp pd lg : server P :=
  mkServer (maxUser st) (nagleOff st) (nowSession st) (sessionCnt st)
    (<[Z.to_nat i := s]> (sessionArr st)) (freeSessionStack st) cn pk pl cp pd lg.

Lemma at_start st i s :
  get_session st i = Ok s ->
  st = at_ st i s (cnts st) (packets st) (pool st) (iocp st) (pend st) (log st).
Proof.
  unfold get_session. destruct (i <? 0); [done|]. destruct (_ !! _) eqn:E; [|done]. intros [= ->].
  unfold at_. destruct st; cbn in *. f_equal. symmetry. apply list_insert_id, E.
Qed.

Lemma at_get st i s0 s cn pk pl cp pd lg :
  get_session st i = Ok s0 -> get_session (at_ st i s cn pk pl cp pd lg) i = Ok s.
Proof.
  unfold get_session. destruct (i <? 0); [done|]. cbn. destruct (_ !! _) eqn:E; [|done]. intros _.
  rewrite list_lookup_insert_eq by eauto using lookup_lt_Some. done.
Qed.

Lemma at_set st i s s' cn pk pl cp pd lg :
  set_session (at_ st i s cn pk pl cp pd lg) i s' = at_ st i s' cn pk pl cp pd lg.
Proof. unfold set_session, at_. cbn. f_equal. apply list_insert_insert_eq. Qed.

(** An action on session [i]: [Hs] says that it exists. *)
Ltac at_act Hs := intros ?c; unfold exec, on_session, read_session;
  rewrite ?(at_get _ _ _ _ _ _ _ _ _ _ Hs); cbn; rewrite ?at_set; try reflexivity.

(** ** Packets that are held *)

(** Every packet of [l] is a live, encoded object with at least as many references as
    it has occurrences. *)
Definition held (pk : Z -> CNetPacket.t) (pl : P) (l : list Z) : Prop :=
  forall p, p ∈ l -> p ∈ pool_live pl /\ CNetPacket.isEncode (pk p) = true /\
    Z.of_nat (List.count_occ Z.eq_dec l p) <= CNetPacket.refCount (pk p) < 2 ^ 31.

Definition bytes_of (pk : Z -> CNetPacket.t) (p : Z) : list Z :=
  take (Z.to_nat (CNetPacket.pWritePos (pk p))) (CNetPacket.pBuffer (pk p)).

(** [PacketRef.Free] of the first of some held packets leaves the others held, with
    the bytes they had. *)
Lemma Free_twp st i s cn pk pl cp pd lg p l :
  pool_ok pl -> held pk pl (p :: l) ->
  twp (fun _ st' => exists pk' pl', st' = at_ st i s cn pk' pl' cp pd lg /\
         pool_ok pl' /\ held pk' pl' l /\ forall q, q ∈ l -> bytes_of pk' q = bytes_of pk q)
      (fun _ => False) (PacketRef.Free p) (at_ st i s cn pk pl cp pd lg).
Proof.
  intros Hpl Hh. destruct (Hh p) as (Hlv & Hen & Hrc); [left|].
  rewrite List.count_occ_cons_eq in Hrc by done.
  unfold PacketRef.Free. set (n := CNetPacket.refCount (pk p)) in *.
  set (pk1 := fun q => if q =? p then CNetPacket.set_ref (pk p) (n - 1) else pk q).
  eapply (twp_act _ _ _ _ _ (n - 1) (at_ st i s cn pk1 pl cp pd lg)).
  { intros c. cbn. unfold PacketRef.decrement. fold n.
    rewrite s_small by (change (32 - 1) with 31; lia). reflexivity. }
  destruct (n - 1 =? 0) eqn:E.
  - set (pk2 := fun q => if q =? p then CNetPacket.Clear (pk1 p) else pk1 q).
    eapply (twp_act _ _ _ _ _ tt (at_ st i s cn pk2 pl cp pd lg)); [intros c; reflexivity|].
    assert (Hp : p ∉ l) by (intros Hp%list_elem_of_In%(List.count_occ_In Z.eq_dec); lia).
    apply twp_do; intros c; destruct (pool_free_live c pl p Hpl Hlv) as (pl' & Hfr & Hok' & Hl').
    { intros f. cbn. rewrite Hfr. done. }
    intros b st'. cbn. rewrite Hfr. cbn. intros [= <- <-]. apply twp_ret.
    exists pk2, pl'. split_and!; [done|done| |].
    + intros q Hq. destruct (Hh q) as (Hlv2 & Hen2 & Hrc2); [right; done|].
      assert (q <> p) by congruence. unfold pk2, pk1. replace (q =? p) with false by lia.
      rewrite List.count_occ_cons_neq in Hrc2 by congruence. rewrite Hl'.
      split; [|split; [exact Hen2|exact Hrc2]].
      apply elem_of_difference. rewrite elem_of_singleton. done.
    + intros q Hq. assert (q <> p) by congruence. unfold bytes_of, pk2, pk1.
      replace (q =? p) with false by lia. done.
  - apply twp_ret. exists pk1, pl. split_and!; [done|done| |].
    + intros q Hq. destruct (Hh q) as (Hlv2 & Hen2 & Hrc2); [right; done|].
      unfold pk1. destruct (Z.eqb_spec q p) as [->|Hne]; cbn.
      * split_and!; [done..| |]; fold n; lia.
      * rewrite List.count_occ_cons_neq in Hrc2 by congruence. done.
    + intros q Hq. unfold bytes_of, pk1. destruct (Z.eqb_spec q p) as [->|]; done.
Qed.

Lemma free_sent_twp n : forall st i s0 s cn pk pl cp pd lg (k : nat) q,
  get_session st i = Ok s0 -> pool_ok pl -> (k + n <= length (sendPacketArr s))%nat ->
  held pk pl (take n (drop k (sendPacketArr s)) ++ q) ->
  twp (fun _ st' => exists pk' pl', st' = at_ st i s cn pk' pl' cp pd lg /\
         pool_ok pl' /\ held pk' pl' q /\ forall p, p ∈ q -> bytes_of pk' p = bytes_of pk p)
      (fun _ => False) (CNetServer.free_sent i (Z.of_nat k) n) (at_ st i s cn pk pl cp pd lg).
Proof.
  induction n as [|n IH]; intros st i s0 s cn pk pl cp pd lg k q Hs Hpl Hk Hh;
    cbn [CNetServer.free_sent].
  - apply twp_ret. exists pk, pl. done.
  - destruct (lookup_lt_is_Some_2 (sendPacketArr s) k) as [p Hp]; [lia|].
    rewrite (drop_S _ p k) in Hh by done. cbn [take app] in Hh.
    eapply (twp_act _ _ _ _ _ p).
    { at_act Hs. replace (Z.of_nat k <? 0) with false by lia. rewrite Nat2Z.id, Hp. reflexivity. }
    eapply twp_seq; [eapply Free_twp; [exact Hpl|exact Hh]|].
    intros _ st' (pk1 & pl1 & -> & Hpl1 & Hh1 & Hb1).
    replace (Z.of_nat k + 1) with (Z.of_nat (S k)) by lia.
    eapply twp_mono; [|eapply (IH st i s0 s cn pk1 pl1 cp pd lg (S k) q Hs Hpl1); [lia|exact Hh1]].
    intros _ st' (pk2 & pl2 & -> & ? & ? & Hb2). exists pk2, pl2. split_and!; [done..|].
    intros r Hr. rewrite Hb2, Hb1 by (rewrite ?elem_of_app; auto). done.
Qed.

(** ** The invariant of the sending side

    [r] are the references others hold on the session; every queued job and the
    outstanding send hold one more, and [m] more can be taken. [out] is everything queued so far, [stuck] the
    bytes of a batch whose [WSASend] failed. *)
Section invariant.
(** What went out before. *)
Context (w0 : list Z).

Record sending (m i r : Z) st (s : SESSION) (stuck out : list Z) : Prop := mkSending {
  tx_get : get_session st i = Ok s;
  tx_id : u16 (sessionID s) = i;
  tx_live : releaseFlag s = 0;
  tx_sock : socket s <> INVALID_SOCKET;
  tx_arr : length (sendPacketArr s) = 200%nat;
  tx_cnt : 0 <= sendCnt s <= 200;
  tx_flag : (sendFlag s = 0 /\ sendCnt s = 0 /\ count_if (is_send i) (pend st) = 0 /\ stuck = []) \/
            (sendFlag s = 1 /\ count_if (is_send i) (pend st) = 1 /\ stuck = []) \/
            (sendFlag s = 1 /\ count_if (is_send i) (pend st) = 0);
  tx_io : ioCount s = r + count_if (is_job i) (iocp st) + count_if (is_send i) (pend st);
  tx_refs : 1 <= r /\ r + count_if (is_job i) (iocp st) + m < 2 ^ 32;
  tx_pool : pool_ok (pool st);
  tx_held : held (packets st) (pool st) (take (Z.to_nat (sendCnt s)) (sendPacketArr s) ++ sendQ s);
  tx_bytes : wire i (log st) ++ stuck ++ concat (bytes_of (packets st) <$> sendQ s) = out;
  tx_prefix : w0 `prefix_of` wire i (log st);
}.

Lemma held_mono pk pl (l1 l2 : list Z) :
  held pk pl l1 -> (forall p, (List.count_occ Z.eq_dec l2 p <= List.count_occ Z.eq_dec l1 p)%nat) ->
  held pk pl l2.
Proof.
  intros Hh Hc p Hp. pose proof (Hc p) as Hcp.
  apply list_elem_of_In, (List.count_occ_In Z.eq_dec) in Hp.
  destruct (Hh p) as (? & ? & ?).
  - apply list_elem_of_In, (List.count_occ_In Z.eq_dec). lia.
  - split_and!; [done|done|lia|lia].
Qed.

Lemma SendPost_sending m i r st s stuck out :
  sending m i r st s stuck out -> 1 <= m ->
  twp (fun _ st' => exists s' stuck', sending m i r st' s' stuck' out)
      (fun _ => False) (CNetServer.SendPost i) st.
Proof.
  intros [] Hm. eapply twp_mono; [|apply (SendPost_twp st i s); try done].
  2: { pose proof (count_if_nonneg (is_job i) (iocp st)). pose proof (count_if_nonneg (is_send i) (pend st)). lia. }
  2: { intros Hf. destruct tx_flag0 as [(_&_&?&_)|[(?&_)|[? _]]]; lia. }
  intros [] st'. cbv beta. case_bool_decide as Hq; [intros ->; exists s, stuck; split; done|].
  destruct (sendFlag s =? 1) eqn:Ef; [intros ->; exists s, stuck; split; done|].
  destruct tx_flag0 as [(Hf & Hcn & Hfl & ->)|[(?&_)|[? _]]]; [|lia..].
  rewrite Hcn, take_0 in tx_held0. rewrite app_nil_l in tx_held0.
  set (n := batch_size s). assert (Hn : (n <= 200)%nat) by (unfold n, batch_size; lia).
  assert (Hlen : (n <= length (sendQ s))%nat) by (unfold n, batch_size; lia).
  assert (Hheld : held (packets st) (pool st)
    (take (Z.to_nat (sendCnt (sent s n))) (sendPacketArr (sent s n)) ++ sendQ (sent s n))).
  { clearbody n. cbn. rewrite Nat2Z.id, take_app_length' by (rewrite length_take; lia).
    rewrite take_drop. exact tx_held0. }
  assert (Harr : length (sendPacketArr (sent s n)) = 200%nat).
  { clearbody n. cbn. rewrite length_app, length_take, length_drop. lia. }
  unfold send_outcome. cbv zeta. fold n. clearbody n. intros [-> | ->].
  - exists (with_ioFlag (sent s n) (ioCount s + 1) (releaseFlag s)), []. split; cbn; try done; try lia.
    + exact (get_set_session st i s (with_ioFlag (sent s n) (ioCount s + 1) (releaseFlag s)) tx_get0).
    + right. left. rewrite count_if_app, Hfl, count_if_cons. cbn. rewrite Z.eqb_refl. done.
    + rewrite count_if_app, count_if_cons. cbn. rewrite Z.eqb_refl. unfold count_if at 3. cbn. lia.
    + rewrite <- tx_bytes0, wire_app, app_nil_l. unfold wire at 2. cbn. rewrite Z.eqb_refl, app_nil_r.
      rewrite <- app_assoc. f_equal. rewrite <- concat_app, <- fmap_app, take_drop. done.
    + rewrite wire_app. apply prefix_app_r, tx_prefix0.
  - exists (sent s n), (concat (bytes_of (packets st) <$> take n (sendQ s))). split; cbn; try done; try lia.
    + exact (get_set_session st i s (sent s n) tx_get0).
    + rewrite <- tx_bytes0, app_nil_l, <- concat_app, <- fmap_app, take_drop. done.
Qed.

(** A change of the count by [d] is a change of the references others hold. *)
Lemma sending_refs m m' i r d st s stuck out :
  sending m i r st s stuck out -> 1 <= r + d -> r + d + count_if (is_job i) (iocp st) + m' < 2 ^ 32 ->
  sending m' i (r + d) (set_session st i (with_ioFlag s (ioCount s + d) (releaseFlag s)))
    (with_ioFlag s (ioCount s + d) (releaseFlag s)) stuck out.
Proof.
  intros [] Hr1 Hr2. split; try done; cbn; [|lia].
  exact (get_set_session st i s (with_ioFlag s (ioCount s + d) (releaseFlag s)) tx_get0).
Qed.

Lemma sending_range m i r st s stuck out : sending m i r st s stuck out -> r <= ioCount s /\ ioCount s + m <= 2 ^ 32.
Proof.
  intros []. pose proof (count_if_nonneg (is_job i) (iocp st)).
  change (2 ^ 32) with 4294967296 in *. destruct tx_flag0 as [(_&_&?&_)|[(_&?&_)|[_ ?]]]; lia.
Qed.

Lemma worker_leave_sending m i r st s stuck out :
  sending m i (r + 1) st s stuck out -> 1 <= r -> 1 <= m ->
  twp (fun _ st' => exists s', sending (m + 1) i r st' s' stuck out)
      (fun _ => False) (CNetServer.worker_leave i) st.
Proof.
  intros Hs Hr Hm. pose proof (sending_range _ _ _ _ _ _ _ Hs) as Hio.
  pose proof (tx_get _ _ _ _ _ _ _ Hs) as Hg. pose proof (tx_refs _ _ _ _ _ _ _ Hs) as [_ Hb].
  unfold CNetServer.worker_leave.
  eapply (twp_act _ _ _ _ _ (ioCount s + -1)
    (set_session st i (with_ioFlag s (ioCount s + -1) (releaseFlag s)))).
  { intros c. unfold exec, on_session. rewrite Hg. cbn. rewrite u_small by lia. done. }
  replace (ioCount s + -1 =? 0) with false by lia. apply twp_ret.
  eexists. replace r with (r + 1 + -1) by lia. eapply sending_refs; [done|lia..].
Qed.

Lemma on_sent_sending m i r st s out :
  sending m i r st s [] out -> sendFlag s = 1 -> count_if (is_send i) (pend st) = 0 -> 1 <= m ->
  twp (fun _ st' => exists s' stuck', sending m i r st' s' stuck' out)
      (fun _ => False) (CNetServer.on_sent i) st.
Proof.
  intros [] Hf Hp Hm. unfold CNetServer.on_sent. rewrite (at_start st i s tx_get0) at 1.
  eapply (twp_act _ _ _ _ _ (sendCnt s)); [at_act tx_get0|]. cbn [pbind].
  set (s1 := with_send s (sendFlag s) 0 (sendQ s) (sendPacketArr s)).
  eapply (twp_act _ _ _ _ _ tt (at_ st i s1 _ _ _ _ _ _)); [at_act tx_get0|].
  eapply twp_seq.
  { eapply (free_sent_twp (Z.to_nat (sendCnt s)) st i s s1 _ _ _ _ _ _ 0 (sendQ s)); try done.
    cbn. lia. }
  intros _ st' (pk' & pl' & -> & Hok & Hh & Hb).
  set (s2 := with_send s 0 0 (sendQ s) (sendPacketArr s)).
  eapply (twp_act _ _ _ _ _ (sendFlag s) (at_ st i s2 _ _ _ _ _ _)); [at_act tx_get0|].
  eapply SendPost_sending with (s := s2) (stuck := []); [|done]. split; cbn; try done; try lia.
  - exact (at_get st i s s2 (cnts st) pk' pl' (iocp st) (pend st) (log st) tx_get0).
  - left. done.
  - rewrite <- tx_bytes0. cbn. do 2 f_equal. apply list_fmap_ext. intros k p Hk. apply Hb.
    eapply list_elem_of_lookup_2, Hk.
Qed.

(** ** Queueing a packet *)

(** A packet the caller of [SendPacket] may pass: a live object whose references cover
    its occurrences, filled by the caller or sent before. *)
Definition sendable st (s : SESSION) (p : Z) : Prop :=
  let pk := packets st p in
  p ∈ pool_live (pool st) /\ 0 <= CNetPacket.refCount pk /\ CNetPacket.refCount pk + 1 < 2 ^ 31 /\
  ioCount s + 3 < 2 ^ 32 /\
  (CNetPacket.isEncode pk = true \/
   packet_ok pk /\ CNetPacket.pReadPos pk = CNetPacket.NetHeader.sizeof /\
   CNetPacket.pWritePos pk - CNetPacket.NetHeader.sizeof < 65536).

(** What [Encode] leaves of such a packet. *)
Definition encoded (pk pk' : CNetPacket.t) : Prop :=
  CNetPacket.isEncode pk' = true /\ CNetPacket.refCount pk' = CNetPacket.refCount pk + 1 /\
  (CNetPacket.isEncode pk = true -> bytes_of (fun _ => pk') 0 = bytes_of (fun _ => pk) 0) /\
  (CNetPacket.isEncode pk = false -> exists rk, is_byte rk /\
     bytes_of (fun _ => pk') 0 = frame rk (payload pk)).

Lemma Encode_sendable st s p rnd :
  sendable st s p ->
  exists ok pk', CNetPacket.Encode (CNetPacket.AddRefCount (packets st p)) rnd = Ok (ok, pk') /\
    encoded (packets st p) pk'.
Proof.
  intros (_ & Hr0 & Hr & _ & Hen). set (pk := packets st p) in *.
  assert (Hrc : CNetPacket.refCount (CNetPacket.AddRefCount pk) = CNetPacket.refCount pk + 1).
  { cbn. apply s_small; [lia|]. change (32 - 1) with 31. lia. }
  destruct (CNetPacket.isEncode pk) eqn:E.
  - eexists _, _. split; [unfold CNetPacket.Encode; cbn; rewrite E; done|].
    split_and!; [done|exact Hrc|done|congruence].
  - destruct Hen as [?|(Hok & Hrp & Hsz)]; [done|].
    eexists _, _. split; [apply Encode_spec; done|].
    split_and!; [done|exact Hrc|congruence|]. intros _. exists (u8 (Z.rem rnd 256)).
    split; [apply is_byte_u8|]. unfold bytes_of.
    cbn [CNetPacket.pWritePos CNetPacket.pBuffer CNetPacket.set_isEncode CNetPacket.set_buffer CNetPacket.AddRefCount CNetPacket.set_ref].
    pose proof (length_frame (u8 (Z.rem rnd 256)) (payload pk)) as HL.
    pose proof (length_payload pk Hok). destruct Hok as (_ & _ & ? & _).
    unfold CNetPacket.NetHeader.sizeof in *.
    change (payload (CNetPacket.AddRefCount pk)) with (payload pk). apply take_app_length'. lia.
Qed.

(** A packet more in the queue is held, and the bytes of the others are as before. *)
Lemma held_queued pk pl (l : list Z) p pk' :
  held pk pl l -> p ∈ pool_live pl -> 0 <= CNetPacket.refCount (pk p) ->
  CNetPacket.refCount (pk p) + 1 < 2 ^ 31 -> encoded (pk p) pk' ->
  held (fun q => if q =? p then pk' else pk q) pl (l ++ [p]).
Proof.
  intros Hh Hlv Hr0 Hr (He & Hrc & _) q Hq. rewrite List.count_occ_app.
  destruct (Z.eqb_spec q p) as [->|Hne].
  - rewrite List.count_occ_cons_eq by done. cbn [List.count_occ]. rewrite Hrc.
    destruct (decide (p ∈ l)) as [Hin|Hin].
    + destruct (Hh p Hin) as (_ & _ & ?). split_and!; [done|done|lia|lia].
    + assert (List.count_occ Z.eq_dec l p = O) as ->.
      { apply List.count_occ_not_In. intros ?%list_elem_of_In. done. }
      split_and!; [done|done|lia|lia].
  - rewrite List.count_occ_cons_neq by congruence. cbn [List.count_occ]. rewrite Nat.add_0_r.
    apply Hh. apply elem_of_app in Hq as [?|?%list_elem_of_singleton]; done.
Qed.

Lemma bytes_queued pk pl (l : list Z) p pk' :
  held pk pl l -> encoded (pk p) pk' ->
  (bytes_of (fun q => if q =? p then pk' else pk q) <$> l) = (bytes_of pk <$> l).
Proof.
  intros Hh (_ & _ & He & _). apply list_fmap_ext. intros k q Hq.
  unfold bytes_of at 1. destruct (Z.eqb_spec q p) as [->|]; [|done].
  apply He. eapply Hh, list_elem_of_lookup_2, Hq.
Qed.

(** [EnterSession] on a session in use counts, and goes on. *)
Lemma at_enter {A} (k : bool -> prog A) Q (F : fault -> Prop) st i s :
  get_session st i = Ok s -> releaseFlag s = 0 -> 0 <= ioCount s -> ioCount s + 1 < 2 ^ 32 ->
  twp Q F (k true) (at_ st i (with_ioFlag s (ioCount s + 1) (releaseFlag s)) (cnts st) (packets st) (pool st)
    (iocp st) (pend st) (log st)) ->
  twp Q F (pbind (CNetServer.EnterSession i (sessionID s)) k) st.
Proof.
  intros Hs Hf Hlo Hhi Hk. unfold CNetServer.EnterSession. rewrite (at_start st i s Hs) at 1. cbn [pbind].
  set (s1 := with_ioFlag s (ioCount s + 1) (releaseFlag s)).
  eapply (twp_act _ _ _ _ _ (ioCount s + 1) (at_ st i s1 _ _ _ _ _ _)).
  { at_act Hs. rewrite u_small by lia. reflexivity. }
  cbn [pbind]. eapply (twp_act _ _ _ _ _ 0 (at_ st i s1 _ _ _ _ _ _)).
  { at_act Hs. rewrite Hf. reflexivity. }
  cbn [pbind Z.eqb]. eapply (twp_act _ _ _ _ _ (sessionID s) (at_ st i s1 _ _ _ _ _ _)); [at_act Hs|].
  rewrite Z.eqb_refl. exact Hk.
Qed.

(** The state after a packet is queued, whatever happens at the completion port. *)
Lemma sending_queued i r r' st s stuck out p pk' cn cp lg :
  sending 2 i r st s stuck out -> sendable st s p -> encoded (packets st p) pk' ->
  wire i lg = wire i (log st) -> 1 <= r' ->
  r' + count_if (is_job i) cp = r + count_if (is_job i) (iocp st) + 1 ->
  let s' := with_send (with_ioFlag s (ioCount s + 1) (releaseFlag s)) (sendFlag s) (sendCnt s) (sendQ s ++ [p])
              (sendPacketArr s) in
  let st' := at_ st i s' cn (fun q => if q =? p then pk' else packets st q) (pool st) cp (pend st) lg in
  sending 2 i r' st' s' stuck (out ++ packet_bytes st' p).
Proof.
  intros [] (Hlv & Hr0 & Hr & Hio3 & _) Henc Hw Hr1 Hr2. set (pk2 := fun q => if q =? p then pk' else packets st q).
  assert (Hq : (bytes_of pk2 <$> sendQ s) = (bytes_of (packets st) <$> sendQ s)).
  { apply (bytes_queued (packets st) (pool st)); [|done].
    eapply held_mono; [exact tx_held0|]. intros x. rewrite List.count_occ_app. lia. }
  split; cbn; try done; try lia.
  - exact (at_get st i s _ cn pk2 (pool st) cp (pend st) lg tx_get0).
  - rewrite app_assoc. apply held_queued; done.
  - rewrite <- tx_bytes0, Hw, fmap_app, concat_app, <- !app_assoc. do 2 f_equal.
    rewrite Hq. cbn. rewrite app_nil_r. done.
  - rewrite Hw. done.
Qed.

Lemma SendPacket_sending i r st s stuck out p :
  sending 2 i r st s stuck out -> sendable st s p ->
  twp (fun ok st' => ok = true /\ (exists s', sending 2 i r st' s' stuck (out ++ packet_bytes st' p) /\
                                             sendQ s' = sendQ s ++ [p]) /\
         encoded (packets st p) (packets st' p))
      (fun _ => False) (CNetServer.SendPacket (sessionID s) p) st.
Proof.
  intros Hs Hp. pose proof (sending_range _ _ _ _ _ _ _ Hs) as Hio. pose proof Hs as [].
  pose proof Hp as (_ & _ & _ & Hio3 & _).
  unfold CNetServer.SendPacket. rewrite tx_id0. apply at_enter; [done|done|lia|lia|]. cbn [negb].
  set (s1 := with_ioFlag s (ioCount s + 1) (releaseFlag s)).
  eapply (twp_act _ _ _ _ _ tt (at_ st i s1 _ _ _ _ _ _)); [intros c; reflexivity|].
  eapply (twp_act _ _ _ _ _ tt (at_ st i s1 _ (fun q => if q =? p then CNetPacket.AddRefCount (packets st p)
     else packets st q) _ _ _ _)); [intros c; reflexivity|].
  apply twp_do; [done|]. intros c rnd st1 [= -> <-].
  destruct (Encode_sendable st s p rnd Hp) as (ok & pk' & He & Henc).
  set (pk2 := fun q => if q =? p then pk' else packets st q).
  eapply (twp_act _ _ _ _ _ ok (at_ st i s1 _ pk2 _ _ _ _)).
  { intros c'. cbn. rewrite Z.eqb_refl, He. cbn. unfold set_packet, at_. cbn. do 3 f_equal.
    apply functional_extensionality. intros q. unfold pk2. destruct (q =? p); done. }
  set (s2 := with_send s1 (sendFlag s) (sendCnt s) (sendQ s ++ [p]) (sendPacketArr s)).
  eapply (twp_act _ _ _ _ _ tt (at_ st i s2 _ pk2 _ _ _ _)); [at_act tx_get0|].
  match goal with |- twp _ _ _ (at_ _ _ _ ?x _ _ _ _ _) => set (cn := x) end.
  pose proof (fun r' cp lg => sending_queued i r r' st s stuck out p pk' cn cp lg Hs Hp Henc) as Hk.
  assert (Hpk : pk2 p = pk') by (unfold pk2; rewrite Z.eqb_refl; done).
  apply twp_do; [intros c' f; cbn; destruct (c' =? 0); done|].
  intros c' posted st1. cbn [exec]. destruct (c' =? 0); intros [= <- <-].
  - cbn [negb]. assert (Hw : wire i (log st ++ [EvPostFailed en_IOCP_JOB_SENDPOST i]) = wire i (log st))
      by (rewrite wire_app; apply app_nil_r).
    specialize (Hk (r + 1) (iocp st) _ Hw ltac:(lia) ltac:(lia)). cbv zeta in Hk.
    change (emit _ _) with (at_ st i s2 cn pk2 (pool st) (iocp st) (pend st)
      (log st ++ [EvPostFailed en_IOCP_JOB_SENDPOST i])).
    unfold CNetServer.LeaveSession. cbn [pbind].
    eapply (twp_act _ _ _ _ _ (ioCount s2 + -1)).
    { at_act tx_get0. rewrite u_small by (cbn; lia). reflexivity. }
    replace (ioCount s2 + -1 =? 0) with false by (cbn; lia). apply twp_ret.
    split; [done|]. split; [|cbn; rewrite Hpk; done].
    apply (sending_refs _ 2 _ _ (-1)) in Hk; [|lia|cbn in *; lia].
    rewrite at_set in Hk. replace (r + 1 + -1) with r in Hk by lia. eexists. split; [exact Hk|done].
  - apply twp_ret. split; [done|]. split; [|cbn; rewrite Hpk; done]. exists s2. split; [|done].
    apply Hk; [done|lia|]. rewrite count_if_app, count_if_cons. cbn. rewrite Z.eqb_refl. unfold count_if at 2. cbn. lia.
Qed.

(** ** Turns *)
Definition send_job (i : Z) : completion := mkCompletion en_IOCP_JOB_SENDPOST (Some i) OvNull.
Definition send_done (i dw : Z) : completion := mkCompletion dw (Some i) OvSend.

Lemma socket_guard m i r st s stuck out (A : Type) (k : bool -> prog A) Q F :
  sending m i r st s stuck out -> twp Q F (k true) st ->
  twp Q F (Do (GetSocket i) (fun s => pbind (Ret (negb (s =? INVALID_SOCKET))) k)) st.
Proof.
  intros [] Hk. eapply (twp_act _ _ _ _ _ (socket s) st).
  { intros c. unfold exec, read_session. rewrite tx_get0. done. }
  cbn [pbind]. replace (socket s =? INVALID_SOCKET) with false by lia. exact Hk.
Qed.

Lemma job_turn_sending i r st s stuck out l1 l2 :
  sending 2 i r st s stuck out -> iocp st = l1 ++ send_job i :: l2 ->
  twp (fun _ st' => exists s' stuck', sending 2 i r st' s' stuck' out)
      (fun _ => False) (CNetServer.IOCPWorkerThread (send_job i)) (set_iocp st (l1 ++ l2)).
Proof.
  intros Hs Hl. pose proof (tx_refs _ _ _ _ _ _ _ Hs) as [Hr1 Hr2].
  assert (Hj : count_if (is_job i) (iocp st) = count_if (is_job i) (l1 ++ l2) + 1).
  { rewrite Hl, !count_if_app, count_if_cons. cbn. rewrite Z.eqb_refl. lia. }
  assert (Hs' : sending 1 i (r + 1) (set_iocp st (l1 ++ l2)) s stuck out).
  { destruct Hs. split; cbn; try done; lia. }
  unfold CNetServer.IOCPWorkerThread. cbn [pSession send_job dwTransferred lpOverlapped pbind].
  change (en_IOCP_JOB_SENDPOST =? 0) with false. cbn [pbind].
  eapply socket_guard; [exact Hs'|]. rewrite Z.eqb_refl.
  eapply twp_seq; [eapply SendPost_sending; [exact Hs'|done]|]. intros _ st1 (s1 & stuck1 & H1').
  eapply twp_seq; [apply (worker_leave_sending _ _ _ _ _ _ _ H1' Hr1); done|].
  intros _ st2 [s2 Hs2]. apply twp_ret. eauto.
Qed.

Lemma done_turn_sending i r st s stuck out l1 l2 dw :
  sending 2 i r st s stuck out -> pend st = l1 ++ PendSend i :: l2 -> dw <> 0 ->
  twp (fun _ st' => exists s' stuck', sending 2 i r st' s' stuck' out)
      (fun _ => False) (CNetServer.IOCPWorkerThread (send_done i dw)) (set_pend st (l1 ++ l2)).
Proof.
  intros Hs Hl Hdw. pose proof (tx_refs _ _ _ _ _ _ _ Hs) as [Hr1 Hr2].
  assert (Hj : count_if (is_send i) (pend st) = count_if (is_send i) (l1 ++ l2) + 1).
  { rewrite Hl, !count_if_app, count_if_cons. cbn. rewrite Z.eqb_refl. lia. }
  pose proof (count_if_nonneg (is_send i) (l1 ++ l2)) as Hnn.
  assert (Hf : sendFlag s = 1 /\ count_if (is_send i) (l1 ++ l2) = 0 /\ stuck = []).
  { destruct (tx_flag _ _ _ _ _ _ _ Hs) as [(_&_&?&_)|[(?&?&?)|[_ ?]]]; [lia|split_and!; [done|lia|done]|lia]. }
  destruct Hf as (Hf & Hz & ->).
  assert (Hs' : sending 1 i (r + 1) (set_pend st (l1 ++ l2)) s [] out).
  { pose proof (count_if_nonneg (is_job i) (iocp st)). destruct Hs.
    split; cbn; try done; try lia. }
  unfold CNetServer.IOCPWorkerThread. cbn [pSession send_done dwTransferred lpOverlapped pbind].
  replace (dw =? 0) with false by lia. cbn [pbind].
  eapply socket_guard; [exact Hs'|].
  eapply twp_seq; [apply (on_sent_sending _ _ _ _ _ _ Hs' Hf Hz); done|]. intros _ st1 (s1 & stuck1 & H1').
  eapply twp_seq; [apply (worker_leave_sending _ _ _ _ _ _ _ H1' Hr1); done|].
  intros _ st2 [s2 Hs2]. apply twp_ret. eauto.
Qed.

(** One turn of the sending side, and the bytes it queues. *)
Inductive send_turn (i : Z) : server P -> list Z -> server P -> Prop :=
  | turn_packet st s p fuel env b st' env' :
      get_session st i = Ok s -> sendable st s p ->
      run fuel env (CNetServer.SendPacket (sessionID s) p) st = Some (Ok (b, st', env')) ->
      send_turn i st (packet_bytes st' p) st'
  | turn_job st l1 l2 fuel env b st' env' :
      iocp st = l1 ++ send_job i :: l2 ->
      run fuel env (CNetServer.IOCPWorkerThread (send_job i)) (set_iocp st (l1 ++ l2)) =
        Some (Ok (b, st', env')) ->
      send_turn i st [] st'
  | turn_done st l1 l2 dw fuel env b st' env' :
      pend st = l1 ++ PendSend i :: l2 -> dw <> 0 ->
      run fuel env (CNetServer.IOCPWorkerThread (send_done i dw)) (set_pend st (l1 ++ l2)) =
        Some (Ok (b, st', env')) ->
      send_turn i st [] st'.

Inductive send_turns (i : Z) : server P -> list Z -> server P -> Prop :=
  | turns_none st : send_turns i st [] st
  | turns_one st bs st1 bs' st2 :
      send_turn i st bs st1 -> send_turns i st1 bs' st2 ->
      send_turns i st (bs ++ bs') st2.

Lemma send_turn_sending i r st s stuck out bs st' :
  sending 2 i r st s stuck out -> send_turn i st bs st' ->
  exists s' stuck', sending 2 i r st' s' stuck' (out ++ bs).
Proof.
  intros Hs Ht. inversion Ht as [? s1 p fuel env b ? env' Hg Hp E|? l1 l2 fuel env b ? env' Hl E|? l1 l2 dw fuel env b ? env' Hl Hdw E]; subst.
  - assert (s1 = s) as -> by (pose proof (tx_get _ _ _ _ _ _ _ Hs); congruence).
    apply (twp_run_any _ _ _ _ (SendPacket_sending _ _ _ _ _ _ _ Hs Hp)) in E as (_ & (s' & Hs' & _) & _). eauto.
  - rewrite app_nil_r. apply (twp_run_any _ _ _ _ (job_turn_sending _ _ _ _ _ _ _ _ Hs Hl)) in E. exact E.
  - rewrite app_nil_r. apply (twp_run_any _ _ _ _ (done_turn_sending _ _ _ _ _ _ _ _ _ Hs Hl Hdw)) in E. exact E.
Qed.

Lemma send_turns_sending i r st s stuck out bs st' :
  sending 2 i r st s stuck out -> send_turns i st bs st' ->
  exists s' stuck', sending 2 i r st' s' stuck' (out ++ bs).
Proof.
  intros Hs Ht. revert s stuck out Hs. induction Ht as [|st bs st1 bs' st2 H1' _ IH]; intros s stuck out Hs.
  - rewrite app_nil_r. eauto.
  - rewrite app_assoc. destruct (send_turn_sending _ _ _ _ _ _ _ _ Hs H1') as (s' & stuck' & Hs').
    eapply IH, Hs'.
Qed.

End invariant.

(** A session that sends nothing yet. *)
Definition idle_sender (i r : Z) st (s : SESSION) : Prop :=
  get_session st i = Ok s /\ u16 (sessionID s) = i /\ releaseFlag s = 0 /\
  socket s <> INVALID_SOCKET /\ length (sendPacketArr s) = 200%nat /\
  sendFlag s = 0 /\ sendCnt s = 0 /\ sendQ s = [] /\
  count_if (is_send i) (pend st) = 0 /\ count_if (is_job i) (iocp st) = 0 /\
  ioCount s = r /\ 1 <= r /\ r + 2 < 2 ^ 32 /\ pool_ok (pool st).

Lemma idle_sending i r st s : idle_sender i r st s -> sending (wire i (log st)) 2 i r st s [] (wire i (log st)).
Proof.
  intros (?&?&?&?&?&?&Hc&Hq&?&?&?&?&?&?). split; try done; try lia.
  - left. done.
  - rewrite Hc, Hq. intros p Hp. cbn in Hp. inversion Hp.
  - rewrite Hq. cbn. apply app_nil_r.
Qed.

(** ** Properties *)

(** C4: turns that run one after the other put on a connection what was queued, in order.
    Take a session that sends nothing yet, and any sequence of [SendPacket] calls, send
    jobs and send completions, each of which runs to its end before the next one starts:
    nothing is claimed of calls that overlap. The bytes handed to the
    operating system since then are a prefix of the bytes of the packets passed to
    [SendPacket]; while [sendFlag] is 0 what is missing is exactly the send queue; and
    at most one send is outstanding. *)
Theorem wire_carries_queue_in_order i r st s bs st' :
  idle_sender i r st s -> send_turns i st bs st' ->
  exists s' sent_bytes stuck,
    get_session st' i = Ok s' /\
    wire i (log st') = wire i (log st) ++ sent_bytes /\
    sent_bytes ++ stuck ++ concat (packet_bytes st' <$> sendQ s') = bs /\
    (sendFlag s' = 0 -> stuck = []) /\ count_if (is_send i) (pend st') <= 1.
Proof.
  intros Hid Ht.
  destruct (send_turns_sending _ _ _ _ _ _ _ _ _ (idle_sending i r st s Hid) Ht) as (s' & stuck & Hs').
  destruct (tx_prefix _ _ _ _ _ _ _ _ Hs') as [sent_bytes Hw]. exists s', sent_bytes, stuck.
  split; [apply (tx_get _ _ _ _ _ _ _ _ Hs')|]. split; [exact Hw|]. split.
  { pose proof (tx_bytes _ _ _ _ _ _ _ _ Hs') as Hb. rewrite Hw, <- app_assoc in Hb.
    apply app_inv_head in Hb. exact Hb. }
  destruct (tx_flag _ _ _ _ _ _ _ _ Hs') as [(?&_&?&?)|[(?&?&?)|[? ?]]]; (split; [lia || done|lia]).
Qed.

Lemma run_ok {A} (Q : A -> server P -> Prop) (p : prog A) st :
  twp Q (fun _ => False) p st ->
  forall env, exists fuel a st' env', run fuel env p st = Some (Ok (a, st', env')) /\ Q a st'.
Proof.
  intros Hp env. destruct (twp_run _ _ _ _ Hp env) as [fuel Hr]. exists fuel.
  destruct (run fuel env p st) as [[[[a st'] env']|f]|]; [eauto|done..].
Qed.

(** C21: [SendPacket] on a session in use puts the frame of the packet in the queue.
    After any turns of the sending side it returns [true], does not fault whatever the
    operating system answers, and the packet it leaves in the queue is a frame, for
    some random key, of the payload the caller put in. *)
Theorem SendPacket_queues_frame i r st0 s0 bs st s p env :
  idle_sender i r st0 s0 -> send_turns i st0 bs st -> get_session st i = Ok s ->
  sendable st s p -> CNetPacket.isEncode (packets st p) = false ->
  exists fuel st' env' rk s',
    run fuel env (CNetServer.SendPacket (sessionID s) p) st = Some (Ok (true, st', env')) /\
    is_byte rk /\ packet_bytes st' p = frame rk (payload (packets st p)) /\
    get_session st' i = Ok s' /\ sendQ s' = sendQ s ++ [p].
Proof.
  intros Hid Ht Hg Hp Hen.
  destruct (send_turns_sending _ _ _ _ _ _ _ _ _ (idle_sending i r st0 s0 Hid) Ht) as (s1 & stuck & Hs).
  assert (s1 = s) as -> by (pose proof (tx_get _ _ _ _ _ _ _ _ Hs); congruence).
  destruct (run_ok _ _ _ (SendPacket_sending _ _ _ _ _ _ _ _ Hs Hp) env)
    as (fuel & ok & st' & env' & E & -> & (s' & Hs' & Hq) & (_ & _ & _ & He)).
  destruct (He Hen) as (rk & Hrk & Hb). exists fuel, st', env', rk, s'.
  split_and!; [exact E|exact Hrk|exact Hb|apply (tx_get _ _ _ _ _ _ _ _ Hs')|exact Hq].
Qed.

(** C22: the worker's send turns do not fault and do end when they run alone. From a session
    that sends nothing yet, after any turns of the sending side that ran one after the
    other, a queued send job, and the completion of an outstanding send of at least one
    byte, run to their end with nothing in between, whatever the operating system
    answers. *)
Theorem send_turns_return i r st0 s0 bs st l1 l2 env :
  idle_sender i r st0 s0 -> send_turns i st0 bs st ->
  (iocp st = l1 ++ send_job i :: l2 ->
     exists fuel res, run fuel env (CNetServer.IOCPWorkerThread (send_job i)) (set_iocp st (l1 ++ l2)) =
       Some (Ok res)) /\
  (forall m1 m2 dw, pend st = m1 ++ PendSend i :: m2 -> dw <> 0 ->
     exists fuel res, run fuel env (CNetServer.IOCPWorkerThread (send_done i dw)) (set_pend st (m1 ++ m2)) =
       Some (Ok res)).
Proof.
  intros Hid Ht.
  destruct (send_turns_sending _ _ _ _ _ _ _ _ _ (idle_sending i r st0 s0 Hid) Ht) as (s & stuck & Hs).
  split.
  - intros Hl. destruct (run_ok _ _ _ (job_turn_sending _ _ _ _ _ _ _ _ _ Hs Hl) env) as (fuel & a & st' & env' & E & _).
    eauto.
  - intros m1 m2 dw Hl Hdw.
    destruct (run_ok _ _ _ (done_turn_sending _ _ _ _ _ _ _ _ _ _ Hs Hl Hdw) env) as (fuel & a & st' & env' & E & _).
    eauto.
Qed.
End stream.

(** ** Witnesses *)
#[local] Existing Instance RefPool.ops.
#[local] Existing Instance RefPool.laws.
Module SendSample.

(** A handler that does nothing: no turn of the sending side calls it. *)
#[local] Instance silent : Handler := {
  OnConnectionRequest _ _ := Ret true;
  OnClientJoin _ := skip;
  OnClientLeave _ := skip;
  OnRecv _ _ := skip
}.

Definition session : SESSION :=
  mkSession (CNetServer.make_sessionID 9 0) 500 500 1 0 0 0 [] (replicate 200 0)
    (CRingBuffer.mk (replicate 8 0) 0 0 8).

(** The caller holds packets 1 and 2. *)
Definition filled_packet (pay : list Z) : CNetPacket.t :=
  CNetPacket.mk ([0; 0; 0; 0; 0] ++ pay) (5 + Z.of_nat (length pay)) 5 1 false (5 + Z.of_nat (length pay)).

Definition start : server RefPool.t :=
  mkServer 1 false 1 9 [session] [] (mkCounters 0 0 0 0 0 0)
    (fun p => if p =? 1 then filled_packet [7; 8] else filled_packet [9])
    (RefPool.mk [] {[1; 2]} 3) [] [PendRecv 0 []] [].

(** Every overlapped call is left pending. *)
Definition env : list Z := replicate 60 WSA_IO_PENDING.

Definition after {A} (p : prog A) (st : server RefPool.t) : server RefPool.t :=
  match run 100 env p st with Some (Ok (_, st', _)) => st' | _ => st end.

Definition one : server RefPool.t := after (CNetServer.SendPacket (sessionID session) 1) start.
Definition two : server RefPool.t :=
  after (CNetServer.IOCPWorkerThread (send_job 0)) (set_iocp one []).
Definition three : server RefPool.t := after (CNetServer.SendPacket (sessionID session) 2) two.
Definition four : server RefPool.t :=
  after (CNetServer.IOCPWorkerThread (send_done 0 7)) (set_pend three [PendRecv 0 []]).

Lemma start_idle : idle_sender 0 1 start session.
Proof.
  unfold idle_sender. split_and!; try (vm_compute; (reflexivity || discriminate)).
  unfold pool_ok. cbn. split_and!; cbn; [constructor|set_solver|].
  intros x [->%elem_of_singleton| ->%elem_of_singleton]%elem_of_union; lia.
Qed.

Lemma sendable_1 : sendable start session 1.
Proof.
  unfold sendable. split_and!; try (vm_compute; (reflexivity || discriminate)).
  right. split_and!; try (vm_compute; (reflexivity || discriminate)).
  unfold packet_ok. cbn. split_and!; try (unfold CNetPacket.NetHeader.sizeof; lia). repeat constructor; unfold is_byte; lia.
Qed.

Lemma sendable_2 : sendable two (default session (match get_session two 0 with Ok s => Some s | _ => None end)) 2.
Proof.
  unfold sendable. split_and!; try (vm_compute; (reflexivity || discriminate)).
  right. split_and!; try (vm_compute; (reflexivity || discriminate)).
  unfold packet_ok. vm_compute. split_and!; try done. repeat constructor; done.
Qed.

(** A packet is queued and sent, another is queued while the first is in flight, and
    the completion of the first sends it. *)
Lemma turns_three_rest st bs : send_turns 0 three bs st ->
  send_turns 0 start (packet_bytes one 1 ++ [] ++ packet_bytes three 2 ++ bs) st.
Proof.
  intros Hrest.
  eapply turns_one.
  { apply (turn_packet 0 start session 1 100 env true one (drop 9 env)); [reflexivity|exact sendable_1|].
    vm_compute. reflexivity. }
  eapply turns_one.
  { eapply (turn_job 0 one [] [] 100 env true two); [vm_compute; reflexivity|vm_compute; reflexivity]. }
  eapply turns_one.
  { eapply (turn_packet 0 two _ 2 100 env true three); [vm_compute; reflexivity|exact sendable_2|vm_compute; reflexivity]. }
  exact Hrest.
Qed.

Lemma turns_three : send_turns 0 start (packet_bytes one 1 ++ [] ++ packet_bytes three 2 ++ []) three.
Proof. apply turns_three_rest, turns_none. Qed.

Lemma turns : send_turns 0 start (packet_bytes one 1 ++ [] ++ packet_bytes three 2 ++ [] ++ []) four.
Proof.
  apply turns_three_rest. eapply turns_one.
  { eapply (turn_done 0 three [PendRecv 0 []] [] 7 100 env true four); [vm_compute; reflexivity|done|vm_compute; reflexivity]. }
  apply turns_none.
Qed.
End SendSample.
#[local] Existing Instance SendSample.silent.

Lemma wire_carries_queue_in_order_witness :
  exists s' sent_bytes stuck,
    get_session SendSample.four 0 = Ok s' /\
    wire 0 (log SendSample.four) = [] ++ sent_bytes /\
    sent_bytes ++ stuck ++ concat (packet_bytes SendSample.four <$> sendQ s') =
      packet_bytes SendSample.one 1 ++ [] ++ packet_bytes SendSample.three 2 ++ [] ++ [] /\
    (sendFlag s' = 0 -> stuck = []) /\ count_if (is_send 0) (pend SendSample.four) <= 1.
Proof.
  exact (wire_carries_queue_in_order 0 1 SendSample.start SendSample.session _ _
    SendSample.start_idle SendSample.turns).
Defined.

Lemma SendPacket_queues_frame_witness :
  exists fuel st' env' rk s',
    run fuel [] (CNetServer.SendPacket (sessionID SendSample.session) 1) SendSample.start =
      Some (Ok (true, st', env')) /\
    is_byte rk /\ packet_bytes st' 1 = frame rk [7; 8] /\
    get_session st' 0 = Ok s' /\ sendQ s' = [] ++ [1].
Proof.
  refine (SendPacket_queues_frame 0 1 SendSample.start SendSample.session [] SendSample.start
    SendSample.session 1 [] SendSample.start_idle _ _ SendSample.sendable_1 _).
  - constructor.
  - vm_compute. reflexivity.
  - vm_compute. reflexivity.
Defined.

Lemma send_turns_return_witness :
  exists fuel res,
    run fuel [10053] (CNetServer.IOCPWorkerThread (send_done 0 7))
      (set_pend SendSample.three ([PendRecv 0 []] ++ [])) = Some (Ok res).
Proof.
  refine (proj2 (send_turns_return 0 1 SendSample.start SendSample.session _ SendSample.three [] []
    [10053] SendSample.start_idle SendSample.turns_three) _ _ _ _ _).
  - vm_compute. reflexivity.
  - discriminate.
Defined.
