(* ===== verification/SessionLogic.v ===== *)
(** * Reasoning about interleaved session programs

    The reference counting of sessions ([ioCount], [releaseFlag], the free slot
    stack) and of packets ([refCount]) is a protocol between threads. This file gives it a
    small program logic: a thread holds tokens, an atomic action requires and moves tokens
    ([act_spec]), a program is followed by a weakest precondition ([wp]), and the
    invariant of a configuration ties the tokens of all threads, outstanding I/O and
    queued jobs to the counters in memory: here for sessions ([inv]), in [PacketLogic] for
    packets. [SessionThreads] applies it to every thread of the server. *)
From S2P Require Import Prelude.
From S2P Require Import RingBuffer.
From S2P Require Import NetPacket.
From S2P Require Import ObjectPool.
From S2P Require Import ServerState.
From S2P Require Import NetServer.
From stdpp Require Import prelude gmap list.
From Stdlib Require Import ZArith Lia.
Open Scope Z_scope.

#[local] Set Warnings "-clear-no-such-hyp".

(** ** Tokens *)

(** Units of [ioCount] of slot [i]. [Tmp i] is one that was just taken. [Ref i] was taken
    while the slot was in use, so that it cannot be released before the unit is given
    back. The others are like [Ref i]: [Ful i] was taken for the identifier of the
    session, or inside it; [Rcv i] is the right to receive, of which there is one; the
    right to send is one of [Snd i], [Load i], with the packets to be sent in
    [sendPacketArr], [Sent i], with those that were sent there, and [Taken i], whose holder
    has taken those packets over.
    [Setup i] and [Ready i] are held while the slot is set up and nobody knows the
    identifier of the session, [Ready i] after its [sendCnt] is reset.

    A slot that is not in use has one owner or is on the free stack. The release that
    wins has [Rel i], then [Drained i] when the send queue is empty, then [Closing i]
    when it has taken over the packets of [sendPacketArr]; the accept that reuses the
    slot has [Own i], and [New i] when the slot has its new identifier. [Obl i] is the
    duty to try to release slot [i] after its count dropped to zero.

    [Pk p] is a reference to packet [p]. [Raw p] is a packet nobody has a reference to,
    before the first one or after the last. [Bat i ps m] is what the holder of the right to
    send, or the owner, knows of the send side: [sendPacketArr] begins with [ps]. In mode
    [Fill n] these were taken out of the queue to be sent, and at least [n] packets are
    left in it; in mode [Popped p n] also [p] was taken out; in mode [Hole n] the queue
    gave nothing, and the next place of [sendPacketArr] holds what it held before; in mode
    [Old] they were sent.

    The last record facts that stay true: the slot has been handed out once, its [socket]
    is not [INVALID_SOCKET], an identifier has been made known. *)
Inductive bmode := Fill (n : nat) | Popped (p : Z) (n : nat) | Hole (n : nat) | Old.
#[export] Instance bmode_eq_dec : EqDecision bmode.
Proof. solve_decision. Defined.
Inductive tok :=
  | Ref (i : Z) | Ful (i : Z) | Rcv (i : Z) | Snd (i : Z) | Load (i : Z) | Sent (i : Z) | Taken (i : Z)
  | Setup (i : Z) | Ready (i : Z) | Tmp (i : Z)
  | Rel (i : Z) | Drained (i : Z) | Closing (i : Z) | Own (i : Z) | New (i : Z) | Obl (i : Z)
  | Bat (i : Z) (ps : list Z) (m : bmode) | Pk (p : Z) | Raw (p : Z)
  | Al (i : Z) | SkSet (i : Z) | An (id : Z).
#[export] Instance tok_eq_dec : EqDecision tok.
Proof. solve_decision. Defined.

(** The slot a token is about, for those that do not record facts. *)
Definition tok_slot (x : tok) : option Z :=
  match x with
  | Ref i | Ful i | Rcv i | Snd i | Load i | Sent i | Taken i | Setup i | Ready i | Tmp i
  | Rel i | Drained i | Closing i | Own i | New i | Obl i | Bat i _ _ => Some i
  | Pk _ | Raw _ | Al _ | SkSet _ | An _ => None
  end.

(** The tokens about packets. *)
Definition pkt_tok (x : tok) : bool := match x with Bat _ _ _ | Pk _ | Raw _ => true | _ => false end.

Definition toks := tok -> nat.
Definition tadd (x : tok) (R : toks) : toks := fun y => if decide (y = x) then S (R y) else R y.
Definition tsub (x : tok) (R : toks) : toks := fun y => if decide (y = x) then pred (R y) else R y.
Definition tclr (x : tok) (R : toks) : toks := fun y => if decide (y = x) then O else R y.
Definition tnone : toks := fun _ => O.

(** How often [p] is in a list, and a reference to each packet of a list. *)
Definition occ (p : Z) (ps : list Z) : nat := length (filter (fun q => q = p) ps).
Definition pks (ps : list Z) (R : toks) : toks :=
  fun x => match x with Pk p => (R x + occ p ps)%nat | _ => R x end.
Definition unpks (ps : list Z) (R : toks) : toks :=
  fun x => match x with Pk p => (R x - occ p ps)%nat | _ => R x end.

Definition has (R : toks) (x : tok) : Prop := (0 < R x)%nat.
(** The rights to send of a slot, the units of those that set it up, the units inside its
    session, those that keep it in use, and its owners. *)
Definition senders (R : toks) (i : Z) : nat := R (Snd i) + R (Load i) + R (Sent i) + R (Taken i).
Definition setups (R : toks) (i : Z) : nat := R (Setup i) + R (Ready i).
Definition insides (R : toks) (i : Z) : nat := R (Ful i) + R (Rcv i) + senders R i.
Definition units (R : toks) (i : Z) : nat := R (Ref i) + insides R i + setups R i.
Definition owners (R : toks) (i : Z) : nat :=
  R (Rel i) + R (Drained i) + R (Closing i) + R (Own i) + R (New i).
Definition inside (R : toks) (i : Z) : Prop := (0 < insides R i)%nat.
(** A thread that gets into session [id] of slot [i]: it is inside, or has released the
    slot and will fail, or the identifier has been made known. *)
Definition may_enter (R : toks) (i id : Z) : Prop := inside R i \/ has R (Closing i) \/ has R (An id).

(** A unit that may be given back. *)
Definition unit_tok (i : Z) (x : tok) : Prop := x = Ref i \/ x = Tmp i \/ x = Ful i \/ x = Rcv i \/ x = Sent i.

(** A socket the 32-bit exchange of [Disconnect] cannot turn into
    [INVALID_SOCKET]. *)
Definition good_socket (s : Z) : Prop := 0 <= s /\ s / 2 ^ 32 < 2 ^ 32 - 1.

Definition started (r : option Z) : bool :=
  match r with None => true | Some e => e =? WSA_IO_PENDING end.

(** The events that record a lost completion: a count nobody gives back, or a
    release request nobody serves. *)
Definition accounting (e : event) : bool :=
  match e with EvPostFailed _ _ | EvPortFailed _ => true | _ => false end.

(** The event that makes an identifier known: [AcceptThread] has put the socket of the
    session at the completion port. *)
Definition port_of (e : event) : option Z := match e with EvPort sid => Some sid | _ => None end.

(** What an update of a packet does to its reference count. *)
Definition keeps_count {B} (f : CNetPacket.t -> outcome (B * CNetPacket.t)) : Prop :=
  forall pk b pk', f pk = Ok (b, pk') -> CNetPacket.refCount pk' = CNetPacket.refCount pk.
Definition adds_count {B} (f : CNetPacket.t -> outcome (B * CNetPacket.t)) : Prop :=
  forall pk b pk', f pk = Ok (b, pk') -> CNetPacket.refCount pk' = i32 (CNetPacket.refCount pk + 1).
Definition drops_count {B} (f : CNetPacket.t -> outcome (B * CNetPacket.t)) (z : B -> Z) : Prop :=
  forall pk b pk', f pk = Ok (b, pk') ->
    CNetPacket.refCount pk' = i32 (CNetPacket.refCount pk - 1) /\ z b = CNetPacket.refCount pk'.

(** Are the send queues reliable: is every [Dequeue] given the oldest element there is? If
    they are not, the tokens about packets mean nothing, but those of the sessions do. *)
Class Queues := reliable : bool.

(** What an action requires and what the thread holds after it. *)
Definition act_spec {qs : Queues} {B} (a : act B) : (B -> toks -> Prop) -> toks -> Prop :=
  match a in act B return (B -> toks -> Prop) -> toks -> Prop with
  | IncIo i => fun Q R =>
      (inside R i /\ forall b, Q b (tadd (Ful i) R)) \/ (forall b, Q b (tadd (Tmp i) R))
  | DecIo i => fun Q R =>
      exists x, unit_tok i x /\ has R x /\
      forall b, ((1 < units R i + R (Tmp i))%nat -> b <> 0) ->
        Q b (if b =? 0 then tadd (Obl i) (tsub x R) else tsub x R)
  | GetReleaseFlag i => fun Q R =>
      has R (Al i) /\ has R (Tmp i) /\
      forall b, Q b (if b =? 1 then R else tadd (Ref i) (tsub (Tmp i) R))
  | CasRelease i => fun Q R =>
      has R (Al i) /\
      forall b, Q b (if b =? 0 then tadd (Rel i) (tclr (Obl i) R) else tclr (Obl i) R)
  | SetReleaseFlag i v => fun Q R =>
      v = 0 /\ has R (New i) /\ has R (Tmp i) /\ has R (SkSet i) /\
      Q tt (tadd (Al i) (tadd (Setup i) (tsub (Tmp i) (tsub (New i) R))))
  | GetSessionID i => fun Q R =>
      has R (Al i) /\
      ((forall b, u16 b = i -> Q b R) \/
       (has R (Ref i) /\ exists id, may_enter R i id /\
        forall b, u16 b = i -> Q b (if b =? id then tadd (Ful i) (tsub (Ref i) R) else R)))
  | SetSessionID i v => fun Q R => has R (Own i) /\ u16 v = i /\ Q tt (tadd (New i) (tsub (Own i) R))
  | GetSocket i => fun Q R => has R (Al i) /\ forall b, b <> INVALID_SOCKET -> Q b R
  | SetSocket i v => fun Q R => has R (Own i) /\ good_socket v /\ Q tt (tadd (SkSet i) R)
  | SetRelSocket i v => fun Q R => has R (Own i) /\ Q tt R
  | CloseRelSocket i => fun Q R => has R (Closing i) /\ Q tt R
  | FreePush i => fun Q R =>
      has R (Closing i) /\ 0 <= i < 2 ^ 16 /\
      exists ps, has R (Bat i ps Old) /\ Q tt (tsub (Closing i) (tsub (Bat i ps Old) R))
  | FreePop => fun Q R => Q None R /\ forall i, 0 <= i < 2 ^ 16 -> Q (Some i) (tadd (Own i) R)
  | Post job i => fun Q R =>
      has R (Al i) /\
      ((job = en_IOCP_JOB_RELEASE /\ forall b, Q b (tclr (Obl i) R)) \/
       (job = en_IOCP_JOB_SENDPOST /\ has R (Ful i) /\ Q true (tsub (Ful i) R) /\ Q false R))
  | WSARecv i bufs => fun Q R =>
      has R (Al i) /\ has R (Rcv i) /\
      forall b, Q b (if started b then tsub (Rcv i) R else R)
  | WSASend i bufs => fun Q R =>
      has R (Al i) /\ has R (Load i) /\ exists n, has R (Bat i bufs.*1 (Fill n)) /\
      forall b, Q b (let R := tsub (Load i) (tsub (Bat i bufs.*1 (Fill n)) R) in
                     if started b then R else tadd (Ful i) R)
  | CreatePort s i => fun Q R =>
      has R (Ready i) /\ Q true (tadd (Rcv i) (tsub (Ready i) R)) /\ Q false (tsub (Ready i) R)
  | XchgSendFlag i v => fun Q R =>
      (v = 1 /\ has R (Ful i) /\
       forall b, Q b (if b =? 1 then R else tadd (Bat i [] (Fill 0)) (tadd (Snd i) (tsub (Ful i) R)))) \/
      (v = 0 /\ has R (Snd i) /\ exists ps, has R (Bat i ps Old) /\
       forall b, Q b (tsub (Bat i ps Old) (tadd (Ful i) (tsub (Snd i) R))))
  | SetSendFlag i v => fun Q R =>
      v = 0 /\
      ((has R (Snd i) /\ exists n, has R (Bat i [] (Fill n)) /\
        Q tt (tsub (Bat i [] (Fill n)) (tadd (Ful i) (tsub (Snd i) R)))) \/
       (has R (Setup i) /\ Q tt R))
  | GetSendCnt i => fun Q R =>
      (has R (Sent i) /\
       forall ps, Q (Z.of_nat (length ps)) (pks ps (tadd (Bat i ps Old) (tadd (Taken i) (tsub (Sent i) R))))) \/
      (has R (Drained i) /\
       forall ps, Q (Z.of_nat (length ps)) (pks ps (tadd (Bat i ps Old) (tadd (Closing i) (tsub (Drained i) R)))))
  | SetSendCnt i v => fun Q R =>
      (v = 0 /\ has R (Taken i) /\ Q tt (tadd (Snd i) (tsub (Taken i) R))) \/
      (v = 0 /\ has R (Setup i) /\ Q tt (tadd (Ready i) (tsub (Setup i) R))) \/
      (has R (Snd i) /\ exists ps n, has R (Bat i ps (Fill n)) /\ v = Z.of_nat (length ps) /\
       (forall p, (occ p ps <= R (Pk p))%nat) /\
       Q tt (unpks ps (tadd (Load i) (tsub (Snd i) R))))
  | GetSendPacket i k => fun Q R =>
      (has R (Snd i) \/ has R (Closing i)) /\
      ((exists ps m p, has R (Bat i ps m) /\ 0 <= k /\ ps !! Z.to_nat k = Some p /\ Q p R) \/
       (reliable = false /\ exists ps n, has R (Bat i ps (Hole n)) /\ k = Z.of_nat (length ps) /\
        forall p, Q p (tadd (Pk p) (tadd (Bat i (ps ++ [p]) (Fill n)) (tsub (Bat i ps (Hole n)) R)))))
  | SetSendPacket i k p => fun Q R =>
      has R (Snd i) /\ exists ps n, has R (Bat i ps (Popped p n)) /\ k = Z.of_nat (length ps) /\
      forall b, Q b (tadd (Bat i (ps ++ [p]) (Fill n)) (tsub (Bat i ps (Popped p n)) R))
  | SendQSize i => fun Q R =>
      (inside R i /\ forall b, Q b R) \/
      (has R (Snd i) /\ exists ps n, has R (Bat i ps (Fill n)) /\
       forall m, Q (Z.of_nat m) (tadd (Bat i ps (Fill m)) (tsub (Bat i ps (Fill n)) R)))
  | SendQEnqueue i p => fun Q R => inside R i /\ has R (Pk p) /\ forall b, Q b (tsub (Pk p) R)
  | SendQDequeue i => fun Q R =>
      (has R (Snd i) /\ exists ps n, has R (Bat i ps (Fill (S n))) /\
       (reliable = false -> Q None (tadd (Bat i ps (Hole n)) (tsub (Bat i ps (Fill (S n))) R))) /\
       forall p, Q (Some p) (tadd (Pk p) (tadd (Bat i ps (Popped p n)) (tsub (Bat i ps (Fill (S n))) R)))) \/
      (has R (Rel i) /\ Q None (tadd (Drained i) (tsub (Rel i) R)) /\ forall p, Q (Some p) (tadd (Pk p) R))
  | RecvQ i _ => fun Q R => (has R (Rcv i) \/ has R (Ready i)) /\ forall b, Q b R
  | RecvDequeueTo i p _ => fun Q R => has R (Rcv i) /\ has R (Pk p) /\ forall b, Q b R
  | PoolAlloc => fun Q R => forall p, Q p (tadd (Raw p) R)
  | PoolFree p => fun Q R => has R (Raw p) /\ forall b, Q b (tsub (Raw p) R)
  | Packet p f => fun Q R =>
      ((has R (Pk p) \/ has R (Raw p)) /\ keeps_count f /\ forall b, Q b R) \/
      (has R (Pk p) /\ adds_count f /\ forall b, Q b (tadd (Pk p) R)) \/
      (has R (Raw p) /\ adds_count f /\ forall b, Q b (tadd (Pk p) (tsub (Raw p) R))) \/
      (has R (Pk p) /\ exists z, drops_count f z /\
       forall b, Q b (if z b =? 0 then tadd (Raw p) (tsub (Pk p) R) else tsub (Pk p) R))
  | Emit e => fun Q R => accounting e = false /\ port_of e = None /\ Q tt R
  | Raise f => fun Q R => True
  | _ => fun Q R => forall b, Q b R
  end.

Fixpoint wp {qs : Queues} {A} (p : prog A) : (A -> toks -> Prop) -> toks -> Prop :=
  match p in prog A return (A -> toks -> Prop) -> toks -> Prop with
  | Ret a => fun Q R => Q a R
  | Do a k => fun Q R => act_spec a (fun b R' => wp (k b) Q R') R
  | Loop body s k => fun Q R =>
      exists I : _ -> toks -> Prop, I s R /\
        forall s R, I s R -> wp (body s) (fun r R' =>
          match r with inl s' => I s' R' | inr b => wp (k b) Q R' end) R
  end.

Section mono.
Context {qs : Queues}.

Lemma act_spec_mono {B} (a : act B) (Q Q' : B -> toks -> Prop) R :
  (forall b R', Q b R' -> Q' b R') -> act_spec a Q R -> act_spec a Q' R.
Proof.
  intros HQ. destruct a; cbn; try (intros H; repeat split; intros; apply HQ; apply H; fail);
    try (intros (x & ? & ? & Hx); exists x; split_and!; auto; fail);
    naive_solver.
Qed.

Lemma wp_mono {A} (p : prog A) (Q Q' : A -> toks -> Prop) R :
  (forall a R', Q a R' -> Q' a R') -> wp p Q R -> wp p Q' R.
Proof.
  revert R. induction p as [A a|A B a k IH|A S B body IHb s k IHk]; intros R HQ; cbn.
  - apply HQ.
  - apply act_spec_mono. intros b R'. apply IH, HQ.
  - intros (I & Hs & HI). exists I. split; [done|]. intros s' R' Hs'.
    eapply IHb, HI, Hs'. intros [s''|b] R''; [done|]. apply IHk, HQ.
Qed.

Lemma wp_bind {A B} (p : prog A) (f : A -> prog B) (Q : B -> toks -> Prop) R :
  wp p (fun a R' => wp (f a) Q R') R -> wp (pbind p f) Q R.
Proof.
  revert R. induction p as [A a|A C a k IH|A S C body IHb s k IHk]; intros R; cbn.
  - done.
  - apply act_spec_mono. intros b R'. apply IH.
  - intros (I & Hs & HI). exists I. split; [done|]. intros s' R' Hs'.
    eapply wp_mono, HI, Hs'. intros [s''|b] R''; [done|]. apply IHk.
Qed.

(** One turn of a loop. *)
Lemma wp_unfold {A S B} (body : S -> prog (S + B)) s (k : B -> prog A) Q R :
  wp (Loop body s k) Q R ->
  wp (pbind (body s) (fun r => match r with inl s' => Loop body s' k | inr b => k b end)) Q R.
Proof.
  intros (I & Hs & HI). apply wp_bind. eapply wp_mono, HI, Hs.
  intros [s'|b] R' Hr; cbn in *; [|done]. exists I. auto.
Qed.

End mono.

(** ** The part of the state the protocol is about *)
Record core := mkCore { c_id : Z; c_sock : Z; c_io : Z; c_flag : Z; c_send : Z }.
Record view := mkView {
  v_sess : list core;
  v_free : list Z;
  v_iocp : list completion;
  v_pend : list pending;
  v_lost : list event;
  v_ann : list Z;
}.

Definition core_of (s : SESSION) : core :=
  mkCore (sessionID s) (socket s) (ioCount s) (releaseFlag s) (sendFlag s).

(** The identifiers that have been made known. *)
Definition announced {P} (st : server P) : list Z := omap port_of (log st).

Definition view_of {P} (st : server P) : view :=
  mkView (core_of <$> sessionArr st) (freeSessionStack st) (iocp st) (pend st)
    (filter (fun e => accounting e = true) (log st)) (announced st).

Definition v_get (v : view) (i : Z) : option core :=
  if i <? 0 then None else v_sess v !! Z.to_nat i.
Definition v_set (v : view) (i : Z) (c : core) : view :=
  mkView (<[Z.to_nat i := c]> (v_sess v)) (v_free v) (v_iocp v) (v_pend v) (v_lost v) (v_ann v).

Lemma v_get_set v i j c c0 :
  v_get v i = Some c0 -> v_get (v_set v i c) j = if decide (j = i) then Some c else v_get v j.
Proof.
  unfold v_get, v_set. cbn. intros H. destruct (i <? 0) eqn:Hi; [done|].
  destruct (decide (j = i)) as [->|Hj].
  - rewrite Hi. apply list_lookup_insert_eq. eauto using lookup_lt_Some.
  - destruct (j <? 0) eqn:Hj0; [done|]. b2p. apply list_lookup_insert_ne. lia.
Qed.

(** ** Counting *)
Definition ind (b : bool) : nat := if b then 1%nat else 0%nat.
Definition count {A} (f : A -> bool) (l : list A) : nat := sum_list_with (fun x => ind (f x)) l.

Lemma count_app {A} (f : A -> bool) l k : count f (l ++ k) = (count f l + count f k)%nat.
Proof. apply sum_list_with_app. Qed.
Lemma count_cons {A} (f : A -> bool) x l : count f (x :: l) = (ind (f x) + count f l)%nat.
Proof. reflexivity. Qed.
Lemma count_nil {A} (f : A -> bool) : count f [] = 0%nat.
Proof. reflexivity. Qed.

Lemma count_pos {A} (f : A -> bool) l : (0 < count f l)%nat <-> exists x, x ∈ l /\ f x = true.
Proof.
  induction l as [|x l IH]; [split; [cbn; lia|intros (y & []%elem_of_nil & _)]|].
  rewrite count_cons. destruct (f x) eqn:E; cbn.
  - split; [exists x; set_solver|lia].
  - rewrite IH. split; [set_solver|]. intros (y & [->|]%elem_of_cons & ?); [congruence|eauto].
Qed.

(** ** Who holds a count, who owns a slot, who will release it *)
Definition pend_slot (io : pending) : Z := match io with PendRecv i _ | PendSend i => i end.
Definition is_release (c : completion) : bool :=
  bool_decide (lpOverlapped c = OvNull) && (dwTransferred c =? en_IOCP_JOB_RELEASE).
Definition is_recv (c : completion) : bool := match lpOverlapped c with OvRecv => true | _ => false end.
Definition is_send (c : completion) : bool := match lpOverlapped c with OvSend => true | _ => false end.
Definition comp_slot (c : completion) : Z := match pSession c with Some i => i | None => -1 end.

Definition lost_port (v : view) (i : Z) : nat :=
  count (fun e => match e with EvPortFailed j => j =? i | _ => false end) (v_lost v).
Definition busy (v : view) (i : Z) : nat :=
  count (fun io => pend_slot io =? i) (v_pend v) +
  count (fun c => negb (is_release c) && (comp_slot c =? i)) (v_iocp v).
Definition outstanding (v : view) (i : Z) : nat := busy v i + lost_port v i.
(** The outstanding receives and sends of a slot, with the finished ones nobody has
    taken. *)
Definition receiving (v : view) (i : Z) : nat :=
  count (fun io => match io with PendRecv j _ => j =? i | PendSend _ => false end) (v_pend v) +
  count (fun c => is_recv c && (comp_slot c =? i)) (v_iocp v).
Definition sending (v : view) (i : Z) : nat :=
  count (fun io => match io with PendSend j => j =? i | PendRecv _ _ => false end) (v_pend v) +
  count (fun c => is_send c && (comp_slot c =? i)) (v_iocp v).
Definition free_count (v : view) (i : Z) : nat := count (fun j => j =? i) (v_free v).
Definition claims (v : view) (i : Z) : nat :=
  count (fun c => is_release c && (comp_slot c =? i)) (v_iocp v) +
  count (fun e => match e with
                  | EvPostFailed job j => (job =? en_IOCP_JOB_RELEASE) && (j =? i)
                  | _ => false end) (v_lost v).

Lemma count_mono {A} (f g : A -> bool) l : (forall x, f x = true -> g x = true) -> (count f l <= count g l)%nat.
Proof.
  intros Hfg. induction l as [|x l IH]; [done|]. rewrite !count_cons. specialize (Hfg x).
  destruct (f x); [rewrite Hfg by done|destruct (g x)]; cbn; lia.
Qed.

Lemma receiving_le v i : (receiving v i + sending v i <= busy v i)%nat.
Proof.
  unfold receiving, sending, busy. induction (v_pend v) as [|io l IH]; rewrite ?count_nil, ?count_cons in *.
  - induction (v_iocp v) as [|c l IH]; rewrite ?count_nil, ?count_cons in *; [done|].
    assert ((ind (is_recv c && (comp_slot c =? i)%Z) + ind (is_send c && (comp_slot c =? i)%Z) <=
      ind (negb (is_release c) && (comp_slot c =? i)%Z))%nat); [|lia].
    unfold is_release, is_recv, is_send. case_bool_decide; destruct (lpOverlapped c), (comp_slot c =? i)%Z; try done; cbn; lia.
  - destruct io as [j b|j]; cbn [pend_slot]; destruct (j =? i)%Z; cbn [ind]; lia.
Qed.

(** A queued completion belongs to a slot in use, and a request without an
    overlapped structure is one of the two jobs. *)
Definition comp_ok (al : gset Z) (c : completion) : Prop :=
  exists i, pSession c = Some i /\ i ∈ al /\
    (lpOverlapped c = OvNull ->
       dwTransferred c = en_IOCP_JOB_SENDPOST \/ dwTransferred c = en_IOCP_JOB_RELEASE).

(** The invariant. [al] is the set of slots handed out at least once, [T] the
    tokens of all threads together. *)
Record inv (v : view) (al : gset Z) (T : toks) : Prop := mkInv {
  inv_io : forall i c, v_get v i = Some c -> c_io c = Z.of_nat (units T i + T (Tmp i) + outstanding v i);
  inv_live : forall i c, v_get v i = Some c -> (0 < units T i + outstanding v i)%nat -> c_flag c = 0 /\ i ∈ al;
  inv_rcv : forall i, (T (Rcv i) + receiving v i <= 1)%nat;
  inv_snd : forall i c, v_get v i = Some c -> (senders T i + sending v i <= if (c_send c =? 1)%Z then 1 else 0)%nat;
  inv_set : forall i c, v_get v i = Some c -> (0 < setups T i + lost_port v i)%nat ->
    (setups T i + lost_port v i = 1 /\ insides T i + busy v i = 0)%nat /\ (c_id c ∉ v_ann v);
  inv_new : forall i c, v_get v i = Some c -> has T (New i) -> u16 (c_id c) = i /\ (c_id c ∉ v_ann v);
  inv_range : forall i c, v_get v i = Some c -> c_io c < 2 ^ 32;
  inv_own : forall i c, v_get v i = Some c ->
    (owners T i + free_count v i)%nat = if decide (c_flag c = 0 /\ i ∈ al) then 0%nat else 1%nat;
  inv_flag : forall i c, v_get v i = Some c -> i ∈ al -> c_flag c = 0 \/ c_flag c = 1;
  inv_id : forall i c, v_get v i = Some c -> i ∈ al -> u16 (c_id c) = i;
  inv_sk : forall i c, v_get v i = Some c -> i ∈ al \/ has T (SkSet i) -> good_socket (c_sock c);
  inv_claim : forall i c, v_get v i = Some c -> i ∈ al -> c_flag c = 0 -> c_io c = 0 ->
    (0 < T (Obl i) + claims v i)%nat;
  inv_al : forall i, has T (Al i) -> i ∈ al;
  inv_an : forall id, has T (An id) -> id ∈ v_ann v;
  inv_ann : Forall (fun id => u16 id ∈ al) (v_ann v);
  inv_comp : Forall (comp_ok al) (v_iocp v);
  inv_pend : Forall (fun io => pend_slot io ∈ al) (v_pend v);
  inv_free : Forall (fun i => 0 <= i < 2 ^ 16) (v_free v);
  inv_dom : forall i, (0 < owners T i + free_count v i)%nat -> is_Some (v_get v i);
}.

(** Only the number of tokens in total counts, and not that of the tokens about packets. *)
Lemma inv_ext v al T T' : (forall x, pkt_tok x = false -> T x = T' x) -> inv v al T -> inv v al T'.
Proof.
  intros E []. assert (E1 : forall i, senders T i = senders T' i) by (intros; unfold senders; rewrite !E; done).
  assert (E2 : forall i, setups T i = setups T' i) by (intros; unfold setups; rewrite !E; done).
  assert (E3 : forall i, insides T i = insides T' i) by (intros; unfold insides; rewrite E1, !E; done).
  assert (E4 : forall i, units T i = units T' i) by (intros; unfold units; rewrite E2, E3, !E; done).
  assert (E5 : forall i, owners T i = owners T' i) by (intros; unfold owners; rewrite !E; done).
  assert (F : forall i, T (Tmp i) = T' (Tmp i) /\ T (Rcv i) = T' (Rcv i) /\ T (New i) = T' (New i) /\
    T (SkSet i) = T' (SkSet i) /\ T (Obl i) = T' (Obl i) /\ T (Al i) = T' (Al i) /\ T (An i) = T' (An i)).
  { intros i. rewrite !E by done. done. }
  split; unfold has in *; try done; intros i; destruct (F i) as (F1 & F2 & F3 & F4 & F5 & F6 & F7);
    rewrite <- ?E1, <- ?E2, <- ?E3, <- ?E4, <- ?E5, <- ?F1, <- ?F2, <- ?F3, <- ?F4, <- ?F5, <- ?F6, <- ?F7; eauto.
Qed.

(** The tokens of all threads after one thread changed its tokens. *)
Definition swap (T R R' : toks) : toks := fun x => (T x - R x + R' x)%nat.
Definition below (R T : toks) : Prop := forall x, (R x <= T x)%nat.

(** No counter of references, of a session or a packet, overflows, and no identifier is made a second time before
    the 48 bits of [_sessionCnt] have wrapped around. *)
Definition no_overflow {P B} (st : server P) (a : act B) : Prop :=
  match a with
  | IncIo i => forall s, sessionArr st !! Z.to_nat i = Some s -> ioCount s + 1 < 2 ^ 32
  | SetSessionID i v => v ∉ announced st
  | Packet p f => CNetPacket.refCount (packets st p) + 1 < 2 ^ 31
  | _ => True
  end.

(** The slots in use after an action. *)
Definition alloc_after {B} (a : act B) (al : gset Z) : gset Z :=
  match a with SetReleaseFlag i _ => {[i]} ∪ al | _ => al end.

(** ** Every action keeps the invariant *)
Ltac use_below :=
  repeat match goal with
  | Hb : below ?R ?T |- context [?R ?x] =>
      lazymatch goal with _ : (R x <= T x)%nat |- _ => fail | _ => pose proof (Hb x) end
  | Hb : below ?R ?T, H : context [?R ?x] |- _ =>
      lazymatch goal with _ : (R x <= T x)%nat |- _ => fail | _ => pose proof (Hb x) end
  end.
Ltac tok_dec x y :=
  lazymatch type of x with tok => idtac end;
  first [ rewrite !(decide_True (P := x = y)) by reflexivity
        | rewrite !(decide_False (P := x = y)) by discriminate
        | let E := fresh "E" in destruct (decide (x = y)) as [E|E]; [injection E as E; subst|] ].
Ltac tok_if :=
  match goal with
  | |- context [decide (?x = ?y)] => tok_dec x y
  | H : context [decide (?x = ?y)] |- _ =>
      lazymatch type of x with tok => idtac end; revert H; tok_dec x y; intros H
  end.
(** Tokens a thread does not change. *)
Ltac unchanged :=
  repeat match goal with
  | Hb : below ?R ?T |- context [(?T ?x - ?R ?x + ?R ?x)%nat] => rewrite (Nat.sub_add (R x) (T x) (Hb x))
  | Hb : below ?R ?T, H : context [(?T ?x - ?R ?x + ?R ?x)%nat] |- _ => rewrite (Nat.sub_add (R x) (T x) (Hb x)) in H
  end.
Ltac tok_cases :=
  unfold swap, tadd, tsub, tclr, has, inside, units, insides, senders, setups, owners, outstanding in *; cbn [ind andb negb pks unpks] in *;
  repeat tok_if; unchanged; use_below.
Ltac tok := intros; tok_cases; try tauto; solve [lia | left; lia | split_and!; lia].

(** Update of the core of one slot: only its own clauses are at stake. *)
Lemma inv_set_slot v al T i c c' al' T' :
  inv v al T -> v_get v i = Some c ->
  (forall k, has T' (Al k) -> has T (Al k) \/ (k = i /\ i ∈ al')) ->
  (forall k, has T' (SkSet k) -> has T (SkSet k) \/ (k = i /\ good_socket (c_sock c'))) ->
  (forall k, has T' (An k) -> has T (An k)) ->
  (forall x j, tok_slot x = Some j -> j <> i -> T' x = T x) ->
  (forall j, j <> i -> (j ∈ al' <-> j ∈ al)) -> (i ∈ al -> i ∈ al') ->
  (i ∈ al' -> (c_flag c' = 0 \/ c_flag c' = 1) /\ u16 (c_id c') = i /\ good_socket (c_sock c')) ->
  (good_socket (c_sock c) -> good_socket (c_sock c')) ->
  c_io c' = Z.of_nat (units T' i + T' (Tmp i) + outstanding v i) -> c_io c' < 2 ^ 32 ->
  (T' (Rcv i) + receiving v i <= 1)%nat ->
  (senders T' i + sending v i <= if (c_send c' =? 1)%Z then 1 else 0)%nat ->
  ((0 < setups T' i + lost_port v i)%nat ->
    (setups T' i + lost_port v i = 1 /\ insides T' i + busy v i = 0)%nat /\ (c_id c' ∉ v_ann v)) ->
  (has T' (New i) -> u16 (c_id c') = i /\ (c_id c' ∉ v_ann v)) ->
  ((0 < units T' i + outstanding v i)%nat -> c_flag c' = 0 /\ i ∈ al') ->
  (owners T' i + free_count v i)%nat = (if decide (c_flag c' = 0 /\ i ∈ al') then 0%nat else 1%nat) ->
  (i ∈ al' -> c_flag c' = 0 -> c_io c' = 0 -> (0 < T' (Obl i) + claims v i)%nat) ->
  inv (v_set v i c') al' T'.
Proof.
  intros [] Hc HpA HpS HpN Ho Hal Hal' Hi' Hsk Hio Hr Hrv Hsn Hst Hnw Hlv Hown Hcl.
  assert (Hu : forall j, j <> i -> insides T' j = insides T j /\ units T' j = units T j /\ senders T' j = senders T j /\
    setups T' j = setups T j /\ owners T' j = owners T j).
  { intros j Hj. unfold units, insides, senders, setups, owners.
    rewrite !(fun x Hx => Ho x j Hx Hj) by reflexivity. done. }
  assert (Hal2 : forall j, j ∈ al -> j ∈ al') by (intros j Hj; destruct (decide (j = i)) as [->|Hn]; [|apply Hal]; auto).
  split; unfold outstanding in *.
  all: try (intros j d; rewrite (v_get_set v i j c' c Hc); destruct (decide (j = i)) as [->|Hj];
    [intros [= <-]|intros Hd; try destruct (Hu j Hj) as (E1 & E2 & E3 & E4 & E5); rewrite ?E1, ?E2, ?E3, ?E4, ?E5; try rewrite !(Hal j Hj)]).
  all: try (rewrite ?(fun x Hx => Ho x j Hx Hj) by reflexivity).
  all: try change (free_count (v_set v i c') j) with (free_count v j).
  all: try done; eauto.
  - intros j. change (receiving (v_set v i c') j) with (receiving v j).
    destruct (decide (j = i)) as [->|Hj]; [done|]. rewrite (Ho (Rcv j) j eq_refl Hj). apply inv_rcv0.
  - unfold has. rewrite (Ho (New j) j eq_refl Hj). eauto.
  - rewrite (inv_own0 _ _ Hd). apply decide_ext. rewrite (Hal j Hj). done.
  - intros Hin. apply Hi', Hin.
  - intros Hin. apply Hi', Hin.
  - intros [Hin|[H|[_ H]]%HpS]; [apply Hi', Hin| |done]. eauto.
  - intros [|[H|[]]%HpS]; [eauto|eauto|done].
  - intros j [H|[-> H]]%HpA; eauto.
  - eapply Forall_impl; [exact inv_ann0|]. auto.
  - eapply Forall_impl; [exact inv_comp0|]. intros k (j & ? & ? & ?). exists j. auto.
  - eapply Forall_impl; [exact inv_pend0|]. cbn. auto.
  - intros j. rewrite (v_get_set v i j c' c Hc). destruct (decide (j = i)) as [->|Hj]; [eauto|].
    destruct (Hu j Hj) as (_ & _ & _ & _ & ->). apply inv_dom0.
Qed.

(** A change that leaves the sessions and the slots in use. *)
Lemma inv_lists v al T v' T' :
  inv v al T -> v_sess v' = v_sess v -> v_ann v' = v_ann v ->
  (forall k, has T' (Al k) -> has T (Al k) \/ k ∈ al) ->
  (forall k, has T' (SkSet k) -> has T (SkSet k)) ->
  (forall k, has T' (An k) -> has T (An k) \/ k ∈ v_ann v) ->
  (forall i, (units T' i + outstanding v' i = units T i + outstanding v i)%nat) ->
  (forall i, (insides T' i + busy v' i <= insides T i + busy v i)%nat) ->
  (forall i, (setups T' i + lost_port v' i = setups T i + lost_port v i)%nat) ->
  (forall i, (T' (Rcv i) + receiving v' i <= T (Rcv i) + receiving v i)%nat) ->
  (forall i, (senders T' i + sending v' i <= senders T i + sending v i)%nat) ->
  (forall i, T' (Tmp i) = T (Tmp i)) ->
  (forall i, (owners T' i + free_count v' i = owners T i + free_count v i)%nat) ->
  (forall i, has T' (New i) -> has T (New i)) ->
  (forall i, (T (Obl i) + claims v i <> 0 -> T' (Obl i) + claims v' i <> 0)%nat) ->
  Forall (comp_ok al) (v_iocp v') -> Forall (fun io => pend_slot io ∈ al) (v_pend v') ->
  Forall (fun i => 0 <= i < 2 ^ 16) (v_free v') ->
  inv v' al T'.
Proof.
  intros [] Hs Hann HpA HpS HpN H1 Hin Hst Hrv Hsn H1' H2 Hnw H3 ? ? ?.
  assert (Hg : forall j, v_get v' j = v_get v j) by (intros j; unfold v_get; rewrite Hs; done).
  split; unfold has in *; rewrite ?Hann; try setoid_rewrite Hg; try done; intros i; rewrite ?Hst, ?H1'.
  - intros c ?. specialize (H1 i). rewrite (inv_io0 i c) by done. lia.
  - intros c ? ?. specialize (H1 i). apply (inv_live0 i c); [done|]. lia.
  - specialize (Hrv i). specialize (inv_rcv0 i). lia.
  - intros c Hc. specialize (Hsn i). specialize (inv_snd0 i c Hc). lia.
  - intros c Hc ?. destruct (inv_set0 i c Hc) as [? ?]; [lia|]. specialize (Hin i). split; [lia|done].
  - eauto.
  - intros c ?. specialize (H2 i). rewrite <- (inv_own0 i c) by done. lia.
  - intros c ? [|Hx%HpS]; eauto.
  - intros c ? ? ? ?. assert (0 < T (Obl i) + claims v i)%nat by eauto.
    specialize (H3 i). lia.
  - intros [Hx|Hx]%HpA; eauto.
  - intros [Hx|Hx]%HpN; eauto.
  - intros ?. specialize (H2 i). apply inv_dom0. lia.
Qed.


(** *** Updates of one slot *)
Lemma has_below R T x : below R T -> has R x -> has T x.
Proof. unfold has, below. intros Hb. specialize (Hb x). lia. Qed.

Lemma inv_ident v al T i c :
  inv v al T -> v_get v i = Some c -> i ∈ al ->
  (c_flag c = 0 \/ c_flag c = 1) /\ u16 (c_id c) = i /\ good_socket (c_sock c).
Proof. intros [] ? ?. split_and!; eauto. Qed.

(** The tokens of other slots are not touched. *)
Lemma swap_same (T R R' : toks) x : below R T -> R' x = R x -> swap T R R' x = T x.
Proof. unfold swap. intros Hb ->. specialize (Hb x). lia. Qed.
Lemma tadd_slot x y i j R : tok_slot x = Some j -> j <> i -> tok_slot y = Some i -> tadd y R x = R x.
Proof. intros Hx Hj Hy. unfold tadd. rewrite decide_False; [done|]. congruence. Qed.
Lemma tsub_slot x y i j R : tok_slot x = Some j -> j <> i -> tok_slot y = Some i -> tsub y R x = R x.
Proof. intros Hx Hj Hy. unfold tsub. rewrite decide_False; [done|]. congruence. Qed.
Lemma tclr_slot x y i j R : tok_slot x = Some j -> j <> i -> tok_slot y = Some i -> tclr y R x = R x.
Proof. intros Hx Hj Hy. unfold tclr. rewrite decide_False; [done|]. congruence. Qed.
Lemma tadd_fact x y j R : tok_slot x = Some j -> tok_slot y = None -> tadd y R x = R x.
Proof. intros Hx Hy. unfold tadd. rewrite decide_False; [done|]. congruence. Qed.

Lemma tsub_fact x y j R : tok_slot x = Some j -> tok_slot y = None -> tsub y R x = R x.
Proof. intros Hx Hy. unfold tsub. rewrite decide_False; [done|]. congruence. Qed.
Lemma pks_slot x ps j R : tok_slot x = Some j -> pks ps R x = R x.
Proof. destruct x; done. Qed.
Lemma unpks_slot x ps j R : tok_slot x = Some j -> unpks ps R x = R x.
Proof. destruct x; done. Qed.

Ltac slot_tokens :=
  let x := fresh in let j := fresh in let Hx := fresh in let Hj := fresh in
  intros x j Hx Hj; first [reflexivity | apply swap_same; [assumption|]];
  repeat first [ rewrite (tadd_slot _ _ _ _ _ Hx Hj) by reflexivity | rewrite (tsub_slot _ _ _ _ _ Hx Hj) by reflexivity
    | rewrite (pks_slot _ _ _ _ Hx) | rewrite (unpks_slot _ _ _ _ Hx)
    | rewrite (tclr_slot _ _ _ _ _ Hx Hj) by reflexivity | rewrite (tadd_fact _ _ _ _ Hx) by reflexivity | rewrite (tsub_fact _ _ _ _ Hx) by reflexivity ]; reflexivity.
Ltac slot_update Hv Hc :=
  let Hio := fresh "Hio" in let Hlv := fresh "Hlv" in let Hown := fresh "Hown" in let Hr := fresh "Hr" in
  let Hsn := fresh "Hsn" in let Hst := fresh "Hst" in let Hnw := fresh "Hnw" in
  pose proof (inv_io _ _ _ Hv _ _ Hc) as Hio;
  pose proof (inv_range _ _ _ Hv _ _ Hc) as Hr;
  match type of Hc with v_get _ ?i = _ => pose proof (inv_rcv _ _ _ Hv i) end;
  pose proof (inv_snd _ _ _ Hv _ _ Hc) as Hsn;
  pose proof (inv_set _ _ _ Hv _ _ Hc) as Hst;
  pose proof (inv_new _ _ _ Hv _ _ Hc) as Hnw;
  pose proof (inv_live _ _ _ Hv _ _ Hc) as Hlv;
  pose proof (inv_own _ _ _ Hv _ _ Hc) as Hown;
  eapply (inv_set_slot _ _ _ _ _ _ _ _ Hv Hc); cbn [c_id c_sock c_io c_flag c_send];
  [tok|try tok|tok|slot_tokens|try done|try done|try exact (inv_ident _ _ _ _ _ Hv Hc)
  |try tauto|try tok|try tok|try tok|try tok
  |try (intros ?; destruct Hst as [[??] ?]; [tok|split; [tok|assumption]])|try (intros ?; apply Hnw; tok)
  |try first [intros; apply Hlv; tok | intros; exfalso; tok]|try (rewrite <- Hown; tok)
  |try first [tok | let Hi := fresh in let Hf := fresh in let H0 := fresh in intros Hi Hf H0;
     pose proof (inv_claim _ _ _ Hv _ _ Hc Hi Hf H0); tok]].

Lemma inv_inc v al T R i c x :
  inv v al T -> below R T -> x = Tmp i \/ (x = Ful i /\ inside R i) ->
  v_get v i = Some c -> c_io c + 1 < 2 ^ 32 ->
  inv (v_set v i (mkCore (c_id c) (c_sock c) (c_io c + 1) (c_flag c) (c_send c))) al
    (swap T R (tadd x R)).
Proof. intros Hv Hb [->|[-> Hr]] Hc Hn; slot_update Hv Hc. Qed.

Lemma inv_dec v al T R i c x :
  inv v al T -> below R T -> unit_tok i x -> has R x -> v_get v i = Some c ->
  inv (v_set v i (mkCore (c_id c) (c_sock c) (c_io c - 1) (c_flag c) (c_send c))) al
    (swap T R (if c_io c - 1 =? 0 then tadd (Obl i) (tsub x R) else tsub x R)).
Proof.
  intros Hv Hb Hx Hr Hc. destruct (c_io c - 1 =? 0) eqn:E; destruct Hx as [->|[->|[->|[->| ->]]]]; slot_update Hv Hc.
Qed.

Lemma inv_validate v al T R i c :
  inv v al T -> below R T -> has R (Tmp i) -> i ∈ al -> v_get v i = Some c -> c_flag c = 0 ->
  inv (v_set v i c) al (swap T R (tadd (Ref i) (tsub (Tmp i) R))).
Proof.
  intros Hv Hb Hr Hi Hc Hf. slot_update Hv Hc. auto.
Qed.

Lemma inv_enter v al T R i c :
  inv v al T -> below R T -> has R (Ref i) -> v_get v i = Some c -> may_enter R i (c_id c) ->
  inv (v_set v i c) al (swap T R (tadd (Ful i) (tsub (Ref i) R))).
Proof.
  intros Hv Hb Hr Hc He. slot_update Hv Hc.
  intros Hs. exfalso. destruct Hst as [[??] Hn]; [tok|]. destruct He as [He|[He|He]]; [tok| |].
  - destruct (decide (c_flag c = 0 /\ i ∈ al)) as [|Hd] in Hown; [tok|]. destruct Hd. apply Hlv. tok.
  - apply (has_below _ _ _ Hb), (inv_an _ _ _ Hv) in He. done.
Qed.

Lemma inv_cas_win v al T R i c :
  inv v al T -> below R T -> has R (Al i) -> v_get v i = Some c -> c_flag c = 0 -> c_io c = 0 ->
  inv (v_set v i (mkCore (c_id c) (c_sock c) 0 1 (c_send c))) al
    (swap T R (tadd (Rel i) (tclr (Obl i) R))).
Proof.
  intros Hv Hb Ha Hc Hf H0. slot_update Hv Hc.
  - intros Hi. destruct (inv_ident _ _ _ _ _ Hv Hc Hi) as (_ & ? & ?). auto.
  - rewrite decide_False by lia. rewrite decide_True in Hown; [tok|].
    split; [done|]. eapply inv_al; [done|]. eapply has_below; done.
Qed.

Lemma inv_cas_lose v al T R i c :
  inv v al T -> below R T -> v_get v i = Some c -> c_flag c <> 0 \/ c_io c <> 0 ->
  inv (v_set v i c) al (swap T R (tclr (Obl i) R)).
Proof. intros Hv Hb Hc Hf. slot_update Hv Hc. Qed.

Lemma inv_open v al T R i c :
  inv v al T -> below R T -> has R (New i) -> has R (Tmp i) -> has R (SkSet i) -> v_get v i = Some c ->
  inv (v_set v i (mkCore (c_id c) (c_sock c) (c_io c) 0 (c_send c))) ({[i]} ∪ al)
    (swap T R (tadd (Al i) (tadd (Setup i) (tsub (Tmp i) (tsub (New i) R))))).
Proof.
  intros Hv Hb Ho Hr Hs Hc.
  assert (Hin : i ∈ {[i]} ∪ al) by set_solver.
  pose proof (receiving_le v i).
  assert (Hdead : (units T i + outstanding v i = 0)%nat).
  { pose proof (inv_live _ _ _ Hv _ _ Hc) as Hl. pose proof (inv_own _ _ _ Hv _ _ Hc) as Hown.
    destruct (decide (c_flag c = 0 /\ i ∈ al)) as [|Hn] in Hown; [tok|].
    destruct (decide (0 < units T i + outstanding v i)%nat) as [Hx|]; [destruct Hn; auto|lia]. }
  slot_update Hv Hc.
  - set_solver.
  - intros _. split_and!; [auto| |].
    + apply (inv_new _ _ _ Hv _ _ Hc), (has_below _ _ _ Hb), Ho.
    + eapply inv_sk; eauto using has_below.
  - intros _. split; [tok|]. apply Hnw, (has_below _ _ _ Hb), Ho.
  - auto.
  - rewrite decide_True by auto. destruct (decide _) in Hown; tok.
Qed.

Lemma inv_set_id v al T R i c sid :
  inv v al T -> below R T -> has R (Own i) -> u16 sid = i -> (sid ∉ v_ann v) -> v_get v i = Some c ->
  inv (v_set v i (mkCore sid (c_sock c) (c_io c) (c_flag c) (c_send c))) al (swap T R (tadd (New i) (tsub (Own i) R))).
Proof.
  intros Hv Hb Ho Hs Hn Hc. slot_update Hv Hc; try (intros _; done).
  intros Hi. destruct (inv_ident _ _ _ _ _ Hv Hc Hi) as (? & _ & ?). auto.
Qed.

Lemma inv_set_sock v al T R i c sk :
  inv v al T -> below R T -> has R (Own i) -> good_socket sk -> v_get v i = Some c ->
  inv (v_set v i (mkCore (c_id c) sk (c_io c) (c_flag c) (c_send c))) al (swap T R (tadd (SkSet i) R)).
Proof.
  intros Hv Hb Ho Hs Hc. slot_update Hv Hc.
  intros Hi. destruct (inv_ident _ _ _ _ _ Hv Hc Hi) as (? & ? & _). auto.
Qed.

(** The send flag: it is taken, given back, or reset while the slot is set up. *)
Lemma inv_take_send v al T R i c :
  inv v al T -> below R T -> has R (Ful i) -> v_get v i = Some c ->
  inv (v_set v i (mkCore (c_id c) (c_sock c) (c_io c) (c_flag c) 1)) al
    (swap T R (if c_send c =? 1 then R else tadd (Snd i) (tsub (Ful i) R))).
Proof. intros Hv Hb Hr Hc. destruct (c_send c =? 1) eqn:E; slot_update Hv Hc; rewrite E in Hsn; change (1 =? 1)%Z with true; tok. Qed.

Lemma inv_give_send v al T R i c :
  inv v al T -> below R T -> has R (Snd i) -> v_get v i = Some c ->
  inv (v_set v i (mkCore (c_id c) (c_sock c) (c_io c) (c_flag c) 0)) al
    (swap T R (tadd (Ful i) (tsub (Snd i) R))).
Proof.
  intros Hv Hb Hr Hc. slot_update Hv Hc.
  change (0 =? 1) with false. destruct (c_send c =? 1); tok.
Qed.

Lemma inv_reset_send v al T R i c :
  inv v al T -> below R T -> has R (Setup i) -> v_get v i = Some c ->
  inv (v_set v i (mkCore (c_id c) (c_sock c) (c_io c) (c_flag c) 0)) al (swap T R R).
Proof.
  intros Hv Hb Hr Hc. pose proof (receiving_le v i). slot_update Hv Hc.
Qed.

Lemma good_socket_xchg s : good_socket s -> good_socket (s / 2 ^ 32 * 2 ^ 32 + u32 INVALID_SOCKET).
Proof.
  unfold good_socket. intros [? ?]. change (u32 INVALID_SOCKET) with (2 ^ 32 - 1).
  change (2 ^ 32) with 4294967296 in *.
  rewrite Z.div_add_l by lia. rewrite (Z.div_small (4294967296 - 1)) by lia.
  pose proof (Z.div_pos s 4294967296). lia.
Qed.

Lemma inv_xchg v al T R i c :
  inv v al T -> below R T -> v_get v i = Some c ->
  inv (v_set v i (mkCore (c_id c) (c_sock c / 2 ^ 32 * 2 ^ 32 + u32 INVALID_SOCKET) (c_io c) (c_flag c) (c_send c)))
    al (swap T R R).
Proof.
  intros Hv Hb Hc. slot_update Hv Hc.
  - intros Hi. destruct (inv_ident _ _ _ _ _ Hv Hc Hi) as (? & ? & ?).
    split_and!; auto using good_socket_xchg.
  - apply good_socket_xchg.
Qed.
