(* ===== verification/PacketLogic.v ===== *)
(** * Who refers to a packet

    The second half of the invariant of [SessionLogic]: the reference count of a packet is
    the number of references threads hold plus the places it is in, send queues and the
    packets being sent; a packet is out of its pool exactly while somebody refers to it.
    That holds as long as the send queues are reliable; what the invariant says of
    [sendCnt] and [sendPacketArr] holds whatever they do. The lemmas say how the kinds of
    change a step makes keep it. *)
From S2P Require Import Prelude.
From S2P Require Import RingBuffer.
From S2P Require Import NetPacket.
From S2P Require Import ObjectPool.
From S2P Require Import ServerState.
From S2P Require Import NetServer.
From S2P Require Import SessionLogic.
From stdpp Require Import prelude gmap list.
From Stdlib Require Import ZArith Lia.
Open Scope Z_scope.

(** ** Occurrences *)
Lemma occ_nil p : occ p [] = O.
Proof. done. Qed.
Lemma occ_cons p q ps : occ p (q :: ps) = ((if decide (q = p) then 1 else 0) + occ p ps)%nat.
Proof. unfold occ. rewrite filter_cons. case_decide; done. Qed.
Lemma occ_app p ps qs : occ p (ps ++ qs) = (occ p ps + occ p qs)%nat.
Proof. unfold occ. rewrite filter_app, length_app. done. Qed.
Lemma occ_elem p ps : p ∈ ps -> (0 < occ p ps)%nat.
Proof. intros (l & r & ->)%list_elem_of_split. rewrite occ_app, occ_cons, decide_True by done. lia. Qed.

Lemma sum_list_insert l (i : nat) (x y : nat) :
  l !! i = Some x -> (sum_list (<[i := y]> l) + x = sum_list l + y)%nat.
Proof.
  revert i. induction l as [|z l IH]; intros [|i] Hi; try done.
  - injection Hi as ->. change (<[0%nat := y]> (x :: l)) with (y :: l). cbn. unfold id. lia.
  - change (<[S i := y]> (z :: l)) with (z :: <[i := y]> l). specialize (IH i Hi). cbn. unfold id in *. lia.
Qed.

Lemma sum_list_in l (i x : nat) : l !! i = Some x -> (x <= sum_list l)%nat.
Proof. intros Hi. pose proof (sum_list_insert l i x 0 Hi). lia. Qed.

(** ** The invariant *)
Section packets.
Context {qs : Queues} {P : Type} `{PoolLaws P}.
Implicit Types st : server P.
Implicit Types T : toks.

(** The states of a slot in which [sendPacketArr] holds no packet of its own. *)
Definition nolot T (fr : nat) (i : Z) : nat :=
  T (Snd i) + T (Taken i) + setups T i + T (Closing i) + T (Own i) + T (New i) + fr.
Definition lot T (fr : nat) (i : Z) (s : SESSION) : list Z :=
  match nolot T fr i with O => take (Z.to_nat (sendCnt s)) (sendPacketArr s) | _ => [] end.
Definition slot_refs T (fr : nat) (i : Z) (s : SESSION) (p : Z) : nat := occ p (sendQ s) + occ p (lot T fr i s).

Definition free_of st (i : Z) : nat := free_count (view_of st) i.
Definition placed st T (p : Z) : nat :=
  sum_list (imap (fun n s => slot_refs T (free_of st (Z.of_nat n)) (Z.of_nat n) s p) (sessionArr st)).
Definition refs st T (p : Z) : nat := T (Pk p) + placed st T p.

(** What somebody knows of the send side of a slot. *)
Definition bat_is T (i : Z) (o : option (list Z * bmode)) : Prop :=
  forall ps m, T (Bat i ps m) = if decide (o = Some (ps, m)) then 1%nat else O.
Definition left_in (m : bmode) : nat := match m with Fill n | Popped _ n | Hole n => n | Old => O end.
Definition bat_ok (o : option (list Z * bmode)) (k : nat) (s : SESSION) : Prop :=
  match o with
  | None => True
  | Some (ps, m) => (0 < k)%nat /\ ps `prefix_of` sendPacketArr s /\ (reliable = true -> left_in m <= length (sendQ s))%nat
  end.
Definition bat_users T (i : Z) : nat := T (Snd i) + T (Load i) + T (Taken i) + T (Closing i).

Record slot_ok T (fr : nat) (i : Z) (s : SESSION) : Prop := mkSlot {
  so_none : (0 < T (Snd i) + T (Ready i))%nat -> sendCnt s = 0;
  so_lot : nolot T fr i = O ->
    0 <= sendCnt s <= Z.of_nat (length (sendPacketArr s)) /\ (sendFlag s <> 1 -> sendCnt s = 0);
  so_empty : (0 < T (Drained i) + T (Closing i) + T (Own i) + T (New i) + fr)%nat -> reliable = true -> sendQ s = [];
  so_bat : exists o, bat_is T i o /\ bat_ok o (bat_users T i) s;
}.

Record pinv st T : Prop := mkPinv {
  p_ok : reliable = true -> pool_ok (pool st);
  p_count : reliable = true -> forall p, CNetPacket.refCount (packets st p) = Z.of_nat (refs st T p);
  p_live : reliable = true -> forall p, p ∈ pool_live (pool st) <-> (0 < refs st T p + T (Raw p))%nat;
  p_raw : reliable = true -> forall p, has T (Raw p) -> T (Raw p) = 1%nat /\ refs st T p = O;
  p_slot : forall i s, get_session st i = Ok s -> slot_ok T (free_of st i) i s;
}.

(** ** What the invariant depends on *)
Definition pkt_rel (x : tok) : bool :=
  match x with
  | Snd _ | Load _ | Taken _ | Setup _ | Ready _ | Drained _ | Closing _ | Own _ | New _ | Bat _ _ _ | Pk _ | Raw _ => true
  | _ => false
  end.
Definition send_side (s : SESSION) : Z * Z * list Z * list Z := (sendFlag s, sendCnt s, sendQ s, sendPacketArr s).

Lemma slot_parts T T' fr fr' i s s' :
  (forall x, tok_slot x = Some i -> pkt_rel x = true -> T x = T' x) -> fr = fr' -> send_side s = send_side s' ->
  (forall p, slot_refs T' fr' i s' p = slot_refs T fr i s p) /\ (slot_ok T fr i s -> slot_ok T' fr' i s').
Proof.
  intros E -> [= E1 E2 E3 E4]. assert (En : nolot T' fr' i = nolot T fr' i).
  { unfold nolot, setups. rewrite !E by done. done. }
  split; [intros p; unfold slot_refs, lot; rewrite En, E2, E3, E4; done|].
  intros [S1 S2 S3 (o & So & Sk)].
  assert (Eu : bat_users T' i = bat_users T i) by (unfold bat_users; rewrite !E by done; done).
  split; rewrite ?En, <- ?E1, <- ?E2, <- ?E3, <- ?E4, <- ?E by done; try done.
  exists o. split; [intros ps n; rewrite <- E by done; apply So|].
  rewrite Eu. unfold bat_ok in *. destruct o as [[ps n]|]; [|done]. rewrite <- ?E3, <- ?E4. done.
Qed.

Lemma get_session_spec st i s :
  get_session st i = Ok s <-> 0 <= i /\ sessionArr st !! Z.to_nat i = Some s.
Proof.
  unfold get_session. destruct (i <? 0) eqn:Hi; b2p; [split; [done|lia]|].
  destruct (sessionArr st !! Z.to_nat i); split; naive_solver.
Qed.

Lemma placed_slot st T p i s :
  get_session st i = Ok s -> (slot_refs T (free_of st i) i s p <= placed st T p)%nat.
Proof.
  intros [Hi Hs]%get_session_spec. apply sum_list_in with (i := Z.to_nat i).
  rewrite list_lookup_imap, Hs. cbn. rewrite Z2Nat.id by done. done.
Qed.

Lemma placed_none st T p :
  (forall i s, get_session st i = Ok s -> slot_refs T (free_of st i) i s p = O) -> placed st T p = O.
Proof.
  intros Hz. unfold placed. set (l := imap _ _). assert (Hl : Forall (fun n => n = O) l).
  { apply Forall_lookup_2. intros n x Hx. subst l. rewrite list_lookup_imap in Hx.
    destruct (sessionArr st !! n) as [s|] eqn:Hs; [|done]. injection Hx as <-. apply Hz, get_session_spec.
    rewrite Nat2Z.id. split; [lia|done]. }
  clear -Hl. induction Hl as [|n l -> _ IH]; done.
Qed.

(** Another state with the same packets and send sides, and tokens that do not matter here. *)
Lemma pinv_ext st st' T T' :
  pinv st T -> (forall x, pkt_rel x = true -> T x = T' x) ->
  send_side <$> sessionArr st' = send_side <$> sessionArr st ->
  freeSessionStack st' = freeSessionStack st ->
  (forall p, CNetPacket.refCount (packets st' p) = CNetPacket.refCount (packets st p)) -> pool st' = pool st ->
  pinv st' T'.
Proof.
  intros [] E Ea Ef Ep Eo.
  assert (Hfr : forall i, free_of st' i = free_of st i) by (intros i; unfold free_of, free_count; cbn; rewrite Ef; done).
  assert (Hn : forall n s', sessionArr st' !! n = Some s' ->
    exists s, sessionArr st !! n = Some s /\ send_side s = send_side s').
  { intros n s' Hs. apply (f_equal (fun l => l !! n)) in Ea. rewrite !list_lookup_fmap, Hs in Ea. cbn in Ea.
    destruct (sessionArr st !! n) as [s|]; [|done]. injection Ea as E1 E2 E3 E4. exists s. unfold send_side. split; congruence. }
  assert (Hp : forall p, placed st' T' p = placed st T p).
  { intros p. unfold placed. f_equal. apply list_eq. intros n. rewrite !list_lookup_imap.
    destruct (sessionArr st' !! n) as [s'|] eqn:Hs.
    - destruct (Hn _ _ Hs) as (s & -> & Es). cbn. f_equal.
      apply (slot_parts T T' (free_of st (Z.of_nat n)) (free_of st' (Z.of_nat n)) (Z.of_nat n) s s');
        [intros; apply E; done|rewrite Hfr; done|done].
    - apply (f_equal (fun l => l !! n)) in Ea. rewrite !list_lookup_fmap, Hs in Ea.
      destruct (sessionArr st !! n); done. }
  assert (Hr : forall p, refs st' T' p = refs st T p) by (intros p; unfold refs; rewrite Hp, E by done; done).
  split; rewrite ?Eo; try done.
  - intros Hrel p. rewrite Hr, Ep. auto.
  - intros Hrel p. rewrite Hr, <- E by done. auto.
  - intros Hrel p. unfold has. rewrite Hr, <- E by done. apply p_raw0, Hrel.
  - intros i s' Hs. apply get_session_spec in Hs as [Hi Hs]. destruct (Hn _ _ Hs) as (s & Hs0 & Es).
    rewrite Hfr. apply (slot_parts T T' (free_of st i) _ i s s'); [intros; apply E; done|done|done|].
    apply p_slot0, get_session_spec. done.
Qed.

(** One slot changes, and the packets it refers to go to threads or come from them. *)
Lemma pinv_slot st st' T T' i s s' :
  pinv st T -> get_session st i = Ok s -> sessionArr st' = <[Z.to_nat i := s']> (sessionArr st) ->
  (forall p, CNetPacket.refCount (packets st' p) = CNetPacket.refCount (packets st p)) -> pool st' = pool st ->
  (forall j, j <> i -> free_of st' j = free_of st j) ->
  (forall x j, tok_slot x = Some j -> j <> i -> T' x = T x) -> (forall p, T' (Raw p) = T (Raw p)) ->
  (forall p, T' (Pk p) + slot_refs T' (free_of st' i) i s' p = T (Pk p) + slot_refs T (free_of st i) i s p)%nat ->
  slot_ok T' (free_of st' i) i s' -> pinv st' T'.
Proof.
  intros [] [Hi Hs]%get_session_spec Ea Ep Eo Hfr E Eraw Hbal Hok.
  assert (Ho : forall j t, j <> i ->
    (forall p, slot_refs T' (free_of st' j) j t p = slot_refs T (free_of st j) j t p) /\
    (slot_ok T (free_of st j) j t -> slot_ok T' (free_of st' j) j t)).
  { intros j t Hj. apply slot_parts; [intros; symmetry; eapply E; done|symmetry; auto|done]. }
  assert (Hr : forall p, refs st' T' p = refs st T p).
  { intros p. unfold refs. specialize (Hbal p).
    assert (Hpl : (placed st' T' p + slot_refs T (free_of st i) i s p =
      placed st T p + slot_refs T' (free_of st' i) i s' p)%nat); [|lia].
    unfold placed. set (l := imap _ (sessionArr st)). set (l' := imap _ (sessionArr st')).
    assert (Hx : l !! Z.to_nat i = Some (slot_refs T (free_of st i) i s p)).
    { subst l. rewrite list_lookup_imap, Hs. cbn. rewrite Z2Nat.id by done. done. }
    assert (El : l' = <[Z.to_nat i := slot_refs T' (free_of st' i) i s' p]> l).
    { apply list_eq. intros n. subst l'. rewrite list_lookup_imap, Ea. destruct (decide (n = Z.to_nat i)) as [->|Hn].
      - rewrite !list_lookup_insert_eq by eauto using lookup_lt_Some. cbn. rewrite Z2Nat.id by done. done.
      - rewrite !list_lookup_insert_ne by done. subst l. rewrite list_lookup_imap.
        destruct (sessionArr st !! n) as [t|]; [|done]. cbn. f_equal. apply (Ho (Z.of_nat n) t). lia. }
    rewrite El. apply (sum_list_insert _ _ _ _ Hx). }
  split; rewrite ?Eo; try done.
  - intros Hrel p. rewrite Hr, Ep. auto.
  - intros Hrel p. rewrite Hr, Eraw. auto.
  - intros Hrel p. unfold has. rewrite Hr, Eraw. apply p_raw0, Hrel.
  - intros j t Ht. apply get_session_spec in Ht as [Hj Ht]. rewrite Ea in Ht.
    destruct (decide (j = i)) as [->|Hn].
    + rewrite list_lookup_insert_eq in Ht by eauto using lookup_lt_Some. injection Ht as <-. done.
    + rewrite list_lookup_insert_ne in Ht by lia. apply (Ho j t Hn), p_slot0, get_session_spec. done.
Qed.

(** When the queues are not reliable only the slots matter. *)
Lemma pinv_unreliable st T :
  reliable = false -> (forall i s, get_session st i = Ok s -> slot_ok T (free_of st i) i s) -> pinv st T.
Proof. intros Hrel Hs. split; [congruence..|exact Hs]. Qed.

Lemma pinv_loose st st' T T' :
  pinv st T -> reliable = false -> sessionArr st' = sessionArr st -> freeSessionStack st' = freeSessionStack st ->
  (forall x, tok_slot x <> None -> T' x = T x) -> pinv st' T'.
Proof.
  intros [] Hrel Ea Ef E. apply pinv_unreliable; [exact Hrel|]. intros i s Hs.
  apply (slot_parts T T' (free_of st i) (free_of st' i) i s s).
  - intros x Hx _. symmetry. apply E. rewrite Hx. done.
  - unfold free_of, free_count. cbn. rewrite Ef. done.
  - done.
  - apply p_slot0. unfold get_session in *. rewrite <- Ea. exact Hs.
Qed.

(** One packet changes hands between threads and the pool. *)
Lemma pinv_packet st st' T T' p :
  pinv st T -> sessionArr st' = sessionArr st -> freeSessionStack st' = freeSessionStack st ->
  (reliable = true -> pool_ok (pool st')) ->
  (forall x, x <> Pk p -> x <> Raw p -> T' x = T x) ->
  (forall q, q <> p -> CNetPacket.refCount (packets st' q) = CNetPacket.refCount (packets st q)) ->
  (forall q, q <> p -> q ∈ pool_live (pool st') <-> q ∈ pool_live (pool st)) ->
  CNetPacket.refCount (packets st' p) = Z.of_nat (T' (Pk p) + placed st T p) ->
  (p ∈ pool_live (pool st') <-> (0 < T' (Pk p) + placed st T p + T' (Raw p))%nat) ->
  (has T' (Raw p) -> T' (Raw p) = 1%nat /\ (T' (Pk p) + placed st T p = O)%nat) ->
  pinv st' T'.
Proof.
  intros [] Ea Ef Hok E Ep Hl Hc Hlp Hr.
  assert (Hfr : forall i, free_of st' i = free_of st i) by (intros i; unfold free_of, free_count; cbn; rewrite Ef; done).
  assert (Hs : forall i s, (forall q, slot_refs T' (free_of st' i) i s q = slot_refs T (free_of st i) i s q) /\
    (slot_ok T (free_of st i) i s -> slot_ok T' (free_of st' i) i s)).
  { intros i s. apply slot_parts; [intros x Hx _; symmetry; apply E; intros ->; done|rewrite Hfr; done|done]. }
  assert (Hpl : forall q, placed st' T' q = placed st T q).
  { intros q. unfold placed. rewrite Ea. f_equal. apply imap_ext. intros n s _. apply Hs. }
  assert (Hq : forall q, q <> p -> refs st' T' q = refs st T q).
  { intros q Hq. unfold refs. rewrite Hpl, E by congruence. done. }
  split; try done; try (intros Hrel q; destruct (decide (q = p)) as [->|Hn]).
  - unfold refs. rewrite Hpl. done.
  - rewrite Hq, Ep by done. auto.
  - unfold refs. rewrite Hpl. done.
  - rewrite Hq, Hl, E by (done || congruence). auto.
  - unfold refs. rewrite Hpl. done.
  - rewrite Hq by done. unfold has. rewrite E by congruence. apply p_raw0, Hrel.
  - intros q t [Hi Hg]%get_session_spec; rewrite Ea in Hg; apply Hs, p_slot0, get_session_spec; done.
Qed.

(** No packet is in use, and the slots are free. *)
Lemma pinv_initial st :
  (forall p, CNetPacket.refCount (packets st p) = 0) -> pool_ok (pool st) -> pool_live (pool st) = ∅ ->
  (forall i s, get_session st i = Ok s -> sendQ s = [] /\ (0 < free_of st i)%nat) -> pinv st (fun _ => O).
Proof.
  intros Hc Hok Hl Hs.
  assert (Hp : forall p, refs st (fun _ => O) p = O).
  { intros p. apply placed_none. intros i s Hg. destruct (Hs _ _ Hg) as [Hq Hf]. unfold slot_refs, lot, nolot.
    rewrite Hq. destruct (free_of st i); [lia|]. rewrite <- plus_n_Sm. done. }
  split; [done|intros _ p; rewrite Hp; apply Hc|intros _ p; rewrite Hl, Hp; split; [intros []%not_elem_of_empty|lia]|
    intros _ p Hr; unfold has in Hr; lia|].
  intros i s Hg. destruct (Hs _ _ Hg) as [Hq Hf]. split.
  - cbn. lia.
  - unfold nolot. lia.
  - done.
  - exists None. split; [done|done].
Qed.

(** ** The changes of the send side

    [solo]: of the rights to send, those who set a slot up, its owners and its place on the
    free stack there is one in total. *)
Definition solo st T (i : Z) : Prop := (senders T i + setups T i + owners T i + free_of st i <= 1)%nat.

Lemma bat_held T R i o ps n :
  bat_is T i o -> below R T -> has R (Bat i ps n) -> o = Some (ps, n) /\ R (Bat i ps n) = 1%nat.
Proof.
  intros Ho Hb Hr. specialize (Ho ps n). specialize (Hb (Bat i ps n)). unfold has in Hr.
  case_decide; [subst; split; [done|lia]|lia].
Qed.

Lemma bat_none T i o k s : bat_is T i o -> bat_ok o k s -> k = O -> o = None.
Proof. intros _ Hk ->. destruct o as [[ps n]|]; [cbn in Hk; lia|done]. Qed.

(** The tokens of other slots, and those about packets nobody has. *)
Definition only_slot T T' (i : Z) : Prop :=
  (forall x j, tok_slot x = Some j -> j <> i -> T' x = T x) /\ (forall p, T' (Raw p) = T (Raw p)).

(** The session of slot [i] changes. *)
Lemma pinv_set st T T' i s s' :
  pinv st T -> get_session st i = Ok s -> only_slot T T' i ->
  (forall p, T' (Pk p) + slot_refs T' (free_of st i) i s' p = T (Pk p) + slot_refs T (free_of st i) i s p)%nat ->
  slot_ok T' (free_of st i) i s' -> pinv (set_session st i s') T'.
Proof. intros Hp Hs [E1 E2] Hb Hok. eapply (pinv_slot st _ T T' i s s'); done. Qed.

(** Only what somebody may do with the slot changes. *)
Lemma pinv_same st st' T T' i s :
  pinv st T -> get_session st i = Ok s -> sessionArr st' = sessionArr st -> packets st' = packets st ->
  pool st' = pool st -> (forall j, j <> i -> free_of st' j = free_of st j) -> only_slot T T' i ->
  (forall p, T' (Pk p) + slot_refs T' (free_of st' i) i s p = T (Pk p) + slot_refs T (free_of st i) i s p)%nat ->
  slot_ok T' (free_of st' i) i s -> pinv st' T'.
Proof.
  intros Hp Hs Ea Ep Eo Hfr [E1 E2] Hb Hok. eapply (pinv_slot st st' T T' i s s); try done.
  - rewrite Ea. symmetry. apply list_insert_id, get_session_spec, Hs.
  - rewrite Ep. done.
Qed.

(** The session changes in what does not matter here. *)
Lemma pinv_core st T T' i s s' :
  pinv st T -> get_session st i = Ok s -> send_side s' = send_side s ->
  (forall x, pkt_rel x = true -> T x = T' x) -> pinv (set_session st i s') T'.
Proof.
  intros Hp [_ Hs]%get_session_spec Es E. eapply pinv_ext; try done. cbn.
  rewrite list_fmap_insert, Es. apply list_insert_id. rewrite list_lookup_fmap, Hs. done.
Qed.

Lemma lot_some T fr i s : nolot T fr i = O -> lot T fr i s = take (Z.to_nat (sendCnt s)) (sendPacketArr s).
Proof. unfold lot. intros ->. done. Qed.
Lemma lot_none T fr i s : (0 < nolot T fr i)%nat -> lot T fr i s = [].
Proof. unfold lot. destruct (nolot T fr i); [lia|done]. Qed.
Lemma lot_zero T fr i s : sendCnt s = 0 -> lot T fr i s = [].
Proof. unfold lot. intros ->. destruct (nolot T fr i); done. Qed.

End packets.

(** The tactics know [solo] and [below], and what a thread holds. *)
Ltac nums := unfold nolot, bat_users, solo in *; cbn [left_in] in *; tok.
Ltac only_this :=
  split; [slot_tokens | intros ?p; apply swap_same; [assumption|]; unfold tadd, tsub, tclr, pks, unpks;
    repeat (rewrite decide_False by discriminate); reflexivity].
Ltac bats :=
  let ps := fresh in let n := fresh in intros ps n;
  match goal with
  | Ho : bat_is ?T ?i _, Hb : below _ ?T |- _ =>
      let H := fresh in pose proof (Ho ps n) as H; pose proof (Hb (Bat i ps n))
  end;
  unfold swap, tadd, tsub, tclr, pks, unpks, has in *; repeat case_decide; simplify_eq; try done; lia.
Ltac vacuous := let H := fresh in intros H; exfalso; nums.
Ltac side_of := cbn [sendCnt sendFlag sendQ sendPacketArr with_send] in *.

Section changes.
Context {qs : Queues} {P : Type} `{PoolLaws P}.
Implicit Types st : server P.
Implicit Types T : toks.

(** A thread gets the send flag: there is nothing to send yet. *)
Lemma pinv_take_send st T R i s n :
  pinv st T -> below R T -> solo st T i -> (senders T i = O)%nat -> (owners T i + free_of st i + setups T i = O)%nat ->
  has R (Ful i) -> get_session st i = Ok s -> sendFlag s <> 1 ->
  pinv (set_session st i (with_send s n (sendCnt s) (sendQ s) (sendPacketArr s)))
    (swap T R (tadd (Bat i [] (Fill 0)) (tadd (Snd i) (tsub (Ful i) R)))).
Proof.
  intros Hp Hb Hone Hsn How Hr Hs Hf. destruct (p_slot _ _ Hp _ _ Hs) as [S1 S2 S3 (o & Ho & Hk)].
  destruct S2 as [S2 S2']; [nums|]. specialize (S2' Hf).
  apply (bat_none _ _ _ _ _ Ho) in Hk as ->; [|nums].
  eapply pinv_set; [exact Hp|exact Hs|only_this| |].
  - intros p. unfold slot_refs. rewrite !lot_zero by done. side_of. nums.
  - split; side_of; [done|vacuous|vacuous|].
    exists (Some ([], Fill O)). split; [bats|]. split; [nums|]. split; [apply prefix_nil|cbn; lia].
Qed.

(** It gives the flag back, with nothing to send. *)
Lemma pinv_give_send st T R i s ps n :
  pinv st T -> below R T -> solo st T i -> has R (Snd i) -> has R (Bat i ps n) -> get_session st i = Ok s ->
  pinv (set_session st i (with_send s 0 (sendCnt s) (sendQ s) (sendPacketArr s)))
    (swap T R (tsub (Bat i ps n) (tadd (Ful i) (tsub (Snd i) R)))).
Proof.
  intros Hp Hb Hone Hr Hba Hs. destruct (p_slot _ _ Hp _ _ Hs) as [S1 S2 S3 (o & Ho & Hk)].
  destruct (bat_held _ _ _ _ _ _ Ho Hb Hba) as [-> Hu].
  assert (S0 : sendCnt s = 0) by (apply S1; nums).
  eapply pinv_set; [exact Hp|exact Hs|only_this| |].
  - intros p. unfold slot_refs. rewrite !lot_zero by done. side_of. nums.
  - split; side_of; [done|intros _; rewrite S0; split; [lia|done]|vacuous|].
    exists None. split; [bats|done].
Qed.

(** The flag is reset while the slot is set up. *)
Lemma pinv_reset_send st T i s :
  pinv st T -> (0 < setups T i)%nat -> get_session st i = Ok s ->
  pinv (set_session st i (with_send s 0 (sendCnt s) (sendQ s) (sendPacketArr s))) T.
Proof.
  intros Hp Hr Hs. destruct (p_slot _ _ Hp _ _ Hs) as [S1 S2 S3 (o & Ho & Hk)].
  eapply pinv_set; [exact Hp|exact Hs|done|done|].
  split; side_of; try done; [unfold nolot; lia|]. exists o. split; [done|]. destruct o as [[ps n]|]; done.
Qed.

(** The count is reset: there, or by a thread that has taken the packets over. *)
Lemma pinv_reset_count st T R i s x y :
  pinv st T -> below R T -> solo st T i -> (x = Taken i /\ y = Snd i) \/ (x = Setup i /\ y = Ready i) ->
  has R x -> get_session st i = Ok s ->
  pinv (set_session st i (with_send s (sendFlag s) 0 (sendQ s) (sendPacketArr s))) (swap T R (tadd y (tsub x R))).
Proof.
  intros Hp Hb Hone Hxy Hr Hs. destruct (p_slot _ _ Hp _ _ Hs) as [S1 S2 S3 (o & Ho & Hk)].
  destruct Hxy as [[-> ->]|[-> ->]].
  all: eapply pinv_set; [exact Hp|exact Hs|only_this| |].
  1,3: intros p; unfold slot_refs; rewrite !lot_none by nums; side_of; nums.
  all: split; side_of; [done|vacuous|vacuous|]; exists o; (split; [bats|]);
    destruct o as [[ps n]|]; [|done]; destruct Hk as (Hk & ? & ?); (split; [nums|done]).
Qed.

(** The count is read by the thread whose send has ended, or that releases the slot: it
    takes over the packets. *)
Lemma pinv_take_over st T R i s x y :
  pinv st T -> below R T -> solo st T i -> (x = Sent i /\ y = Taken i) \/ (x = Drained i /\ y = Closing i) ->
  has R x -> get_session st i = Ok s ->
  exists ps, sendCnt s = Z.of_nat (length ps) /\
    pinv st (swap T R (pks ps (tadd (Bat i ps Old) (tadd y (tsub x R))))).
Proof.
  intros Hp Hb Hone Hxy Hr Hs. destruct (p_slot _ _ Hp _ _ Hs) as [S1 S2 S3 (o & Ho & Hk)].
  assert (Hn : nolot T (free_of st i) i = O) by (destruct Hxy as [[-> ->]|[-> ->]]; nums).
  destruct (S2 Hn) as [Hc _]. set (ps := take (Z.to_nat (sendCnt s)) (sendPacketArr s)). exists ps.
  split; [subst ps; rewrite length_take; lia|].
  apply (bat_none _ _ _ _ _ Ho) in Hk as ->; [|destruct Hxy as [[-> ->]|[-> ->]]; nums].
  assert (Hpre : ps `prefix_of` sendPacketArr s) by (apply prefix_take).
  assert (Hlot : forall p, occ p (lot T (free_of st i) i s) = occ p ps) by (intros p; rewrite lot_some by done; done).
  destruct Hxy as [[-> ->]|[-> ->]].
  all: eapply pinv_same; [exact Hp|exact Hs|done..|only_this| |].
  1,3: intros p; unfold slot_refs; rewrite Hlot, lot_none, occ_nil by nums; nums.
  all: split; [vacuous|vacuous| |exists (Some (ps, Old)); split; [bats|split; [nums|split; [exact Hpre|cbn; lia]]]].
  - vacuous.
  - intros _. apply S3. nums.
Qed.

(** The count is set by the thread that has filled [sendPacketArr]: it lets the packets go. *)
Lemma pinv_set_count st T R i s ps n :
  pinv st T -> below R T -> solo st T i -> has R (Snd i) -> has R (Bat i ps (Fill n)) -> sendFlag s = 1 ->
  (forall p, occ p ps <= R (Pk p))%nat -> get_session st i = Ok s ->
  pinv (set_session st i (with_send s (sendFlag s) (Z.of_nat (length ps)) (sendQ s) (sendPacketArr s)))
    (swap T R (unpks ps (tadd (Load i) (tsub (Snd i) R)))).
Proof.
  intros Hp Hb Hone Hr Hba Hf Hoc Hs. destruct (p_slot _ _ Hp _ _ Hs) as [S1 S2 S3 (o & Ho & Hk)].
  destruct (bat_held _ _ _ _ _ _ Ho Hb Hba) as [-> Hu]. destruct Hk as (_ & [tl Hpre] & Hl).
  eapply pinv_set; [exact Hp|exact Hs|only_this| |].
  - intros p. specialize (Hoc p). unfold slot_refs. rewrite (lot_none T), occ_nil by nums. rewrite lot_some by nums. side_of.
    rewrite Nat2Z.id, Hpre, take_app_length. nums.
  - split; side_of; [vacuous| |vacuous|exists (Some (ps, Fill n)); split; [bats|split; [nums|split; [exists tl; exact Hpre|exact Hl]]]].
    intros _. rewrite Hpre, length_app. split; [lia|congruence].
Qed.

(** The packets are handed to the operating system, or cannot be. *)
Lemma pinv_posted st T R i s ps m b :
  pinv st T -> below R T -> has R (Load i) -> has R (Bat i ps m) -> get_session st i = Ok s ->
  pinv st (swap T R (let R := tsub (Load i) (tsub (Bat i ps m) R) in if b : bool then R else tadd (Ful i) R)).
Proof.
  intros Hp Hb Hr Hba Hs. destruct (p_slot _ _ Hp _ _ Hs) as [S1 S2 S3 (o & Ho & Hk)].
  destruct (bat_held _ _ _ _ _ _ Ho Hb Hba) as [-> Hu]. cbv zeta.
  set (T' := swap _ _ _). assert (En : forall fr, nolot T' fr i = nolot T fr i) by (subst T'; intros; destruct b; nums).
  eapply pinv_same; [exact Hp|exact Hs|done..|subst T'; destruct b; only_this| |].
  - intros p. unfold slot_refs, lot. rewrite En. subst T'. destruct b; nums.
  - split; rewrite ?En; [| exact S2| |exists None; split; [subst T'; destruct b; bats|done]].
    + intros Hx. apply S1. revert Hx. subst T'. destruct b; nums.
    + intros Hx. apply S3. revert Hx. subst T'. destruct b; nums.
Qed.

(** The thread with the right to send learns of some of the packets in the queue. *)
Lemma pinv_count_queue st T R i s ps n m :
  pinv st T -> below R T -> has R (Snd i) -> has R (Bat i ps (Fill n)) -> get_session st i = Ok s ->
  (m <= length (sendQ s))%nat ->
  pinv st (swap T R (tadd (Bat i ps (Fill m)) (tsub (Bat i ps (Fill n)) R))).
Proof.
  intros Hp Hb Hr Hba Hs Hm. destruct (p_slot _ _ Hp _ _ Hs) as [S1 S2 S3 (o & Ho & Hk)].
  destruct (bat_held _ _ _ _ _ _ Ho Hb Hba) as [-> Hu]. destruct Hk as (_ & Hpre & _).
  assert (En : forall fr, nolot (swap T R (tadd (Bat i ps (Fill m)) (tsub (Bat i ps (Fill n)) R))) fr i = nolot T fr i) by (intros; nums).
  eapply pinv_same; [exact Hp|exact Hs|done..|only_this| |].
  - intros p. unfold slot_refs, lot. rewrite En. nums.
  - split; rewrite ?En; [| exact S2| |].
    + intros Hx. apply S1. revert Hx. nums.
    + intros Hx. apply S3. revert Hx. nums.
    + exists (Some (ps, Fill m)). split; [bats|]. split; [nums|]. split; [exact Hpre|cbn; lia].
Qed.

(** A packet is put into the queue. *)
Lemma pinv_enqueue st T R i s p :
  pinv st T -> below R T -> (owners T i + free_of st i = O)%nat -> has R (Pk p) -> get_session st i = Ok s ->
  pinv (set_session st i (with_send s (sendFlag s) (sendCnt s) (sendQ s ++ [p]) (sendPacketArr s)))
    (swap T R (tsub (Pk p) R)).
Proof.
  intros Hp Hb How Hr Hs. destruct (p_slot _ _ Hp _ _ Hs) as [S1 S2 S3 (o & Ho & Hk)].
  assert (En : forall fr, nolot (swap T R (tsub (Pk p) R)) fr i = nolot T fr i) by (intros; nums).
  eapply pinv_set; [exact Hp|exact Hs|only_this| |].
  - intros q. unfold slot_refs, lot. rewrite En. side_of. rewrite occ_app, occ_cons, occ_nil.
    destruct (decide (p = q)) as [->|]; nums.
  - split; rewrite ?En; side_of; [|exact S2|vacuous|].
    + intros Hx. apply S1. revert Hx. nums.
    + exists o. split; [bats|]. destruct o as [[ps n]|]; [|done]. destruct Hk as (Hk & Hpre & Hl).
      split; [nums|]. split; [done|]. side_of. rewrite length_app. intros Hrel. specialize (Hl Hrel). lia.
Qed.

(** The thread with the right to send takes a packet out of the queue. *)
Lemma pinv_dequeue st T R i s ps n p q :
  pinv st T -> below R T -> has R (Snd i) -> has R (Bat i ps (Fill (S n))) -> get_session st i = Ok s -> sendQ s = p :: q ->
  pinv (set_session st i (with_send s (sendFlag s) (sendCnt s) q (sendPacketArr s)))
    (swap T R (tadd (Pk p) (tadd (Bat i ps (Popped p n)) (tsub (Bat i ps (Fill (S n))) R)))).
Proof.
  intros Hp Hb Hr Hba Hs Hq. destruct (p_slot _ _ Hp _ _ Hs) as [S1 S2 S3 (o & Ho & Hk)].
  destruct (bat_held _ _ _ _ _ _ Ho Hb Hba) as [-> Hu]. destruct Hk as (_ & Hpre & Hl). rewrite Hq in Hl. cbn [left_in length] in Hl.
  assert (En : forall fr, nolot (swap T R (tadd (Pk p) (tadd (Bat i ps (Popped p n)) (tsub (Bat i ps (Fill (S n))) R)))) fr i = nolot T fr i) by (intros; nums).
  eapply pinv_set; [exact Hp|exact Hs|only_this| |].
  - intros r. unfold slot_refs, lot. rewrite En. side_of. rewrite Hq, occ_cons.
    destruct (decide (p = r)) as [->|]; nums.
  - split; rewrite ?En; side_of; [|exact S2| |].
    + intros Hx. apply S1. revert Hx. nums.
    + intros Hx Hrel. exfalso. rewrite S3 in Hq; [done| |exact Hrel]. revert Hx. nums.
    + exists (Some (ps, Popped p n)). split; [bats|]. split; [nums|]. side_of. split; [exact Hpre|intros Hrel; specialize (Hl Hrel); cbn; lia].
Qed.

(** The release takes a packet out of the queue, or finds it empty. *)
Lemma pinv_drain st T R i s p q :
  pinv st T -> below R T -> solo st T i -> has R (Rel i) -> get_session st i = Ok s -> sendQ s = p :: q ->
  pinv (set_session st i (with_send s (sendFlag s) (sendCnt s) q (sendPacketArr s))) (swap T R (tadd (Pk p) R)).
Proof.
  intros Hp Hb Hone Hr Hs Hq. destruct (p_slot _ _ Hp _ _ Hs) as [S1 S2 S3 (o & Ho & Hk)].
  assert (En : forall fr, nolot (swap T R (tadd (Pk p) R)) fr i = nolot T fr i) by (intros; nums).
  apply (bat_none _ _ _ _ _ Ho) in Hk as ->; [|nums].
  eapply pinv_set; [exact Hp|exact Hs|only_this| |].
  - intros r. unfold slot_refs, lot. rewrite En. side_of. rewrite Hq, occ_cons.
    destruct (decide (p = r)) as [->|]; nums.
  - split; rewrite ?En; side_of; [|exact S2| |].
    + intros Hx. apply S1. revert Hx. nums.
    + intros Hx Hrel. exfalso. rewrite S3 in Hq; [done| |exact Hrel]. revert Hx. nums.
    + exists None. split; [bats|done].
Qed.

Lemma pinv_drained st T R i s :
  pinv st T -> below R T -> solo st T i -> has R (Rel i) -> get_session st i = Ok s -> sendQ s = [] ->
  pinv st (swap T R (tadd (Drained i) (tsub (Rel i) R))).
Proof.
  intros Hp Hb Hone Hr Hs Hq. destruct (p_slot _ _ Hp _ _ Hs) as [S1 S2 S3 (o & Ho & Hk)].
  assert (En : forall fr, nolot (swap T R (tadd (Drained i) (tsub (Rel i) R))) fr i = nolot T fr i) by (intros; nums).
  apply (bat_none _ _ _ _ _ Ho) in Hk as ->; [|nums].
  eapply pinv_same; [exact Hp|exact Hs|done..|only_this| |].
  - intros r. unfold slot_refs, lot. rewrite En. nums.
  - split; rewrite ?En; [|exact S2|done|].
    + intros Hx. apply S1. revert Hx. nums.
    + exists None. split; [bats|done].
Qed.

(** The next place of [sendPacketArr] is filled. *)
Lemma pinv_fill st T R i s ps n p :
  pinv st T -> below R T -> solo st T i -> has R (Snd i) -> has R (Bat i ps (Popped p n)) -> get_session st i = Ok s ->
  (length ps < length (sendPacketArr s))%nat ->
  pinv (set_session st i (with_send s (sendFlag s) (sendCnt s) (sendQ s) (<[length ps := p]> (sendPacketArr s))))
    (swap T R (tadd (Bat i (ps ++ [p]) (Fill n)) (tsub (Bat i ps (Popped p n)) R))).
Proof.
  intros Hp Hb Hone Hr Hba Hs Hlt. destruct (p_slot _ _ Hp _ _ Hs) as [S1 S2 S3 (o & Ho & Hk)].
  destruct (bat_held _ _ _ _ _ _ Ho Hb Hba) as [-> Hu]. destruct Hk as (_ & [tl Hpre] & Hl).
  eapply pinv_set; [exact Hp|exact Hs|only_this| |].
  - intros r. unfold slot_refs. rewrite !lot_none by nums. side_of. nums.
  - split; side_of; [|vacuous|vacuous|].
    + intros Hx. apply S1. revert Hx. nums.
    + assert (Hne : ps <> ps ++ [p]) by (intros E%(f_equal length); rewrite length_app in E; cbn in E; lia).
      exists (Some (ps ++ [p], Fill n)). split; [bats|]. split; [nums|]. side_of. split; [|exact Hl].
      rewrite Hpre in Hlt |- *. rewrite length_app in Hlt. destruct tl as [|q tl]; [cbn in Hlt; lia|].
      exists tl. rewrite <- (Nat.add_0_r (length ps)), insert_app_r. cbn. rewrite <- app_assoc. done.
Qed.

(** The slot gets its identifier and is set up. *)
Lemma pinv_owned st T R i s x y :
  pinv st T -> below R T -> solo st T i -> (x = Own i /\ y = New i) \/ (x = New i /\ y = Setup i) -> has R x ->
  get_session st i = Ok s -> pinv st (swap T R (tadd y (tsub x R))).
Proof.
  intros Hp Hb Hone Hxy Hr Hs. destruct (p_slot _ _ Hp _ _ Hs) as [S1 S2 S3 (o & Ho & Hk)].
  assert (Hn : o = None) by (apply (bat_none _ _ _ _ _ Ho Hk); destruct Hxy as [[-> ->]|[-> ->]]; nums). subst o.
  destruct Hxy as [[-> ->]|[-> ->]].
  all: eapply pinv_same; [exact Hp|exact Hs|done..|only_this| |].
  1,3: intros r; unfold slot_refs; rewrite !lot_none by nums; nums.
  all: split; [intros Hx; exfalso; revert Hx; nums|vacuous| |exists None; split; [bats|done]].
  - intros _. apply S3. nums.
  - vacuous.
Qed.

(** It is ready, and used or lost. *)
Lemma pinv_ready st T R i s :
  pinv st T -> below R T -> solo st T i -> has R (Ready i) -> get_session st i = Ok s ->
  pinv st (swap T R (tsub (Ready i) R)).
Proof.
  intros Hp Hb Hone Hr Hs. destruct (p_slot _ _ Hp _ _ Hs) as [S1 S2 S3 (o & Ho & Hk)].
  apply (bat_none _ _ _ _ _ Ho) in Hk as ->; [|nums].
  assert (S0 : sendCnt s = 0) by (apply S1; nums).
  eapply pinv_same; [exact Hp|exact Hs|done..|only_this| |].
  - intros r. unfold slot_refs. rewrite !lot_zero by done. nums.
  - split; [done|intros _; rewrite S0; split; [lia|done]|vacuous|exists None; split; [bats|done]].
Qed.

(** It goes to the free stack and comes from it. *)
Lemma free_of_eq st j : free_of st j = count (fun k => k =? j) (freeSessionStack st).
Proof. done. Qed.
Lemma free_of_set st l j : free_of (set_free st l) j = count (fun k => k =? j) l.
Proof. done. Qed.

Lemma pinv_pushed st T R i s ps n :
  pinv st T -> below R T -> solo st T i -> has R (Closing i) -> has R (Bat i ps n) -> get_session st i = Ok s ->
  pinv (set_free st (i :: freeSessionStack st)) (swap T R (tsub (Closing i) (tsub (Bat i ps n) R))).
Proof.
  intros Hp Hb Hone Hr Hba Hs. destruct (p_slot _ _ Hp _ _ Hs) as [S1 S2 S3 (o & Ho & Hk)].
  destruct (bat_held _ _ _ _ _ _ Ho Hb Hba) as [-> Hu].
  assert (Hq : reliable = true -> sendQ s = []) by (apply S3; nums).
  eapply pinv_same; [exact Hp|exact Hs|done|done|done| |only_this| |]; rewrite ?free_of_set, ?count_cons, ?Z.eqb_refl; cbn [ind].
  - intros j Hj. rewrite free_of_set, free_of_eq, count_cons. replace (i =? j) with false by lia. done.
  - intros r. unfold slot_refs. rewrite !lot_none by nums. nums.
  - split; [intros Hx; exfalso; revert Hx; nums|vacuous|done|exists None; split; [bats|done]].
Qed.

Lemma pinv_popped st T R i s l :
  pinv st T -> below R T -> solo st T i -> freeSessionStack st = i :: l -> get_session st i = Ok s ->
  pinv (set_free st l) (swap T R (tadd (Own i) R)).
Proof.
  intros Hp Hb Hone Hf Hs. destruct (p_slot _ _ Hp _ _ Hs) as [S1 S2 S3 (o & Ho & Hk)].
  assert (Efr : free_of st i = S (count (fun k => k =? i) l)).
  { rewrite free_of_eq, Hf, count_cons, Z.eqb_refl. done. }
  assert (Hq : reliable = true -> sendQ s = []) by (apply S3; nums).
  apply (bat_none _ _ _ _ _ Ho) in Hk as ->; [|nums].
  eapply pinv_same; [exact Hp|exact Hs|done|done|done| |only_this| |]; rewrite ?free_of_set.
  - intros j Hj. rewrite free_of_set, free_of_eq, Hf, count_cons. replace (i =? j) with false by lia. done.
  - intros r. unfold slot_refs. rewrite !lot_none by nums. nums.
  - split; [intros Hx; exfalso; revert Hx; nums|vacuous|done|exists None; split; [bats|done]].
Qed.

(** ** The changes of a packet *)
Ltac others := let x := fresh in intros x ? ?; apply swap_same; [assumption|]; unfold tadd, tsub;
  repeat (rewrite decide_False by done); reflexivity.
Ltac counts := unfold refs in *; tok_cases; try lia.

Lemma refs_pos st T R p : below R T -> has R (Pk p) -> (0 < refs st T p)%nat.
Proof. intros Hb Hr. specialize (Hb (Pk p)). unfold refs, has in *. lia. Qed.

(** Nobody has a packet that a thread has for itself. *)
Lemma raw_alone st T R p :
  pinv st T -> reliable = true -> below R T -> has R (Raw p) -> T (Raw p) = 1%nat /\ T (Pk p) = O /\ placed st T p = O.
Proof.
  intros Hp Hrel Hb Hr. destruct (p_raw _ _ Hp Hrel p) as [E1 E2]; [eapply has_below; done|]. unfold refs in E2. lia.
Qed.

(** If the queues are not reliable a change of a packet does not matter. *)
Ltac if_reliable :=
  let Hrel := fresh "Hrel" in
  destruct (decide (reliable = true)) as [Hrel|Hrel%not_true_is_false];
    [|eapply pinv_loose; [eassumption|exact Hrel|done|done|];
      let x := fresh "x" in let Hx := fresh in intros x Hx; split_ifs; repeat case_decide; apply swap_same; try done;
      destruct x; try done; unfold tadd, tsub; repeat case_decide; done].

(** One more reference, or the first. *)
Lemma pinv_add_ref st T R p x pk :
  pinv st T -> below R T -> x = Pk p \/ x = Raw p -> has R x ->
  CNetPacket.refCount (packets st p) + 1 < 2 ^ 31 -> CNetPacket.refCount pk = i32 (CNetPacket.refCount (packets st p) + 1) ->
  pinv (set_packet st p pk) (swap T R (if decide (x = Pk p) then tadd (Pk p) R else tadd (Pk p) (tsub (Raw p) R))).
Proof.
  intros Hp Hb Hx Hr Hlt Hpk. if_reliable.
  pose proof (p_count _ _ Hp Hrel p) as Hc. pose proof (p_live _ _ Hp Hrel p) as Hl.
  rewrite s_small in Hpk by lia. destruct Hx as [->| ->].
  - rewrite decide_True by done. pose proof (refs_pos st _ _ _ Hb Hr).
    eapply pinv_packet; [exact Hp|done|done|apply (p_ok _ _ Hp)|others| |done| | |]; cbn; rewrite ?Z.eqb_refl.
    + intros q Hq. apply Z.eqb_neq in Hq as ->. done.
    + rewrite Hpk, Hc. counts.
    + rewrite Hl. counts.
    + intros Hraw. destruct (p_raw _ _ Hp Hrel p) as [_ Hz]; [revert Hraw; counts|]. lia.
  - rewrite decide_False by done. destruct (raw_alone _ _ _ _ Hp Hrel Hb Hr) as (E1 & E2 & E3).
    eapply pinv_packet; [exact Hp|done|done|apply (p_ok _ _ Hp)|others| |done| | |]; cbn; rewrite ?Z.eqb_refl.
    + intros q Hq. apply Z.eqb_neq in Hq as ->. done.
    + rewrite Hpk, Hc. counts.
    + rewrite Hl. counts.
    + counts.
Qed.

(** One reference less; the last one leaves the packet to the thread. *)
Lemma pinv_drop_ref st T R p pk :
  pinv st T -> below R T -> has R (Pk p) ->
  CNetPacket.refCount (packets st p) + 1 < 2 ^ 31 -> CNetPacket.refCount pk = i32 (CNetPacket.refCount (packets st p) - 1) ->
  pinv (set_packet st p pk)
    (swap T R (if CNetPacket.refCount pk =? 0 then tadd (Raw p) (tsub (Pk p) R) else tsub (Pk p) R)).
Proof.
  intros Hp Hb Hr Hlt Hpk. if_reliable.
  pose proof (p_count _ _ Hp Hrel p) as Hc. pose proof (p_live _ _ Hp Hrel p) as Hl.
  pose proof (refs_pos st _ _ _ Hb Hr) as Hpos. rewrite s_small in Hpk by lia.
  assert (Hraw : T (Raw p) = O).
  { destruct (T (Raw p)) eqn:E; [done|]. destruct (p_raw _ _ Hp Hrel p); [unfold has; lia|lia]. }
  destruct (CNetPacket.refCount pk =? 0) eqn:E; b2p.
  all: eapply pinv_packet; [exact Hp|done|done|apply (p_ok _ _ Hp)|others| |done| | |]; cbn; rewrite ?Z.eqb_refl;
    [intros q Hq; apply Z.eqb_neq in Hq as ->; done|rewrite Hpk, Hc|rewrite Hl|]; counts.
Qed.

(** An update that keeps the count. *)
Lemma pinv_keep st T p pk :
  pinv st T -> CNetPacket.refCount pk = CNetPacket.refCount (packets st p) -> pinv (set_packet st p pk) T.
Proof.
  intros Hp Hpk. eapply pinv_ext; [exact Hp|done|done|done| |done].
  intros q. cbn. destruct (q =? p) eqn:E; [b2p; subst; done|done].
Qed.

(** Packets come from the pool and go back. *)
Lemma pinv_alloc st T R tid p pl :
  pinv st T -> below R T -> pool_alloc tid (pool st) = Ok (p, pl) ->
  pinv (set_pool st pl) (swap T R (tadd (Raw p) R)).
Proof.
  intros Hp Hb Ha. if_reliable.
  pose proof (p_count _ _ Hp Hrel p) as Hc. pose proof (p_live _ _ Hp Hrel p) as Hl.
  destruct (pool_alloc_spec _ _ _ _ (p_ok _ _ Hp Hrel) Ha) as (Hok & Hn & _ & Hlv).
  assert (Hz : (refs st T p + T (Raw p) = O)%nat) by (destruct (decide (0 < refs st T p + T (Raw p))%nat); [tauto|lia]).
  eapply pinv_packet with (p := p); [exact Hp|done|done|intros _; exact Hok|others|done| | | |]; cbn.
  - intros q Hq. rewrite Hlv. set_solver.
  - rewrite Hc. counts.
  - rewrite Hlv. split; [counts|intros _; set_solver].
  - counts.
Qed.

Lemma free_takes st T R tid p :
  pinv st T -> reliable = true -> below R T -> has R (Raw p) ->
  exists pl, pool_free tid (pool st) p = Ok (true, pl) /\ pool_ok pl /\ pool_live pl = pool_live (pool st) ∖ {[p]}.
Proof.
  intros Hp Hrel Hb Hr. destruct (raw_alone _ _ _ _ Hp Hrel Hb Hr) as (E1 & E2 & E3).
  apply (pool_free_live tid (pool st) p (p_ok _ _ Hp Hrel)). apply (p_live _ _ Hp Hrel). lia.
Qed.

Lemma pinv_free st T R tid p b pl :
  pinv st T -> below R T -> has R (Raw p) -> pool_free tid (pool st) p = Ok (b, pl) ->
  pinv (set_pool st pl) (swap T R (tsub (Raw p) R)).
Proof.
  intros Hp Hb Hr Hf. if_reliable.
  pose proof (p_count _ _ Hp Hrel p) as Hc. pose proof (p_live _ _ Hp Hrel p) as Hl.
  destruct (raw_alone _ _ _ _ Hp Hrel Hb Hr) as (E1 & E2 & E3).
  destruct (free_takes _ _ _ tid _ Hp Hrel Hb Hr) as (pl' & Hf' & Hok & Hlv). rewrite Hf in Hf'. injection Hf' as -> ->.
  eapply pinv_packet with (p := p); [exact Hp|done|done|intros _; exact Hok|others|done| | | |]; cbn.
  - intros q Hq. rewrite Hlv. set_solver.
  - rewrite Hc. counts.
  - rewrite Hlv. split; [set_solver|counts].
  - counts.
Qed.

(** An unreliable queue gives nothing although it was said to hold packets; the place of
    [sendPacketArr] that stays as it was is then taken for the next packet. *)
Lemma pinv_hole st T R i s ps n :
  pinv st T -> reliable = false -> below R T -> has R (Bat i ps (Fill (S n))) -> get_session st i = Ok s ->
  pinv st (swap T R (tadd (Bat i ps (Hole n)) (tsub (Bat i ps (Fill (S n))) R))).
Proof.
  intros Hp Hrel Hb Hba Hs. destruct (p_slot _ _ Hp _ _ Hs) as [S1 S2 S3 (o & Ho & Hk)].
  destruct (bat_held _ _ _ _ _ _ Ho Hb Hba) as [-> Hu]. destruct Hk as (Hk & Hpre & _).
  assert (En : forall fr, nolot (swap T R (tadd (Bat i ps (Hole n)) (tsub (Bat i ps (Fill (S n))) R))) fr i = nolot T fr i) by (intros; nums).
  eapply pinv_same; [exact Hp|exact Hs|done..|only_this| |].
  - intros r. unfold slot_refs, lot. rewrite En. nums.
  - split; rewrite ?En; [|exact S2|congruence|].
    + intros Hx. apply S1. revert Hx. nums.
    + exists (Some (ps, Hole n)). split; [bats|]. split; [nums|]. split; [exact Hpre|congruence].
Qed.

Lemma pinv_old_place st T R i s ps n p :
  pinv st T -> reliable = false -> below R T -> has R (Bat i ps (Hole n)) -> get_session st i = Ok s ->
  sendPacketArr s !! length ps = Some p ->
  pinv st (swap T R (tadd (Pk p) (tadd (Bat i (ps ++ [p]) (Fill n)) (tsub (Bat i ps (Hole n)) R)))).
Proof.
  intros Hp Hrel Hb Hba Hs Ha. destruct (p_slot _ _ Hp _ _ Hs) as [S1 S2 S3 (o & Ho & Hk)].
  destruct (bat_held _ _ _ _ _ _ Ho Hb Hba) as [-> Hu]. destruct Hk as (Hk & [tl Hpre] & _).
  set (T' := swap _ _ _). apply pinv_unreliable; [exact Hrel|]. intros j t Ht. destruct (decide (j = i)) as [->|Hn].
  - rewrite Hs in Ht. injection Ht as <-.
    assert (En : forall fr, nolot T' fr i = nolot T fr i) by (subst T'; intros; nums).
    split; rewrite ?En; [|exact S2|congruence|].
    + intros Hx. apply S1. revert Hx. subst T'. nums.
    + exists (Some (ps ++ [p], Fill n)). split; [subst T'; bats|]. split; [subst T'; nums|]. split; [|congruence].
      rewrite Hpre in Ha |- *. rewrite lookup_app_r, Nat.sub_diag in Ha by lia. destruct tl as [|q tl]; [done|].
      injection Ha as ->. exists tl. rewrite <- app_assoc. done.
  - apply (slot_parts T T' (free_of st j) (free_of st j) j t t); [|done|done|apply (p_slot _ _ Hp), Ht].
    intros x Hx _. subst T'. symmetry. apply swap_same; [exact Hb|].
    rewrite (tadd_fact _ _ _ _ Hx), (tadd_slot _ _ _ _ _ Hx Hn), (tsub_slot _ _ _ _ _ Hx Hn) by done. done.
Qed.

(** The queue shows something else. *)
Lemma pinv_any_queue st T i s q :
  pinv st T -> reliable = false -> get_session st i = Ok s ->
  pinv (set_session st i (with_send s (sendFlag s) (sendCnt s) q (sendPacketArr s))) T.
Proof.
  intros Hp Hrel Hs. apply pinv_unreliable; [exact Hrel|]. intros j t [Hj Ht]%get_session_spec. cbn in Ht.
  destruct (decide (j = i)) as [->|Hn].
  - pose proof (proj1 (get_session_spec _ _ _) Hs) as [_ Hl]. rewrite list_lookup_insert_eq in Ht by eauto using lookup_lt_Some. injection Ht as <-.
    destruct (p_slot _ _ Hp _ _ Hs) as [S1 S2 S3 (o & Ho & Hk)]. split; side_of; [exact S1|exact S2|congruence|].
    exists o. split; [exact Ho|]. destruct o as [[ps m]|]; [|done]. destruct Hk as (? & ? & _). split_and!; [done|done|congruence].
  - assert (0 <= i) by (apply get_session_spec in Hs; lia).
    rewrite list_lookup_insert_ne in Ht by lia. apply (p_slot _ _ Hp), get_session_spec. done.
Qed.

End changes.
