(* ===== verification/HistoryLogic.v ===== *)
(** * What was queued and what was sent

    A history of the steps of the server says which packets were put into the send queue
    of a session and which were handed to the operating system, since the slot was set up.
    The third part of the invariant: the packets queued are those sent, then those the
    thread with the right to send has taken out, then those in the queue, in this order. *)
From S2P Require Import Prelude.
From S2P Require Import RingBuffer.
From S2P Require Import NetPacket.
From S2P Require Import ObjectPool.
From S2P Require Import ServerState.
From S2P Require Import NetServer.
From S2P Require Import SessionLogic.
From S2P Require Import PacketLogic.
From stdpp Require Import prelude gmap list.
From Stdlib Require Import ZArith Lia.
Open Scope Z_scope.

(** ** Histories *)
Inductive label := LQueue (i p : Z) | LSend (i : Z) (ps : list Z) | LOpen (i : Z).

Definition act_label {B} (a : act B) : B -> list label :=
  match a in act B return B -> list label with
  | SendQEnqueue i p => fun _ => [LQueue i p]
  | WSASend i bufs => fun r => if started r then [LSend i bufs.*1] else []
  | SetReleaseFlag i _ => fun _ => [LOpen i]
  | _ => fun _ => []
  end.

(** What was queued and what was sent on slot [i] since it was set up. *)
Definition hist_step (i : Z) (h : list Z * list Z) (l : label) : list Z * list Z :=
  match l with
  | LQueue j p => if j =? i then (h.1 ++ [p], h.2) else h
  | LSend j ps => if j =? i then (h.1, h.2 ++ ps) else h
  | LOpen j => if j =? i then ([], []) else h
  end.
Definition history (tr : list label) (i : Z) : list Z * list Z := fold_left (hist_step i) tr ([], []).

Lemma history_app tr l i : history (tr ++ l) i = fold_left (hist_step i) l (history tr i).
Proof. apply fold_left_app. Qed.

Lemma history_other tr l i j :
  Forall (fun x => match x with LQueue k _ | LSend k _ | LOpen k => k = i end) l -> j <> i ->
  history (tr ++ l) j = history tr j.
Proof.
  intros Hl Hj. rewrite history_app. generalize (history tr j). induction Hl as [|x l Hx _ IH]; intros h; [done|].
  cbn. rewrite IH. destruct x; cbn; subst; replace (i =? j) with false by lia; done.
Qed.

(** ** The invariant *)

(** What was taken out of the queue and not yet sent. *)
Definition taken_out (o : option (list Z * bmode)) : list Z :=
  match o with Some (ps, Fill _) => ps | Some (ps, Popped p _) => ps ++ [p] | _ => [] end.

Lemma bat_unique T i o o' : bat_is T i o -> bat_is T i o' -> o = o'.
Proof.
  intros H1 H2. destruct o as [[ps m]|].
  - specialize (H1 ps m). specialize (H2 ps m). rewrite decide_True in H1 by done. case_decide; [done|lia].
  - destruct o' as [[ps m]|]; [|done]. specialize (H1 ps m). specialize (H2 ps m).
    rewrite decide_False in H1 by done. rewrite decide_True in H2 by done. lia.
Qed.

Section histories.
Context {P : Type} `{PoolLaws P}.
Implicit Types st : server P.
Implicit Types T : toks.

Definition sending_of st (i : Z) : nat := sending (view_of st) i.

Record hslot T (n : nat) (h : list Z * list Z) (i : Z) (s : SESSION) : Prop := mkHslot {
  h_setup : (0 < setups T i)%nat -> h.1 = [];
  h_eq : exists x, h.1 = h.2 ++ x ++ sendQ s /\
    (forall o, bat_is T i o -> sendFlag s <> 1 \/ (0 < senders T i + n)%nat -> x = taken_out o);
}.

Definition hinv tr st T : Prop := forall i s,
  get_session st i = Ok s -> (owners T i + free_of st i = O)%nat -> hslot T (sending_of st i) (history tr i) i s.

(** Tokens that do not matter here, or matter less. *)
Definition calm st st' T T' : Prop := forall i,
  (owners T i + free_of st i <= owners T' i + free_of st' i)%nat /\ (setups T' i <= setups T i)%nat /\
  (senders T' i + sending_of st' i <= senders T i + sending_of st i)%nat /\
  (forall ps m, T' (Bat i ps m) = T (Bat i ps m)).

Lemma hinv_calm tr st st' T T' :
  hinv tr st T -> calm st st' T T' ->
  (forall i s', get_session st' i = Ok s' ->
     exists s, get_session st i = Ok s /\ sendQ s' = sendQ s /\ sendFlag s' = sendFlag s) ->
  hinv tr st' T'.
Proof.
  intros Hh Hc Hg i s' Hs' Ho. destruct (Hg _ _ Hs') as (s & Hs & Eq & Ef). destruct (Hc i) as (H1 & H2 & H3 & H4).
  destruct (Hh i s Hs) as [Hst (x & Ex & Hx)]; [lia|]. split.
  - intros Hp. apply Hst. lia.
  - exists x. rewrite Eq, Ef. split; [exact Ex|]. intros o Hb Hd. apply Hx; [intros ps m; rewrite <- H4; apply Hb|].
    destruct Hd as [Hd|Hd]; [left; exact Hd|right; lia].
Qed.

Lemma hinv_core tr st T T' i s s' :
  hinv tr st T -> get_session st i = Ok s -> sendQ s' = sendQ s -> sendFlag s' = sendFlag s ->
  calm st st T T' -> hinv tr (set_session st i s') T'.
Proof.
  intros Hh Hs Eq Ef Hc. eapply hinv_calm; [exact Hh|exact Hc|]. apply get_session_spec in Hs as [Hi Hs].
  intros j t' [Hj Ht]%get_session_spec. cbn in Ht. destruct (decide (j = i)) as [->|Hn].
  - rewrite list_lookup_insert_eq in Ht by eauto using lookup_lt_Some. injection Ht as <-.
    exists s. rewrite get_session_spec. split_and!; done.
  - rewrite list_lookup_insert_ne in Ht by lia. exists t'. rewrite get_session_spec. split_and!; done.
Qed.

(** Another state with the same send queues. *)
Lemma hinv_mem tr st st' T T' :
  hinv tr st T -> sessionArr st' = sessionArr st -> calm st st' T T' -> hinv tr st' T'.
Proof.
  intros Hh Ea Hc. eapply hinv_calm; [exact Hh|exact Hc|]. intros i s Hs. exists s.
  unfold get_session in *. rewrite <- Ea. done.
Qed.

(** One slot changes. *)
Lemma hinv_slot tr l st st' T T' i s s' :
  hinv tr st T -> get_session st i = Ok s -> sessionArr st' = <[Z.to_nat i := s']> (sessionArr st) ->
  (forall j, j <> i -> free_of st' j = free_of st j) -> (forall j, j <> i -> sending_of st' j = sending_of st j) ->
  (forall x j, tok_slot x = Some j -> j <> i -> T' x = T x) ->
  Forall (fun x => match x with LQueue k _ | LSend k _ | LOpen k => k = i end) l ->
  ((owners T' i + free_of st' i = O)%nat -> hslot T' (sending_of st' i) (history (tr ++ l) i) i s') ->
  hinv (tr ++ l) st' T'.
Proof.
  intros Hh [Hi Hs]%get_session_spec Ea Hfr Hsd E Hl Hok j t [Hj Ht]%get_session_spec Ho. rewrite Ea in Ht.
  destruct (decide (j = i)) as [->|Hn].
  - rewrite list_lookup_insert_eq in Ht by eauto using lookup_lt_Some. injection Ht as <-. apply Hok, Ho.
  - rewrite list_lookup_insert_ne in Ht by lia. rewrite (history_other _ _ _ _ Hl Hn).
    assert (Eo : owners T' j = owners T j /\ setups T' j = setups T j /\ senders T' j = senders T j).
    { unfold owners, setups, senders. rewrite !(fun x Hx => E x j Hx Hn) by reflexivity. done. }
    destruct Eo as (E1 & E2 & E3). rewrite E1, Hfr in Ho by done.
    destruct (Hh j t) as [Hst (x & Ex & Hx)]; [apply get_session_spec; done|done|].
    split; [rewrite E2; exact Hst|]. exists x. split; [exact Ex|]. rewrite E3, Hsd by done. intros o Hb. apply Hx.
    intros ps m. rewrite <- (E (Bat j ps m) j) by done. apply Hb.
Qed.

(** The change of a session of a slot with label [l]; or of its tokens alone. *)
Lemma hinv_set tr l st T T' i s s' :
  hinv tr st T -> get_session st i = Ok s -> (forall x j, tok_slot x = Some j -> j <> i -> T' x = T x) ->
  Forall (fun x => match x with LQueue k _ | LSend k _ | LOpen k => k = i end) l ->
  ((owners T' i + free_of st i = O)%nat -> hslot T' (sending_of st i) (history (tr ++ l) i) i s') ->
  hinv (tr ++ l) (set_session st i s') T'.
Proof.
  intros Hh Hs E Hl Hok. eapply (hinv_slot tr l st); [exact Hh|exact Hs|done|done|done|exact E|exact Hl|exact Hok].
Qed.

Lemma hinv_same tr st st' T T' i s :
  hinv tr st T -> get_session st i = Ok s -> sessionArr st' = sessionArr st ->
  (forall j, j <> i -> free_of st' j = free_of st j) -> (forall j, sending_of st' j = sending_of st j) ->
  (forall x j, tok_slot x = Some j -> j <> i -> T' x = T x) ->
  ((owners T' i + free_of st' i = O)%nat -> hslot T' (sending_of st' i) (history tr i) i s) -> hinv tr st' T'.
Proof.
  intros Hh Hs Ea Hfr Hsd E Hok. rewrite <- (app_nil_r tr).
  eapply (hinv_slot tr [] st); [exact Hh|exact Hs| |exact Hfr|intros j _; apply Hsd|exact E|constructor|].
  - rewrite Ea. symmetry. apply list_insert_id, get_session_spec, Hs.
  - rewrite app_nil_r. exact Hok.
Qed.

(** A change of a slot whose send side is known: what was queued and not sent is what was
    taken out and what is in the queue. *)
Lemma hslot_step tr l st T T' n i s s' o o' :
  hinv tr st T -> get_session st i = Ok s -> (owners T i + free_of st i = O)%nat ->
  bat_is T i o -> bat_is T' i o' ->
  sendFlag s <> 1 \/ (0 < senders T i + sending_of st i)%nat ->
  ((history tr i).1 = (history tr i).2 ++ taken_out o ++ sendQ s ->
   (history (tr ++ l) i).1 = (history (tr ++ l) i).2 ++ taken_out o' ++ sendQ s' /\
   ((0 < setups T' i)%nat -> (0 < setups T i)%nat /\ (history (tr ++ l) i).1 = (history tr i).1)) ->
  hslot T' n (history (tr ++ l) i) i s'.
Proof.
  intros Hh Hs Ho Hb Hb' Hd Hst. destruct (Hh i s Hs Ho) as [Hn (x & Ex & Hx)].
  rewrite (Hx o Hb Hd) in Ex. destruct (Hst Ex) as [Ex' Hn']. split.
  - intros Hp. destruct (Hn' Hp) as [Hp' ->]. exact (Hn Hp').
  - exists (taken_out o'). split; [exact Ex'|]. intros o2 Ho2 _. rewrite (bat_unique _ _ _ _ Hb' Ho2). done.
Qed.

(** What is known of a slot whose right to send a thread has. *)
Lemma hslot_sender tr st T i s o :
  hinv tr st T -> solo st T i -> (0 < senders T i)%nat -> get_session st i = Ok s -> bat_is T i o ->
  (history tr i).1 = (history tr i).2 ++ taken_out o ++ sendQ s /\ setups T i = O /\ owners T i = O.
Proof.
  intros Hh Hone Hr Hs Hb. unfold solo in Hone.
  destruct (Hh i s Hs) as [_ (x & Ex & Hx)]; [lia|]. rewrite <- (Hx o Hb) by (right; lia). split; [exact Ex|lia].
Qed.

End histories.

(** A change of slot [i] by a thread that knows its send side. *)
Ltac hist_step tr Hh Hs o o' :=
  rewrite <- (app_nil_r tr);
  first [eapply (hinv_set tr []); [exact Hh|exact Hs|slot_tokens|apply Forall_nil_2|intros _]
        |eapply (hinv_slot tr []); [exact Hh|exact Hs|symmetry; apply list_insert_id, get_session_spec, Hs|done|done|slot_tokens|apply Forall_nil_2|intros _]];
  eapply (hslot_step _ _ _ _ _ _ _ _ _ o o'); [exact Hh|exact Hs|nums|assumption|bats|try (right; nums)|
    rewrite ?app_nil_r; intros ?E; split; [try exact E|intros ?Hst; split; [nums|done]]].

Section changes.
Context {qs : Queues} {P : Type} `{PoolLaws P}.
Implicit Types st : server P.
Implicit Types T : toks.

(** The send flag is taken: everything queued and not sent is in the queue. *)
Lemma hinv_take_send tr st T R i s n :
  pinv st T -> hinv tr st T -> below R T -> solo st T i -> (senders T i = O)%nat ->
  (owners T i + free_of st i + setups T i = O)%nat -> has R (Ful i) -> get_session st i = Ok s -> sendFlag s <> 1 ->
  hinv tr (set_session st i (with_send s n (sendCnt s) (sendQ s) (sendPacketArr s)))
    (swap T R (tadd (Bat i [] (Fill 0)) (tadd (Snd i) (tsub (Ful i) R)))).
Proof.
  intros Hp Hh Hb Hone Hsn How Hr Hs Hf. destruct (p_slot _ _ Hp _ _ Hs) as [_ _ _ (o & Ho & Hk)].
  apply (bat_none _ _ _ _ _ Ho) in Hk as ->; [|nums].
  hist_step tr Hh Hs (None : option (list Z * bmode)) (Some ([] : list Z, Fill 0)). left. exact Hf.
Qed.

(** It is given back: nothing is left of what was taken out. *)
Lemma hinv_give_send tr st T R i s ps m :
  pinv st T -> hinv tr st T -> below R T -> solo st T i -> has R (Snd i) -> has R (Bat i ps m) -> taken_out (Some (ps, m)) = [] ->
  get_session st i = Ok s ->
  hinv tr (set_session st i (with_send s 0 (sendCnt s) (sendQ s) (sendPacketArr s)))
    (swap T R (tsub (Bat i ps m) (tadd (Ful i) (tsub (Snd i) R)))).
Proof.
  intros Hp Hh Hb Hone Hr Hba Hn Hs. destruct (p_slot _ _ Hp _ _ Hs) as [_ _ _ (o & Ho & Hk)].
  destruct (bat_held _ _ _ _ _ _ Ho Hb Hba) as [-> Hu].
  hist_step tr Hh Hs (Some (ps, m)) (None : option (list Z * bmode)). rewrite Hn in E. exact E.
Qed.

(** The flag is reset while the slot is set up: nothing was queued yet. *)
Lemma hinv_reset_send tr st T i s :
  pinv st T -> hinv tr st T -> solo st T i -> (0 < setups T i)%nat -> get_session st i = Ok s ->
  hinv tr (set_session st i (with_send s 0 (sendCnt s) (sendQ s) (sendPacketArr s))) T.
Proof.
  intros Hp Hh Hone Hr Hs. destruct (p_slot _ _ Hp _ _ Hs) as [_ _ _ (o & Ho & Hk)].
  apply (bat_none _ _ _ _ _ Ho) in Hk as ->; [|unfold bat_users, solo, senders, owners in *; lia].
  rewrite <- (app_nil_r tr). apply (hinv_set tr [] _ T _ _ s); [exact Hh|exact Hs|done|apply Forall_nil_2|intros Hx].
  destruct (Hh i s Hs Hx) as [Hn (x & Ex & _)]. rewrite app_nil_r. specialize (Hn Hr). split; [done|].
  exists x. split; [exact Ex|]. rewrite Hn in Ex. symmetry in Ex. apply app_nil in Ex as [_ [-> _]%app_nil].
  intros o Hb _. rewrite (bat_unique _ _ _ _ Hb Ho). done.
Qed.

(** A packet is put into the queue. *)
Lemma hinv_enqueue tr st T R i s p :
  hinv tr st T -> below R T -> (owners T i + free_of st i + setups T i = O)%nat -> get_session st i = Ok s ->
  hinv (tr ++ [LQueue i p])
    (set_session st i (with_send s (sendFlag s) (sendCnt s) (sendQ s ++ [p]) (sendPacketArr s))) (swap T R (tsub (Pk p) R)).
Proof.
  intros Hh Hb How Hs. eapply hinv_set; [exact Hh|exact Hs|slot_tokens|by repeat constructor|intros _].
  destruct (Hh i s Hs) as [_ (x & Ex & Hx)]; [lia|].
  rewrite history_app. cbn [fold_left hist_step]. rewrite Z.eqb_refl. split; cbn [fst snd]; [nums|].
  exists x. cbn [sendQ sendFlag with_send]. rewrite Ex, <- !app_assoc. split; [done|]. intros o Ho Hd. apply Hx.
  - intros ps m. rewrite <- (Ho ps m). symmetry. apply (swap_same T R); [exact Hb|reflexivity].
  - revert Hd. nums.
Qed.

(** The thread with the right to send takes one out, and puts it into [sendPacketArr]. *)
Lemma hinv_dequeue tr st T R i s ps n p q :
  pinv st T -> hinv tr st T -> below R T -> solo st T i -> has R (Snd i) -> has R (Bat i ps (Fill (S n))) ->
  get_session st i = Ok s -> sendQ s = p :: q ->
  hinv tr (set_session st i (with_send s (sendFlag s) (sendCnt s) q (sendPacketArr s)))
    (swap T R (tadd (Pk p) (tadd (Bat i ps (Popped p n)) (tsub (Bat i ps (Fill (S n))) R)))).
Proof.
  intros Hp Hh Hb Hone Hr Hba Hs Hq. destruct (p_slot _ _ Hp _ _ Hs) as [_ _ _ (o & Ho & Hk)].
  destruct (bat_held _ _ _ _ _ _ Ho Hb Hba) as [-> Hu].
  hist_step tr Hh Hs (Some (ps, Fill (S n))) (Some (ps, Popped p n)).
  rewrite E, Hq. cbn. rewrite <- app_assoc. done.
Qed.

Lemma hinv_fill tr st T R i s ps p n arr :
  pinv st T -> hinv tr st T -> below R T -> solo st T i -> has R (Snd i) -> has R (Bat i ps (Popped p n)) ->
  get_session st i = Ok s ->
  hinv tr (set_session st i (with_send s (sendFlag s) (sendCnt s) (sendQ s) arr))
    (swap T R (tadd (Bat i (ps ++ [p]) (Fill n)) (tsub (Bat i ps (Popped p n)) R))).
Proof.
  intros Hp Hh Hb Hone Hr Hba Hs. destruct (p_slot _ _ Hp _ _ Hs) as [_ _ _ (o & Ho & Hk)].
  destruct (bat_held _ _ _ _ _ _ Ho Hb Hba) as [-> Hu].
  hist_step tr Hh Hs (Some (ps, Popped p n)) (Some (ps ++ [p], Fill n)).
Qed.

(** It learns how many packets are in the queue. *)
Lemma hinv_count_queue tr st T R i s ps n m :
  pinv st T -> hinv tr st T -> below R T -> solo st T i -> has R (Snd i) -> has R (Bat i ps (Fill n)) ->
  get_session st i = Ok s ->
  hinv tr st (swap T R (tadd (Bat i ps (Fill m)) (tsub (Bat i ps (Fill n)) R))).
Proof.
  intros Hp Hh Hb Hone Hr Hba Hs. destruct (p_slot _ _ Hp _ _ Hs) as [_ _ _ (o & Ho & Hk)].
  destruct (bat_held _ _ _ _ _ _ Ho Hb Hba) as [-> Hu].
  hist_step tr Hh Hs (Some (ps, Fill n)) (Some (ps, Fill m)).
Qed.

(** The packets that were sent are taken over. *)
Lemma hinv_take_over tr st T R i s ps :
  pinv st T -> hinv tr st T -> below R T -> solo st T i -> has R (Sent i) -> get_session st i = Ok s ->
  hinv tr st (swap T R (pks ps (tadd (Bat i ps Old) (tadd (Taken i) (tsub (Sent i) R))))).
Proof.
  intros Hp Hh Hb Hone Hr Hs. destruct (p_slot _ _ Hp _ _ Hs) as [_ _ _ (o & Ho & Hk)].
  apply (bat_none _ _ _ _ _ Ho) in Hk as ->; [|nums].
  hist_step tr Hh Hs (None : option (list Z * bmode)) (Some (ps, Old)).
Qed.

(** Whoever releases the slot does not care. *)
Lemma hinv_owned tr st T T' i s s' :
  hinv tr st T -> get_session st i = Ok s -> (forall x j, tok_slot x = Some j -> j <> i -> T' x = T x) ->
  (0 < owners T' i)%nat -> hinv tr (set_session st i s') T'.
Proof.
  intros Hh Hs E Ho. rewrite <- (app_nil_r tr). eapply (hinv_set tr []); [exact Hh|exact Hs|exact E|apply Forall_nil_2|]. lia.
Qed.

Lemma hinv_freed tr st T T' i s :
  hinv tr st T -> get_session st i = Ok s -> (forall x j, tok_slot x = Some j -> j <> i -> T' x = T x) ->
  hinv tr (set_free st (i :: freeSessionStack st)) T'.
Proof.
  intros Hh Hs E. eapply (hinv_same _ st); [exact Hh|exact Hs|done| |done|exact E|];
    rewrite ?free_of_set, ?count_cons, ?Z.eqb_refl; cbn [ind]; [|lia].
  intros j Hj. rewrite free_of_set, free_of_eq, count_cons. replace (i =? j) with false by lia. done.
Qed.

(** A slot is set up: its history begins. *)
Lemma hinv_open tr st T R i s s' :
  pinv st T -> reliable = true -> hinv tr st T -> below R T -> solo st T i -> has R (New i) -> get_session st i = Ok s -> sendQ s' = sendQ s ->
  hinv (tr ++ [LOpen i]) (set_session st i s') (swap T R (tadd (Al i) (tadd (Setup i) (tsub (Tmp i) (tsub (New i) R))))).
Proof.
  intros Hp Hrel Hh Hb Hone Hr Hs Hq. destruct (p_slot _ _ Hp _ _ Hs) as [_ _ S3 (o & Ho & Hk)].
  apply (bat_none _ _ _ _ _ Ho) in Hk as ->; [|nums].
  eapply hinv_set; [exact Hh|exact Hs|slot_tokens|by repeat constructor|intros _].
  rewrite history_app. cbn [fold_left hist_step]. rewrite Z.eqb_refl. split; [done|].
  exists []. rewrite Hq, S3 by first [nums|exact Hrel]. split; [done|]. intros o Ho' _.
  rewrite (bat_unique _ _ o None Ho'); [done|]. bats.
Qed.

(** The packets are handed to the operating system, or cannot be. *)
Lemma hinv_posted tr st st' T R i s ps n b :
  pinv st T -> hinv tr st T -> below R T -> solo st T i -> has R (Load i) -> has R (Bat i ps (Fill n)) ->
  get_session st i = Ok s -> (senders T i + sending_of st i <= if (sendFlag s =? 1)%Z then 1 else 0)%nat ->
  sessionArr st' = sessionArr st -> freeSessionStack st' = freeSessionStack st ->
  (forall j, b = false \/ j <> i -> sending_of st' j = sending_of st j) ->
  hinv (tr ++ (if b then [LSend i ps] else [])) st'
    (swap T R (let R := tsub (Load i) (tsub (Bat i ps (Fill n)) R) in if b : bool then R else tadd (Ful i) R)).
Proof.
  intros Hp Hh Hb Hone Hr Hba Hs Hsn Ea Ef Hsd. destruct (p_slot _ _ Hp _ _ Hs) as [_ _ _ (o & Ho & Hk)].
  destruct (bat_held _ _ _ _ _ _ Ho Hb Hba) as [-> Hu]. cbv zeta.
  assert (Hfr : forall j, free_of st' j = free_of st j) by (intros j; unfold free_of, free_count; cbn; rewrite Ef; done).
  eapply (hinv_slot tr _ st); [exact Hh|exact Hs|rewrite Ea; symmetry; apply list_insert_id, get_session_spec, Hs|auto|auto| | |intros _].
  - destruct b; slot_tokens.
  - destruct b; by repeat constructor.
  - destruct b.
    + eapply (hslot_step _ _ _ _ _ _ _ _ _ (Some (ps, Fill n)) None); [exact Hh|exact Hs|nums|done|bats|right; nums|].
      rewrite history_app. cbn [fold_left hist_step]. rewrite Z.eqb_refl. cbn [fst snd]. intros ->.
      rewrite <- app_assoc. split; [done|intros ?; split; [nums|done]].
    + rewrite app_nil_r. destruct (hslot_sender _ _ _ _ _ _ Hh Hone (ltac:(nums)) Hs Ho) as (Ex & Hst & _).
      split; [nums|]. exists (taken_out (Some (ps, Fill n))). split; [exact Ex|]. intros o _ [Hx|Hx].
      * exfalso. destruct (sendFlag s =? 1) eqn:E; [zlia|nums].
      * exfalso. revert Hx. rewrite Hsd by auto. destruct (sendFlag s =? 1); nums.
Qed.

End changes.
