(* ===== verification/SessionSound.v ===== *)
(** * Every atomic action keeps the session invariant

    [SessionLogic.inv] under changes of the queues, the announcements and the lost
    requests, and the soundness of [act_spec]: an action the specification allows takes a
    state that satisfies the invariant to one that does, with the tokens it says. *)
From S2P Require Import Prelude.
From S2P Require Import RingBuffer.
From S2P Require Import NetPacket.
From S2P Require Import ObjectPool.
From S2P Require Import ServerState.
From S2P Require Import NetServer.
From S2P Require Import SessionLogic.
From S2P Require Import PacketLogic.
From S2P Require Import HistoryLogic.
From stdpp Require Import prelude gmap list.
From Stdlib Require Import ZArith Lia.
Open Scope Z_scope.

(** ** Changes of the queues *)
Definition job (j i : Z) : completion := mkCompletion j (Some i) OvNull.

Lemma is_release_RELEASE i : is_release (job en_IOCP_JOB_RELEASE i) = true.
Proof. reflexivity. Qed.
Lemma is_release_SENDPOST i : is_release (job en_IOCP_JOB_SENDPOST i) = false.
Proof. reflexivity. Qed.
Lemma is_recv_job j i : is_recv (job j i) = false.
Proof. reflexivity. Qed.
Lemma is_send_job j i : is_send (job j i) = false.
Proof. reflexivity. Qed.
Lemma comp_slot_job j i : comp_slot (job j i) = i.
Proof. reflexivity. Qed.

(** The slot [i] and the others. *)
Ltac by_slot := match goal with |- context [(?i =? ?j)%Z] => destruct (Z.eqb_spec i j); subst; tok end.
Ltac lists_update Hv :=
  eapply (inv_lists _ _ _ _ _ Hv); [done|done|tok|tok|tok|intros j|intros j|intros j|intros j|intros j|tok|intros j|tok|intros j|..];
  unfold outstanding, busy, lost_port, receiving, sending, free_count, claims; cbn [v_pend v_iocp v_lost v_free v_sess];
  rewrite ?count_app, ?count_cons, ?count_nil, ?is_release_RELEASE, ?is_release_SENDPOST, ?is_recv_job, ?is_send_job, ?comp_slot_job;
  cbn [andb negb]; try done; try tok;
  try (apply (inv_comp _ _ _ Hv)); try (apply (inv_pend _ _ _ Hv));
  try (apply (inv_free _ _ _ Hv)); try by_slot.
Lemma inv_push v al T R i :
  inv v al T -> below R T -> has R (Closing i) -> 0 <= i < 2 ^ 16 ->
  inv (mkView (v_sess v) (i :: v_free v) (v_iocp v) (v_pend v) (v_lost v) (v_ann v)) al
    (swap T R (tsub (Closing i) R)).
Proof.
  intros Hv Hb Ho Hi. lists_update Hv.
  constructor; [done|]. apply (inv_free _ _ _ Hv).
Qed.

Lemma inv_pop v al T R i l :
  inv v al T -> below R T -> v_free v = i :: l ->
  inv (mkView (v_sess v) l (v_iocp v) (v_pend v) (v_lost v) (v_ann v)) al (swap T R (tadd (Own i) R)).
Proof.
  intros Hv Hb Hf. pose proof (inv_free _ _ _ Hv) as Hfr. rewrite Hf in Hfr.
  apply Forall_cons in Hfr as [? Hl]. lists_update Hv. rewrite Hf, count_cons. by_slot.
Qed.

(** A queued job. *)
Lemma comp_ok_job v al T R i j :
  inv v al T -> below R T -> has R (Al i) -> j = en_IOCP_JOB_SENDPOST \/ j = en_IOCP_JOB_RELEASE ->
  Forall (comp_ok al) (v_iocp v ++ [job j i]).
Proof.
  intros Hv Hb Ha Hj. apply Forall_app. split; [apply (inv_comp _ _ _ Hv)|]. constructor; [|done].
  exists i. split_and!; auto. eapply inv_al; eauto using has_below.
Qed.

Lemma inv_post_release v al T R i :
  inv v al T -> below R T -> has R (Al i) ->
  inv (mkView (v_sess v) (v_free v) (v_iocp v ++ [job en_IOCP_JOB_RELEASE i]) (v_pend v) (v_lost v) (v_ann v))
    al (swap T R (tclr (Obl i) R)).
Proof. intros Hv Hb Ha. lists_update Hv. eapply comp_ok_job; eauto. Qed.

Lemma inv_post_send v al T R i :
  inv v al T -> below R T -> has R (Al i) -> has R (Ful i) ->
  inv (mkView (v_sess v) (v_free v) (v_iocp v ++ [job en_IOCP_JOB_SENDPOST i]) (v_pend v) (v_lost v) (v_ann v))
    al (swap T R (tsub (Ful i) R)).
Proof. intros Hv Hb Ha Hr. lists_update Hv. eapply comp_ok_job; eauto. Qed.

Lemma inv_lost v al T R e :
  inv v al T -> below R T ->
  inv (mkView (v_sess v) (v_free v) (v_iocp v) (v_pend v) (v_lost v ++ [EvPostFailed e.1 e.2]) (v_ann v)) al
    (swap T R (if e.1 =? en_IOCP_JOB_RELEASE then tclr (Obl e.2) R else R)).
Proof.
  intros Hv Hb. destruct e as [job i]; cbn. destruct (job =? en_IOCP_JOB_RELEASE) eqn:E; lists_update Hv.
  rewrite E. cbn. by_slot.
Qed.

Lemma inv_port v al T R i :
  inv v al T -> below R T -> has R (Ready i) ->
  inv (mkView (v_sess v) (v_free v) (v_iocp v) (v_pend v) (v_lost v ++ [EvPortFailed i]) (v_ann v)) al
    (swap T R (tsub (Ready i) R)).
Proof.
  intros Hv Hb Hr. lists_update Hv.
Qed.

(** A new identifier is known: that of no slot somebody else sets up. *)
Lemma inv_know v al T id :
  inv v al T -> u16 id ∈ al ->
  (forall j d, v_get v j = Some d -> (0 < setups T j + lost_port v j)%nat \/ has T (New j) -> c_id d <> id) ->
  inv (mkView (v_sess v) (v_free v) (v_iocp v) (v_pend v) (v_lost v) (v_ann v ++ [id])) al T.
Proof.
  intros Hv Hid Hn. set (v' := mkView _ _ _ _ _ _).
  assert (Hf : forall d, (c_id d ∉ v_ann v) -> c_id d <> id -> c_id d ∉ v_ann v').
  { intros d ? ?. cbn. rewrite elem_of_app, list_elem_of_singleton. tauto. }
  destruct Hv. split; try done.
  - intros j d Hd Hs. destruct (inv_set _ _ Hd Hs). split; [assumption|]. eauto.
  - intros j d Hd Hs. destruct (inv_new _ _ Hd Hs). eauto.
  - intros j Hj%inv_an. apply elem_of_app. auto.
  - apply Forall_app. auto.
Qed.

Lemma inv_announce v al T R i c :
  inv v al T -> below R T -> has R (Ready i) -> v_get v i = Some c -> v_set v i c = v ->
  inv (mkView (v_sess v) (v_free v) (v_iocp v) (v_pend v) (v_lost v) (v_ann v ++ [c_id c])) al
    (swap T R (tadd (Rcv i) (tsub (Ready i) R))).
Proof.
  intros Hv Hb Hr Hc Hsame.
  destruct (inv_live _ _ _ Hv _ _ Hc) as [Hf Hi]; [tok|].
  destruct (inv_set _ _ _ Hv _ _ Hc) as [[Hs Hin] _]; [tok|].
  assert (Hv' : inv v al (swap T R (tadd (Rcv i) (tsub (Ready i) R)))).
  { rewrite <- Hsame. pose proof (receiving_le v i). slot_update Hv Hc. }
  apply inv_know; [exact Hv'|rewrite (proj1 (proj2 (inv_ident _ _ _ _ _ Hv Hc Hi))); exact Hi|].
  intros j d Hd Hj E. assert (Hj' : u16 (c_id d) = j).
  { destruct Hj as [Hj|Hj]; [|apply (inv_new _ _ _ Hv' _ _ Hd Hj)].
    destruct (inv_live _ _ _ Hv' _ _ Hd) as [_ Ha]; [unfold units, outstanding; lia|].
    apply (inv_ident _ _ _ _ _ Hv' Hd Ha). }
  rewrite E, (proj1 (proj2 (inv_ident _ _ _ _ _ Hv Hc Hi))) in Hj'. subst j.
  pose proof (inv_own _ _ _ Hv _ _ Hc) as Hown. rewrite decide_True in Hown by done.
  destruct Hj as [Hj|Hj]; tok.
Qed.

(** The unit that goes with an overlapped call. *)
Definition unit_of (io : pending) : tok := match io with PendRecv i _ => Rcv i | PendSend i => Load i end.

Lemma inv_start v al T R io :
  inv v al T -> below R T -> has R (Al (pend_slot io)) -> has R (unit_of io) ->
  inv (mkView (v_sess v) (v_free v) (v_iocp v) (v_pend v ++ [io]) (v_lost v) (v_ann v)) al
    (swap T R (tsub (unit_of io) R)).
Proof.
  intros Hv Hb Ha Hr. destruct io as [i bufs|i]; cbn in *; lists_update Hv; cbn [pend_slot].
  all: try (by_slot).
  all: apply Forall_app; (split; [apply (inv_pend _ _ _ Hv)|]); constructor; [|done];
    eapply inv_al; eauto using has_below.
Qed.

(** A right, or an owner, becomes another of its kind. *)
Definition next_tok (i : Z) (x y : tok) : Prop :=
  (x = Snd i /\ y = Load i) \/ (x = Sent i /\ y = Taken i) \/ (x = Taken i /\ y = Snd i) \/
  (x = Setup i /\ y = Ready i) \/ (x = Rel i /\ y = Drained i) \/ (x = Drained i /\ y = Closing i).

Lemma inv_turn v al T R i x y :
  inv v al T -> below R T -> has R x -> next_tok i x y -> inv v al (swap T R (tadd y (tsub x R))).
Proof.
  intros Hv Hb Hr Hxy. destruct Hxy as [[-> ->]|[[-> ->]|[[-> ->]|[[-> ->]|[[-> ->]|[-> ->]]]]]].
  all: eapply (inv_lists _ _ _ _ _ Hv); try done; try tok;
    try exact (inv_comp _ _ _ Hv); try exact (inv_pend _ _ _ Hv); exact (inv_free _ _ _ Hv).
Qed.

(** Of the rights to send, those who set a slot up, its owners and its place on the free
    stack there is one in total. *)
Lemma one_state v al T i c :
  inv v al T -> v_get v i = Some c -> (senders T i + setups T i + owners T i + free_count v i <= 1)%nat.
Proof.
  intros Hv Hc. pose proof (inv_snd _ _ _ Hv _ _ Hc) as Hs. pose proof (inv_set _ _ _ Hv _ _ Hc) as Hst.
  pose proof (inv_own _ _ _ Hv _ _ Hc) as Ho. pose proof (inv_live _ _ _ Hv _ _ Hc) as Hl.
  unfold units, insides in *. destruct (decide (c_flag c = 0 /\ i ∈ al)) as [_|Hn] in Ho.
  - destruct (decide (0 < setups T i)%nat); [destruct Hst as [[? ?] _]; [lia|lia]|].
    destruct (c_send c =? 1); lia.
  - destruct (decide (0 < senders T i + setups T i)%nat); [destruct Hn, Hl; [lia|done]|lia].
Qed.

(** A session somebody is inside of has no owner, and is not being set up. *)
Lemma inside_used v al T i c :
  inv v al T -> v_get v i = Some c -> inside T i -> (owners T i + free_count v i + setups T i = 0)%nat.
Proof.
  intros Hv Hc Hi. pose proof (inv_set _ _ _ Hv _ _ Hc) as Hst. pose proof (inv_own _ _ _ Hv _ _ Hc) as Ho.
  unfold inside in Hi. rewrite decide_True in Ho by (apply (inv_live _ _ _ Hv _ _ Hc); unfold units; lia).
  destruct (decide (0 < setups T i)%nat); [destruct Hst as [[? ?] _]; [lia|lia]|lia].
Qed.

Lemma inside_below R T i : below R T -> inside R i -> inside T i.
Proof. intros Hb. unfold inside, insides, senders. use_below. lia. Qed.

(** A send that cannot be started ends the right to send. *)
Lemma inv_unload v al T R i :
  inv v al T -> below R T -> has R (Load i) -> inv v al (swap T R (tadd (Ful i) (tsub (Load i) R))).
Proof.
  intros Hv Hb Hr. eapply (inv_lists _ _ _ _ _ Hv); try done; try tok;
    try exact (inv_comp _ _ _ Hv); try exact (inv_pend _ _ _ Hv); exact (inv_free _ _ _ Hv).
Qed.

(** ** From the state to its view *)
Section sound.
Context {qs : Queues} {P : Type} `{PoolLaws P}.
Implicit Types st : server P.

Lemma view_get st i s : get_session st i = Ok s -> v_get (view_of st) i = Some (core_of s).
Proof.
  unfold get_session, v_get. destruct (i <? 0); [done|]. cbn. rewrite list_lookup_fmap.
  destruct (sessionArr st !! Z.to_nat i); [|done]. intros [= ->]. done.
Qed.

Lemma view_set st i s : view_of (set_session st i s) = v_set (view_of st) i (core_of s).
Proof. unfold view_of, v_set. cbn. rewrite list_fmap_insert. done. Qed.

Lemma v_set_same v i c : v_get v i = Some c -> v_set v i c = v.
Proof.
  unfold v_get, v_set. destruct (i <? 0); [done|]. intros Hc.
  destruct v; cbn in *. rewrite list_insert_id by done. done.
Qed.

Lemma view_emit st e :
  view_of (emit st e) =
    mkView (v_sess (view_of st)) (v_free (view_of st)) (v_iocp (view_of st)) (v_pend (view_of st))
      (if accounting e then v_lost (view_of st) ++ [e] else v_lost (view_of st))
      (match port_of e with Some sid => v_ann (view_of st) ++ [sid] | None => v_ann (view_of st) end).
Proof.
  unfold view_of, announced. cbn. rewrite filter_app, omap_app. f_equal; [|destruct e; cbn; rewrite ?app_nil_r; done].
  destruct (accounting e) eqn:E; cbn.
  - rewrite decide_True by done. done.
  - rewrite decide_False, app_nil_r by (rewrite E; done). done.
Qed.

Lemma view_emit_same st e : accounting e = false -> port_of e = None -> view_of (emit st e) = view_of st.
Proof. intros Ha Hp. rewrite view_emit, Ha, Hp. done. Qed.

Lemma inv_same v al T R : inv v al T -> below R T -> inv v al (swap T R R).
Proof. intros Hv Hb. eapply inv_ext; [|exact Hv]. intros x. specialize (Hb x). unfold swap. lia. Qed.

Lemma on_session_inv {B} st i (f : SESSION -> outcome (B * SESSION)) b st' :
  on_session st i f = Ok (b, st') ->
  exists s s', get_session st i = Ok s /\ f s = Ok (b, s') /\ st' = set_session st i s'.
Proof. unfold on_session. intros Hx. inv_ok. destruct a0. inv_ok. eauto. Qed.

(** Actions on one slot that do not touch the protocol. *)
Lemma on_session_same {B} st i (f : SESSION -> outcome (B * SESSION)) b st' :
  (forall s b s', f s = Ok (b, s') -> core_of s' = core_of s) ->
  on_session st i f = Ok (b, st') -> view_of st' = view_of st.
Proof.
  intros Hf (s & s' & Hs & E & ->)%on_session_inv. rewrite view_set.
  rewrite (Hf _ _ _ E). apply v_set_same, view_get, Hs.
Qed.

Lemma read_session_inv {B} st i (f : SESSION -> B) b st' :
  read_session st i f = Ok (b, st') -> st' = st /\ exists s, get_session st i = Ok s /\ b = f s.
Proof. unfold read_session. intros Hx. inv_ok. eauto. Qed.

Lemma overlapped_call_inv choice st io ev b st' :
  Forall (fun e => accounting e = false /\ port_of e = None) ev ->
  overlapped_call choice st io ev = Ok (b, st') ->
  view_of st' = if started b
    then mkView (v_sess (view_of st)) (v_free (view_of st)) (v_iocp (view_of st))
           (v_pend (view_of st) ++ [io]) (v_lost (view_of st)) (v_ann (view_of st))
    else view_of st.
Proof.
  intros Hev. assert (E : view_of (fold_left emit ev st) = view_of st).
  { revert st. induction Hev as [|e ev [Ha Hp] _ IH]; intros st; [done|]. cbn. rewrite IH. apply view_emit_same; done. }
  assert (E' : forall l, view_of (set_pend (fold_left emit ev st) l) =
    mkView (v_sess (view_of st)) (v_free (view_of st)) (v_iocp (view_of st)) l (v_lost (view_of st)) (v_ann (view_of st))).
  { intros l. rewrite <- E. done. }
  unfold overlapped_call.
  destruct (choice =? 0); [|destruct (choice =? WSA_IO_PENDING) eqn:Ep]; intros; inv_ok;
    cbn [started]; rewrite ?Ep, ?E'; done.
Qed.

(** ** The invariant of the whole state *)
Definition good tr st (al : gset Z) (T : toks) : Prop := 
  inv (view_of st) al T /\ pinv st T /\ (reliable = true -> hinv tr st T).

Lemma good_inv tr st al T : good tr st al T -> inv (view_of st) al T.
Proof. intros [Hv _]. exact Hv. Qed.

(** What an action does to the memory the packets are in. *)
Definition same_mem st st' : Prop :=
  sessionArr st' = sessionArr st /\ freeSessionStack st' = freeSessionStack st /\
  packets st' = packets st /\ pool st' = pool st.

Lemma pinv_mem st st' T T' :
  pinv st T -> same_mem st st' -> (forall x, pkt_rel x = true -> T x = T' x) -> pinv st' T'.
Proof.
  intros Hp (Ea & Ef & Ep & Eo) E. eapply pinv_ext; [exact Hp|exact E|rewrite Ea; done|exact Ef|rewrite Ep; done|exact Eo].
Qed.

Lemma pinv_toks st T T' : pinv st T -> (forall x, pkt_rel x = true -> T x = T' x) -> pinv st T'.
Proof. intros Hp E. eapply pinv_mem; [exact Hp|done|exact E]. Qed.

Lemma overlapped_call_mem choice st io ev b st' :
  overlapped_call choice st io ev = Ok (b, st') -> same_mem st st'.
Proof.
  assert (E : same_mem st (fold_left emit ev st)).
  { revert st. induction ev as [|e ev IH]; intros st; [done|]. exact (IH (emit st e)). }
  unfold overlapped_call. intros Hx. split_ifs; inv_ok; done.
Qed.

(** Tokens that do not matter to the packets, or only to them. *)
Ltac irrelevant :=
  let x := fresh "x" in let Hx := fresh in intros x Hx; unfold swap;
  match goal with |- context [(_ - ?R x)%nat] =>
    try match goal with Hb : below R _ |- _ => pose proof (Hb x) end end;
  unfold pks, unpks, tadd, tsub, tclr; destruct x; try discriminate Hx; repeat case_decide; simplify_eq; try done; lia.

Lemma pinv_one tr st al T i s : good tr st al T -> get_session st i = Ok s -> solo st T i.
Proof. intros [Hv _] Hs%view_get. exact (one_state _ _ _ _ _ Hv Hs). Qed.

(** The send side of a session is not part of the view, but for the flag. *)
Lemma view_send st i s n q arr :
  get_session st i = Ok s -> view_of (set_session st i (with_send s (sendFlag s) n q arr)) = view_of st.
Proof. intros Hs. rewrite view_set. apply v_set_same, (view_get _ _ _ Hs). Qed.

Lemma below_units (R T : toks) i :
  below R T -> (units R i + R (Tmp i) <= units T i + T (Tmp i))%nat.
Proof. intros Hb. tok. Qed.

(** ** The soundness of [act_spec] *)

(** What has to be shown of an action. *)
Definition sound {B} (a : act B) : Prop := forall choice tr st b st' al T R Q,
  good tr st al T -> below R T -> no_overflow st a -> act_spec a Q R -> exec choice a st = Ok (b, st') ->
  exists R', Q b R' /\ good (tr ++ act_label a b) st' (alloc_after a al) (swap T R R').

(** An action on one session: its state before and after. *)
Ltac on_slot :=
  intros choice tr st b st' al T R Q Hg Hb Ho Hs Hx; cbn in Hs, Hx, Ho;
  apply on_session_inv in Hx as (s & s' & Hss & Hf & ->); pose proof (proj1 Hg) as Hv; pose proof (proj1 (proj2 Hg)) as Hp;
  pose proof (proj2 (proj2 Hg)) as Hh; pose proof (view_get _ _ _ Hss) as Hc;
  pose proof (pinv_one _ _ _ _ _ _ Hg Hss) as Hone; cbn [alloc_after act_label]; rewrite ?app_nil_r.

(** An action that leaves the send side. *)
Ltac hist := let Hrel := fresh "Hrel" in intros Hrel;
  match goal with Hh : reliable = true -> hinv _ _ _ |- _ => specialize (Hh Hrel) end.
Ltac calmly := intros ?j; split_and!; [..|intros ?ps ?m]; tok.
Ltac core :=
  split; [eapply pinv_core; [eassumption|eassumption|done|irrelevant]
         |hist; eapply hinv_core; [eassumption|eassumption|done|done|calmly]].
Ltac slot_good L := split; [rewrite view_set; exact L|core].

Lemma sound_IncIo i : sound (IncIo i).
Proof.
  on_slot. injection Hf as <- <-. pose proof (inv_io _ _ _ Hv _ _ Hc) as Hio. cbn in Hio.
  apply get_session_spec in Hss as Hi. specialize (Ho _ (proj2 Hi)). rewrite u_small in * by lia.
  destruct Hs as [[Hr HQ]|HQ]; eexists; (split; [apply HQ|]).
  - slot_good (inv_inc _ _ _ _ _ _ _ Hv Hb (or_intror (conj eq_refl Hr)) Hc Ho).
  - slot_good (inv_inc _ _ _ _ _ _ _ Hv Hb (or_introl eq_refl) Hc Ho).
Qed.

Lemma sound_DecIo i : sound (DecIo i).
Proof.
  on_slot. injection Hf as <- <-. destruct Hs as (x & Hx & Hr & HQ).
  pose proof (inv_io _ _ _ Hv _ _ Hc) as Hio. pose proof (inv_range _ _ _ Hv _ _ Hc) as Hrg.
  cbn in Hio, Hrg. pose proof (below_units _ _ i Hb) as Hle.
  assert ((0 < units R i + R (Tmp i))%nat).
  { unfold has, units, insides, senders in *. destruct Hx as [->|[->|[->|[->| ->]]]]; lia. }
  rewrite u_small in * by lia. eexists; split; [apply HQ; intros; lia|].
  split; [rewrite view_set; exact (inv_dec _ _ _ _ _ _ _ Hv Hb Hx Hr Hc)|].
  destruct (ioCount s - 1 =? 0), Hx as [->|[->|[->|[->| ->]]]]; core.
Qed.

Lemma sound_CasRelease i : sound (CasRelease i).
Proof.
  on_slot. destruct Hs as [Ha HQ]. unfold cas_release in Hf.
  pose proof (inv_al _ _ _ Hv i (has_below _ _ _ Hb Ha)) as Hi.
  destruct (inv_ident _ _ _ _ _ Hv Hc Hi) as (Hfl & _ & _).
  pose proof (inv_io _ _ _ Hv _ _ Hc) as Hio. cbn in Hfl, Hio.
  destruct (_ =? 0) eqn:E; injection Hf as <- <-; eexists; (split; [apply HQ|]); rewrite E.
  - assert (L : releaseFlag s = 0 /\ ioCount s = 0) by zlia.
    slot_good (inv_cas_win _ _ _ _ _ _ Hv Hb Ha Hc (proj1 L) (proj2 L)).
  - assert (L : releaseFlag s <> 0 \/ ioCount s <> 0) by zlia.
    slot_good (inv_cas_lose _ _ _ _ _ _ Hv Hb Hc L).
Qed.

Lemma sound_SetReleaseFlag i v : sound (SetReleaseFlag i v).
Proof.
  on_slot. destruct Hs as (-> & Ho' & Hr & Hk & HQ). injection Hf as <- <-.
  eexists; split; [exact HQ|]. split; [rewrite view_set; exact (inv_open _ _ _ _ _ _ Hv Hb Ho' Hr Hk Hc)|].
  pose proof (pinv_owned _ _ _ _ _ (New i) (Setup i) Hp Hb Hone (or_intror (conj eq_refl eq_refl)) Ho' Hss).
  split; [eapply pinv_core; [eassumption|eassumption|done|irrelevant]|hist; eapply hinv_open; done].
Qed.

Lemma sound_SetSessionID i v : sound (SetSessionID i v).
Proof.
  on_slot. destruct Hs as (Ho' & Hid & HQ). injection Hf as <- <-. eexists; split; [exact HQ|].
  split; [rewrite view_set; exact (inv_set_id _ _ _ _ _ _ _ Hv Hb Ho' Hid Ho Hc)|].
  pose proof (pinv_owned _ _ _ _ _ (Own i) (New i) Hp Hb Hone (or_introl (conj eq_refl eq_refl)) Ho' Hss).
  core.
Qed.

Lemma sound_SetSocket i v : sound (SetSocket i v).
Proof.
  on_slot. destruct Hs as (Ho' & Hid & HQ). injection Hf as <- <-. eexists; split; [exact HQ|].
  slot_good (inv_set_sock _ _ _ _ _ _ _ Hv Hb Ho' Hid Hc).
Qed.

Lemma sound_XchgSocket i : sound (XchgSocket i).
Proof.
  on_slot. injection Hf as <- <-. eexists; split; [apply Hs|].
  slot_good (inv_xchg _ _ _ _ _ _ Hv Hb Hc).
Qed.

(** *** The send side *)

(** The tokens of the invariant are those, with tokens about packets. *)
Ltac with_pkts L := eapply inv_ext; [|exact L]; irrelevant.

Lemma sender_flag tr st al T R i s :
  good tr st al T -> below R T -> has R (Snd i) -> get_session st i = Ok s -> sendFlag s = 1.
Proof.
  intros [Hv _] Hb Hr Hss%view_get. pose proof (inv_snd _ _ _ Hv _ _ Hss) as Hsn. cbn in Hsn.
  apply (has_below _ _ _ Hb) in Hr. unfold has, senders in *. destruct (sendFlag s =? 1) eqn:E; zlia.
Qed.

Lemma sound_XchgSendFlag i v : sound (XchgSendFlag i v).
Proof.
  on_slot. injection Hf as <- <-. destruct Hs as [(-> & Hr & HQ)|(-> & Hr & ps & Hba & HQ)]; (eexists; split; [apply HQ|]).
  - split.
    + rewrite view_set. pose proof (inv_take_send _ _ _ _ _ _ Hv Hb Hr Hc) as L. cbn in L.
      destruct (sendFlag s =? 1); [exact L|with_pkts L].
    + destruct (sendFlag s =? 1) eqn:E; b2p.
      * split; [eapply pinv_core; [exact Hp|exact Hss| |irrelevant]; unfold send_side; cbn; rewrite E; done|].
        hist. eapply hinv_core; [exact Hh|exact Hss|done|cbn; rewrite E; done|calmly].
      * assert (Hi : inside T i) by (eapply inside_below; [exact Hb|unfold inside, insides, has in *; lia]).
        pose proof (inside_used _ _ _ _ _ Hv Hc Hi) as Hu. pose proof (inv_snd _ _ _ Hv _ _ Hc) as Hsn. cbn [c_send core_of] in Hsn.
        apply Z.eqb_neq in E as E'. rewrite E' in Hsn.
        split; [apply pinv_take_send|hist; apply hinv_take_send]; try done; change (free_of st i) with (free_count (view_of st) i); lia.
  - split.
    + rewrite view_set. with_pkts (inv_give_send _ _ _ _ _ _ Hv Hb Hr Hc).
    + split; [eapply pinv_give_send|hist; eapply hinv_give_send]; done.
Qed.

Lemma sound_SetSendFlag i v : sound (SetSendFlag i v).
Proof.
  on_slot. injection Hf as <- <-. destruct Hs as (-> & [(Hr & n & Hba & HQ)|[Hr HQ]]); (eexists; split; [exact HQ|]).
  - split.
    + rewrite view_set. with_pkts (inv_give_send _ _ _ _ _ _ Hv Hb Hr Hc).
    + split; [eapply pinv_give_send|hist; eapply hinv_give_send]; done.
  - assert (Hst : (0 < setups T i)%nat) by (apply (has_below _ _ _ Hb) in Hr; unfold has, setups in *; lia).
    split; [rewrite view_set; exact (inv_reset_send _ _ _ _ _ _ Hv Hb Hr Hc)|]. split.
    + apply (pinv_toks _ T); [|irrelevant]. apply pinv_reset_send; done.
    + hist. eapply hinv_mem; [apply (hinv_reset_send tr st T); done|done|calmly].
Qed.

Lemma sound_SetSendCnt i v : sound (SetSendCnt i v).
Proof.
  on_slot. injection Hf as <- <-.
  destruct Hs as [(-> & Hr & HQ)|[(-> & Hr & HQ)|(Hr & ps & n & Hba & -> & Hoc & HQ)]]; (eexists; split; [exact HQ|]).
  all: split; [rewrite (view_send _ _ _ _ _ _ Hss)|].
  - apply (inv_turn _ _ _ _ i); [done..|]. unfold next_tok. tauto.
  - split; [apply (pinv_reset_count _ _ _ _ _ (Taken i) (Snd i)); auto|hist; eapply hinv_core; [done..|calmly]].
  - apply (inv_turn _ _ _ _ i); [done..|]. unfold next_tok. tauto.
  - split; [apply (pinv_reset_count _ _ _ _ _ (Setup i) (Ready i)); auto|hist; eapply hinv_core; [done..|calmly]].
  - assert (L : inv (view_of st) al (swap T R (tadd (Load i) (tsub (Snd i) R))))
      by (apply (inv_turn _ _ _ _ i); [done..|]; unfold next_tok; tauto). with_pkts L.
  - pose proof (sender_flag _ _ _ _ _ _ _ Hg Hb Hr Hss). split; [eapply pinv_set_count; done|hist; eapply hinv_core; [done..|calmly]].
Qed.

Lemma sound_SendQEnqueue i p : sound (SendQEnqueue i p).
Proof.
  on_slot. injection Hf as <- <-. destruct Hs as (Hi & Hr & HQ). eexists; split; [apply HQ|].
  split; [rewrite (view_send _ _ _ _ _ _ Hss); with_pkts Hv|].
  pose proof (inside_used _ _ _ _ _ Hv Hc (inside_below _ _ _ Hb Hi)) as Hu.
  split; [apply pinv_enqueue|hist; apply hinv_enqueue]; try done; unfold free_of; lia.
Qed.

Lemma set_session_same st i s : get_session st i = Ok s -> set_session st i s = st.
Proof. intros [_ Hs]%get_session_spec. unfold set_session. rewrite list_insert_id by exact Hs. destruct st; done. Qed.

Lemma sound_SendQDequeue i : sound (SendQDequeue i).
Proof.
  on_slot. destruct (sendQ s) as [|p q] eqn:Eq; injection Hf as <- <-.
  - rewrite (set_session_same _ _ _ Hss). destruct Hs as [(Hr & ps & n & Hba & Hno & HQ)|(Hr & HQ & _)].
    + destruct (decide (reliable = true)) as [Hrel|Hrel%not_true_is_false].
      * exfalso. destruct (p_slot _ _ Hp _ _ Hss) as [_ _ _ (o & Ho' & Hk)].
        destruct (bat_held _ _ _ _ _ _ Ho' Hb Hba) as [-> _]. destruct Hk as (_ & _ & Hn). specialize (Hn Hrel).
        rewrite Eq in Hn. cbn in Hn. lia.
      * eexists; split; [exact (Hno Hrel)|]. split; [with_pkts Hv|]. split; [eapply pinv_hole; done|congruence].
    + eexists; split; [exact HQ|].
      split; [|split; [apply (pinv_drained _ _ _ _ s); done|hist; eapply hinv_mem; [done..|calmly]]].
      apply (inv_turn _ _ _ _ i); [done..|]. unfold next_tok. tauto.
  - destruct Hs as [(Hr & ps & n & Hba & _ & HQ)|(Hr & _ & HQ)]; (eexists; split; [apply HQ|]).
    all: split; [rewrite (view_send _ _ _ _ _ _ Hss); with_pkts Hv|].
    + split; [eapply pinv_dequeue|hist; eapply hinv_dequeue]; done.
    + split; [eapply pinv_drain; done|]. hist. eapply hinv_owned; [done|done|slot_tokens|tok].
Qed.

Lemma sound_SetSendPacket i k p : sound (SetSendPacket i k p).
Proof.
  on_slot. destruct (_ && _) eqn:E; [|done]. injection Hf as <- <-. b2p.
  destruct Hs as (Hr & ps & n & Hba & -> & HQ). eexists; split; [apply HQ|].
  split; [rewrite (view_send _ _ _ _ _ _ Hss); with_pkts Hv|].
  rewrite Nat2Z.id. split; [apply pinv_fill; try done; lia|hist; apply hinv_fill; done].
Qed.

(** The reads of the send side. *)
Ltac on_read :=
  intros choice tr st b st' al T R Q Hg Hb Ho Hs Hx; cbn in Hs, Hx; clear Ho;
  apply read_session_inv in Hx as (-> & s & Hss & ->); pose proof (proj1 Hg) as Hv; pose proof (proj1 (proj2 Hg)) as Hp;
  pose proof (proj2 (proj2 Hg)) as Hh; pose proof (view_get _ _ _ Hss) as Hc;
  pose proof (pinv_one _ _ _ _ _ _ Hg Hss) as Hone; cbn [alloc_after act_label]; rewrite ?app_nil_r.

Lemma good_same tr st al T R : good tr st al T -> below R T -> good tr st al (swap T R R).
Proof.
  intros (Hv & Hp & Hh) Hb. split; [apply inv_same; done|]. split; [eapply pinv_toks; [exact Hp|irrelevant]|].
  hist. eapply hinv_mem; [exact Hh|done|calmly].
Qed.

Lemma sound_GetSendCnt i : sound (GetSendCnt i).
Proof.
  on_read. destruct Hs as [[Hr HQ]|[Hr HQ]].
  1: destruct (pinv_take_over _ _ _ _ _ (Sent i) (Taken i) Hp Hb Hone (or_introl (conj eq_refl eq_refl)) Hr Hss) as (ps & -> & Hp').
  2: destruct (pinv_take_over _ _ _ _ _ (Drained i) (Closing i) Hp Hb Hone (or_intror (conj eq_refl eq_refl)) Hr Hss) as (ps & -> & Hp').
  all: eexists; (split; [apply HQ|]); split; [|split; [exact Hp'|]].
  - assert (L : inv (view_of st) al (swap T R (tadd (Taken i) (tsub (Sent i) R))))
      by (apply (inv_turn _ _ _ _ i); [done..|]; unfold next_tok; tauto). with_pkts L.
  - hist. eapply hinv_take_over; done.
  - assert (L : inv (view_of st) al (swap T R (tadd (Closing i) (tsub (Drained i) R))))
      by (apply (inv_turn _ _ _ _ i); [done..|]; unfold next_tok; tauto). with_pkts L.
  - rewrite <- (set_session_same _ _ _ Hss) at 1. hist. eapply hinv_owned; [done|done|slot_tokens|tok].
Qed.

Lemma sound_SendQSize i : sound (SendQSize i).
Proof.
  on_read. destruct Hs as [[Hi HQ]|(Hr & ps & n & Hba & HQ)].
  - exists R. split; [apply HQ|apply good_same; done].
  - eexists; split; [apply HQ|]. split; [with_pkts Hv|].
    split; [apply (pinv_count_queue _ _ _ _ _ _ _ _ Hp Hb Hr Hba Hss), Nat.le_refl|hist; eapply hinv_count_queue; done].
Qed.

Lemma sound_GetSendPacket i k : sound (GetSendPacket i k).
Proof.
  intros choice tr st b st' al T R Q Hg Hb _ Hs Hx; cbn in Hs, Hx. cbn [act_label]. rewrite app_nil_r. destruct (get_session st i) as [s|] eqn:Hss; [|done]. cbn in Hx.
  destruct (p_slot _ _ (proj1 (proj2 Hg)) _ _ Hss) as [_ _ _ (o & Ho' & Hok)]. destruct Hs as [Hr Hs].
  destruct Hs as [(ps & m & p & Hba & Hk & Hl & HQ)|(Hrel & ps & n & Hba & -> & HQ)].
  - replace (k <? 0) with false in Hx by lia. destruct (bat_held _ _ _ _ _ _ Ho' Hb Hba) as [-> _].
    destruct Hok as (_ & [tl Hpre] & _).
    rewrite Hpre, lookup_app_l, Hl in Hx by eauto using lookup_lt_Some. injection Hx as <- <-.
    exists R. split; [exact HQ|apply good_same; done].
  - rewrite (proj2 (Z.ltb_ge _ _) (Nat2Z.is_nonneg _)), Nat2Z.id in Hx.
    destruct (sendPacketArr s !! length ps) as [p|] eqn:Ha; [|done]. injection Hx as <- <-.
    eexists; split; [apply HQ|]. destruct Hg as (Hv & Hp & _). split; [with_pkts Hv|].
    split; [eapply pinv_old_place; done|congruence].
Qed.

(** *** Reads, the free stack, and the operating system *)
Lemma view_slot st i c : v_get (view_of st) i = Some c -> exists s, get_session st i = Ok s.
Proof.
  unfold v_get, get_session. destruct (i <? 0); [done|]. cbn. rewrite list_lookup_fmap.
  destruct (sessionArr st !! Z.to_nat i); [eauto|done].
Qed.

Lemma sound_GetReleaseFlag i : sound (GetReleaseFlag i).
Proof.
  on_read. destruct Hs as (Ha & Ht & HQ). pose proof (inv_al _ _ _ Hv i (has_below _ _ _ Hb Ha)) as Hi.
  eexists; split; [apply HQ|]. destruct (releaseFlag s =? 1) eqn:E; [apply good_same; done|].
  destruct (inv_ident _ _ _ _ _ Hv Hc Hi) as ([Hf|Hf] & _ & _); cbn in Hf; [|zlia].
  split; [|split; [eapply pinv_toks; [exact Hp|irrelevant]|hist; eapply hinv_mem; [exact Hh|done|calmly]]].
  rewrite <- (v_set_same _ _ _ Hc) at 1.
  exact (inv_validate _ _ _ _ _ _ Hv Hb Ht Hi Hc Hf).
Qed.

Lemma sound_GetSessionID i : sound (GetSessionID i).
Proof.
  on_read. destruct Hs as (Ha & HQ). pose proof (inv_al _ _ _ Hv i (has_below _ _ _ Hb Ha)) as Hi.
  pose proof (proj1 (proj2 (inv_ident _ _ _ _ _ Hv Hc Hi))) as Hid.
  destruct HQ as [HQ|(Hr & id & He & HQ)]; (eexists; split; [apply HQ, Hid|]); [apply good_same; done|].
  destruct (sessionID s =? id) eqn:E; [|apply good_same; done]. apply Z.eqb_eq in E as <-.
  split; [|split; [eapply pinv_toks; [exact Hp|irrelevant]|hist; eapply hinv_mem; [exact Hh|done|calmly]]].
  rewrite <- (v_set_same _ _ _ Hc) at 1. exact (inv_enter _ _ _ _ _ _ Hv Hb Hr Hc He).
Qed.

Lemma sound_GetSocket i : sound (GetSocket i).
Proof.
  on_read. destruct Hs as [Ha HQ]. exists R. split; [|apply good_same; done]. apply HQ.
  destruct (inv_ident _ _ _ i (core_of s) Hv Hc) as (_ & _ & [_ Hk]); [eapply inv_al; eauto using has_below|].
  cbn in Hk. intros E. rewrite E in Hk. discriminate Hk.
Qed.

Lemma sound_FreePush i : sound (FreePush i).
Proof.
  intros choice tr st b st' al T R Q Hg Hb _ (Hr & Hi & ps & Hba & HQ) Hx. injection Hx as <- <-.
  cbn [act_label]. rewrite app_nil_r.
  eexists; split; [exact HQ|]. destruct (proj1 Hg : inv _ _ _) eqn:Hv. clear Hv.
  destruct (inv_dom i) as [c Hc]; [apply (has_below _ _ _ Hb) in Hr; unfold has, owners in *; lia|].
  destruct (view_slot _ _ _ Hc) as [s Hss]. pose proof (pinv_one _ _ _ _ _ _ Hg Hss) as Hone. split; [|split].
  - with_pkts (inv_push _ _ _ _ _ (proj1 Hg) Hb Hr Hi).
  - eapply pinv_pushed; first [exact (proj1 (proj2 Hg)) | done].
  - intros Hrel. eapply hinv_freed; first [exact (proj2 (proj2 Hg) Hrel) | slot_tokens | done].
Qed.

Lemma sound_FreePop : sound FreePop.
Proof.
  intros choice tr st b st' al T R Q Hg Hb _ [HN HS] Hx. cbn in Hx. cbn [act_label]. rewrite app_nil_r.
  destruct (freeSessionStack st) as [|i l] eqn:E; injection Hx as <- <-.
  - exists R; split; [done|]. apply good_same; done.
  - pose proof (inv_free _ _ _ (proj1 Hg)) as Hfr. cbn in Hfr. rewrite E in Hfr. apply Forall_cons in Hfr as [Hi _].
    eexists; split; [apply HS, Hi|]. split; [exact (inv_pop _ _ _ _ _ _ (proj1 Hg) Hb E)|]. split.
    2: { intros Hrel. eapply hinv_mem; [exact (proj2 (proj2 Hg) Hrel)|done|]. intros j. rewrite free_of_set, free_of_eq, E, count_cons.
         change (sending_of (set_free st l) j) with (sending_of st j).
         split_and!; [|tok|tok|intros ? ?; tok]. destruct (Z.eqb_spec i j); subst; tok. }
    destruct (inv_dom _ _ _ (proj1 Hg) i) as [c Hc].
    { unfold free_count. cbn [view_of v_free]. rewrite E, count_cons, Z.eqb_refl. cbn. lia. }
    destruct (view_slot _ _ _ Hc) as [s Hss]. pose proof (pinv_one _ _ _ _ _ _ Hg Hss) as Hone.
    eapply pinv_popped; first [exact (proj1 (proj2 Hg)) | done].
Qed.

Lemma rest_good tr st st' T T' :
  pinv st T /\ (reliable = true -> hinv tr st T) -> same_mem st st' ->
  (forall x, pkt_rel x = true -> T x = T' x) -> calm st st' T T' -> pinv st' T' /\ (reliable = true -> hinv tr st' T').
Proof.
  intros [Hp Hh] Hm E Hc. split; [eapply pinv_mem; [exact Hp|exact Hm|exact E]|]. hist.
  eapply hinv_mem; [exact Hh|apply Hm|exact Hc].
Qed.

(** A change of the lists at most: the free slots and the sends are the same. *)
Ltac calm_lists := intros ?j; unfold sending_of, free_of in *; rewrite ?view_emit;
  unfold sending, free_count in *; cbn [v_free v_pend v_iocp view_of freeSessionStack iocp pend set_iocp set_pend emit] in *;
  rewrite ?count_app, ?count_cons, ?count_nil; cbn [is_send lpOverlapped andb ind];
  split_and!; [..|intros ?ps ?m]; tok.

Lemma sound_Post j i : sound (Post j i).
Proof.
  intros choice tr st b st' al T R Q [Hv Hp] Hb _ [Ha HQ] Hx. cbn in Hx. cbn [act_label]. rewrite app_nil_r.
  destruct (choice =? 0); injection Hx as <- <-.
  - pose proof (inv_lost _ _ _ _ (j, i) Hv Hb) as L. cbn in L.
    destruct HQ as [[-> HQ]|(-> & _ & _ & HQ)]; eexists; (split; [apply HQ|]);
      (split; [rewrite view_emit; exact L|eapply rest_good; [exact Hp|done|irrelevant|calm_lists]]).
  - destruct HQ as [[-> HQ]|(-> & Hr & HQ & _)]; eexists; (split; [apply HQ|]).
    + split; [exact (inv_post_release _ _ _ _ _ Hv Hb Ha)|eapply rest_good; [exact Hp|done|irrelevant|calm_lists]].
    + split; [exact (inv_post_send _ _ _ _ _ Hv Hb Ha Hr)|eapply rest_good; [exact Hp|done|irrelevant|calm_lists]].
Qed.

Lemma sound_WSARecv i bufs : sound (WSARecv i bufs).
Proof.
  intros choice tr st b st' al T R Q Hg Hb _ (Ha & Hr & HQ) Hx. cbn in Hx. cbn [act_label]. rewrite app_nil_r. inv_ok.
  eexists; split; [apply HQ|].
  pose proof (overlapped_call_mem _ _ _ _ _ _ Hx) as Hm. apply overlapped_call_inv in Hx; [|done]. split.
  - rewrite Hx. destruct (started b); [exact (inv_start _ _ _ _ (PendRecv i bufs) (proj1 Hg) Hb Ha Hr)|apply inv_same; [apply Hg|done]].
  - eapply rest_good; [exact (proj2 Hg)|exact Hm|destruct (started b); irrelevant|].
    destruct Hm as (_ & Hf & _). intros j. unfold sending_of. rewrite Hx, !free_of_eq, Hf.
    destruct (started b); unfold sending; cbn [v_pend v_iocp view_of]; rewrite ?count_app, ?count_cons, ?count_nil;
      (split_and!; [..|intros ? ?]; tok).
Qed.

Lemma sound_WSASend i bufs : sound (WSASend i bufs).
Proof.
  intros choice tr st b st' al T R Q Hg Hb _ (Ha & Hr & n & Hba & HQ) Hx. cbn in Hx. inv_ok.
  pose proof (view_get _ _ _ E) as Hc. pose proof (inv_snd _ _ _ (proj1 Hg) _ _ Hc) as Hsn.
  pose proof (pinv_one _ _ _ _ _ _ Hg E) as Hone. cbn [act_label].
  eexists; split; [apply HQ|].
  pose proof (overlapped_call_mem _ _ _ _ _ _ Hx) as Hm. apply overlapped_call_inv in Hx; [|repeat constructor].
  split; [|split].
  - rewrite Hx. cbv zeta. destruct (started b).
    + with_pkts (inv_start _ _ _ _ (PendSend i) (proj1 Hg) Hb Ha Hr).
    + with_pkts (inv_unload _ _ _ _ i (proj1 Hg) Hb Hr).
  - eapply pinv_mem; [|exact Hm|done]. exact (pinv_posted _ _ _ _ _ _ _ (started b) (proj1 (proj2 Hg)) Hb Hr Hba E).
  - intros Hrel. eapply hinv_posted; [exact (proj1 (proj2 Hg))|exact (proj2 (proj2 Hg) Hrel)|done..|exact Hsn|apply Hm|apply Hm|].
    intros j Hj. unfold sending_of. rewrite Hx. destruct Hj as [->|Hj]; [done|].
    destruct (started b); [|done]. unfold sending; cbn [v_pend v_iocp view_of]. rewrite count_app, count_cons, count_nil.
    replace (i =? j) with false by lia. cbn. lia.
Qed.

Lemma sound_CreatePort s i : sound (CreatePort s i).
Proof.
  intros choice tr st b st' al T R Q Hg Hb _ (Hr & Hyes & Hno) Hx. cbn in Hx. cbn [act_label]. rewrite app_nil_r.
  destruct (get_session st i) as [d|] eqn:Hss; [|done]. cbn in Hx.
  pose proof (view_get _ _ _ Hss) as Hgv. pose proof (pinv_one _ _ _ _ _ _ Hg Hss) as Hone.
  pose proof (pinv_ready _ _ _ _ _ (proj1 (proj2 Hg)) Hb Hone Hr Hss) as Hp.
  assert (Hh : reliable = true -> hinv tr st (swap T R (tsub (Ready i) R))).
  { intros Hrel. eapply hinv_mem; [exact (proj2 (proj2 Hg) Hrel)|done|calmly]. }
  destruct (choice =? 0); injection Hx as <- <-; eexists.
  - split; [exact Hno|]. split; [|eapply rest_good; [exact (conj Hp Hh)|done|done|calm_lists]].
    rewrite view_emit. exact (inv_port _ _ _ _ _ (proj1 Hg) Hb Hr).
  - split; [exact Hyes|]. split; [|eapply rest_good; [exact (conj Hp Hh)|done|irrelevant|calm_lists]].
    rewrite view_emit. exact (inv_announce _ _ _ _ _ _ (proj1 Hg) Hb Hr Hgv (v_set_same _ _ _ Hgv)).
Qed.

(** *** Packets *)

(** The queues are not touched. *)
Lemma sends_same tr st st' T T' :
  (reliable = true -> hinv tr st T) -> sessionArr st' = sessionArr st -> view_of st' = view_of st ->
  (forall x, pkt_tok x = false -> T x = T' x) ->
  (forall i ps m, T (Bat i ps m) = T' (Bat i ps m)) -> reliable = true -> hinv (tr ++ []) st' T'.
Proof.
  intros Hh Ea Ev E Eb. hist. rewrite app_nil_r. eapply hinv_mem; [exact Hh|exact Ea|]. intros j.
  unfold sending_of, free_of, owners, setups, senders. rewrite Ev, !E by done. split_and!; try lia.
  intros ps m. rewrite Eb. done.
Qed.
Ltac sends_same := eapply sends_same; [eassumption|done|done|irrelevant|intros ? ? ?; tok].

Lemma sound_PoolAlloc : sound PoolAlloc.
Proof.
  intros choice tr st b st' al T R Q (Hv & Hp & Hh) Hb _ HQ Hx. cbn in Hx. inv_ok. destruct a as [p pl]. inv_ok.
  eexists; split; [apply HQ|]. split; [with_pkts Hv|]. split; [|sends_same].
  eapply pinv_alloc; [exact Hp|exact Hb|exact E].
Qed.

Lemma sound_PoolFree p : sound (PoolFree p).
Proof.
  intros choice tr st b st' al T R Q (Hv & Hp & Hh) Hb _ [Hr HQ] Hx. cbn in Hx. inv_ok. destruct a as [b' pl]. inv_ok.
  eexists; split; [apply HQ|]. split; [with_pkts Hv|]. split; [eapply pinv_free; done|sends_same].
Qed.

Lemma sound_Packet {B} p (f : CNetPacket.t -> outcome (B * CNetPacket.t)) : sound (Packet p f).
Proof.
  intros choice tr st b st' al T R Q (Hv & Hp & Hh) Hb Ho Hs Hx. cbn in Hx, Ho. inv_ok. destruct a as [b' pk]. inv_ok.
  destruct Hs as [(Hr & Hf & HQ)|[(Hr & Hf & HQ)|[(Hr & Hf & HQ)|(Hr & z & Hf & HQ)]]];
    specialize (Hf _ _ _ E); (eexists; split; [apply HQ|]).
  all: split; [try destruct (z b =? 0); with_pkts Hv|split; [|try destruct (z b =? 0); sends_same]].
  - apply pinv_keep; [|exact Hf]. eapply pinv_toks; [exact Hp|irrelevant].
  - pose proof (pinv_add_ref _ _ _ _ (Pk p) _ Hp Hb (or_introl eq_refl) Hr Ho Hf) as L.
    rewrite decide_True in L by done. exact L.
  - pose proof (pinv_add_ref _ _ _ _ (Raw p) _ Hp Hb (or_intror eq_refl) Hr Ho Hf) as L.
    rewrite decide_False in L by done. exact L.
  - destruct Hf as [Hf ->]. exact (pinv_drop_ref _ _ _ _ _ Hp Hb Hr Ho Hf).
Qed.

(** *** What does not touch the protocol *)
Lemma good_mem tr st st' al T R :
  good tr st al T -> below R T -> view_of st' = view_of st -> same_mem st st' -> good (tr ++ []) st' al (swap T R R).
Proof.
  intros Hg Hb Hv Hm. destruct (good_same _ _ _ _ _ Hg Hb) as (Hv' & Hp & Hh). split; [rewrite Hv; exact Hv'|].
  split; [eapply pinv_mem; [exact Hp|exact Hm|done]|eapply sends_same; [exact Hh|apply Hm|exact Hv|done|done]].
Qed.

Lemma good_core tr st al T R i s s' :
  good tr st al T -> below R T -> get_session st i = Ok s -> core_of s' = core_of s -> send_side s' = send_side s ->
  good tr (set_session st i s') al (swap T R R).
Proof.
  intros Hg Hb Hs Hc Hd. destruct (good_same _ _ _ _ _ Hg Hb) as (Hv & Hp & Hh). split; [|split].
  - rewrite view_set, Hc, v_set_same; [exact Hv|apply view_get, Hs].
  - eapply pinv_core; [exact Hp|exact Hs|exact Hd|done].
  - injection Hd as ? ? ? ?. hist. eapply hinv_core; [exact Hh|exact Hs|done|done|done].
Qed.

Lemma sound_RecvQ {B} i (f : CRingBuffer.t -> outcome (B * CRingBuffer.t)) : sound (RecvQ i f).
Proof.
  on_slot. inv_ok. destruct a as [b0 rb]. inv_ok. destruct Hs as [_ HQ]. exists R. split; [apply HQ|].
  eapply good_core; done.
Qed.

Lemma sound_RecvDequeueTo i p n : sound (RecvDequeueTo i p n).
Proof.
  intros choice tr st b st' al T R Q Hg Hb _ (_ & _ & HQ) Hx. cbn in Hx. inv_ok. destruct a0 as [[k dest] rb]. inv_ok.
  exists R. split; [apply HQ|]. pose proof (good_core _ _ _ _ _ i a (with_recvQ a rb) Hg Hb E eq_refl eq_refl) as (Hv & Hp & Hh).
  split; [exact Hv|]. split; [apply pinv_keep; [exact Hp|done]|eapply sends_same; [exact Hh|done..]].
Qed.

Lemma sound_SetRelSocket i v : sound (SetRelSocket i v).
Proof.
  on_slot. injection Hf as <- <-. destruct Hs as [_ HQ]. exists R. split; [exact HQ|]. eapply good_core; done.
Qed.

Theorem act_sound {B} (a : act B) : sound a.
Proof.
  destruct a; eauto using sound_IncIo, sound_DecIo, sound_CasRelease, sound_GetReleaseFlag, sound_SetReleaseFlag,
    sound_GetSessionID, sound_SetSessionID, sound_GetSocket, sound_SetSocket, sound_XchgSocket, sound_SetRelSocket,
    sound_XchgSendFlag, sound_SetSendFlag, sound_GetSendCnt, sound_SetSendCnt, sound_SendQSize, sound_SendQEnqueue,
    sound_SendQDequeue, sound_SetSendPacket, sound_GetSendPacket.
  all: eauto using sound_RecvQ, sound_RecvDequeueTo, sound_PoolAlloc, sound_PoolFree, sound_Packet, sound_FreePush,
    sound_FreePop, sound_Post, sound_WSARecv, sound_WSASend, sound_CreatePort.
  all: intros choice tr st b st' al T R Q Hg Hb _ Hs Hx; cbn in Hs, Hx; inv_ok;
    exists R; (split; [apply Hs|]); (eapply good_mem; [exact Hg|exact Hb| |done]); try done; cbn.
  all: apply view_emit_same; try done; apply Hs.
Qed.

End sound.
