(* ===== verification/SessionThreads.v ===== *)
(** * Every member function keeps the session protocol

    The weakest preconditions of the member functions of [CNetServer] in the logic of
    [SessionLogic]: what each needs of the thread that calls it and what it gives back, of
    sessions and of packets, and what it asks of the handlers of the program. *)
From S2P Require Import Prelude.
From S2P Require Import RingBuffer.
From S2P Require Import NetPacket.
From S2P Require Import ObjectPool.
From S2P Require Import ServerState.
From S2P Require Import NetServer.
From S2P Require Import SessionLogic.
From S2P Require Import PacketLogic.
From stdpp Require Import prelude gmap list.
From Stdlib Require Import ZArith Lia FunctionalExtensionality.
Open Scope Z_scope.

#[local] Arguments CNetServer.RequestRelease : simpl never.
#[local] Arguments CNetServer.LeaveSession : simpl never.
#[local] Arguments CNetServer.EnterSession : simpl never.
#[local] Arguments CNetServer.io_error : simpl never.
#[local] Arguments CNetServer.SendPost_enter : simpl never.
#[local] Arguments CNetServer.SendPost_fill : simpl never.
#[local] Arguments CNetServer.SendPost : simpl never.
#[local] Arguments CNetServer.SendPacket : simpl never.
#[local] Arguments CNetServer.RecvPost : simpl never.
#[local] Arguments CNetServer.Disconnect : simpl never.
#[local] Arguments CNetServer.drain_sendQ : simpl never.
#[local] Arguments CNetServer.free_sent : simpl never.
#[local] Arguments CNetServer.ReleaseSession : simpl never.
#[local] Arguments CNetServer.receive_packet : simpl never.
#[local] Arguments CNetServer.receive_loop : simpl never.
#[local] Arguments CNetServer.on_sent : simpl never.
#[local] Arguments CNetServer.on_received : simpl never.
#[local] Arguments CNetServer.take_in : simpl never.
#[local] Arguments CNetServer.worker_leave : simpl never.
#[local] Arguments CNetServer.IOCPWorkerThread : simpl never.
#[local] Arguments CNetServer.next_session_cnt : simpl never.
#[local] Arguments CNetServer.pop_free : simpl never.
#[local] Arguments CNetServer.accept_recv : simpl never.
#[local] Arguments CNetServer.AcceptThread : simpl never.
#[local] Arguments PacketRef.AddRefCount : simpl never.
#[local] Arguments PacketRef.Alloc : simpl never.
#[local] Arguments PacketRef.Free : simpl never.

(** ** Weakest preconditions *)

Section calls.
Context {qs : Queues}.

(** A program that gives back exactly the tokens it was given. *)
Definition neutral {A} (p : prog A) (R : toks) : Prop := wp p (fun _ R' => R' = R) R.

(** No release of a session is due. *)
Definition idle (R : toks) : Prop := forall i, R (Obl i) = O.

Lemma wp_call {A B} (p : prog A) (f : A -> prog B) (Q1 : A -> toks -> Prop) Q R :
  wp p Q1 R -> (forall a R', Q1 a R' -> wp (f a) Q R') -> wp (pbind p f) Q R.
Proof. intros Hp Hf. apply wp_bind. eapply wp_mono; [|exact Hp]. exact Hf. Qed.

Lemma wp_frame {A B} (p : prog A) (f : A -> prog B) Q R :
  neutral p R -> (forall a, wp (f a) Q R) -> wp (pbind p f) Q R.
Proof. intros Hp Hf. eapply wp_call; [exact Hp|]. intros a R' ->. apply Hf. Qed.

Lemma wp_call' {A} (p : prog A) (Q1 Q : A -> toks -> Prop) R :
  wp p Q1 R -> (forall a R', Q1 a R' -> Q a R') -> wp p Q R.
Proof. intros Hp Hf. eapply wp_mono; [|exact Hp]. exact Hf. Qed.

(** A program that leaves exactly [R1]. *)
Lemma wp_to {A B} (p : prog A) (f : A -> prog B) R1 Q R :
  wp p (fun _ R' => R' = R1) R -> (forall a, wp (f a) Q R1) -> wp (pbind p f) Q R.
Proof. intros Hp Hf. eapply wp_call; [exact Hp|]. intros a R' ->. apply Hf. Qed.

(** A loop that changes no token. *)
Lemma wp_loop {A S B} (body : S -> prog (S + B)) s (k : B -> prog A) Q R :
  (forall s, neutral (body s) R) -> (forall b, wp (k b) Q R) -> wp (Loop body s k) Q R.
Proof.
  intros Hb Hk. cbn. exists (fun _ R' => R' = R). split; [done|]. intros s' ? ->.
  eapply wp_mono; [|apply Hb]. intros [?|b] ? ->; cbn; [done|apply Hk].
Qed.

End calls.

(** ** Equations of tokens *)
Ltac toks_unfold := unfold swap, tadd, tsub, tclr, tnone, has, inside, insides, senders, setups, units, idle in *.
Ltac toks_eq :=
  apply functional_extensionality; intros ?x; toks_unfold;
  repeat first [ progress simplify_eq | case_decide ]; try done; try lia.
Ltac toks_lia := toks_unfold; repeat tok_if; try done; try lia.

Lemma tsub_tadd x R : tsub x (tadd x R) = R.
Proof. toks_eq. Qed.
Lemma tsub_tadd_ne x y R : x <> y -> tsub x (tadd y R) = tadd y (tsub x R).
Proof. intros Hxy. toks_eq. Qed.
Lemma tadd_comm x y R : tadd x (tadd y R) = tadd y (tadd x R).
Proof. toks_eq. Qed.
Lemma tadd_tsub x R : has R x -> tadd x (tsub x R) = R.
Proof. intros Hx. toks_eq. Qed.
Lemma has_tadd x R : has (tadd x R) x.
Proof. unfold has, tadd. rewrite decide_True by done. lia. Qed.
Lemma has_tadd_r x y R : has R x -> has (tadd y R) x.
Proof. unfold has, tadd. case_decide; lia. Qed.

Lemma unit_not_obl i j x R : unit_tok i x -> tsub x R (Obl j) = R (Obl j).
Proof. intros Hx. unfold tsub. rewrite decide_False; [done|]. intros <-. destruct Hx as [|[|[|[|]]]]; done. Qed.
Lemma unit_not_al i j x R : unit_tok i x -> has (tsub x R) (Al j) <-> has R (Al j).
Proof. intros Hx. unfold tsub, has. rewrite decide_False; [done|]. intros <-. destruct Hx as [|[|[|[|]]]]; done. Qed.

(** References to the packets of a list. *)
Lemma pks_nil R : pks [] R = R.
Proof. apply functional_extensionality. intros x. unfold pks, occ. destruct x; cbn; lia. Qed.
Lemma pks_cons p ps R : pks (p :: ps) R = tadd (Pk p) (pks ps R).
Proof.
  apply functional_extensionality. intros x. unfold pks, tadd. destruct x; try done.
  rewrite occ_cons. repeat case_decide; simplify_eq; lia.
Qed.
Lemma pks_app ps qs R : pks (ps ++ qs) R = pks ps (pks qs R).
Proof. apply functional_extensionality. intros x. unfold pks. destruct x; try done. rewrite occ_app. lia. Qed.
Lemma pks_snoc ps p R : pks (ps ++ [p]) R = tadd (Pk p) (pks ps R).
Proof.
  apply functional_extensionality. intros x. unfold pks, tadd. destruct x; try done.
  rewrite occ_app, occ_cons, occ_nil. repeat case_decide; simplify_eq; lia.
Qed.
Lemma tadd_pks x ps R : (forall p, x <> Pk p) -> tadd x (pks ps R) = pks ps (tadd x R).
Proof. intros Hx. apply functional_extensionality. intros y. unfold pks, tadd. destruct y; repeat case_decide; naive_solver. Qed.
Lemma tsub_pks x ps R : (forall p, x <> Pk p) -> tsub x (pks ps R) = pks ps (tsub x R).
Proof. intros Hx. apply functional_extensionality. intros y. unfold pks, tsub. destruct y; repeat case_decide; naive_solver. Qed.
Lemma unpks_pks ps R : unpks ps (pks ps R) = R.
Proof. apply functional_extensionality. intros x. unfold pks, unpks. destruct x; try done. lia. Qed.
Lemma has_pks ps R x : has R x -> has (pks ps R) x.
Proof. unfold has, pks. destruct x; try done. lia. Qed.

(** A unit [x] was exchanged for a unit [y], or nothing happened. *)
Definition moved (x y : tok) (R R' : toks) : Prop := R' = R \/ R' = tadd y (tsub x R).

(** ** Packets *)
Lemma adds_AddRefCount : adds_count (fun pk => Ok (tt, CNetPacket.AddRefCount pk)).
Proof. intros pk b pk' [= <- <-]. done. Qed.
Lemma drops_decrement : drops_count PacketRef.decrement (fun n => n).
Proof. intros pk b pk' [= <- <-]. done. Qed.
Lemma keeps_get {B} (g : CNetPacket.t -> B) : keeps_count (fun pk => Ok (g pk, pk)).
Proof. intros pk b pk' [= <- <-]. done. Qed.
Lemma keeps_Clear : keeps_count (fun pk => Ok (tt, CNetPacket.Clear pk)).
Proof. intros pk b pk' [= <- <-]. done. Qed.
Lemma keeps_MoveWritePos n : keeps_count (fun pk => Ok (CNetPacket.MoveWritePos pk n)).
Proof. intros pk b pk' [= <- <-]. done. Qed.
Lemma keeps_Encode rnd : keeps_count (fun pk => CNetPacket.Encode pk rnd).
Proof.
  intros pk b pk' E. unfold CNetPacket.Encode, CNetPacket.SetNetHeader in E.
  destruct (CNetPacket.isEncode pk); inv_ok; done.
Qed.
Lemma keeps_Decode : keeps_count CNetPacket.Decode.
Proof. intros pk b pk' E. unfold CNetPacket.Decode in E. inv_ok. done. Qed.

Create HintDb counts discriminated.
#[export] Hint Resolve adds_AddRefCount drops_decrement keeps_get keeps_Clear keeps_MoveWritePos keeps_Encode keeps_Decode : counts.

(** A read or an update of a packet the thread has a reference to. *)
Ltac packet tac := left; split; [left; tac|split; [auto with counts|]].

Section packets.
Context {qs : Queues}.

Lemma AddRefCount_wp p R : has R (Pk p) -> wp (PacketRef.AddRefCount p) (fun _ R' => R' = tadd (Pk p) R) R.
Proof. intros Hp. right. left. split_and!; [done|auto with counts|done]. Qed.

Lemma Alloc_wp R : wp PacketRef.Alloc (fun p R' => R' = tadd (Pk p) R) R.
Proof.
  intros p. right. right. left. split_and!; [apply has_tadd|auto with counts|]. intros []. cbn. rewrite tsub_tadd. done.
Qed.

Lemma Free_wp p R : has R (Pk p) -> wp (PacketRef.Free p) (fun _ R' => R' = tsub (Pk p) R) R.
Proof.
  intros Hp. right. right. right. split; [done|]. exists (fun n => n). split; [auto with counts|]. intros n. cbn.
  destruct (n =? 0); [|done]. left. split_and!; [right; apply has_tadd|auto with counts|].
  intros []. split; [apply has_tadd|]. intros b. apply tsub_tadd.
Qed.

End packets.

(** ** The sessions *)
Section server.
Context {qs : Queues}.
Implicit Types R : toks.

Lemma RequestRelease_wp i R :
  has R (Al i) -> wp (CNetServer.RequestRelease i) (fun _ R' => R' = tclr (Obl i) R) R.
Proof. intros Ha. split; [done|]. left. split; [done|]. intros b. done. Qed.

(** After the duty to release a slot is taken and discharged. *)
Lemma tclr_obl i R : R (Obl i) = O -> tclr (Obl i) (tadd (Obl i) R) = R.
Proof. intros Ho. toks_eq. Qed.

Lemma LeaveSession_wp i x R :
  has R (Al i) -> unit_tok i x -> has R x -> R (Obl i) = O ->
  wp (CNetServer.LeaveSession i) (fun _ R' => R' = tsub x R) R.
Proof.
  intros Ha Hx Hr Ho. exists x. split; [done|]. split; [done|]. intros b _. cbn.
  destruct (b =? 0); [|cbn; done].
  eapply wp_call'; [apply RequestRelease_wp, has_tadd_r, (unit_not_al i); done|].
  intros _ R' ->. apply tclr_obl. rewrite (unit_not_obl i); done.
Qed.

Lemma may_enter_mono x R i id : may_enter R i id -> may_enter (tadd x R) i id.
Proof.
  intros [Hi|[Ho|Ha]]; [left|right; left; apply has_tadd_r, Ho|right; right; apply has_tadd_r, Ha].
  unfold inside, insides, senders, tadd in *. repeat case_decide; lia.
Qed.

Lemma EnterSession_wp i id R :
  has R (Al i) -> R (Obl i) = O -> may_enter R i id ->
  wp (CNetServer.EnterSession i id) (fun ok R' => R' = if ok : bool then tadd (Ful i) R else R) R.
Proof.
  intros Ha Ho He. right. intros b. cbn. split; [apply has_tadd_r, Ha|]. split; [apply has_tadd|]. intros flag.
  destruct (flag =? 1).
  - cbn. eapply wp_call; [apply (LeaveSession_wp i (Tmp i)); [apply has_tadd_r, Ha|unfold unit_tok; auto|apply has_tadd|done]|].
    intros _ R' ->. apply tsub_tadd.
  - cbn. rewrite tsub_tadd. split; [apply has_tadd_r, Ha|]. right. split; [apply has_tadd|]. exists id.
    split; [apply may_enter_mono, He|]. intros sid _. rewrite tsub_tadd.
    destruct (sid =? id); cbn; [done|].
    eapply wp_call; [apply (LeaveSession_wp i (Ref i)); [apply has_tadd_r, Ha|unfold unit_tok; auto|apply has_tadd|done]|].
    intros _ R' ->. apply tsub_tadd.
Qed.

Lemma io_error_wp i err R :
  has R (Al i) -> has R (Ful i) -> (1 < insides R i)%nat ->
  wp (CNetServer.io_error i err)
    (fun _ R' => R' = if err =? WSA_IO_PENDING then R else tsub (Ful i) R) R.
Proof.
  intros Ha Hf Hr. unfold CNetServer.io_error. destruct (err =? WSA_IO_PENDING).
  - split; [done|]. intros s Hs. cbn. split_ifs; cbn; done.
  - assert (HD : wp (_ <- do (DecIo i);; skip)%prog (fun _ R' => R' = tsub (Ful i) R) R).
    { exists (Ful i). split; [unfold unit_tok; auto|]. split; [done|]. intros b Hb. cbn.
      specialize (Hb ltac:(unfold units; lia)). destruct (b =? 0) eqn:E; [zlia|done]. }
    destruct (_ || _); exact HD.
Qed.

(** The end of an overlapped call with its own count. *)
Lemma overlapped_end_wp i r R :
  has R (Al i) -> (started r = false -> has R (Ful i) /\ (1 < insides R i)%nat) ->
  wp (match r with None => skip | Some err => CNetServer.io_error i err end)
    (fun _ R' => R' = if started r then R else tsub (Ful i) R) R.
Proof.
  intros Ha Hf. destruct r as [err|]; cbn [started] in *; [|done].
  destruct (err =? WSA_IO_PENDING) eqn:Ep.
  - unfold CNetServer.io_error. rewrite Ep. split; [done|]. intros s Hs. cbn. split_ifs; cbn; done.
  - destruct (Hf eq_refl). eapply wp_call'; [apply io_error_wp; done|]. intros _ R' ->. rewrite Ep. done.
Qed.

(** *** Sending *)

(** What the thread with the right to send knows of the queue and of [sendPacketArr]. *)
Definition batch (i : Z) (ps : list Z) (m : bmode) (R : toks) : toks := pks ps (tadd (Bat i ps m) R).

Lemma has_batch i ps m R x : has R x -> has (batch i ps m R) x.
Proof. intros Hx. apply has_pks, has_tadd_r, Hx. Qed.
Lemma batch_has i ps m R : has (batch i ps m R) (Bat i ps m).
Proof. apply has_pks, has_tadd. Qed.
Lemma tsub_batch i ps m R : tsub (Bat i ps m) (batch i ps m R) = pks ps R.
Proof. unfold batch. rewrite tsub_pks, tsub_tadd by done. done. Qed.
Lemma batch_add i ps m x R : (forall p, x <> Pk p) -> tadd x (batch i ps m R) = batch i ps m (tadd x R).
Proof. intros Hx. unfold batch. rewrite tadd_pks, tadd_comm by done. done. Qed.
Lemma batch_sub i ps m x R :
  (forall p, x <> Pk p) -> x <> Bat i ps m -> tsub x (batch i ps m R) = batch i ps m (tsub x R).
Proof. intros Hx Hn. unfold batch. rewrite tsub_pks, tsub_tadd_ne by done. done. Qed.
Lemma batch_nil i m R : batch i [] m R = tadd (Bat i [] m) R.
Proof. unfold batch. apply pks_nil. Qed.

(** The thread that gets the send flag has the right to send, and there are packets. *)
Lemma SendPost_enter_wp i R :
  has R (Ful i) ->
  wp (CNetServer.SendPost_enter i)
    (fun r R' => match r with
                 | Some n => exists m, n = Z.of_nat m /\ (0 < m)%nat /\ R' = batch i [] (Fill m) (tadd (Snd i) (tsub (Ful i) R))
                 | None => R' = R end) R.
Proof.
  intros Hr. unfold CNetServer.SendPost_enter. cbn. exists (fun _ R' => R' = R). split; [done|]. intros cnt ? ->.
  left. split; [toks_lia|]. intros size. cbn. destruct (size =? 0); [done|]. left. split; [done|]. split; [done|].
  intros flag. destruct (flag =? 1); [done|]. cbn. right. split; [apply has_tadd_r, has_tadd|].
  exists [], O. split; [apply has_tadd|]. intros m. rewrite tsub_tadd.
  destruct (Z.of_nat m =? 0) eqn:E; cbn.
  - split; [done|]. left. split; [apply has_tadd_r, has_tadd|]. exists m. split; [apply has_tadd|].
    rewrite (tsub_tadd_ne (Snd i)), tsub_tadd by done.
    assert (Eq : tsub (Bat i [] (Fill m)) (tadd (Ful i) (tadd (Bat i [] (Fill m)) (tsub (Ful i) R))) = R).
    { rewrite tsub_tadd_ne, tsub_tadd by done. apply tadd_tsub, Hr. }
    rewrite Eq. destruct (cnt + 1 =? 2); done.
  - exists m. split; [done|]. split; [lia|]. rewrite batch_nil. done.
Qed.

(** A place of [sendPacketArr] is taken for a packet. *)
Lemma batch_snoc i ps p m n R :
  tadd (Pk p) (tadd (Bat i (ps ++ [p]) (Fill n)) (tsub (Bat i ps m) (tadd (Bat i ps m) (pks ps R)))) =
  batch i (ps ++ [p]) (Fill n) R.
Proof. rewrite tsub_tadd. unfold batch. rewrite pks_snoc, tadd_pks by done. done. Qed.

(** [SendPost_fill] takes packets out of the queue and keeps them; where the queue gives
    nothing it goes on with the packet that was there. *)
Lemma SendPost_fill_wp i n m ps R :
  has R (Snd i) -> (n <= m)%nat ->
  wp (CNetServer.SendPost_fill i (Z.of_nat (length ps)) n)
    (fun bufs R' => length bufs = n /\ R' = batch i (ps ++ bufs.*1) (Fill (m - n)) R) (batch i ps (Fill m) R).
Proof.
  intros Hs. revert m ps. induction n as [|n IH]; intros m ps Hn.
  { split; [done|]. rewrite app_nil_r, Nat.sub_0_r. done. }
  destruct m as [|m]; [lia|].
  assert (Hrest : forall p, wp (len <- do (Packet p (fun pk => Ok (CNetPacket.GetTotalSize pk, pk)));;
      rest <- CNetServer.SendPost_fill i (Z.of_nat (length ps) + 1) n;; Ret ((p, len) :: rest))%prog
    (fun bufs R' => length bufs = S n /\ R' = batch i (ps ++ bufs.*1) (Fill (S m - S n)) R) (batch i (ps ++ [p]) (Fill m) R)).
  { intros p. cbn. packet ltac:(unfold batch; rewrite pks_snoc; apply has_tadd). intros len.
    replace (Z.of_nat (length ps) + 1) with (Z.of_nat (length (ps ++ [p]))) by (rewrite length_app; cbn; lia).
    eapply wp_call; [apply IH; lia|]. intros rest R' [Hq ->]. cbn. rewrite <- app_assoc. split; [cbn; lia|done]. }
  left. split; [apply has_batch, Hs|]. exists ps, m. split; [apply batch_has|]. rewrite tsub_batch. split.
  - intros Hrel. cbn. split; [left; apply has_tadd_r, has_pks, Hs|]. right. split; [exact Hrel|].
    exists ps, m. split; [apply has_tadd|]. split; [done|]. intros p. rewrite batch_snoc. apply Hrest.
  - intros p. cbn. split; [apply has_tadd_r, has_tadd_r, has_pks, Hs|].
    exists ps, m. split; [apply has_tadd_r, has_tadd|]. split; [done|]. intros [].
    rewrite (tsub_tadd_ne _ (Pk p)), (tadd_comm _ (Pk p)), batch_snoc by done. cbn. split; [left; apply has_batch, Hs|]. left.
    exists (ps ++ [p]), (Fill m), p. split; [apply batch_has|]. split; [lia|].
    split; [rewrite Nat2Z.id, lookup_app_r, Nat.sub_diag by lia; done|]. apply Hrest.
Qed.

Lemma SendPost_neutral i R : has R (Al i) -> has R (Ful i) -> neutral (CNetServer.SendPost i) R.
Proof.
  intros Ha Hr. eapply wp_call; [apply SendPost_enter_wp; done|].
  intros [u|] R' HR'; [|subst; done]. destruct HR' as (m & -> & Hm & ->).
  set (R0 := tsub (Ful i) R). cbv zeta. set (u := if MAXBUF <? Z.of_nat m then MAXBUF else Z.of_nat m).
  assert (Hu : 0 <= u <= Z.of_nat m /\ u <= MAXBUF) by (subst u; unfold MAXBUF; destruct (200 <? Z.of_nat m) eqn:E; lia).
  eapply wp_call.
  { change 0 with (Z.of_nat (length (A := Z) [])). apply (SendPost_fill_wp i (Z.to_nat u) m []); [apply has_tadd|lia]. }
  intros bufs R' [Hq ->]. cbn [app]. set (k := (m - Z.to_nat u)%nat).
  right. right. split; [apply has_batch, has_tadd|]. exists bufs.*1, k. split; [apply batch_has|].
  split; [unfold MAXBUF in *; rewrite length_fmap, Hq, u_small by lia; lia|].
  split; [intros p; unfold batch, pks; lia|].
  assert (E2 : unpks bufs.*1 (tadd (Load i) (tsub (Snd i) (batch i bufs.*1 (Fill k) (tadd (Snd i) R0)))) =
    tadd (Load i) (tadd (Bat i bufs.*1 (Fill k)) R0)).
  { rewrite batch_sub, batch_add, tsub_tadd by done. unfold batch. rewrite unpks_pks. apply tadd_comm. }
  rewrite E2. clear E2. assert (Ha0 : has R0 (Al i)) by (subst R0; toks_lia). cbn [wp pbind do].
  left. split; [toks_lia|]. intros _. split; [do 3 apply has_tadd_r; done|]. split; [apply has_tadd_r, has_tadd|].
  exists k. split; [apply has_tadd_r, has_tadd_r, has_tadd|]. intros b. cbv zeta.
  assert (E3 : tsub (Load i) (tsub (Bat i bufs.*1 (Fill k)) (tadd (Ful i) (tadd (Load i) (tadd (Bat i bufs.*1 (Fill k)) R0)))) = R).
  { rewrite !(tsub_tadd_ne (Bat i bufs.*1 (Fill k))), tsub_tadd, tsub_tadd_ne, tsub_tadd by done. apply tadd_tsub, Hr. }
  rewrite E3. clear E3.
  eapply wp_call'; [apply overlapped_end_wp|].
  - destruct (started b); [done|apply has_tadd_r, Ha].
  - intros ->. split; [apply has_tadd|toks_lia].
  - intros _ R' ->. destruct (started b); [done|apply tsub_tadd].
Qed.

Lemma SendPacket_neutral id p R :
  has R (Al (u16 id)) -> R (Obl (u16 id)) = O -> may_enter R (u16 id) id -> has R (Pk p) ->
  neutral (CNetServer.SendPacket id p) R.
Proof.
  intros Ha Ho He Hp. unfold neutral, CNetServer.SendPacket. cbv zeta.
  eapply wp_call; [apply EnterSession_wp; done|]. intros ok R' ->.
  destruct ok; cbn [negb]; [|done]. intros []. cbn.
  eapply wp_to; [apply AddRefCount_wp, has_tadd_r, Hp|]. intros _ rnd. cbn.
  packet ltac:(apply has_tadd). intros u. split; [toks_lia|]. split; [apply has_tadd|]. intros [].
  rewrite tsub_tadd. split; [apply has_tadd_r, Ha|]. right. split; [done|]. split; [apply has_tadd|]. split; cbn.
  - apply tsub_tadd.
  - eapply wp_call; [apply (LeaveSession_wp _ (Ful (u16 id))); [apply has_tadd_r, Ha|unfold unit_tok; auto|apply has_tadd|done]|].
    intros _ R' ->. apply tsub_tadd.
Qed.

(** *** Receiving and disconnecting *)
Lemma RecvPost_wp i R :
  has R (Al i) -> has R (Rcv i) -> wp (CNetServer.RecvPost i) (fun _ R' => moved (Rcv i) (Ful i) R R') R.
Proof.
  intros Ha Hr. split; [auto|]. intros bufs. cbn. left. split; [toks_lia|]. intros _.
  split; [apply has_tadd_r, Ha|]. split; [apply has_tadd_r, Hr|]. intros b.
  eapply wp_call'; [apply overlapped_end_wp|].
  - destruct (started b); toks_lia.
  - intros ->. split; [apply has_tadd|toks_lia].
  - unfold moved. intros _ R' ->. destruct (started b); [right; apply tsub_tadd_ne; done|left; apply tsub_tadd].
Qed.

Lemma Disconnect_neutral id R :
  has R (Al (u16 id)) -> R (Obl (u16 id)) = O -> may_enter R (u16 id) id -> neutral (CNetServer.Disconnect id) R.
Proof.
  intros Ha Ho He. unfold neutral, CNetServer.Disconnect. cbv zeta.
  eapply wp_call; [apply EnterSession_wp; done|]. intros ok R' ->.
  destruct ok; cbn [negb]; [|done]. intros old. cbn.
  assert (HL : forall r : bool, wp (CNetServer.LeaveSession (u16 id);; Ret r)%prog (fun _ R' => R' = R)
    (tadd (Ful (u16 id)) R)).
  { intros r. eapply wp_call; [apply (LeaveSession_wp _ (Ful (u16 id)));
      [apply has_tadd_r, Ha|unfold unit_tok; auto|apply has_tadd|done]|].
    intros _ R' ->. apply tsub_tadd. }
  destruct (u64 old =? INVALID_SOCKET); [apply HL|]. intros []. apply HL.
Qed.

End server.

(** ** The handlers of the program, and the threads that call them

    What the protocol asks of the virtual functions: they use the server only
    through its member functions, for the session they are called for. [OnClientJoin]
    and [OnRecv] are called inside the session, [OnClientLeave] by the thread that
    released it. [OnRecv] may use the packet it is given, and refer to it further. They do so
    whatever the send queues do. *)
Class HandlerOk `{Handler} := {
  conn_neutral {qs : Queues} ip port R : idle R -> neutral (OnConnectionRequest ip port) R;
  join_neutral {qs : Queues} sid R : has R (Al (u16 sid)) -> inside R (u16 sid) -> idle R -> neutral (OnClientJoin sid) R;
  leave_neutral {qs : Queues} sid R : has R (Al (u16 sid)) -> has R (Closing (u16 sid)) -> idle R -> neutral (OnClientLeave sid) R;
  recv_neutral {qs : Queues} sid p R :
    has R (Al (u16 sid)) -> inside R (u16 sid) -> has R (Pk p) -> idle R -> neutral (OnRecv sid p) R;
}.

Section threads.
Context {qs : Queues} `{HandlerOk}.
Implicit Types R : toks.

(** The release empties the send queue. *)
Lemma drain_sendQ_wp i R :
  has R (Rel i) -> wp (CNetServer.drain_sendQ i) (fun _ R' => R' = tadd (Drained i) (tsub (Rel i) R)) R.
Proof.
  intros Ho. cbn. exists (fun _ R' => R' = R). split; [done|]. intros [] ? ->. right. split; [done|].
  split; [done|]. intros p. cbn. eapply wp_to; [apply Free_wp, has_tadd|]. intros _. cbn. apply tsub_tadd.
Qed.

(** The packets that were being sent are given back. *)
Lemma free_sent_wp i ps m k R :
  has R (Snd i) \/ has R (Closing i) -> has R (Bat i ps m) -> (k <= length ps)%nat ->
  wp (CNetServer.free_sent i (Z.of_nat k) (length ps - k)) (fun _ R' => R' = R) (pks (drop k ps) R).
Proof.
  intros Ho Hb Hk. remember (length ps - k)%nat as n eqn:En. revert k Hk En.
  induction n as [|n IH]; intros k Hk En.
  - cbn. rewrite drop_ge by lia. apply pks_nil.
  - destruct (lookup_lt_is_Some_2 ps k) as [p Hp]; [lia|]. rewrite (drop_S _ _ _ Hp), pks_cons.
    split; [destruct Ho; [left|right]; apply has_tadd_r, has_pks; done|].
    left. exists ps, m, p. split; [apply has_tadd_r, has_pks, Hb|]. split; [lia|]. split; [rewrite Nat2Z.id; done|]. cbn.
    eapply wp_to; [apply Free_wp, has_tadd|]. intros _. rewrite tsub_tadd.
    replace (Z.of_nat k + 1) with (Z.of_nat (S k)) by lia. apply IH; lia.
Qed.

Lemma free_all_wp i ps R :
  has R (Snd i) \/ has R (Closing i) ->
  wp (CNetServer.free_sent i 0 (Z.to_nat (Z.of_nat (length ps)))) (fun _ R' => R' = tadd (Bat i ps Old) R) (batch i ps Old R).
Proof.
  intros Ho. rewrite Nat2Z.id, <- (Nat.sub_0_r (length ps)). change 0 with (Z.of_nat 0) at 1.
  apply (free_sent_wp i ps Old 0); [destruct Ho; auto using has_tadd_r|apply has_tadd|lia].
Qed.

Lemma ReleaseSession_wp i R :
  has R (Al i) -> (forall j, j <> i -> R (Obl j) = O) ->
  wp (CNetServer.ReleaseSession i) (fun _ R' => R' = tclr (Obl i) R) R.
Proof.
  intros Ha Ho. unfold CNetServer.ReleaseSession. cbn. split; [done|]. intros old.
  destruct (old =? 0); cbn [negb]; [|cbn; done].
  eapply wp_to; [apply drain_sendQ_wp, has_tadd|]. intros _. rewrite tsub_tadd.
  right. split; [apply has_tadd|]. intros ps. rewrite tsub_tadd. cbn.
  set (R1 := tadd (Closing i) _). assert (Hw : has R1 (Closing i)) by apply has_tadd.
  assert (Ha1 : has R1 (Al i)) by (subst R1; toks_lia).
  eapply wp_to; [apply free_all_wp; auto|]. intros _. cbn.
  split; [apply has_tadd_r, Hw|]. split; [apply has_tadd_r, Ha1|]. left. intros sid Hs.
  eapply wp_frame.
  { apply leave_neutral; [rewrite Hs; apply has_tadd_r; done..|]. intros j. specialize (Ho j). subst R1.
    destruct (decide (j = i)) as [->|]; toks_lia. }
  intros _. cbn. split; [apply has_tadd_r, Ha1|]. left. intros sid' Hs'. rewrite Hs'.
  split; [apply has_tadd_r, Hw|]. split; [rewrite <- Hs'; apply (u_range 16); lia|].
  exists ps. split; [apply has_tadd|]. intros n'. rewrite tsub_tadd. subst R1. apply tsub_tadd.
Qed.

Lemma inside_rcv i R : has R (Rcv i) -> inside R i.
Proof. toks_lia. Qed.
Lemma inside_mono x i R : inside R i -> inside (tadd x R) i.
Proof. intros Hi. unfold inside, insides, senders, tadd in *. repeat case_decide; lia. Qed.

Lemma receive_packet_neutral i len R :
  has R (Al i) -> has R (Rcv i) -> idle R -> neutral (CNetServer.receive_packet i len) R.
Proof.
  intros Ha Hr Ho. eapply wp_call; [apply Alloc_wp|]. intros p R1 HR1.
  assert (Hp : has R1 (Pk p)) by (rewrite HR1; apply has_tadd).
  assert (Hr1 : has R1 (Rcv i)) by (rewrite HR1; apply has_tadd_r, Hr).
  assert (Ha1 : has R1 (Al i)) by (rewrite HR1; apply has_tadd_r, Ha).
  assert (Ho1 : idle R1) by (rewrite HR1; intros j; specialize (Ho j); toks_lia).
  assert (E : tsub (Pk p) R1 = R) by (rewrite HR1; apply tsub_tadd). clear HR1.
  pose proof (inside_rcv _ _ Hr1) as Hi.
  split; [done|]. split; [done|]. intros deq. cbn. set (k := fun _ : unit => _). apply (wp_frame _ k).
  { destruct (deq =? _); [cbn; done|]. cbn. done. }
  intros u. subst k. cbn. packet ltac:(done). intros mv []. cbn. packet ltac:(done). intros dec. cbn. destruct dec; cbn [negb].
  - cbn. split; [done|]. left. intros sid Hs. eapply wp_frame.
    { apply recv_neutral; rewrite ?Hs; done. }
    intros _. eapply wp_to; [apply Free_wp, Hp|]. intros _. exact E.
  - eapply wp_to; [apply Free_wp, Hp|]. intros _. rewrite E. cbn. split; [done|]. left. intros sid Hs.
    eapply wp_frame; [apply Disconnect_neutral; rewrite ?Hs; first [done | left; apply inside_rcv, Hr]|]. done.
Qed.

Lemma receive_loop_neutral i R :
  has R (Al i) -> has R (Rcv i) -> idle R -> neutral (CNetServer.receive_loop i) R.
Proof.
  intros Ha Hr Ho. pose proof (inside_rcv _ _ Hr) as Hi.
  apply wp_loop; [|done]. intros []. split; [auto|]. intros size. cbn.
  destruct (size <? _); [done|]. split; [auto|]. intros header. cbn. destruct (negb _).
  - split; [done|]. left. intros sid Hs.
    eapply wp_frame; [apply Disconnect_neutral; rewrite ?Hs; first [done | left; done]|]. done.
  - split; [auto|]. intros size'. cbn. destruct (size' <? _); [done|].
    eapply wp_frame; [apply receive_packet_neutral; done|]. intros []; done.
Qed.

(** The thread whose send has ended gives the packets back and may send again. *)
Lemma on_sent_wp i R :
  has R (Al i) -> has R (Sent i) ->
  wp (CNetServer.on_sent i) (fun _ R' => R' = tadd (Ful i) (tsub (Sent i) R)) R.
Proof.
  intros Ha Hr. left. split; [done|]. intros ps.
  set (R1 := tadd (Taken i) _). change (pks ps _) with (batch i ps Old R1).
  left. split; [done|]. split; [apply has_batch, has_tadd|].
  assert (E : tadd (Snd i) (tsub (Taken i) (batch i ps Old R1)) = batch i ps Old (tadd (Snd i) (tsub (Sent i) R))).
  { rewrite batch_sub, batch_add by done. subst R1. rewrite tsub_tadd. done. }
  cbn. rewrite E. clear E R1. eapply wp_to; [apply free_all_wp; left; apply has_tadd|]. intros _.
  right. split; [done|]. split; [apply has_tadd_r, has_tadd|]. exists ps. split; [apply has_tadd|]. intros fl.
  rewrite (tsub_tadd_ne (Snd i)), tsub_tadd, tsub_tadd_ne, tsub_tadd by done.
  apply SendPost_neutral; [toks_lia|apply has_tadd].
Qed.

Lemma on_received_wp i dw R :
  has R (Al i) -> has R (Rcv i) -> idle R ->
  wp (CNetServer.on_received i dw) (fun _ R' => moved (Rcv i) (Ful i) R R') R.
Proof.
  intros Ha Hr Ho. eapply wp_frame; [|intros _; apply RecvPost_wp; done].
  unfold CNetServer.take_in. split; [auto|]. intros n. cbn. eapply wp_frame.
  { destruct (u32 n =? dw); cbn; done. }
  intros _. apply receive_loop_neutral; done.
Qed.

Lemma worker_leave_wp i x R :
  has R (Al i) -> unit_tok i x -> has R x -> idle R ->
  wp (CNetServer.worker_leave i) (fun _ R' => R' = tsub x R) R.
Proof.
  intros Ha Hx Hr Ho. unfold CNetServer.worker_leave. cbn. exists x.
  split; [done|]. split; [done|]. intros n _.
  destruct (n =? 0); [|cbn; done].
  eapply wp_call'; [apply ReleaseSession_wp|].
  - apply has_tadd_r, (unit_not_al i); done.
  - intros j Hj. unfold tadd. rewrite decide_False by congruence. rewrite (unit_not_obl i); auto.
  - intros _ R' ->. apply tclr_obl. rewrite (unit_not_obl i); auto.
Qed.

(** Nothing is left of what a thread was given but facts. *)
Definition fact (x : tok) : bool := match x with Al _ | SkSet _ | An _ => true | _ => false end.
Definition spent R : Prop := forall x, fact x = false -> R x = O.

(** The unit that comes with a completion that is not a request to release. *)
Definition comp_unit (c : completion) (i : Z) : tok :=
  match lpOverlapped c with OvRecv => Rcv i | OvSend => Sent i | OvNull => Ful i end.

(** The tokens of the worker that takes a completion. *)
Definition worker_toks (c : completion) : toks :=
  let i := comp_slot c in
  tadd (Al i) (tadd (if is_release c then Obl i else comp_unit c i) tnone).

Ltac all_spent := intros ?y ?Hy; unfold tsub, tclr, tadd, tnone; repeat case_decide; subst; done.

Lemma IOCPWorkerThread_wp al c :
  comp_ok al c -> wp (CNetServer.IOCPWorkerThread c) (fun _ R' => spent R') (worker_toks c).
Proof.
  intros (i & Hp & _ & Hjob). unfold CNetServer.IOCPWorkerThread. rewrite Hp. cbv zeta.
  unfold worker_toks, comp_slot. rewrite Hp.
  assert (Hleave : forall x, unit_tok i x ->
    wp (CNetServer.worker_leave i;; Ret true)%prog (fun _ R' => spent R') (tadd (Al i) (tadd x tnone))).
  { intros x Hx. eapply wp_call.
    - apply (worker_leave_wp i x); [apply has_tadd|done|apply has_tadd_r, has_tadd|].
      intros j. unfold tadd. rewrite !decide_False; [done| |done]. intros <-. destruct Hx as [|[|[|[|]]]]; done.
    - intros _ R' ->. cbn. all_spent. }
  destruct (is_release c) eqn:Er.
  - unfold is_release in Er. apply andb_true_iff in Er as [E1%bool_decide_eq_true E2%Z.eqb_eq]. rewrite E1, E2. cbn.
    split; [apply has_tadd|]. intros s Hs. rewrite (proj2 (Z.eqb_neq _ _) Hs). cbn.
    eapply wp_call; [apply ReleaseSession_wp; [apply has_tadd|]|].
    + intros j Hj. toks_lia.
    + intros _ R' ->. cbn. all_spent.
  - set (x := comp_unit c i). assert (Hu : unit_tok i x).
    { subst x. unfold comp_unit, unit_tok. destruct (lpOverlapped c); auto. }
    set (R := tadd _ _). assert (Ha : has R (Al i)) by apply has_tadd.
    assert (Hx : has R x) by apply has_tadd_r, has_tadd.
    assert (Hi : idle R).
    { intros j. subst R x. unfold comp_unit. destruct (lpOverlapped c); toks_lia. }
    assert (Hbody : forall (p : prog unit) y, unit_tok i y -> wp p (fun _ R' => moved x y R R') R ->
      wp (p;; CNetServer.worker_leave i;; Ret true)%prog (fun _ R' => spent R') R).
    { intros p y Hy Hp'. eapply wp_call; [exact Hp'|]. intros _ R' [->| ->]; [apply Hleave, Hu|].
      replace (tadd y (tsub x R)) with (tadd (Al i) (tadd y tnone)); [apply Hleave, Hy|].
      subst R. destruct Hy as [->|[->|[->|[->| ->]]]], Hu as [->|[->|[->|[->| ->]]]]; toks_eq. }
    set (k := fun guard : bool => _).
    assert (Hk : forall guard, wp (k guard) (fun _ R' => spent R') R).
    { intros [|]; [|apply (Hbody skip x); [done|left; done]]. subst k x. cbn beta. unfold comp_unit in *.
      destruct (lpOverlapped c) eqn:El.
      - destruct (Hjob eq_refl) as [Hd|Hd]; rewrite Hd.
        + eapply (Hbody _ (Ful i)); [unfold unit_tok; auto|]. eapply wp_call'; [apply SendPost_neutral; done|]. left. done.
        + unfold is_release in Er. rewrite El, Hd in Er. discriminate.
      - eapply (Hbody _ (Ful i)); [unfold unit_tok; auto|]. eapply wp_call'; [apply on_sent_wp; done|]. right. done.
      - eapply Hbody, on_received_wp; [unfold unit_tok; auto|done|done|done]. }
    apply (wp_frame _ k); [|exact Hk].
    destruct (dwTransferred c =? 0); cbn; [done|]. split; [done|]. intros s _. done.
Qed.

(** *** The accept thread *)
Lemma u16_make_sessionID cnt idx :
  0 <= idx < 2 ^ 16 -> u16 (CNetServer.make_sessionID cnt idx) = idx.
Proof.
  intros Hi. unfold CNetServer.make_sessionID, uint. rewrite <- !Z.land_ones by lia.
  rewrite Z.land_lor_distr_l, <- Z.land_assoc.
  replace (Z.land (Z.ones 64) (Z.ones 16)) with (Z.ones 16) by done.
  rewrite (Z.land_ones idx), Z.mod_small by lia.
  rewrite Z.land_ones, Z.shiftl_mul_pow2, Z.mod_mul by lia. apply Z.lor_0_l.
Qed.

Lemma accept_recv_wp sock i R :
  has R (Al i) -> has R (Rcv i) -> idle R ->
  wp (CNetServer.accept_recv sock i) (fun _ R' => R' = tsub (Rcv i) R) R.
Proof.
  intros Ha Hr Ho. split; [auto|]. intros bufs. pose proof (Ho i). cbn. split; [done|]. split; [done|].
  intros r. apply (wp_call _ _ (fun _ R' => R' = tsub (Rcv i) R)).
  2: { intros [] R' -> []. done. }
  destruct r as [err|]; [|cbn; done]. cbn [started].
  destruct (err =? WSA_IO_PENDING) eqn:E.
  - cbn. split; [toks_lia|]. intros s _. split_ifs; cbn; done.
  - eapply wp_frame.
    { destruct (_ || _); cbn; done. }
    intros []. cbn. exists (Rcv i). split; [unfold unit_tok; auto|]. split; [done|]. intros n _.
    destruct (n =? 0); [|cbn; done].
    eapply wp_call'; [apply ReleaseSession_wp|].
    + toks_lia.
    + intros j Hj. pose proof (Ho j). toks_lia.
    + intros _ R' ->. toks_eq.
Qed.

Lemma next_session_cnt_neutral R : neutral CNetServer.next_session_cnt R.
Proof. intros c []. cbn. destruct (_ <? _); [intros []|]; done. Qed.

Lemma pop_free_wp R : wp CNetServer.pop_free (fun i R' => 0 <= i < 2 ^ 16 /\ R' = tadd (Own i) R) R.
Proof.
  unfold CNetServer.pop_free. cbn. exists (fun _ R' => R' = R). split; [done|]. intros [] ? ->. cbn. auto.
Qed.

(** The tokens of the accept thread when the slot is in use. *)
Lemma setup_toks i :
  tadd (Setup i) (tsub (Tmp i) (tsub (New i) (tadd (New i) (tsub (Own i)
    (tadd (SkSet i) (tadd (Tmp i) (tadd (Own i) tnone))))))) = tadd (Setup i) (tadd (SkSet i) tnone).
Proof. toks_eq. Qed.

Lemma AcceptThread_wp mx nagle sock ip port :
  good_socket sock ->
  wp (CNetServer.AcceptThread mx nagle sock ip port) (fun _ R' => spent R') tnone.
Proof.
  intros Hs. unfold CNetServer.AcceptThread. destruct (sock =? INVALID_SOCKET); [cbn; done|].
  intros [] [] []. cbn. eapply wp_frame.
  { destruct nagle; cbn; done. }
  intros []. cbn. intros now. destruct (now =? mx); [cbn; done|].
  eapply wp_frame; [apply conn_neutral; done|]. intros ok. destruct ok; cbn [negb]; [|cbn; done].
  intros n. cbn. eapply wp_frame; [apply next_session_cnt_neutral|]. intros cnt.
  eapply wp_call; [apply pop_free_wp|]. intros idx R' [Hi ->]. right. intros m. cbn.
  split; [toks_lia|]. split; [done|]. split; [toks_lia|]. split; [toks_lia|].
  split; [apply u16_make_sessionID, Hi|].
  split; [done|]. do 3 (split; [toks_lia|]). rewrite setup_toks.
  set (R := tadd (Al idx) _). split; [done|]. right. split; [subst R; toks_lia|].
  right. left. split; [done|]. split; [subst R; toks_lia|].
  assert (E : tadd (Ready idx) (tsub (Setup idx) R) = tadd (Ready idx) (tadd (Al idx) (tadd (SkSet idx) tnone))) by (subst R; toks_eq).
  rewrite E. clear E R. split; [right; apply has_tadd|]. intros []. split; [apply has_tadd|].
  rewrite tsub_tadd. split.
  - split; [toks_lia|]. left. intros sid Hsid. eapply wp_frame.
    { apply join_neutral; [rewrite Hsid; toks_lia..|]. intros j. toks_lia. }
    intros _. eapply wp_call; [apply accept_recv_wp; [toks_lia..|]; intros j; toks_lia|].
    intros _ R' ->. cbn. all_spent.
  - all_spent.
Qed.

(** *** The application

    The code that uses a server, on threads of its own: a message is written into a new
    packet and sent to the sessions in [sids]. *)
Fixpoint send_each (p : Z) (sids : list Z) : prog unit :=
  match sids with
  | [] => skip
  | sid :: sids => (_ <- CNetServer.SendPacket sid p;; send_each p sids)%prog
  end.

Definition send_new (fill : CNetPacket.t -> outcome (unit * CNetPacket.t)) (sids : list Z) : prog unit :=
  (p <- PacketRef.Alloc;; do (Packet p fill);; send_each p sids;; PacketRef.Free p)%prog.

(** What such a thread knows of the sessions. *)
Definition knows (sids : list Z) : toks := fun x =>
  match x with
  | An id => if decide (id ∈ sids) then 1%nat else O
  | Al i => if decide (i ∈ u16 <$> sids) then 1%nat else O
  | _ => O
  end.

Lemma knows_spent sids : spent (knows sids).
Proof. intros x Hx. destruct x; done. Qed.
Lemma knows_enter sids sid : sid ∈ sids -> has (knows sids) (Al (u16 sid)) /\ may_enter (knows sids) (u16 sid) sid.
Proof.
  intros Hs. split; [|right; right]; unfold has, knows; rewrite decide_True; [lia| |lia|done].
  apply list_elem_of_fmap. eauto.
Qed.

Lemma send_each_neutral p sids R :
  (forall sid, sid ∈ sids -> has R (Al (u16 sid)) /\ may_enter R (u16 sid) sid) -> idle R -> has R (Pk p) ->
  neutral (send_each p sids) R.
Proof.
  intros Hk Ho Hp. induction sids as [|sid sids IH]; [done|]. cbn.
  destruct (Hk sid) as [Ha He]; [left|].
  eapply wp_frame; [apply SendPacket_neutral; auto|]. intros _. apply IH. intros id Hid. apply Hk. right. exact Hid.
Qed.

Lemma send_new_neutral fill sids R :
  keeps_count fill -> (forall sid, sid ∈ sids -> has R (Al (u16 sid)) /\ may_enter R (u16 sid) sid) -> idle R ->
  neutral (send_new fill sids) R.
Proof.
  intros Hf Hk Ho. eapply wp_call; [apply Alloc_wp|]. intros p ? ->.
  left. split; [left; apply has_tadd|split; [exact Hf|]]. intros []. cbn.
  eapply wp_frame.
  { apply send_each_neutral; [|intros j; specialize (Ho j); toks_lia|apply has_tadd].
    intros sid Hs. destruct (Hk sid Hs). split; [apply has_tadd_r|apply may_enter_mono]; done. }
  intros _. eapply wp_call'; [apply Free_wp, has_tadd|]. intros _ ? ->. apply tsub_tadd.
Qed.

End threads.
