(* ===== verification/SessionSafety.v ===== *)
(** * The whole server, in any interleaving

    The step relation of the server (worker threads, the accept thread, application
    threads, the operating system), its invariant, which ties the tokens of all threads to
    the memory, and what it says about who may use a session or a packet; and a scheduler
    that runs it. *)
From S2P Require Import Prelude.
From S2P Require Import RingBuffer.
From S2P Require Import NetPacket.
From S2P Require Import ObjectPool.
From S2P Require Import ServerState.
From S2P Require Import NetServer.
From S2P Require Import SessionLogic.
From S2P Require Import PacketLogic.
From S2P Require Import HistoryLogic.
From S2P Require Import SessionSound.
From S2P Require Import SessionThreads.
From stdpp Require Import prelude gmap list.
From Stdlib Require Import ZArith Lia.
Open Scope Z_scope.

(** ** The whole server *)
Section machine.
Context {P : Type} `{PoolLaws P} `{HandlerOk}.

(** The memory, the threads that are running a member function, and the slots that
    have been handed out. *)
Record config := mkConfig { srv : server P; thr : list (prog unit); al : gset Z }.

Definition forget {A} (p : prog A) : prog unit := (_ <- p;; skip)%prog.

(** One step of any thread, of the operating system or of the application.
    - [step_act]: a thread does its next atomic action, one of those that [ok] allows;
    - [step_lag]: a thread reads a [_size] of a send queue that does not count yet all the
      packets linked there;
    - [step_queue]: the send queue of a session shows other packets than before: an element
      cannot be reached for some time or for ever, the count is wrong, or anything else. It
      happens in [wild] runs only, and stands for what [CLockFreeQueue] does when an
      [Enqueue] links its node behind one that was freed and taken for another [Enqueue];
    - [step_loop]: a thread begins a turn of a loop;
    - [step_dispatch]: a worker thread takes the next completion;
    - [step_io]: an overlapped operation ends with [bs] transferred;
    - [step_send]: an application thread sends a new packet to sessions it was given: their
      identifiers have been announced;
    - [step_disconnect]: one closes such a session;
    - [step_accept]: the accept thread gets a connection. *)
Inductive step_on (ok : forall B, act B -> bool) (wild : bool) : config -> config -> Prop :=
  | step_act st ths al t B (a : act B) k c b st' :
      ths !! t = Some (Do a k) -> ok B a = true -> no_overflow st a -> exec c a st = Ok (b, st') ->
      step_on ok wild (mkConfig st ths al) (mkConfig st' (<[t := k b]> ths) (alloc_after a al))
  | step_lag st ths al t i s k m :
      ths !! t = Some (Do (SendQSize i) k) -> get_session st i = Ok s -> (m <= length (sendQ s))%nat ->
      step_on ok wild (mkConfig st ths al) (mkConfig st (<[t := k (Z.of_nat m)]> ths) al)
  | step_queue st ths al i s q :
      wild = true -> get_session st i = Ok s ->
      step_on ok wild (mkConfig st ths al)
        (mkConfig (set_session st i (with_send s (sendFlag s) (sendCnt s) q (sendPacketArr s))) ths al)
  | step_loop st ths al t S B (body : S -> prog (S + B)) s k :
      ths !! t = Some (Loop body s k) ->
      step_on ok wild (mkConfig st ths al)
        (mkConfig st (<[t := pbind (body s) (fun r => match r with
                              | inl s' => Loop body s' k | inr b => k b end)]> ths) al)
  | step_dispatch st ths al c l :
      iocp st = c :: l ->
      step_on ok wild (mkConfig st ths al)
        (mkConfig (set_iocp st l) (ths ++ [forget (CNetServer.IOCPWorkerThread c)]) al)
  | step_io st ths al io l1 l2 bs st' :
      pend st = l1 ++ io :: l2 -> complete_io (set_pend st (l1 ++ l2)) io bs = Ok st' ->
      step_on ok wild (mkConfig st ths al) (mkConfig st' ths al)
  | step_send st ths al fill sids :
      sids ⊆ announced st -> keeps_count fill ->
      step_on ok wild (mkConfig st ths al)
        (mkConfig st (ths ++ [forget (send_new fill sids)]) al)
  | step_disconnect st ths al sid :
      sid ∈ announced st ->
      step_on ok wild (mkConfig st ths al)
        (mkConfig st (ths ++ [forget (CNetServer.Disconnect sid)]) al)
  | step_accept st ths al sock ip port :
      good_socket sock ->
      step_on ok wild (mkConfig st ths al)
        (mkConfig st (ths ++ [forget (CNetServer.AcceptThread (maxUser st) (nagleOff st) sock ip port)]) al).

Definition any_act (B : Type) (a : act B) : bool := true.
Definition step : config -> config -> Prop := step_on any_act true.

(** The state in which [Start] creates the threads: the constructor of a session leaves its
    send queue empty, and no packet is in use. *)
Definition no_packet_used (st : server P) : Prop :=
  (forall p, CNetPacket.refCount (packets st p) = 0) /\ pool_ok (pool st) /\ pool_live (pool st) = ∅.
Definition initial (c : config) : Prop :=
  (exists garbage, 0 < maxUser (srv c) <= 65535 /\ (forall i, sendQ (garbage i) = []) /\
    sessionArr (srv c) = CNetServer.create_sessions (maxUser (srv c)) garbage /\
    freeSessionStack (srv c) = CNetServer.push_all (maxUser (srv c)) /\
    iocp (srv c) = [] /\ pend (srv c) = [] /\ log (srv c) = [] /\ thr c = [] /\ al c = ∅) /\ no_packet_used (srv c).

(** What the server can come to; and what it can come to in orderly runs, in which the send
    queues hold what was put into them: [CLockFreeQueue] does, by [queue_linearizable] and
    [counted_elements_delivered], as long as no [Enqueue] meets a recycled node. *)
Definition reachable (c : config) : Prop := exists c0, initial c0 /\ rtc step c0 c.
Definition orderly (c : config) : Prop := exists c0, initial c0 /\ rtc (step_on any_act false) c0 c.

Lemma step_on_wild ok c c' : step_on ok false c c' -> step_on ok true c c'.
Proof. intros []; eauto using step_on. Qed.

Lemma orderly_reachable c : orderly c -> reachable c.
Proof.
  intros (c0 & Hi & Hr). exists c0. split; [exact Hi|]. clear Hi.
  induction Hr as [|c0 c1 c2 Hs _ IH]; [constructor|]. econstructor; [apply step_on_wild, Hs|exact IH].
Qed.

(** An orderly run, with what it put into send queues and what it sent. *)
Definition no_act (B : Type) (a : act B) : bool := false.
Inductive traced : config -> list HistoryLogic.label -> Prop :=
  | traced_start c : initial c -> traced c []
  | traced_act st ths al tr t B (a : act B) k ch b st' :
      traced (mkConfig st ths al) tr ->
      ths !! t = Some (Do a k) -> no_overflow st a -> exec ch a st = Ok (b, st') ->
      traced (mkConfig st' (<[t := k b]> ths) (alloc_after a al)) (tr ++ act_label a b)
  | traced_step c c' tr : traced c tr -> step_on no_act false c c' -> traced c' tr.

(** A step is an action of a thread, or another kind of step. *)
Lemma step_kinds wild c c' :
  step_on any_act wild c c' ->
  (exists st ths al t B (a : act B) k ch b st', c = mkConfig st ths al /\ ths !! t = Some (Do a k) /\
     no_overflow st a /\ exec ch a st = Ok (b, st') /\ c' = mkConfig st' (<[t := k b]> ths) (alloc_after a al)) \/
  step_on no_act wild c c'.
Proof.
  intros Hs. destruct Hs as [st ths al0 t B a k ch b st' Hth _ Hno Hx| | | | | | | |].
  1: left; exists st, ths, al0, t, B, a, k, ch, b, st'; done.
  all: right; eauto using step_on.
Qed.

Lemma orderly_traced c : orderly c -> exists tr, traced c tr.
Proof.
  intros (c0 & Hi & Hr). assert (H0' : exists tr, traced c0 tr) by (exists []; apply traced_start, Hi).
  clear Hi. induction Hr as [|c0 c1 c2 Hs _ IH]; [done|]. apply IH. destruct H0' as [tr Ht].
  apply step_kinds in Hs as [(st & ths & al0 & t & B & a & k & ch & b & st' & -> & Hth & Hno & Hx & ->)|Hs].
  - eexists. eapply traced_act; done.
  - exists tr. eapply traced_step; done.
Qed.

(** *** The invariant of configurations *)
Section invariant.
Context {qs : Queues}.

Definition all_toks (Rs : list toks) : toks := fun x => sum_list_with (fun R : toks => R x) Rs.
Definition thread_ok (p : prog unit) (R : toks) : Prop := wp p (fun _ R' => spent R') R.
Definition cinv tr (c : config) : Prop :=
  exists Rs, Forall2 thread_ok (thr c) Rs /\ good tr (srv c) (al c) (all_toks Rs).

Lemma total_insert Rs t R R' x :
  Rs !! t = Some R -> all_toks (<[t := R']> Rs) x = swap (all_toks Rs) R R' x.
Proof.
  unfold all_toks, swap. revert t. induction Rs as [|R0 Rs IH]; intros t Ht; [done|].
  destruct t as [|t]; cbn in *; [injection Ht as ->; lia|]. rewrite IH by done.
  assert (R x <= sum_list_with (fun R : toks => R x) Rs)%nat; [|lia].
  clear IH. revert t Ht. induction Rs as [|R1 Rs IH]; intros [|t] Ht; cbn in *; try done.
  - injection Ht as ->. lia.
  - specialize (IH t Ht). lia.
Qed.

Lemma total_below Rs t R : Rs !! t = Some R -> below R (all_toks Rs).
Proof.
  intros Ht x. unfold all_toks. revert t Ht.
  induction Rs as [|R1 Rs IH]; intros [|t] Ht; cbn in *; try done.
  - injection Ht as ->. lia.
  - specialize (IH t Ht). lia.
Qed.

Lemma total_snoc Rs R x : all_toks (Rs ++ [R]) x = (all_toks Rs x + R x)%nat.
Proof. unfold all_toks. rewrite sum_list_with_app. cbn. lia. Qed.

(** A new thread that starts with facts only. *)
Definition fact_of (st : server P) (al : gset Z) (x : tok) : Prop :=
  match x with Al i => i ∈ al | An id => id ∈ announced st | _ => False end.

Lemma cinv_spawn tr st ths al p R :
  (forall x, has R x -> fact_of st al x) ->
  thread_ok p R -> cinv tr (mkConfig st ths al) -> cinv tr (mkConfig st (ths ++ [p]) al).
Proof.
  intros HR Hp (Rs & Hths & Hv & Hpk & Hh). exists (Rs ++ [R]). split; [apply Forall2_app; auto|].
  assert (HR0 : forall x, (forall i, x <> Al i) -> (forall id, x <> An id) -> R x = O).
  { intros x Hx Hx'. destruct (R x) eqn:E; [done|]. pose proof (HR x) as HF. unfold has in HF. rewrite E in HF.
    specialize (HF ltac:(lia)). destruct x; try done; naive_solver. }
  assert (HR1 : forall x, (forall i, x <> Al i) -> (forall id, x <> An id) -> all_toks Rs x = all_toks (Rs ++ [R]) x).
  { intros x Hx Hx'. rewrite total_snoc, HR0; [lia|done..]. }
  cbn in *. split; [|split].
  - eapply inv_ext; [intros x _; symmetry; apply total_snoc|].
    destruct Hv. split; cbn in *; intros; unfold has, units, insides, senders, setups, owners in *; rewrite ?HR0 in * by done;
      rewrite ?Nat.add_0_r in *; eauto.
    + destruct (decide (0 < all_toks Rs (Al i))%nat); [auto|]. apply (HR (Al i)). unfold has. lia.
    + destruct (decide (0 < all_toks Rs (An id))%nat); [auto|]. apply (HR (An id)). unfold has. lia.
  - eapply pinv_toks; [exact Hpk|]. intros x Hx. apply HR1; intros i ->; done.
  - intros Hrel. eapply hinv_mem; [exact (Hh Hrel)|done|]. intros j. unfold owners, setups, senders. rewrite <- !HR1 by done.
    split_and!; [done..|]. intros ps m. symmetry. apply HR1; done.
Qed.

Lemma forget_ok {A} (p : prog A) R : wp p (fun _ R' => spent R') R -> thread_ok (forget p) R.
Proof. intros Hp. eapply wp_call; [exact Hp|]. intros a R' HR. exact HR. Qed.

Lemma spent_neutral {A} (p : prog A) R : spent R -> neutral p R -> thread_ok (forget p) R.
Proof. intros HR Hp. apply forget_ok. eapply wp_mono; [|exact Hp]. intros a R' ->. done. Qed.

(** A call of the application. *)
Lemma cinv_call {A} tr st ths al sids (p : prog A) :
  sids ⊆ announced st -> neutral p (knows sids) ->
  cinv tr (mkConfig st ths al) -> cinv tr (mkConfig st (ths ++ [forget p]) al).
Proof.
  intros Hs Hp Hc. apply cinv_spawn with (R := knows sids); [| |done].
  - destruct Hc as (Rs & _ & Hv & _). pose proof (inv_ann _ _ _ Hv) as Ha. cbn in Ha.
    rewrite Forall_forall in Ha. intros x. unfold has, knows. destruct x; try lia; case_decide as Hd; try lia; intros _.
    + apply list_elem_of_fmap in Hd as (sid & -> & Hid). apply Ha, Hs, Hid.
    + apply Hs, Hd.
  - apply spent_neutral; [apply knows_spent|exact Hp].
Qed.

(** *** The steps of the environment *)
Lemma comp_kinds c i :
  (is_release c = true /\ is_recv c = false /\ is_send c = false) \/
  (is_release c = false /\ ((comp_unit c i = Ful i /\ is_recv c = false /\ is_send c = false) \/
     (comp_unit c i = Rcv i /\ is_recv c = true /\ is_send c = false) \/
     (comp_unit c i = Sent i /\ is_recv c = false /\ is_send c = true))).
Proof.
  unfold is_release, is_recv, is_send, comp_unit. destruct (lpOverlapped c); cbn; [|tauto..].
  destruct (dwTransferred c =? en_IOCP_JOB_RELEASE); tauto.
Qed.

Lemma inv_dispatch v al T c l :
  inv v al T -> v_iocp v = c :: l ->
  inv (mkView (v_sess v) (v_free v) l (v_pend v) (v_lost v) (v_ann v)) al
    (fun x => (T x + worker_toks c x)%nat).
Proof.
  intros Hv Hl. pose proof (inv_comp _ _ _ Hv) as Hc. rewrite Hl in Hc.
  apply Forall_cons in Hc as [(i & Hp & Hi & _) Hc].
  assert (Hs : comp_slot c = i) by (unfold comp_slot; rewrite Hp; done).
  unfold worker_toks. rewrite Hs.
  eapply (inv_lists _ _ _ _ _ Hv); try done;
    try exact (inv_pend _ _ _ Hv); try exact (inv_free _ _ _ Hv); intros k;
    unfold outstanding, busy, lost_port, receiving, sending, free_count, claims; cbn [v_pend v_iocp v_lost v_free v_sess];
    rewrite ?Hl, ?count_cons, ?Hs;
    destruct (comp_kinds c i) as [(E1 & E2 & E3)|(E1 & [(E4 & E2 & E3)|[(E4 & E2 & E3)|(E4 & E2 & E3)]])];
    rewrite ?E1, ?E2, ?E3, ?E4 in *; cbn [andb negb ind]; unfold tnone; try tok.
  all: try (destruct (Z.eqb_spec i k); subst; tok).
  all: destruct (decide (k = i)) as [->|]; [auto|left]; tok.
Qed.

Definition overlapped_of (io : pending) : overlapped :=
  match io with PendRecv _ _ => OvRecv | PendSend _ => OvSend end.

Lemma inv_complete v al T io l1 l2 n :
  inv v al T -> v_pend v = l1 ++ io :: l2 ->
  inv (mkView (v_sess v) (v_free v) (v_iocp v ++ [mkCompletion n (Some (pend_slot io)) (overlapped_of io)])
         (l1 ++ l2) (v_lost v) (v_ann v)) al T.
Proof.
  intros Hv Hl. pose proof (inv_pend _ _ _ Hv) as Hp. rewrite Hl in Hp.
  apply Forall_app in Hp as [Hp1 [Hio Hp2]%Forall_cons].
  assert (Hr : is_release (mkCompletion n (Some (pend_slot io)) (overlapped_of io)) = false) by (destruct io; done).
  assert (Hn : overlapped_of io <> OvNull) by (destruct io; done).
  eapply (inv_lists _ _ _ _ _ Hv); try done; try exact (inv_free _ _ _ Hv).
  all: try (apply Forall_app; split; first [exact (inv_comp _ _ _ Hv) | assumption
    | constructor; [exists (pend_slot io); done|done]]).
  all: intros k; unfold outstanding, busy, lost_port, receiving, sending, free_count, claims; cbn [v_pend v_iocp v_lost v_free v_sess];
    rewrite ?Hl, ?count_app, ?count_cons, ?count_nil, ?Hr; cbn [andb negb ind comp_slot pSession]; try lia.
  all: try (destruct io as [j bufs|j]; cbn [pend_slot overlapped_of is_recv is_send lpOverlapped andb];
    destruct (j =? k); cbn [ind andb]; lia).
  all: auto.
Qed.

Lemma complete_io_view (st : server P) io bs st' :
  complete_io st io bs = Ok st' ->
  view_of st' = mkView (v_sess (view_of st)) (v_free (view_of st))
    (v_iocp (view_of st) ++ [mkCompletion (Z.of_nat (length bs)) (Some (pend_slot io)) (overlapped_of io)])
    (v_pend (view_of st)) (v_lost (view_of st)) (v_ann (view_of st)).
Proof.
  destruct io as [i bufs|i]; cbn; intros Hx; inv_ok; [|done].
  unfold view_of at 1; cbn. unfold view_of; cbn. f_equal. rewrite list_fmap_insert.
  apply list_insert_id. pose proof (view_get _ _ _ E) as Hg. unfold v_get in Hg. cbn in Hg.
  destruct (i <? 0); done.
Qed.

Lemma good_dispatch tr (st : server P) al T c l :
  good tr st al T -> iocp st = c :: l -> good tr (set_iocp st l) al (fun x => (T x + worker_toks c x)%nat).
Proof.
  intros (Hv & Hp & Hh) Hl. pose proof (comp_kinds c (comp_slot c)) as Hk.
  split; [exact (inv_dispatch _ _ _ _ _ Hv Hl)|]. split.
  - eapply pinv_mem; [exact Hp|done|]. intros x Hx. unfold worker_toks, tadd, tnone.
    destruct Hk as [(E1 & _)|(E1 & [(E4 & _)|[(E4 & _)|(E4 & _)]])]; rewrite E1, ?E4;
      repeat case_decide; subst; try discriminate Hx; lia.
  - intros Hrel. eapply hinv_mem; [exact (Hh Hrel)|done|]. intros j. unfold sending_of, sending, worker_toks, tnone. cbn [view_of v_pend v_iocp set_iocp pend iocp]. rewrite Hl, count_cons.
    change (free_of (set_iocp st l) j) with (free_of st j).
    destruct Hk as [(E1 & E2 & E3)|(E1 & [(E4 & E2 & E3)|[(E4 & E2 & E3)|(E4 & E2 & E3)]])];
      rewrite E1, E3, ?E4; cbn [andb ind]; (split_and!; [tok|tok| |intros ? ?; tok]);
      destruct (Z.eqb_spec (comp_slot c) j); subst; tok.
Qed.

Lemma good_complete tr (st : server P) al T io l1 l2 bs st' :
  good tr st al T -> pend st = l1 ++ io :: l2 -> complete_io (set_pend st (l1 ++ l2)) io bs = Ok st' -> good tr st' al T.
Proof.
  intros (Hv & Hp & Hh) Hl Hx. pose proof (complete_io_view _ _ _ _ Hx) as Ev. split; [|split].
  - rewrite Ev. exact (inv_complete _ _ _ _ _ _ _ Hv Hl).
  - destruct io as [i bufs|i]; cbn in Hx; inv_ok; [|eapply pinv_mem; done].
    match goal with |- pinv (set_iocp ?s _) _ => apply (pinv_mem s _ T T); [|done|done] end.
    eapply pinv_core; [|exact E|done|done].
    eapply pinv_mem; [exact Hp|done|done].
  - intros Hrel. eapply hinv_calm; [exact (Hh Hrel)| |].
    + intros j. unfold sending_of, free_of. rewrite Ev. unfold sending, free_count. cbn [view_of v_pend v_iocp v_free set_pend pend iocp freeSessionStack].
      rewrite Hl, !count_app, !count_cons, count_nil.
      split_and!; [lia|lia| |done]. destruct io as [k bufs|k]; cbn; destruct (k =? j); cbn; lia.
    + intros k s' Hs'. destruct io as [i bufs|i]; cbn in Hx; inv_ok; [|eauto].
      apply get_session_spec in Hs' as [Hk Hs']. apply get_session_spec in E as [Hi E]. cbn in Hs'.
      destruct (decide (k = i)) as [->|Hn].
      * rewrite list_lookup_insert_eq in Hs' by eauto using lookup_lt_Some. injection Hs' as <-.
        exists a. rewrite get_session_spec. split_and!; done.
      * rewrite list_lookup_insert_ne in Hs' by lia. exists s'. rewrite get_session_spec. split_and!; done.
Qed.

Lemma good_toks tr (st : server P) al T T' : good tr st al T -> (forall x, T x = T' x) -> good tr st al T'.
Proof.
  intros (Hv & Hp & Hh) E. split; [eapply inv_ext; [|exact Hv]; auto|]. split; [eapply pinv_toks; [exact Hp|]; auto|].
  intros Hrel. eapply hinv_mem; [exact (Hh Hrel)|done|]. intros j. unfold owners, setups, senders. rewrite !E. split_and!; try lia. auto.
Qed.

(** The send queue of a session shows something else. *)
Lemma good_queue tr (st : server P) al T i s q :
  good tr st al T -> reliable = false -> get_session st i = Ok s ->
  good tr (set_session st i (with_send s (sendFlag s) (sendCnt s) q (sendPacketArr s))) al T.
Proof.
  intros (Hv & Hp & _) Hrel Hs. split; [rewrite (view_send _ _ _ _ _ _ Hs); exact Hv|].
  split; [apply pinv_any_queue; done|congruence].
Qed.

(** A count that lags. *)
Lemma lag_sound tr (st : server P) al T R Q i s m :
  good tr st al T -> below R T -> act_spec (SendQSize i) Q R -> get_session st i = Ok s -> (m <= length (sendQ s))%nat ->
  exists R', Q (Z.of_nat m) R' /\ good tr st al (swap T R R').
Proof.
  intros Hg Hb [[Hi HQ]|(Hr & ps & n & Hba & HQ)] Hs Hm.
  - exists R. split; [apply HQ|apply good_same; done].
  - pose proof (pinv_one _ _ _ _ _ _ Hg Hs) as Hone. destruct Hg as (Hv & Hp & Hh).
    eexists; split; [apply HQ|]. split; [eapply inv_ext; [|apply (inv_same _ _ _ R Hv Hb)]|split].
    + intros x Hx. unfold swap, tadd, tsub. destruct x; try discriminate Hx; repeat case_decide; done.
    + apply (pinv_count_queue _ _ _ _ _ _ _ _ Hp Hb Hr Hba Hs Hm).
    + intros Hrel. eapply hinv_count_queue; eauto.
Qed.

(** The steps of the threads. *)
Lemma act_cinv tr st ths al t B (a : act B) k ch b st' :
  cinv tr (mkConfig st ths al) -> ths !! t = Some (Do a k) -> no_overflow st a -> exec ch a st = Ok (b, st') ->
  cinv (tr ++ act_label a b) (mkConfig st' (<[t := k b]> ths) (alloc_after a al)).
Proof.
  intros (Rs & Hths & Hv) Ht Hno Hx. cbn in *.
  destruct (Forall2_lookup_l _ _ _ _ _ Hths Ht) as (R & HR & Hwp).
  destruct (act_sound a ch tr st b st' al (all_toks Rs) R _ Hv (total_below _ _ _ HR) Hno Hwp Hx)
    as (R' & HQ & Hv').
  exists (<[t := R']> Rs). split; [apply Forall2_insert; done|]. cbn.
  eapply good_toks; [exact Hv'|]. intros x. symmetry. apply total_insert, HR.
Qed.

Lemma other_cinv tr wild c c' :
  cinv tr c -> (wild = true -> reliable = false) -> step_on no_act wild c c' -> cinv tr c'.
Proof.
  intros Hinv Hwild Hstep.
  destruct Hstep as [|st ths al t i s k m Ht Hs Hm|st ths al i s q Hw Hs|st ths al t S B body s k Ht|
    st ths al c l Hl|st ths al io l1 l2 bs st' Hl Hx|st ths al fill sids Hs Hf|st ths al sid Hs|
    st ths al sock ip port Hs]; [done|..].
  - destruct Hinv as (Rs & Hths & Hv). cbn in *.
    destruct (Forall2_lookup_l _ _ _ _ _ Hths Ht) as (R & HR & Hwp).
    destruct (lag_sound _ _ _ _ _ _ _ _ _ Hv (total_below _ _ _ HR) Hwp Hs Hm) as (R' & HQ & Hv').
    exists (<[t := R']> Rs). split; [apply Forall2_insert; done|]. cbn.
    eapply good_toks; [exact Hv'|]. intros x. symmetry. apply total_insert, HR.
  - destruct Hinv as (Rs & Hths & Hv). exists Rs. split; [done|]. apply good_queue; auto.
  - destruct Hinv as (Rs & Hths & Hv). cbn in *.
    destruct (Forall2_lookup_l _ _ _ _ _ Hths Ht) as (R & HR & Hwp).
    exists Rs. split; [|done]. cbn. rewrite <- (list_insert_id Rs t R HR).
    apply Forall2_insert; [done|]. apply wp_unfold, Hwp.
  - destruct Hinv as (Rs & Hths & Hv). cbn in *. exists (Rs ++ [worker_toks c]). split.
    + apply Forall2_app; [done|]. constructor; [|done]. apply forget_ok.
      apply (IOCPWorkerThread_wp al). pose proof (inv_comp _ _ _ (good_inv _ _ _ _ Hv)) as Hc. cbn in Hc.
      rewrite Hl in Hc. apply Forall_cons in Hc as [Hc _]. done.
    + eapply good_toks; [apply (good_dispatch _ _ _ _ _ _ Hv Hl)|]. intros x. symmetry. apply total_snoc.
  - destruct Hinv as (Rs & Hths & Hv). exists Rs. split; [done|]. eapply good_complete; done.
  - eapply cinv_call; [exact Hs| |exact Hinv].
    apply send_new_neutral; [exact Hf|intros sid Hsid; apply knows_enter, Hsid|done].
  - eapply (cinv_call _ _ _ _ [sid]); [intros id ->%list_elem_of_singleton; exact Hs| |exact Hinv].
    destruct (knows_enter [sid] sid) as [Ha He]; [left|]. apply Disconnect_neutral; done.
  - apply cinv_spawn with (R := tnone); [| |done].
    + intros x Hx. unfold has, tnone in Hx. lia.
    + apply forget_ok, AcceptThread_wp, Hs.
Qed.


(** *** The initial state *)
Lemma count_unique i l : NoDup l -> i ∈ l -> count (fun j => j =? i) l = 1%nat.
Proof.
  induction 1 as [|x l Hx Hl IH]; [by intros []%elem_of_nil|]. rewrite count_cons.
  destruct (x =? i) eqn:E; b2p.
  - intros _. subst. destruct (count _ l) eqn:Ec; [done|].
    destruct (proj1 (count_pos (fun j => j =? i) l)) as (y & Hy & ->%Z.eqb_eq); [lia|done].
  - intros [->|Hi]%elem_of_cons; [done|]. rewrite IH by done. done.
Qed.

Lemma push_all_eq n l : fold_left (fun stack idx => idx :: stack) l n = reverse l ++ n :> list Z.
Proof.
  revert n. induction l as [|x l IH]; intros n; [done|]. cbn [fold_left]. rewrite IH, reverse_cons, <- app_assoc. done.
Qed.

Lemma push_all_spec n : CNetServer.push_all n ≡ₚ seqZ 0 n.
Proof. unfold CNetServer.push_all. rewrite push_all_eq, app_nil_r. apply reverse_Permutation. Qed.

(** The slots of the initial state are the numbers below [maxUser], all free. *)
Lemma initial_slots c :
  initial c ->
  (forall i d, v_get (view_of (srv c)) i = Some d -> 0 <= i < maxUser (srv c) /\ c_io d = 0) /\
  (forall i, 0 <= i < maxUser (srv c) -> is_Some (v_get (view_of (srv c)) i)) /\
  (forall i, i ∈ freeSessionStack (srv c) <-> 0 <= i < maxUser (srv c)) /\
  (forall i, 0 <= i < maxUser (srv c) -> free_of (srv c) i = 1%nat) /\
  (forall i s, get_session (srv c) i = Ok s -> sendQ s = []).
Proof.
  intros ((garbage & Hm & Hq & Hs & Hf & _) & _).
  assert (Hfree : forall i, i ∈ freeSessionStack (srv c) <-> 0 <= i < maxUser (srv c)).
  { intros i. rewrite Hf, push_all_spec, elem_of_seqZ. lia. }
  split_and!; [| |exact Hfree| |].
  - unfold v_get, view_of. cbn. intros i d. destruct (i <? 0) eqn:E; [done|]. rewrite Hs.
    unfold CNetServer.create_sessions. rewrite !list_lookup_fmap.
    destruct (seqZ 0 (maxUser (srv c)) !! Z.to_nat i) eqn:Es; [|done].
    apply lookup_seqZ in Es. intros [= <-]. cbn. b2p. lia.
  - unfold v_get, view_of. cbn. intros i Hi'. replace (i <? 0) with false by lia. rewrite Hs.
    unfold CNetServer.create_sessions. rewrite !list_lookup_fmap, lookup_seqZ_lt by lia. done.
  - intros i Hi'. rewrite free_of_eq. apply count_unique; [rewrite Hf, push_all_spec; apply NoDup_seqZ|apply Hfree, Hi'].
  - intros i s [Hi' Hs']%get_session_spec. rewrite Hs in Hs'. unfold CNetServer.create_sessions in Hs'.
    rewrite list_lookup_fmap in Hs'. destruct (seqZ 0 (maxUser (srv c)) !! Z.to_nat i); [|done].
    injection Hs' as <-. apply Hq.
Qed.

Lemma initial_cinv c : initial c -> cinv [] c.
Proof.
  intros Hini. destruct (initial_slots c Hini) as (Hget & Hlook & Hfree & Hone & Hq).
  destruct Hini as ((garbage & Hm & _ & Hs & Hf & Hi & Hp & Hl & Ht & Ha) & Hcnt & Hpok & Hlive). exists []. rewrite Ht, Ha. split; [done|].
  assert (Hz : forall i, outstanding (view_of (srv c)) i = O).
  { intros i. unfold outstanding, busy, lost_port, view_of. cbn. rewrite Hi, Hp, Hl. done. }
  assert (Hz' : forall i, receiving (view_of (srv c)) i = O /\ sending (view_of (srv c)) i = O /\
    lost_port (view_of (srv c)) i = O).
  { intros i. pose proof (receiving_le (view_of (srv c)) i). specialize (Hz i). unfold outstanding in Hz. lia. }
  assert (Hno : forall i : Z, i ∈ (∅ : gset Z) -> False) by (intros i; apply not_elem_of_empty).
  split; [|split; [apply pinv_initial; [exact Hcnt|exact Hpok|exact Hlive|]|]].
  3: { intros _ i s Hs' Ho. exfalso. apply view_get, Hget in Hs' as [Hi' _]. rewrite Hone in Ho by done. lia. }
  2: { intros i s Hs'. split; [eapply Hq, Hs'|]. apply view_get, Hget in Hs' as [Hi' _]. rewrite Hone by done. lia. }
  split; unfold has, units, insides, senders, setups, owners, all_toks; cbn [sum_list_with]; try (intros; exfalso; eauto; fail);
    try (cbn; rewrite ?Hi, ?Hp; done).
  - intros i d Hd. rewrite Hz. destruct (Hget _ _ Hd). done.
  - intros i d Hd. rewrite Hz. intros Hlt. exfalso. clear -Hlt. lia.
  - intros i. destruct (Hz' i) as (-> & _). lia.
  - intros i d Hd. destruct (Hz' i) as (_ & -> & _). destruct (_ =? _); lia.
  - intros i d Hd. destruct (Hz' i) as (_ & _ & ->). lia.
  - intros i d Hd. lia.
  - intros i d Hd. destruct (Hget _ _ Hd) as [_ ->]. done.
  - intros i d Hd. rewrite decide_False by (intros [_ []%not_elem_of_empty]).
    destruct (Hget _ _ Hd) as [Hr _]. apply count_unique; [|by apply Hfree].
    cbn. rewrite Hf, push_all_spec. apply NoDup_seqZ.
  - intros i d _ [[]%not_elem_of_empty|]. lia.
  - intros. lia.
  - intros. lia.
  - unfold view_of, announced. cbn. rewrite Hl. constructor.
  - cbn. apply Forall_forall. intros i Hi'. apply Hfree in Hi'. lia.
  - intros i Hc. apply Hlook, Hfree.
    destruct (proj1 (count_pos (fun j => j =? i) (freeSessionStack (srv c)))) as (y & Hy & ->%Z.eqb_eq); done.
Qed.

End invariant.

Lemma traced_cinv c tr : traced c tr -> cinv (qs := true) tr c.
Proof. induction 1; [apply initial_cinv; done|eapply act_cinv; done|eapply other_cinv; done]. Qed.

Lemma orderly_cinv c :
  orderly c ->
  exists Rs, Forall2 (thread_ok (qs := true)) (thr c) Rs /\ inv (view_of (srv c)) (al c) (all_toks Rs) /\
    pinv (qs := true) (srv c) (all_toks Rs).
Proof.
  intros [tr (Rs & Hths & Hv & Hp & _)%traced_cinv]%orderly_traced. exists Rs. done.
Qed.

Lemma reachable_cinv c :
  reachable c ->
  exists Rs, Forall2 (thread_ok (qs := false)) (thr c) Rs /\ inv (view_of (srv c)) (al c) (all_toks Rs).
Proof.
  intros (c0 & Hi & Hr). assert (Hc : exists tr, cinv (qs := false) tr c).
  { apply (initial_cinv (qs := false)) in Hi as Hc. revert Hc. generalize (@nil HistoryLogic.label). clear Hi.
    induction Hr as [|c0 c1 c2 Hs _ IH]; intros tr Hc; [eauto|].
    apply step_kinds in Hs as [(st & ths & al0 & t & B & a & k & ch & b & st' & -> & Hth & Hno & Hx & ->)|Hs].
    - eapply IH, act_cinv; done.
    - eapply IH, other_cinv; [exact Hc| |exact Hs]. done. }
  destruct Hc as (tr & Rs & Hths & Hv & _). exists Rs. done.
Qed.

(** *** Reading the invariant *)
Lemma get_view c i s :
  get_session (srv c) i = Ok s -> v_get (view_of (srv c)) i = Some (core_of s).
Proof. apply view_get. Qed.

(** The thread [t] is about to do an action that satisfies [Pr]. *)
Definition about_to (c : config) (t : nat) (Pr : forall B, act B -> Prop) : Prop :=
  exists B (a : act B) k, thr c !! t = Some (Do a k) /\ Pr B a.

(** Actions of the one thread that releases or sets up slot [i]. *)
Definition owner_act (i : Z) (B : Type) (a : act B) : Prop :=
  match a with
  | CloseRelSocket j | FreePush j | SetSocket j _ | SetRelSocket j _ | SetSessionID j _
  | SetReleaseFlag j _ => j = i
  | _ => False
  end.

(** Actions on the send side and the receive side of slot [i]. *)
Definition data_act (i : Z) (B : Type) (a : act B) : Prop :=
  match a with
  | XchgSendFlag j _ | SetSendFlag j _ | GetSendCnt j | SetSendCnt j _ | SendQSize j
  | SendQEnqueue j _ | SendQDequeue j | SetSendPacket j _ _ | GetSendPacket j _ => j = i
  | RecvQ j _ | RecvDequeueTo j _ _ => j = i
  | _ => False
  end.

(** Actions on the receive buffer of slot [i], and the posting of a receive into it. *)
Definition recv_act (i : Z) (B : Type) (a : act B) : Prop :=
  match a with
  | RecvQ j _ | RecvDequeueTo j _ _ | WSARecv j _ => j = i
  | _ => False
  end.

(** Actions of the one thread that sends for slot [i], finishes a send of it, or releases
    it: on the packets being sent, on the way out of the send queue, the posting of a
    send, and the reset of the send flag. *)
Definition send_act (i : Z) (B : Type) (a : act B) : Prop :=
  match a with
  | XchgSendFlag j v => j = i /\ v = 0
  | SetSendFlag j _ | GetSendCnt j | SetSendCnt j _ | SendQDequeue j | SetSendPacket j _ _
  | GetSendPacket j _ | WSASend j _ => j = i
  | _ => False
  end.

(** The end of the set-up of slot [i]. *)
Definition setup_act (i : Z) (B : Type) (a : act B) : Prop :=
  match a with SetReleaseFlag j _ | CreatePort _ j => j = i | _ => False end.

(** What a thread that does them holds. *)
Definition owns (R : toks) (i : Z) : Prop := (0 < owners R i)%nat.
Definition sends (R : toks) (i : Z) : nat := senders R i + setups R i + owners R i.
Definition receives (R : toks) (i : Z) : nat := R (Rcv i) + setups R i.

Ltac holds := unfold owns, sends, receives, has, inside, units, insides, senders, setups, owners in *.

Section holders.
Context {qs : Queues}.

Lemma owner_act_has i B (a : act B) Q R : owner_act i B a -> act_spec a Q R -> owns R i.
Proof. intros Ha Hs. destruct a; cbn in *; try done; subst; holds; lia. Qed.

Lemma setup_act_has i B (a : act B) Q R : setup_act i B a -> act_spec a Q R -> has R (New i) \/ has R (Ready i).
Proof. destruct a; cbn; try done; intros <-; tauto. Qed.

Lemma data_act_has i B (a : act B) Q R :
  data_act i B a -> act_spec a Q R -> (0 < units R i)%nat \/ owns R i.
Proof.
  intros Ha Hs. assert (0 < units R i + owners R i)%nat; [|unfold owns; lia].
  destruct a; cbn in *; try done; subst; holds; lia.
Qed.

Lemma recv_act_has i B (a : act B) Q R :
  recv_act i B a -> act_spec a Q R -> (0 < receives R i)%nat.
Proof. intros Ha Hs. destruct a; cbn in *; try done; subst; holds; lia. Qed.

Lemma send_act_has i B (a : act B) Q R :
  send_act i B a -> act_spec a Q R -> (0 < sends R i)%nat.
Proof.
  intros Ha Hs. destruct a; cbn in *; try done; destruct Ha; subst; holds; lia.
Qed.

(** A thread about to act holds what the action requires. *)
Lemma about_to_has c Rs t Pr x :
  Forall2 thread_ok (thr c) Rs -> about_to c t Pr ->
  (forall B (a : act B) Q R, Pr B a -> act_spec a Q R -> x R) ->
  exists R, Rs !! t = Some R /\ x R.
Proof.
  intros Hths (B & a & k & Ht & Ha) Hx.
  destruct (Forall2_lookup_l _ _ _ _ _ Hths Ht) as (R & HR & Hwp). exists R. split; [done|].
  eapply Hx; [exact Ha|exact Hwp].
Qed.

End holders.

Lemma total_two Rs t1 t2 R1 R2 x :
  t1 <> t2 -> Rs !! t1 = Some R1 -> Rs !! t2 = Some R2 -> (R1 x + R2 x <= all_toks Rs x)%nat.
Proof.
  intros Hne H1' H2'. pose proof (total_insert Rs t1 R1 tnone x H1') as E.
  pose proof (total_below Rs t1 R1 H1' x).
  assert (Ht : <[t1:=tnone]> Rs !! t2 = Some R2) by (rewrite list_lookup_insert_ne; done).
  pose proof (total_below _ _ _ Ht x) as Hb. rewrite E in Hb. unfold swap, tnone in Hb. lia.
Qed.

(** Two threads together. *)
Ltac two Hne H1 H2 :=
  match type of H1 with ?Rs !! _ = Some ?R =>
    repeat match goal with
    | |- context [all_toks Rs ?x] =>
        lazymatch goal with _ : (_ <= all_toks Rs x)%nat |- _ => fail | _ => pose proof (total_two _ _ _ _ _ x Hne H1 H2) end
    end end.

Lemma owners_two Rs t1 t2 R1 R2 i :
  t1 <> t2 -> Rs !! t1 = Some R1 -> Rs !! t2 = Some R2 ->
  (owners R1 i + owners R2 i <= owners (all_toks Rs) i)%nat /\ (units R1 i + units R2 i <= units (all_toks Rs) i)%nat /\
  (sends R1 i + sends R2 i <= sends (all_toks Rs) i)%nat /\ (receives R1 i + receives R2 i <= receives (all_toks Rs) i)%nat.
Proof. intros Hne H1' H2'. holds. two Hne H1' H2'. lia. Qed.

Lemma held_below R T i :
  below R T -> (owners R i <= owners T i)%nat /\ (units R i <= units T i)%nat /\ (sends R i <= sends T i)%nat /\
  (receives R i <= receives T i)%nat.
Proof. intros Hb. holds. use_below. lia. Qed.

Lemma owned_dead v al' T i d :
  inv v al' T -> v_get v i = Some d -> owns T i ->
  ~ (c_flag d = 0 /\ i ∈ al') /\ free_count v i = O /\ owners T i = 1%nat /\
  units T i = O /\ outstanding v i = O.
Proof.
  intros Hv Hd Ho. pose proof (inv_own _ _ _ Hv _ _ Hd) as Hown.
  pose proof (inv_live _ _ _ Hv _ _ Hd) as Hl. unfold owns in Ho.
  destruct (decide (c_flag d = 0 /\ i ∈ al')) as [|Hn]; [lia|].
  assert (~ (0 < units T i + outstanding v i)%nat) by tauto.
  split; [done|]. lia.
Qed.

(** The receive side and the send side of a slot have one user. *)
Lemma one_receiver v al' T i d :
  inv v al' T -> v_get v i = Some d -> (receives T i + receiving v i <= 1)%nat.
Proof.
  intros Hv Hd. pose proof (inv_rcv _ _ _ Hv i). pose proof (inv_set _ _ _ Hv _ _ Hd) as Hs.
  pose proof (receiving_le v i). unfold receives in *. destruct (setups T i) eqn:E; [lia|].
  destruct Hs as [[??] _]; [lia|]. unfold insides in *. lia.
Qed.

Lemma one_sender v al' T i d :
  inv v al' T -> v_get v i = Some d -> (sends T i + sending v i <= 1)%nat.
Proof.
  intros Hv Hd. pose proof (inv_snd _ _ _ Hv _ _ Hd) as Hsn. pose proof (inv_set _ _ _ Hv _ _ Hd) as Hs.
  pose proof (receiving_le v i). assert (Hle : (senders T i + sending v i <= 1)%nat) by (destruct (c_send d =? 1); lia).
  unfold sends in *. destruct (decide (0 < owners T i)%nat) as [Ho|Ho].
  - destruct (owned_dead _ _ _ _ _ Hv Hd Ho) as (_ & _ & ? & ? & ?).
    unfold units, insides, outstanding in *. lia.
  - destruct (setups T i) eqn:E; [lia|].
    destruct Hs as [[??] _]; [lia|]. unfold insides in *. lia.
Qed.

Lemma count_zero {A} (f : A -> bool) l : count f l = O <-> forall x, x ∈ l -> f x = false.
Proof.
  pose proof (count_pos f l) as Hc. split.
  - intros E x Hx. destruct (f x) eqn:Ef; [|done].
    assert (0 < count f l)%nat by (apply Hc; eauto). lia.
  - intros Hall. destruct (count f l) eqn:E; [done|]. destruct (proj1 Hc) as (x & Hx & Ef); [lia|].
    rewrite Hall in Ef; done.
Qed.

Lemma outstanding_zero v i : outstanding v i = O ->
  (forall io, io ∈ v_pend v -> pend_slot io <> i) /\
  (forall c, c ∈ v_iocp v -> comp_slot c = i -> is_release c = true).
Proof.
  unfold outstanding. intros E.
  unfold busy in E. assert (E1 : count (fun io => pend_slot io =? i) (v_pend v) = O) by lia.
  assert (E2 : count (fun c => negb (is_release c) && (comp_slot c =? i)) (v_iocp v) = O) by lia.
  split.
  - intros io Hio. pose proof (proj1 (count_zero _ _) E1 io Hio). cbn in *. zlia.
  - intros c Hc Hs. apply (proj1 (count_zero _ _)) with (x := c) in E2; [|done]. rewrite Hs, Z.eqb_refl in E2.
    destruct (is_release c); done.
Qed.

End machine.

(** ** A scheduler

    An executable part of [step]: a list of commands determines one interleaving. *)
Section schedule.
Context {P : Type} `{PoolLaws P} `{HandlerOk}.

Inductive command :=
  | Act (t : nat) (choice : Z)
  | Dispatch
  | IoDone (bs : list Z)
  | CallSend (sids : list Z)
  | CallDisconnect (sid : Z)
  | Accept (sock ip port : Z).

Definition overflows (st : server P) {B} (a : act B) : bool :=
  match a with
  | IncIo i => match sessionArr st !! Z.to_nat i with
               | Some s => negb (ioCount s + 1 <? 2 ^ 32) | None => false end
  | SetSessionID _ v => bool_decide (v ∈ announced st)
  | Packet p _ => negb (CNetPacket.refCount (packets st p) + 1 <? 2 ^ 31)
  | _ => false
  end.

(** The next action of a thread; a loop begins its next turn first, a finished
    thread does nothing. *)
Definition advance {A} (st : server P) (al : gset Z) (choice : Z) (p : prog A)
    : option (server P * prog A * gset Z) :=
  match p in prog A return option (server P * prog A * gset Z) with
  | Ret a => Some (st, Ret a, al)
  | Do a k =>
      if overflows st a then None
      else match exec choice a st with
           | Ok (b, st') => Some (st', k b, alloc_after a al)
           | Fault _ => None
           end
  | Loop body s k =>
      Some (st, pbind (body s) (fun r => match r with inl s' => Loop body s' k | inr b => k b end), al)
  end.

Definition act_thread (st : server P) (ths : list (prog unit)) (al : gset Z) (t : nat) (choice : Z)
    : option (config (P := P)) :=
  p ← ths !! t;
  '(st', p', al') ← advance st al choice p;
  Some (mkConfig st' (<[t := p']> ths) al').

Lemma overflows_no {B} (st : server P) (a : act B) : overflows st a = false -> no_overflow st a.
Proof.
  destruct a; cbn; try done; intros Ho.
  - intros s Hs. rewrite Hs in Ho. zlia.
  - apply bool_decide_eq_false in Ho. exact Ho.
  - zlia.
Qed.

Lemma advance_sound {A} st al choice (p : prog A) st' p' al' :
  advance st al choice p = Some (st', p', al') ->
  (st', p', al') = (st, p, al) \/
  (exists B (a : act B) k b, p = Do a k /\ no_overflow st a /\ exec choice a st = Ok (b, st') /\
     p' = k b /\ al' = alloc_after a al) \/
  (exists S B (body : S -> prog (S + B)) s k, p = Loop body s k /\ st' = st /\ al' = al /\
     p' = pbind (body s) (fun r => match r with inl s' => Loop body s' k | inr b => k b end)).
Proof.
  destruct p as [A a|A B a k|A S B body s k]; cbn; [intros [= <- <- <-]; auto| |].
  - destruct (overflows st a) eqn:Ho; [done|]. destruct (exec choice a st) as [[b st1]|f] eqn:Hx; [|done].
    intros [= <- <- <-]. right. left. exists B, a, k, b. split_and!; try done. apply overflows_no, Ho.
  - intros [= <- <- <-]. right. right. exists S, B, body, s, k. done.
Qed.

Definition command_step (c : config (P := P)) (cmd : command) : option config :=
  let st := srv c in
  match cmd with
  | Act t choice => act_thread st (thr c) (al c) t choice
  | Dispatch =>
      match iocp st with
      | [] => None
      | q :: l => Some (mkConfig (set_iocp st l)
                          (thr c ++ [forget (CNetServer.IOCPWorkerThread q)]) (al c))
      end
  | IoDone bs =>
      match pend st with
      | [] => None
      | io :: l => match complete_io (set_pend st l) io bs with
                   | Ok st' => Some (mkConfig st' (thr c) (al c))
                   | Fault _ => None
                   end
      end
  | CallSend sids =>
      if forallb (fun sid => bool_decide (sid ∈ announced st)) sids
      then Some (mkConfig st (thr c ++ [forget (send_new (fun pk => Ok (tt, pk)) sids)]) (al c)) else None
  | CallDisconnect sid =>
      if bool_decide (sid ∈ announced st)
      then Some (mkConfig st (thr c ++ [forget (CNetServer.Disconnect sid)]) (al c)) else None
  | Accept sock ip port =>
      if (0 <=? sock) && (sock / 2 ^ 32 <? 2 ^ 32 - 1)
      then Some (mkConfig st
        (thr c ++ [forget (CNetServer.AcceptThread (maxUser st) (nagleOff st) sock ip port)]) (al c))
      else None
  end.

Fixpoint schedule (c : config (P := P)) (l : list command) : option config :=
  match l with
  | [] => Some c
  | cmd :: l => match command_step c cmd with Some c' => schedule c' l | None => None end
  end.

(** The action a program begins with is one of [ok]. *)
Definition head_ok {A} (ok : forall B, act B -> bool) (p : prog A) : bool :=
  match p with Do a _ => ok _ a | _ => true end.

Lemma command_step_on ok wild c cmd c' :
  (forall t choice p, cmd = Act t choice -> thr c !! t = Some p -> head_ok ok p = true) ->
  command_step c cmd = Some c' -> c' = c \/ step_on ok wild c c'.
Proof.
  intros Hok. destruct c as [st ths al0]. destruct cmd as [t choice| |bs|sids|sid|sock ip port]; cbn.
  - unfold act_thread. destruct (ths !! t) as [p|] eqn:Ht; [|done]. cbn.
    destruct (advance st al0 choice p) as [[[st' p'] al']|] eqn:E; [|done]. cbn. intros [= <-].
    apply advance_sound in E as [[= -> -> ->]|[(B & a & k & b & -> & Ho & Hx & -> & ->)|
      (S & B & body & s & k & -> & -> & -> & ->)]].
    + rewrite list_insert_id by done. left. done.
    + right. eapply step_act; try done. apply (Hok t choice _ eq_refl Ht).
    + right. apply step_loop, Ht.
  - destruct (iocp st) as [|q l] eqn:E; [done|]. intros [= <-]. right. apply step_dispatch, E.
  - destruct (pend st) as [|io l] eqn:E; [done|].
    destruct (complete_io _ io bs) as [st'|] eqn:Ec; [|done]. intros [= <-].
    right. eapply (step_io ok wild _ _ _ io []); [exact E|exact Ec].
  - destruct (forallb _ _) eqn:E; [|done]. rewrite forallb_forall in E.
    intros [= <-]. right. apply step_send; [|apply (keeps_get (fun _ => tt))].
    intros sid Hs. apply (bool_decide_eq_true_1 _), E, list_elem_of_In, Hs.
  - destruct (bool_decide _) eqn:E; [|done]. apply bool_decide_eq_true in E.
    intros [= <-]. right. apply step_disconnect, E.
  - destruct (_ && _) eqn:E; [|done]. intros [= <-]. right. apply step_accept. unfold good_socket. b2p. lia.
Qed.

Lemma command_step_sound wild c cmd c' : command_step c cmd = Some c' -> rtc (step_on any_act wild) c c'.
Proof.
  intros [->|Hs]%(command_step_on any_act wild); [done|apply rtc_once, Hs|]. intros t choice p _ _. destruct p; done.
Qed.

Lemma schedule_steps wild c l c' : schedule c l = Some c' -> rtc (step_on any_act wild) c c'.
Proof.
  revert c. induction l as [|cmd l IH]; intros c Hs; cbn in Hs; [injection Hs as ->; constructor|].
  destruct (command_step c cmd) as [c1|] eqn:E; [|done].
  etrans; [eapply command_step_sound; exact E|]. apply IH, Hs.
Qed.

(** The configuration a schedule reaches. *)
Definition after (c : config (P := P)) (l : list command) : config := default c (schedule c l).

Lemma after_steps wild c l : rtc (step_on any_act wild) c (after c l).
Proof. unfold after. destruct (schedule c l) eqn:E; cbn; [eapply schedule_steps, E|constructor]. Qed.

Lemma later_orderly c l : orderly c -> orderly (after c l).
Proof. intros (c0 & Hi & Hr). exists c0. split; [done|]. etrans; [exact Hr|apply after_steps]. Qed.
Lemma later_reachable c l : reachable c -> reachable (after c l).
Proof. intros (c0 & Hi & Hr). exists c0. split; [done|]. etrans; [exact Hr|apply after_steps]. Qed.
Lemma after_orderly c l : initial c -> orderly (after c l).
Proof. intros Hi. apply later_orderly. exists c. split; [done|constructor]. Qed.
Lemma after_reachable c l : initial c -> reachable (after c l).
Proof. intros Hi. apply orderly_reachable, after_orderly, Hi. Qed.

(** What a schedule puts into send queues and sends. *)
Definition next_label {A} (st : server P) (choice : Z) (p : prog A) : list HistoryLogic.label :=
  match p with
  | Do a _ => match exec choice a st with Ok (b, _) => act_label a b | Fault _ => [] end
  | _ => []
  end.
Definition command_trace (c : config (P := P)) (cmd : command) : list HistoryLogic.label :=
  match cmd with
  | Act t choice => match thr c !! t with Some p => next_label (srv c) choice p | None => [] end
  | _ => []
  end.
Fixpoint trace (c : config (P := P)) (l : list command) : list HistoryLogic.label :=
  match l with
  | [] => []
  | cmd :: l => match command_step c cmd with Some c' => command_trace c cmd ++ trace c' l | None => [] end
  end.

Lemma next_label_spec {A} st al choice (p : prog A) st' p' al' :
  advance st al choice p = Some (st', p', al') ->
  (head_ok no_act p = true /\ next_label st choice p = []) \/
  (exists B (a : act B) k b, p = Do a k /\ no_overflow st a /\ exec choice a st = Ok (b, st') /\
     p' = k b /\ al' = alloc_after a al /\ next_label st choice p = act_label a b).
Proof.
  destruct p as [A a|A B a k|A S B body s k]; [left; done| |left; done]. cbn.
  destruct (overflows st a) eqn:Ho; [done|]. destruct (exec choice a st) as [[b st1]|f] eqn:Hx; [|done].
  intros [= <- <- <-]. right. exists B, a, k, b. split_and!; try done. apply overflows_no, Ho.
Qed.

Lemma command_traced c tr cmd c' : traced c tr -> command_step c cmd = Some c' -> traced c' (tr ++ command_trace c cmd).
Proof.
  intros Ht Hs.
  assert (Hq : (forall t choice p, cmd = Act t choice -> thr c !! t = Some p -> head_ok no_act p = true) -> traced c' (tr ++ [])).
  { intros Hok. rewrite app_nil_r. apply (command_step_on no_act false _ _ _ Hok) in Hs as [->|Hs]; [done|]. eapply traced_step; done. }
  destruct cmd as [t choice| | | | |]; [|apply Hq; done..]. cbn [command_trace].
  destruct (thr c !! t) as [p|] eqn:Hp; [|apply Hq; congruence].
  destruct c as [st ths al0]. cbn in *. unfold act_thread in Hs. rewrite Hp in Hs. cbn in Hs.
  destruct (advance st al0 choice p) as [[[st1 p1] al1]|] eqn:E; [|done]. cbn in Hs. injection Hs as <-.
  apply next_label_spec in E as [[Hn ->]|(B & a & k & b & -> & Ho & Hx & -> & -> & ->)].
  - apply Hq. intros t0 choice0 p0 [= <- <-] E. rewrite Hp in E. injection E as <-. exact Hn.
  - eapply traced_act; [exact Ht|exact Hp|exact Ho|exact Hx].
Qed.

Lemma schedule_traced c tr l c' : traced c tr -> schedule c l = Some c' -> traced c' (tr ++ trace c l).
Proof.
  revert c tr. induction l as [|cmd l IH]; intros c tr Ht Hs; cbn in *; [injection Hs as <-; rewrite app_nil_r; done|].
  destruct (command_step c cmd) as [c1|] eqn:E; [|done]. rewrite app_assoc. apply IH; [|done].
  eapply command_traced; done.
Qed.

Lemma after_traced c l : initial c -> is_Some (schedule c l) -> traced (after c l) (trace c l).
Proof.
  intros Hi [c' Hs]. unfold after. rewrite Hs. apply (schedule_traced c [] l c'); [apply traced_start, Hi|exact Hs].
Qed.

End schedule.
