(* ===== verification/SessionProps.v ===== *)
(** * What the session protocol guarantees

    The properties of the sessions of [CNetServer] in every reachable configuration
    of [SessionSafety], for any handlers that keep the protocol ([HandlerOk]), and a
    small concrete server on which they are evaluated. *)
From S2P Require Import Prelude.
From S2P Require Import RingBuffer.
From S2P Require Import NetPacket.
From S2P Require Import ObjectPool.
From S2P Require Import ServerState.
From S2P Require Import NetServer.
From S2P Require Import SessionLogic.
From S2P Require Import PacketLogic.
From S2P Require Import SessionSound.
From S2P Require Import SessionThreads.
From S2P Require Import SessionSafety.
From stdpp Require Import prelude gmap list.
From Stdlib Require Import ZArith Lia.
Open Scope Z_scope.

(** ** A small server *)
Module Sample.
#[export] Existing Instance RefPool.ops.
#[export] Existing Instance RefPool.laws.

(** Handlers that accept everybody and do nothing. *)
#[export] Instance quiet : Handler := {
  OnConnectionRequest _ _ := Ret true; OnClientJoin _ := skip;
  OnClientLeave _ := skip; OnRecv _ _ := skip }.
#[export] Instance quiet_ok : HandlerOk.
Proof. split; intros; done. Qed.

Definition slot (i : Z) : SESSION :=
  mkSession 7 9 9 77 3 5 6 [] (replicate 200 0) (CRingBuffer.new_sized 16 (replicate 17 0)).
Definition start : config (P := RefPool.t) :=
  mkConfig (mkServer 2 false 0 0 (CNetServer.create_sessions 2 slot) (CNetServer.push_all 2)
    (mkCounters 0 0 0 0 0 0) (fun _ => CNetPacket.new_default (replicate 1024 0)) RefPool.empty
    [] [] []) [] ∅.
Lemma start_initial : initial start.
Proof.
  split; [exists slot; split_and!; done|]. split; [done|]. split; [|done].
  split; [constructor|]. split; intros x Hx; [|exfalso; exact (not_elem_of_empty x Hx)].
  exfalso. exact (not_elem_of_nil x Hx).
Qed.

Definition rounds (n t : nat) (choice : Z) : list command := replicate n (Act t choice).
Definition session_of (c : config (P := RefPool.t)) (i : nat) : SESSION :=
  default (slot 0) (sessionArr (srv c) !! i).

(** One client has connected: its receive is outstanding. *)
Definition connected : config := after start (Accept 500 1 2 :: rounds 25 0 WSA_IO_PENDING).
(** The client closed the connection, and a worker released the session. *)
Definition gone : config :=
  after connected ([IoDone []; Dispatch] ++ rounds 25 1 1).
(** The worker is about to close the socket. *)
Definition closing : config :=
  after connected ([IoDone []; Dispatch] ++ rounds 5 1 1).
(** The same, while another thread calls [Disconnect]. *)
Definition racing : config :=
  after connected ([IoDone []; CallDisconnect 65537; Dispatch] ++ rounds 5 2 1).
End Sample.
Import Sample.

(** ** Properties *)

(** Threads that have returned hold nothing. *)
Lemma all_returned {qs : Queues} ths Rs :
  Forall2 thread_ok ths Rs -> Forall (fun p => p = Ret tt) ths -> spent (all_toks Rs).
Proof.
  induction 1 as [|p R ths Rs Hp _ IH]; [done|]. intros [-> Hret]%Forall_cons x Hx.
  specialize (IH Hret x Hx). specialize (Hp x Hx). unfold all_toks in *. cbn. lia.
Qed.

Section session_properties.
Context {P : Type} `{PoolLaws P} `{HandlerOk}.

(** The count of a session covers everything outstanding on it. At any point of
    any interleaving [ioCount] is at least the number of overlapped operations and
    queued send jobs of the slot; when it is 0, no operation of the slot is outstanding
    and no completion of it is queued except requests to release it. *)
Theorem count_covers_outstanding (c : config (P := P)) (i : Z) (s : SESSION) :
  reachable c -> get_session (srv c) i = Ok s ->
  Z.of_nat (outstanding (view_of (srv c)) i) <= ioCount s < 2 ^ 32 /\
  (ioCount s = 0 ->
     (forall io, io ∈ pend (srv c) -> pend_slot io <> i) /\
     (forall q, q ∈ iocp (srv c) -> comp_slot q = i -> is_release q = true)).
Proof.
  intros (Rs & _ & Hv)%reachable_cinv Hs%get_view.
  pose proof (inv_io _ _ _ Hv _ _ Hs) as Hio. pose proof (inv_range _ _ _ Hv _ _ Hs) as Hr.
  cbn [c_io core_of] in Hio, Hr. split; [lia|]. intros H0'. apply (outstanding_zero (view_of (srv c))). lia.
Qed.

(** C1: an overlapped operation never outlives its session. While a receive or a
    send is outstanding, its slot is in use: [releaseFlag] is 0, the slot is not on
    the free stack, and its [sessionID] names it. The buffers the operating system
    writes to are therefore never those of a released or reused session. *)
Theorem io_only_on_live_sessions (c : config (P := P)) (io : pending) (s : SESSION) :
  reachable c -> io ∈ pend (srv c) -> get_session (srv c) (pend_slot io) = Ok s ->
  releaseFlag s = 0 /\ 1 <= ioCount s /\ (pend_slot io ∉ freeSessionStack (srv c)) /\
  u16 (sessionID s) = pend_slot io.
Proof.
  intros (Rs & _ & Hv)%reachable_cinv Hio Hs%get_view.
  assert (Ho : (0 < outstanding (view_of (srv c)) (pend_slot io))%nat).
  { unfold outstanding, busy.
    assert (0 < count (fun io0 => (pend_slot io0 =? pend_slot io)%Z) (v_pend (view_of (srv c))))%nat; [|lia].
    apply count_pos. exists io. split; [done|]. apply Z.eqb_refl. }
  destruct (inv_live _ _ _ Hv _ _ Hs) as [Hf Hal]; [lia|].
  pose proof (inv_io _ _ _ Hv _ _ Hs) as Hc. cbn [c_io c_flag core_of] in Hf, Hc.
  split_and!; [done|lia| |].
  - pose proof (inv_own _ _ _ Hv _ _ Hs) as Hown. rewrite decide_True in Hown by done.
    intros Hin. assert (0 < free_count (view_of (srv c)) (pend_slot io))%nat; [|lia].
    apply count_pos. exists (pend_slot io). split; [done|]. apply Z.eqb_refl.
  - apply (inv_ident _ _ _ _ _ Hv Hs Hal).
Qed.

(** C5: releasing and setting up a slot is exclusive. If a thread is about to close
    the socket of a slot, to push it on the free stack or to initialise it, then the
    slot is not in use, it is not on the free stack, nothing is outstanding on it, and
    no other thread is about to do such an action or to touch the send side or the
    receive side of the slot. *)
Theorem owner_is_exclusive (c : config (P := P)) (t : nat) (i : Z) (s : SESSION) :
  reachable c -> get_session (srv c) i = Ok s -> about_to c t (owner_act i) ->
  ~ (releaseFlag s = 0 /\ i ∈ al c) /\ (i ∉ freeSessionStack (srv c)) /\
  outstanding (view_of (srv c)) i = O /\
  (forall t', about_to c t' (owner_act i) \/ about_to c t' (data_act i) -> t' = t).
Proof.
  intros (Rs & Hths & Hv)%reachable_cinv Hs%get_view Ht.
  destruct (about_to_has _ _ _ _ (fun R => owns R i) Hths Ht) as (R & HR & Ho).
  { intros. eapply owner_act_has; done. }
  destruct (held_below _ _ i (total_below _ _ _ HR)) as (Hle & _).
  assert (Hw : owns (all_toks Rs) i) by (unfold owns in *; lia).
  destruct (owned_dead _ _ _ _ _ Hv Hs Hw) as (Hl & Hf & H1' & H2' & H3').
  split; [done|]. split.
  { intros Hin. assert (0 < free_count (view_of (srv c)) i)%nat; [|lia].
    apply count_pos. exists i. split; [done|]. apply Z.eqb_refl. }
  split; [done|]. intros t' Ht'. destruct (decide (t' = t)) as [|Hne]; [done|exfalso].
  assert (exists R', Rs !! t' = Some R' /\ ((0 < units R' i)%nat \/ owns R' i)) as (R' & HR' & Hr).
  { destruct Ht' as [Ht'|Ht']; eapply about_to_has; eauto.
    - intros. right. eapply owner_act_has; done.
    - intros. eapply data_act_has; done. }
  destruct (owners_two Rs t' t R' R i Hne HR' HR) as (? & ? & _). unfold owns in *. lia.
Qed.

(** C6: the receive side of a session is used by one at a time. Of every slot at most one
    receive is outstanding or finished and waiting for a worker. While a thread is about
    to read or write the receive buffer or to post a receive into it, there is none, and
    no other thread is about to do so: no two threads and no thread and the operating
    system ever use a receive buffer together, although nothing locks it. *)
Theorem receive_side_exclusive (c : config (P := P)) (i : Z) (s : SESSION) :
  reachable c -> get_session (srv c) i = Ok s ->
  (receiving (view_of (srv c)) i <= 1)%nat /\
  (forall t, about_to c t (recv_act i) ->
     receiving (view_of (srv c)) i = O /\ (forall t', about_to c t' (recv_act i) -> t' = t)).
Proof.
  intros (Rs & Hths & Hv)%reachable_cinv Hs%get_view. pose proof (one_receiver _ _ _ _ _ Hv Hs) as Hr.
  split; [lia|]. assert (Hu : forall t, about_to c t (recv_act i) -> exists R, Rs !! t = Some R /\ (0 < receives R i)%nat).
  { intros t Ht. eapply (about_to_has _ _ _ _ (fun R => (0 < receives R i)%nat) Hths Ht), recv_act_has. }
  intros t (R & HR & Ho)%Hu. destruct (held_below _ _ i (total_below _ _ _ HR)) as (_ & _ & _ & ?).
  split; [lia|]. intros t' (R' & HR' & Ho')%Hu. destruct (decide (t' = t)) as [|Hne]; [done|exfalso].
  destruct (owners_two Rs t' t R' R i Hne HR' HR) as (_ & _ & _ & ?). lia.
Qed.

(** C7: the send side of a session is used by one at a time. Of every slot at most one
    send is outstanding or finished and waiting for a worker. While a thread is about to
    take packets out of the send queue, to use [sendPacketArr] or [sendCnt], to post a
    send or to give the send flag back, there is none, and no other thread is about to do
    so: the flag that [SendPost] exchanges is a lock that is handed from the thread that
    posts a send to the one that handles its completion, and [ReleaseSession], which does
    not take it, never meets a thread that has it. Application threads may call with an
    identifier as soon as it is known and go on after the session is gone, as long as no
    identifier is made twice. *)
Theorem send_side_exclusive (c : config (P := P)) (i : Z) (s : SESSION) :
  reachable c -> get_session (srv c) i = Ok s ->
  (sending (view_of (srv c)) i <= 1)%nat /\
  (forall t, about_to c t (send_act i) ->
     sending (view_of (srv c)) i = O /\ (forall t', about_to c t' (send_act i) -> t' = t)).
Proof.
  intros (Rs & Hths & Hv)%reachable_cinv Hs%get_view. pose proof (one_sender _ _ _ _ _ Hv Hs) as Hr.
  split; [lia|]. assert (Hu : forall t, about_to c t (send_act i) -> exists R, Rs !! t = Some R /\ (0 < sends R i)%nat).
  { intros t Ht. eapply (about_to_has _ _ _ _ (fun R => (0 < sends R i)%nat) Hths Ht), send_act_has. }
  intros t (R & HR & Ho)%Hu. destruct (held_below _ _ i (total_below _ _ _ HR)) as (_ & _ & ? & _).
  split; [lia|]. intros t' (R' & HR' & Ho')%Hu. destruct (decide (t' = t)) as [|Hne]; [done|exfalso].
  destruct (owners_two Rs t' t R' R i Hne HR' HR) as (_ & _ & ? & _). lia.
Qed.

(** C18: the free stack holds every slot at most once, only slots of the array, and no
    slot that is in use. *)
Theorem free_stack_sound (c : config (P := P)) :
  reachable c ->
  NoDup (freeSessionStack (srv c)) /\
  (forall i, i ∈ freeSessionStack (srv c) ->
     exists s, get_session (srv c) i = Ok s /\ ~ (releaseFlag s = 0 /\ i ∈ al c)).
Proof.
  intros (Rs & _ & Hv)%reachable_cinv.
  assert (Hin : forall i, i ∈ freeSessionStack (srv c) ->
    exists s, get_session (srv c) i = Ok s /\ ~ (releaseFlag s = 0 /\ i ∈ al c) /\
      free_count (view_of (srv c)) i = 1%nat).
  { intros i Hi. assert (Hf : (0 < free_count (view_of (srv c)) i)%nat).
    { apply count_pos. exists i. split; [done|]. apply Z.eqb_refl. }
    destruct (inv_dom _ _ _ Hv i) as [d Hd]; [lia|].
    destruct (get_session (srv c) i) as [s|f] eqn:Es.
    - pose proof (get_view _ _ _ Es) as Hg. pose proof (inv_own _ _ _ Hv _ _ Hg) as Ho.
      exists s. split; [done|]. destruct (decide _) in Ho; [lia|]. split; [done|lia].
    - unfold v_get, get_session in *. cbn in Hd. rewrite list_lookup_fmap in Hd.
      destruct (i <? 0); [done|]. destruct (sessionArr (srv c) !! Z.to_nat i); done. }
  split; [|intros i Hi; destruct (Hin i Hi) as (s & ? & ? & _); eauto].
  assert (Hc : forall i, i ∈ freeSessionStack (srv c) ->
    count (fun j => j =? i) (freeSessionStack (srv c)) = 1%nat).
  { intros i Hi. destruct (Hin i Hi) as (_ & _ & _ & E). exact E. }
  clear Hin Hv. induction (freeSessionStack (srv c)) as [|x l IH]; [constructor|].
  apply NoDup_cons. split.
  - intros Hx. specialize (Hc x ltac:(set_solver)). rewrite count_cons, Z.eqb_refl in Hc.
    assert (0 < count (fun j => (j =? x)%Z) l)%nat; [|cbn in Hc; lia].
    apply count_pos. exists x. split; [done|]. apply Z.eqb_refl.
  - apply IH. intros i Hi. specialize (Hc i ltac:(set_solver)). rewrite count_cons in Hc.
    assert (0 < count (fun j => (j =? i)%Z) l)%nat; [|lia].
    apply count_pos. exists i. split; [done|]. apply Z.eqb_refl.
Qed.

(** When nothing is going on, every session is released. *)
Lemma quiet_released (c : config (P := P)) (i : Z) (s : SESSION) :
  reachable c -> get_session (srv c) i = Ok s ->
  Forall (fun p => p = Ret tt) (thr c) -> iocp (srv c) = [] -> pend (srv c) = [] ->
  Forall (fun e => accounting e = false) (log (srv c)) ->
  i ∈ freeSessionStack (srv c) /\ ioCount s = 0 /\ ~ (releaseFlag s = 0 /\ i ∈ al c).
Proof.
  intros (Rs & Hths & Hv)%reachable_cinv Hs%get_view Hret Hi Hp Hl.
  pose proof (all_returned _ _ Hths Hret) as Hsp.
  assert (Hlost : v_lost (view_of (srv c)) = []).
  { cbn. clear -Hl. induction Hl as [|e l He _ IH]; [done|]. rewrite filter_cons_False; [done|].
    rewrite He. done. }
  assert (Ho : outstanding (view_of (srv c)) i = O /\ claims (view_of (srv c)) i = O).
  { unfold outstanding, busy, lost_port, claims. rewrite Hlost. cbn. rewrite Hi, Hp. done. }
  destruct Ho as [Ho Hcl].
  pose proof (inv_io _ _ _ Hv _ _ Hs) as Hio. pose proof (inv_own _ _ _ Hv _ _ Hs) as Hown.
  pose proof (inv_claim _ _ _ Hv _ _ Hs) as Hclaim. cbn [c_io c_flag core_of] in Hio, Hclaim.
  assert (units (all_toks Rs) i = O /\ owners (all_toks Rs) i = O) as [Eu Eo].
  { unfold units, insides, senders, setups, owners. rewrite !Hsp by done. done. }
  rewrite Eu, Ho, (Hsp (Tmp i)) in Hio by done. rewrite Eo in Hown. cbn in Hio.
  assert (Hd : ~ (releaseFlag s = 0 /\ i ∈ al c)).
  { intros [Hf Ha]. assert (0 < all_toks Rs (Obl i) + claims (view_of (srv c)) i)%nat; [|pose proof (Hsp (Obl i) ltac:(done)); lia].
    apply Hclaim; done. }
  rewrite decide_False in Hown by done. split_and!; [|lia|done].
  destruct (proj1 (count_pos (fun j => j =? i) (freeSessionStack (srv c)))) as (y & Hy & ->%Z.eqb_eq); [|done].
  unfold free_count in Hown. cbn [v_free view_of] in Hown. lia.
Qed.

(** C16: no session is forgotten. When all threads have returned, nothing is outstanding
    or queued, and no completion was lost ([PostQueuedCompletionStatus] of a release
    request or [CreateIoCompletionPort] of a session failed), every session has been
    released: its slot is on the free stack, and its count is 0. *)
Theorem no_session_forgotten (c : config (P := P)) (i : Z) (s : SESSION) :
  reachable c -> get_session (srv c) i = Ok s ->
  Forall (fun p => p = Ret tt) (thr c) -> iocp (srv c) = [] -> pend (srv c) = [] ->
  Forall (fun e => accounting e = false) (log (srv c)) ->
  i ∈ freeSessionStack (srv c) /\ ioCount s = 0 /\ ~ (releaseFlag s = 0 /\ i ∈ al c).
Proof. apply quiet_released. Qed.

(** C20: [Disconnect] does not mark the session. Its 32-bit exchange never makes
    [socket] equal to [INVALID_SOCKET]: in every reachable configuration the socket of a
    slot in use differs from it, so none of the tests [socket == INVALID_SOCKET] of
    [SendPost], [RecvPost], [AcceptThread] and the worker loop is ever true, and an
    operation posted after the [CancelIoEx] of [Disconnect] is not cancelled. What the
    exchange does achieve is that of several calls only the first one goes on. *)
Theorem Disconnect_never_marks (c : config (P := P)) (i : Z) (s : SESSION) :
  reachable c -> get_session (srv c) i = Ok s -> i ∈ al c ->
  socket s <> INVALID_SOCKET /\
  socket (xchg_socket s).2 <> INVALID_SOCKET /\
  u64 (xchg_socket (xchg_socket s).2).1 = INVALID_SOCKET.
Proof.
  intros (Rs & _ & Hv)%reachable_cinv Hs%get_view Hi.
  assert (Hne : forall k, good_socket k -> k <> INVALID_SOCKET).
  { intros k [_ Hk] ->. vm_compute in Hk. discriminate. }
  destruct (inv_ident _ _ _ _ _ Hv Hs Hi) as (_ & _ & Hg). cbn [c_sock core_of] in Hg.
  split; [auto|]. split; [apply Hne, good_socket_xchg, Hg|].
  unfold xchg_socket; cbn [fst snd socket with_ids].
  assert (E : i32 (socket s / 2 ^ 32 * 2 ^ 32 + u32 INVALID_SOCKET) = i32 (-1)).
  { apply s_congr. unfold uint. rewrite Z.add_comm, Z_mod_plus_full. done. }
  rewrite E. done.
Qed.

(** C19: a session identifier names its slot and one session of it. The low 16 bits of
    the [sessionID] of a slot in use are its index, so two slots in use never have the
    same identifier, and every call with an identifier works on the slot the identifier
    was made for. Until the socket of a new session is at the completion port nobody
    knows its identifier, so a call for an earlier session of the slot that finds the
    identifier changed leaves again. *)
Theorem session_ids_name_slots (c : config (P := P)) (i j : Z) (s t : SESSION) :
  reachable c -> get_session (srv c) i = Ok s -> get_session (srv c) j = Ok t ->
  (i ∈ al c -> u16 (sessionID s) = i) /\
  (i ∈ al c -> j ∈ al c -> sessionID s = sessionID t -> i = j) /\
  (forall k, about_to c k (setup_act i) -> sessionID s ∉ announced (srv c)).
Proof.
  intros (Rs & Hths & Hv)%reachable_cinv Hs%get_view Ht%get_view.
  pose proof (inv_id _ _ _ Hv _ _ Hs) as E1. pose proof (inv_id _ _ _ Hv _ _ Ht) as E2. cbn [c_id core_of] in E1, E2.
  split; [exact E1|]. split; [intros Hi Hj E; rewrite <- E1, E, E2; done|].
  intros k Hk. destruct (about_to_has _ _ _ _ (fun R => has R (New i) \/ has R (Ready i)) Hths Hk) as (R & HR & Ho).
  { intros. eapply setup_act_has; done. }
  pose proof (total_below _ _ _ HR) as Hb. destruct Ho as [Ho%(has_below _ _ _ Hb)|Ho%(has_below _ _ _ Hb)].
  - apply (inv_new _ _ _ Hv _ _ Hs Ho).
  - apply (inv_set _ _ _ Hv _ _ Hs). unfold has, setups in *. lia.
Qed.

End session_properties.

(** ** Witnesses *)
Lemma connected_orderly : orderly connected.
Proof. apply after_orderly, start_initial. Qed.
Lemma connected_reachable : reachable connected.
Proof. apply after_reachable, start_initial. Qed.

Definition head_sat {A} (Pr : forall B, act B -> Prop) (p : prog A) : Prop :=
  match p with Do a _ => Pr _ a | _ => False end.

Lemma head_sat_inv {A} Pr (p : prog A) :
  head_sat Pr p -> exists B (a : act B) k, p = Do a k /\ Pr B a.
Proof. destruct p; cbn; try done. eauto. Qed.

Lemma about_to_intro (c : config (P := RefPool.t)) t Pr :
  match thr c !! t with Some p => head_sat Pr p | None => False end -> about_to c t Pr.
Proof.
  unfold about_to. destruct (thr c !! t) as [p|]; [|done].
  intros (B & a & k & -> & Ha)%head_sat_inv. eauto.
Qed.

Lemma count_covers_outstanding_witness :
  reachable connected /\
  Z.of_nat (outstanding (view_of (srv connected)) 1) <= ioCount (session_of connected 1) < 2 ^ 32 /\
  outstanding (view_of (srv connected)) 1 = 1%nat.
Proof.
  split; [exact connected_reachable|]. split; [|vm_compute; reflexivity].
  refine (proj1 (count_covers_outstanding connected 1 (session_of connected 1) connected_reachable _)).
  vm_compute; reflexivity.
Defined.

Lemma io_only_on_live_sessions_witness :
  releaseFlag (session_of connected 1) = 0 /\ pend (srv connected) = [PendRecv 1 [(1, 16)]].
Proof.
  split; [|vm_compute; reflexivity].
  refine (proj1 (io_only_on_live_sessions connected (PendRecv 1 [(1, 16)]) (session_of connected 1)
    connected_reachable _ _)); [|vm_compute; reflexivity].
  replace (pend (srv connected)) with [PendRecv 1 [(1, 16)]] by (vm_compute; reflexivity).
  apply list_elem_of_here.
Defined.

Lemma owner_is_exclusive_witness :
  reachable racing /\ about_to racing 2 (owner_act 1) /\
  (1 ∉ freeSessionStack (srv racing)) /\ outstanding (view_of (srv racing)) 1 = O.
Proof.
  assert (Hr : reachable racing) by apply later_reachable, connected_reachable.
  assert (Ha : about_to racing 2 (owner_act 1)).
  { apply about_to_intro. vm_compute. reflexivity. }
  split; [exact Hr|]. split; [exact Ha|].
  destruct (owner_is_exclusive racing 2 1 (session_of racing 1) Hr
    ltac:(vm_compute; reflexivity) Ha) as (_ & H1 & H2 & _). split; [exact H1|exact H2].
Defined.

(** The client has sent three bytes, which a worker is about to take in, while another
    thread sends and a second one disconnects. *)
Definition taking : config (P := RefPool.t) :=
  after connected ([IoDone [1; 2; 3]; CallDisconnect 65537; Dispatch] ++ rounds 2 1 0 ++ rounds 1 2 0).

Lemma receive_side_exclusive_witness :
  reachable taking /\ receiving (view_of (srv connected)) 1 = 1%nat /\
  receiving (view_of (srv taking)) 1 = O /\ (forall t', about_to taking t' (recv_act 1) -> t' = 2%nat).
Proof.
  assert (Hr : reachable taking) by apply later_reachable, connected_reachable.
  assert (Ha : about_to taking 2 (recv_act 1)) by (apply about_to_intro; vm_compute; reflexivity).
  split; [exact Hr|]. split; [vm_compute; reflexivity|].
  exact (proj2 (receive_side_exclusive taking 1 (session_of taking 1) Hr ltac:(vm_compute; reflexivity)) 2%nat Ha).
Defined.

(** A send is outstanding while a thread queues a second packet. *)
Definition posted : config (P := RefPool.t) :=
  after connected ([CallSend [65537]] ++ rounds 13 1 1 ++ [Dispatch] ++ rounds 25 2 0 ++ [CallSend [65537]] ++ rounds 13 3 1).
(** The send has ended: a worker is about to free what was sent, while a second one is in
    [SendPost] and a third one takes in what was received. *)
Definition sent : config (P := RefPool.t) :=
  after posted ([IoDone [1; 2; 3]; IoDone [1; 2; 3]; Dispatch; Dispatch; Dispatch] ++ rounds 3 4 0 ++ rounds 2 5 0 ++ rounds 1 6 0).

Lemma send_side_exclusive_witness :
  reachable sent /\ sending (view_of (srv posted)) 1 = 1%nat /\ sendFlag (session_of sent 1) = 1 /\
  sending (view_of (srv sent)) 1 = O /\ (forall t', about_to sent t' (send_act 1) -> t' = 6%nat).
Proof.
  assert (Hr : reachable sent) by apply later_reachable, later_reachable, connected_reachable.
  assert (Ha : about_to sent 6 (send_act 1)) by (apply about_to_intro; vm_compute; reflexivity).
  split; [exact Hr|]. split; [vm_compute; reflexivity|]. split; [vm_compute; reflexivity|].
  exact (proj2 (send_side_exclusive sent 1 (session_of sent 1) Hr ltac:(vm_compute; reflexivity)) 6%nat Ha).
Defined.

Lemma free_stack_sound_witness : reachable gone /\ NoDup (freeSessionStack (srv gone)).
Proof.
  assert (Hr : reachable gone) by apply later_reachable, connected_reachable.
  split; [exact Hr|]. exact (proj1 (free_stack_sound gone Hr)).
Defined.

Lemma no_session_forgotten_witness :
  reachable gone /\ 1 ∈ al gone /\ 1 ∈ freeSessionStack (srv gone).
Proof.
  assert (Hr : reachable gone) by apply later_reachable, connected_reachable.
  split; [exact Hr|]. split; [apply (bool_decide_eq_true_1 _); vm_compute; reflexivity|].
  refine (proj1 (no_session_forgotten gone 1 (session_of gone 1) Hr _ _ _ _ _));
    try (vm_compute; reflexivity).
  - replace (thr gone) with [Ret tt; Ret tt] by (vm_compute; reflexivity). repeat constructor.
  - replace (log (srv gone)) with [EvPort 65537; EvClose 500] by (vm_compute; reflexivity). repeat constructor.
Defined.

Lemma Disconnect_never_marks_witness :
  reachable connected /\ socket (xchg_socket (session_of connected 1)).2 <> INVALID_SOCKET.
Proof.
  split; [exact connected_reachable|].
  refine (proj1 (proj2 (Disconnect_never_marks connected 1 (session_of connected 1)
    connected_reachable _ _))); [vm_compute; reflexivity|].
  apply (bool_decide_eq_true_1 _); vm_compute; reflexivity.
Defined.

(** The accept thread has set up the slot and has not announced it. *)
Definition setting_up : config (P := RefPool.t) :=
  after start (Accept 500 1 2 :: rounds 17 0 WSA_IO_PENDING).

Lemma session_ids_name_slots_witness :
  reachable setting_up /\ u16 (sessionID (session_of setting_up 1)) = 1 /\
  (sessionID (session_of setting_up 1) ∉ announced (srv setting_up)) /\ announced (srv connected) = [65537].
Proof.
  assert (Hr : reachable setting_up) by apply after_reachable, start_initial.
  assert (Ha : about_to setting_up 0 (setup_act 1)) by (apply about_to_intro; vm_compute; reflexivity).
  destruct (session_ids_name_slots setting_up 1 1 (session_of setting_up 1) (session_of setting_up 1)
    Hr ltac:(vm_compute; reflexivity) ltac:(vm_compute; reflexivity)) as (H1 & _ & H2).
  split; [exact Hr|]. split; [apply H1, (bool_decide_eq_true_1 _); vm_compute; reflexivity|].
  split; [exact (H2 _ Ha)|vm_compute; reflexivity].
Defined.
