(* ===== verification/PacketProps.v ===== *)
(** * Packets are shared safely

    The reference counts of [CNetPacket] in the orderly runs of [SessionSafety], in which
    the send queues are reliable: no packet is used or queued that is not in use, the thread
    that gives a packet back to the pool is the only one that has it, and none is forgotten;
    and the order in which these runs send them. [stale_packet_used] shows that a queue
    that fails a [Dequeue] breaks this. *)
From S2P Require Import Prelude.
From S2P Require Import RingBuffer.
From S2P Require Import NetPacket.
From S2P Require Import ObjectPool.
From S2P Require Import ServerState.
From S2P Require Import NetServer.
From S2P Require Import SessionLogic.
From S2P Require Import PacketLogic.
From S2P Require Import HistoryLogic.
From S2P Require Import SessionSound.
From S2P Require Import SessionThreads.
From S2P Require Import SessionSafety.
From S2P Require Import SessionProps.
From stdpp Require Import prelude gmap list.
From Stdlib Require Import ZArith Lia.
Open Scope Z_scope.

(** Actions on packet [p]: on its memory, or putting it into a queue. *)
Definition packet_act (p : Z) (B : Type) (a : act B) : Prop :=
  match a with
  | Packet q _ | PoolFree q | SendQEnqueue _ q | RecvDequeueTo _ q _ => q = p
  | _ => False
  end.
Definition free_act (p : Z) (B : Type) (a : act B) : Prop :=
  match a with PoolFree q => q = p | _ => False end.

(** How often [p] is in the send queues. *)
Definition queued {P} (st : server P) (p : Z) : nat :=
  sum_list ((fun s => occ p (sendQ s)) <$> sessionArr st).

Section holders.
Context {qs : Queues}.

Lemma packet_act_has p B (a : act B) Q R :
  packet_act p B a -> act_spec a Q R -> has R (Pk p) \/ has R (Raw p).
Proof. destruct a; cbn; try done; intros <-; tauto. Qed.

Lemma free_act_has p B (a : act B) Q R : free_act p B a -> act_spec a Q R -> has R (Raw p).
Proof. destruct a; cbn; try done; intros <-; tauto. Qed.

End holders.

Section packet_properties.
Context {P : Type} `{PoolLaws P} `{HandlerOk}.

Lemma queued_placed (st : server P) T p : (queued st p <= placed st T p)%nat.
Proof.
  unfold queued, placed.
  assert (Hl : forall l (g : nat -> SESSION -> nat), (forall n s, (occ p (sendQ s) <= g n s)%nat) ->
    (sum_list ((fun s => occ p (sendQ s)) <$> l) <= sum_list (imap g l))%nat).
  { induction l as [|s l IH]; intros g Hg; [done|]. rewrite fmap_cons, imap_cons. cbn [sum_list_with].
    specialize (IH (g ∘ S) (fun n => Hg (S n))). specialize (Hg 0%nat s). unfold id in *. lia. }
  apply Hl. intros n s. unfold slot_refs. lia.
Qed.

Lemma posted_sending (st : server P) i : PendSend i ∈ pend st -> (0 < sending (view_of st) i)%nat.
Proof.
  intros Hi. unfold sending.
  assert (0 < count (fun io => match io with PendSend j => (j =? i)%Z | _ => false end) (v_pend (view_of st)))%nat; [|lia].
  apply count_pos. exists (PendSend i). split; [exact Hi|apply Z.eqb_refl].
Qed.

(** What is being sent counts as a place of the packets. *)
Lemma sending_placed (c : config (P := P)) Rs i s p :
  inv (view_of (srv c)) (al c) (all_toks Rs) -> get_session (srv c) i = Ok s -> (0 < sending (view_of (srv c)) i)%nat ->
  p ∈ take (Z.to_nat (sendCnt s)) (sendPacketArr s) -> (0 < placed (srv c) (all_toks Rs) p)%nat.
Proof.
  intros Hv Hs Hn Hp. pose proof (get_view _ _ _ Hs) as Hg.
  pose proof (inv_snd _ _ _ Hv _ _ Hg) as Hsn. pose proof (receiving_le (view_of (srv c)) i) as Hle.
  destruct (inv_live _ _ _ Hv _ _ Hg) as [Hf Ha]; [unfold outstanding; lia|].
  pose proof (inv_own _ _ _ Hv _ _ Hg) as Ho. rewrite decide_True in Ho by done.
  assert (Hst : setups (all_toks Rs) i = O).
  { destruct (decide (0 < setups (all_toks Rs) i)%nat) as [Hx|]; [|lia].
    destruct (inv_set _ _ _ Hv _ _ Hg) as [[_ Hb] _]; lia. }
  pose proof (placed_slot (srv c) (all_toks Rs) p i s Hs) as Hpl. unfold slot_refs in Hpl.
  rewrite lot_some in Hpl.
  - apply occ_elem in Hp. lia.
  - change (free_count (view_of (srv c)) i) with (free_of (srv c) i) in Ho.
    unfold nolot, owners, senders in *. destruct (c_send (core_of s) =? 1); lia.
Qed.

(** C8: no packet is used after it was freed, as long as the send queues are reliable. At
    any point of any orderly run, in which the send queues hold what was put into them, a
    packet a thread is about to read, to write, to queue or to give back is out of the pool; so
    is every packet in a send queue, and its reference count is at least the number of
    places it has there; and so is every packet in [sendPacketArr] that a send in progress
    reads, with a reference count of at least 1, although threads that share a packet
    change its count with no lock. *)
Theorem packets_used_are_live (c : config (P := P)) (p : Z) :
  orderly c ->
  (forall t, about_to c t (packet_act p) -> p ∈ pool_live (pool (srv c))) /\
  Z.of_nat (queued (srv c) p) <= CNetPacket.refCount (packets (srv c) p) /\
  ((0 < queued (srv c) p)%nat -> p ∈ pool_live (pool (srv c))) /\
  (forall i s, PendSend i ∈ pend (srv c) -> get_session (srv c) i = Ok s ->
     p ∈ take (Z.to_nat (sendCnt s)) (sendPacketArr s) ->
     p ∈ pool_live (pool (srv c)) /\ 1 <= CNetPacket.refCount (packets (srv c) p)).
Proof.
  intros (Rs & Hths & Hv & Hp)%orderly_cinv.
  pose proof (p_count _ _ Hp eq_refl p) as Hc. pose proof (p_live _ _ Hp eq_refl p) as Hl. unfold refs in *.
  pose proof (queued_placed (srv c) (all_toks Rs) p) as Hq. split_and!.
  - intros t Ht. destruct (about_to_has _ _ _ _ (fun R => has R (Pk p) \/ has R (Raw p)) Hths Ht) as (R & HR & Hx).
    { intros. eapply packet_act_has; done. }
    apply Hl. pose proof (total_below _ _ _ HR (Pk p)). pose proof (total_below _ _ _ HR (Raw p)). unfold has in Hx. lia.
  - lia.
  - intros Hn. apply Hl. lia.
  - intros i s Hi Hs Hin. pose proof (posted_sending _ _ Hi) as Hn.
    pose proof (sending_placed c Rs i s p Hv Hs Hn Hin). split; [apply Hl; lia|lia].
Qed.

(** C9: a packet is given back by the last one who has it, once, as long as the send queues
    are reliable. In any orderly run, while a thread is about to give packet [p] back to the pool, its reference count is 0, it is in no queue, the
    pool takes it, and no other thread is about to read it, write it, queue it or give it
    back. *)
Theorem packet_freed_by_last_user (c : config (P := P)) (t : nat) (p : Z) :
  orderly c -> about_to c t (free_act p) ->
  CNetPacket.refCount (packets (srv c) p) = 0 /\ queued (srv c) p = O /\
  (forall tid, exists pl, pool_free tid (pool (srv c)) p = Ok (true, pl)) /\
  (forall t', about_to c t' (packet_act p) -> t' = t).
Proof.
  intros (Rs & Hths & Hv & Hp)%orderly_cinv Ht.
  destruct (about_to_has _ _ _ _ (fun R => has R (Raw p)) Hths Ht) as (R & HR & Hr).
  { intros. eapply free_act_has; done. }
  pose proof (total_below _ _ _ HR) as Hb.
  destruct (raw_alone _ _ _ _ Hp eq_refl Hb Hr) as (E1 & E2 & E3).
  pose proof (p_count _ _ Hp eq_refl p) as Hc. unfold refs in Hc. pose proof (queued_placed (srv c) (all_toks Rs) p) as Hq.
  split_and!; [lia|lia| |].
  - intros tid. destruct (free_takes _ _ _ tid _ Hp eq_refl Hb Hr) as (pl & Hf & _). eauto.
  - intros t' Ht'. destruct (decide (t' = t)) as [|Hne]; [done|exfalso].
    destruct (about_to_has _ _ _ _ (fun R => has R (Pk p) \/ has R (Raw p)) Hths Ht') as (R' & HR' & Hx).
    { intros. eapply packet_act_has; done. }
    pose proof (total_two Rs t' t R' R (Pk p) Hne HR' HR). pose proof (total_two Rs t' t R' R (Raw p) Hne HR' HR).
    unfold has in *. lia.
Qed.

(** C17: no packet is forgotten, as long as the send queues are reliable. When all threads
    of an orderly run have returned, nothing is outstanding or queued and no completion was
    lost, every packet is back in the pool: those received,
    those sent, those a closed session left in its queue, and those a failed send left. *)
Theorem no_packet_forgotten (c : config (P := P)) :
  orderly c ->
  Forall (fun p => p = Ret tt) (thr c) -> iocp (srv c) = [] -> pend (srv c) = [] ->
  Forall (fun e => accounting e = false) (log (srv c)) ->
  pool_live (pool (srv c)) = ∅.
Proof.
  intros Hr Hret Hi Hpd Hl. pose proof (fun i s Hs => quiet_released c i s (orderly_reachable _ Hr) Hs Hret Hi Hpd Hl) as Hfree.
  apply orderly_cinv in Hr as (Rs & Hths & Hv & Hp). pose proof (all_returned _ _ Hths Hret) as Hsp.
  apply set_eq. intros p. rewrite (p_live _ _ Hp eq_refl p). split; [|intros []%not_elem_of_empty].
  intros Hx. exfalso. unfold refs in Hx. rewrite !Hsp in Hx by done. rewrite placed_none in Hx; [lia|].
  intros i s Hs. destruct (Hfree i s Hs) as [Hf _].
  assert (Hc : (0 < free_of (srv c) i)%nat).
  { rewrite free_of_eq. apply count_pos. exists i. split; [exact Hf|apply Z.eqb_refl]. }
  unfold slot_refs. rewrite (so_empty _ _ _ _ (p_slot _ _ Hp _ _ Hs)), lot_none; [done|unfold nolot; lia|lia|done].
Qed.

(** C3: every session sends what was queued for it, once and in order, as long as the send
    queues are reliable. In any orderly run, whatever the threads interleave, the packets
    handed to the operating system for a session are, in their order, a prefix of the
    packets put into its send queue since its slot was set up; the ones after them are a
    batch some thread has taken out and then those in the queue. No batch is out while a
    send is in progress, and none when the send flag is 0: then every packet queued was
    sent or is in the queue. *)
Theorem sends_in_queue_order (c : config (P := P)) (tr : list HistoryLogic.label) (i : Z) (s : SESSION) :
  traced c tr -> get_session (srv c) i = Ok s -> releaseFlag s = 0 -> i ∈ al c ->
  exists batch, (history tr i).1 = (history tr i).2 ++ batch ++ sendQ s /\
    (sendFlag s <> 1 \/ PendSend i ∈ pend (srv c) -> batch = []).
Proof.
  intros (Rs & _ & Hv & Hp & Hh)%traced_cinv Hs Hf Hi. pose proof (get_view _ _ _ Hs) as Hc.
  pose proof (inv_own _ _ _ Hv _ _ Hc) as Ho. rewrite decide_True in Ho by done.
  destruct (Hh eq_refl i s Hs Ho) as [_ (x & Ex & Hx)]. exists x. split; [exact Ex|].
  destruct (p_slot _ _ Hp _ _ Hs) as [_ _ _ (o & Hb & Hk)]. pose proof (inv_snd _ _ _ Hv _ _ Hc) as Hsn. cbn [c_send core_of] in Hsn.
  pose proof (one_state _ _ _ _ _ Hv Hc) as Hone.
  intros Hd. assert (Hd' : (senders (all_toks Rs) i = O)%nat /\ (sendFlag s <> 1 \/ (0 < sending_of (srv c) i)%nat)).
  { destruct Hd as [Hd|Hd]; [apply Z.eqb_neq in Hd as E; rewrite E in Hsn; split; [lia|left; exact Hd]|].
    assert (0 < sending_of (srv c) i)%nat by (apply posted_sending, Hd).
    unfold sending_of in *. destruct (sendFlag s =? 1); split; try right; lia. }
  destruct Hd' as [Hn Hd']. rewrite (Hx o Hb).
  - apply (bat_none _ _ _ _ _ Hb) in Hk as ->; [done|]. unfold bat_users, senders, owners in *. lia.
  - destruct Hd' as [Hd'|Hd']; [left; exact Hd'|right; lia].
Qed.

End packet_properties.

(** ** Witnesses *)
Import Sample.

(** The first packet is being sent and the second one is in the queue. *)
Lemma packets_used_are_live_witness :
  orderly posted /\ queued (srv posted) 2 = 1%nat /\ 1 <= CNetPacket.refCount (packets (srv posted) 2) /\
  2 ∈ pool_live (pool (srv posted)) /\
  PendSend 1 ∈ pend (srv posted) /\ 1 ∈ pool_live (pool (srv posted)).
Proof.
  assert (Hr : orderly posted) by apply later_orderly, connected_orderly.
  assert (Hpd : PendSend 1 ∈ pend (srv posted)).
  { replace (pend (srv posted)) with [PendRecv 1 [(1, 16)]; PendSend 1] by (vm_compute; reflexivity). right. left. }
  destruct (packets_used_are_live posted 2 Hr) as (_ & Hc & Hl & _).
  assert (Hq : queued (srv posted) 2 = 1%nat) by (vm_compute; reflexivity). rewrite Hq in Hc, Hl.
  destruct (packets_used_are_live posted 1 Hr) as (_ & _ & _ & Hs).
  split_and!; [exact Hr|exact Hq|exact Hc|apply Hl; lia|exact Hpd|].
  apply (Hs 1 (session_of posted 1) Hpd); [vm_compute; reflexivity|].
  replace (take _ _) with [1] by (vm_compute; reflexivity). left.
Defined.

(** A client connects; one packet is sent, and a second one queued before that send ends. *)
Definition session_run : list command :=
  (Accept 500 1 2 :: rounds 25 0 WSA_IO_PENDING) ++
  [CallSend [65537]] ++ rounds 13 1 1 ++ [Dispatch] ++ rounds 25 2 0 ++ [CallSend [65537]] ++ rounds 13 3 1.

Lemma sends_in_queue_order_witness :
  traced (after start session_run) (trace start session_run) /\
  trace start session_run = [LOpen 1; LQueue 1 1; LSend 1 [1]; LQueue 1 2] /\
  sendQ (session_of (after start session_run) 1) = [2] /\
  exists batch, [1; 2] = [1] ++ batch ++ [2] /\ batch = [].
Proof.
  assert (Ht : traced (after start session_run) (trace start session_run)).
  { apply after_traced; [exact start_initial|]. vm_compute. eauto. }
  assert (Eq : trace start session_run = [LOpen 1; LQueue 1 1; LSend 1 [1]; LQueue 1 2]) by (vm_compute; reflexivity).
  split; [exact Ht|]. split; [exact Eq|]. split; [vm_compute; reflexivity|].
  destruct (sends_in_queue_order _ _ 1 (session_of (after start session_run) 1) Ht) as (batch & E & Hb);
    [vm_compute; reflexivity..|apply (bool_decide_eq_true_1 _); vm_compute; reflexivity|].
  exists batch. rewrite Eq in E. split; [exact E|]. apply Hb. right.
  replace (pend (srv (after start session_run))) with [PendRecv 1 [(1, 16)]; PendSend 1] by (vm_compute; reflexivity).
  right. left.
Defined.

(** The send has ended, and the worker is about to give the first packet back, while a
    second packet is in the queue and another worker is in [SendPost]. *)
Definition freeing : config (P := RefPool.t) := after sent (rounds 5 6 0).

Lemma packet_freed_by_last_user_witness :
  orderly freeing /\ CNetPacket.refCount (packets (srv freeing) 1) = 0 /\
  (forall t', about_to freeing t' (packet_act 1) -> t' = 6%nat).
Proof.
  assert (Hr : orderly freeing) by apply later_orderly, later_orderly, later_orderly, connected_orderly.
  assert (Ha : about_to freeing 6 (free_act 1)) by (apply about_to_intro; vm_compute; reflexivity).
  destruct (packet_freed_by_last_user freeing 6 1 Hr Ha) as (H1 & _ & _ & H2).
  split; [exact Hr|]. split; [exact H1|exact H2].
Defined.

(** The client closes the connection while one packet is being sent and one is in the
    queue. *)
Definition over : config (P := RefPool.t) :=
  after posted ([IoDone []; IoDone [1; 2; 3]; Dispatch; Dispatch; Dispatch] ++ rounds 10 4 0 ++ rounds 10 5 0 ++ rounds 40 6 1).

Lemma no_packet_forgotten_witness :
  orderly over /\ RefPool.next (pool (srv over)) = 3 /\ pool_live (pool (srv over)) = ∅.
Proof.
  assert (Hr : orderly over) by apply later_orderly, later_orderly, connected_orderly.
  split; [exact Hr|]. split; [vm_compute; reflexivity|].
  refine (no_packet_forgotten over Hr _ _ _ _); try (vm_compute; reflexivity).
  - replace (thr over) with (replicate 7 (Ret tt : prog unit)) by (vm_compute; reflexivity). repeat constructor.
  - replace (log (srv over)) with [EvPort 65537; EvSend 1 [119; 0; 0; 1; 49]; EvClose 500] by (vm_compute; reflexivity). repeat constructor.
Defined.

(** ** A packet that waits for the next one

    A thread that takes the send flag and finds the queue empty gives it back and tries
    again, but once only. Thread 2 is late twice: each time another thread sends what it
    saw in the queue before it takes the flag. While it has the flag the second time, a
    third packet is queued, whose worker leaves it to the thread with the flag; that
    thread gives up. *)
Definition send_one (t : nat) : list command := CallSend [65537] :: rounds 13 t 1.
Definition late_once : config (P := RefPool.t) :=
  after connected (send_one 1 ++ [Dispatch] ++ rounds 3 2 0 ++ send_one 3 ++ [Dispatch] ++ rounds 40 4 0 ++
    [IoDone [9]; Dispatch] ++ rounds 40 5 0 ++ [IoDone [1]; Dispatch] ++ rounds 40 6 0 ++ rounds 3 2 0).
Definition late_twice : config (P := RefPool.t) :=
  after late_once (send_one 7 ++ rounds 2 2 0 ++ [Dispatch] ++ rounds 40 8 0 ++ [IoDone [9]; Dispatch] ++ rounds 40 9 0 ++
    [IoDone [1]; Dispatch] ++ rounds 40 10 0 ++ rounds 2 2 0).
Definition waiting : config (P := RefPool.t) :=
  after late_twice (send_one 11 ++ [Dispatch] ++ rounds 40 12 0 ++ rounds 40 2 0).

(** The send protocol can leave a packet behind. There is a reachable configuration in
    which all threads have returned, nothing is queued at the completion port, no send is
    outstanding and nobody has the send flag, and yet a session in use has a packet in its
    send queue: it is sent when the next packet is, or never. *)
Theorem packet_left_behind :
  exists (c : config (P := RefPool.t)) s, orderly c /\ get_session (srv c) 1 = Ok s /\
    Forall (fun p => p = Ret tt) (thr c) /\ iocp (srv c) = [] /\ (PendSend 1 ∉ pend (srv c)) /\
    Forall (fun e => accounting e = false) (log (srv c)) /\
    releaseFlag s = 0 /\ 1 ∈ al c /\ sendFlag s = 0 /\ length (sendQ s) = 1%nat.
Proof.
  exists waiting, (session_of waiting 1). split_and!; try (vm_compute; reflexivity).
  - do 3 apply later_orderly. apply connected_orderly.
  - replace (thr waiting) with (replicate 13 (Ret tt : prog unit)) by (vm_compute; reflexivity). repeat constructor.
  - replace (pend (srv waiting)) with [PendRecv 1 [(3, 14)]] by (vm_compute; reflexivity).
    intros [E|[]%not_elem_of_nil]%elem_of_cons. discriminate E.
  - replace (log (srv waiting)) with [EvPort 65537; EvSend 1 [119; 0; 0; 1; 49; 119; 0; 0; 1; 49];
      EvSend 1 [119; 0; 0; 1; 49]] by (vm_compute; reflexivity). repeat constructor.
Qed.

(** ** What a queue that fails costs

    Two packets are sent and given back, and a third one is queued. A worker takes the send
    flag and reads the size 1; then the element cannot be reached, as after
    [CLockFreeQueue.enqueue_to_private_node]. *)
Definition promised : config (P := RefPool.t) :=
  after connected (send_one 1 ++ send_one 2 ++ [Dispatch; Dispatch] ++ rounds 40 3 0 ++ rounds 40 4 0 ++
    [IoDone [9]; Dispatch] ++ rounds 40 5 0 ++ [IoDone [1]; Dispatch] ++ rounds 40 6 0 ++
    send_one 7 ++ [Dispatch] ++ rounds 5 8 0).
Definition disturbed : config (P := RefPool.t) :=
  let s := session_of promised 1 in
  mkConfig (set_session (srv promised) 1 (with_send s (sendFlag s) (sendCnt s) [] (sendPacketArr s))) (thr promised) (al promised).

Lemma queue_changes (c : config (P := RefPool.t)) i s q :
  get_session (srv c) i = Ok s ->
  step c (mkConfig (set_session (srv c) i (with_send s (sendFlag s) (sendCnt s) q (sendPacketArr s))) (thr c) (al c)).
Proof. destruct c. apply step_queue. done. Qed.

(** [SendPost] does not look at the answer of [Dequeue]. With a send queue that refuses a
    packet it has counted, a worker is about to use the packet [sendPacketArr] still has
    from the send before, which is back in the pool. *)
Theorem stale_packet_used :
  exists (c : config (P := RefPool.t)) t p,
    reachable c /\ about_to c t (packet_act p) /\ (p ∉ pool_live (pool (srv c))).
Proof.
  exists (after disturbed (rounds 2 8 0)), 8%nat, 1. split_and!.
  - apply later_reachable. assert (Hr : reachable promised) by apply later_reachable, connected_reachable.
    destruct Hr as (c0 & Hi & Hr). exists c0. split; [exact Hi|]. eapply rtc_r; [exact Hr|].
    apply (queue_changes promised 1). vm_compute. reflexivity.
  - apply about_to_intro. vm_compute. reflexivity.
  - apply (bool_decide_eq_true_1 _). vm_compute. reflexivity.
Qed.
