(* ===== verification/SessionStack.v ===== *)
(** * The server on its lock-free stack

    [SessionSafety] takes a push or a pop of [_freeSessionStack] as one step. Here the
    server runs on the [CLockFreeStack] of [LockFreeStack]: a thread that pushes or pops a
    slot calls the stack and makes its accesses one by one, interleaved with all other
    threads. What it does is something the server with the atomic stack does, so the
    theorems of [SessionProps] hold of it. *)
From S2P Require Import Prelude.
From S2P Require Import RingBuffer.
From S2P Require Import NetPacket.
From S2P Require Import ObjectPool.
From S2P Require Import LockFreeStack.
From S2P Require Import ServerState.
From S2P Require Import NetServer.
From S2P Require Import SessionLogic.
From S2P Require Import SessionThreads.
From S2P Require Import SessionSafety.
From S2P Require Import SessionProps.
From stdpp Require Import prelude gmap list list_numbers.
From Stdlib Require Import ZArith Lia.
Open Scope Z_scope.

#[local] Arguments send_new : simpl never.

Module LF := CLockFreeStack.

(** ** The server on the stack *)
Definition not_stack (B : Type) (a : act B) : bool :=
  match a with FreePush _ | FreePop => false | _ => true end.

Section machine.
Context {P : Type} `{PoolLaws P} `{HandlerOk}.

(** The stack is in [stk], whose threads are those of [base]; the free stack of [base]
    is not used. *)
Record fconfig := mkF { base : config (P := P); stk : LF.config }.

Definition with_free (c : config (P := P)) (l : list Z) : config (P := P) :=
  mkConfig (set_free (srv c) l) (thr c) (al c).
Definition set_thread (c : config (P := P)) (t : nat) (p : prog unit) : config (P := P) :=
  mkConfig (srv c) (<[t := p]> (thr c)) (al c).

(** A thread that starts is in no call of the stack. *)
Definition idle_thread : LF.thread := LF.mkThread LF.Idle 0 None.
Definition join_threads (s : LF.config) (n : nat) : LF.config :=
  LF.mkConfig (LF.shared s) (LF.threads s ++ replicate (n - length (LF.threads s)) idle_thread)
    (LF.pops s) (LF.hist s).

Definition next_pc (s : LF.config) (u : LF.thread) : LF.pc := (LF.step (LF.at_pc u) (LF.shared s)).1.1.

(** - [f_base]: a step of the server that is not on the stack;
    - [f_push], [f_pop]: a thread calls the stack;
    - [f_access]: a thread in a call makes its next access, [f_pushed] the last one of
      [Push], which returns;
    - [f_popped]: [Pop] returns. *)
Inductive fstep : fconfig -> fconfig -> Prop :=
  | f_base b b' s :
      step_on not_stack true b b' -> fstep (mkF b s) (mkF b' (join_threads s (length (thr b'))))
  | f_push b s t u v k :
      thr b !! t = Some (Do (FreePush v) k) -> LF.threads s !! t = Some u -> LF.at_pc u = LF.Idle ->
      fstep (mkF b s) (mkF b (LF.call s t u (LF.Push v)))
  | f_pop b s t u k :
      thr b !! t = Some (Do FreePop k) -> LF.threads s !! t = Some u -> LF.at_pc u = LF.Idle ->
      fstep (mkF b s) (mkF b (LF.call s t u LF.Pop))
  | f_access b s t u :
      LF.threads s !! t = Some u -> LF.in_window s u -> LF.at_pc u <> LF.Idle -> next_pc s u <> LF.Idle ->
      fstep (mkF b s) (mkF b (LF.advance s t u))
  | f_pushed b s t u v k :
      thr b !! t = Some (Do (FreePush v) k) -> LF.threads s !! t = Some u -> LF.in_window s u ->
      LF.at_pc u <> LF.Idle -> next_pc s u = LF.Idle ->
      fstep (mkF b s) (mkF (set_thread b t (k tt)) (LF.advance s t u))
  | f_popped b s t u r k :
      thr b !! t = Some (Do FreePop k) -> LF.threads s !! t = Some u -> LF.at_pc u = LF.Popped r ->
      fstep (mkF b s) (mkF (set_thread b t (k r)) (LF.call s t u LF.Idle)).

(** [Start] has pushed the slots, and no thread runs. *)
Definition finitial (f : fconfig) : Prop :=
  exists c0 s0, initial c0 /\ base f = with_free c0 [] /\
    LF.reachable s0 /\ Forall (fun u => LF.at_pc u = LF.Idle) (LF.threads s0) /\
    LF.hist s0 = LF.OpPush <$> seqZ 0 (maxUser (srv c0)) /\
    stk f = LF.mkConfig (LF.shared s0) [] (LF.pops s0) (LF.hist s0).

Definition freachable (f : fconfig) : Prop := exists f0, finitial f0 /\ rtc fstep f0 f.

(** ** The simulation *)

(** How far the thread of the atomic server, at [q], is ahead of the one at [p]: it has
    made its step on the stack when the call of the stack took effect. *)
Definition ahead (dummy : Z) (u : LF.thread) (p q : prog unit) : Prop :=
  match LF.at_pc u with
  | LF.Idle => q = p
  | LF.PushAlloc d | LF.PushData _ d | LF.PushRead _ d | LF.PushNext _ d _ | LF.PushCas _ d _ =>
      q = p /\ exists k, p = Do (FreePush d) k
  | LF.PopUniq | LF.PopTop _ | LF.PopCas _ _ _ => LF.took u = None /\ q = p /\ exists k, p = Do FreePop k
  | LF.PopNext _ n =>
      LF.took u = (if n =? dummy then Some None else None) /\
      exists k, p = Do FreePop k /\ q = if n =? dummy then k None else p
  | LF.PopData _ | LF.PopFree _ _ | LF.Popped _ =>
      exists k r, LF.took u = Some r /\ p = Do FreePop k /\ q = k r
  end.

Record sim (f : fconfig) (a : config (P := P)) : Prop := mkSim {
  sim_inv : exists U l, LF.inv (stk f) U l;
  sim_srv : exists S, LF.replay [] (LF.hist (stk f)) = Some S /\ srv a = set_free (srv (base f)) S;
  sim_al : al a = al (base f);
  sim_thr : Forall3 (ahead (LF._dummyNode (LF.shared (stk f)))) (LF.threads (stk f)) (thr (base f)) (thr a);
}.

(** ** Actions that are not on the stack *)
Lemma exec_set_free {B} ch (a : act B) (st st' : server P) b l :
  not_stack B a = true -> exec ch a st = Ok (b, st') -> exec ch a (set_free st l) = Ok (b, set_free st' l).
Proof.
  destruct a; try done; intros _; cbn; unfold on_session, read_session, get_session, overlapped_call, mbind, outcome_bind; cbn.
  all: repeat case_match; intros; simplify_eq/=; try done.
Qed.

Lemma complete_set_free (st st' : server P) io bs l :
  complete_io st io bs = Ok st' -> complete_io (set_free st l) io bs = Ok (set_free st' l).
Proof.
  destruct io; cbn; unfold get_session, mbind, outcome_bind; cbn.
  all: repeat case_match; intros; simplify_eq/=; try done.
Qed.

(** ** Lists of threads *)
Lemma Forall3_insert_at {A B C} (R : A -> B -> C -> Prop) l k r i x y z :
  Forall3 R l k r -> R x y z -> Forall3 R (<[i := x]> l) (<[i := y]> k) (<[i := z]> r).
Proof. intros Hf Hx. revert i. induction Hf as [|? ? ? ? ? ? ? ? IH]; intros [|i]; cbn; constructor; auto. Qed.

Lemma Forall3_lookups {A B C} (R : A -> B -> C -> Prop) l k r i x y :
  Forall3 R l k r -> l !! i = Some x -> k !! i = Some y -> exists z, r !! i = Some z /\ R x y z.
Proof.
  intros Hf Hx Hy. destruct (Forall3_lookup_l _ _ _ _ _ _ Hf Hx) as (y' & z & Hy' & Hz & HR).
  rewrite Hy in Hy'. injection Hy' as <-. eauto.
Qed.

(** One thread changes what it does, in the stack, in the server and in the atomic one. *)
Lemma sim_insert_l D ls ps qs t u' p q :
  Forall3 (ahead D) ls ps qs -> ps !! t = Some p -> qs !! t = Some q -> ahead D u' p q ->
  Forall3 (ahead D) (<[t := u']> ls) ps qs.
Proof.
  intros Hf Hp Hq Ha. rewrite <- (list_insert_id ps t p Hp), <- (list_insert_id qs t q Hq).
  apply Forall3_insert_at; done.
Qed.

Lemma join_none s : join_threads s (length (LF.threads s)) = s.
Proof. unfold join_threads. rewrite Nat.sub_diag. cbn. rewrite app_nil_r. destruct s; done. Qed.

Lemma join_one s : join_threads s (length (LF.threads s) + 1) =
  LF.mkConfig (LF.shared s) (LF.threads s ++ [idle_thread]) (LF.pops s) (LF.hist s).
Proof. unfold join_threads. replace (length (LF.threads s) + 1 - length (LF.threads s))%nat with 1%nat by lia. done. Qed.

(** Idle threads own nothing and know nothing. *)
Lemma lf_inv_idle c U l ts :
  LF.inv c U l -> Forall (fun u => LF.at_pc u = LF.Idle) ts -> 
  LF.inv (LF.mkConfig (LF.shared c) (LF.threads c ++ ts) (LF.pops c) (LF.hist c)) U l.
Proof.
  intros [] Hts. split; cbn; try done.
  - unfold LF.all_owned in *. rewrite fmap_app, concat_app.
    replace (concat (LF.owned <$> ts)) with (@nil Z); [rewrite app_nil_r; done|].
    clear -Hts. induction Hts as [|u ts Hu _ IH]; [done|]. cbn. rewrite <- IH. unfold LF.owned. rewrite Hu. done.
  - intros i u Hi. apply lookup_app_Some in Hi as [Hi|[_ Hi]]; [eauto|].
    rewrite Forall_lookup in Hts. unfold LF.knows. rewrite (Hts _ _ Hi). done.
Qed.

Lemma lf_inv_none c U l :
  LF.inv c U l -> Forall (fun u => LF.at_pc u = LF.Idle) (LF.threads c) ->
  LF.inv (LF.mkConfig (LF.shared c) [] (LF.pops c) (LF.hist c)) U l.
Proof.
  intros [] Hts. split; cbn; try done.
  replace (LF.all_owned (LF.threads c)) with (@nil Z) in inv_parts; [done|].
  clear -Hts. unfold LF.all_owned. induction Hts as [|u ts Hu _ IH]; [done|]. cbn. rewrite <- IH. unfold LF.owned. rewrite Hu. done.
Qed.

(** A thread at an action that is not on the stack is in no call of it. *)
Lemma ahead_base D u p q : ahead D u p q -> head_ok not_stack p = true -> LF.at_pc u = LF.Idle /\ q = p.
Proof.
  unfold ahead. destruct (LF.at_pc u); intros Ha Hp; try done.
  all: repeat match goal with H : _ /\ _ |- _ => destruct H | H : exists _, _ |- _ => destruct H end; subst; done.
Qed.

(** ** Every step is simulated *)

(** A step of the server that is not on the stack is made by both. *)
Lemma sim_base b b' s a :
  sim (mkF b s) a -> step_on not_stack true b b' ->
  exists a', rtc step a a' /\ sim (mkF b' (join_threads s (length (thr b')))) a'.
Proof.
  intros [(U & l & Hv) (S & Hr & Hsrv) Hal Hthr] Hstep. destruct a as [sa ta ala]. cbn in *.
  pose proof (Forall3_length_lm _ _ _ _ Hthr) as Hlen.
  assert (Hspawn : forall st' p, thr b' = thr b ++ [p] -> al b' = al b ->
    set_free (srv b') S = st' -> sim (mkF b' (join_threads s (length (thr b')))) (mkConfig st' (ta ++ [p]) ala)).
  { intros st' p Et Ea <-. rewrite Et, length_app, <- Hlen. cbn [length]. rewrite join_one. split; cbn.
    - exists U, l. apply lf_inv_idle; [done|]. repeat constructor.
    - eauto.
    - congruence.
    - rewrite Et. apply Forall3_app; [done|]. repeat constructor. }
  destruct Hstep as [st ths al t B act k ch r st' Ht Hok Hno Hx|st ths al t i s' k m Ht Hs Hm|
    st ths al i s' q Hw Hs|st ths al t S' B body s' k Ht|
    st ths al c q Hl|st ths al io l1 l2 bs st' Hl Hx|st ths al fill sids Hs Hfill|st ths al sid Hs|st ths al sock ip port Hs]; cbn in *; subst sa ala.
  - destruct (Forall3_lookup_m _ _ _ _ _ _ Hthr Ht) as (u & q & Hu & Hq & Ha).
    apply ahead_base in Ha as [Hi ->]; [|exact Hok].
    exists (mkConfig (set_free st' S) (<[t := k r]> ta) (alloc_after act al)). split.
    + apply rtc_once. eapply step_act; [exact Hq|done| |apply exec_set_free; done]. destruct act; done.
    + rewrite length_insert, <- Hlen, join_none. split; cbn; [eauto|eauto|done|].
      rewrite <- (list_insert_id _ _ _ Hu). apply Forall3_insert_at; [done|]. unfold ahead. rewrite Hi. done.
  - destruct (Forall3_lookup_m _ _ _ _ _ _ Hthr Ht) as (u & q & Hu & Hq & Ha).
    apply ahead_base in Ha as [Hi ->]; [|done].
    exists (mkConfig (set_free st S) (<[t := k (Z.of_nat m)]> ta) al). split; [apply rtc_once; eapply step_lag; done|].
    rewrite length_insert, <- Hlen, join_none. split; cbn; [eauto|eauto|done|].
    rewrite <- (list_insert_id _ _ _ Hu). apply Forall3_insert_at; [done|]. unfold ahead. rewrite Hi. done.
  - eexists. split; [apply rtc_once, (step_queue any_act true (set_free st S) ta al i s' q Hw Hs)|].
    rewrite <- Hlen, join_none. split; cbn; eauto.
  - destruct (Forall3_lookup_m _ _ _ _ _ _ Hthr Ht) as (u & q & Hu & Hq & Ha).
    apply ahead_base in Ha as [Hi ->]; [|done].
    eexists (mkConfig (set_free st S) (<[t := _]> ta) al). split; [apply rtc_once, step_loop, Hq|].
    rewrite length_insert, <- Hlen, join_none. split; cbn; [eauto|eauto|done|].
    rewrite <- (list_insert_id _ _ _ Hu). apply Forall3_insert_at; [done|]. unfold ahead. rewrite Hi. done.
  - eexists. split; [apply rtc_once, step_dispatch; exact Hl|]. apply Hspawn; done.
  - exists (mkConfig (set_free st' S) ta al). split.
    + apply rtc_once. eapply (step_io _ _ _ _ _ io l1 l2); [exact Hl|]. apply (complete_set_free (set_pend st (l1 ++ l2))), Hx.
    + rewrite <- Hlen, join_none. split; cbn; eauto.
  - eexists. split; [apply rtc_once, (step_send any_act true (set_free st S) _ _ fill sids Hs Hfill)|]. apply Hspawn; done.
  - eexists. split; [apply rtc_once, step_disconnect, Hs|]. apply Hspawn; done.
  - eexists. split; [apply rtc_once, step_accept, Hs|]. apply Hspawn; done.
Qed.

(** An access in a call of the stack: nothing takes effect, or the push that returns
    here, or the pop whose answer is then known. *)
Lemma access_ahead s U l t u p q :
  LF.inv s U l -> LF.threads s !! t = Some u -> ahead (LF._dummyNode (LF.shared s)) u p q -> LF.at_pc u <> LF.Idle ->
  let os := (LF.step (LF.at_pc u) (LF.shared s)).2 in
  forall u', LF.at_pc u' = next_pc s u -> LF.took u' = LF.result_of os (LF.took u) ->
  (os = [] /\ next_pc s u <> LF.Idle /\ ahead (LF._dummyNode (LF.shared s)) u' p q) \/
  (exists d k, os = [LF.OpPush d] /\ next_pc s u = LF.Idle /\ p = Do (FreePush d) k /\ q = p) \/
  (exists r k, os = match r with Some v => [LF.OpPop v] | None => [LF.OpEmpty] end /\ next_pc s u <> LF.Idle /\
     p = Do FreePop k /\ q = p /\ ahead (LF._dummyNode (LF.shared s)) u' p (k r)).
Proof.
  intros Hv Hu Ha Hb os u' Epc Etk. pose proof (LF.inv_knows _ _ _ Hv _ _ Hu) as Hk. subst os.
  unfold next_pc, ahead, LF.knows in *. rewrite Epc, Etk. clear Epc Etk.
  destruct (LF.at_pc u) as [|d|n d|n d|n d bk|n d bk| |w|w n|w n nx|n|n v|r] eqn:E; cbn [LF.step fst snd LF.result_of] in *; try done.
  - left. destruct (LF.pool (LF.shared s)); done.
  - left. done.
  - left. done.
  - left. done.
  - destruct (_ =? bk); cbn [fst snd LF.result_of]; [|left; done]. destruct Ha as (-> & k & ->). right. left. exists d, k. done.
  - left. done.
  - destruct (LF._top (LF.shared s) =? LF._dummyNode (LF.shared s)); cbn [LF.result_of].
    + destruct Ha as (_ & -> & k & ->). right. right. exists None, k. eauto 10.
    + left. destruct Ha as (-> & -> & k & ->). eauto 10.
  - left. destruct Hk as [_ Hk]. destruct Ha as (Etk & k & -> & ->). destruct (Z.eqb_spec n (LF._dummyNode (LF.shared s))) as [->|Hn].
    + rewrite (proj2 (LF.inv_dummy _ _ _ Hv)). cbn. eauto 10.
    + destruct Hk as [Hnz _]. apply Z.eqb_neq in Hnz as ->. cbn. eauto 10.
  - destruct (_ && _); cbn [fst snd LF.result_of].
    + destruct Ha as (_ & -> & k & ->). right. right. exists (Some (LF._data (LF.shared s) n)), k. eauto 10.
    + left. done.
  - left. done.
  - left. done.
  - left. done.
Qed.

(** The stack's accesses keep its invariant, and what they do is in the history. *)
Lemma lf_advance s U l t u :
  LF.inv s U l -> LF.threads s !! t = Some u -> LF.in_window s u ->
  exists u', (exists l', LF.inv (LF.advance s t u) U l') /\
    LF.threads (LF.advance s t u) = <[t := u']> (LF.threads s) /\
    LF.hist (LF.advance s t u) = LF.hist s ++ (LF.step (LF.at_pc u) (LF.shared s)).2 /\
    LF._dummyNode (LF.shared (LF.advance s t u)) = LF._dummyNode (LF.shared s) /\
    LF.at_pc u' = next_pc s u /\ LF.took u' = LF.result_of (LF.step (LF.at_pc u) (LF.shared s)).2 (LF.took u).
Proof.
  intros Hv Hu Hw. pose proof (LF.lf_inv_run _ _ _ _ _ Hv Hu Hw) as Hi.
  assert (Hd : LF._dummyNode (LF.step (LF.at_pc u) (LF.shared s)).1.2 = LF._dummyNode (LF.shared s)).
  { destruct (LF.at_pc u); cbn; repeat case_match; done. }
  unfold LF.advance, next_pc in *. destruct (LF.step (LF.at_pc u) (LF.shared s)) as [[p m] os].
  eexists. split_and!; try done.
Qed.

(** The atomic server pops. *)
Lemma atomic_pop (a : config (P := P)) st S t r (k : option Z -> prog unit) os S' :
  srv a = set_free st S -> thr a !! t = Some (Do FreePop k) ->
  os = match r with Some v => [LF.OpPop v] | None => [LF.OpEmpty] end -> LF.replay S os = Some S' ->
  step a (mkConfig (set_free st S') (<[t := k r]> (thr a)) (al a)).
Proof.
  intros Es Ht -> Hr. destruct a as [sa ta ala]. cbn in *. subst sa.
  apply (step_act any_act true (set_free st S) ta ala t _ FreePop k 0 r (set_free st S')); [exact Ht|done|done|].
  destruct r as [v|], S as [|x S]; cbn in *; try done; [|injection Hr as <-; done].
  destruct (Z.eqb_spec x v) as [->|]; [|done]. injection Hr as <-. done.
Qed.

Lemma atomic_push (a : config (P := P)) st S t d (k : unit -> prog unit) S' :
  srv a = set_free st S -> thr a !! t = Some (Do (FreePush d) k) -> LF.replay S [LF.OpPush d] = Some S' ->
  step a (mkConfig (set_free st S') (<[t := k tt]> (thr a)) (al a)).
Proof.
  intros Es Ht Hr. destruct a as [sa ta ala]. cbn in *. subst sa. injection Hr as <-.
  apply (step_act any_act true (set_free st S) ta ala t _ (FreePush d) k 0 tt (set_free st (d :: S))); done.
Qed.

(** What a program at a push or a pop goes on with. *)
Definition push_cont {A} (p : prog A) : option (Z * prog A) :=
  match p in prog A return option (Z * prog A) with
  | @Do A B a k => match a in act B return (B -> prog A) -> option (Z * prog A) with
                   | FreePush d => fun k => Some (d, k tt)
                   | _ => fun _ => None
                   end k
  | _ => None
  end.
Definition pop_cont {A} (p : prog A) : option (option Z -> prog A) :=
  match p in prog A return option (option Z -> prog A) with
  | @Do A B a k => match a in act B return (B -> prog A) -> option (option Z -> prog A) with
                   | FreePop => fun k => Some k
                   | _ => fun _ => None
                   end k
  | _ => None
  end.

Lemma lf_call s U l t u p :
  LF.inv s U l -> LF.threads s !! t = Some u -> LF.owned u = [] ->
  p = LF.Idle \/ (exists d, p = LF.Push d) \/ p = LF.Pop -> exists U l, LF.inv (LF.call s t u p) U l.
Proof. intros Hv Hu Ho Hp. exists U, l. apply LF.inv_call; done. Qed.

Lemma sim_call b s a t u p q pc :
  sim (mkF b s) a -> thr b !! t = Some p -> LF.threads s !! t = Some u -> LF.at_pc u = LF.Idle ->
  (exists d, pc = LF.Push d) \/ pc = LF.Pop -> thr a !! t = Some q ->
  ahead (LF._dummyNode (LF.shared s)) (LF.mkThread pc (LF.seen u) None) p q ->
  sim (mkF b (LF.call s t u pc)) a.
Proof.
  intros [(U & l & Hv) (S & Hr & Hsrv) Hal Hthr] Ht Hu Hi Hpc Hq Ha. split; cbn in *; eauto.
  - apply (lf_call _ _ _ _ _ _ Hv Hu); [unfold LF.owned; rewrite Hi; done|auto].
  - eapply sim_insert_l; done.
Qed.

Lemma sim_access b s a t u p q :
  sim (mkF b s) a -> thr b !! t = Some p -> LF.threads s !! t = Some u -> LF.in_window s u ->
  LF.at_pc u <> LF.Idle -> thr a !! t = Some q -> ahead (LF._dummyNode (LF.shared s)) u p q ->
  (next_pc s u <> LF.Idle -> exists a', rtc step a a' /\ sim (mkF b (LF.advance s t u)) a') /\
  (next_pc s u = LF.Idle -> exists d k a', p = Do (FreePush d) k /\ rtc step a a' /\
     sim (mkF (set_thread b t (k tt)) (LF.advance s t u)) a').
Proof.
  intros [(U & l & Hv) (S & Hr & Hsrv) Hal Hthr] Hp Hu Hw Hb Hq Ha. cbn in *.
  destruct (lf_advance _ _ _ _ _ Hv Hu Hw) as (u' & (l' & Hv') & Et & Eh & Ed & Epc & Etk).
  pose proof (LF.inv_hist _ _ _ Hv') as Hr'. rewrite Eh, LF.lf_replay_app, Hr in Hr'. cbn in Hr'.
  assert (Hh : LF.replay [] (LF.hist (LF.advance s t u)) = Some (LF._data (LF.shared (LF.advance s t u)) <$> l')).
  { apply (LF.inv_hist _ _ _ Hv'). }
  destruct (access_ahead s U l t u p q Hv Hu Ha Hb u' Epc Etk)
    as [(Eos & Hn & Ha')|[(d & k & Eos & Hn & -> & ->)|(r & k & Eos & Hn & -> & -> & Ha')]].
  - split; [intros _|done]. rewrite Eos in Hr'. cbn in Hr'. rewrite <- Hr' in Hh. exists a. split; [done|].
    split; cbn; rewrite ?Et, ?Ed; [eauto|eauto|done|]. eapply sim_insert_l; done.
  - split; [done|intros _]. rewrite Eos in Hr'. exists d, k. eexists. split; [done|].
    split; [apply rtc_once; eapply atomic_push; done|].
    split; cbn; rewrite ?Et, ?Ed; [eauto|eauto|done|].
    apply Forall3_insert_at; [done|]. unfold ahead. rewrite Epc, Hn. done.
  - split; [intros _|done]. exists (mkConfig (set_free (srv (base (mkF b s))) (LF._data (LF.shared (LF.advance s t u)) <$> l')) (<[t := k r]> (thr a)) (al a)).
    split; [apply rtc_once; eapply atomic_pop; done|].
    split; cbn; rewrite ?Et, ?Ed; [eauto|eauto|done|].
    rewrite <- (list_insert_id _ _ _ Hp). apply Forall3_insert_at; done.
Qed.

Lemma sim_step f f' a : sim f a -> fstep f f' -> exists a', rtc step a a' /\ sim f' a'.
Proof.
  intros Hs Hf. destruct Hf as [b b' s Hb|b s t u v k Ht Hu Hi|b s t u k Ht Hu Hi|b s t u Hu Hw Hb Hn|
    b s t u v k Ht Hu Hw Hb Hn|b s t u r k Ht Hu Hi].
  - eapply sim_base; done.
  - destruct (Forall3_lookups _ _ _ _ _ _ _ (sim_thr _ _ Hs) Hu Ht) as (q & Hq & Ha).
    unfold ahead in Ha. cbn in Ha. rewrite Hi in Ha. subst q. exists a. split; [done|].
    eapply sim_call; try done; [eauto|]. unfold ahead. cbn. eauto.
  - destruct (Forall3_lookups _ _ _ _ _ _ _ (sim_thr _ _ Hs) Hu Ht) as (q & Hq & Ha).
    unfold ahead in Ha. cbn in Ha. rewrite Hi in Ha. subst q. exists a. split; [done|].
    eapply sim_call; try done; [eauto|]. unfold ahead. cbn. eauto.
  - destruct (Forall3_lookup_l _ _ _ _ _ _ (sim_thr _ _ Hs) Hu) as (p & q & Hp & Hq & Ha).
    eapply sim_access; done.
  - destruct (Forall3_lookups _ _ _ _ _ _ _ (sim_thr _ _ Hs) Hu Ht) as (q & Hq & Ha).
    destruct (proj2 (sim_access _ _ _ _ _ _ _ Hs Ht Hu Hw Hb Hq Ha) Hn) as (d & k' & a' & Ek & Hr & Hs').
    apply (f_equal push_cont) in Ek. cbn in Ek. injection Ek as <- Ek. rewrite Ek. eauto.
  - destruct (Forall3_lookups _ _ _ _ _ _ _ (sim_thr _ _ Hs) Hu Ht) as (q & Hq & Ha).
    destruct Hs as [(U & l & Hv) Hsrv Hal Hthr]. cbn in *. unfold ahead in Ha. rewrite Hi in Ha.
    pose proof (LF.inv_knows _ _ _ Hv _ _ Hu) as Hk. unfold LF.knows in Hk. rewrite Hi in Hk.
    destruct Ha as (k' & r' & Etk & Ek & ->). rewrite Hk in Etk. injection Etk as <-.
    apply (f_equal pop_cont) in Ek. cbn in Ek. injection Ek as <-. exists a. split; [done|].
    split; cbn; [|done|done|].
    + apply (lf_call _ _ _ _ _ _ Hv Hu); [unfold LF.owned; rewrite Hi; done|auto].
    + rewrite <- (list_insert_id (thr a) _ _ Hq). apply Forall3_insert_at; done.
Qed.

Lemma replay_pushes l0 vs : LF.replay l0 (LF.OpPush <$> vs) = Some (reverse vs ++ l0).
Proof.
  revert l0. induction vs as [|v vs IH]; intros l0; [done|].
  rewrite reverse_cons, <- app_assoc. apply IH.
Qed.

Lemma finitial_sim f : finitial f -> exists a, initial a /\ sim f a.
Proof.
  intros (c0 & s0 & Hc & Hb & (Hr & Hid & Hh & Hs)). exists c0. split; [done|].
  destruct (LF.lf_reachable_inv _ Hr) as (U & l & Hv). destruct f as [b s]. cbn in *. subst b s.
  destruct Hc as ((garbage & _ & _ & _ & Hf & _ & _ & _ & Ht & Ha) & _). split; cbn.
  - exists U, l. apply lf_inv_none; done.
  - exists (freeSessionStack (srv c0)). split; [|destruct (srv c0); done].
    rewrite Hh, replay_pushes, Hf, app_nil_r. unfold CNetServer.push_all. rewrite push_all_eq, app_nil_r. done.
  - done.
  - rewrite Ht. constructor.
Qed.

(** ** Schedules *)
Inductive fcommand := FBase (cmd : command) | FStack (t : nat).

Definition base_ok (c : config (P := P)) (cmd : command) : bool :=
  match cmd with
  | Act t _ => match thr c !! t with Some p => head_ok not_stack p | None => true end
  | _ => true
  end.

Definition in_windowb (s : LF.config) (u : LF.thread) : bool :=
  match LF.at_pc u with LF.PopCas _ _ _ => LF.pops s - LF.seen u <? 2 ^ 64 | _ => true end.

(** [FStack t]: thread [t] calls the stack, makes an access or returns. *)
Definition fcommand_step (f : fconfig) (cmd : fcommand) : option fconfig :=
  let b := base f in let s := stk f in
  match cmd with
  | FBase cmd =>
      if base_ok b cmd
      then b' ← command_step b cmd; Some (mkF b' (join_threads s (length (thr b')))) else None
  | FStack t =>
      p ← thr b !! t; u ← LF.threads s !! t;
      match LF.at_pc u with
      | LF.Idle =>
          match push_cont p, pop_cont p with
          | Some (d, _), _ => Some (mkF b (LF.call s t u (LF.Push d)))
          | None, Some _ => Some (mkF b (LF.call s t u LF.Pop))
          | None, None => None
          end
      | LF.Popped r => k ← pop_cont p; Some (mkF (set_thread b t (k r)) (LF.call s t u LF.Idle))
      | _ =>
          if in_windowb s u then
            match next_pc s u with
            | LF.Idle => '(_, p') ← push_cont p; Some (mkF (set_thread b t p') (LF.advance s t u))
            | _ => Some (mkF b (LF.advance s t u))
            end
          else None
      end
  end.

Definition fafter (f : fconfig) (l : list fcommand) : fconfig :=
  fold_left (fun f cmd => default f (fcommand_step f cmd)) l f.

Lemma push_cont_inv {A} (p : prog A) d p' : push_cont p = Some (d, p') -> exists k, p = Do (FreePush d) k /\ p' = k tt.
Proof. destruct p as [|A B a k|]; try done. revert k. destruct a; try done. intros k [= -> <-]. eauto. Qed.

Lemma pop_cont_inv {A} (p : prog A) k : pop_cont p = Some k -> p = Do FreePop k.
Proof. destruct p as [|A B a k'|]; try done. revert k'. destruct a; try done. intros k' [= ->]. done. Qed.

Lemma stack_windowb_sound s u : in_windowb s u = true -> LF.in_window s u.
Proof. unfold in_windowb, LF.in_window. destruct (LF.at_pc u); try done. apply Z.ltb_lt. Qed.

Lemma fstack_sound f t f' : fcommand_step f (FStack t) = Some f' -> fstep f f'.
Proof.
  destruct f as [b s]. cbn. destruct (thr b !! t) as [p|] eqn:Hp; [|done].
  destruct (LF.threads s !! t) as [u|] eqn:Hu; [|done]. cbn. destruct (LF.at_pc u) eqn:Ei.
  1: { destruct (push_cont p) as [[d p']|] eqn:E1.
       - apply push_cont_inv in E1 as (k & -> & ->). intros [= <-]. eapply f_push; done.
       - destruct (pop_cont p) as [k|] eqn:E2; [|done]. apply pop_cont_inv in E2 as ->. intros [= <-]. eapply f_pop; done. }
  all: try (destruct (pop_cont p) as [k|] eqn:E2; [|done]; apply pop_cont_inv in E2 as ->; intros [= <-]; eapply f_popped; done).
  all: destruct (in_windowb s u) eqn:Ew; [|done]; apply stack_windowb_sound in Ew; destruct (next_pc s u) eqn:En;
    try (intros [= <-]; apply f_access; first [assumption | congruence]).
  all: destruct (push_cont p) as [[d' p']|] eqn:E1; [|done]; apply push_cont_inv in E1 as (k & -> & ->);
    intros [= <-]; eapply f_pushed; first [eassumption | congruence].
Qed.

Lemma freachable_sim f : freachable f -> exists a, reachable a /\ sim f a.
Proof.
  intros (f0 & Hi & Hr). apply finitial_sim in Hi as (a0 & Hi & Hs).
  assert (Ha : reachable a0) by (exists a0; done). clear Hi. revert a0 Hs Ha.
  induction Hr as [f|f1 f2 f3 Hf _ IH]; intros a0 Hs Ha; [eauto|].
  destruct (sim_step _ _ _ Hs Hf) as (a' & Hr & Hs'). apply (IH a' Hs').
  destruct Ha as (c0 & Hc & Hc0). exists c0. split; [done|]. etrans; done.
Qed.

Lemma fbase_sound f cmd f' : freachable f -> fcommand_step f (FBase cmd) = Some f' -> f' = f \/ fstep f f'.
Proof.
  intros Hr. destruct f as [b s]. cbn. destruct (base_ok b cmd) eqn:Eok; [|done].
  destruct (command_step b cmd) as [b'|] eqn:E; [|done]. intros [= <-].
  apply (command_step_on not_stack true) in E as [->|Hs].
  - left. f_equal. destruct (freachable_sim _ Hr) as (a & _ & Hs).
    pose proof (Forall3_length_lm _ _ _ _ (sim_thr _ _ Hs)) as El. cbn in El. rewrite <- El. apply join_none.
  - right. apply f_base, Hs.
  - intros t ch p -> Hp. cbn in Eok. rewrite Hp in Eok. exact Eok.
Qed.

Lemma fafter_reachable f l : freachable f -> freachable (fafter f l).
Proof.
  revert f. induction l as [|cmd l IH]; intros f Hf; [exact Hf|]. cbn. apply IH.
  destruct (fcommand_step f cmd) as [f'|] eqn:E; [|exact Hf].
  assert (Hs : f' = f \/ fstep f f').
  { destruct cmd as [cmd|t]; [apply (fbase_sound f cmd f' Hf E)|right; apply (fstack_sound _ _ _ E)]. }
  destruct Hs as [->|Hs]; [exact Hf|]. destruct Hf as (f0 & Hi & Hr). exists f0. split; [done|].
  cbn. eapply rtc_r; done.
Qed.

(** C32: the server may keep its free slots in the lock-free stack. Whatever threads do
    while pushes and pops of slots take place access by access, interleaved with
    everything else, the server with an atomic free stack can do: it has the same
    sessions, counters, packets, completions and outstanding operations, its threads
    are at the same points outside calls of the stack, and its free stack holds what is
    linked in memory. So what [SessionProps] shows of every reachable configuration
    holds of the server on the lock-free stack, as long as the counter of the stack
    does not wrap around inside a pop. *)
Theorem server_on_lock_free_stack (f : fconfig) :
  freachable f ->
  exists a l, reachable a /\ srv a = set_free (srv (base f)) (LF._data (LF.shared (stk f)) <$> l) /\
    al a = al (base f) /\
    LF.chain (LF._next (LF.shared (stk f))) (LF._dummyNode (LF.shared (stk f))) (LF._top (LF.shared (stk f))) l /\
    (forall t p u, thr (base f) !! t = Some p -> LF.threads (stk f) !! t = Some u -> LF.at_pc u = LF.Idle ->
       thr a !! t = Some p).
Proof.
  intros (a & Hr & [(U & l & Hv) (S & HS & Hsrv) Hal Hthr])%freachable_sim. exists a, l. split; [done|].
  pose proof (LF.inv_hist _ _ _ Hv) as Hh. rewrite HS in Hh. injection Hh as Hh. rewrite <- Hh.
  split_and!; [done|done|apply (LF.inv_chain _ _ _ Hv)|].
  intros t p u Hp Hu Hi. destruct (Forall3_lookups _ _ _ _ _ _ _ Hthr Hu Hp) as (q & Hq & Ha).
  unfold ahead in Ha. rewrite Hi in Ha. congruence.
Qed.

End machine.

(** Two clients connect at once, and both pop a slot while the other does; one closes the
    connection and its slot is pushed. *)
Module StackSample.
Import Sample.

Definition filled : LF.config :=
  LF.after (concat ((fun i => LF.CPush 0 i :: replicate 5 (LF.CRun 0)) <$> seqZ 0 2))
    (LF.mkConfig (LF.new 16 (fun _ => 7) (fun _ => 9) [4096; 8192; 12288]) [LF.mkThread LF.Idle 0 None] 0 []).
Definition fstart : fconfig (P := RefPool.t) :=
  mkF (with_free start []) (LF.mkConfig (LF.shared filled) [] (LF.pops filled) (LF.hist filled)).

Lemma fstart_reachable : freachable fstart.
Proof.
  exists fstart. split; [|apply rtc_refl]. exists start, filled. split_and!; [exact start_initial|done| | | |done].
  - apply LF.schedule_keeps. eexists. split; [|apply rtc_refl]. split; [|split_and!; [done|done|repeat constructor]].
    exists 16, (fun _ => 7), (fun _ => 9), [4096; 8192; 12288]. split_and!; [done|done| | |].
    + repeat constructor; apply (bool_decide_unpack _); vm_compute; done.
    + apply (bool_decide_unpack _). vm_compute. done.
    + apply (bool_decide_unpack _). vm_compute. done.
  - replace (LF.threads filled) with [LF.mkThread LF.Idle 0 None] by (vm_compute; done). repeat constructor.
  - vm_compute. done.
Qed.

Definition frounds (n t : nat) (choice : Z) : list fcommand := replicate n (FBase (Act t choice)).
Definition both (n : nat) : list fcommand := concat (replicate n [FStack 0; FStack 1]).
Definition busy : fconfig :=
  fafter fstart ([FBase (Accept 500 1 2); FBase (Accept 600 3 4)] ++ frounds 12 0 WSA_IO_PENDING ++ frounds 12 1 WSA_IO_PENDING ++
    both 12 ++ frounds 25 0 WSA_IO_PENDING ++
    [FBase (IoDone []); FBase Dispatch] ++ frounds 25 2 1 ++ replicate 6 (FStack 2)).
End StackSample.
Import Sample StackSample.

Lemma server_on_lock_free_stack_witness :
  LF.hist (stk busy) = [LF.OpPush 0; LF.OpPush 1; LF.OpPop 1; LF.OpPop 0; LF.OpPush 1] /\
  exists a l, reachable a /\ srv a = set_free (srv (base busy)) (LF._data (LF.shared (stk busy)) <$> l) /\
    LF.chain (LF._next (LF.shared (stk busy))) (LF._dummyNode (LF.shared (stk busy))) (LF._top (LF.shared (stk busy))) l.
Proof.
  split; [vm_compute; reflexivity|].
  destruct (server_on_lock_free_stack busy (fafter_reachable _ _ fstart_reachable)) as (a & l & Hr & Hs & _ & Hc & _).
  exists a, l. split_and!; [exact Hr|exact Hs|exact Hc].
Defined.
