(* ===== verification/Lifecycle.v ===== *)
(** * Starting and stopping the server

    [CNetServer::Start], [Stop] and [InitSettings] with the operating system's answers
    as arguments, the effects they have on sockets, handles and threads, and [main].
    The state they leave for the threads is the [server] the session files start
    from. *)
From S2P Require Import Prelude.
From S2P Require Import NetPacket.
From S2P Require Import ObjectPool.
From S2P Require Import ServerState.
From S2P Require Import NetServer.
From S2P Require Import SessionThreads.
From S2P Require Import SessionSafety.
From S2P Require Import SessionProps.
From stdpp Require Import prelude gmap list list_numbers.
From Stdlib Require Import ZArith Lia.
Open Scope Z_scope.

Module Lifecycle.

(** ** Data *)

(** A pointer to an array: null, an array, or what [delete\[\]] left of it. *)
Inductive array (A : Type) := Null | Array (a : list A) | Deleted.
Arguments Null {A}.
Arguments Array {A} a.
Arguments Deleted {A}.

(** The members of [CNetServer] that [Start] and [Stop] use besides the [server]. A
    handle or a socket is its number; 0 is the null handle. *)
Record t (P : Type) := mk {
  core : server P;
  _listen_sock : Z;
  _hAcceptThread : Z;
  _hMonitorThread : Z;
  _hThreadArr : array Z;
  _hCP : Z;
  _workerThreadCnt : Z;
  _monitorSwitch : bool;
  _serverOn : bool;
}.
Arguments mk {P}.
Arguments core {P}.
Arguments _listen_sock {P}.
Arguments _hAcceptThread {P}.
Arguments _hMonitorThread {P}.
Arguments _hThreadArr {P}.
Arguments _hCP {P}.
Arguments _workerThreadCnt {P}.
Arguments _monitorSwitch {P}.
Arguments _serverOn {P}.

Inductive effect :=
  | StartWinsock
  | OpenSocket (s : Z)
  | CloseSocket (s : Z)
  | OpenHandle (h : Z)
  | CloseHandle (h : Z)
  | AllocTls (i : Z)
  | CallOnStart
  | CallOnStop
  | WaitFor (h : Z)
  | TerminateThread (h : Z)
  | PostExit.

(** The answers of the operating system to [Start]; the last four are those to
    [LoginServer::OnStart]. *)
Record answers := mkAnswers {
  startup : bool;
  sock : Z;
  bound : bool;
  listening : bool;
  port : Z;
  worker_thread : Z -> Z;
  accept_thread : Z;
  monitor_thread : Z;
  garbage : Z -> SESSION;
  contents_event : Z;
  contents_thread : Z;
  tls_db : Z;
  tls_redis : Z;
}.

Section lifecycle.
Context {P : Type}.
Implicit Types s : t P.

(** [_freeSessionStack] is an object of its own: it keeps its contents. *)
Definition InitSettings s : t P :=
  let c := core s in
  mk (mkServer 0 false 0 0 [] (freeSessionStack c) (mkCounters 0 0 0 0 0 0)
        (packets c) (pool c) (iocp c) (pend c) (log c))
    INVALID_SOCKET 0 0 Null 0 0 false false.

Definition set_config s (workers : Z) (nagle : bool) (users : Z) : t P :=
  let c := core s in
  mk (mkServer users nagle (nowSession c) (sessionCnt c) (sessionArr c) (freeSessionStack c)
        (cnts c) (packets c) (pool c) (iocp c) (pend c) (log c))
    (_listen_sock s) (_hAcceptThread s) (_hMonitorThread s) (_hThreadArr s) (_hCP s) workers true (_serverOn s).
Definition set_sock s (k : Z) : t P :=
  mk (core s) k (_hAcceptThread s) (_hMonitorThread s) (_hThreadArr s) (_hCP s)
    (_workerThreadCnt s) (_monitorSwitch s) (_serverOn s).

(** The completion port: a new queue. *)
Definition set_port s (h : Z) : t P :=
  mk (if h =? 0 then core s else set_iocp (core s) []) (_listen_sock s) (_hAcceptThread s) (_hMonitorThread s)
    (_hThreadArr s) h (_workerThreadCnt s) (_monitorSwitch s) (_serverOn s).

(** [_serverOn], the session array and the free slots. *)
Definition set_sessions s (users : Z) (old : Z -> SESSION) : t P :=
  let c := core s in
  mk (mkServer (maxUser c) (nagleOff c) (nowSession c) (sessionCnt c)
        (CNetServer.create_sessions users old)
        (fold_left (fun stack idx => idx :: stack) (seqZ 0 users) (freeSessionStack c))
        (cnts c) (packets c) (pool c) (iocp c) (pend c) (log c))
    (_listen_sock s) (_hAcceptThread s) (_hMonitorThread s) (_hThreadArr s) (_hCP s)
    (_workerThreadCnt s) (_monitorSwitch s) true.
Definition set_threads s (arr : list Z) (accept monitor : Z) : t P :=
  mk (core s) (_listen_sock s) accept monitor (Array arr) (_hCP s)
    (_workerThreadCnt s) (_monitorSwitch s) (_serverOn s).

(** [delete\[\]] of both arrays. *)
Definition delete_arrays s (on : bool) : t P :=
  let c := core s in
  mk (mkServer (maxUser c) (nagleOff c) (nowSession c) (sessionCnt c) [] (freeSessionStack c)
        (cnts c) (packets c) (pool c) (iocp c) (pend c) (log c))
    (_listen_sock s) (_hAcceptThread s) (_hMonitorThread s) Deleted (_hCP s)
    (_workerThreadCnt s) (_monitorSwitch s) on.

(** ** [Start] *)
Definition bad_arguments (workerThreadCnt runningThreadCnt port maxUser : Z) : bool :=
  (workerThreadCnt =? 0) || (runningThreadCnt =? 0) || (maxUser =? 0) ||
  (port <? 0) || (65535 <? port) || (maxUser <? 0) || (65535 <? maxUser).

(** [CloseHandle] for the threads that were created. *)
Definition close_live (h : Z) : list effect := if h =? 0 then [] else [CloseHandle h].
Definition open_live (h : Z) : list effect := if h =? 0 then [] else [OpenHandle h].

(** What [LoginServer::OnStart] opens: an event, a thread and two TLS indexes. *)
Definition TLS_OUT_OF_INDEXES : Z := 2 ^ 32 - 1.
Definition alloc_tls (i : Z) : list effect := if i =? TLS_OUT_OF_INDEXES then [] else [AllocTls i].
Definition OnStart_effects (os : answers) : list effect :=
  open_live (contents_event os) ++ open_live (contents_thread os) ++ alloc_tls (tls_db os) ++ alloc_tls (tls_redis os).

(** From the creation of the threads on. *)
Definition start_threads s (os : answers) : outcome (bool * t P * list effect) :=
  if _workerThreadCnt s <? 0 then Fault UncaughtException
  else
    let arr := worker_thread os <$> seqZ 0 (_workerThreadCnt s) in
    let s := set_threads s arr (accept_thread os) (monitor_thread os) in
    let all := arr ++ [accept_thread os; monitor_thread os] in
    let opened := concat (open_live <$> all) in
    if forallb (fun h => negb (h =? 0)) arr && negb (accept_thread os =? 0) && negb (monitor_thread os =? 0)
    then Ok (true, s, opened)
    else
      Ok (false, delete_arrays s false,
          opened ++ concat (close_live <$> all) ++
          [CloseSocket (_listen_sock s); CloseHandle (_hCP s)]).

Definition Start s (port_number workerThreadCnt runningThreadCnt : Z) (nagleOff : bool) (maxUser : Z)
    (os : answers) : outcome (bool * t P * list effect) :=
  if bad_arguments workerThreadCnt runningThreadCnt port_number maxUser then Ok (false, s, [])
  else
    let s := set_config (InitSettings s) workerThreadCnt nagleOff maxUser in
    if negb (startup os) then Ok (false, s, [])
    else
      let s := set_sock s (sock os) in
      if sock os =? INVALID_SOCKET then Ok (false, s, [StartWinsock])
      else if negb (bound os) then Ok (false, s, [StartWinsock; OpenSocket (sock os); CloseSocket (sock os)])
      else if negb (listening os) then Ok (false, s, [StartWinsock; OpenSocket (sock os); CloseSocket (sock os)])
      else
        let s := set_port s (port os) in
        if port os =? 0 then Ok (false, s, [StartWinsock; OpenSocket (sock os); CloseSocket (sock os)])
        else
          let s := set_sessions s maxUser (garbage os) in
          '(ok, s, e) ← start_threads s os;
          Ok (ok, s, [StartWinsock; OpenSocket (sock os); OpenHandle (port os); CallOnStart] ++ OnStart_effects os ++ e).

(** ** [Stop]

    [late h] is whether the wait for thread [h] ends by its time-out; for the workers,
    whether the thread is still active after theirs. *)
Definition stop_wait (late : Z -> bool) (h : Z) : list effect :=
  WaitFor h :: (if late h then [TerminateThread h] else []).

(** [WaitForMultipleObjects] and the loop after it. *)
Definition stop_workers (late : Z -> bool) (arr : array Z) : outcome (list effect) :=
  match arr with
  | Array hs =>
      Ok ((WaitFor <$> hs) ++
          (if existsb late hs then concat ((fun h => if late h then [TerminateThread h] else []) <$> hs) else []))
  | Null => Fault NullDeref
  | Deleted => Fault UseAfterFree
  end.

(** The loop that closes [_hThreadArr\[idx\]]. *)
Definition close_workers (n : Z) (arr : array Z) : outcome (list effect) :=
  if n <=? 0 then Ok []
  else match arr with
       | Array hs => Ok (CloseHandle <$> take (Z.to_nat n) hs)
       | Null => Fault NullDeref
       | Deleted => Fault UseAfterFree
       end.

Definition set_monitorSwitch s (b : bool) : t P :=
  mk (core s) (_listen_sock s) (_hAcceptThread s) (_hMonitorThread s) (_hThreadArr s) (_hCP s)
    (_workerThreadCnt s) b (_serverOn s).
Definition post_exits s : t P :=
  mk (set_iocp (core s) (iocp (core s) ++
        replicate (Z.to_nat (_workerThreadCnt s)) (mkCompletion 0 None OvNull)))
    (_listen_sock s) (_hAcceptThread s) (_hMonitorThread s) (_hThreadArr s) (_hCP s)
    (_workerThreadCnt s) (_monitorSwitch s) (_serverOn s).

(** The effects so far go with a fault too. *)
Definition Stop s (late : Z -> bool) : list effect * outcome (t P) :=
  if negb (_serverOn s) then ([], Ok s)
  else
    let before := [CallOnStop; CloseSocket (_listen_sock s)] ++ stop_wait late (_hAcceptThread s) ++
                  replicate (Z.to_nat (_workerThreadCnt s)) PostExit in
    let s := post_exits s in
    match stop_workers late (_hThreadArr s) with
    | Fault f => (before, Fault f)
    | Ok waits =>
        let s := set_monitorSwitch s false in
        let before := before ++ waits ++ stop_wait late (_hMonitorThread s) in
        let s := delete_arrays s (_serverOn s) in
        match close_workers (_workerThreadCnt s) (_hThreadArr s) with
        | Fault f => (before, Fault f)
        | Ok closed =>
            (before ++ closed ++
               [CloseHandle (_hAcceptThread s); CloseHandle (_hMonitorThread s); CloseHandle (_hCP s)],
             Ok (InitSettings s))
        end
    end.

(** ** Construction and destruction *)
Definition new (c : server P) : t P := InitSettings (mk c 0 0 0 Null 0 0 false false).
Definition destroy s (late : Z -> bool) : list effect * outcome (t P) := Stop s late.

Definition is_on_start (e : effect) : bool := match e with CallOnStart => true | _ => false end.

(** [~LoginServer], which runs before: the handles of [OnStart], if it was called. *)
Definition destroy_login (os : answers) (late : Z -> bool) (before : list effect) : list effect :=
  if existsb is_on_start before
  then (if contents_thread os =? 0 then [] else stop_wait late (contents_thread os) ++ [CloseHandle (contents_thread os)]) ++
       close_live (contents_event os)
  else [].

(** ** [main] *)

(** The numbers one turn of the loop prints: the session count, the accepted total and
    the four rates; the second and the last come from [LoginServer]. *)
Definition print_turn (acceptTotal loginSuccessTPS : Z) (c : server P) : list Z :=
  [nowSession c; acceptTotal; acceptTPS (cnts c); sendTPS (cnts c); recvTPS (cnts c); loginSuccessTPS].

Inductive run_of_main := Printing (turns : list (list Z)) | Exit (code : Z) (e : list effect) | Crashed (f : fault).

(** [main] observed for [fuel] turns of its loop; [now i] is the server and the login
    counters at turn [i]. *)
Definition main (fuel : nat) (c : server P) (os : answers) (late : Z -> bool)
    (now : nat -> server P * Z * Z) : run_of_main :=
  match Start (new c) 20001 2 10 false 20000 os with
  | Fault f => Crashed f
  | Ok (true, _, _) =>
      Printing ((fun i => let '(st, tot, tps) := now i in print_turn tot tps st) <$> seq 0 fuel)
  | Ok (false, s, e) =>
      match Stop s late with
      | (e', Ok s) =>
          match destroy s late with
          | (e'', Ok _) => Exit 0 (e ++ e' ++ destroy_login os late e ++ e'')
          | (_, Fault f) => Crashed f
          end
      | (_, Fault f) => Crashed f
      end
  end.

End lifecycle.

(** ** Lemmas *)

(** What is opened and closed. *)
Inductive resource := Winsock | Socket (s : Z) | Handle (h : Z) | Tls (i : Z).

Definition opened (es : list effect) : list resource :=
  omap (fun e => match e with
        | StartWinsock => Some Winsock | OpenSocket k => Some (Socket k) | OpenHandle h => Some (Handle h)
        | AllocTls i => Some (Tls i) | _ => None end) es.
Definition closed (es : list effect) : list resource :=
  omap (fun e => match e with CloseSocket k => Some (Socket k) | CloseHandle h => Some (Handle h) | _ => None end) es.

Lemma opened_app es es' : opened (es ++ es') = opened es ++ opened es'.
Proof. apply omap_app. Qed.
Lemma closed_app es es' : closed (es ++ es') = closed es ++ closed es'.
Proof. apply omap_app. Qed.

(** The live handles among [hs]. *)
Definition live (hs : list Z) : list resource := Handle <$> filter (fun h => h <> 0) hs.

Lemma open_live_one h : opened (open_live h) = live [h] /\ closed (open_live h) = [].
Proof.
  unfold open_live, live. rewrite filter_cons, filter_nil.
  destruct (h =? 0) eqn:E; b2p; [rewrite decide_False by lia|rewrite decide_True by lia]; done.
Qed.
Lemma close_live_one h : closed (close_live h) = live [h] /\ opened (close_live h) = [].
Proof.
  unfold close_live, live. rewrite filter_cons, filter_nil.
  destruct (h =? 0) eqn:E; b2p; [rewrite decide_False by lia|rewrite decide_True by lia]; done.
Qed.

Lemma live_cons h hs : live (h :: hs) = live [h] ++ live hs.
Proof. unfold live. rewrite <- fmap_app, <- filter_app. done. Qed.

Lemma open_live_all hs : opened (concat (open_live <$> hs)) = live hs /\ closed (concat (open_live <$> hs)) = [].
Proof.
  induction hs as [|h hs [IH1 IH2]]; [done|]. cbn [fmap list_fmap concat].
  rewrite opened_app, closed_app, IH1, IH2, (live_cons h). destruct (open_live_one h) as [-> ->]. done.
Qed.

Lemma close_live_all hs : closed (concat (close_live <$> hs)) = live hs /\ opened (concat (close_live <$> hs)) = [].
Proof.
  induction hs as [|h hs [IH1 IH2]]; [done|]. cbn [fmap list_fmap concat].
  rewrite opened_app, closed_app, IH1, IH2, (live_cons h). destruct (close_live_one h) as [-> ->]. done.
Qed.

(** What [OnStart] opens, and what of it [~LoginServer] closes. *)
Definition tls_live (ks : list Z) : list resource := Tls <$> filter (fun i => i <> TLS_OUT_OF_INDEXES) ks.
Definition tls_indexes (os : answers) : list resource := tls_live [tls_db os; tls_redis os].

Lemma tls_cons i ks : tls_live (i :: ks) = tls_live [i] ++ tls_live ks.
Proof. unfold tls_live. rewrite <- fmap_app, <- filter_app. done. Qed.

Lemma alloc_tls_one i :
  opened (alloc_tls i) = tls_live [i] /\ closed (alloc_tls i) = [].
Proof.
  unfold alloc_tls, tls_live. rewrite filter_cons, filter_nil.
  destruct (i =? TLS_OUT_OF_INDEXES) eqn:E; b2p; [rewrite decide_False by tauto|rewrite decide_True by done]; done.
Qed.

Lemma OnStart_opens os :
  opened (OnStart_effects os) = live [contents_event os; contents_thread os] ++ tls_indexes os /\
  closed (OnStart_effects os) = [].
Proof.
  unfold OnStart_effects, tls_indexes. rewrite !opened_app, !closed_app.
  destruct (open_live_one (contents_event os)) as [-> ->], (open_live_one (contents_thread os)) as [-> ->].
  destruct (alloc_tls_one (tls_db os)) as [-> ->], (alloc_tls_one (tls_redis os)) as [-> ->].
  rewrite (live_cons (contents_event os) [contents_thread os]), (tls_cons (tls_db os) [tls_redis os]), <- !app_assoc. done.
Qed.

Lemma destroy_login_closes os late before :
  closed (destroy_login os late before) ≡ₚ
    (if existsb is_on_start before
     then live [contents_event os; contents_thread os] else []) /\
  opened (destroy_login os late before) = [].
Proof.
  unfold destroy_login. destruct (existsb _ before); [|done]. rewrite opened_app, closed_app.
  destruct (close_live_one (contents_event os)) as [-> ->].
  rewrite (live_cons (contents_event os) [contents_thread os]), (Permutation_app_comm (live [contents_event os])).
  unfold live. rewrite !filter_cons, filter_nil. unfold stop_wait.
  destruct (contents_thread os =? 0) eqn:E; b2p; [rewrite (decide_False (P := contents_thread os <> 0)) by lia; done|].
  rewrite (decide_True (P := contents_thread os <> 0)) by lia. destruct (late _); done.
Qed.

(** Everything the system can refuse. *)
Definition threads_created (os : answers) (n : Z) : bool :=
  forallb (fun h => negb (h =? 0)) (worker_thread os <$> seqZ 0 n) &&
  negb (accept_thread os =? 0) && negb (monitor_thread os =? 0).
Definition before_threads (os : answers) : bool :=
  startup os && negb (sock os =? INVALID_SOCKET) && bound os && listening os && negb (port os =? 0).
Definition all_granted (os : answers) (n : Z) : bool :=
  before_threads os && threads_created os n.

Section facts.
Context {P : Type} `{PoolLaws P}.
Implicit Types s : t P.

(** The state the threads are created in. *)
Definition prepared s (n : Z) (nagle : bool) (users : Z) (os : answers) : t P :=
  set_sessions (set_port (set_sock (set_config (InitSettings s) n nagle users) (sock os)) (port os)) users (garbage os).

Lemma start_threads_run s os :
  0 <= _workerThreadCnt s ->
  let hs := (worker_thread os <$> seqZ 0 (_workerThreadCnt s)) ++ [accept_thread os; monitor_thread os] in
  exists s' e, start_threads s os = Ok (threads_created os (_workerThreadCnt s), s', e) /\ opened e = live hs /\
    if threads_created os (_workerThreadCnt s)
    then closed e = [] /\
         s' = set_threads s (worker_thread os <$> seqZ 0 (_workerThreadCnt s)) (accept_thread os) (monitor_thread os)
    else closed e = live hs ++ [Socket (_listen_sock s); Handle (_hCP s)] /\ _serverOn s' = false /\
         freeSessionStack (core s') = freeSessionStack (core s).
Proof.
  intros Hn hs. unfold start_threads. replace (_workerThreadCnt s <? 0) with false by lia.
  fold (threads_created os (_workerThreadCnt s)).
  fold hs. destruct (open_live_all hs) as [O1 O2]. destruct (close_live_all hs) as [C1 C2].
  destruct (threads_created os _); do 2 eexists; (split; [reflexivity|]).
  - rewrite O1, O2. done.
  - rewrite !opened_app, !closed_app, O1, O2, C1, C2. rewrite app_nil_r. done.
Qed.

Lemma filter_all (l : list Z) : (forall h, h ∈ l -> h <> 0) -> filter (fun h => h <> 0) l = l.
Proof.
  induction l as [|h l IH]; intros Hl; [done|]. rewrite filter_cons, decide_True by (apply Hl, elem_of_cons; auto).
  f_equal. apply IH. intros x Hx. apply Hl, elem_of_cons. auto.
Qed.

Lemma all_live (hs : list Z) a m os n :
  hs = worker_thread os <$> seqZ 0 n -> a = accept_thread os -> m = monitor_thread os ->
  threads_created os n = true -> filter (fun h => h <> 0) (hs ++ [a; m]) = hs ++ [a; m].
Proof.
  intros -> -> -> Ht. unfold threads_created in Ht. apply andb_true_iff in Ht as [[Hw Ha]%andb_true_iff Hm].
  apply filter_all. intros h Hh. apply elem_of_app in Hh as [Hh|Hh].
  - rewrite forallb_forall in Hw. apply list_elem_of_In in Hh. specialize (Hw _ Hh). b2p. done.
  - rewrite !elem_of_cons in Hh. b2p. destruct Hh as [->|[->|[]%not_elem_of_nil]]; done.
Qed.

Lemma prepared_initial s n running nagle users os port_number :
  bad_arguments n running port_number users = false -> port os <> 0 ->
  freeSessionStack (core s) = [] -> pend (core s) = [] -> log (core s) = [] ->
  (forall i, sendQ (garbage os i) = []) -> no_packet_used (core s) ->
  initial (mkConfig (core (prepared s n nagle users os)) [] ∅).
Proof.
  unfold bad_arguments. intros Hb Hp Hf Hpd Hl Hq Hfr. b2p.
  unfold prepared, set_sessions, set_port. replace (port os =? 0) with false by lia.
  split; [exists (garbage os)|exact Hfr]. cbn. rewrite Hf, Hpd, Hl. split_and!; try done; lia.
Qed.

(** What a [Start] that fails leaves open: Winsock, which has no [WSACleanup], and, when it
    got as far as [OnStart], what that opened. *)
Definition left_open (os : answers) : list resource :=
  (if startup os then [Winsock] else []) ++
  (if before_threads os then live [contents_event os; contents_thread os] ++ tls_indexes os else []).

Ltac refused := do 2 eexists; split; [reflexivity|split; [done|done]].

Lemma Start_run s port_number n running nagle users os :
  bad_arguments n running port_number users = false -> 0 < n ->
  exists s' e, Start s port_number n running nagle users os = Ok (all_granted os n, s', e) /\
    _serverOn s' = all_granted os n /\
    if all_granted os n
    then opened e = [Winsock; Socket (sock os); Handle (port os)] ++ live [contents_event os; contents_thread os] ++
           tls_indexes os ++ (Handle <$> ((worker_thread os <$> seqZ 0 n) ++ [accept_thread os; monitor_thread os])) /\
         closed e = [] /\
         (freeSessionStack (core s) = [] -> pend (core s) = [] -> log (core s) = [] ->
          (forall i, sendQ (garbage os i) = []) -> no_packet_used (core s) ->
          initial (mkConfig (core s') [] ∅))
    else opened e ≡ₚ closed e ++ left_open os /\ existsb is_on_start e = before_threads os.
Proof.
  intros Hargs Hn. unfold Start, all_granted, left_open, before_threads. rewrite Hargs.
  destruct (startup os); cbn [negb andb]; [|refused].
  destruct (sock os =? INVALID_SOCKET); cbn [negb andb]; [refused|].
  destruct (bound os); cbn [negb andb]; [|do 2 eexists; split; [reflexivity|split; [done|split; [apply perm_swap|done]]]].
  destruct (listening os); cbn [negb andb]; [|do 2 eexists; split; [reflexivity|split; [done|split; [apply perm_swap|done]]]].
  destruct (port os =? 0) eqn:Ep; cbn [negb andb].
  { do 2 eexists; split; [reflexivity|split; [done|split; [apply perm_swap|done]]]. }
  fold (prepared s n nagle users os).
  destruct (start_threads_run (prepared s n nagle users os) os) as (s' & e & -> & Ho & Hrest); [cbn; lia|].
  change (_workerThreadCnt (prepared s n nagle users os)) with n in *. rewrite bind_Ok.
  destruct (OnStart_opens os) as [O1 O2].
  do 2 eexists. split; [reflexivity|]. rewrite !opened_app, !closed_app, Ho, O1, O2. destruct (threads_created os n) eqn:Et.
  - destruct Hrest as [Hc ->]. split; [done|]. split; [|split; [exact Hc|]].
    + cbn [app opened omap list_omap]. rewrite <- !app_assoc. do 3 f_equal. f_equal. unfold live. do 2 f_equal.
      eapply all_live, Et; reflexivity.
    + intros Hf Hp Hl Hq Hfr. apply (prepared_initial s n running nagle users os port_number Hargs); [b2p; done|done..].
  - destruct Hrest as (Hc & Hoff & _). split; [exact Hoff|]. split; [|done]. rewrite Hc. cbn [app opened closed omap list_omap].
    change (_listen_sock _) with (sock os). change (_hCP _) with (port os). solve_Permutation.
Qed.

(** C23: [Start] starts everything or stops short of the threads. With valid arguments it
    returns, and returns true exactly when the system grants everything it asks for. Then
    nothing was closed; and if the free stack was empty before, nothing was outstanding or
    logged, the send queues of the new sessions are empty and no packet is in use, the
    sessions, the free slots and the completion port are those the session properties
    start from. Otherwise the server is off, and every socket and handle [Start] itself
    opened is closed, once; but Winsock stays started, and when [Start] got as far as
    [OnStart], the event, the thread and the TLS indexes that opened stay open. *)
Theorem Start_all_or_nothing s port_number n running nagle users os :
  bad_arguments n running port_number users = false -> 0 < n ->
  exists s' e, Start s port_number n running nagle users os = Ok (all_granted os n, s', e) /\
    _serverOn s' = all_granted os n /\
    if all_granted os n
    then opened e = [Winsock; Socket (sock os); Handle (port os)] ++ live [contents_event os; contents_thread os] ++
           tls_indexes os ++ (Handle <$> ((worker_thread os <$> seqZ 0 n) ++ [accept_thread os; monitor_thread os])) /\
         closed e = [] /\
         (freeSessionStack (core s) = [] -> pend (core s) = [] -> log (core s) = [] ->
          (forall i, sendQ (garbage os i) = []) -> no_packet_used (core s) ->
          initial (mkConfig (core s') [] ∅))
    else opened e ≡ₚ closed e ++ left_open os /\ existsb is_on_start e = before_threads os.
Proof. apply Start_run. Qed.

Lemma prepared_free s n nagle users os :
  freeSessionStack (core (prepared s n nagle users os)) =
  fold_left (fun stack idx => idx :: stack) (seqZ 0 users) (freeSessionStack (core s)).
Proof. unfold prepared, set_port. destruct (port os =? 0); done. Qed.

Lemma push_all_onto l k : fold_left (fun stack (idx : Z) => idx :: stack) l k = rev l ++ k.
Proof. revert k. induction l as [|x l IH]; intros k; cbn; [done|]. rewrite IH, <- app_assoc. done. Qed.

(** [Start] past the session array. *)
Lemma Start_prepared s port_number n running nagle users os :
  bad_arguments n running port_number users = false -> 0 < n ->
  before_threads os = true ->
  exists s' e, Start s port_number n running nagle users os = Ok (threads_created os n, s', e) /\
    freeSessionStack (core s') = rev (seqZ 0 users) ++ freeSessionStack (core s) /\
    if threads_created os n then exists hs, length hs = Z.to_nat n /\ _hThreadArr s' = Array hs /\
                                   _workerThreadCnt s' = n /\ _serverOn s' = true
    else _serverOn s' = false.
Proof.
  unfold before_threads. intros Hargs Hn Hg. unfold Start. rewrite Hargs.
  apply andb_true_iff in Hg as [[[[-> Hk]%andb_true_iff ->]%andb_true_iff ->]%andb_true_iff Hp].
  apply negb_true_iff in Hk, Hp. rewrite Hk, Hp. cbn [negb].
  fold (prepared s n nagle users os).
  destruct (start_threads_run (prepared s n nagle users os) os) as (s' & e & -> & _ & Hrest); [cbn; lia|].
  change (_workerThreadCnt (prepared s n nagle users os)) with n in *. rewrite bind_Ok.
  do 2 eexists. split; [reflexivity|]. rewrite <- push_all_onto, <- (prepared_free s n nagle users os).
  destruct (threads_created os n).
  - destruct Hrest as [_ ->]. split; [done|]. eexists. split; [|done]. rewrite length_fmap, length_seqZ. done.
  - destruct Hrest as (_ & Hoff & Hf). done.
Qed.

Lemma Start_true_granted s port_number n running nagle users os s' e :
  bad_arguments n running port_number users = false ->
  Start s port_number n running nagle users os = Ok (true, s', e) -> before_threads os = true.
Proof.
  unfold Start, before_threads. intros ->.
  destruct (startup os), (sock os =? INVALID_SOCKET), (bound os), (listening os); try done.
  destruct (port os =? 0); done.
Qed.


(** Stopping a running server uses the thread array after deleting it. However
    the threads end, [Stop] of a server that [Start] reported as started closes the
    handles of [_hThreadArr] after [delete\[\]]. A server that is not on is left alone. *)
Theorem Stop_uses_deleted_array s port_number n running nagle users os late s' e :
  bad_arguments n running port_number users = false -> 0 < n ->
  Start s port_number n running nagle users os = Ok (true, s', e) ->
  (exists before, Stop s' late = (before, Fault UseAfterFree)) /\
  (forall s0 : t P, _serverOn s0 = false -> Stop s0 late = ([], Ok s0)).
Proof.
  intros Hargs Hn E. split.
  - destruct (Start_prepared s _ _ _ nagle _ os Hargs Hn (Start_true_granted _ _ _ _ _ _ _ _ _ Hargs E)) as (s1 & e1 & E1 & _ & Hr).
    rewrite E1 in E. injection E as Et -> ->. rewrite Et in Hr. destruct Hr as (hs & _ & Ha & Hw & Hon).
    unfold Stop. rewrite Hon. cbn [negb]. unfold stop_workers. cbn [post_exits _hThreadArr]. rewrite Ha.
    cbn [set_monitorSwitch delete_arrays _workerThreadCnt _hThreadArr post_exits]. rewrite Hw. unfold close_workers.
    replace (n <=? 0) with false by lia. eauto.
  - intros s0 Hoff. unfold Stop. rewrite Hoff. done.
Qed.

(** [main] prints for ever or leaves at once. When the system grants everything
    the loop never ends, so [Stop] is not reached; otherwise [main] returns 0, and
    the destructors close what [Start] left open, except Winsock and the TLS indexes. It
    does not fault in either case. *)
Theorem main_prints_or_exits (c : server P) os late now fuel :
  if all_granted os 2
  then exists turns, main fuel c os late now = Printing turns /\ length turns = fuel
  else exists e, main fuel c os late now = Exit 0 e /\
         opened e ≡ₚ closed e ++ (if startup os then [Winsock] else []) ++ (if before_threads os then tls_indexes os else []).
Proof.
  assert (Hargs : bad_arguments 2 10 20001 20000 = false) by reflexivity.
  destruct (Start_run (new c) 20001 2 10 false 20000 os Hargs eq_refl) as (s' & e & E & Hon & Hrest).
  unfold main. rewrite E. destruct (all_granted os 2).
  - eexists. split; [reflexivity|]. rewrite length_fmap, length_seq. done.
  - unfold destroy, Stop. rewrite Hon. cbn [negb]. rewrite Hon. cbn [negb]. eexists. split; [reflexivity|].
    destruct Hrest as [Hb Hs]. rewrite app_nil_l, app_nil_r, opened_app, closed_app.
    destruct (destroy_login_closes os late e) as [-> ->]. rewrite Hs, Hb. unfold left_open.
    destruct (before_threads os); solve_Permutation.
Qed.

End facts.

(** ** A server that starts, and one that cannot create its monitor thread *)
#[local] Existing Instance RefPool.ops.
#[local] Existing Instance RefPool.laws.
Definition sample_slot (i : Z) : SESSION :=
  mkSession 7 9 9 77 3 5 6 [] (replicate 200 0) (RingBuffer.CRingBuffer.new_sized 16 (replicate 17 0)).
Definition sample_core : server RefPool.t :=
  mkServer 0 false 0 0 [] [] (mkCounters 0 0 0 0 0 0) (fun _ => CNetPacket.new_default (replicate 1024 0))
    RefPool.empty [] [] [].
Definition grants (monitor : Z) : answers :=
  mkAnswers true 100 true true 200 (fun i => 300 + i) 400 monitor sample_slot 600 700 1 2.
Definition sample : t RefPool.t := new sample_core.
Definition no_wait (h : Z) : bool := false.

Lemma Start_all_or_nothing_witness :
  (exists s' e, Start sample 20001 2 10 false 4 (grants 500) = Ok (true, s', e) /\
     initial (mkConfig (core s') [] ∅)) /\
  (exists s' e, Start sample 20001 2 10 false 4 (grants 0) = Ok (false, s', e) /\
     opened e ≡ₚ closed e ++ [Winsock; Handle 600; Handle 700; Tls 1; Tls 2]).
Proof.
  assert (Hargs : bad_arguments 2 10 20001 4 = false) by reflexivity.
  split.
  - destruct (Start_all_or_nothing sample 20001 2 10 false 4 (grants 500) Hargs ltac:(lia)) as (s' & e & E & _ & _ & _ & Hi).
    exists s', e. split; [exact E|]. apply Hi; [reflexivity..|]. exact (proj2 Sample.start_initial).
  - destruct (Start_all_or_nothing sample 20001 2 10 false 4 (grants 0) Hargs ltac:(lia)) as (s' & e & E & _ & Hb & _).
    exists s', e. split; [exact E|exact Hb].
Defined.

Definition started_state (r : outcome (bool * t RefPool.t * list effect)) : t RefPool.t :=
  match r with Ok (_, s, _) => s | Fault _ => sample end.
Definition failed : t RefPool.t := started_state (Start sample 20001 2 10 false 2 (grants 0)).
Definition restarted : t RefPool.t := started_state (Start failed 20001 2 10 false 2 (grants 500)).


Lemma Stop_uses_deleted_array_witness :
  exists before, Stop restarted no_wait = (before, Fault UseAfterFree) /\ length before = 8%nat.
Proof.
  destruct (Stop_uses_deleted_array failed 20001 2 10 false 2 (grants 500) no_wait restarted _
    eq_refl ltac:(lia) eq_refl) as [[before E] _].
  exists before. split; [exact E|]. apply (f_equal (fun r => length r.1)) in E. cbn in E. rewrite <- E. reflexivity.
Defined.

End Lifecycle.
