(* ===== verification/CrashDump.v ===== *)
(** * Crash dumps of [CrashDump.cpp]

    The process-wide handlers, the deliberate crash, and the exception filter that
    writes a numbered dump file. The operating system's answers are arguments. *)
From S2P Require Import Prelude.
From S2P Require Import Text.
From Stdlib Require Import String.
From stdpp Require Import prelude list list_numbers.
From Stdlib Require Import ZArith Lia.
Open Scope Z_scope.

Module CrashDump.

Definition MAX_PATH : Z := 260.
Definition EXCEPTION_EXECUTE_HANDLER : Z := 1.

(** [_DumpCount], and which handlers of the process are the ones of [CrashDump]. *)
Record t := mk {
  _DumpCount : Z;
  invalid_parameter_handler : bool;
  report_hook : bool;
  report_modes_off : bool;
  purecall_handler : bool;
  unhandled_exception_filter : bool;
}.

(** The process before the object [crash] is constructed. *)
Definition default_process : t := mk 0 false false false false false.

Definition SetHandlerDump (c : t) : t :=
  mk (_DumpCount c) (invalid_parameter_handler c) (report_hook c) (report_modes_off c) (purecall_handler c) true.

(** The constructor. *)
Definition new (c : t) : t := SetHandlerDump (mk 0 true true true true (unhandled_exception_filter c)).

(** [int* p = nullptr; *p = 0]. *)
Definition Crash : outcome unit := Fault NullDeref.
Definition myInvalidParameterHandler : outcome unit := Crash.
Definition _custom_Report_hook (ireposttype : Z) : outcome bool := _ ← Crash; Ok true.
Definition myPurecallHandler : outcome unit := Crash.

(** ** The exception filter *)
Record SYSTEMTIME := mkTime { wYear : Z; wMonth : Z; wDay : Z; wHour : Z; wMinute : Z; wSecond : Z }.

(** What the operating system answers. *)
Record answers := mkAnswers {
  process : bool;
  working_set : option Z;
  local_time : SYSTEMTIME;
  dump_file : bool;
}.

Inductive effect := Print (line : list Z) | OpenFile (name : list Z) | WriteDump | CloseFile.

(** [%02d]. *)
Definition two (n : Z) : list Z :=
  let s := Text.decimal n in if Z.of_nat (List.length s) <? 2 then 48 :: s else s.

(** [Dump_%d%02d%02d_%02d.%02d.%02d_%d_%dMB.dmp]; 95 is the underscore, 46 the point. *)
Definition filename (tm : SYSTEMTIME) (count memory : Z) : list Z :=
  Text.of_string "Dump" ++ 95 ::
  (Text.decimal (wYear tm) ++ two (wMonth tm) ++ two (wDay tm)) ++ 95 ::
  (two (wHour tm) ++ 46 :: two (wMinute tm) ++ 46 :: two (wSecond tm)) ++ 95 ::
  Text.decimal count ++ 95 :: Text.decimal memory ++ Text.of_string "MB.dmp".

Definition message (tm : SYSTEMTIME) : list Z :=
  Text.of_string "!!! Crash Error!!! " ++ Text.decimal (wYear tm) ++ 46 :: Text.decimal (wMonth tm) ++ 46 ::
  Text.decimal (wDay tm) ++ Text.of_string " / " ++ Text.decimal (wHour tm) ++ 58 ::
  Text.decimal (wMinute tm) ++ 58 :: Text.decimal (wSecond tm).

Definition MyExceptionFilter (os : answers) (c : t) : Z * list effect * t :=
  let DumpCount := i32 (_DumpCount c + 1) in
  let c := mk DumpCount (invalid_parameter_handler c) (report_hook c) (report_modes_off c)
             (purecall_handler c) (unhandled_exception_filter c) in
  if negb (process os) then (0, [], c)
  else
    let iWorkingMemory :=
      match working_set os with Some b => i32 (b / 1024 / 1024) | None => 0 end in
    let name := filename (local_time os) DumpCount iWorkingMemory in
    let said := [Print (message (local_time os)); Print (Text.of_string "Now Save dumpfile...")] in
    (EXCEPTION_EXECUTE_HANDLER,
     said ++ (if dump_file os
              then [OpenFile name; WriteDump; CloseFile; Print (Text.of_string "CrashDump Save Finish!")]
              else []), c).

(** Calls of the filter in one process, on any threads, in the order of their increments. *)
Fixpoint calls (oss : list answers) (c : t) : list effect * t :=
  match oss with
  | [] => ([], c)
  | os :: oss =>
      let '(_, e, c) := MyExceptionFilter os c in
      let '(es, c) := calls oss c in (e ++ es, c)
  end.

(** Calls that get to write a dump: there is a process handle and the file can be created. *)
Definition writes (os : answers) : bool := process os && dump_file os.

Definition opened (es : list effect) : list (list Z) :=
  omap (fun e => match e with OpenFile n => Some n | _ => None end) es.

(** ** Lemmas *)

(** A separator that the first parts do not contain. *)
Lemma separated (s : Z) a a' b b' :
  (s ∉ a) -> (s ∉ a') -> a ++ s :: b = a' ++ s :: b' -> a = a' /\ b = b'.
Proof.
  revert a'. induction a as [|x a IH]; intros [|x' a'] Ha Ha' E; cbn in E.
  - injection E as ->. done.
  - injection E as -> ->. exfalso. apply Ha'. apply elem_of_cons. auto.
  - injection E as -> <-. exfalso. apply Ha. apply elem_of_cons. auto.
  - injection E as -> E. rewrite elem_of_cons in Ha, Ha'.
    destruct (IH a') as [-> ->]; [tauto..|exact E|]. done.
Qed.

Definition int_range (n : Z) : Prop := - 2 ^ 63 <= n < 2 ^ 64.

Lemma decimal_no_underscore n : int_range n -> (95 ∉ Text.decimal n).
Proof.
  intros Hn. unfold Text.decimal.
  assert (Hd : forall k, 0 <= k < 2 ^ 64 -> (95 ∉ Text.unsigned k)).
  { intros k Hk Hin. destruct (Text.unsigned_spec k Hk) as (_ & Hd & _). rewrite forallb_forall in Hd.
    apply list_elem_of_In in Hin. specialize (Hd _ Hin). done. }
  unfold int_range in Hn. destruct (n <? 0) eqn:E; b2p; [|apply Hd; lia].
  rewrite elem_of_cons. intros [?|Hin]; [lia|]. eapply Hd, Hin. lia.
Qed.

Lemma two_no_underscore n : int_range n -> (95 ∉ two n).
Proof.
  intros Hn. unfold two. destruct (_ <? 2); [|by apply decimal_no_underscore].
  rewrite elem_of_cons. intros [?|Hin]; [lia|]. by apply (decimal_no_underscore n).
Qed.

Definition time_ok (tm : SYSTEMTIME) : Prop :=
  Forall (fun n => 0 <= n < 65536) [wYear tm; wMonth tm; wDay tm; wHour tm; wMinute tm; wSecond tm].

Lemma filename_count tm tm' k k' m m' :
  time_ok tm -> time_ok tm' -> int_range k -> int_range k' ->
  filename tm k m = filename tm' k' m' -> k = k'.
Proof.
  unfold time_ok. intros Ht Ht' Hk Hk' E.
  repeat match goal with H : Forall _ (_ :: _) |- _ => apply Forall_cons in H as [? H] end.
  assert (Hr : forall n, 0 <= n < 65536 -> int_range n) by (unfold int_range; lia).
  unfold filename in E.
  apply separated in E as [_ E]; [|apply (bool_decide_unpack _); vm_compute; done..].
  apply separated in E as [_ E];
    [|rewrite !elem_of_app; intros [Hin|[Hin|Hin]]; revert Hin; first [apply decimal_no_underscore|apply two_no_underscore]; auto..].
  apply separated in E as [_ E];
    [|rewrite elem_of_app, elem_of_cons, elem_of_app, elem_of_cons; intros [Hin|[?|[Hin|[?|Hin]]]];
      try lia; revert Hin; apply two_no_underscore; auto..].
  apply separated in E as [E _]; [|apply decimal_no_underscore; done..].
  unfold int_range in *. pose proof (Text.parse_decimal k Hk) as P1. rewrite E, Text.parse_decimal in P1 by done. congruence.
Qed.

Lemma decimal_length n k :
  0 <= k -> 0 <= n < 10 ^ (k + 1) -> n < 2 ^ 64 -> Z.of_nat (List.length (Text.decimal n)) <= k + 1.
Proof.
  intros Hk Hn Hb. unfold Text.decimal. replace (n <? 0) with false by lia.
  apply Text.unsigned_spec; [lia|done|lia].
Qed.

Lemma two_length n : 0 <= n < 65536 -> Z.of_nat (List.length (two n)) <= 5.
Proof.
  intros Hn. pose proof (decimal_length n 4) as H. change (10 ^ (4 + 1)) with 100000 in H.
  unfold two. destruct (_ <? 2) eqn:E; cbn [List.length]; b2p; lia.
Qed.

(** Any 32-bit number is at most eleven characters. *)
Lemma int_length n : - 2 ^ 31 <= n < 2 ^ 31 -> Z.of_nat (List.length (Text.decimal n)) <= 11.
Proof.
  intros Hn. unfold Text.decimal. destruct (n <? 0) eqn:E; b2p; cbn [List.length].
  - destruct (Text.unsigned_spec (- n)) as (_ & _ & _ & Hl); [lia|]. specialize (Hl 9).
    change (10 ^ (9 + 1)) with 10000000000 in Hl. lia.
  - destruct (Text.unsigned_spec n) as (_ & _ & _ & Hl); [lia|]. specialize (Hl 9).
    change (10 ^ (9 + 1)) with 10000000000 in Hl. lia.
Qed.

Lemma filename_fits tm k m :
  time_ok tm -> - 2 ^ 31 <= k < 2 ^ 31 -> - 2 ^ 31 <= m < 2 ^ 31 ->
  Z.of_nat (List.length (filename tm k m)) < MAX_PATH.
Proof.
  unfold time_ok, filename, MAX_PATH. intros Ht Hk Hm.
  repeat match goal with H : Forall _ (_ :: _) |- _ => apply Forall_cons in H as [? H] end.
  pose proof (int_length k Hk). pose proof (int_length m Hm).
  pose proof (decimal_length (wYear tm) 4) as Hy. change (10 ^ (4 + 1)) with 100000 in Hy.
  pose proof (two_length (wMonth tm)). pose proof (two_length (wDay tm)). pose proof (two_length (wHour tm)).
  pose proof (two_length (wMinute tm)). pose proof (two_length (wSecond tm)).
  repeat (rewrite length_app || cbn [List.length]).
  change (List.length (Text.of_string "Dump")) with 4%nat.
  change (List.length (Text.of_string "MB.dmp")) with 6%nat. lia.
Qed.

Definition answers_ok (os : answers) : Prop := time_ok (local_time os).

(** The names opened carry the counts after [_DumpCount], in order. *)
Lemma calls_names oss : forall c,
  0 <= _DumpCount c -> _DumpCount c + Z.of_nat (List.length oss) < 2 ^ 31 ->
  Forall answers_ok oss ->
  NoDup (opened (calls oss c).1) /\
  (forall n, n ∈ opened (calls oss c).1 ->
     Z.of_nat (List.length n) < MAX_PATH /\
     exists tm k m, n = filename tm k m /\ time_ok tm /\ _DumpCount c < k <= _DumpCount c + Z.of_nat (List.length oss)) /\
  List.length (opened (calls oss c).1) = List.length (List.filter writes oss).
Proof.
  induction oss as [|os oss IH]; intros c H0 Hlt Hok; cbn [calls].
  { split; [constructor|split; [intros n []%not_elem_of_nil|done]]. }
  apply Forall_cons in Hok as [Hos Hok]. cbn [List.length] in Hlt. unfold MyExceptionFilter.
  set (c' := mk _ _ _ _ _ _).
  assert (Ec : _DumpCount c' = _DumpCount c + 1) by (cbn; apply (s_small 32); lia).
  change (i32 (_DumpCount c + 1)) with (_DumpCount c'). rewrite Ec. clearbody c'.
  destruct (IH c') as (Hnd & Hns & Hl); [lia|lia|done|].
  assert (Hlast : forall n, n ∈ opened (calls oss c').1 ->
    Z.of_nat (List.length n) < MAX_PATH /\ exists tm k m, n = filename tm k m /\ time_ok tm /\
      _DumpCount c < k <= _DumpCount c + Z.of_nat (S (List.length oss))).
  { intros n Hn. destruct (Hns n Hn) as (? & tm & k & m & -> & Ht & Hk). split; [done|].
    exists tm, k, m. split_and!; [done|done|lia|lia]. }
  cbn [List.filter]. unfold writes at 1.
  destruct (process os); cbn [negb andb]; [|destruct (calls oss c') as [es c2]; cbn in *; auto].
  destruct (dump_file os); [|destruct (calls oss c') as [es c2]; cbn in *; auto].
  cbn [app]. destruct (calls oss c') as [es c2]. cbn [fst] in *.
  set (m := match working_set os with Some b => i32 (b / 1024 / 1024) | None => 0 end).
  assert (Hm : - 2 ^ 31 <= m < 2 ^ 31).
  { unfold m. destruct (working_set os); [apply (s_range 32); lia|lia]. }
  cbn [app fst opened omap list_omap]. fold (opened es). split_and!; [| |cbn; congruence].
  - apply NoDup_cons. split; [|done]. intros Hn. destruct (Hns _ Hn) as (_ & tm & k & m' & E & Ht & Hk).
    apply filename_count in E; [lia|done|done|unfold int_range; lia..].
  - intros n [->|Hn]%elem_of_cons; [|auto]. split; [apply filename_fits; [done|lia|done]|].
    exists (local_time os), (_DumpCount c + 1), m. cbn [List.length]; split_and!; [done|done|lia|lia].
Qed.

(** C24: the dumps of one process do not overwrite each other. However often, after the
    constructor of [crash] has run, [MyExceptionFilter] is called in the process, and at
    whatever times, the names of the files it opens are distinct and fit in [MAX_PATH]; and
    it opens one for each call that gets a process handle and whose [CreateFile] does not
    fail, and for no other. Dumps of different processes are not covered: the count starts
    again at 0. *)
Theorem dumps_are_distinct c0 oss :
  Z.of_nat (List.length oss) < 2 ^ 31 -> Forall answers_ok oss ->
  let names := opened (calls oss (new c0)).1 in
  NoDup names /\ (forall n, n ∈ names -> Z.of_nat (List.length n) < MAX_PATH) /\
  List.length names = List.length (List.filter writes oss).
Proof.
  intros Hl Hok names. destruct (calls_names oss (new c0)) as (Hnd & Hns & Hlen); [cbn; lia|cbn; lia|done|].
  split_and!; [done|intros n Hn; apply (Hns n Hn)|exact Hlen].
Qed.

(** Two processes do overwrite: when they crash for the first time in the same second,
    with as many megabytes in use, the files have one name. *)
Theorem processes_share_names c0 c1 os os' :
  writes os = true -> writes os' = true -> local_time os = local_time os' -> working_set os = working_set os' ->
  exists name, opened (calls [os] (new c0)).1 = [name] /\ opened (calls [os'] (new c1)).1 = [name].
Proof.
  unfold writes. intros [Hp Hd]%andb_true_iff [Hp' Hd']%andb_true_iff Ht Hw. cbn [calls]. unfold MyExceptionFilter.
  rewrite Hp, Hd, Hp', Hd', Ht, Hw. cbn [negb]. eexists. split; reflexivity.
Qed.

Definition noon : SYSTEMTIME := mkTime 2023 4 5 12 0 9.
(** The second call cannot create its file. *)
Definition sample_calls : list answers :=
  [mkAnswers true (Some 104857600) noon true; mkAnswers true (Some 104857600) noon false; mkAnswers true None noon true].

Lemma dumps_are_distinct_witness :
  List.length (opened (calls sample_calls (new default_process)).1) = 2%nat /\
  opened (calls sample_calls (new default_process)).1 =
    [Text.of_string "Dump_20230405_12.00.09_1_100MB.dmp"; Text.of_string "Dump_20230405_12.00.09_3_0MB.dmp"].
Proof.
  split; [|reflexivity].
  apply (dumps_are_distinct default_process sample_calls); [cbn; lia|]. repeat constructor; cbn; lia.
Defined.

Lemma processes_share_names_witness :
  let os := mkAnswers true None noon true in
  exists name, opened (calls [os] (new default_process)).1 = [name] /\ opened (calls [os] (new default_process)).1 = [name].
Proof. intros os. apply (processes_share_names default_process default_process os os); reflexivity. Defined.

End CrashDump.
