(* ===== verification/DBConnector.v ===== *)
(** * The database connector of [DBConnector.cpp]

    A connection, its last result and the buffer queries are formatted in. The MySQL
    client library is a parameter: [MySQL D] is its functions on the state [D] of the
    world it works on. *)
From S2P Require Import Prelude.
From S2P Require Import Text.
From stdpp Require Import prelude list.
From Stdlib Require Import ZArith Lia.
Open Scope Z_scope.

(** A row is its columns, C strings or null; a result is its address, 0 for null. *)
Definition row := list (option (list Z)).

Class MySQL (D : Type) := {
  mysql_init : Z -> D -> D;
  mysql_real_connect : Z -> list Z -> list Z -> list Z -> list Z -> Z -> D -> bool * D;
  mysql_query : Z -> list Z -> D -> bool * D;
  mysql_store_result : Z -> D -> Z * D;
  mysql_fetch_row : Z -> D -> outcome (option row * D);
  mysql_free_result : Z -> D -> D;
  mysql_close : Z -> D -> D;
}.

Module DBConnector.

Definition MAX_QUERY_LEN : Z := 1024.

(** [_conn] is the address of the member of that name. *)
Record t := mk { _conn : Z; _sql_result : Z; _query : list Z }.

Definition set_query (c : t) (q : list Z) : t := mk (_conn c) (_sql_result c) q.
Definition set_result (c : t) (r : Z) : t := mk (_conn c) r (_query c).

(** [%lld], the one directive of the program's queries. *)
Fixpoint printf (format : list Z) (args : list Z) : list Z :=
  match format with
  | 37 :: 108 :: 108 :: 100 :: format =>
      match args with
      | a :: args => Text.decimal a ++ printf format args
      | [] => printf format []
      end
  | b :: format => b :: printf format args
  | [] => []
  end.

(** [StringCchVPrintfA]: at most [size - 1] characters and a terminator. *)
Definition StringCchPrintf (buf : list Z) (size : Z) (text : list Z) : outcome (list Z) :=
  mem_write buf 0 (take (Z.to_nat (size - 1)) text ++ [0]).

Section operations.
Context {D : Type} `{MySQL D}.

(** The constructor, for an object at [self] whose [_query] held [garbage]. *)
Definition new (self : Z) (garbage : list Z) (ip : list Z) (port : Z) (user passwd schema : list Z) (d : D)
    : outcome (t * D) :=
  q ← mem_write garbage 0 [0];
  let d := mysql_init self d in
  let '(connected, d) := mysql_real_connect self ip user passwd schema port d in
  if connected then Ok (mk self 0 q, d) else Fault UncaughtException.

Definition ReqQuery (c : t) (query : list Z) (args : list Z) (d : D) : outcome (bool * t * D) :=
  q ← StringCchPrintf (_query c) MAX_QUERY_LEN (printf query args);
  let c := set_query c q in
  let '(ok, d) := mysql_query (_conn c) (Text.c_str q) d in
  if negb ok then Ok (false, c, d)
  else let '(r, d) := mysql_store_result (_conn c) d in Ok (true, set_result c r, d).

Definition FetchRow (c : t) (d : D) : outcome (option row * D) := mysql_fetch_row (_sql_result c) d.
Definition FreeQueryResult (c : t) (d : D) : D := mysql_free_result (_sql_result c) d.
Definition CloseConnection (c : t) (d : D) : D := mysql_close (_conn c) d.

End operations.

(** ** Lemmas *)
Lemma c_str_app bs rest : (0 ∉ bs) -> Text.c_str (bs ++ 0 :: rest) = bs.
Proof.
  induction bs as [|b bs IH]; intros Hz; cbn; [done|].
  rewrite elem_of_cons in Hz. destruct (Z.eqb_spec b 0); [naive_solver|]. f_equal. apply IH. naive_solver.
Qed.

(** A query that is short enough is sent as it was formatted. *)
Lemma StringCchPrintf_fits buf text :
  Z.of_nat (length buf) = MAX_QUERY_LEN -> Z.of_nat (length text) < MAX_QUERY_LEN -> (0 ∉ text) ->
  exists q, StringCchPrintf buf MAX_QUERY_LEN text = Ok q /\ Text.c_str q = text /\ length q = length buf.
Proof.
  unfold MAX_QUERY_LEN. intros Hb Ht Hz. unfold StringCchPrintf. rewrite firstn_all2 by lia.
  destruct (mem_write_prefix buf (text ++ [0]) (Z.of_nat (length text) + 1)) as (q & E & _ & ->).
  - rewrite length_app. cbn. lia.
  - lia.
  - eexists. split; [exact E|]. split; [rewrite <- app_assoc; apply c_str_app; done|].
    apply (length_mem_write _ _ _ _ E).
Qed.

End DBConnector.
