(* ===== verification/LoginServer.v ===== *)
(** * The login server of [LoginServer.cpp]

    The handlers of [LoginServer] over its own state: the map from sessions to
    characters, the characters, the pool they come from, the counters and the
    connections each thread opens. What a handler asks of the network engine is a list
    of [command]s; [run_commands] is what they do there. MySQL, Redis and
    [MultiByteToWideChar] are parameters. *)
From S2P Require Import Prelude.
From S2P Require Import Text.
From S2P Require Import Protocol.
From S2P Require Import NetPacket.
From S2P Require Import ObjectPool.
From S2P Require Import DBConnector.
From S2P Require Import ServerState.
From S2P Require Import NetServer.
From Stdlib Require Import String.
From stdpp Require Import prelude gmap list.
From Stdlib Require Import ZArith Lia.
Open Scope Z_scope.

(** The Redis client: [connect], [set_advanced] with its [ex] and [ex_sec], and
    [sync_commit]; the first and the last can throw. *)
Class Redis (R : Type) := {
  redis_connect : R -> bool * R;
  set_advanced : list Z -> list Z -> bool -> Z -> R -> R;
  sync_commit : R -> bool * R;
}.

(** [MultiByteToWideChar(CP_UTF8, 0, text, -1, dest, n)] on the bytes of [dest]. *)
Class WideChars := MultiByteToWideChar : option (list Z) -> list Z -> Z -> list Z.

Module LoginServer.

(** ** Data *)

(** The source declares no [_id] and no [_nickname]; [Login] uses them as the
    [WCHAR\[20\]] of the response, so they are forty bytes each. *)
Record Character := mkCharacter {
  _sessionID : Z;
  _accountNo : Z;
  _sessionKey : list Z;
  _id : list Z;
  _nickname : list Z;
  _lastRecvTime : Z;
}.

(** What a thread keeps in a slot of its local storage. *)
Inductive slot := SlotDB (c : DBConnector.t) | SlotRedis.

Record t (P D R : Type) := mk {
  _acceptTotal : Z;
  characterMap : gmap Z Z;
  characters : Z -> Character;
  poolManager : P;
  _hMonitorThread : option Z;
  _hContentsEvent : option Z;
  _loginSuccessCnt : Z;
  _loginSuccessTPS : Z;
  _tlsIdxDB : Z;
  _tlsIdxRedis : Z;
  _isServerOff : bool;
  tls : gmap (Z * Z) slot;
  db : D;
  redis : R;
}.
Arguments mk {P D R}.
Arguments _acceptTotal {P D R}.
Arguments characterMap {P D R}.
Arguments characters {P D R}.
Arguments poolManager {P D R}.
Arguments _hMonitorThread {P D R}.
Arguments _hContentsEvent {P D R}.
Arguments _loginSuccessCnt {P D R}.
Arguments _loginSuccessTPS {P D R}.
Arguments _tlsIdxDB {P D R}.
Arguments _tlsIdxRedis {P D R}.
Arguments _isServerOff {P D R}.
Arguments tls {P D R}.
Arguments db {P D R}.
Arguments redis {P D R}.

(** ** What a handler asks of the engine *)
Record response := mkResponse {
  res_accountNo : Z;
  res_status : Z;
  res_id : list Z;
  res_nickname : list Z;
}.
Inductive command :=
  | CmdDisconnect (sessionID : Z)
  | CmdSend (sessionID : Z) (r : response).

(** A [WCHAR\[16\]] initialized with a string literal. *)
Definition wchar16 (s : string) : list Z :=
  let bs := concat ((fun b => [b; 0]) <$> Text.of_string s) in
  bs ++ replicate (32 - length bs) 0.
Definition GameServerIP : list Z := wchar16 "127.0.0.1".
Definition GameServerPort : Z := 20002.
Definition ChatServerIP : list Z := wchar16 "127.0.0.1".
Definition ChatServerPort : Z := 20000.

Definition SetData (p : CNetPacket.t) (src : list Z) : outcome CNetPacket.t :=
  '(_, p) ← CNetPacket.SetData p src (Z.of_nat (length src)); Ok p.

(** The response, put into the packet [pSndPkt]. *)
Definition fill_response (r : response) (p : CNetPacket.t) : outcome CNetPacket.t :=
  p ← CNetPacket.operator_in CNetPacket.CUShort p (packet_type en_PACKET_CS_LOGIN_RES_LOGIN);
  p ← CNetPacket.operator_in CNetPacket.CInt64 p (res_accountNo r);
  p ← CNetPacket.operator_in CNetPacket.CUChar p (res_status r);
  p ← SetData p (res_id r);
  p ← SetData p (res_nickname r);
  p ← SetData p GameServerIP;
  p ← SetData p (le_bytes 2 GameServerPort);
  p ← SetData p ChatServerIP;
  SetData p (le_bytes 2 ChatServerPort).

(** A command on the engine. *)
Definition run_command (c : command) : prog unit :=
  match c with
  | CmdDisconnect sid => (_ <- CNetServer.Disconnect sid;; skip)%prog
  | CmdSend sid r =>
      (pSndPkt <- PacketRef.Alloc;;
       do (Packet pSndPkt (fun p => p ← fill_response r p; Ok (tt, p)));;
       _ <- CNetServer.SendPacket sid pSndPkt;;
       PacketRef.Free pSndPkt)%prog
  end.
Fixpoint run_commands (cs : list command) : prog unit :=
  match cs with
  | [] => skip
  | c :: cs => (run_command c;; run_commands cs)%prog
  end.

Section server.
Context {P D R : Type} `{PoolOps P} `{MySQL D} `{Redis R} `{WideChars}.
Implicit Types st : t P D R.

Definition set_map st (m : gmap Z Z) : t P D R :=
  mk (_acceptTotal st) m (characters st) (poolManager st) (_hMonitorThread st) (_hContentsEvent st)
    (_loginSuccessCnt st) (_loginSuccessTPS st) (_tlsIdxDB st) (_tlsIdxRedis st) (_isServerOff st)
    (tls st) (db st) (redis st).
Definition set_character st (c : Z) (x : Character) : t P D R :=
  mk (_acceptTotal st) (characterMap st) (fun a => if a =? c then x else characters st a)
    (poolManager st) (_hMonitorThread st) (_hContentsEvent st)
    (_loginSuccessCnt st) (_loginSuccessTPS st) (_tlsIdxDB st) (_tlsIdxRedis st) (_isServerOff st)
    (tls st) (db st) (redis st).
Definition set_pool st (pl : P) : t P D R :=
  mk (_acceptTotal st) (characterMap st) (characters st) pl (_hMonitorThread st) (_hContentsEvent st)
    (_loginSuccessCnt st) (_loginSuccessTPS st) (_tlsIdxDB st) (_tlsIdxRedis st) (_isServerOff st)
    (tls st) (db st) (redis st).
Definition set_counts st (tot cnt tps : Z) : t P D R :=
  mk tot (characterMap st) (characters st) (poolManager st) (_hMonitorThread st) (_hContentsEvent st)
    cnt tps (_tlsIdxDB st) (_tlsIdxRedis st) (_isServerOff st) (tls st) (db st) (redis st).
Definition set_db st (tid : Z) (c : DBConnector.t) (d : D) : t P D R :=
  mk (_acceptTotal st) (characterMap st) (characters st) (poolManager st) (_hMonitorThread st)
    (_hContentsEvent st) (_loginSuccessCnt st) (_loginSuccessTPS st) (_tlsIdxDB st) (_tlsIdxRedis st)
    (_isServerOff st) (<[(_tlsIdxDB st, tid) := SlotDB c]> (tls st)) d (redis st).
Definition set_redis st (tid : Z) (r : R) : t P D R :=
  mk (_acceptTotal st) (characterMap st) (characters st) (poolManager st) (_hMonitorThread st)
    (_hContentsEvent st) (_loginSuccessCnt st) (_loginSuccessTPS st) (_tlsIdxDB st) (_tlsIdxRedis st)
    (_isServerOff st) (<[(_tlsIdxRedis st, tid) := SlotRedis]> (tls st)) (db st) r.
Definition set_threads st (off : bool) (th ev : option Z) : t P D R :=
  mk (_acceptTotal st) (characterMap st) (characters st) (poolManager st) th ev
    (_loginSuccessCnt st) (_loginSuccessTPS st) (_tlsIdxDB st) (_tlsIdxRedis st) off
    (tls st) (db st) (redis st).

(** ** [Character] *)
(** The constructor; what it does not name keeps what the memory held. *)
Definition Character_new (old : Character) : Character :=
  mkCharacter 0 0 (replicate 65 0) (_id old) (_nickname old) 0.

Definition Character_Alloc (tid : Z) st : outcome (Z * t P D R) :=
  '(c, pl) ← pool_alloc tid (poolManager st);
  Ok (c, set_character (set_pool st pl) c (Character_new (characters st c))).

Definition Character_Free (tid : Z) (pCharacter : Z) st : outcome (t P D R) :=
  '(_, pl) ← pool_free tid (poolManager st) pCharacter;
  Ok (set_pool st pl).

(** ** The constructor and the life cycle *)
Definition new (pl : P) (mem : Z -> Character) (d : D) (r : R) : t P D R :=
  mk 0 ∅ mem pl None None 0 0 0 0 false ∅ d r.

(** [OnStart] with the handles and slots the operating system gives. *)
Definition OnStart (event thread : option Z) (idxDB idxRedis : Z) st : t P D R :=
  mk 0 (characterMap st) (characters st) (poolManager st) thread event 0 0 idxDB idxRedis
    (_isServerOff st) (tls st) (db st) (redis st).

(** What stopping does to a handle. *)
Inductive stop_action := Wait (h : Z) | TerminateThread (h : Z) | CloseHandle (h : Z).

Definition stop_threads (timed_out : bool) st : list stop_action :=
  match _hMonitorThread st with
  | Some h => [Wait h] ++ (if timed_out then [TerminateThread h] else []) ++ [CloseHandle h]
  | None => []
  end ++
  match _hContentsEvent st with Some h => [CloseHandle h] | None => [] end.

Definition OnStop (timed_out : bool) st : list stop_action * t P D R :=
  (stop_threads timed_out st, set_threads st true None None).

(** The destructor leaves the handles as they are. *)
Definition destroy (timed_out : bool) st : list stop_action * t P D R :=
  (stop_threads timed_out st, set_threads st true (_hMonitorThread st) (_hContentsEvent st)).

(** ** Handlers *)
Definition OnConnectionRequest (ip port : Z) : bool := true.

Definition OnClientJoin (tid sessionID now : Z) st : outcome (t P D R) :=
  let st := set_counts st (i32 (_acceptTotal st + 1)) (_loginSuccessCnt st) (_loginSuccessTPS st) in
  '(newCharacter, st) ← Character_Alloc tid st;
  let c := characters st newCharacter in
  let st := set_character st newCharacter
              (mkCharacter sessionID (-1) (_sessionKey c) (_id c) (_nickname c) now) in
  Ok (match characterMap st !! sessionID with
      | Some _ => st
      | None => set_map st (<[sessionID := newCharacter]> (characterMap st))
      end).

Definition OnClientLeave (tid sessionID : Z) st : outcome (t P D R) :=
  match characterMap st !! sessionID with
  | None => Ok st
  | Some c =>
      st ← Character_Free tid c st;
      Ok (set_map st (delete sessionID (characterMap st)))
  end.

Definition FindCharacter (sessionID : Z) st : option Z := characterMap st !! sessionID.

(** The connection of the thread, opened the first time. *)
Definition get_connector (tid : Z) (self : Z) (garbage : list Z) st : outcome (DBConnector.t * t P D R) :=
  match tls st !! (_tlsIdxDB st, tid) with
  | Some (SlotDB c) => Ok (c, st)
  | Some SlotRedis => Fault OutOfBounds
  | None =>
      '(c, d) ← DBConnector.new self garbage (Text.of_string "127.0.0.1") 3306 (Text.of_string "root")
                  (Text.of_string "wogus@4735") (Text.of_string "accountdb") (db st);
      Ok (c, set_db st tid c d)
  end.

Definition query_text : list Z :=
  Text.of_string ("select a.userid, a.usernick, sessionkey " ++
                  "from account as a, sessionkey as b " ++
                  "where a.accountno=b.accountno and a.accountno=%lld").

Definition column (r : row) (i : nat) : outcome (option (list Z)) :=
  match r !! i with Some c => Ok c | None => Fault OutOfBounds end.

(** The [do ... while (0)] block: [isSuccess] and the character. *)
Definition read_account (tid : Z) (conn : DBConnector.t) (c : Z) st : outcome (Z * t P D R) :=
  '(ok, conn, d) ← DBConnector.ReqQuery conn query_text [_accountNo (characters st c)] (db st);
  let st := set_db st tid conn d in
  if negb ok then Ok (0, st)
  else
    '(sql_row, d) ← DBConnector.FetchRow conn (db st);
    let st := set_db st tid conn d in
    match sql_row with
    | None => Ok (0, st)
    | Some r =>
        userid ← column r 0;
        usernick ← column r 1;
        let x := characters st c in
        let st := set_character st c
          (mkCharacter (_sessionID x) (_accountNo x) (_sessionKey x)
             (MultiByteToWideChar userid (_id x) 20) (MultiByteToWideChar usernick (_nickname x) 20)
             (_lastRecvTime x)) in
        Ok (1, set_db st tid conn (DBConnector.FreeQueryResult conn (db st)))
    end.

(** [sprintf_s] into [strAccountNo\[10\]]. *)
Definition account_key (accountNo : Z) : outcome (list Z) :=
  let s := Text.decimal accountNo in
  if 10 <=? Z.of_nat (List.length s) then Fault InvalidParameter else Ok s.

Definition publish_key (tid : Z) (c : Z) st : outcome (t P D R) :=
  strAccountNo ← account_key (_accountNo (characters st c));
  st ← match tls st !! (_tlsIdxRedis st, tid) with
       | Some SlotRedis => Ok st
       | Some (SlotDB _) => Fault OutOfBounds
       | None =>
           let '(connected, r) := redis_connect (redis st) in
           if connected then Ok (set_redis st tid r) else Fault UncaughtException
       end;
  let r := set_advanced strAccountNo (Text.c_str (_sessionKey (characters st c))) true 5000 (redis st) in
  let '(committed, r) := sync_commit r in
  if committed then Ok (set_redis st tid r) else Fault UncaughtException.

(** [Login] from the database read on. *)
Definition answer_login (tid : Z) (conn : DBConnector.t) (c : Z) st : outcome (list command * t P D R) :=
  '(isSuccess, st) ← read_account tid conn c st;
  st ← (if isSuccess =? 1 then publish_key tid c st else Ok st);
  let x := characters st c in
  let send := CmdSend (_sessionID x) (mkResponse (_accountNo x) isSuccess (_id x) (_nickname x)) in
  if isSuccess =? 1
  then Ok ([send], set_counts st (_acceptTotal st) (u32 (_loginSuccessCnt st + 1)) (_loginSuccessTPS st))
  else Ok ([send; CmdDisconnect (_sessionID x)], st).

(** [Login]; [self] and [garbage] are the memory a new [DBConnector] gets. *)
Definition Login (tid self : Z) (garbage : list Z) (c : Z) (p : CNetPacket.t) st
    : outcome (list command * CNetPacket.t * t P D R) :=
  let x := characters st c in
  '(accountNo, p) ← CNetPacket.operator_out CNetPacket.CInt64 p (_accountNo x);
  '(_, key, p) ← CNetPacket.GetData p (_sessionKey x) 64;
  key ← mem_write key 64 [0];
  let st := set_character st c
    (mkCharacter (_sessionID x) accountNo key (_id x) (_nickname x) (_lastRecvTime x)) in
  '(conn, st) ← get_connector tid self garbage st;
  '(cs, st) ← answer_login tid conn c st;
  Ok (cs, p, st).

(** [type] holds [old] before it is read. *)
Definition JobHandler (tid self : Z) (garbage : list Z) (old : Z) (c : Z) (p : CNetPacket.t) st
    : outcome (list command * CNetPacket.t * t P D R) :=
  '(type, p) ← CNetPacket.operator_out CNetPacket.CUShort p old;
  if type =? packet_type en_PACKET_CS_LOGIN_REQ_LOGIN then Login tid self garbage c p st
  else Ok ([], p, st).

Definition OnRecv (tid self : Z) (garbage : list Z) (old now sessionID : Z) (p : CNetPacket.t) st
    : outcome (list command * CNetPacket.t * t P D R) :=
  match FindCharacter sessionID st with
  | None => Ok ([CmdDisconnect sessionID], p, st)
  | Some c =>
      let x := characters st c in
      JobHandler tid self garbage old c p
        (set_character st c (mkCharacter (_sessionID x) (_accountNo x) (_sessionKey x) (_id x) (_nickname x) now))
  end.

(** ** The monitor thread and the counters *)
Definition ContentsMonitorThread st : t P D R :=
  set_counts st (_acceptTotal st) 0 (_loginSuccessCnt st).

Definition GetAcceptTotal st : Z := _acceptTotal st.
Definition GetLoginSuccessTPS st : Z := i32 (_loginSuccessTPS st).

End server.

End LoginServer.
