(* ===== verification/LoginProps.v ===== *)
(** * What the login server guarantees

    The characters of [LoginServer] follow its sessions; what a login request is answered,
    in a packet that has the layout [CommonProtocol.h] documents, but not always with the
    status it documents: an account without a row is answered with
    [dfLOGIN_STATUS_FAIL], not with [dfLOGIN_STATUS_ACCOUNT_MISS] or
    [dfLOGIN_STATUS_SESSION_MISS]; and the handlers keep the session protocol of the
    engine. The database and Redis are any that answer as [AccountDB] says. *)
From S2P Require Import Prelude.
From S2P Require Import Text.
From S2P Require Import Protocol.
From S2P Require Import NetPacket.
From S2P Require Import ObjectPool.
From S2P Require Import ServerState.
From S2P Require Import NetServer.
From S2P Require Import SessionLogic.
From S2P Require Import PacketLogic.
From S2P Require Import SessionThreads.
From S2P Require Import DBConnector.
From S2P Require Import LoginServer.
From Stdlib Require Import String.
From stdpp Require Import prelude gmap list.
From Stdlib Require Import ZArith Lia.
Open Scope Z_scope.

Import LoginServer.

(** ** The query *)
Definition query_for (accountNo : Z) : list Z :=
  Text.of_string ("select a.userid, a.usernick, sessionkey from account as a, sessionkey as b " ++
                  "where a.accountno=b.accountno and a.accountno=") ++ Text.decimal accountNo.

Lemma printf_query n : DBConnector.printf query_text [n] = query_for n.
Proof. unfold query_for. rewrite <- (app_nil_r (Text.decimal n)). reflexivity. Qed.

Lemma decimal_nonzero n : - 2 ^ 63 <= n < 2 ^ 63 -> (0 ∉ Text.decimal n).
Proof.
  intros Hn. unfold Text.decimal.
  assert (Hd : forall k, 0 <= k < 2 ^ 64 -> (0 ∉ Text.unsigned k)).
  { intros k Hk Hin. destruct (Text.unsigned_spec k Hk) as (_ & Hd & _). rewrite forallb_forall in Hd.
    apply list_elem_of_In in Hin. specialize (Hd _ Hin). done. }
  destruct (n <? 0) eqn:E; b2p; [|apply Hd; lia].
  rewrite elem_of_cons. intros [?|Hin]; [lia|]. eapply Hd, Hin. lia.
Qed.

Lemma query_fits n :
  - 2 ^ 63 <= n < 2 ^ 63 ->
  Z.of_nat (length (query_for n)) < DBConnector.MAX_QUERY_LEN /\ (0 ∉ query_for n).
Proof.
  intros Hn. unfold query_for. set (pre := Text.of_string _).
  assert (Hl : Z.of_nat (length (Text.decimal n)) <= 20).
  { unfold Text.decimal. destruct (n <? 0) eqn:E; b2p.
    - destruct (Text.unsigned_spec (- n)) as (_ & _ & _ & Hk); [lia|]. specialize (Hk 18).
      change (10 ^ (18 + 1)) with 10000000000000000000 in Hk. cbn [length]. lia.
    - destruct (Text.unsigned_spec n) as (_ & _ & _ & Hk); [lia|]. specialize (Hk 19).
      change (10 ^ (19 + 1)) with 100000000000000000000 in Hk. lia. }
  split.
  - rewrite length_app. assert (E : Z.of_nat (length pre) = 121) by reflexivity.
    unfold DBConnector.MAX_QUERY_LEN. lia.
  - rewrite elem_of_app. intros [Hp|Hd]; [|apply (decimal_nonzero n Hn Hd)].
    revert Hp. apply (bool_decide_unpack _). vm_compute. done.
Qed.

(** ** The database

    [account_of d n] is what the database holds for account [n]: [None] when the query
    fails, [Some None] when there is no row. Opening a connection, asking and giving
    back a result do not change it. *)
Class AccountDB (D : Type) `{MySQL D} := {
  account_of : D -> Z -> option (option row);
  init_keeps conn d n : account_of (mysql_init conn d) n = account_of d n;
  connect_keeps conn ip user passwd schema port d n :
    account_of (mysql_real_connect conn ip user passwd schema port d).2 n = account_of d n;
  query_answer conn n d :
    - 2 ^ 63 <= n < 2 ^ 63 ->
    let '(ok, d1) := mysql_query conn (query_for n) d in
    match account_of d n with
    | None => ok = false
    | Some r => ok = true /\
        let '(res, d2) := mysql_store_result conn d1 in
        exists d3, mysql_fetch_row res d2 = Ok (r, d3)
    end;
}.

Section properties.
Context {P D R : Type} `{PoolLaws P} `{AccountDB D} `{Redis R} `{WideChars}.
Implicit Types st : t P D R.

(** ** Invariant *)
Record character_ok (x : Character) : Prop := {
  ok_key : length (_sessionKey x) = 65%nat;
  ok_id : length (_id x) = 40%nat /\ Forall is_byte (_id x);
  ok_nickname : length (_nickname x) = 40%nat /\ Forall is_byte (_nickname x);
}.

Record inv st : Prop := {
  inv_pool : pool_ok (poolManager st);
  inv_live : forall c, c ∈ pool_live (poolManager st) <-> exists sid, characterMap st !! sid = Some c;
  inv_inj : forall sid sid' c, characterMap st !! sid = Some c -> characterMap st !! sid' = Some c -> sid = sid';
  inv_sid : forall sid c, characterMap st !! sid = Some c -> _sessionID (characters st c) = sid;
  inv_mem : forall c, character_ok (characters st c);
  inv_tls : _tlsIdxDB st <> _tlsIdxRedis st /\
    forall i tid s, tls st !! (i, tid) = Some s ->
      match s with
      | SlotDB c => i = _tlsIdxDB st /\ Z.of_nat (length (DBConnector._query c)) = DBConnector.MAX_QUERY_LEN
      | SlotRedis => i = _tlsIdxRedis st
      end;
}.

(** [MultiByteToWideChar] stays within the twenty characters it is given. *)
Definition stays_within : Prop := forall text dest,
  length dest = 40%nat /\ Forall is_byte dest ->
  length (MultiByteToWideChar text dest 20) = 40%nat /\ Forall is_byte (MultiByteToWideChar text dest 20).

(** A call of a handler, with what it needs from outside. *)
Inductive call :=
  | Join (tid sessionID now : Z)
  | Leave (tid sessionID : Z)
  | Recv (tid self : Z) (garbage : list Z) (old now sessionID : Z) (p : CNetPacket.t).

Definition call_step st (k : call) : outcome (list command * t P D R) :=
  match k with
  | Join tid sid now => st ← OnClientJoin tid sid now st; Ok ([], st)
  | Leave tid sid => st ← OnClientLeave tid sid st; Ok ([], st)
  | Recv tid self garbage old now sid p =>
      '(cs, _, st) ← OnRecv tid self garbage old now sid p st; Ok (cs, st)
  end.

Fixpoint calls st (ks : list call) : outcome (list (list command) * t P D R) :=
  match ks with
  | [] => Ok ([], st)
  | k :: ks => '(c, st) ← call_step st k; '(cs, st) ← calls st ks; Ok (c :: cs, st)
  end.

(** The sessions after a history; identifiers are not used twice at a time. *)
Fixpoint history (s : gset Z) (ks : list call) : option (gset Z) :=
  match ks with
  | [] => Some s
  | Join _ sid _ :: ks => if decide (sid ∈ s) then None else history ({[sid]} ∪ s) ks
  | Leave _ sid :: ks => history (s ∖ {[sid]}) ks
  | Recv _ _ _ _ _ _ _ :: ks => history s ks
  end.

Definition call_ok (k : call) : Prop :=
  match k with
  | Recv _ _ garbage _ _ _ _ => Z.of_nat (length garbage) = DBConnector.MAX_QUERY_LEN
  | _ => True
  end.

(** What a command is about. *)
Definition command_session (c : command) : Z :=
  match c with CmdDisconnect sid => sid | CmdSend sid _ => sid end.
Definition call_session (k : call) : Z :=
  match k with Join _ sid _ => sid | Leave _ sid => sid | Recv _ _ _ _ _ sid _ => sid end.

(** ** Lemmas *)

(** The state with one character changed. *)
Lemma inv_set_character st c x :
  inv st -> character_ok x -> _sessionID x = _sessionID (characters st c) -> inv (set_character st c x).
Proof.
  intros [] Hx Hs. split; cbn; try done.
  - intros sid c' Hc. destruct (Z.eqb_spec c' c) as [->|]; [rewrite Hs|]; auto.
  - intros c'. destruct (c' =? c); auto.
Qed.

Lemma inv_set_db st tid c d :
  inv st -> Z.of_nat (length (DBConnector._query c)) = DBConnector.MAX_QUERY_LEN -> inv (set_db st tid c d).
Proof.
  intros [] Hq. split; cbn; try done. destruct inv_tls0 as [Hne Ht]. split; [done|].
  intros i t s. rewrite lookup_insert_Some. intros [[[= <- <-] <-]|[_ Hs]]; [done|]. apply (Ht _ _ _ Hs).
Qed.

Lemma inv_set_redis st tid r : inv st -> inv (set_redis st tid r).
Proof.
  intros []. split; cbn; try done. destruct inv_tls0 as [Hne Ht]. split; [done|].
  intros i t s. rewrite lookup_insert_Some. intros [[[= <- <-] <-]|[_ Hs]]; [done|]. apply (Ht _ _ _ Hs).
Qed.

Lemma inv_set_counts st a b c : inv st -> inv (set_counts st a b c).
Proof. intros []. split; done. Qed.

Lemma get_connector_inv st tid self garbage c st' :
  inv st -> Z.of_nat (length garbage) = DBConnector.MAX_QUERY_LEN ->
  get_connector tid self garbage st = Ok (c, st') ->
  Z.of_nat (length (DBConnector._query c)) = DBConnector.MAX_QUERY_LEN /\
  (st' = st \/ exists d, st' = set_db st tid c d).
Proof.
  intros Hv Hg E. unfold get_connector in E. destruct (tls st !! _) as [[k|]|] eqn:Es; [| |].
  - injection E as <- <-. split; [|auto]. destruct (inv_tls _ Hv) as [_ Ht]. apply (Ht _ _ _ Es).
  - done.
  - destruct (DBConnector.new _ _ _ _ _ _ _ _) as [[k d]|f] eqn:En; [|done]. cbn in E. injection E as <- <-.
    split; [|eauto]. unfold DBConnector.new in En.
    destruct (mem_write garbage 0 [0]) as [q|] eqn:Eq; [|done]. cbn in En.
    destruct (mysql_real_connect _ _ _ _ _ _ _) as [[] d']; [|done]. injection En as <- <-. cbn.
    rewrite (length_mem_write _ _ _ _ Eq). done.
Qed.

(** What a request leaves alone. *)
Definition keeps st st' : Prop :=
  inv st' /\ characterMap st' = characterMap st /\ poolManager st' = poolManager st /\
  _acceptTotal st' = _acceptTotal st /\
  forall c, _sessionID (characters st' c) = _sessionID (characters st c).

Lemma keeps_trans st st1 st2 : keeps st st1 -> keeps st1 st2 -> keeps st st2.
Proof. intros (_ & E1 & E2 & E3 & E4) (Hv & F1 & F2 & F3 & F4). split; [done|]. split_and!; [congruence..|]. intros c. rewrite F4. auto. Qed.

Lemma keeps_refl st : inv st -> keeps st st.
Proof. intros Hv. split; [exact Hv|done]. Qed.

Lemma keeps_db st tid c d :
  inv st -> Z.of_nat (length (DBConnector._query c)) = DBConnector.MAX_QUERY_LEN -> keeps st (set_db st tid c d).
Proof. intros. split; [apply inv_set_db; done|done]. Qed.

Lemma keeps_character st c x :
  inv st -> character_ok x -> _sessionID x = _sessionID (characters st c) -> keeps st (set_character st c x).
Proof.
  intros Hv Hx Hs. split; [apply inv_set_character; done|]. split_and!; try done.
  intros c'. cbn. destruct (Z.eqb_spec c' c) as [->|]; done.
Qed.

Context (Hwide : stays_within).

Lemma ReqQuery_length (c : DBConnector.t) q args d ok c' d' :
  DBConnector.ReqQuery c q args d = Ok (ok, c', d') ->
  length (DBConnector._query c') = length (DBConnector._query c).
Proof.
  unfold DBConnector.ReqQuery, DBConnector.StringCchPrintf. intros E.
  destruct (mem_write _ _ _) as [b|] eqn:Eb; [|done]. cbn in E. apply length_mem_write in Eb.
  destruct (mysql_query _ _ _) as [[] d1]; cbn in E; [|by injection E as <- <- <-].
  destruct (mysql_store_result _ _) as [r d2]. by injection E as <- <- <-.
Qed.

#[local] Strategy 1000 [query_text Text.of_string DBConnector.printf DBConnector.ReqQuery].

Lemma keeps_names st c userid nick :
  inv st ->
  let x := characters st c in
  keeps st (set_character st c (mkCharacter (_sessionID x) (_accountNo x) (_sessionKey x)
    (MultiByteToWideChar userid (_id x) 20) (MultiByteToWideChar nick (_nickname x) 20) (_lastRecvTime x))).
Proof.
  intros Hv x. apply keeps_character; [done| |done]. destruct (inv_mem _ Hv c) as [Hk Hi Hn].
  split; [exact Hk|apply Hwide, Hi|apply Hwide, Hn].
Qed.

Lemma read_account_keeps st tid conn c n st' :
  inv st -> Z.of_nat (length (DBConnector._query conn)) = DBConnector.MAX_QUERY_LEN ->
  read_account tid conn c st = Ok (n, st') -> keeps st st'.
Proof.
  intros Hv Hq E. unfold read_account in E. apply bind_Ok_inv in E as ([[ok conn1] d1] & Er & E).
  apply ReqQuery_length in Er. assert (Hq1 : Z.of_nat (length (DBConnector._query conn1)) = DBConnector.MAX_QUERY_LEN) by congruence.
  set (st1 := set_db st tid conn1 d1) in *. assert (K1 : keeps st st1) by (apply keeps_db; done).
  destruct ok; cbn [negb] in E; [|by injection E as _ <-].
  apply bind_Ok_inv in E as ([r d2] & Ef & E).
  set (st2 := set_db st1 tid conn1 d2) in *.
  assert (K2 : keeps st st2) by (eapply keeps_trans; [exact K1|apply keeps_db; [apply K1|done]]).
  destruct r as [r|]; [|by injection E as _ <-].
  apply bind_Ok_inv in E as (userid & _ & E). apply bind_Ok_inv in E as (nick & _ & E).
  injection E as _ <-. eapply keeps_trans; [exact K2|].
  pose proof (keeps_names st2 c userid nick (proj1 K2)) as K3.
  eapply keeps_trans; [exact K3|]. apply keeps_db; [exact (proj1 K3)|done].
Qed.

Lemma keeps_redis st tid r : inv st -> keeps st (set_redis st tid r).
Proof. intros. split; [apply inv_set_redis; done|done]. Qed.

Lemma publish_key_keeps st tid c st' : inv st -> publish_key tid c st = Ok st' -> keeps st st'.
Proof.
  intros Hv E. unfold publish_key in E. apply bind_Ok_inv in E as (k & _ & E).
  apply bind_Ok_inv in E as (st1 & E1 & E).
  assert (K1 : keeps st st1).
  { destruct (tls st !! _) as [[]|]; [done|by injection E1 as <-; apply keeps_refl|].
    destruct (redis_connect _) as [[] r]; [|done]. injection E1 as <-. apply keeps_redis, Hv. }
  destruct (sync_commit _) as [[] r]; [|done]. injection E as <-.
  eapply keeps_trans; [exact K1|apply keeps_redis, K1].
Qed.

Lemma answer_login_keeps st tid conn c cs st' :
  inv st -> Z.of_nat (length (DBConnector._query conn)) = DBConnector.MAX_QUERY_LEN ->
  answer_login tid conn c st = Ok (cs, st') ->
  keeps st st' /\ Forall (fun k => command_session k = _sessionID (characters st c)) cs.
Proof.
  intros Hv Hq E. unfold answer_login in E. apply bind_Ok_inv in E as ([n st1] & E1 & E).
  assert (K1 : keeps st st1) by (eapply read_account_keeps, E1; done).
  apply bind_Ok_inv in E as (st2 & E2 & E).
  assert (K2 : keeps st st2).
  { destruct (n =? 1); [|by injection E2 as <-]. eapply keeps_trans; [exact K1|eapply publish_key_keeps, E2; apply K1]. }
  assert (Hs : _sessionID (characters st2 c) = _sessionID (characters st c)) by apply K2.
  destruct (n =? 1); injection E as <- <-.
  - split; [|repeat constructor; done]. destruct K2 as (? & ? & ? & ? & ?).
    split; [apply inv_set_counts; done|done].
  - split; [done|]. repeat constructor; done.
Qed.

Lemma Login_keeps st tid self garbage c p cs p' st' :
  inv st -> Z.of_nat (length garbage) = DBConnector.MAX_QUERY_LEN ->
  Login tid self garbage c p st = Ok (cs, p', st') ->
  keeps st st' /\ Forall (fun k => command_session k = _sessionID (characters st c)) cs.
Proof.
  intros Hv Hg E. unfold Login in E. apply bind_Ok_inv in E as ([a p1] & E1 & E).
  apply bind_Ok_inv in E as ([[k key] p2] & E2 & E). apply bind_Ok_inv in E as (key' & E3 & E).
  set (st1 := set_character _ _ _) in E.
  assert (K1 : keeps st st1).
  { destruct (inv_mem _ Hv c) as [Hk Hi Hn]. apply keeps_character; [done| |done]. split; cbn; [|done..].
    rewrite (length_mem_write _ _ _ _ E3). unfold CNetPacket.GetData in E2.
    apply bind_Ok_inv in E2 as (dest & Em & E2). injection E2 as _ <- _.
    unfold memcpy_s in Em. destruct (_ <? _) in Em; [done|]. apply bind_Ok_inv in Em as (bs & _ & Em).
    rewrite (length_mem_write _ _ _ _ Em). done. }
  apply bind_Ok_inv in E as ([conn st2] & E4 & E). apply get_connector_inv in E4 as [Hq E4]; [|apply K1|done].
  assert (K2 : keeps st st2).
  { destruct E4 as [->|[d ->]]; [done|]. eapply keeps_trans; [exact K1|apply keeps_db; [apply K1|done]]. }
  apply bind_Ok_inv in E as ([cs1 st5] & E5 & E). injection E as <- <- <-.
  eapply answer_login_keeps in E5 as [K5 Hcs]; [|apply K2|exact Hq].
  split; [eapply keeps_trans; done|]. rewrite <- (proj2 (proj2 (proj2 (proj2 K2)))). exact Hcs.
Qed.

Lemma OnRecv_keeps st tid self garbage old now sid p cs p' st' :
  inv st -> Z.of_nat (length garbage) = DBConnector.MAX_QUERY_LEN ->
  OnRecv tid self garbage old now sid p st = Ok (cs, p', st') ->
  keeps st st' /\ Forall (fun k => command_session k = sid) cs.
Proof.
  intros Hv Hg E. unfold OnRecv, FindCharacter in E. destruct (characterMap st !! sid) as [c|] eqn:Ec.
  2:{ injection E as <- _ <-. split; [apply keeps_refl, Hv|repeat constructor]. }
  set (st1 := set_character _ _ _) in E.
  assert (K1 : keeps st st1) by (apply keeps_character; [done|destruct (inv_mem _ Hv c); split; done|done]).
  unfold JobHandler in E. apply bind_Ok_inv in E as ([ty p1] & E1 & E).
  assert (Hno : forall q, Ok ([], q, st1) = Ok (cs, p', st') ->
    keeps st st' /\ Forall (fun k => command_session k = sid) cs).
  { intros q [= <- _ <-]. split; [exact K1|constructor]. }
  destruct (ty =? _); [|eapply Hno, E].
  apply Login_keeps in E as [K2 Hcs]; [|apply K1|done]. split; [eapply keeps_trans; done|].
  assert (Es : _sessionID (characters st1 c) = sid).
  { destruct K1 as (_ & _ & _ & _ & ->). apply (inv_sid _ Hv _ _ Ec). }
  rewrite <- Es. exact Hcs.
Qed.

(** The calls that change the map. *)
Lemma OnClientJoin_ok st tid sid now st' :
  inv st -> characterMap st !! sid = None -> OnClientJoin tid sid now st = Ok st' ->
  inv st' /\ exists c, characterMap st' = <[sid := c]> (characterMap st).
Proof.
  intros Hv Hn E. unfold OnClientJoin, Character_Alloc in E.
  apply bind_Ok_inv in E as ([c st1] & E1 & E). apply bind_Ok_inv in E1 as ([c' pl] & Ea & E1).
  injection E1 as <- <-. cbn in E. rewrite Hn in E. injection E as <-.
  destruct Hv. cbn in Ea.
  destruct (pool_alloc_spec _ _ _ _ inv_pool0 Ea) as (Hok & Hnl & _ & Hl).
  assert (Hnm : forall s, characterMap st !! s <> Some c').
  { intros s Hs. apply Hnl, inv_live0. eauto. }
  split; [|exists c'; done]. split; cbn; try done.
  - intros x. rewrite Hl, elem_of_union, elem_of_singleton, inv_live0. split.
    + intros [->|[s Hs]]; [exists sid; apply lookup_insert_eq|]. exists s. rewrite lookup_insert_ne; [done|]. congruence.
    + intros [s Hs]. apply lookup_insert_Some in Hs as [[_ <-]|[_ Hs]]; eauto.
  - intros s s' x. rewrite !lookup_insert_Some. intros [[<- <-]|[? Hs]] [[<- E']|[? Hs']]; try done.
    + by apply Hnm in Hs'.
    + subst x. by apply Hnm in Hs.
    + eauto.
  - intros s x. rewrite lookup_insert_Some. intros [[<- <-]|[Hne Hs]].
    + rewrite Z.eqb_refl. done.
    + assert (x <> c') by (intros ->; by apply Hnm in Hs). replace (x =? c') with false by lia. auto.
  - intros x. destruct (Z.eqb_spec x c') as [->|]; [|done]. rewrite Z.eqb_refl.
    destruct (inv_mem0 c'). split; cbn; [reflexivity|done|done].
Qed.

Lemma OnClientLeave_ok st tid sid :
  inv st -> exists st', OnClientLeave tid sid st = Ok st' /\ inv st' /\
    characterMap st' = delete sid (characterMap st).
Proof.
  intros Hv. unfold OnClientLeave. destruct (characterMap st !! sid) as [c|] eqn:Ec.
  2:{ exists st. split_and!; [done|done|]. symmetry. apply delete_id, Ec. }
  pose proof Hv as [].
  destruct (pool_free_live tid (poolManager st) c) as (pl & Ef & Hok & Hl); [done|apply inv_live0; eauto|].
  unfold Character_Free. rewrite Ef. cbn. eexists. split_and!; [done| |done]. split; cbn; try done.
  - intros x. rewrite Hl, elem_of_difference, elem_of_singleton, inv_live0. split.
    + intros [[s Hs] Hne]. exists s. apply lookup_delete_Some. split; [congruence|done].
    + intros [s Hs]. apply lookup_delete_Some in Hs as [Hne Hs]. split; [eauto|]. intros ->. eauto.
  - intros s s' x Hs Hs'. apply lookup_delete_Some in Hs as [_ Hs]. apply lookup_delete_Some in Hs' as [_ Hs']. eauto.
  - intros s x Hs. apply lookup_delete_Some in Hs as [_ Hs]. eauto.
Qed.

Lemma call_step_ok st k cs st' s :
  inv st -> call_ok k -> dom (characterMap st) = s -> call_step st k = Ok (cs, st') ->
  forall s' ks, history s (k :: ks) = Some s' ->
  inv st' /\ Forall (fun c => command_session c = call_session k) cs /\
  history (dom (characterMap st')) ks = Some s'.
Proof.
  intros Hv Hk Hs E s' ks Hh. destruct k as [tid sid now|tid sid|tid self garbage old now sid p]; cbn in E, Hh.
  - destruct (decide (sid ∈ s)) as [|Hn]; [done|].
    destruct (OnClientJoin tid sid now st) as [st1|] eqn:E1; [|done]. cbn in E. injection E as <- <-.
    destruct (OnClientJoin_ok _ _ _ _ _ Hv ltac:(apply not_elem_of_dom; rewrite Hs; exact Hn) E1) as (Hv' & c & Em).
    split_and!; [done|constructor|]. rewrite Em, dom_insert_L, Hs. done.
  - destruct (OnClientLeave_ok st tid sid Hv) as (st1 & E1 & Hv' & Em). rewrite E1 in E. cbn in E. injection E as <- <-.
    split_and!; [done|constructor|]. rewrite Em, dom_delete_L, Hs. done.
  - destruct (OnRecv tid self garbage old now sid p st) as [[[c q] st1]|] eqn:E1; [|done]. cbn in E.
    injection E as <- <-.
    destruct (OnRecv_keeps _ _ _ _ _ _ _ _ _ _ _ Hv Hk E1) as [(Hv' & Em & _) Hc].
    split_and!; [done|exact Hc|]. rewrite Em, Hs. done.
Qed.

Lemma calls_ok ks : forall st cs st' s',
  inv st -> Forall call_ok ks -> history (dom (characterMap st)) ks = Some s' ->
  calls st ks = Ok (cs, st') ->
  inv st' /\ dom (characterMap st') = s' /\
  Forall2 (fun k c => Forall (fun x => command_session x = call_session k) c) ks cs.
Proof.
  induction ks as [|k ks IH]; intros st cs st' s' Hv Hks Hh E.
  - cbn in *. injection E as <- <-. injection Hh as <-. done.
  - apply Forall_cons in Hks as [Hk Hks]. cbn [calls] in E.
    apply bind_Ok_inv in E as ([c st1] & E1 & E). apply bind_Ok_inv in E as ([cs1 st2] & E2 & E).
    injection E as <- <-.
    destruct (call_step_ok _ _ _ _ _ Hv Hk eq_refl E1 _ _ Hh) as (Hv1 & Hc & Hh1).
    destruct (IH _ _ _ _ Hv1 Hks Hh1 E2) as (Hv2 & Hd & Hcs). split_and!; [done|done|].
    constructor; done.
Qed.

(** ** A login request *)
Definition request (accountNo : Z) (key : list Z) : list Z :=
  print_message LOGIN_REQ_LOGIN [NoValue; Num accountNo; Bytes key].

Lemma set_db_db st tid c d c' d' : set_db (set_db st tid c d) tid c' d' = set_db st tid c' d'.
Proof. unfold set_db. cbn. rewrite insert_insert_eq. done. Qed.

Lemma set_redis_redis st tid r r' : set_redis (set_redis st tid r) tid r' = set_redis st tid r'.
Proof. unfold set_redis. cbn. rewrite insert_insert_eq. done. Qed.

(** The answers of the database server when it can be reached. *)
Definition db_reachable : Prop := forall conn ip user passwd schema port d,
  (mysql_real_connect conn ip user passwd schema port d).1 = true.

Lemma get_connector_run st tid self garbage :
  inv st -> Z.of_nat (length garbage) = DBConnector.MAX_QUERY_LEN -> db_reachable ->
  exists c d, get_connector tid self garbage st = Ok (c, set_db st tid c d) /\
    Z.of_nat (length (DBConnector._query c)) = DBConnector.MAX_QUERY_LEN /\
    forall n, account_of d n = account_of (db st) n.
Proof.
  intros Hv Hg Hr. destruct (inv_tls _ Hv) as [Hne Ht]. unfold get_connector.
  destruct (tls st !! (_tlsIdxDB st, tid)) as [[k|]|] eqn:Es.
  - exists k, (db st). split; [|split; [apply (Ht _ _ _ Es)|done]].
    unfold set_db. rewrite insert_id by done. destruct st. done.
  - exfalso. apply Hne, (Ht _ _ _ Es).
  - unfold DBConnector.new. destruct (mem_write_prefix garbage [0] 1) as (q & E & _); [done|unfold DBConnector.MAX_QUERY_LEN in *; lia|].
    rewrite E. cbn [mbind outcome_bind].
    destruct (mysql_real_connect _ _ _ _ _ _ _) as [ok d] eqn:Ec.
    pose proof (f_equal fst Ec) as E1. rewrite Hr in E1. cbn in E1. subst ok. cbn [mbind outcome_bind].
    eexists _, d. split; [done|]. cbn. split; [rewrite (length_mem_write _ _ _ _ E); done|].
    intros n. pose proof (connect_keeps self (Text.of_string "127.0.0.1") (Text.of_string "root")
      (Text.of_string "wogus@4735") (Text.of_string "accountdb") 3306 (mysql_init self (db st)) n) as K.
    rewrite Ec in K. cbn in K. rewrite K. apply init_keeps.
Qed.

Lemma ReqQuery_run (k : DBConnector.t) a d :
  Z.of_nat (length (DBConnector._query k)) = DBConnector.MAX_QUERY_LEN -> - 2 ^ 63 <= a < 2 ^ 63 ->
  match account_of d a with
  | None => exists k' d', DBConnector.ReqQuery k query_text [a] d = Ok (false, k', d')
  | Some r => exists k' d' d'', DBConnector.ReqQuery k query_text [a] d = Ok (true, k', d') /\
      DBConnector.FetchRow k' d' = Ok (r, d'')
  end.
Proof.
  intros Hq Ha. destruct (query_fits a Ha) as [Hl Hz]. unfold DBConnector.ReqQuery. rewrite printf_query.
  destruct (DBConnector.StringCchPrintf_fits _ _ Hq Hl Hz) as (q & -> & Ec & Elen).
  cbn [mbind outcome_bind]. rewrite Ec. cbn [DBConnector.set_query DBConnector._conn].
  pose proof (query_answer (DBConnector._conn k) a d Ha) as Ha2.
  destruct (mysql_query _ _ _) as [ok d1]. destruct (account_of d a) as [r|].
  - destruct Ha2 as [-> Ha2]. cbn [negb]. destruct (mysql_store_result _ _) as [res d2].
    destruct Ha2 as [d3 E3]. eexists _, _, d3. split; [done|exact E3].
  - subst ok. cbn [negb]. eauto.
Qed.

Lemma read_account_run st tid conn c :
  Z.of_nat (length (DBConnector._query conn)) = DBConnector.MAX_QUERY_LEN ->
  let x := characters st c in
  - 2 ^ 63 <= _accountNo x < 2 ^ 63 ->
  match account_of (db st) (_accountNo x) with
  | Some (Some (uid :: nick :: _)) =>
      exists conn' d, read_account tid conn c st =
        Ok (1, set_db (set_character st c (mkCharacter (_sessionID x) (_accountNo x) (_sessionKey x)
                 (MultiByteToWideChar uid (_id x) 20) (MultiByteToWideChar nick (_nickname x) 20)
                 (_lastRecvTime x))) tid conn' d) /\
        Z.of_nat (length (DBConnector._query conn')) = DBConnector.MAX_QUERY_LEN
  | Some (Some _) => read_account tid conn c st = Fault OutOfBounds
  | _ => exists conn' d, read_account tid conn c st = Ok (0, set_db st tid conn' d)
  end.
Proof.
  intros Hq x Ha. pose proof (ReqQuery_run conn (_accountNo x) (db st) Hq Ha) as Hr. unfold read_account. fold x.
  destruct (account_of (db st) (_accountNo x)) as [r|].
  - destruct Hr as (k' & d' & d'' & Eq & Ef). pose proof (ReqQuery_length _ _ _ _ _ _ _ Eq) as El.
    rewrite Eq. cbn [mbind outcome_bind negb].
    assert (E : DBConnector.FetchRow k' (db (set_db st tid k' d')) = Ok (r, d'')) by exact Ef.
    rewrite E. cbn [mbind outcome_bind]. rewrite set_db_db.
    destruct r as [[|uid [|nick r]]|]; [done|done| |eauto].
    cbn [column lookup list_lookup mbind outcome_bind]. do 2 eexists. split; [|rewrite El; exact Hq]. do 2 f_equal.
    unfold set_db, set_character. cbn. rewrite insert_insert_eq. done.
  - destruct Hr as (k' & d' & ->). cbn. eauto.
Qed.

Lemma account_key_run a :
  - 2 ^ 63 <= a < 2 ^ 63 ->
  account_key a = if decide (- 10 ^ 8 < a < 10 ^ 9) then Ok (Text.decimal a) else Fault InvalidParameter.
Proof.
  intros Ha. unfold account_key. pose proof (Text.decimal_fits_ten a Ha) as Hf.
  destruct (10 <=? _) eqn:E; b2p; destruct (decide _); try done; lia.
Qed.

(** Redis when it can be reached, and what it has seen after a key was published. *)
Definition redis_reachable : Prop :=
  (forall r, (redis_connect r).1 = true) /\ (forall r, (sync_commit r).1 = true).
Definition published st (tid : Z) (key value : list Z) : R :=
  (sync_commit (set_advanced key value true 5000
     (match tls st !! (_tlsIdxRedis st, tid) with
      | Some _ => redis st
      | None => (redis_connect (redis st)).2
      end))).2.

Lemma publish_key_run st tid c :
  inv st -> redis_reachable -> - 2 ^ 63 <= _accountNo (characters st c) < 2 ^ 63 ->
  publish_key tid c st =
    if decide (- 10 ^ 8 < _accountNo (characters st c) < 10 ^ 9)
    then Ok (set_redis st tid (published st tid (Text.decimal (_accountNo (characters st c)))
                                 (Text.c_str (_sessionKey (characters st c)))))
    else Fault InvalidParameter.
Proof.
  intros Hv [Hc Hs] Ha. unfold publish_key, published. rewrite account_key_run by done.
  destruct (decide _); [|done]. cbn [mbind outcome_bind]. destruct (inv_tls _ Hv) as [Hne Ht].
  destruct (tls st !! (_tlsIdxRedis st, tid)) as [[k|]|] eqn:Es.
  - exfalso. apply Hne. symmetry. apply (Ht _ _ _ Es).
  - cbn [mbind outcome_bind]. specialize (Hs (set_advanced (Text.decimal (_accountNo (characters st c)))
      (Text.c_str (_sessionKey (characters st c))) true 5000 (redis st))).
    destruct (sync_commit _) as [ok r]. cbn in Hs. subst ok. done.
  - specialize (Hc (redis st)). destruct (redis_connect (redis st)) as [ok r]. cbn in Hc. subst ok.
    cbn [mbind outcome_bind snd]. rewrite (eq_refl : redis (set_redis st tid r) = r).
    rewrite (eq_refl : characters (set_redis st tid r) = characters st).
    specialize (Hs (set_advanced (Text.decimal (_accountNo (characters st c)))
      (Text.c_str (_sessionKey (characters st c))) true 5000 r)).
    destruct (sync_commit _) as [ok r']. cbn in Hs. subst ok. cbn [snd]. rewrite set_redis_redis. done.
Qed.

(** The character a request for account [a] with session key [key] leaves. *)
Definition logged_in (x : Character) (a : Z) (key id nick : list Z) (now : Z) : Character :=
  mkCharacter (_sessionID x) a (key ++ [0]) id nick now.

(** The reads of a login request. *)
Lemma read_request old x p a key rest :
  packet_ok p -> unread p = request a key ++ rest -> - 2 ^ 63 <= a < 2 ^ 63 -> length key = 64%nat ->
  length (_sessionKey x) = 65%nat ->
  exists p1 p2 k last p3,
    CNetPacket.operator_out CNetPacket.CUShort p old = Ok (packet_type en_PACKET_CS_LOGIN_REQ_LOGIN, p1) /\
    CNetPacket.operator_out CNetPacket.CInt64 p1 (_accountNo x) = Ok (a, p2) /\
    CNetPacket.GetData p2 (_sessionKey x) 64 = Ok (k, key ++ [last], p3) /\
    mem_write (key ++ [last]) 64 [0] = Ok (key ++ [0]).
Proof.
  intros Hp Hu Ha Hk Hx. unfold request in Hu. cbn [print_message LOGIN_REQ_LOGIN print_field] in Hu.
  rewrite app_nil_r, <- !app_assoc in Hu.
  destruct (operator_out_spec CNetPacket.CUShort p old _ _ Hp Hu) as (p1 & E1 & Hp1 & Hu1 & _).
  { rewrite length_le_bytes. done. }
  destruct (operator_out_spec CNetPacket.CInt64 p1 (_accountNo x) _ _ Hp1 Hu1) as (p2 & E2 & Hp2 & Hu2 & _).
  { rewrite length_le_bytes. done. }
  destruct (GetData_spec p2 (_sessionKey x) 64 Hp2) as (p3 & E3 & _); [lia|].
  rewrite (value_of_bytes CNetPacket.CUShort) in E1 by (pose proof (packet_type_range en_PACKET_CS_LOGIN_REQ_LOGIN); done).
  rewrite (value_of_bytes CNetPacket.CInt64) in E2 by exact Ha.
  pose proof (length_unread p2 Hp2) as Hlen. rewrite Hu2, length_app, Hk in Hlen. unfold CNetPacket.GetPayloadSize in Hlen.
  rewrite Z.min_l in E3 by lia. change (Z.to_nat 64) with 64%nat in E3.
  rewrite Hu2, take_app_length' in E3 by done.
  destruct (drop 64 (_sessionKey x)) as [|last [|? ?]] eqn:Ed;
    try (apply (f_equal length) in Ed; rewrite length_drop, Hx in Ed; done).
  exists p1, p2, 64, last, p3. split_and!; [exact E1|exact E2|exact E3|].
  rewrite mem_write_ok by (rewrite ?length_app, ?Hk; cbn; lia). change (Z.to_nat 64) with 64%nat.
  rewrite take_app_length', drop_ge by (rewrite ?length_app, ?Hk; cbn; lia). done.
Qed.

(** [Login] up to the database read: the packet is read into the character. *)
Lemma Login_reads st tid self garbage c p a key last k p2 p3 :
  inv st -> Z.of_nat (length garbage) = DBConnector.MAX_QUERY_LEN -> db_reachable -> length key = 64%nat ->
  let x := characters st c in
  CNetPacket.operator_out CNetPacket.CInt64 p (_accountNo x) = Ok (a, p2) ->
  CNetPacket.GetData p2 (_sessionKey x) 64 = Ok (k, key ++ [last], p3) ->
  mem_write (key ++ [last]) 64 [0] = Ok (key ++ [0]) ->
  exists conn d,
    let st1 := set_db (set_character st c (logged_in x a key (_id x) (_nickname x) (_lastRecvTime x))) tid conn d in
    Login tid self garbage c p st = ('(cs, st2) ← answer_login tid conn c st1; Ok (cs, p3, st2)) /\
    inv st1 /\ Z.of_nat (length (DBConnector._query conn)) = DBConnector.MAX_QUERY_LEN /\
    account_of d a = account_of (db st) a.
Proof.
  intros Hv Hg Hdb Hk x E2 E3 E4. destruct (inv_mem _ Hv c) as [Hkey Hid Hnk].
  assert (Hv2 : inv (set_character st c (logged_in x a key (_id x) (_nickname x) (_lastRecvTime x)))).
  { apply inv_set_character; [exact Hv| |reflexivity]. split; [|exact Hid|exact Hnk].
    cbn. rewrite length_app, Hk. reflexivity. }
  destruct (get_connector_run _ tid self garbage Hv2 Hg Hdb) as (conn & d & Ec & Hq & Hacc).
  exists conn, d. split; [|split; [apply inv_set_db; done|split; [exact Hq|apply Hacc]]].
  unfold Login. cbv zeta. fold x. rewrite E2, bind_Ok, E3, bind_Ok, E4, bind_Ok.
  fold (logged_in x a key (_id x) (_nickname x) (_lastRecvTime x)). rewrite Ec, bind_Ok. reflexivity.
Qed.

(** The same for [OnRecv]. *)
Lemma OnRecv_request st tid self garbage old now sid c p a key rest :
  inv st -> packet_ok p -> Z.of_nat (length garbage) = DBConnector.MAX_QUERY_LEN ->
  characterMap st !! sid = Some c -> unread p = request a key ++ rest ->
  - 2 ^ 63 <= a < 2 ^ 63 -> length key = 64%nat -> db_reachable ->
  let x := characters st c in
  exists p' conn st1,
    OnRecv tid self garbage old now sid p st =
      ('(cs, st2) ← answer_login tid conn c st1; Ok (cs, p', st2)) /\
    inv st1 /\ Z.of_nat (length (DBConnector._query conn)) = DBConnector.MAX_QUERY_LEN /\
    characters st1 c = logged_in x a key (_id x) (_nickname x) now /\
    account_of (db st1) a = account_of (db st) a /\ _loginSuccessCnt st1 = _loginSuccessCnt st /\
    redis st1 = redis st /\
    (tls st1 !! (_tlsIdxRedis st1, tid) = tls st !! (_tlsIdxRedis st, tid)).
Proof.
  intros Hv Hp Hg Hc Hu Ha Hk Hdb x. destruct (inv_mem _ Hv c) as [Hkey Hid Hnk].
  set (x1 := mkCharacter (_sessionID x) (_accountNo x) (_sessionKey x) (_id x) (_nickname x) now).
  assert (Hv1 : inv (set_character st c x1)) by (apply inv_set_character; [done|split; done|done]).
  destruct (read_request old x1 p a key rest Hp Hu Ha Hk Hkey) as (p1 & p2 & k & last & p3 & E1 & E2 & E3 & E4).
  assert (Ex : characters (set_character st c x1) c = x1) by (cbn; rewrite Z.eqb_refl; done).
  pose proof (Login_reads _ tid self garbage c p1 a key last k p2 p3 Hv1 Hg Hdb Hk) as HL.
  cbv zeta in HL. rewrite Ex in HL. destruct (HL E2 E3 E4) as (conn & d & EL & Hi & Hq & Hacc).
  exists p3, conn. eexists. split.
  - unfold OnRecv, FindCharacter. rewrite Hc. fold x x1. unfold JobHandler. rewrite E1, bind_Ok.
    rewrite Z.eqb_refl. exact EL.
  - split_and!; [exact Hi|exact Hq| |exact Hacc|done|done|].
    + cbn. rewrite Z.eqb_refl. done.
    + cbn. apply lookup_insert_ne. intros [= E]. by destruct (inv_tls _ Hv).
Qed.

(** The answer, by what the database says. *)
Lemma answer_unknown st tid conn c :
  (exists conn' d, read_account tid conn c st = Ok (0, set_db st tid conn' d)) ->
  let x := characters st c in
  exists st', answer_login tid conn c st =
      Ok ([CmdSend (_sessionID x) (mkResponse (_accountNo x) 0 (_id x) (_nickname x));
           CmdDisconnect (_sessionID x)], st') /\
    characters st' c = x /\ _loginSuccessCnt st' = _loginSuccessCnt st /\ redis st' = redis st.
Proof.
  intros (conn' & d & E) x. exists (set_db st tid conn' d). unfold answer_login. rewrite E. split_and!; done.
Qed.

Lemma answer_known st tid conn conn' c d uid nick :
  let x := characters st c in
  let id' := MultiByteToWideChar uid (_id x) 20 in
  let nick' := MultiByteToWideChar nick (_nickname x) 20 in
  let x' := mkCharacter (_sessionID x) (_accountNo x) (_sessionKey x) id' nick' (_lastRecvTime x) in
  read_account tid conn c st = Ok (1, set_db (set_character st c x') tid conn' d) ->
  inv st -> Z.of_nat (length (DBConnector._query conn')) = DBConnector.MAX_QUERY_LEN ->
  redis_reachable -> - 2 ^ 63 <= _accountNo x < 2 ^ 63 ->
  if decide (- 10 ^ 8 < _accountNo x < 10 ^ 9)
  then exists st', answer_login tid conn c st =
           Ok ([CmdSend (_sessionID x) (mkResponse (_accountNo x) 1 id' nick')], st') /\
         characters st' c = x' /\ _loginSuccessCnt st' = u32 (_loginSuccessCnt st + 1) /\
         redis st' = published st tid (Text.decimal (_accountNo x)) (Text.c_str (_sessionKey x))
  else answer_login tid conn c st = Fault InvalidParameter.
Proof.
  intros x id' nick' x' E Hv Hq Hrd Ha. set (st1 := set_db _ tid conn' d) in E.
  assert (Ex : characters st1 c = x') by (cbn; rewrite Z.eqb_refl; done).
  assert (Hst : inv st1) by (apply inv_set_db; [apply (keeps_names st c uid nick Hv)|exact Hq]).
  assert (Er : published st1 tid = published st tid).
  { unfold published. cbn. rewrite lookup_insert_ne; [done|]. intros [= E']. by destruct (inv_tls _ Hv). }
  pose proof (publish_key_run st1 tid c Hst Hrd) as Hp. rewrite Ex, Er in Hp. specialize (Hp Ha).
  unfold answer_login. rewrite E. cbn [mbind outcome_bind]. change (1 =? 1) with true. cbn iota. rewrite Hp.
  change (_accountNo x') with (_accountNo x). destruct (decide _); [|done]. cbn [mbind outcome_bind].
  change (characters (set_redis st1 tid ?r) c) with (characters st1 c). rewrite Ex.
  eexists. split; [reflexivity|]. split_and!; [exact Ex|done|done].
Qed.

(** The response packet. *)
Lemma SetData_fits p src :
  packet_ok p -> Forall is_byte src -> CNetPacket.pWritePos p + Z.of_nat (length src) <= CNetPacket.cBufferSize p ->
  exists p', SetData p src = Ok p' /\ packet_ok p' /\ payload p' = payload p ++ src /\
    CNetPacket.pWritePos p' = CNetPacket.pWritePos p + Z.of_nat (length src) /\
    CNetPacket.cBufferSize p' = CNetPacket.cBufferSize p.
Proof.
  intros Hp Hs Hf. unfold SetData.
  destruct (SetData_spec p src (Z.of_nat (length src)) Hp Hs) as (p' & E & Hp' & Hpl & _ & _ & Hw & _ & Hc & _); [lia|].
  rewrite Z.min_l, Nat2Z.id, firstn_all in * by lia. rewrite E. cbn. eauto 10.
Qed.

(** The same for byte strings one after the other. *)
Fixpoint put_strings (bss : list (list Z)) (p : CNetPacket.t) : outcome CNetPacket.t :=
  match bss with
  | [] => Ok p
  | bs :: bss => p ← SetData p bs; put_strings bss p
  end.

Lemma put_strings_fit bss : forall p,
  packet_ok p -> Forall (Forall is_byte) bss ->
  CNetPacket.pWritePos p + Z.of_nat (length (concat bss)) <= CNetPacket.cBufferSize p ->
  exists p', put_strings bss p = Ok p' /\ packet_ok p' /\ payload p' = payload p ++ concat bss.
Proof.
  induction bss as [|bs bss IH]; intros p Hp Hb Hf; cbn [put_strings concat] in *.
  - exists p. rewrite app_nil_r. done.
  - apply Forall_cons in Hb as [Hb Hbs]. rewrite length_app in Hf.
    destruct (SetData_fits p bs Hp Hb) as (p1 & -> & Hp1 & Hl1 & Hw & Hc); [lia|]. rewrite bind_Ok.
    destruct (IH p1 Hp1 Hbs) as (p' & E & Hp' & Hl); [lia|].
    exists p'. rewrite Hl, Hl1, <- app_assoc. done.
Qed.

Lemma put_string_last bs p : put_strings [bs] p = SetData p bs.
Proof. cbn. destruct (SetData p bs); done. Qed.

Definition response_bytes (r : response) : list (list Z) :=
  [le_bytes 2 (packet_type en_PACKET_CS_LOGIN_RES_LOGIN); le_bytes 8 (res_accountNo r);
   le_bytes 1 (res_status r); res_id r; res_nickname r; GameServerIP; le_bytes 2 GameServerPort;
   ChatServerIP; le_bytes 2 ChatServerPort].

Lemma fill_response_strings r p : fill_response r p = put_strings (response_bytes r) p.
Proof.
  unfold fill_response, response_bytes. cbn [put_strings].
  repeat match goal with
  | |- (CNetPacket.operator_in ?ty ?p ?v ≫= _) = (_ ≫= _) =>
      change (CNetPacket.operator_in ty p v) with (SetData p (le_bytes (CNetPacket.sizeof ty) v)); cbn [CNetPacket.sizeof]
  | |- (?m ≫= _) = (?m ≫= _) => let q := fresh "q" in destruct m as [q|]; [rewrite !bind_Ok|done]
  end.
  destruct (SetData _ _); done.
Qed.

Definition response_values (r : response) : list value :=
  [NoValue; Num (res_accountNo r); Num (res_status r); Bytes (res_id r); Bytes (res_nickname r);
   Bytes GameServerIP; Num GameServerPort; Bytes ChatServerIP; Num ChatServerPort].

(** C11: what a login request does. For a session that has a character, when the
    database and Redis can be reached: an account the database knows is answered with
    status 1 and the names of its row, its session key is published in Redis under
    the decimal account number for 5000 seconds, and the success counter goes up. An
    account it does not know, and a failed query, are both answered with status 0, where
    CommonProtocol.h has the statuses 3 and 4 for an account that is not in the tables,
    and whatever names the character's memory holds, and the session is disconnected;
    nothing is published. An account number with more than nine characters that the
    database knows overflows [strAccountNo], and a row with fewer than two columns is
    read out of bounds. *)
Theorem login_outcome st tid self garbage old now sid c p a key rest :
  inv st -> packet_ok p -> Z.of_nat (length garbage) = DBConnector.MAX_QUERY_LEN ->
  characterMap st !! sid = Some c -> unread p = request a key ++ rest ->
  - 2 ^ 63 <= a < 2 ^ 63 -> length key = 64%nat -> db_reachable -> redis_reachable ->
  let x := characters st c in
  let handled := OnRecv tid self garbage old now sid p st in
  match account_of (db st) a with
  | Some (Some (uid :: nick :: _)) =>
      let id' := MultiByteToWideChar uid (_id x) 20 in
      let nick' := MultiByteToWideChar nick (_nickname x) 20 in
      if decide (- 10 ^ 8 < a < 10 ^ 9)
      then exists p' st', handled = Ok ([CmdSend sid (mkResponse a 1 id' nick')], p', st') /\
             characters st' c = logged_in x a key id' nick' now /\
             _loginSuccessCnt st' = u32 (_loginSuccessCnt st + 1) /\
             redis st' = published st tid (Text.decimal a) (Text.c_str (key ++ [0]))
      else handled = Fault InvalidParameter
  | Some (Some _) => handled = Fault OutOfBounds
  | _ => exists p' st', handled =
             Ok ([CmdSend sid (mkResponse a 0 (_id x) (_nickname x)); CmdDisconnect sid], p', st') /\
           characters st' c = logged_in x a key (_id x) (_nickname x) now /\
           _loginSuccessCnt st' = _loginSuccessCnt st /\ redis st' = redis st
  end.
Proof.
  intros Hv Hp Hg Hc Hu Ha Hk Hdb Hrd x handled. subst handled.
  assert (Hs : _sessionID x = sid) by apply (inv_sid _ Hv _ _ Hc).
  destruct (OnRecv_request st tid self garbage old now sid c p a key rest Hv Hp Hg Hc Hu Ha Hk Hdb)
    as (p' & conn & st1 & -> & Hv1 & Hq & Ex & Eacc & Ecnt & Ered & Etls). fold x in Ex.
  pose proof (read_account_run st1 tid conn c Hq) as Hr. cbv zeta in Hr. rewrite Ex in Hr. specialize (Hr Ha).
  change (_accountNo (logged_in x a key (_id x) (_nickname x) now)) with a in Hr. rewrite Eacc in Hr.
  assert (Er : published st1 tid = published st tid) by (unfold published; rewrite Etls, Ered; done).
  destruct (account_of (db st) a) as [[[|uid [|nick cols]]|]|]; try (unfold answer_login; rewrite Hr; done).
  - destruct Hr as (conn' & d' & Hr & Hq').
    pose proof (answer_known st1 tid conn conn' c d' uid nick) as Hans. cbv zeta in Hans. rewrite Ex in Hans.
    specialize (Hans Hr Hv1 Hq' Hrd Ha). cbn [_accountNo _id _nickname _sessionKey _sessionID logged_in] in Hans.
    rewrite Hs, Er, Ecnt in Hans. destruct (decide _); [|rewrite Hans; done].
    destruct Hans as (st' & -> & E1 & E2 & E3). exists p', st'. split_and!; [done| |done|done].
    rewrite E1. unfold logged_in. cbn. rewrite Hs. done.
  - destruct (answer_unknown _ _ _ _ Hr) as (st' & -> & E1 & E2 & E3). rewrite Ex in *. cbn in *.
    exists p', st'. rewrite Hs in *. split_and!; [done|done|congruence|congruence].
  - destruct (answer_unknown _ _ _ _ Hr) as (st' & -> & E1 & E2 & E3). rewrite Ex in *. cbn in *.
    exists p', st'. rewrite Hs in *. split_and!; [done|done|congruence|congruence].
Qed.

Lemma response_length r :
  length (res_id r) = 40%nat -> length (res_nickname r) = 40%nat ->
  Z.of_nat (length (concat (response_bytes r))) = 159.
Proof.
  intros Hi Hn. unfold response_bytes. cbn [concat]. rewrite !length_app, Hi, Hn, !length_le_bytes. reflexivity.
Qed.

(** C13: the response is the documented one. Filling an empty packet with room for it
    gives exactly the message [CommonProtocol.h] lays out for
    [en_PACKET_CS_LOGIN_RES_LOGIN], 159 bytes, which reads back as the values put in. *)
Theorem response_is_documented (r : response) (p : CNetPacket.t) :
  packet_ok p -> payload p = [] -> CNetPacket.pWritePos p + 159 <= CNetPacket.cBufferSize p ->
  - 2 ^ 63 <= res_accountNo r < 2 ^ 63 -> 0 <= res_status r < 2 ^ 8 ->
  length (res_id r) = 40%nat /\ Forall is_byte (res_id r) ->
  length (res_nickname r) = 40%nat /\ Forall is_byte (res_nickname r) ->
  exists p', fill_response r p = Ok p' /\ packet_ok p' /\
    payload p' = print_message LOGIN_RES_LOGIN (response_values r) /\ length (payload p') = 159%nat /\
    read_message (payload p') = Some (en_PACKET_CS_LOGIN_RES_LOGIN, response_values r, []).
Proof.
  intros Hp Hpl Hroom Ha Hs [Hil Hib] [Hnl Hnb].
  destruct (put_strings_fit (response_bytes r) p Hp) as (p' & Ep & Hp' & Hl).
  { unfold response_bytes. repeat constructor; try done; try apply u_range; try lia;
      apply (bool_decide_unpack _); vm_compute; done. }
  { rewrite (response_length r) by done. lia. }
  exists p'. rewrite Hpl in Hl. cbn [app] in Hl. rewrite fill_response_strings, Hl. split_and!; [done|done|done| |].
  - apply Nat2Z.inj. rewrite (response_length r) by done. done.
  - change (concat (response_bytes r)) with (print_message LOGIN_RES_LOGIN (response_values r)).
    rewrite <- (app_nil_r (print_message _ _)). apply read_message_print; [done|].
    repeat constructor; cbn; try done; try lia; apply (bool_decide_unpack _); vm_compute; done.
Qed.

(** The server as [OnStart] leaves it. *)
Lemma inv_started pl mem d r event thread idxDB idxRedis :
  pool_ok pl -> pool_live pl = ∅ -> (forall c, character_ok (mem c)) -> idxDB <> idxRedis ->
  inv (OnStart event thread idxDB idxRedis (new pl mem d r)).
Proof.
  intros Hp Hl Hm Hi. split; cbn; try done.
  - intros c. rewrite Hl. split; [intros []%not_elem_of_empty|]. intros [sid Hs]. done.
Qed.

(** C10: characters follow sessions. Whatever handlers the engine calls, on whatever
    threads, with no session joining twice at a time: when they return, the map has a
    character for exactly the sessions that joined and have not left, no two sessions
    share one, each carries the identifier of its session, the characters out of the
    pool are exactly those in the map, and every command of a handler is about the
    session it was called for. *)
Theorem characters_follow_sessions pl mem d r event thread idxDB idxRedis ks cs st s :
  pool_ok pl -> pool_live pl = ∅ -> (forall c, character_ok (mem c)) -> idxDB <> idxRedis ->
  Forall call_ok ks -> history ∅ ks = Some s ->
  calls (OnStart event thread idxDB idxRedis (new pl mem d r)) ks = Ok (cs, st) ->
  dom (characterMap st) = s /\
  (forall c, c ∈ pool_live (poolManager st) <-> exists sid, characterMap st !! sid = Some c) /\
  (forall sid sid' c, characterMap st !! sid = Some c -> characterMap st !! sid' = Some c -> sid = sid') /\
  (forall sid c, characterMap st !! sid = Some c -> _sessionID (characters st c) = sid) /\
  Forall2 (fun k c => Forall (fun x => command_session x = call_session k) c) ks cs.
Proof.
  intros Hp Hl Hm Hi Hks Hh E.
  pose proof (inv_started pl mem d r event thread idxDB idxRedis Hp Hl Hm Hi) as Hv.
  assert (Hh' : history (dom (characterMap (OnStart event thread idxDB idxRedis (new pl mem d r)))) ks = Some s).
  { cbn. rewrite dom_empty_L. exact Hh. }
  destruct (calls_ok ks _ _ _ s Hv Hks Hh' E) as (Hv' & Hd & Hc).
  split; [exact Hd|]. split; [apply Hv'|]. split; [apply Hv'|]. split; [apply Hv'|exact Hc].
Qed.

(** Only login requests of joined sessions do anything. A message of another
    type, known or not, is dropped: no command, no database access, and the only trace
    is the time of the last message. A session without a character is disconnected.
    And a message too short to have a type is judged by the bytes [type] held. *)
Theorem other_messages_dropped st tid self garbage old now sid p :
  packet_ok p ->
  match characterMap st !! sid with
  | None => OnRecv tid self garbage old now sid p st = Ok ([CmdDisconnect sid], p, st)
  | Some c =>
      let x := characters st c in
      let type := CNetPacket.value_of CNetPacket.CUShort
                    (take 2 (unread p) ++ drop (length (take 2 (unread p))) (le_bytes 2 old)) in
      type <> packet_type en_PACKET_CS_LOGIN_REQ_LOGIN ->
      exists p', OnRecv tid self garbage old now sid p st =
        Ok ([], p', set_character st c
          (mkCharacter (_sessionID x) (_accountNo x) (_sessionKey x) (_id x) (_nickname x) now))
  end.
Proof.
  intros Hp. destruct (characterMap st !! sid) as [c|] eqn:Ec.
  2:{ unfold OnRecv, FindCharacter. rewrite Ec. done. }
  intros x type Ht. unfold OnRecv, FindCharacter. rewrite Ec. unfold JobHandler, CNetPacket.operator_out.
  destruct (GetData_spec p (le_bytes 2 old) 2 Hp) as (q & Eq & _); [rewrite length_le_bytes; lia|].
  cbn [CNetPacket.sizeof]. change (Z.of_nat 2) with 2. rewrite Eq, !bind_Ok.
  pose proof (length_unread p Hp) as Hl. unfold CNetPacket.GetPayloadSize in Hl.
  set (n := Z.to_nat _). assert (En : n = length (take 2 (unread p))) by (subst n; rewrite length_take; lia).
  assert (Et : take n (unread p) = take 2 (unread p)).
  { rewrite En, length_take. destruct (decide (2 <= length (unread p))%nat).
    - rewrite Nat.min_l by lia. done.
    - rewrite Nat.min_r, !firstn_all2 by lia. done. }
  rewrite Et, En. fold type.
  apply Z.eqb_neq in Ht as ->. eexists. done.
Qed.

(** ** The handlers on the engine *)

(** What a handler finds when it is called. *)
Record moment := mkMoment {
  at_state : t P D R; at_thread : Z; at_self : Z; at_garbage : list Z; at_old : Z; at_now : Z;
}.

(** The handlers of the login server as programs of the engine. The state of the login
    server is not part of the state of the engine, so each call finds any of the
    moments [world] lists: the environment says which. Extraction moves the read position
    of the packet; its reference count is left to the threads that share it. *)
Definition handler (world : Z -> moment) : Handler := {|
  NetServer.OnConnectionRequest := fun ip port => Ret (LoginServer.OnConnectionRequest ip port);
  NetServer.OnClientJoin := fun _ => skip;
  NetServer.OnClientLeave := fun _ => skip;
  NetServer.OnRecv := fun sid p =>
    (k <- do Rand;;
     pk <- do (Packet p (fun pk => Ok (pk, pk)));;
     let w := world k in
     match OnRecv (at_thread w) (at_self w) (at_garbage w) (at_old w) (at_now w) sid pk (at_state w) with
     | Ok (cs, pk', _) =>
         do (Packet p (fun pk => Ok (tt, CNetPacket.set_ref pk' (CNetPacket.refCount pk))));; run_commands cs
     | Fault f => do (Raise f)
     end)%prog
|}.

Definition world_ok (world : Z -> moment) : Prop := forall k,
  inv (at_state (world k)) /\ Z.of_nat (length (at_garbage (world k))) = DBConnector.MAX_QUERY_LEN.

#[local] Arguments CNetServer.Disconnect : simpl never.
#[local] Arguments CNetServer.SendPacket : simpl never.
#[local] Arguments PacketRef.Alloc : simpl never.
#[local] Arguments PacketRef.Free : simpl never.

Lemma count_SetData p src p' : SetData p src = Ok p' -> CNetPacket.refCount p' = CNetPacket.refCount p.
Proof. unfold SetData, CNetPacket.SetData. intros E. inv_ok. done. Qed.
Lemma count_in ty p v p' : CNetPacket.operator_in ty p v = Ok p' -> CNetPacket.refCount p' = CNetPacket.refCount p.
Proof. unfold CNetPacket.operator_in, CNetPacket.SetData. intros E. inv_ok. done. Qed.

Lemma keeps_fill_response r : keeps_count (fun p => p ← fill_response r p; Ok (tt, p)).
Proof.
  intros pk [] pk' E. unfold fill_response in E. inv_ok.
  repeat match goal with
  | H : CNetPacket.operator_in _ _ _ = Ok _ |- _ => apply count_in in H
  | H : SetData _ _ = Ok _ |- _ => apply count_SetData in H
  end. congruence.
Qed.

Lemma run_commands_neutral {qs : Queues} cs sid T :
  has T (Al (u16 sid)) -> inside T (u16 sid) -> idle T -> Forall (fun c => command_session c = sid) cs ->
  neutral (run_commands cs) T.
Proof.
  intros Ha Hi Ho. assert (He : may_enter T (u16 sid) sid) by (left; exact Hi). induction 1 as [|c cs Hc _ IH]; [done|]. cbn [run_commands].
  eapply wp_frame; [|intros _; exact IH]. destruct c as [s|s r]; cbn in Hc; subst s; cbn [run_command].
  - eapply wp_frame; [apply Disconnect_neutral; auto|]. done.
  - eapply wp_call; [apply Alloc_wp|]. intros p ? ->. cbn. left. split; [left; apply has_tadd|].
    split; [apply keeps_fill_response|]. intros []. cbn.
    eapply wp_frame; [apply SendPacket_neutral; [apply has_tadd_r, Ha|apply Ho|left; apply inside_mono, Hi|apply has_tadd]|].
    intros _. eapply wp_call'; [apply Free_wp, has_tadd|]. intros _ ? ->. apply tsub_tadd.
Qed.

(** C12: the login server keeps the session protocol. Whatever the database and Redis
    answer and whatever state the login server is in, its handlers use the engine
    only for the session they are called for and give back every count they take, so
    every property of the sessions holds with these handlers. *)
Theorem login_server_keeps_protocol (world : Z -> moment) :
  world_ok world -> @HandlerOk (handler world).
Proof.
  intros Hw. split; [done..|]. intros qs sid p T Ha Hi Hp Ho. cbn. intros k.
  left. split; [auto|]. split; [apply (keeps_get (fun pk => pk))|]. intros pk. cbn. destruct (Hw k) as [Hv Hg].
  destruct (OnRecv _ _ _ _ _ _ _ _) as [[[cs pk'] st']|f] eqn:E; [|done].
  destruct (OnRecv_keeps _ _ _ _ _ _ _ _ _ _ _ Hv Hg E) as [_ Hcs]. cbn.
  left. split; [auto|]. split; [intros q [] q' [= <-]; done|]. intros _. eapply run_commands_neutral; done.
Qed.

End properties.

(** ** A small world *)
Module SampleLogin.
#[export] Existing Instance RefPool.ops.
#[export] Existing Instance RefPool.laws.

(** A database that knows the accounts 7 and 123456789012 and fails for account 9. Its
    state is the account asked for last. *)
Definition account (n : Z) : option (option row) :=
  if n =? 9 then None
  else if (n =? 7) || (n =? 123456789012)
  then Some (Some [Some (Text.of_string "park"); Some (Text.of_string "jh"); Some (Text.of_string "key")])
  else Some None.

#[export] Instance sample_db : MySQL (option Z) := {
  mysql_init _ d := d;
  mysql_real_connect _ _ _ _ _ _ d := (true, d);
  mysql_query _ q d :=
    match Text.parse (drop 121 q) with
    | Some n => match account n with None => (false, d) | Some _ => (true, Some n) end
    | None => (false, d)
    end;
  mysql_store_result _ d := (1, d);
  mysql_fetch_row _ d :=
    Ok (match d with Some n => default None (account n) | None => None end, d);
  mysql_free_result _ d := d;
  mysql_close _ d := d;
}.

#[export] Program Instance sample_accounts : AccountDB (option Z) := { account_of _ n := account n }.
Next Obligation. done. Qed.
Next Obligation. done. Qed.
Next Obligation.
  intros conn n d Hn. cbn [mysql_query mysql_store_result mysql_fetch_row sample_db].
  unfold query_for. rewrite drop_app_length' by reflexivity. rewrite Text.parse_decimal by lia.
  destruct (account n) as [r|] eqn:E; [|done]. split; [done|]. rewrite E. eauto.
Qed.

(** A Redis that remembers what was set. *)
#[export] Instance sample_redis : Redis (list (list Z * list Z * Z)) := {
  redis_connect r := (true, r);
  set_advanced k v _ sec r := (k, v, sec) :: r;
  sync_commit r := (true, r);
}.

(** ASCII names. *)
#[export] Instance sample_wide : WideChars := fun text dest n =>
  match text with
  | None => dest
  | Some bs =>
      let w := take (Z.to_nat (2 * n)) (concat ((fun b => [b; 0]) <$> (bs ++ [0]))) in
      (u8 <$> w) ++ drop (length w) dest
  end.

Lemma sample_within : stays_within.
Proof.
  intros text dest [Hl Hb]. destruct text as [bs|]; [|done]. unfold MultiByteToWideChar, sample_wide.
  change (Z.to_nat (2 * 20)) with 40%nat. split.
  - rewrite length_app, length_fmap, length_drop, length_take. lia.
  - apply Forall_app. split; [|apply Forall_drop, Hb]. apply Forall_fmap, Forall_true. intros b. apply is_byte_u8.
Qed.

Definition blank : Character := mkCharacter 0 0 (replicate 65 0) (replicate 40 170) (replicate 40 170) 0.
Definition start : LoginServer.t RefPool.t (option Z) (list (list Z * list Z * Z)) :=
  OnStart (Some 1) (Some 2) 3 4 (new RefPool.empty (fun _ => blank) None []).

Lemma blank_ok c : character_ok ((fun _ : Z => blank) c).
Proof. split; cbn; [done|split; [done|]..]; unfold is_byte; apply (bool_decide_unpack _); vm_compute; done. Qed.

Lemma empty_pool : pool_ok RefPool.empty.
Proof.
  split_and!; [constructor|intros x []%not_elem_of_nil|intros x []%not_elem_of_empty].
Qed.

Lemma start_inv : inv start.
Proof. apply inv_started; [apply empty_pool|done|apply blank_ok|done]. Qed.

(** The engine hands over a packet with a request for account [a]. *)
Definition garbage : list Z := replicate 1024 170.
Definition packet_of (pay : list Z) : CNetPacket.t :=
  CNetPacket.mk (replicate 5 0 ++ pay ++ replicate (1019 - length pay) 0) (5 + Z.of_nat (length pay)) 5 1 false 1024.
Definition key : list Z := Text.of_string "k" ++ replicate 63 0.
Definition joined := default start (match OnClientJoin 1 65537 100 start with Ok st => Some st | Fault _ => None end).
End SampleLogin.
Import SampleLogin.

Lemma joined_inv : inv joined.
Proof. apply (OnClientJoin_ok start 1 65537 100 joined start_inv); reflexivity. Qed.

Lemma packet_of_ok pay :
  Forall is_byte pay -> (length pay <= 1019)%nat -> packet_ok (packet_of pay) /\ unread (packet_of pay) = pay.
Proof.
  intros Hb Hl. split.
  - unfold packet_ok, packet_of, CNetPacket.NetHeader.sizeof. cbn [CNetPacket.pBuffer CNetPacket.pWritePos CNetPacket.pReadPos CNetPacket.cBufferSize].
    split_and!; [rewrite !length_app, !length_replicate; lia| |lia..].
    rewrite !Forall_app. split_and!; [|exact Hb|]; apply Forall_replicate; unfold is_byte; lia.
  - unfold unread, packet_of. cbn [CNetPacket.pBuffer CNetPacket.pWritePos CNetPacket.pReadPos].
    rewrite drop_app_length' by done. apply take_app_length'. lia.
Qed.

(** An account the database knows, one it does not know, one whose query fails and one
    whose number is too long. *)
Lemma login_outcome_witness :
  let handled a := OnRecv 1 5000 garbage 0 200 65537 (packet_of (request a key)) joined in
  (exists p' st', handled 7 = Ok ([CmdSend 65537 (mkResponse 7 1
       (MultiByteToWideChar (Some (Text.of_string "park")) (replicate 40 170) 20)
       (MultiByteToWideChar (Some (Text.of_string "jh")) (replicate 40 170) 20))], p', st') /\
     _loginSuccessCnt st' = 1 /\ redis st' = [(Text.of_string "7", Text.of_string "k", 5000)]) /\
  (exists p' st', handled 8 =
     Ok ([CmdSend 65537 (mkResponse 8 0 (replicate 40 170) (replicate 40 170)); CmdDisconnect 65537], p', st') /\
     redis st' = []) /\
  (exists p' st', handled 9 =
     Ok ([CmdSend 65537 (mkResponse 9 0 (replicate 40 170) (replicate 40 170)); CmdDisconnect 65537], p', st') /\
     redis st' = []) /\
  handled 123456789012 = Fault InvalidParameter.
Proof.
  intros handled.
  assert (Hreq : forall a, Forall is_byte (request a key)).
  { intros a. unfold request, key. cbn [print_message LOGIN_REQ_LOGIN print_field].
    rewrite app_nil_r, !Forall_app. split_and!; [apply le_bytes_byte|apply le_bytes_byte| |];
      [repeat constructor; unfold is_byte; cbn; lia|apply Forall_replicate; unfold is_byte; lia]. }
  assert (Hlen : forall a, length (request a key) = 74%nat).
  { intros a. unfold request. cbn [print_message LOGIN_REQ_LOGIN print_field]. rewrite !length_app, !length_le_bytes. done. }
  assert (Hok : forall a, packet_ok (packet_of (request a key)) /\
                          unread (packet_of (request a key)) = request a key ++ []).
  { intros a. rewrite app_nil_r. apply packet_of_ok; [apply Hreq|rewrite Hlen; lia]. }
  pose proof (fun a Ha => login_outcome sample_within joined 1 5000 garbage 0 200 65537 1
    (packet_of (request a key)) a key [] joined_inv (proj1 (Hok a)) eq_refl eq_refl (proj2 (Hok a)) Ha eq_refl
    (fun _ _ _ _ _ _ _ => eq_refl) (conj (fun _ => eq_refl) (fun _ => eq_refl))) as HL.
  split; [|split; [|split]].
  - destruct (HL 7 ltac:(lia)) as (p' & st' & E & _ & E1 & E2). exists p', st'.
    split; [exact E|]. split; [rewrite E1; reflexivity|rewrite E2; reflexivity].
  - destruct (HL 8 ltac:(lia)) as (p' & st' & E & _ & _ & E2). exists p', st'. split; [exact E|exact E2].
  - destruct (HL 9 ltac:(lia)) as (p' & st' & E & _ & _ & E2). exists p', st'. split; [exact E|exact E2].
  - apply (HL 123456789012). lia.
Defined.

Definition sample_response : response :=
  mkResponse (-5) 1 (wchar16 "park" ++ replicate 8 0) (wchar16 "jh" ++ replicate 8 0).
Definition empty_packet : CNetPacket.t := CNetPacket.new_default (replicate 1024 0).

Lemma response_is_documented_witness :
  packet_ok empty_packet /\
  exists p', fill_response sample_response empty_packet = Ok p' /\ length (payload p') = 159%nat /\
    read_message (payload p') = Some (en_PACKET_CS_LOGIN_RES_LOGIN, response_values sample_response, []).
Proof.
  assert (Hp : packet_ok empty_packet).
  { apply packet_ok_new; [done|]. apply Forall_replicate. unfold is_byte. lia. }
  split; [exact Hp|].
  destruct (response_is_documented sample_response empty_packet) as (p' & E & _ & _ & El & Er);
    [exact Hp|done|vm_compute; congruence|cbn; lia|cbn; lia|..].
  - split; [done|]. unfold is_byte. apply (bool_decide_unpack _). vm_compute. done.
  - split; [done|]. unfold is_byte. apply (bool_decide_unpack _). vm_compute. done.
  - exists p'. exact (conj E (conj El Er)).
Defined.

(** Two sessions join, one logs in, the other leaves. *)
Definition sample_history : list call :=
  [Join 1 65537 100; Join 1 131074 110; Recv 2 5000 garbage 0 200 65537 (packet_of (request 7 key));
   Leave 2 131074].

Lemma characters_follow_sessions_witness :
  exists cs st, calls start sample_history = Ok (cs, st) /\ dom (characterMap st) = {[65537]} /\
    Forall2 (fun k c => Forall (fun x => command_session x = call_session k) c) sample_history cs.
Proof.
  destruct (calls start sample_history) as [[cs st]|f] eqn:E; [|vm_compute in E; done].
  exists cs, st. split; [done|].
  destruct (characters_follow_sessions sample_within RefPool.empty (fun _ => blank) None [] (Some 1) (Some 2) 3 4
    sample_history cs st {[65537]}) as (Hd & _ & _ & _ & Hc).
  - apply empty_pool.
  - done.
  - apply blank_ok.
  - done.
  - repeat constructor.
  - apply (bool_decide_unpack _). vm_compute. done.
  - exact E.
  - exact (conj Hd Hc).
Defined.

Lemma other_messages_dropped_witness :
  let beat := packet_of (print_message CHAT_REQ_HEARTBEAT [NoValue]) in
  (exists p' st', OnRecv 1 5000 garbage 0 200 65537 beat joined = Ok ([], p', st') /\
     _lastRecvTime (characters st' 1) = 200) /\
  OnRecv 1 5000 garbage 0 200 131074 beat joined = Ok ([CmdDisconnect 131074], beat, joined).
Proof.
  intros beat.
  assert (Hp : packet_ok beat).
  { apply packet_of_ok; [unfold is_byte; apply (bool_decide_unpack _); vm_compute; done|cbn; lia]. }
  split.
  - destruct (other_messages_dropped joined 1 5000 garbage 0 200 65537 beat Hp) as (p' & E); [done|].
    exists p'. eexists. split; [exact E|]. reflexivity.
  - apply (other_messages_dropped joined 1 5000 garbage 0 200 131074 beat Hp).
Defined.

Lemma login_server_keeps_protocol_witness :
  let world := fun _ : Z => mkMoment joined 1 5000 garbage 0 200 in
  world_ok world /\ @HandlerOk (handler world).
Proof.
  intros world. assert (Hw : world_ok world) by (intros k; split; [apply joined_inv|done]).
  split; [exact Hw|]. apply (login_server_keeps_protocol sample_within world Hw).
Defined.
